(* ===== verification/_CoqProject ===== *)
-Q . S2P
Prelude.v
Pb.v
Raft.v
RaftWf.v
Cluster.v
Authored.v
ClusterTrans.v
Sample.v
Election.v
Logs.v
LogInv.v
LogStep.v
LogSafety.v
RaftSpec.v
RaftTiming.v
RaftGaps.v
Progress.v
Liveness.v
Lease.v
Rsm.v
Kv.v
Storage.v
Metrics.v
Node.v
NodeSpec.v
NodeRuns.v
System.v
SystemRuns.v
StaleReads.v
CurrentReads.v
Acks.v
StoreSpec.v
Transport.v
TransportApi.v
Discovery.v
Server.v
Rpc.v
RpcPath.v
Cli.v
Status.v
Logger.v
