(* ===== verification/Prelude.v ===== *)
(** * Phalanx: a verification library for the consensus engine

    Phalanx (src/) is a replicated key-value store: a Raft library, a node that
    runs it over gRPC on top of BadgerDB, gossip discovery, an in-memory
    transport for tests, a server binary and a command-line client.  This
    library models the Go code operation by operation, and proves what makes
    the parts and their composition correct, or shows by a theorem where they
    are not.

    ** How the parts interact

    A tick, an RPC of a peer or a client call takes the node's mutex and runs
    one operation of the Raft state machine on it.  In the same critical
    section the node applies what became committed to the key-value store,
    answers the proposals that waited for it, saves term and vote, and starts
    a goroutine for every outbound message.  The reply of such an RPC comes
    back as another critical section.  Gossip reports peers on a channel that
    the node's event loop reads.

    ** Conventions

    An operation is a function; [None] is a run-time panic of Go, [x <- e;; k]
    runs on unless [e] panics (below, with the other shared notation, tactics
    and lemmas).  A [uint64] is an [N] below [2^64] with [+u] and [-u] wrapping
    around; a Go [int] is a [Z], reduced by [i64] where the source adds to it.
    A Go map is a [gmap] ([option (gmap _)] where the nil map matters).  Code
    that is not in the repository is a class whose laws are its documented
    behaviour: math/rand ([Raft.GoRand]), encoding/json ([Kv.CommandJson],
    [Storage.EntryJson]), BadgerDB ([Storage.Badger]), memberlist
    ([Discovery.Memberlist]), grpc-go and its JSON bodies ([Rpc.Grpc],
    [Rpc.JsonMessage]), JSON documents ([Status.JsonText]), log/slog
    ([Logger.SlogHandler]); each has a concrete instance on which the
    witnesses evaluate.  Where a theorem also needs that calls into the
    database do not fail, that is a named hypothesis ([reads_ok], [saves_ok]).

    ** Files

    - [Pb]: the wire structs (src/pb/).
    - [Raft]: state and every operation of src/raft/raft.go, in source order.
      [RaftWf]: the representation invariant [raft_wf], closed forms of the
      operations on it, and that they do not panic.
    - [Cluster]: nodes of a fixed membership over a network that loses,
      duplicates and reorders; steps, restarts, executable runs.
      [ClusterTrans] splits a step into elementary transitions; [Election],
      [Logs], [LogInv], [LogStep], [LogSafety] prove safety over them.
      [Authored]: the state machine makes up no entries.  [Sample]: a concrete
      cluster of three.
    - [RaftSpec], [RaftTiming], [RaftGaps]: single operations, the tick
      counters and log back-off, and behaviours that differ from the comments.
    - [Progress], [Liveness]: schedules by which a leader commits its log and a
      majority elects a leader.  [Lease]: when a leader has every commit.
      [Rsm]: the specification of the cluster, one log of what clients ask for,
      and the forward simulation.
    - [Kv] (src/fsm/kv.go), [Storage] (src/storage/store.go), [Metrics]
      (src/observability/metrics.go).
    - [Node]: one Definition per handler of src/node.go, [NodeSpec]: the node
      invariant and the effect of each handler, [NodeRuns]: a concrete node.
    - [System]: nodes that run those handlers, with the RPCs between them, and
      a simulation by [Cluster]; [SystemRuns]: a concrete system;
      [StaleReads]: a run of it in which a read returns an old value;
      [CurrentReads]: when a read is current; [Acks]: what a client that was told
      of success may rely on; [StoreSpec]: the system as an implementation of
      [Rsm].
    - [Transport] (src/network/local.go, pool.go, transport.go): transports
      over a shared heap, and their specification over values; [TransportApi]:
      the interface of a transport with its promises as laws.
    - [Discovery] (src/discovery/) with the event loop of the node;
      [Server] (src/cmd/server/main.go); [Rpc] and [RpcPath]
      (src/network/grpc_transport.go, src/pb/rpc.go): connections, and a call
      from its codec to the handler and back; [Cli] (src/cmd/phalanx/main.go);
      [Status]: the debug endpoint and the status command that prints it;
      [Logger] (src/logger/logger.go).

    ** What the theorems show

    - Safety of Raft (Election, LogSafety): one leader per term and one vote
      per term, with crashes; state machine safety, leader completeness, log
      matching and stable committed prefixes without crashes; and a run in
      which a crash loses an applied entry, since the log is not persisted.
    - The specification (Rsm), in runs without crashes: the cluster, with all its terms, votes and messages,
      implements a log that only grows, by entries somebody proposed, and that
      every node applies in order.
    - Progress of Raft (Progress, Liveness): no state that two or more nodes reach
      without crashes is stuck, as long as the counters have room.  Any majority, with only its own ticks and messages, can
      elect a leader and commit any command ([majority_can_commit]), and a
      leader can commit its log with a majority that is not in a later term
      ([leader_can_commit]); schedules are built from what messages do, so every
      step of the way is one of the operations.
    - Operations of Raft (RaftSpec, RaftTiming): no panics on messages whose
      entries have consecutive indices (others can panic a node,
      [RaftGaps.malformed_requests_panic]), exactly what a follower's log becomes,
      the commit rule, the hand-out of every committed entry, the exact condition
      for a vote, elections at exactly the timeout, back-off terminates.
      RaftGaps: a single node never commits, one follower can renew the read
      lease, a peer with an empty log added at run time never catches up.
    - Store and database (Kv, Storage): commands mean what they say, hard
      state round trip, appending, truncating and loading the log.
    - Node (NodeSpec): every well-formed RPC is answered after an attempt to save
      the hard state, and a granted vote can be loaded back when that succeeded;
      proposals, the replay of committed commands, no panics on well-formed
      requests, restarts.
    - Composition (System): the system of nodes, RPCs, databases and stores
      refines the cluster, with and without crashes, so that in crash-free
      runs replicas hold states of one history; such a system implements [Rsm]
      with the requests its clients made in that order, and every store is the
      replay of the first part of its log (StoreSpec).  A command of whose success
      the client is told while the node is in the term of the proposal is in the
      store of every later settled leader (Acks); without that condition the
      client may be told of a success that is not one
      ([NodeRuns.success_for_lost_proposal]).  A read is current when the leader has committed an entry of its own term and no node
      is in a later term (CurrentReads, from Lease); the lease that the source
      checks does not ensure it: a deposed leader whose lease is fresh serves an
      overwritten value (StaleReads).
    - Around it: the in-memory transport refines a network of values and keeps
      the order of messages, but panics on a closed peer (Transport), and keeps
      the promises of its interface for a closed transport (TransportApi); events
      of the mesh keep their order in a bounded channel and make peers
      reachable (Discovery); when the server starts and when it panics, and
      why default addresses collide (Server); connections are shared however
      goroutines interleave (Rpc), and a call runs the handler it names and
      brings back its answer (RpcPath); a value put and not overwritten is the
      value got from a leader with a lease that has applied it (Cli);
      the status command shows the state of the node (Status).

    ** Bounds

    Terms and log indices are 64-bit.  Theorems about runs assume that no
    counter is one step from wrapping around ([headroom], [room],
    [sys_headroom]: term + 1 and log length + 1 below [2^64]); no run of
    practical length leaves that range.  Loops of the source whose number of
    iterations is known at entry recurse on that number
    ([maybeAdvanceCommit_loop], [collect]); the others are structural, but for
    [Server.strip_all], whose fuel is the length of the string, and every
    round takes at least one byte ([Server.strip_all_done]).

    ** What is not modelled

    - Log output, process signals, and the sockets under gRPC and HTTP (Start,
      Addr, ListenAndServe): input and output without state of the protocol.
    - Numbers of a status document that a float64 does not represent exactly:
      the theorem about the status command assumes them below [2^53].
    - Wall-clock time: ticks, timeouts and expired contexts are events.
    - Data races inside a critical section: each is atomic, as its mutex makes
      it.  Where the source leaves the lock in between, the model has two
      steps (the reply of an RPC, the wait of a proposal, the [select] of
      [Transport.Send], the two sections of [Rpc.getConn]).
    - The bytes of JSON: a codec is a class with a round-trip law.  In [System]
      an RPC carries its request; [RpcPath] shows what happens in between.
    - Changes of the membership in [Cluster] and [System]: discovery only adds
      peers locally and never proposes a configuration entry
      ([NodeRuns.join_proposes_nothing]), so that quorums of different nodes
      need not intersect and no theorem about runs could hold; its effect on
      one node is in [RaftGaps], [Discovery] and [Server].
    - Deployment scripts and the interface file under src/proto/. *)

From stdpp Require Export base tactics numbers list fin_maps gmap strings.
From Stdlib Require Export ZArith NArith Lia.
From Stdlib Require Export Strings.Byte.


(** ** Notation scope of the development *)

Declare Scope go_scope.
Delimit Scope go_scope with go.
#[export] Set Warnings "-notation-overridden,-postfix-notation-not-level-1".

(** ** Record update, one field at a time

    Go assigns to struct fields in place.  [r <| f := v |>] is the record [r]
    with field [f] replaced.  A record type opts in by giving its
    eta-expansion; the setter of a field is found by abstracting the
    projection out of that expansion, so that projections of updated records
    reduce by computation. *)

Class Settable (R : Type) := { eta_expand : R → R }.

Class Setter {R E : Type} (proj : R → E) := { modify : (E → E) → R → R }.
Arguments modify {R E} proj {_} f r : simpl nomatch.

(** The ascription of [eq_refl] rejects a setter that does not set. *)
Ltac derive_setter proj :=
  match type of proj with
  | ?R → ?E =>
      let inst := constr:(_ : Settable R) in
      let body := eval hnf in (@eta_expand R inst) in
      let abs := eval pattern proj in body in
      lazymatch abs with
      | ?F proj =>
          let upd := constr:(fun (f : E → E) => F (fun x : R => f (proj x))) in
          let upd := eval cbv beta in upd in
          let ok := constr:(fun (f : E → E) (r : R) =>
                              (eq_refl : proj (upd f r) = f (proj r))) in
          exact (@Build_Setter R E proj upd)
      end
  end.

#[export] Hint Extern 1 (Setter ?proj) => derive_setter proj : typeclass_instances.

Notation "r <| f := v |>" := (modify f (fun _ => v) r)
  (at level 8, left associativity, f at level 0, v at level 99,
   format "r  <| f  :=  v |>") : go_scope.
Open Scope go_scope.

(** ** Bytes and machine integers

    A [uint64] is an [N] below [2^64]; sums and differences that the source
    computes are reduced explicitly.  A Go [int] is a [Z]; the increments and
    sums the source makes on [int] counters go through [i64]. *)

Abbreviation bytes := (list Byte.byte).

#[export] Instance byte_eq_dec : EqDecision Byte.byte := Byte.byte_eq_dec.

#[export] Instance byte_countable : Countable Byte.byte.
Proof.
  refine (inj_countable Byte.to_N Byte.of_N _).
  intros b. apply Byte.of_to_N.
Defined.

Definition two64 : N := 18446744073709551616%N.

Definition u64 (n : N) : N := (n mod two64)%N.
Definition u64_add (a b : N) : N := u64 (a + b).
Definition u64_sub (a b : N) : N := u64 (a + (two64 - u64 b)).

Definition i64 (z : Z) : Z :=
  ((z + 9223372036854775808) mod 18446744073709551616 - 9223372036854775808)%Z.

Infix "+u" := u64_add (at level 50, left associativity) : go_scope.
Infix "-u" := u64_sub (at level 50, left associativity) : go_scope.

Create HintDb go discriminated.
Create Rewrite HintDb go.

Lemma u64_small n : (n < two64)%N → u64 n = n.
Proof. apply N.mod_small. Qed.

Lemma u64_lt n : (u64 n < two64)%N.
Proof. apply N.mod_lt. done. Qed.

Lemma u64_add_small a b : (a + b < two64)%N → a +u b = (a + b)%N.
Proof. apply u64_small. Qed.

Lemma u64_sub_small a b : (b ≤ a)%N → (a < two64)%N → a -u b = (a - b)%N.
Proof.
  intros Hle Hlt. unfold u64_sub. rewrite (u64_small b) by lia.
  unfold u64. replace (a + (two64 - b))%N with ((a - b) + 1 * two64)%N by lia.
  rewrite N.Div0.mod_add. apply N.mod_small. lia.
Qed.

Lemma u64_sub_wrap b : (0 < b)%N → (b < two64)%N → 0%N -u b = (two64 - b)%N.
Proof.
  intros Hpos Hlt. unfold u64_sub. rewrite (u64_small b) by done.
  rewrite N.add_0_l. apply u64_small. lia.
Qed.

Lemma i64_small z :
  (-9223372036854775808 ≤ z < 9223372036854775808)%Z → i64 z = z.
Proof. intros H. unfold i64. rewrite Z.mod_small; lia. Qed.

Lemma i64_range z : (-9223372036854775808 ≤ i64 z < 9223372036854775808)%Z.
Proof. unfold i64. pose proof (Z.mod_pos_bound (z + 9223372036854775808) 18446744073709551616). lia. Qed.

Definition int_max : Z := 9223372036854775807.

(** A counter that is incremented until it reaches a limit gets there, from
    wherever it starts and even if it wraps around first. *)
Lemma count_up (limit : Z) (P : Z → Prop) :
  (limit ≤ int_max)%Z →
  (∀ e, (limit ≤ i64 (e + 1))%Z → P e) →
  (∀ e, (i64 (e + 1) < limit)%Z → P (i64 (e + 1)) → P e) → ∀ e, P e.
Proof.
  unfold int_max. intros Hlim Hnow Hwait.
  assert (∀ n e, (-9223372036854775808 ≤ e < 9223372036854775807)%Z →
    (limit - e ≤ 1 + Z.of_nat n)%Z → P e) as Hsoon.
  { induction n as [|n IH]; intros e He Hn; pose proof (i64_small (e + 1) ltac:(lia)) as Hs;
      (destruct (decide (limit ≤ i64 (e + 1))%Z); [by apply Hnow|]); [lia|].
    apply Hwait; [lia|]. apply IH; lia. }
  intros e. destruct (decide (limit ≤ i64 (e + 1))%Z); [by apply Hnow|].
  apply Hwait; [lia|]. pose proof (i64_range (e + 1)).
  apply (Hsoon (Z.to_nat (limit - i64 (e + 1)))); lia.
Qed.

#[export] Hint Resolve u64_lt : go.
#[export] Hint Rewrite u64_add_small u64_sub_small u64_small using lia : go.

(** ** Fallible code

    A Go run-time panic (index or slice bounds out of range, assignment to an
    entry of a nil map, [rand.Intn] of a non-positive argument) is [None];
    [x <- e;; k] runs [e] and goes on with [k] unless [e] panicked. *)

Definition seq_bind {A B} (m : option A) (k : A → option B) : option B :=
  match m with Some a => k a | None => None end.

Notation "x <- m ;; k" := (seq_bind m (fun x => k))
  (at level 100, m at next level, right associativity) : go_scope.
Lemma seq_bind_Some {A B} (m : option A) (k : A → option B) b :
  seq_bind m k = Some b → ∃ a, m = Some a ∧ k a = Some b.
Proof. destruct m; naive_solver. Qed.

(** Split the equations [x <- m;; k = Some _] of the context into steps. *)
Ltac inv_seq :=
  repeat match goal with
  | H : seq_bind _ _ = Some _ |- _ =>
      let a := fresh "a" in let Ha := fresh "Hm" in
      apply seq_bind_Some in H as (a & Ha & H)
  end.

(** Total correctness of fallible code: it does not panic, and its result
    satisfies [P]. *)
Definition returns {A} (m : option A) (P : A → Prop) : Prop :=
  ∃ a, m = Some a ∧ P a.

Lemma returns_Some {A} (a : A) (P : A → Prop) : P a → returns (Some a) P.
Proof. intros H. by exists a. Qed.

Lemma returns_bind {A B} (m : option A) (k : A → option B) P Q :
  returns m P → (∀ a, P a → returns (k a) Q) → returns (seq_bind m k) Q.
Proof. intros (a & -> & Ha) Hk. by apply Hk. Qed.

Lemma returns_mono {A} (m : option A) (P Q : A → Prop) :
  returns m P → (∀ a, P a → Q a) → returns m Q.
Proof. intros (a & -> & Ha) HPQ. exists a. auto. Qed.

#[export] Hint Resolve returns_Some : go.

(** ** Go maps

    [None] is the nil map: reading it gives the zero value, ranging over it
    visits nothing, and assigning into it panics. *)

Definition map_read {V} (zero : V) (m : option (gmap string V)) (k : string) : V :=
  default zero (m ≫= lookup k).

Definition map_write {V} (m : option (gmap string V)) (k : string) (v : V)
    : option (option (gmap string V)) :=
  kvs <- m;; Some (Some (<[k := v]> kvs)).

Lemma map_read_write_eq {V} (zero v : V) kvs k :
  map_read zero (Some (<[k := v]> kvs)) k = v.
Proof. unfold map_read. simpl. by rewrite lookup_insert_eq. Qed.

Lemma map_read_write_ne {V} (zero v : V) kvs k k' :
  k ≠ k' → map_read zero (Some (<[k := v]> kvs)) k' = map_read zero (Some kvs) k'.
Proof. intros Hne. unfold map_read. simpl. by rewrite lookup_insert_ne. Qed.

Lemma map_write_Some {V} (m : option (gmap string V)) k v m' :
  map_write m k v = Some m' → ∃ kvs, m = Some kvs ∧ m' = Some (<[k := v]> kvs).
Proof. destruct m as [kvs|]; naive_solver. Qed.

(** Every value of the map is a [uint64]. *)
Definition map_u64 (m : option (gmap string N)) : Prop :=
  ∀ k, (map_read 0 m k < two64)%N.

Lemma map_u64_insert kvs k v :
  map_u64 (Some kvs) → (v < two64)%N → map_u64 (Some (<[k := v]> kvs)).
Proof.
  intros Hm Hv k'. destruct (decide (k = k')) as [->|Hne].
  - by rewrite map_read_write_eq.
  - by rewrite map_read_write_ne.
Qed.

(** [for _, v := range m { if v { n++ } }] *)
Definition count_true (m : option (gmap string bool)) : Z :=
  match m with
  | None => 0%Z
  | Some kvs => map_fold (fun _ (v : bool) n => if v then (n + 1)%Z else n) 0%Z kvs
  end.

Definition granted (m : option (gmap string bool)) : gset string :=
  match m with
  | None => ∅
  | Some kvs => dom (filter (fun kv => kv.2 = true) kvs)
  end.

Lemma elem_of_granted m k :
  k ∈ granted m ↔ map_read false m k = true.
Proof.
  destruct m as [kvs|]; simpl; [|set_solver].
  rewrite elem_of_dom. unfold map_read. simpl. split.
  - intros [v Hv]. apply map_lookup_filter_Some in Hv as [Hk Hv]. simpl in Hv. by rewrite Hk.
  - destruct (kvs !! k) as [v|] eqn:Hk; simpl; [|done]. intros ->.
    exists true. by apply map_lookup_filter_Some.
Qed.

(** The loop that counts votes computes the number of granters, whatever the
    order in which the map is visited. *)
Lemma count_true_granted m : count_true m = Z.of_nat (size (granted m)).
Proof.
  destruct m as [kvs|]; [|done]. simpl.
  induction kvs as [|k v kvs Hk IH] using map_ind.
  - by rewrite map_fold_empty, map_filter_empty, dom_empty_L, size_empty.
  - rewrite map_fold_insert_L; [|intros; repeat case_match; lia|done].
    destruct v.
    + rewrite map_filter_insert_True by done.
      rewrite dom_insert_L, size_union, size_singleton, IH; [lia|].
      intros x Hx%elem_of_singleton. subst. intros Hd%elem_of_dom.
      destruct Hd as [b Hb%map_lookup_filter_Some]. naive_solver.
    + rewrite map_filter_insert_False by done.
      by rewrite delete_id, IH by done.
Qed.

(** ** Quorums *)

Lemma quorum_intersection (members Q1 Q2 : gset string) :
  Q1 ⊆ members → Q2 ⊆ members →
  size members < 2 * size Q1 → size members < 2 * size Q2 →
  ∃ x, x ∈ Q1 ∧ x ∈ Q2.
Proof.
  intros H1 H2 Hs1 Hs2.
  destruct (decide (Q1 ∩ Q2 = ∅)) as [He|Hne].
  - exfalso.
    assert (size (Q1 ∪ Q2) ≤ size members) as Hle by (apply subseteq_size; set_solver).
    rewrite size_union in Hle by set_solver. lia.
  - apply set_choose_L in Hne as [x Hx]. exists x. set_solver.
Qed.

(** ** Lists *)

Lemma last_lookup_pred {A} (l : list A) : last l = l !! pred (length l).
Proof. apply last_lookup. Qed.

Lemma last_drop_lt {A} (l : list A) n :
  n < length l → last (drop n l) = last l.
Proof.
  intros Hn. rewrite !last_lookup, lookup_drop, length_drop. f_equal. lia.
Qed.

Lemma lookup_Some_split {A} (l : list A) i x :
  l !! i = Some x → i < length l.
Proof. apply lookup_lt_Some. Qed.

(** Close goals about [N]/[nat]/[Z] bounds after unfolding the word size. *)
Ltac word := unfold two64 in *; lia.
