(* ===== verification/Pb.v ===== *)
(** * Message types shared by the packages (src/pb/types.go, src/pb/rpc.go)

    The wire structs of the consensus and key-value services, with the two
    methods the source gives [LogEntry].  A Go [[]byte] is a list of bytes;
    the nil and the empty slice are both the empty list, because every test
    the source makes on such a slice is on its length. *)

From S2P Require Import Prelude.

Module Pb.

(** [EntryType uint8]: the two constants the source declares. *)
Inductive EntryType := EntryCommand | EntryConfigChange.

#[export] Instance EntryType_eq_dec : EqDecision EntryType.
Proof. solve_decision. Defined.

Record LogEntry := mkLogEntry {
  eIndex : N;
  eTerm : N;
  eData : bytes;
  eType : EntryType
}.

#[export] Instance LogEntry_settable : Settable LogEntry :=
  {| eta_expand e := mkLogEntry (eIndex e) (eTerm e) (eData e) (eType e) |}.

#[export] Instance LogEntry_eq_dec : EqDecision LogEntry.
Proof. solve_decision. Defined.

(** [LogEntry.Reset]: every field back to its zero value (the retained
    slice capacity is not observable through the list). *)
Definition Reset (e : LogEntry) : LogEntry :=
  e <| eIndex := 0%N |> <| eTerm := 0%N |> <| eData := [] |>
    <| eType := EntryCommand |>.

(** [LogEntry.Clone]: the scalar fields are copied, the data only when it
    is not empty (the clone's data is nil otherwise). *)
Definition Clone (e : LogEntry) : LogEntry :=
  let clone := {| eIndex := eIndex e; eTerm := eTerm e; eData := [];
                  eType := eType e |} in
  if decide (0 < length (eData e))
  then clone <| eData := eData e |>
  else clone.

Lemma Clone_id e : Clone e = e.
Proof. destruct e as [i t [|b d] ty]; reflexivity. Qed.

Lemma fmap_Clone_id (es : list LogEntry) : Clone <$> es = es.
Proof. induction es as [|e es IH]; [done|]. by rewrite fmap_cons, Clone_id, IH. Qed.

Record AppendEntriesRequest := mkAppendEntriesRequest {
  aeTerm : N;
  aeLeaderID : string;
  aePrevLogIndex : N;
  aePrevLogTerm : N;
  aeEntries : list LogEntry;
  aeLeaderCommit : N
}.

Record AppendEntriesResponse := mkAppendEntriesResponse {
  aerTerm : N;
  aerSuccess : bool;
  aerLastLogIndex : N
}.

Record RequestVoteRequest := mkRequestVoteRequest {
  rvTerm : N;
  rvCandidateID : string;
  rvLastLogIndex : N;
  rvLastLogTerm : N;
  rvIsPreVote : bool
}.

Record RequestVoteResponse := mkRequestVoteResponse {
  rvrTerm : N;
  rvrVoteGranted : bool;
  rvrIsPreVote : bool
}.

(** ** Key-value service (src/pb/rpc.go) *)

Record ProposeRequest := mkProposeRequest { pqData : bytes }.

Record ProposeResponse := mkProposeResponse {
  prSuccess : bool;
  prLeaderAddr : string;
  prError : string
}.

Record ReadRequest := mkReadRequest { rqKey : string }.

Record ReadResponse := mkReadResponse {
  rrValue : string;
  rrFound : bool;
  rrLeaderAddr : string;
  rrError : string
}.

End Pb.
Export Pb.
