(* ===== verification/Raft.v ===== *)
(** * The Raft state machine (src/raft/raft.go)

    Types, state and every operation of package [raft], in the order of the
    source.  An operation is a function from states to [option] states:
    [None] is a run-time panic.  Log output is not modelled. *)

From S2P Require Import Prelude Pb.

(** ** math/rand

    The standard library's generator is determined by its seed and by the
    number of values drawn so far.  [intn_value] is that function; the class
    states the documented range of [rand.Intn]. *)

Class GoRand := {
  intn_value : Z → nat → Z → Z;
  intn_value_range seed k n : (0 < n)%Z → (0 ≤ intn_value seed k n < n)%Z
}.

Record Rand := mkRand { rSeed : Z; rDraws : nat }.

Definition NewSource (seed : Z) : Rand := mkRand seed 0.

(** [rand.Intn(n)] panics when [n <= 0]. *)
Definition Intn `{GoRand} (r : Rand) (n : Z) : option (Z * Rand) :=
  if decide (n ≤ 0)%Z then None
  else Some (intn_value (rSeed r) (rDraws r) n, mkRand (rSeed r) (S (rDraws r))).

(** ** State and message types *)

Inductive NodeState := Follower | Candidate | Leader.

#[export] Instance NodeState_eq_dec : EqDecision NodeState.
Proof. solve_decision. Defined.

Definition NodeState_String (s : NodeState) : string :=
  match s with
  | Follower => "FOLLOWER"
  | Candidate => "CANDIDATE"
  | Leader => "LEADER"
  end.

Inductive MessageType :=
  MsgRequestVote | MsgRequestVoteResp | MsgAppendEntries | MsgAppendEntriesResp.

#[export] Instance MessageType_eq_dec : EqDecision MessageType.
Proof. solve_decision. Defined.

Definition MessageType_String (m : MessageType) : string :=
  match m with
  | MsgRequestVote => "RequestVote"
  | MsgRequestVoteResp => "RequestVoteResp"
  | MsgAppendEntries => "AppendEntries"
  | MsgAppendEntriesResp => "AppendEntriesResp"
  end.

(** [const None = ""]: no leader, no vote. *)
Definition NoneID : string := "".

Record Message := mkMessage {
  mType : MessageType;
  mFrom : string;
  mTo : string;
  mTerm : N;
  mPrevLogIndex : N;
  mPrevLogTerm : N;
  mEntries : list LogEntry;
  mLeaderCommit : N;
  mLastLogIndex : N;
  mLastLogTerm : N;
  mIsPreVote : bool;
  mReject : bool;
  mIndex : N
}.

#[export] Instance Message_settable : Settable Message := {| eta_expand m :=
  mkMessage (mType m) (mFrom m) (mTo m) (mTerm m) (mPrevLogIndex m)
    (mPrevLogTerm m) (mEntries m) (mLeaderCommit m) (mLastLogIndex m)
    (mLastLogTerm m) (mIsPreVote m) (mReject m) (mIndex m) |}.

#[export] Instance Message_eq_dec : EqDecision Message.
Proof. solve_decision. Defined.

(** A composite literal [Message{Type, From, To, Term}]: every field left out
    has its zero value. *)
Definition newMessage (ty : MessageType) (from to : string) (term : N) : Message :=
  mkMessage ty from to term 0 0 [] 0 0 0 false false 0.

Record Config := mkConfig {
  cfgID : string;
  cfgPeers : list string;
  cfgElectionTimeout : Z;
  cfgHeartbeatTimeout : Z;
  cfgTerm : N;             (* the value held by the shared atomic at start *)
  cfgRandSeed : Z;
  cfgInitialTerm : N;
  cfgInitialVotedFor : string;
  cfgInitialLog : list LogEntry
}.

Record Raft := mkRaft {
  r_id : string;
  currentTerm : N;
  votedFor : string;
  log : list LogEntry;
  commitIndex : N;
  lastApplied : N;
  nextIndex : option (gmap string N);
  matchIndex : option (gmap string N);
  state : NodeState;
  leaderID : string;
  electionElapsed : Z;
  heartbeatElapsed : Z;
  electionTimeout : Z;
  heartbeatTimeout : Z;
  baseElectionTimeout : Z;
  heartbeatAcked : Z;
  leaderActive : bool;
  votes : option (gmap string bool);
  preVotes : option (gmap string bool);
  peers : list string;
  msgs : list Message;
  termCell : N;            (* the value of the shared *atomic.Uint64 *)
  rand : Rand
}.

#[export] Instance Raft_settable : Settable Raft := {| eta_expand r :=
  mkRaft (r_id r) (currentTerm r) (votedFor r) (log r) (commitIndex r)
    (lastApplied r) (nextIndex r) (matchIndex r) (state r) (leaderID r)
    (electionElapsed r) (heartbeatElapsed r) (electionTimeout r)
    (heartbeatTimeout r) (baseElectionTimeout r) (heartbeatAcked r)
    (leaderActive r) (votes r) (preVotes r) (peers r) (msgs r) (termCell r)
    (rand r) |}.

(** ** Log helpers *)

Definition sentinel : LogEntry := mkLogEntry 0 0 [] EntryCommand.

(** [r.log[len(r.log)-1]] panics on an empty slice. *)
Definition lastLogIndex (r : Raft) : option N :=
  e <- last (log r);; Some (eIndex e).

Definition lastLogTerm (r : Raft) : option N :=
  e <- last (log r);; Some (eTerm e).

Definition log_term (l : list LogEntry) (index : N) : N :=
  if decide (N.of_nat (length l) ≤ index)%N then 0%N
  else default 0%N (eTerm <$> l !! N.to_nat index).

Definition logTerm (r : Raft) (index : N) : N := log_term (log r) index.

Definition isLogUpToDate (r : Raft) (lastIndex lastTerm : N) : option bool :=
  ourTerm <- lastLogTerm r;;
  ourIndex <- lastLogIndex r;;
  Some (if decide (lastTerm ≠ ourTerm) then bool_decide (ourTerm < lastTerm)%N
        else bool_decide (ourIndex ≤ lastIndex)%N).

(** ** Quorum *)

Definition clusterSize (r : Raft) : Z := (Z.of_nat (length (peers r)) + 1)%Z.

Definition quorumSize (r : Raft) : Z := (Z.quot (clusterSize r) 2 + 1)%Z.

Definition quorum (r : Raft) : bool :=
  bool_decide (quorumSize r ≤ count_true (votes r))%Z.

(** ** Internal helpers *)

Definition send (r : Raft) (m : Message) : Raft := r <| msgs := msgs r ++ [m] |>.

Definition syncTerm (r : Raft) : Raft := r <| termCell := currentTerm r |>.

Definition resetElectionTimeout `{GoRand} (r : Raft) : option Raft :=
  vg <- Intn (rand r) (baseElectionTimeout r);;
  let '(v, g) := vg in
  Some (r <| electionTimeout := i64 (baseElectionTimeout r + v) |> <| rand := g |>).

(** [h = (h << 5) + h + uint64(s[i])], modulo [2^64]. *)
Fixpoint djb2_loop (h : N) (s : string) : N :=
  match s with
  | EmptyString => h
  | String c s' =>
      djb2_loop (u64 (N.shiftl h 5) +u h +u Ascii.N_of_ascii c) s'
  end.

Definition djb2 (s : string) : N := djb2_loop 5381 s.

Definition NewRaft `{GoRand} (cfg : Config) : option Raft :=
  let seed := if decide (cfgRandSeed cfg = 0%Z)
              then i64 (Z.of_N (djb2 (cfgID cfg))) else cfgRandSeed cfg in
  let r := mkRaft (cfgID cfg) 0 NoneID [sentinel] 0 0 None None Follower NoneID
             0 0 0 (cfgHeartbeatTimeout cfg) (cfgElectionTimeout cfg) 0 false
             None None (cfgPeers cfg) [] (cfgTerm cfg) (NewSource seed) in
  let r := if decide (0 < cfgInitialTerm cfg)%N
           then syncTerm (r <| currentTerm := cfgInitialTerm cfg |>) else r in
  let r := if decide (cfgInitialVotedFor cfg ≠ "")
           then r <| votedFor := cfgInitialVotedFor cfg |> else r in
  let r := if decide (0 < length (cfgInitialLog cfg))
           then r <| log := log r ++ cfgInitialLog cfg |> else r in
  resetElectionTimeout r.

(** ** Broadcast *)

Fixpoint broadcastRequestVote_loop (lastIdx lastTerm : N) (ps : list string)
    (r : Raft) : Raft :=
  match ps with
  | [] => r
  | peer :: ps' =>
      broadcastRequestVote_loop lastIdx lastTerm ps'
        (send r ((newMessage MsgRequestVote (r_id r) peer (currentTerm r))
                   <| mLastLogIndex := lastIdx |> <| mLastLogTerm := lastTerm |>))
  end.

Definition broadcastRequestVote (r : Raft) : option Raft :=
  lastIdx <- lastLogIndex r;;
  lastTerm <- lastLogTerm r;;
  Some (broadcastRequestVote_loop lastIdx lastTerm (peers r) r).

(** [r.log[n:]] panics when [n] is past the end of the slice. *)
Definition slice_from (l : list LogEntry) (n : N) : option (list LogEntry) :=
  if decide (N.of_nat (length l) < n)%N then None else Some (drop (N.to_nat n) l).

(** [r.log[:n]]: beyond the length the result depends on the capacity of the
    backing array (stale memory or a panic); the model has no value there. *)
Definition slice_to (l : list LogEntry) (n : N) : option (list LogEntry) :=
  if decide (N.of_nat (length l) < n)%N then None else Some (take (N.to_nat n) l).

(** One iteration of the loop of [broadcastHeartbeat]: the message for [peer].
    An absent [nextIndex] entry reads as 0, and [0 - 1] wraps around. *)
Definition heartbeatMessage (r : Raft) (peer : string) : option Message :=
  let next := map_read 0%N (nextIndex r) peer in
  let prevIdx := next -u 1 in
  let prevTerm := logTerm r prevIdx in
  last <- lastLogIndex r;;
  entries <- (if decide (next ≤ last)%N
             then src <- slice_from (log r) next;; Some (Clone <$> src)
             else Some []);;
  Some ((newMessage MsgAppendEntries (r_id r) peer (currentTerm r))
          <| mPrevLogIndex := prevIdx |> <| mPrevLogTerm := prevTerm |>
          <| mEntries := entries |> <| mLeaderCommit := commitIndex r |>).

Fixpoint broadcastHeartbeat_loop (ps : list string) (r : Raft) : option Raft :=
  match ps with
  | [] => Some r
  | peer :: ps' =>
      m <- heartbeatMessage r peer;;
      broadcastHeartbeat_loop ps' (send r m)
  end.

Definition broadcastHeartbeat (r : Raft) : option Raft :=
  broadcastHeartbeat_loop (peers r) r.

(** ** Commit advancement *)

(** [matches := 1; for peer { if matchIndex[peer] >= n { matches++ } }] *)
Fixpoint count_matches (mi : option (gmap string N)) (n : N) (ps : list string)
    (matches : Z) : Z :=
  match ps with
  | [] => matches
  | peer :: ps' =>
      count_matches mi n ps'
        (if decide (n ≤ map_read 0%N mi peer)%N
         then matches + 1 else matches)%Z
  end.

(** The body of the loop for one [n]; [k] iterations starting at [n]. *)
Fixpoint maybeAdvanceCommit_loop (k : nat) (n : N) (r : Raft) : Raft :=
  match k with
  | O => r
  | S k' =>
      maybeAdvanceCommit_loop k' (n +u 1)
        (if decide (logTerm r n ≠ currentTerm r) then r
         else if decide (quorumSize r ≤ count_matches (matchIndex r) n (peers r) 1)%Z
              then r <| commitIndex := n |> else r)
  end.

(** [for n := commitIndex+1; n <= lastLogIndex(); n++]: the loop body never
    changes the log, so the number of iterations is known at entry. *)
Definition maybeAdvanceCommit (r : Raft) : option Raft :=
  last <- lastLogIndex r;;
  let start := commitIndex r +u 1 in
  Some (maybeAdvanceCommit_loop (N.to_nat (last + 1 - start)) start r).

(** ** State transitions *)

Definition becomeFollower `{GoRand} (r : Raft) (term : N) (leader : string)
    : option Raft :=
  let r := r <| state := Follower |> <| currentTerm := term |>
             <| votedFor := NoneID |> <| leaderID := leader |>
             <| leaderActive := bool_decide (leader ≠ NoneID) |>
             <| electionElapsed := 0%Z |> in
  r <- resetElectionTimeout r;;
  Some (syncTerm r).

Fixpoint init_peers {V} (ps : list string) (v : V) (m : gmap string V) : gmap string V :=
  match ps with
  | [] => m
  | peer :: ps' => init_peers ps' v (<[peer := v]> m)
  end.

Definition becomeLeader (r : Raft) : option Raft :=
  let r := r <| state := Leader |> <| leaderID := r_id r |>
             <| heartbeatElapsed := 0%Z |> <| heartbeatAcked := 1%Z |> in
  lastIdx <- lastLogIndex r;;
  let r := r <| nextIndex := Some (init_peers (peers r) (lastIdx +u 1) ∅) |>
             <| matchIndex := Some (init_peers (peers r) 0%N ∅) |> in
  let noop := mkLogEntry (lastIdx +u 1) (currentTerm r) [] EntryCommand in
  let r := r <| log := log r ++ [noop] |> in
  broadcastHeartbeat r.

Definition becomeCandidate `{GoRand} (r : Raft) : option Raft :=
  let r := r <| state := Candidate |> <| currentTerm := currentTerm r +u 1 |>
             <| votedFor := r_id r |> <| leaderID := NoneID |>
             <| votes := Some {[ r_id r := true ]} |>
             <| electionElapsed := 0%Z |> in
  r <- resetElectionTimeout r;;
  let r := syncTerm r in
  if quorum r then becomeLeader r else broadcastRequestVote r.

(** ** Tick handlers *)

Definition tickElection `{GoRand} (r : Raft) : option Raft :=
  let r := r <| electionElapsed := i64 (electionElapsed r + 1) |> in
  if decide (electionTimeout r ≤ electionElapsed r)%Z then
    becomeCandidate (r <| electionElapsed := 0%Z |> <| leaderActive := false |>)
  else Some r.

Definition tickHeartbeat (r : Raft) : option Raft :=
  let r := r <| heartbeatElapsed := i64 (heartbeatElapsed r + 1) |> in
  if decide (heartbeatTimeout r ≤ heartbeatElapsed r)%Z then
    broadcastHeartbeat (r <| heartbeatElapsed := 0%Z |> <| heartbeatAcked := 1%Z |>)
  else Some r.

Definition Tick `{GoRand} (r : Raft) : option Raft :=
  match state r with
  | Follower | Candidate => tickElection r
  | Leader => tickHeartbeat r
  end.

(** ** Message handlers *)

Definition handleRequestVote (r : Raft) (msg : Message) : option Raft :=
  let reply := (newMessage MsgRequestVoteResp (r_id r) (mFrom msg) (currentTerm r))
                 <| mReject := true |> in
  (* Leader stickiness *)
  if decide (leaderActive r = true ∧ mTerm msg ≤ currentTerm r)%N then
    Some (send r (if mIsPreVote msg then reply <| mIsPreVote := true |> else reply))
  else if mIsPreVote msg then
    (* Pre-vote: a read-only query *)
    canGrant <- (if decide (currentTerm r ≤ mTerm msg)%N
                then isLogUpToDate r (mLastLogIndex msg) (mLastLogTerm msg)
                else Some false);;
    Some (send r (reply <| mReject := negb canGrant |> <| mIsPreVote := true |>))
  else if decide (mTerm msg < currentTerm r)%N then
    Some (send r reply)
  else
    let canVote := bool_decide (votedFor r = NoneID ∨ votedFor r = mFrom msg) in
    logOK <- isLogUpToDate r (mLastLogIndex msg) (mLastLogTerm msg);;
    if canVote && logOK then
      let r := r <| votedFor := mFrom msg |> <| electionElapsed := 0%Z |> in
      Some (send r (reply <| mReject := false |>))
    else Some (send r reply).

Definition handleRequestVoteResp `{GoRand} (r : Raft) (msg : Message) : option Raft :=
  if decide (state r ≠ Candidate) then Some r
  else if mIsPreVote msg then
    let pre := match preVotes r with
               | None => Some {[ r_id r := true ]}
               | Some m => Some m
               end in
    pre <- map_write pre (mFrom msg) (negb (mReject msg));;
    let r := r <| preVotes := pre |> in
    if decide (quorumSize r ≤ count_true (preVotes r))%Z
    then becomeCandidate r else Some r
  else if decide (mTerm msg ≠ currentTerm r) then Some r
  else
    vs <- map_write (votes r) (mFrom msg) (negb (mReject msg));;
    let r := r <| votes := vs |> in
    if quorum r then becomeLeader r else Some r.

(** [for hint > 1 && r.logTerm(hint-1) == conflictTerm { hint-- }] *)
Fixpoint hint_loop (l : list LogEntry) (conflictTerm : N) (hint : nat) : nat :=
  match hint with
  | S (S _ as h) =>
      if decide (log_term l (N.of_nat h) = conflictTerm)
      then hint_loop l conflictTerm h else hint
  | _ => hint
  end.

(** The append loop: [i] is the position in the message's entries, [es] the
    entries from there on.  Both branches that change the log leave the loop. *)
Fixpoint append_loop (l : list LogEntry) (prev : N) (i : N) (es : list LogEntry)
    : option (list LogEntry) :=
  match es with
  | [] => Some l
  | entry :: es' =>
      let idx := prev +u i +u 1 in
      lst <- last l;;
      if decide (idx ≤ eIndex lst)%N then
        if decide (log_term l idx ≠ eTerm entry) then
          kept <- slice_to l idx;; Some (kept ++ es)
        else append_loop l prev (i + 1)%N es'
      else Some (l ++ es)
  end.

(** The part of [handleAppendEntries] after the consistency check. *)
Definition acceptEntries (r : Raft) (msg reply : Message) : option Raft :=
  l <- append_loop (log r) (mPrevLogIndex msg) 0 (mEntries msg);;
  let r := r <| log := l |> in
  let r :=
    if decide (commitIndex r < mLeaderCommit msg)%N then
      let lastNewIdx := mPrevLogIndex msg +u N.of_nat (length (mEntries msg)) in
      r <| commitIndex := if decide (mLeaderCommit msg < lastNewIdx)%N
                          then mLeaderCommit msg else lastNewIdx |>
    else r in
  last <- lastLogIndex r;;
  Some (send r (reply <| mReject := false |> <| mIndex := last |>)).

Definition handleAppendEntries `{GoRand} (r : Raft) (msg : Message) : option Raft :=
  let reply := (newMessage MsgAppendEntriesResp (r_id r) (mFrom msg) (currentTerm r))
                 <| mReject := true |> in
  if decide (mTerm msg < currentTerm r)%N then Some (send r reply)
  else
    let r := r <| electionElapsed := 0%Z |> <| leaderID := mFrom msg |>
               <| leaderActive := true |> in
    rr <- (if decide (state r ≠ Follower)
           then r' <- becomeFollower r (mTerm msg) (mFrom msg);;
                Some (r', reply <| mTerm := currentTerm r' |>)
           else Some (r, reply));;
    let '(r, reply) := rr in
    if decide (0 < mPrevLogIndex msg)%N then
      last <- lastLogIndex r;;
      if decide (last < mPrevLogIndex msg)%N then
        Some (send r (reply <| mIndex := last |>))
      else if decide (logTerm r (mPrevLogIndex msg) ≠ mPrevLogTerm msg) then
        let conflictTerm := logTerm r (mPrevLogIndex msg) in
        let hint := hint_loop (log r) conflictTerm (N.to_nat (mPrevLogIndex msg)) in
        Some (send r (reply <| mIndex := N.of_nat hint -u 1 |>))
      else acceptEntries r msg reply
    else acceptEntries r msg reply.

Definition handleAppendEntriesResp (r : Raft) (msg : Message) : option Raft :=
  if decide (state r ≠ Leader) then Some r
  else if decide (mTerm msg ≠ currentTerm r) then Some r
  else if mReject msg then
    if decide (0 < mIndex msg)%N then
      ni <- map_write (nextIndex r) (mFrom msg) (mIndex msg +u 1);;
      Some (r <| nextIndex := ni |>)
    else if decide (1 < map_read 0%N (nextIndex r) (mFrom msg))%N then
      ni <- map_write (nextIndex r) (mFrom msg)
             (map_read 0%N (nextIndex r) (mFrom msg) -u 1);;
      Some (r <| nextIndex := ni |>)
    else Some r
  else
    r <- (if decide (0 < mIndex msg)%N then
           mi <- map_write (matchIndex r) (mFrom msg) (mIndex msg);;
           ni <- map_write (nextIndex r) (mFrom msg) (mIndex msg +u 1);;
           Some (r <| matchIndex := mi |> <| nextIndex := ni |>)
         else Some r);;
    maybeAdvanceCommit (r <| heartbeatAcked := i64 (heartbeatAcked r + 1) |>).

(** ** Public API *)

Definition Step `{GoRand} (r : Raft) (msg : Message) : option Raft :=
  r <- (if decide (currentTerm r < mTerm msg)%N then
         let isPreVote := mIsPreVote msg &&
           bool_decide (mType msg = MsgRequestVote ∨ mType msg = MsgRequestVoteResp) in
         if isPreVote then Some r
         else
           let leader := if decide (mType msg = MsgAppendEntries)
                         then mFrom msg else NoneID in
           becomeFollower r (mTerm msg) leader
       else Some r);;
  match mType msg with
  | MsgRequestVote => handleRequestVote r msg
  | MsgRequestVoteResp => handleRequestVoteResp r msg
  | MsgAppendEntries => handleAppendEntries r msg
  | MsgAppendEntriesResp => handleAppendEntriesResp r msg
  end.

Definition Messages (r : Raft) : list Message * Raft := (msgs r, r <| msgs := [] |>).

Inductive ProposeResult := ErrNotLeader | Proposed (idx : N).

Definition Propose (r : Raft) (data : bytes) : option (ProposeResult * Raft) :=
  if decide (state r ≠ Leader) then Some (ErrNotLeader, r)
  else
    last <- lastLogIndex r;;
    let entry := mkLogEntry (last +u 1) (currentTerm r) data EntryCommand in
    let r := r <| log := log r ++ [entry] |> in
    r <- (match matchIndex r with
         | None => Some r
         | Some _ => mi <- map_write (matchIndex r) (r_id r) (eIndex entry);;
                     Some (r <| matchIndex := mi |>)
         end);;
    r <- broadcastHeartbeat r;;
    Some (Proposed (eIndex entry), r).

(** [for i := lastApplied+1; i <= end; i++ { append(entries, r.log[i]) }] *)
Fixpoint collect (l : list LogEntry) (i : nat) (k : nat) : option (list LogEntry) :=
  match k with
  | O => Some []
  | S k' => e <- l !! i;; rest <- collect l (S i) k';; Some (e :: rest)
  end.

Definition ApplicableEntries (r : Raft) : option (list LogEntry * Raft) :=
  if decide (commitIndex r ≤ lastApplied r)%N then Some ([], r)
  else
    let len := N.of_nat (length (log r)) in
    let end_ := if decide (len ≤ commitIndex r)%N then len -u 1 else commitIndex r in
    if decide (end_ ≤ lastApplied r)%N then Some ([], r)
    else
      entries <- collect (log r) (N.to_nat (lastApplied r + 1))
                  (N.to_nat (end_ - lastApplied r));;
      Some (entries, r <| lastApplied := end_ |>).

Definition HasLeaderQuorum (r : Raft) : bool :=
  bool_decide (state r = Leader) && bool_decide (quorumSize r ≤ heartbeatAcked r)%Z.

Definition bytes_of_string (s : string) : bytes := String.list_byte_of_string s.

Definition ProposeConfigChange (r : Raft) (addr : string) : option Raft :=
  if decide (state r ≠ Leader) then Some r
  else
    last <- lastLogIndex r;;
    let entry := mkLogEntry (last +u 1) (currentTerm r) (bytes_of_string addr)
                   EntryConfigChange in
    broadcastHeartbeat (r <| log := log r ++ [entry] |>).

Definition AddPeer (r : Raft) (nodeID : string) : Raft :=
  if decide (nodeID = r_id r) then r
  else if decide (nodeID ∈ peers r) then r
  else r <| peers := peers r ++ [nodeID] |>.
