(* ===== verification/RaftWf.v ===== *)
(** * Well-formed Raft states, and absence of run-time panics

    The representation invariant of [Raft], the closed form of every
    operation on a well-formed state (the value it returns, with no bind left),
    and the reference function for the append loop of [handleAppendEntries]. *)

From S2P Require Import Prelude Pb Raft.

(** ** Logs *)

(** Position [i] of the log holds the entry of index [i]; position 0 is the
    sentinel; indices are representable. *)
Record log_wf (l : list LogEntry) : Prop := {
  log_wf_sentinel : l !! 0 = Some sentinel;
  log_wf_index i e : l !! i = Some e → eIndex e = N.of_nat i;
  log_wf_bound : (N.of_nat (length l) < two64)%N
}.

Lemma log_wf_nonempty l : log_wf l → 0 < length l.
Proof. intros [Hs _ _]. by apply lookup_lt_Some in Hs. Qed.

Lemma log_wf_last l : log_wf l → ∃ e, last l = Some e ∧ eIndex e = N.of_nat (pred (length l)).
Proof.
  intros Hwf. pose proof (log_wf_nonempty _ Hwf) as Hlen.
  destruct (lookup_lt_is_Some_2 l (pred (length l))) as [e He]; [lia|].
  exists e. rewrite last_lookup. split; [done|]. by eapply log_wf_index.
Qed.

Lemma log_wf_take l n : log_wf l → 0 < n → log_wf (take n l).
Proof.
  intros [Hs Hi Hb] Hn. split.
  - by rewrite lookup_take_lt.
  - intros i e He. apply lookup_take_Some in He as [He _]. by apply Hi.
  - rewrite length_take. lia.
Qed.

(** Entries carrying consecutive indices from [n] on. *)
Definition indexed_from (n : nat) (es : list LogEntry) : Prop :=
  ∀ i e, es !! i = Some e → eIndex e = N.of_nat (n + i).

Lemma indexed_from_drop n k es : indexed_from n es → indexed_from (n + k) (drop k es).
Proof. intros H i e. rewrite lookup_drop. intros He. rewrite (H _ _ He). lia. Qed.

Lemma indexed_from_cons n e es :
  indexed_from n (e :: es) → eIndex e = N.of_nat n ∧ indexed_from (S n) es.
Proof.
  intros H. split; [rewrite (H 0 e) by done; lia|].
  intros i x Hx. rewrite (H (S i) x) by done. lia.
Qed.

Lemma log_wf_app l es :
  log_wf l → indexed_from (length l) es →
  (N.of_nat (length l + length es) < two64)%N → log_wf (l ++ es).
Proof.
  intros [Hs Hi Hb] Hes Hlen. split.
  - by apply lookup_app_l_Some.
  - intros i e. rewrite lookup_app_Some. intros [He|[Hge He]]; [by apply Hi|].
    rewrite (Hes _ _ He). lia.
  - by rewrite length_app.
Qed.

Lemma log_wf_snoc l t d ty :
  log_wf l → (N.of_nat (S (length l)) < two64)%N →
  log_wf (l ++ [mkLogEntry (N.of_nat (length l)) t d ty]).
Proof.
  intros Hwf Hlen. apply log_wf_app; [done| |simpl; lia].
  intros [|[|i]] e; simpl; intros [= <-]; simpl; lia.
Qed.

Lemma lastLogIndex_wf r :
  log_wf (log r) → lastLogIndex r = Some (N.of_nat (pred (length (log r)))).
Proof.
  intros (e & He & Hi)%log_wf_last. unfold lastLogIndex. rewrite He. simpl. by rewrite Hi.
Qed.

Lemma lastLogIndex_succ r :
  log_wf (log r) →
  ∃ last, lastLogIndex r = Some last ∧ last +u 1 = N.of_nat (length (log r)).
Proof.
  intros Hwf. eexists. rewrite lastLogIndex_wf by done. split; [done|].
  pose proof (log_wf_nonempty _ Hwf). pose proof (log_wf_bound _ Hwf).
  rewrite u64_add_small; word.
Qed.

Definition last_term (l : list LogEntry) : N := default 0%N (eTerm <$> last l).

Lemma lastLogTerm_wf r : log_wf (log r) → lastLogTerm r = Some (last_term (log r)).
Proof.
  intros (e & He & _)%log_wf_last. unfold lastLogTerm, last_term. by rewrite He.
Qed.

Lemma log_term_lookup l i e : l !! i = Some e → log_term l (N.of_nat i) = eTerm e.
Proof.
  intros He. unfold log_term. pose proof (lookup_lt_Some _ _ _ He).
  rewrite decide_False by lia. by rewrite Nat2N.id, He.
Qed.

Lemma log_term_lookup_N l i e : l !! N.to_nat i = Some e → log_term l i = eTerm e.
Proof. intros He. rewrite <- (N2Nat.id i). by apply log_term_lookup. Qed.

Lemma log_term_ge l i : (N.of_nat (length l) ≤ i)%N → log_term l i = 0%N.
Proof. intros H. unfold log_term. by rewrite decide_True. Qed.

(** ** The append loop and its reference function *)

(** Walk over the entries; on the first one that has no counterpart of the
    same term in the log, cut the log there and take the rest. *)
Fixpoint merge_log (l : list LogEntry) (p : nat) (es : list LogEntry) : list LogEntry :=
  match es with
  | [] => l
  | e :: es' =>
      match l !! p with
      | Some x => if decide (eTerm x = eTerm e) then merge_log l (S p) es'
                  else take p l ++ es
      | None => l ++ es
      end
  end.

Lemma append_loop_merge l prev i es :
  log_wf l →
  (prev + i + 1 + N.of_nat (length es) < two64)%N →
  (prev + i < N.of_nat (length l))%N →
  append_loop l prev i es = Some (merge_log l (N.to_nat (prev + i + 1)) es).
Proof.
  intros Hwf. revert i. induction es as [|e es IH]; intros i Hb Hi; [done|].
  simpl in Hb |- *. destruct (log_wf_last _ Hwf) as (lst & Hlst & Hidx).
  pose proof (log_wf_nonempty _ Hwf) as Hne. rewrite Hlst. simpl. rewrite Hidx.
  rewrite (u64_add_small prev i) by word. rewrite u64_add_small by word.
  destruct (decide (prev + i + 1 ≤ N.of_nat (pred (length l)))%N) as [Hle|Hgt].
  - destruct (lookup_lt_is_Some_2 l (N.to_nat (prev + i + 1))) as [x Hx]; [lia|].
    rewrite Hx, (log_term_lookup_N _ _ _ Hx).
    destruct (decide (eTerm x = eTerm e)) as [Heq|Hne'].
    + rewrite decide_False by tauto. rewrite IH by (word || lia).
      do 2 f_equal. lia.
    + rewrite decide_True by done. unfold slice_to.
      rewrite decide_False by lia. done.
  - rewrite (lookup_ge_None_2 l) by lia. done.
Qed.

(** Shape of the result: a common part matched term by term, then either the
    log is untouched or it is cut at the first mismatch. *)
Lemma merge_log_shape l p es :
  p ≤ length l →
  ∃ k, k ≤ length es ∧ p + k ≤ length l ∧
    (∀ j x e, j < k → l !! (p + j) = Some x → es !! j = Some e → eTerm x = eTerm e) ∧
    ((k = length es ∧ merge_log l p es = l) ∨
     (k < length es ∧ merge_log l p es = take (p + k) l ++ drop k es ∧
      ∀ x e, l !! (p + k) = Some x → es !! k = Some e → eTerm x ≠ eTerm e)).
Proof.
  revert p. induction es as [|e es IH]; intros p Hp.
  { exists 0. simpl. split_and!; try lia. by left. }
  simpl. destruct (l !! p) as [x|] eqn:Hx.
  - pose proof (lookup_lt_Some _ _ _ Hx) as Hlt.
    destruct (decide (eTerm x = eTerm e)) as [Heq|Hne].
    + destruct (IH (S p)) as (k & Hk & Hpk & Hm & Hres); [lia|].
      exists (S k). split_and!; [lia|lia| |].
      * intros [|j] y f Hj Hy Hf.
        { rewrite Nat.add_0_r in Hy. simpl in Hf. by simplify_eq. }
        apply (Hm j y f); [lia| |done]. by rewrite Nat.add_succ_comm.
      * rewrite !Nat.add_succ_r. destruct Hres as [[-> ?]|(Hlt' & ? & Hmis)]; [by left|].
        right. split_and!; [lia|done|]. intros y f Hy Hf. by apply Hmis.
    + exists 0. rewrite Nat.add_0_r. split_and!; [lia|lia|intros; lia|].
      right. split_and!; [lia|done|]. intros y f Hy Hf. simpl in Hf. by simplify_eq.
  - apply lookup_ge_None in Hx. exists 0. rewrite Nat.add_0_r.
    split_and!; [lia|lia|intros; lia|]. right. split_and!; [lia| |].
    + by rewrite take_ge by lia.
    + intros y f Hy. rewrite lookup_ge_None_2 in Hy; [done|lia].
Qed.

Lemma merge_log_wf l p es :
  log_wf l → 0 < p → p ≤ length l → indexed_from p es →
  (N.of_nat (p + length es) < two64)%N → log_wf (merge_log l p es).
Proof.
  intros Hwf Hp Hle Hes Hb.
  destruct (merge_log_shape l p es Hle) as (k & Hk & Hpk & _ & [[_ ->]|(Hlt & -> & _)]);
    [done|].
  apply log_wf_app; [apply log_wf_take; [done|lia]| |].
  - rewrite length_take. replace (p + k `min` length l) with (p + k) by lia.
    replace ((p + k) `min` length l) with (p + k) by lia.
    by apply indexed_from_drop.
  - rewrite length_take, length_drop. lia.
Qed.

(** ** The state invariant *)

Record raft_wf (r : Raft) : Prop := {
  rw_log : log_wf (log r);
  rw_base : (0 < baseElectionTimeout r)%Z;
  rw_term : (currentTerm r < two64)%N;
  rw_cell : termCell r = currentTerm r;
  rw_votes : state r = Candidate → is_Some (votes r);
  rw_next : state r = Leader → is_Some (nextIndex r);
  rw_match : state r = Leader → is_Some (matchIndex r);
  rw_next_u64 : map_u64 (nextIndex r);
  rw_commit : (commitIndex r + 1 < two64)%N
}.

(** One more entry still has a representable index. *)
Definition log_room (r : Raft) : Prop := (N.of_nat (S (length (log r))) < two64)%N.

(** What a node puts into an AppendEntries request: consecutive indices after
    [PrevLogIndex], or the probe sent to a peer without a [nextIndex] entry,
    whose [PrevLogIndex] is the wrapped [0 - 1]. *)
Definition msg_wf (m : Message) : Prop :=
  (mTerm m < two64)%N ∧
  (mType m = MsgAppendEntries →
   (mPrevLogIndex m + 1 = two64)%N ∨
   (mPrevLogIndex m + 1 + N.of_nat (length (mEntries m)) < two64)%N ∧
   indexed_from (N.to_nat (mPrevLogIndex m + 1)) (mEntries m)).

(** ** Closed forms of the operations *)

Section closed_forms.
Context {GR : GoRand}.

Definition reset_timeout (r : Raft) : Raft :=
  r <| electionTimeout := i64 (baseElectionTimeout r +
         intn_value (rSeed (rand r)) (rDraws (rand r)) (baseElectionTimeout r)) |>
    <| rand := mkRand (rSeed (rand r)) (S (rDraws (rand r))) |>.

Definition follower_of (r : Raft) (t : N) (leader : string) : Raft :=
  syncTerm (reset_timeout
    (r <| state := Follower |> <| currentTerm := t |> <| votedFor := NoneID |>
       <| leaderID := leader |> <| leaderActive := bool_decide (leader ≠ NoneID) |>
       <| electionElapsed := 0%Z |>)).

Definition candidate_of (r : Raft) : Raft :=
  syncTerm (reset_timeout
    (r <| state := Candidate |> <| currentTerm := currentTerm r +u 1 |>
       <| votedFor := r_id r |> <| leaderID := NoneID |>
       <| votes := Some {[ r_id r := true ]} |> <| electionElapsed := 0%Z |>)).

Definition noop_of (r : Raft) : LogEntry :=
  mkLogEntry (N.of_nat (length (log r))) (currentTerm r) [] EntryCommand.

Definition leader_of (r : Raft) : Raft :=
  r <| state := Leader |> <| leaderID := r_id r |>
    <| heartbeatElapsed := 0%Z |> <| heartbeatAcked := 1%Z |>
    <| nextIndex := Some (init_peers (peers r) (N.of_nat (length (log r))) ∅) |>
    <| matchIndex := Some (init_peers (peers r) 0%N ∅) |>
    <| log := log r ++ [noop_of r] |>.

Definition heartbeat_to (r : Raft) (peer : string) : Message :=
  let next := map_read 0%N (nextIndex r) peer in
  mkMessage MsgAppendEntries (r_id r) peer (currentTerm r) (next -u 1)
    (logTerm r (next -u 1)) (drop (N.to_nat next) (log r)) (commitIndex r)
    0 0 false false 0.

Definition vote_request_to (r : Raft) (peer : string) : Message :=
  mkMessage MsgRequestVote (r_id r) peer (currentTerm r) 0 0 [] 0
    (N.of_nat (pred (length (log r)))) (last_term (log r)) false false 0.

Definition with_msgs (r : Raft) (ms : list Message) : Raft :=
  r <| msgs := msgs r ++ ms |>.

Lemma with_msgs_app r ms1 ms2 :
  with_msgs (with_msgs r ms1) ms2 = with_msgs r (ms1 ++ ms2).
Proof. unfold with_msgs, modify. simpl. by rewrite <- app_assoc. Qed.

Lemma resetElectionTimeout_eq r :
  (0 < baseElectionTimeout r)%Z → resetElectionTimeout r = Some (reset_timeout r).
Proof.
  intros Hb. unfold resetElectionTimeout, Intn. rewrite decide_False by lia. done.
Qed.

Lemma becomeFollower_eq r t l :
  (0 < baseElectionTimeout r)%Z → becomeFollower r t l = Some (follower_of r t l).
Proof. intros Hb. unfold becomeFollower. by rewrite resetElectionTimeout_eq. Qed.

Lemma heartbeatMessage_eq r peer :
  log_wf (log r) → heartbeatMessage r peer = Some (heartbeat_to r peer).
Proof.
  intros Hwf. unfold heartbeatMessage. rewrite lastLogIndex_wf by done. simpl.
  pose proof (log_wf_nonempty _ Hwf).
  destruct (decide _) as [Hle|Hgt]; simpl.
  - unfold slice_from. rewrite decide_False by lia. simpl. by rewrite fmap_Clone_id.
  - unfold heartbeat_to. rewrite drop_ge by lia. done.
Qed.

Lemma broadcastHeartbeat_loop_eq ps r :
  log_wf (log r) →
  broadcastHeartbeat_loop ps r = Some (with_msgs r (heartbeat_to r <$> ps)).
Proof.
  revert r. induction ps as [|p ps IH]; intros r Hwf; simpl.
  - unfold with_msgs. rewrite app_nil_r. by destruct r.
  - rewrite heartbeatMessage_eq by done. simpl. rewrite IH by done.
    change (send r (heartbeat_to r p)) with (with_msgs r [heartbeat_to r p]).
    by rewrite with_msgs_app.
Qed.

Lemma broadcastHeartbeat_eq r :
  log_wf (log r) →
  broadcastHeartbeat r = Some (with_msgs r (heartbeat_to r <$> peers r)).
Proof. apply broadcastHeartbeat_loop_eq. Qed.

Lemma broadcastRequestVote_loop_eq ps r i t :
  i = N.of_nat (pred (length (log r))) → t = last_term (log r) →
  broadcastRequestVote_loop i t ps r = with_msgs r (vote_request_to r <$> ps).
Proof.
  revert r. induction ps as [|p ps IH]; intros r Hi Ht; simpl.
  - unfold with_msgs. rewrite app_nil_r. by destruct r.
  - rewrite IH by done. subst i t.
    change (send r _) with (with_msgs r [vote_request_to r p]).
    by rewrite with_msgs_app.
Qed.

Lemma broadcastRequestVote_eq r :
  log_wf (log r) →
  broadcastRequestVote r = Some (with_msgs r (vote_request_to r <$> peers r)).
Proof.
  intros Hwf. unfold broadcastRequestVote.
  rewrite lastLogIndex_wf, lastLogTerm_wf by done. simpl.
  by rewrite broadcastRequestVote_loop_eq.
Qed.

Lemma leader_of_log_wf r : log_wf (log r) → log_room r → log_wf (log (leader_of r)).
Proof. intros. by apply log_wf_snoc. Qed.

Lemma becomeLeader_eq r :
  log_wf (log r) → log_room r →
  becomeLeader r =
    Some (with_msgs (leader_of r) (heartbeat_to (leader_of r) <$> peers r)).
Proof.
  intros Hwf Hroom. destruct (lastLogIndex_succ _ Hwf) as (lst & Hl & Hs).
  unfold becomeLeader. cbv zeta.
  change (lastLogIndex _) with (lastLogIndex r). rewrite Hl. cbn [seq_bind].
  rewrite Hs.
  match goal with |- broadcastHeartbeat ?x = _ =>
    replace x with (leader_of r) by reflexivity end.
  rewrite broadcastHeartbeat_eq by by apply leader_of_log_wf. done.
Qed.

Lemma becomeCandidate_eq r :
  log_wf (log r) → log_room r → (0 < baseElectionTimeout r)%Z →
  becomeCandidate r =
    let c := candidate_of r in
    Some (if quorum c
          then with_msgs (leader_of c) (heartbeat_to (leader_of c) <$> peers r)
          else with_msgs c (vote_request_to c <$> peers r)).
Proof.
  intros Hwf Hroom Hb. unfold becomeCandidate. cbv zeta.
  rewrite resetElectionTimeout_eq by done. cbn [seq_bind]. cbv zeta.
  change (syncTerm _) with (candidate_of r). destruct (quorum (candidate_of r)).
  - by rewrite becomeLeader_eq.
  - by rewrite broadcastRequestVote_eq.
Qed.
End closed_forms.

(** ** Preservation of the invariant *)

#[export] Hint Resolve rw_log rw_base rw_term : go.

(** A state that differs from a well-formed one only in fields the invariant
    does not mention. *)
Ltac wf_same :=
  match goal with Hwf : raft_wf ?r |- raft_wf _ =>
    destruct Hwf; split; simpl in *; try done; eauto; try (by eexists) end.

Section preservation.
Context {GR : GoRand}.

Lemma with_msgs_wf r ms : raft_wf r → raft_wf (with_msgs r ms).
Proof. intros Hwf. wf_same. Qed.

Lemma send_wf r m : raft_wf r → raft_wf (send r m).
Proof. apply with_msgs_wf. Qed.

Lemma follower_of_term r t l : currentTerm (follower_of r t l) = t.
Proof. reflexivity. Qed.

Lemma follower_of_wf r t l : raft_wf r → (t < two64)%N → raft_wf (follower_of r t l).
Proof. intros Hwf Ht. wf_same. Qed.

Lemma candidate_of_wf r : raft_wf r → raft_wf (candidate_of r).
Proof. intros Hwf. pose proof (u64_lt (currentTerm r + 1)). wf_same. Qed.

Lemma init_peers_read {V} (zero v : V) ps kvs k :
  map_read zero (Some (init_peers ps v kvs)) k =
  if decide (k ∈ ps) then v else map_read zero (Some kvs) k.
Proof.
  revert kvs. induction ps as [|p ps IH]; intros kvs; cbn [init_peers].
  - case_decide as Hk; [by apply not_elem_of_nil in Hk|done].
  - rewrite IH. destruct (decide (k = p)) as [->|Hne].
    + rewrite (decide_True (P := p ∈ p :: ps)) by apply list_elem_of_here.
      rewrite map_read_write_eq. by case_decide.
    + rewrite map_read_write_ne by done. repeat case_decide; set_solver.
Qed.

Lemma leader_of_wf r : raft_wf r → log_room r → raft_wf (leader_of r).
Proof.
  intros Hwf Hroom. pose proof (leader_of_log_wf r (rw_log _ Hwf) Hroom).
  assert (map_u64 (nextIndex (leader_of r))).
  { intros k. simpl. rewrite init_peers_read. unfold log_room in Hroom.
    case_decide; unfold map_read; simpl; [lia|]. rewrite lookup_empty. done. }
  wf_same.
Qed.
Hint Resolve with_msgs_wf send_wf follower_of_wf candidate_of_wf leader_of_wf : go.

Lemma becomeFollower_wf r t l :
  raft_wf r → (t < two64)%N → returns (becomeFollower r t l) raft_wf.
Proof. intros. rewrite becomeFollower_eq; eauto with go. Qed.

Lemma becomeLeader_wf r : raft_wf r → log_room r → returns (becomeLeader r) raft_wf.
Proof. intros. rewrite becomeLeader_eq; eauto with go. Qed.

Lemma becomeCandidate_wf r :
  raft_wf r → log_room r → returns (becomeCandidate r) raft_wf.
Proof.
  intros Hwf Hroom. rewrite becomeCandidate_eq by eauto with go.
  apply returns_Some. simpl. destruct (quorum _); eauto with go.
Qed.

Lemma broadcastHeartbeat_wf r : raft_wf r → returns (broadcastHeartbeat r) raft_wf.
Proof. intros. rewrite broadcastHeartbeat_eq; eauto with go. Qed.
Hint Resolve becomeFollower_wf becomeLeader_wf becomeCandidate_wf
  broadcastHeartbeat_wf : go.

(** [Tick] never panics. *)
Lemma Tick_returns r : raft_wf r → log_room r → returns (Tick r) raft_wf.
Proof.
  intros Hwf Hroom. unfold Tick, tickElection, tickHeartbeat.
  destruct (state r); repeat case_decide;
    first [apply returns_Some | apply becomeCandidate_wf | apply broadcastHeartbeat_wf];
    try done; wf_same.
Qed.

Definition up_to_date (l : list LogEntry) (i t : N) : bool :=
  if decide (t ≠ last_term l) then bool_decide (last_term l < t)%N
  else bool_decide (N.of_nat (pred (length l)) ≤ i)%N.

Lemma isLogUpToDate_eq r i t :
  log_wf (log r) → isLogUpToDate r i t = Some (up_to_date (log r) i t).
Proof.
  intros Hwf. unfold isLogUpToDate.
  by rewrite lastLogTerm_wf, lastLogIndex_wf.
Qed.

Definition vote_reply (r : Raft) (m : Message) (pre reject : bool) : Message :=
  mkMessage MsgRequestVoteResp (r_id r) (mFrom m) (currentTerm r)
    0 0 [] 0 0 0 pre reject 0.

Definition can_vote (r : Raft) (m : Message) : bool :=
  bool_decide (votedFor r = NoneID ∨ votedFor r = mFrom m) &&
  up_to_date (log r) (mLastLogIndex m) (mLastLogTerm m).

Lemma handleRequestVote_eq r m :
  log_wf (log r) →
  handleRequestVote r m = Some (
    if decide (leaderActive r = true ∧ mTerm m ≤ currentTerm r)%N
    then send r (vote_reply r m (mIsPreVote m) true)
    else if mIsPreVote m
    then send r (vote_reply r m true
           (negb (bool_decide (currentTerm r ≤ mTerm m)%N &&
                  up_to_date (log r) (mLastLogIndex m) (mLastLogTerm m))))
    else if decide (mTerm m < currentTerm r)%N then send r (vote_reply r m false true)
    else if can_vote r m
    then send (r <| votedFor := mFrom m |> <| electionElapsed := 0%Z |>)
           (vote_reply r m false false)
    else send r (vote_reply r m false true)).
Proof.
  intros Hwf. unfold handleRequestVote, can_vote.
  case_decide; [by destruct (mIsPreVote m)|].
  destruct (mIsPreVote m).
  - destruct (decide (currentTerm r ≤ mTerm m)%N) as [Hle|Hgt].
    + rewrite bool_decide_true by done. by rewrite isLogUpToDate_eq.
    + by rewrite bool_decide_false.
  - case_decide; [done|]. rewrite isLogUpToDate_eq by done. cbn [seq_bind].
    by destruct (_ && _).
Qed.

Lemma handleRequestVote_returns r m :
  raft_wf r → returns (handleRequestVote r m) raft_wf.
Proof.
  intros Hwf. rewrite handleRequestVote_eq by eauto with go.
  repeat case_match; apply returns_Some, send_wf; try done; wf_same.
Qed.

Lemma map_write_is_Some {V} (m : option (gmap string V)) k v :
  is_Some m → returns (map_write m k v) is_Some.
Proof. intros [kvs ->]. apply returns_Some. by eexists. Qed.

Lemma handleRequestVoteResp_returns r m :
  raft_wf r → log_room r → returns (handleRequestVoteResp r m) raft_wf.
Proof.
  intros Hwf Hroom. unfold handleRequestVoteResp.
  case_decide as Hst; [by apply returns_Some|].
  assert (state r = Candidate) as Hc by (by destruct (decide (state r = Candidate))).
  destruct (mIsPreVote m).
  - eapply returns_bind.
    { apply map_write_is_Some. destruct (preVotes r); eauto. }
    intros pre _. case_decide; [apply becomeCandidate_wf; [wf_same|done]|].
    apply returns_Some. wf_same.
  - case_decide; [by apply returns_Some|].
    eapply returns_bind; [by apply map_write_is_Some, rw_votes|].
    intros vs Hvs.
    assert (raft_wf (r <| votes := vs |>)) as Hwf' by wf_same.
    destruct (quorum _); eauto with go.
Qed.

Lemma count_matches_filter mi n ps k :
  count_matches mi n ps k =
  (k + Z.of_nat (length (filter (fun p => (n ≤ map_read 0 mi p)%N) ps)))%Z.
Proof.
  revert k. induction ps as [|p ps IH]; intros k; cbn [count_matches]; [simpl; lia|].
  rewrite IH, filter_cons. case_decide; [|done]. simpl length. lia.
Qed.

(** Position [n] passes both tests of the loop of [maybeAdvanceCommit]. *)
Definition commitable (r : Raft) (n : N) : Prop :=
  log_term (log r) n = currentTerm r ∧
  (quorumSize r ≤ count_matches (matchIndex r) n (peers r) 1)%Z.

(** The loop leaves the state alone when no position it visits passes, and
    otherwise sets the commit index to the last one that does. *)
Lemma maybeAdvanceCommit_loop_last k n r :
  (N.of_nat (length (log r)) < two64)%N →
  (N.of_nat k + n ≤ N.of_nat (length (log r)))%N →
  (maybeAdvanceCommit_loop k n r = r ∧
    ∀ c, (n ≤ c < n + N.of_nat k)%N → ¬ commitable r c) ∨
  (∃ c, maybeAdvanceCommit_loop k n r = r <| commitIndex := c |> ∧
    (n ≤ c < n + N.of_nat k)%N ∧ commitable r c ∧
    ∀ c', (n ≤ c' < n + N.of_nat k)%N → commitable r c' → (c' ≤ c)%N).
Proof.
  intros Hb. revert n r Hb. induction k as [|k IH]; intros n r Hb Hk.
  { left. split; [done|]. intros c. lia. }
  cbn [maybeAdvanceCommit_loop]. rewrite u64_add_small by word.
  assert (¬ commitable r n ∨ commitable r n ∧
    log_term (log r) n = currentTerm r ∧
    (quorumSize r ≤ count_matches (matchIndex r) n (peers r) 1)%Z) as Hn.
  { unfold commitable.
    destruct (decide (log_term (log r) n = currentTerm r)); [|left; tauto].
    destruct (decide (quorumSize r ≤ count_matches (matchIndex r) n (peers r) 1)%Z);
      [by right|left; tauto]. }
  assert (∀ c, (n ≤ c)%N → c ≠ n → (n + 1 ≤ c)%N) as Hge by lia.
  destruct Hn as [Hn|(Hn & Ht & Hq)].
  - match goal with |- context [maybeAdvanceCommit_loop k _ ?x] => assert (x = r) as -> end.
    { case_decide as Ht; [done|]. case_decide as Hq; [|done]. destruct Hn. split; [|done].
      by destruct (decide (log_term (log r) n = currentTerm r)). }
    destruct (IH (n + 1)%N r Hb) as [[-> Hno]|(c & -> & Hc & Hok & Hmax)]; [lia| |].
    + left. split; [done|]. intros c Hc. destruct (decide (c = n)) as [->|]; [done|].
      apply Hno. lia.
    + right. exists c. split; [done|]. split; [lia|]. split; [done|].
      intros c' Hc' Hok'. destruct (decide (c' = n)) as [->|]; [done|].
      apply Hmax; [lia|done].
  - right. rewrite decide_False by tauto. rewrite decide_True by done.
    destruct (IH (n + 1)%N (r <| commitIndex := n |>))
      as [[Heq Hno]|(c & Heq & Hc & Hok & Hmax)]; [exact Hb|simpl log; lia| |].
    + exists n. rewrite Heq. split; [done|]. split; [lia|]. split; [done|].
      intros c' Hc' Hok'. destruct (decide (c' = n)) as [->|]; [lia|].
      destruct (Hno c'); [lia|exact Hok'].
    + exists c. rewrite Heq. split; [reflexivity|]. split; [lia|]. split; [exact Hok|].
      intros c' Hc' Hok'. destruct (decide (c' = n)) as [->|]; [lia|].
      apply Hmax; [lia|exact Hok'].
Qed.

Lemma maybeAdvanceCommit_cases r :
  log_wf (log r) → (commitIndex r + 1 < two64)%N →
  (maybeAdvanceCommit r = Some r ∧
    ∀ c, (commitIndex r < c < N.of_nat (length (log r)))%N → ¬ commitable r c) ∨
  (∃ c, maybeAdvanceCommit r = Some (r <| commitIndex := c |>) ∧
    (commitIndex r < c < N.of_nat (length (log r)))%N ∧ commitable r c ∧
    ∀ c', (commitIndex r < c' < N.of_nat (length (log r)))%N →
      commitable r c' → (c' ≤ c)%N).
Proof.
  intros Hwf Hci. pose proof (log_wf_nonempty _ Hwf) as Hne.
  pose proof (log_wf_bound _ Hwf) as Hb.
  unfold maybeAdvanceCommit. rewrite lastLogIndex_wf by done. cbn [seq_bind]. cbv zeta.
  rewrite u64_add_small by done.
  set (k := N.to_nat (N.of_nat (pred (length (log r))) + 1 - (commitIndex r + 1))).
  destruct (decide (N.of_nat (length (log r)) ≤ commitIndex r)%N) as [Hbig|Hsmall].
  { left. replace k with 0 by (unfold k; lia). split; [done|]. intros c. lia. }
  assert (∀ c, (commitIndex r < c < N.of_nat (length (log r)))%N ↔
    (commitIndex r + 1 ≤ c < commitIndex r + 1 + N.of_nat k)%N) as Hrange
    by (unfold k; lia).
  destruct (maybeAdvanceCommit_loop_last k (commitIndex r + 1) r Hb)
    as [[-> Hno]|(c & -> & Hc & Hok & Hmax)]; [unfold k; lia| |].
  - left. split; [done|]. intros c Hc%Hrange. by apply Hno.
  - right. exists c. apply Hrange in Hc. split; [done|]. split; [done|].
    split; [done|]. intros c' Hc'%Hrange. by apply Hmax.
Qed.

Lemma maybeAdvanceCommit_returns r :
  raft_wf r → returns (maybeAdvanceCommit r) raft_wf.
Proof.
  intros Hwf. pose proof (log_wf_bound _ (rw_log _ Hwf)).
  destruct (maybeAdvanceCommit_cases r) as [[-> _]|(c & -> & Hc & _)];
    [apply Hwf|apply Hwf|by apply returns_Some|].
  apply returns_Some. wf_same. lia.
Qed.

Lemma handleAppendEntriesResp_returns r m :
  raft_wf r → returns (handleAppendEntriesResp r m) raft_wf.
Proof.
  intros Hwf. unfold handleAppendEntriesResp.
  case_decide as Hst; [by apply returns_Some|].
  assert (state r = Leader) as Hl by (by destruct (decide (state r = Leader))).
  case_decide; [by apply returns_Some|].
  pose proof (rw_next _ Hwf Hl) as Hn. pose proof (rw_match _ Hwf Hl) as Hm.
  destruct (mReject m).
  - destruct (nextIndex r) as [kvs|] eqn:Hkvs; [|by destruct Hn].
    pose proof (rw_next_u64 _ Hwf) as Hu. rewrite Hkvs in Hu.
    assert (∀ v, map_u64 (Some (<[mFrom m := u64 v]> kvs))) as Hins
      by (intros v; apply map_u64_insert; auto with go).
    repeat case_decide; try (by apply returns_Some); simpl; apply returns_Some; wf_same;
      apply Hins.
  - apply (returns_bind _ _ raft_wf).
    + case_decide; [|by apply returns_Some].
      eapply returns_bind; [by apply map_write_is_Some|]. intros mi Hmi.
      destruct (nextIndex r) as [kvs|] eqn:Hkvs; [|by destruct Hn].
      pose proof (rw_next_u64 _ Hwf) as Hu. rewrite Hkvs in Hu. simpl.
      pose proof (map_u64_insert kvs (mFrom m) _ Hu (u64_lt (mIndex m + 1))).
      apply returns_Some. wf_same.
    + intros r' Hwf'. apply maybeAdvanceCommit_returns. wf_same.
Qed.

(** The log and the commit index after the entries of [m] are accepted. *)
Definition merged (r : Raft) (m : Message) : list LogEntry :=
  merge_log (log r) (N.to_nat (mPrevLogIndex m + 1)) (mEntries m).

Definition follower_commit (r : Raft) (m : Message) : N :=
  if decide (commitIndex r < mLeaderCommit m)%N
  then N.min (mLeaderCommit m) (mPrevLogIndex m + N.of_nat (length (mEntries m)))
  else commitIndex r.

Definition accepted (r : Raft) (m : Message) : Raft :=
  r <| log := merged r m |> <| commitIndex := follower_commit r m |>.

(** [PrevLogIndex] names a position of the log, and the entries follow it. *)
Definition appendable (r : Raft) (m : Message) : Prop :=
  (mPrevLogIndex m < N.of_nat (length (log r)))%N ∧
  (mPrevLogIndex m + 1 + N.of_nat (length (mEntries m)) < two64)%N ∧
  indexed_from (N.to_nat (mPrevLogIndex m + 1)) (mEntries m).

Lemma merged_wf r m : log_wf (log r) → appendable r m → log_wf (merged r m).
Proof.
  intros Hwf (Hp & Hb & Hes). apply merge_log_wf; [done|lia|lia|done|word].
Qed.

Lemma acceptEntries_eq r m reply :
  log_wf (log r) → appendable r m →
  acceptEntries r m reply = Some (send (accepted r m)
    (reply <| mReject := false |>
           <| mIndex := N.of_nat (pred (length (merged r m))) |>)).
Proof.
  intros Hwf Happ. pose proof (merged_wf _ _ Hwf Happ) as Hl.
  destruct Happ as (Hp & Hb & Hes). unfold acceptEntries.
  rewrite append_loop_merge by (done || word). cbn [seq_bind].
  rewrite N.add_0_r. fold (merged r m). rewrite u64_add_small by word.
  change (commitIndex (r <| log := merged r m |>)) with (commitIndex r).
  match goal with |- seq_bind (lastLogIndex ?x) _ = _ =>
    replace x with (accepted r m) end.
  - rewrite lastLogIndex_wf by done. done.
  - unfold accepted, follower_commit. case_decide; [|by destruct r].
    case_decide; [by rewrite N.min_l by lia|by rewrite N.min_r by lia].
Qed.

Lemma accepted_wf r m : raft_wf r → appendable r m → raft_wf (accepted r m).
Proof.
  intros Hwf Happ. pose proof (merged_wf _ _ (rw_log _ Hwf) Happ).
  assert (follower_commit r m + 1 < two64)%N.
  { destruct Happ as (_ & Hb & _). pose proof (rw_commit _ Hwf).
    unfold follower_commit. case_decide; lia. }
  wf_same.
Qed.
Hint Resolve accepted_wf : go.

(** The state and the reply term with which the entries of a message from
    the leader of the current term are examined. *)
Definition heard_leader (r : Raft) (m : Message) : Raft :=
  let r := r <| electionElapsed := 0%Z |> <| leaderID := mFrom m |>
             <| leaderActive := true |> in
  if decide (state r ≠ Follower) then follower_of r (mTerm m) (mFrom m) else r.

Definition append_reply (r : Raft) (m : Message) (t : N) (reject : bool) (i : N)
    : Message :=
  mkMessage MsgAppendEntriesResp (r_id r) (mFrom m) t 0 0 [] 0 0 0 false reject i.

Definition conflict_hint (l : list LogEntry) (prev : N) : N :=
  N.of_nat (pred (hint_loop l (log_term l prev) (N.to_nat prev))).

Lemma hint_loop_SS l c n :
  hint_loop l c (S (S n)) =
  if decide (log_term l (N.of_nat (S n)) = c) then hint_loop l c (S n) else S (S n).
Proof. reflexivity. Qed.

Lemma hint_loop_bounds l c n : hint_loop l c n ≤ n ∧ (0 < n → 0 < hint_loop l c n).
Proof.
  induction n as [|[|n] IH]; [simpl; lia..|].
  rewrite hint_loop_SS. case_decide; lia.
Qed.

Lemma conflict_hint_eq l prev :
  (0 < prev)%N → (prev < two64)%N →
  N.of_nat (hint_loop l (log_term l prev) (N.to_nat prev)) -u 1 = conflict_hint l prev.
Proof.
  intros Hp Hb. unfold conflict_hint.
  destruct (hint_loop_bounds l (log_term l prev) (N.to_nat prev)) as [Hb1 Hb2].
  rewrite u64_sub_small; lia.
Qed.

Lemma heard_leader_log r m : log (heard_leader r m) = log r.
Proof. unfold heard_leader. by case_decide. Qed.

Lemma heard_leader_term r m :
  (currentTerm r ≤ mTerm m)%N → (mTerm m ≤ currentTerm r)%N →
  currentTerm (heard_leader r m) = mTerm m.
Proof. intros. unfold heard_leader. case_decide; simpl; [done|lia]. Qed.

Lemma heard_leader_eq r m (reply := append_reply r m (mTerm m) true 0) :
  (0 < baseElectionTimeout r)%Z → currentTerm r = mTerm m →
  let r0 := r <| electionElapsed := 0%Z |> <| leaderID := mFrom m |>
              <| leaderActive := true |> in
  (if decide (state r0 ≠ Follower)
   then r' <- becomeFollower r0 (mTerm m) (mFrom m);;
        Some (r', reply <| mTerm := currentTerm r' |>)
   else Some (r0, reply)) = Some (heard_leader r m, reply).
Proof.
  intros Hb Ht r0. unfold heard_leader. cbv zeta. fold r0.
  case_decide; [|reflexivity].
  rewrite becomeFollower_eq by done. cbn [seq_bind].
  by rewrite follower_of_term.
Qed.

Lemma handleAppendEntries_eq r m (r1 := heard_leader r m) :
  raft_wf r → currentTerm r = mTerm m →
  (mPrevLogIndex m < two64)%N →
  ((mPrevLogIndex m < N.of_nat (length (log r)))%N → appendable r m) →
  handleAppendEntries r m = Some (
    if decide (N.of_nat (length (log r)) ≤ mPrevLogIndex m)%N
    then send r1 (append_reply r m (mTerm m) true (N.of_nat (pred (length (log r)))))
    else if decide (0 < mPrevLogIndex m ∧
                    log_term (log r) (mPrevLogIndex m) ≠ mPrevLogTerm m)%N
    then send r1 (append_reply r m (mTerm m) true
                    (conflict_hint (log r) (mPrevLogIndex m)))
    else send (accepted r1 m) (append_reply r m (mTerm m) false
                    (N.of_nat (pred (length (merged r1 m)))))).
Proof.
  intros Hwf Ht Hb Happ. unfold handleAppendEntries.
  rewrite decide_False by lia. cbv zeta.
  change ((newMessage _ _ _ _) <| mReject := true |>)
    with (append_reply r m (currentTerm r) true 0).
  rewrite Ht, heard_leader_eq by (done || apply Hwf). fold r1. cbn [seq_bind].
  assert (log r1 = log r) as Hlog by apply heard_leader_log.
  pose proof (rw_log _ Hwf) as Hlwf. pose proof (log_wf_nonempty _ Hlwf) as Hne.
  assert (appendable r1 m ↔ appendable r m) as Happ1
    by (unfold appendable; by rewrite Hlog).
  clearbody r1. unfold logTerm. case_decide as Hp.
  - rewrite lastLogIndex_wf by by rewrite Hlog. cbn [seq_bind]. rewrite Hlog.
    case_decide as Hgap;
      [by rewrite (decide_True (P := (_ ≤ mPrevLogIndex m)%N)) by lia|].
    rewrite (decide_False (P := (_ ≤ mPrevLogIndex m)%N)) by lia.
    case_decide as Hc.
    + rewrite decide_True by done. by rewrite conflict_hint_eq.
    + rewrite decide_False by tauto.
      rewrite acceptEntries_eq; [done|by rewrite Hlog|apply Happ1, Happ; lia].
  - rewrite (decide_False (P := (_ ≤ mPrevLogIndex m)%N)) by lia.
    rewrite decide_False by tauto.
    rewrite acceptEntries_eq; [done|by rewrite Hlog|apply Happ1, Happ; lia].
Qed.

Lemma handleAppendEntries_stale r m :
  (mTerm m < currentTerm r)%N →
  handleAppendEntries r m = Some (send r (append_reply r m (currentTerm r) true 0)).
Proof. intros Hlt. unfold handleAppendEntries. by rewrite decide_True. Qed.

Lemma msg_wf_appendable r m :
  log_wf (log r) → msg_wf m → mType m = MsgAppendEntries →
  (mPrevLogIndex m < N.of_nat (length (log r)))%N → appendable r m.
Proof.
  intros Hwf [_ Hm] Hty Hlt. pose proof (log_wf_bound _ Hwf).
  destruct (Hm Hty) as [?|[Hb Hes]]; [lia|]. by split_and!.
Qed.

Lemma msg_wf_prev m :
  msg_wf m → mType m = MsgAppendEntries → (mPrevLogIndex m < two64)%N.
Proof. intros [_ Hm] Hty. destruct (Hm Hty) as [?|[? _]]; lia. Qed.

Lemma heard_leader_msgs r m : msgs (heard_leader r m) = msgs r.
Proof. unfold heard_leader. by case_decide. Qed.

Lemma heard_leader_id r m : r_id (heard_leader r m) = r_id r.
Proof. unfold heard_leader. by case_decide. Qed.

Lemma heard_leader_wf r m :
  raft_wf r → (mTerm m < two64)%N → raft_wf (heard_leader r m).
Proof.
  intros Hwf Ht. unfold heard_leader. cbv zeta.
  assert (raft_wf (r <| electionElapsed := 0%Z |> <| leaderID := mFrom m |>
                     <| leaderActive := true |>)) by wf_same.
  case_decide; [by apply follower_of_wf|done].
Qed.

Lemma handleAppendEntries_returns r m :
  raft_wf r → msg_wf m → mType m = MsgAppendEntries → (mTerm m ≤ currentTerm r)%N →
  returns (handleAppendEntries r m) raft_wf.
Proof.
  intros Hwf Hm Hty Hle. destruct (decide (mTerm m < currentTerm r)%N) as [Hlt|Hge].
  { rewrite handleAppendEntries_stale by done. eauto with go. }
  pose proof (heard_leader_wf r m Hwf (proj1 Hm)) as Hwf1.
  rewrite handleAppendEntries_eq;
    [|done|lia|by apply msg_wf_prev|intros; by apply msg_wf_appendable; [apply Hwf|..]].
  apply returns_Some. case_decide; [by apply send_wf|].
  case_decide; apply send_wf; [done|]. apply accepted_wf; [done|].
  apply msg_wf_appendable; [apply Hwf1|done|done|].
  rewrite heard_leader_log. lia.
Qed.

(** ** The public operations *)

Definition raises_term (r : Raft) (m : Message) : bool :=
  bool_decide (currentTerm r < mTerm m)%N &&
  negb (mIsPreVote m &&
        bool_decide (mType m = MsgRequestVote ∨ mType m = MsgRequestVoteResp)).

(** The state in which the handler of the message's type runs. *)
Definition stepped (r : Raft) (m : Message) : Raft :=
  if raises_term r m
  then follower_of r (mTerm m)
         (if decide (mType m = MsgAppendEntries) then mFrom m else NoneID)
  else r.

Definition handle (r : Raft) (m : Message) : option Raft :=
  match mType m with
  | MsgRequestVote => handleRequestVote r m
  | MsgRequestVoteResp => handleRequestVoteResp r m
  | MsgAppendEntries => handleAppendEntries r m
  | MsgAppendEntriesResp => handleAppendEntriesResp r m
  end.

Lemma Step_eq r m :
  (0 < baseElectionTimeout r)%Z → Step r m = handle (stepped r m) m.
Proof.
  intros Hb. unfold Step, stepped, raises_term. cbv zeta.
  destruct (decide (currentTerm r < mTerm m)%N) as [Hlt|Hge].
  - rewrite (bool_decide_true (currentTerm r < mTerm m)%N) by done. simpl.
    destruct (_ && _); simpl; [done|]. by rewrite becomeFollower_eq.
  - by rewrite (bool_decide_false (currentTerm r < mTerm m)%N).
Qed.

Lemma stepped_wf r m : raft_wf r → (mTerm m < two64)%N → raft_wf (stepped r m).
Proof. intros. unfold stepped. destruct (raises_term r m); eauto with go. Qed.

Lemma stepped_log r m : log (stepped r m) = log r.
Proof. unfold stepped. by destruct (raises_term r m). Qed.

Lemma stepped_term r m :
  (mTerm m ≤ currentTerm (stepped r m))%N ∨
  (mIsPreVote m = true ∧ (mType m = MsgRequestVote ∨ mType m = MsgRequestVoteResp)).
Proof.
  unfold stepped, raises_term.
  destruct (decide (currentTerm r < mTerm m)%N) as [Hlt|Hge].
  - rewrite (bool_decide_true (currentTerm r < mTerm m)%N) by done. simpl.
    destruct (mIsPreVote m); simpl; [|by left].
    case_bool_decide; simpl; [by right|by left].
  - rewrite (bool_decide_false (currentTerm r < mTerm m)%N) by done. simpl. left. lia.
Qed.

(** [Step] never panics on a message a node can send. *)
Lemma Step_returns r m :
  raft_wf r → log_room r → msg_wf m → returns (Step r m) raft_wf.
Proof.
  intros Hwf Hroom Hm. rewrite Step_eq by apply Hwf.
  pose proof (stepped_wf r m Hwf (proj1 Hm)) as Hwf'.
  assert (log_room (stepped r m)) by (unfold log_room; by rewrite stepped_log).
  unfold handle. destruct (mType m) eqn:Hty.
  - by apply handleRequestVote_returns.
  - by apply handleRequestVoteResp_returns.
  - apply handleAppendEntries_returns; try done.
    destruct (stepped_term r m) as [?|[_ [?|?]]]; congruence.
  - by apply handleAppendEntriesResp_returns.
Qed.

Definition appended (r : Raft) (d : bytes) (ty : EntryType) : Raft :=
  r <| log := log r ++
    [mkLogEntry (N.of_nat (length (log r))) (currentTerm r) d ty] |>.

Lemma appended_wf r d ty : raft_wf r → log_room r → raft_wf (appended r d ty).
Proof.
  intros Hwf Hroom.
  pose proof (log_wf_snoc (log r) (currentTerm r) d ty (rw_log _ Hwf) Hroom). wf_same.
Qed.

Definition proposed (r : Raft) (d : bytes) : Raft :=
  (appended r d EntryCommand)
    <| matchIndex := insert (r_id r) (N.of_nat (length (log r))) <$> matchIndex r |>.

Lemma Propose_eq r d :
  log_wf (log r) → log_room r →
  Propose r d = Some (
    if decide (state r ≠ Leader) then (ErrNotLeader, r)
    else (Proposed (N.of_nat (length (log r))),
          with_msgs (proposed r d) (heartbeat_to (proposed r d) <$> peers r))).
Proof.
  intros Hwf Hroom. unfold Propose. case_decide; [done|].
  destruct (lastLogIndex_succ _ Hwf) as (lst & Hl & Hs).
  rewrite Hl. cbn [seq_bind]. rewrite Hs. cbv zeta.
  match goal with |- seq_bind ?x _ = _ =>
    assert (x = Some (proposed r d)) as -> end.
  { unfold proposed, appended. by destruct r as [?????? ? [?|]]. }
  cbn [seq_bind]. rewrite broadcastHeartbeat_eq; [done|].
  by apply log_wf_snoc.
Qed.

Lemma Propose_returns r d :
  raft_wf r → log_room r → returns (Propose r d) (fun pr => raft_wf pr.2).
Proof.
  intros Hwf Hroom. rewrite Propose_eq by (apply Hwf || done). apply returns_Some.
  case_decide; [done|]. apply with_msgs_wf.
  pose proof (appended_wf r d EntryCommand Hwf Hroom). unfold proposed.
  destruct Hwf as [????? Hn Hm ??]. wf_same. intros Hl.
  destruct (Hm Hl) as [kvs ->]. by eexists.
Qed.

Lemma ProposeConfigChange_eq r a :
  log_wf (log r) → log_room r →
  ProposeConfigChange r a = Some (
    if decide (state r ≠ Leader) then r
    else let r' := appended r (bytes_of_string a) EntryConfigChange in
         with_msgs r' (heartbeat_to r' <$> peers r)).
Proof.
  intros Hwf Hroom. unfold ProposeConfigChange. case_decide; [done|].
  destruct (lastLogIndex_succ _ Hwf) as (lst & Hl & Hs).
  rewrite Hl. cbn [seq_bind]. rewrite Hs. cbv zeta.
  change (r <| log := _ |>) with (appended r (bytes_of_string a) EntryConfigChange).
  rewrite broadcastHeartbeat_eq; [done|]. by apply log_wf_snoc.
Qed.

Lemma collect_eq l i k : i + k ≤ length l → collect l i k = Some (take k (drop i l)).
Proof.
  revert i. induction k as [|k IH]; intros i Hle; [by rewrite take_0|].
  destruct (lookup_lt_is_Some_2 l i) as [e He]; [lia|].
  simpl. rewrite He. simpl. rewrite IH by lia. by rewrite (drop_S l e i).
Qed.

(** The last index that may be applied: [commitIndex], or the end of the log
    when the commit index is ahead of it. *)
Definition apply_end (r : Raft) : N :=
  N.min (commitIndex r) (N.of_nat (pred (length (log r)))).

Lemma ApplicableEntries_eq r :
  log_wf (log r) →
  ApplicableEntries r = Some (
    if decide (apply_end r ≤ lastApplied r)%N then ([], r)
    else (take (N.to_nat (apply_end r - lastApplied r))
            (drop (N.to_nat (lastApplied r + 1)) (log r)),
          r <| lastApplied := apply_end r |>)).
Proof.
  intros Hwf. unfold ApplicableEntries, apply_end.
  pose proof (log_wf_nonempty _ Hwf). pose proof (log_wf_bound _ Hwf).
  case_decide as Hc; [by rewrite decide_True by lia|]. cbv zeta.
  assert ((if decide (N.of_nat (length (log r)) ≤ commitIndex r)%N
           then N.of_nat (length (log r)) -u 1 else commitIndex r)
          = N.min (commitIndex r) (N.of_nat (pred (length (log r))))) as ->.
  { case_decide; [rewrite u64_sub_small; word|lia]. }
  case_decide; [done|]. by rewrite collect_eq by lia.
Qed.

Lemma ApplicableEntries_returns r :
  raft_wf r → returns (ApplicableEntries r) (fun er => raft_wf er.2).
Proof.
  intros Hwf. rewrite ApplicableEntries_eq by apply Hwf. apply returns_Some.
  case_decide; [done|]. simpl. wf_same.
Qed.

Lemma AddPeer_wf r p : raft_wf r → raft_wf (AddPeer r p).
Proof. intros Hwf. unfold AddPeer. repeat case_decide; try done. wf_same. Qed.

(** A configuration whose restored state is a prefix of a well-formed log. *)
Definition config_wf (cfg : Config) : Prop :=
  (0 < cfgElectionTimeout cfg)%Z ∧ (cfgInitialTerm cfg < two64)%N ∧
  (cfgInitialTerm cfg = 0%N → cfgTerm cfg = 0%N) ∧
  log_wf (sentinel :: cfgInitialLog cfg).

Definition started (cfg : Config) : Raft :=
  reset_timeout (mkRaft (cfgID cfg) (cfgInitialTerm cfg) (cfgInitialVotedFor cfg)
    (sentinel :: cfgInitialLog cfg) 0 0 None None Follower NoneID 0 0 0
    (cfgHeartbeatTimeout cfg) (cfgElectionTimeout cfg) 0 false None None
    (cfgPeers cfg) [] (cfgInitialTerm cfg)
    (NewSource (if decide (cfgRandSeed cfg = 0%Z)
                then i64 (Z.of_N (djb2 (cfgID cfg))) else cfgRandSeed cfg))).

Lemma NewRaft_eq cfg : config_wf cfg → NewRaft cfg = Some (started cfg).
Proof.
  intros (Hb & Ht & Hc & Hl). unfold NewRaft, started. cbv zeta.
  set (seed := NewSource _). clearbody seed.
  rewrite <- resetElectionTimeout_eq by done. f_equal.
  destruct cfg as [i ps e h c s t v l]. simpl in *. unfold syncTerm.
  assert (t = 0%N → c = 0%N) as Hc' by done.
  destruct (decide (0 < t)%N) as [Ht0|Ht0];
    [|assert (t = 0%N) as -> by lia; rewrite Hc by done];
    (destruct (decide (v ≠ "")) as [Hv|Hv];
      [|assert (v = "") as -> by (by destruct (decide (v = "")))]);
    by destruct l.
Qed.

Lemma started_wf cfg : config_wf cfg → raft_wf (started cfg).
Proof. intros (Hb & Ht & Hc & Hl). by split. Qed.
End preservation.
