(* ===== verification/Cluster.v ===== *)
(** * A cluster of Raft nodes over an unreliable network

    The nodes of a fixed membership exchange the messages of [Raft.Messages].
    The network remembers every message ever sent; delivery picks any of them,
    so messages may be lost, duplicated, delayed and reordered.  Every event
    runs one operation of src/raft/raft.go on one node and drains its outbound
    buffer, as the critical sections of src/node.go do. *)

From S2P Require Import Prelude Pb Raft RaftWf.

Record Cluster := mkCluster {
  nodes : gmap string Raft;
  net : list Message;
  (* per node, the entries handed out by [ApplicableEntries] so far *)
  applied : gmap string (list LogEntry)
}.

Inductive Event :=
  | EvTick (i : string)
  | EvDeliver (m : Message)
  | EvPropose (i : string) (data : bytes)
  | EvConfigChange (i : string) (addr : string)
  | EvApply (i : string).

Definition applied_of (c : Cluster) (i : string) : list LogEntry :=
  default [] (applied c !! i).

Section cluster.
Context {GR : GoRand}.
(** The configuration of each node, by node ID. *)
Context (members : gset string) (conf : string → Config).

Definition put (c : Cluster) (i : string) (r : Raft) (ms : list Message) : Cluster :=
  mkCluster (<[i := r]> (nodes c)) (net c ++ ms) (applied c).

(** Run [f] on node [i], then read its outbound messages. *)
Definition at_node (c : Cluster) (i : string) (f : Raft → option Raft)
    : option Cluster :=
  r <- nodes c !! i;;
  r' <- f r;;
  let '(ms, r'') := Messages r' in
  Some (put c i r'' ms).

Definition exec (c : Cluster) (e : Event) : option Cluster :=
  match e with
  | EvTick i => at_node c i Tick
  | EvDeliver m =>
      if decide (m ∈ net c) then at_node c (mTo m) (fun r => (Step r m)) else None
  | EvPropose i data => at_node c i (fun r => pr <- Propose r data;; Some pr.2)
  | EvConfigChange i addr => at_node c i (fun r => ProposeConfigChange r addr)
  | EvApply i =>
      r <- nodes c !! i;;
      er <- ApplicableEntries r;;
      Some (mkCluster (<[i := er.2]> (nodes c)) (net c)
              (<[i := applied_of c i ++ er.1]> (applied c)))
  end.

(** A crash and restart: the node comes back with the term and the vote that
    [Node.persistState] saved, an empty log (no entry is ever stored) and an
    empty state machine. *)
Definition restart_config (cfg : Config) (r : Raft) : Config :=
  mkConfig (cfgID cfg) (cfgPeers cfg) (cfgElectionTimeout cfg)
    (cfgHeartbeatTimeout cfg) 0 (cfgRandSeed cfg) (currentTerm r) (votedFor r) [].

Definition restart (c : Cluster) (i : string) : option Cluster :=
  r <- nodes c !! i;;
  r' <- NewRaft (restart_config (conf i) r);;
  Some (mkCluster (<[i := r']> (nodes c)) (net c) (<[i := []]> (applied c))).

(** A fresh node: nothing persisted, the other members as peers. *)
Record fresh_config (i : string) (cfg : Config) : Prop := {
  fc_id : cfgID cfg = i;
  fc_peers : NoDup (cfgPeers cfg);
  fc_members p : p ∈ cfgPeers cfg ↔ p ∈ members ∧ p ≠ i;
  fc_timeout : (0 < cfgElectionTimeout cfg)%Z;
  fc_cell : cfgTerm cfg = 0%N;
  fc_term : cfgInitialTerm cfg = 0%N;
  fc_vote : cfgInitialVotedFor cfg = "";
  fc_log : cfgInitialLog cfg = []
}.

(** Static membership, with every node started from a fresh configuration;
    the empty string is nobody's ID (it is [None] in the source). *)
Definition membership_ok : Prop :=
  (NoneID ∉ members) ∧ (∀ i, i ∈ members → fresh_config i (conf i)).

Definition initial (c : Cluster) : Prop :=
  (∀ i, nodes c !! i = if decide (i ∈ members) then NewRaft (conf i) else None) ∧
  net c = [] ∧ applied c = ∅.

(** No counter of any node is one step away from wrapping around. *)
Definition headroom (c : Cluster) : Prop :=
  ∀ i r, nodes c !! i = Some r → (currentTerm r + 1 < two64)%N ∧ log_room r.

Definition step (c c' : Cluster) : Prop :=
  headroom c ∧ ∃ e, exec c e = Some c'.

Definition step_or_restart (c c' : Cluster) : Prop :=
  step c c' ∨ (headroom c ∧ ∃ i, restart c i = Some c').

(** Runs without and with crashes. *)
Definition reachable (c : Cluster) : Prop :=
  ∃ c0, initial c0 ∧ rtc step c0 c.

Definition reachable_with_restarts (c : Cluster) : Prop :=
  ∃ c0, initial c0 ∧ rtc step_or_restart c0 c.

Lemma reachable_restarts c : reachable c → reachable_with_restarts c.
Proof.
  intros (c0 & Hi & Hr). exists c0. split; [done|].
  eapply rtc_subrel; [|done]. intros x y. by left.
Qed.

(** What clients ask for in a run: the type and the data of the entries that
    its events propose, in order. *)
Definition asks (e : Event) : list (EntryType * bytes) :=
  match e with
  | EvPropose _ data => [(EntryCommand, data)]
  | EvConfigChange _ addr => [(EntryConfigChange, bytes_of_string addr)]
  | _ => []
  end.

Inductive trace : Cluster → list (EntryType * bytes) → Cluster → Prop :=
  | trace_here c : trace c [] c
  | trace_step c e c1 qs c2 :
      headroom c → exec c e = Some c1 → trace c1 qs c2 → trace c (asks e ++ qs) c2.

Lemma trace_steps c qs c' : trace c qs c' → rtc step c c'.
Proof.
  induction 1 as [|c e c1 qs c2 Hroom Hex _ IH]; [apply rtc_refl|].
  eapply rtc_l; [|exact IH]. split; [done|by exists e].
Qed.

Lemma trace_one c e c' : headroom c → exec c e = Some c' → trace c (asks e) c'.
Proof. intros Hroom Hex. rewrite <- (app_nil_r (asks e)). by eapply trace_step, trace_here. Qed.

Lemma trace_app c qs c1 qs' c2 : trace c qs c1 → trace c1 qs' c2 → trace c (qs ++ qs') c2.
Proof.
  induction 1 as [|c e c1 qs c3 Hroom Hex _ IH]; [done|]. intros H2.
  rewrite <- (assoc_L (++)). by eapply trace_step, IH.
Qed.

(** ** Executable runs *)

#[export] Instance headroom_dec c : Decision (headroom c).
Proof.
  refine (cast_if (decide (map_Forall (fun _ r =>
    (currentTerm r + 1 < two64)%N ∧ (N.of_nat (S (length (log r))) < two64)%N) (nodes c))));
    unfold headroom, log_room; done.
Defined.

(** The cluster right after every member called [NewRaft]. *)
Definition boot : Cluster :=
  mkCluster (set_to_map (fun i => (i, started (conf i))) members) [] ∅.

(** A schedule picks each event from the cluster it is about to happen in. *)
Fixpoint play (c : Cluster) (es : list (Cluster → Event)) : option Cluster :=
  match es with
  | [] => Some c
  | e :: es' =>
      if decide (headroom c) then c' <- exec c (e c);; play c' es' else None
  end.

Lemma play_steps c es c' : play c es = Some c' → rtc step c c'.
Proof.
  revert c. induction es as [|e es IH]; simpl; intros c Hrun; [by simplify_eq; apply rtc_refl|].
  case_decide; [|done]. inv_seq. eapply rtc_l; [|by apply IH]. split; [done|by eexists].
Qed.

Lemma steps_restarts c c' : rtc step c c' → rtc (step_or_restart) c c'.
Proof. apply rtc_subrel. intros x y. by left. Qed.

Lemma boot_initial :
  (∀ i, i ∈ members → config_wf (conf i)) → initial boot.
Proof.
  intros Hwf. split_and!; [|done..]. intros i. simpl. case_decide as Hi.
  - rewrite NewRaft_eq by auto. apply lookup_set_to_map; [naive_solver|]. by exists i.
  - apply eq_None_not_Some. intros [r (j & Hj & [= -> _])%lookup_set_to_map]; [done|].
    naive_solver.
Qed.
End cluster.

(** ** Quorums of the membership *)

Section quorums.
Context (members : gset string).

Definition majority (Q : gset string) : Prop :=
  Q ⊆ members ∧ size members < 2 * size Q.

Lemma majority_intersect Q1 Q2 : majority Q1 → majority Q2 → ∃ v, v ∈ Q1 ∧ v ∈ Q2.
Proof. intros [? ?] [? ?]. by eapply quorum_intersection. Qed.

Definition peers_ok (r : Raft) : Prop :=
  r_id r ∈ members ∧ NoDup (peers r) ∧
  ∀ p, p ∈ peers r ↔ p ∈ members ∧ p ≠ r_id r.

Lemma peers_ok_size r : peers_ok r → S (length (peers r)) = size members.
Proof.
  intros (Hi & Hnd & Hp).
  assert (members = {[r_id r]} ∪ list_to_set (peers r)) as ->.
  { apply set_eq. intros x. rewrite elem_of_union, elem_of_singleton, elem_of_list_to_set, Hp.
    destruct (decide (x = r_id r)); naive_solver. }
  rewrite size_union, size_singleton, size_list_to_set; [done|done|].
  intros x ->%elem_of_singleton Hx%elem_of_list_to_set. naive_solver.
Qed.

Lemma quorumSize_majority r n :
  peers_ok r → (quorumSize r ≤ Z.of_nat n)%Z ↔ size members < 2 * n.
Proof.
  intros Hp%peers_ok_size. unfold quorumSize, clusterSize.
  rewrite Z.quot_div_nonneg by lia.
  replace (Z.of_nat (length (peers r)) + 1)%Z with (Z.of_nat (size members)) by lia.
  pose proof (Z.div_mod (Z.of_nat (size members)) 2).
  pose proof (Z.mod_pos_bound (Z.of_nat (size members)) 2). lia.
Qed.
End quorums.
