(* ===== verification/Authored.v ===== *)
(** * Where entries come from

    A property of entries that holds of the sentinel and of every leader's
    no-op, and of whatever clients propose, holds of every entry in every log
    and message: the state machine makes up no entries.  One lemma per operation
    of [Raft]. *)

From S2P Require Import Prelude Pb Raft RaftWf Cluster.

Section authored.
Context {GR : GoRand}.
Context (P : LogEntry → Prop).
Context (Hnoop : ∀ i t, P (mkLogEntry i t [] EntryCommand)).

Definition carried (ms : list Message) : Prop := Forall (fun m => Forall P (mEntries m)) ms.

(** The log and the outbox of [r] hold such entries only. *)
Definition carries (r : Raft) : Prop := Forall P (log r) ∧ carried (msgs r).

Lemma carries_same r r' : log r' = log r → msgs r' = msgs r → carries r → carries r'.
Proof. unfold carries. by intros -> ->. Qed.

Lemma carries_send r m : Forall P (mEntries m) → carries r → carries (send r m).
Proof. intros Hm [Hl Hs]. split; [done|]. apply Forall_app. split; [done|]. by constructor. Qed.

Lemma carries_log r l : Forall P l → carries r → carries (r <| log := l |>).
Proof. intros Hl [_ Hs]. by split. Qed.

Lemma carries_snoc r e : P e → carries r → carries (r <| log := log r ++ [e] |>).
Proof. intros He Hr. apply carries_log; [|done]. apply Forall_app. split; [apply Hr|by constructor]. Qed.

(** ** Broadcasts *)

Lemma resetElectionTimeout_carries r r' : resetElectionTimeout r = Some r' → carries r → carries r'.
Proof.
  unfold resetElectionTimeout. intros H. inv_seq. destruct a as [v g]. injection H as <-.
  by apply carries_same.
Qed.

Lemma broadcastRequestVote_carries r r' : broadcastRequestVote r = Some r' → carries r → carries r'.
Proof.
  unfold broadcastRequestVote. intros H. inv_seq. injection H as <-.
  generalize (peers r) as ps. clear Hm Hm0.
  intros ps. revert r. induction ps as [|p ps IH]; intros r; simpl; [done|].
  intros Hr. apply IH. by apply carries_send.
Qed.

Lemma heartbeatMessage_carries r p m : heartbeatMessage r p = Some m → carries r → Forall P (mEntries m).
Proof.
  unfold heartbeatMessage. intros H [Hl _]. inv_seq. injection H as <-. simpl.
  case_decide; inv_seq; simplify_eq; [|done]. unfold slice_from in *. case_decide; [done|]. simplify_eq.
  rewrite fmap_Clone_id. by apply Forall_drop.
Qed.

Lemma broadcastHeartbeat_carries r r' : broadcastHeartbeat r = Some r' → carries r → carries r'.
Proof.
  unfold broadcastHeartbeat. generalize (peers r) as ps. intros ps. revert r.
  induction ps as [|p ps IH]; intros r; simpl; [congruence|]. intros H Hr. inv_seq.
  apply (IH _ H). apply carries_send; [|done]. by eapply heartbeatMessage_carries.
Qed.

Lemma maybeAdvanceCommit_carries r r' : maybeAdvanceCommit r = Some r' → carries r → carries r'.
Proof.
  unfold maybeAdvanceCommit. cbv zeta. intros H. inv_seq. injection H as <-. clear Hm.
  generalize (N.to_nat (a + 1 - (commitIndex r +u 1))) as k. generalize (commitIndex r +u 1) as n.
  intros n k. revert r n. induction k as [|k IH]; intros r n; simpl; [done|]. intros Hr. apply IH.
  repeat case_decide; try done; revert Hr; by apply carries_same.
Qed.

(** ** State transitions *)

Lemma becomeFollower_carries r t l r' : becomeFollower r t l = Some r' → carries r → carries r'.
Proof.
  unfold becomeFollower. intros H Hr. inv_seq. injection H as <-.
  apply (carries_same a); [done|done|]. eapply resetElectionTimeout_carries; [done|].
  revert Hr. by apply carries_same.
Qed.

Lemma becomeLeader_carries r r' : becomeLeader r = Some r' → carries r → carries r'.
Proof using Hnoop.
  unfold becomeLeader. intros H Hr. cbv zeta in H. inv_seq.
  apply broadcastHeartbeat_carries in H; [done|]. apply carries_snoc; [apply Hnoop|].
  revert Hr. by apply carries_same.
Qed.

Lemma becomeCandidate_carries r r' : becomeCandidate r = Some r' → carries r → carries r'.
Proof using Hnoop.
  unfold becomeCandidate. intros H Hr. cbv zeta in H. inv_seq. rename a into r1.
  assert (carries (syncTerm r1)) as Hr1.
  { apply (carries_same r1); [done|done|]. eapply resetElectionTimeout_carries; [done|].
    revert Hr. by apply carries_same. }
  case_match; [by eapply becomeLeader_carries|by eapply broadcastRequestVote_carries].
Qed.

Lemma Tick_carries r r' : Tick r = Some r' → carries r → carries r'.
Proof using Hnoop.
  unfold Tick, tickElection, tickHeartbeat. intros H Hr.
  case_match; cbv zeta in H; case_decide; try (injection H as <-; revert Hr; by apply carries_same);
    first [eapply becomeCandidate_carries; [exact H|] | eapply broadcastHeartbeat_carries; [exact H|]];
    revert Hr; by apply carries_same.
Qed.

(** ** Message handlers *)

Lemma handleRequestVote_carries r m r' : handleRequestVote r m = Some r' → carries r → carries r'.
Proof.
  unfold handleRequestVote. intros H Hr. cbv zeta in H.
  repeat (case_decide || case_match || inv_seq); simplify_eq; apply carries_send; done.
Qed.

Lemma handleRequestVoteResp_carries r m r' : handleRequestVoteResp r m = Some r' → carries r → carries r'.
Proof using Hnoop.
  unfold handleRequestVoteResp. intros H Hr. cbv zeta in H.
  case_decide; [congruence|]. case_match; [|case_decide; [congruence|]]; inv_seq;
    (case_decide || case_match); try (injection H as <-; revert Hr; by apply carries_same);
    first [eapply becomeCandidate_carries; [exact H|] | eapply becomeLeader_carries; [exact H|]];
    revert Hr; by apply carries_same.
Qed.

Lemma append_loop_Forall l prev i es l' :
  append_loop l prev i es = Some l' → Forall P l → Forall P es → Forall P l'.
Proof.
  revert i. induction es as [|e es IH]; intros i; simpl; [congruence|]. intros H Hl Hes. inv_seq.
  repeat case_decide.
  - inv_seq. injection H as <-. apply Forall_app. split; [|done]. unfold slice_to in *.
    case_decide; [done|]. simplify_eq. by apply Forall_take.
  - inversion Hes; subst. by eapply IH.
  - injection H as <-. by apply Forall_app.
Qed.

Lemma acceptEntries_carries r m reply r' :
  acceptEntries r m reply = Some r' → Forall P (mEntries m) → mEntries reply = [] → carries r → carries r'.
Proof.
  unfold acceptEntries. intros H Hm Hrep Hr. cbv zeta in H. inv_seq.
  match goal with Ha : append_loop _ _ _ _ = Some _ |- _ =>
    apply append_loop_Forall in Ha as Hl; [|apply Hr|done] end.
  injection H as <-. apply carries_send; [simpl; by rewrite Hrep|].
  pose proof (carries_log r _ Hl Hr) as Hr1.
  repeat case_decide; first [exact Hr1|revert Hr1; by apply carries_same].
Qed.

Lemma handleAppendEntries_carries r m r' :
  handleAppendEntries r m = Some r' → Forall P (mEntries m) → carries r → carries r'.
Proof.
  unfold handleAppendEntries. intros H Hm Hr. cbv zeta in H.
  case_decide; [injection H as <-; by apply carries_send|]. inv_seq.
  destruct a as [r1 reply].
  assert (carries r1 ∧ mEntries reply = []) as [Hr1 Hrep].
  { clear H. case_decide; inv_seq; simplify_eq; split; try done.
    eapply becomeFollower_carries; [done|]. revert Hr. by apply carries_same. }
  clear Hm0. assert (∀ i, carries (send r1 (reply <| mIndex := i |>))) as Hsend.
  { intros i. apply carries_send; [simpl; by rewrite Hrep|done]. }
  case_decide; [inv_seq; case_decide; [|case_decide]|]; try (injection H as <-; apply Hsend);
    by eapply acceptEntries_carries.
Qed.

Lemma handleAppendEntriesResp_carries r m r' :
  handleAppendEntriesResp r m = Some r' → carries r → carries r'.
Proof.
  unfold handleAppendEntriesResp. intros H Hr. destruct (mReject m);
    repeat case_decide; inv_seq; simplify_eq; try done;
    try (revert Hr; by apply carries_same);
    (eapply maybeAdvanceCommit_carries; [exact H|]; revert Hr; by apply carries_same).
Qed.

Lemma Step_carries r m r' : Step r m = Some r' → Forall P (mEntries m) → carries r → carries r'.
Proof using Hnoop.
  unfold Step. intros H Hm Hr. inv_seq. rename a into r1.
  assert (carries r1) as Hr1.
  { clear H. destruct (decide (currentTerm r < mTerm m)%N); [|congruence]. cbv zeta in *.
    case_match; [congruence|]. by eapply becomeFollower_carries. }
  case_match; [by eapply handleRequestVote_carries|by eapply handleRequestVoteResp_carries
    |by eapply handleAppendEntries_carries|by eapply handleAppendEntriesResp_carries].
Qed.

(** ** Proposals *)

Lemma Propose_carries r d pr :
  Propose r d = Some pr → (∀ i t, P (mkLogEntry i t d EntryCommand)) → carries r → carries pr.2.
Proof.
  unfold Propose. intros H Hd Hr. case_decide; [injection H as <-; done|].
  inv_seq. simplify_eq. cbn [snd]. eapply broadcastHeartbeat_carries; [done|].
  pose proof (carries_snoc r _ (Hd (a +u 1) (currentTerm r)) Hr) as Hr1.
  case_match; inv_seq; simplify_eq; [|done]. revert Hr1. by apply carries_same.
Qed.

Lemma ProposeConfigChange_carries r addr r' :
  ProposeConfigChange r addr = Some r' →
  (∀ i t, P (mkLogEntry i t (bytes_of_string addr) EntryConfigChange)) → carries r → carries r'.
Proof.
  unfold ProposeConfigChange. intros H Hd Hr. case_decide; [congruence|]. inv_seq.
  eapply broadcastHeartbeat_carries; [done|]. by apply carries_snoc.
Qed.

Lemma ApplicableEntries_carries r er : ApplicableEntries r = Some er → carries r → carries er.2.
Proof.
  unfold ApplicableEntries. intros H Hr. cbv zeta in H. repeat (case_decide || inv_seq); simplify_eq; done.
Qed.

(** ** The cluster *)

(** Every log and every message in flight. *)
Definition cluster_carries (c : Cluster) : Prop :=
  map_Forall (fun _ r => Forall P (log r)) (nodes c) ∧ carried (net c).

Lemma carries_at c i r : cluster_carries c → nodes c !! i = Some r → msgs r = [] → carries r.
Proof. intros [Hn _] Hr Hs. split; [by apply (Hn i)|]. rewrite Hs. by apply Forall_nil. Qed.

Lemma at_node_carries c i f c' :
  at_node c i f = Some c' → cluster_carries c → (∀ r, nodes c !! i = Some r → msgs r = []) →
  (∀ r r', f r = Some r' → carries r → carries r') → cluster_carries c'.
Proof.
  unfold at_node. intros H Hc Hq Hf. apply seq_bind_Some in H as (r & Hr & H).
  apply seq_bind_Some in H as (r' & Hr' & H). injection H as <-.
  destruct (Hf r r' Hr') as [Hl Hs]; [by apply (carries_at c i); auto|]. destruct Hc as [Hn Hm].
  split; [by apply map_Forall_insert_2|]. by apply Forall_app.
Qed.

Lemma exec_carries c e c' :
  exec c e = Some c' → cluster_carries c → (∀ j r, nodes c !! j = Some r → msgs r = []) →
  (∀ t d, (t, d) ∈ asks e → ∀ i k, P (mkLogEntry i k d t)) → cluster_carries c'.
Proof using Hnoop.
  intros Hex Hc Hq Ha. destruct e as [i|m|i data|i addr|i]; simpl in Hex.
  - eapply at_node_carries; [exact Hex|done|intros; by eapply Hq|]. intros r r'. apply Tick_carries.
  - case_decide as Hin; [|done]. eapply at_node_carries; [exact Hex|done|intros; by eapply Hq|]. intros r r' Hs.
    eapply Step_carries; [exact Hs|]. by eapply Forall_forall in Hin; [|apply Hc].
  - eapply at_node_carries; [exact Hex|done|intros; by eapply Hq|]. intros r r' Hp.
    apply seq_bind_Some in Hp as (pr & Hpr & [= <-]). eapply Propose_carries; [exact Hpr|]. intros j k. apply Ha. by apply list_elem_of_singleton.
  - eapply at_node_carries; [exact Hex|done|intros; by eapply Hq|]. intros r r' Hp.
    eapply ProposeConfigChange_carries; [exact Hp|]. intros j k. apply Ha. by apply list_elem_of_singleton.
  - apply seq_bind_Some in Hex as (r & Hr & Hex). apply seq_bind_Some in Hex as (er & Her & Hex).
    injection Hex as <-. pose proof (carries_at c i r Hc Hr (Hq i r Hr)) as Hcr.
    destruct (ApplicableEntries_carries r er Her Hcr) as [Hl _]. destruct Hc as [Hn Hm].
    split; [by apply map_Forall_insert_2|done].
Qed.
End authored.
