(* ===== verification/ClusterTrans.v ===== *)
(** * Elementary transitions of a node

    Every event of a run changes one node.  This file splits the change into
    elementary transitions that say exactly what happens to the term, the
    vote, the role, the log and the commit index, and which messages leave the
    node.  The safety proofs go by cases over these transitions. *)

From S2P Require Import Prelude Pb Raft RaftWf Cluster.

Definition is_grant (m : Message) : Prop :=
  mType m = MsgRequestVoteResp ∧ mIsPreVote m = false ∧ mReject m = false.

Definition is_ack (m : Message) : Prop :=
  mType m = MsgAppendEntriesResp ∧ mReject m = false.

(** A response that promises nothing. *)
Definition quiet (m : Message) : Prop :=
  (mType m = MsgRequestVoteResp ∨ mType m = MsgAppendEntriesResp) ∧
  ¬ is_grant m ∧ ¬ is_ack m.

Definition drain (r : Raft) : Raft := r <| msgs := [] |>.

Definition same_vote (r r' : Raft) : Prop :=
  currentTerm r' = currentTerm r ∧ votedFor r' = votedFor r ∧
  state r' = state r ∧ votes r' = votes r.

Definition same_log (r r' : Raft) : Prop :=
  log r' = log r ∧ commitIndex r' = commitIndex r.

Section transitions.
Context {GR : GoRand}.
Context (members : gset string) (ntw : list Message).

Inductive trans (r r' : Raft) (ms : list Message) : Prop :=
| tr_keep :
    same_vote r r' → same_log r r' → matchIndex r' = matchIndex r →
    Forall quiet ms → trans r r' ms
| tr_raise :
    (currentTerm r < currentTerm r')%N → votedFor r' = NoneID →
    state r' = Follower → same_log r r' → ms = [] → trans r r' ms
| tr_demote m :
    m ∈ ntw → mType m = MsgAppendEntries → mTo m = r_id r →
    mTerm m = currentTerm r → state r ≠ Follower →
    currentTerm r' = currentTerm r → votedFor r' = NoneID →
    state r' = Follower → same_log r r' → ms = [] → trans r r' ms
| tr_grant m :
    m ∈ ntw → mType m = MsgRequestVote → mTo m = r_id r →
    mTerm m = currentTerm r →
    votedFor r = NoneID ∨ votedFor r = mFrom m →
    up_to_date (log r) (mLastLogIndex m) (mLastLogTerm m) = true →
    currentTerm r' = currentTerm r → votedFor r' = mFrom m →
    state r' = state r → votes r' = votes r → same_log r r' →
    matchIndex r' = matchIndex r →
    ms = [vote_reply r m false false] → trans r r' ms
| tr_tally m kvs :
    m ∈ ntw → mType m = MsgRequestVoteResp → mIsPreVote m = false →
    mTo m = r_id r → mTerm m = currentTerm r → state r = Candidate →
    votes r = Some kvs → votes r' = Some (<[mFrom m := negb (mReject m)]> kvs) →
    currentTerm r' = currentTerm r → votedFor r' = votedFor r →
    state r' = Candidate → same_log r r' → ms = [] → trans r r' ms
| tr_campaign :
    state r ≠ Leader → currentTerm r' = (currentTerm r + 1)%N →
    votedFor r' = r_id r → state r' = Candidate →
    votes r' = Some {[ r_id r := true ]} → same_log r r' →
    Forall (fun m => ∃ p, m = vote_request_to r' p) ms → trans r r' ms
| tr_win :
    state r = Candidate → quorum r = true →
    currentTerm r' = currentTerm r → votedFor r' = votedFor r →
    votes r' = votes r → state r' = Leader →
    log r' = log r ++ [noop_of r] → commitIndex r' = commitIndex r →
    (∀ p, map_read 0%N (matchIndex r') p = 0%N) →
    Forall (fun m => ∃ p, m = heartbeat_to r' p) ms → trans r r' ms
| tr_lead es :
    state r = Leader → same_vote r r' → log r' = log r ++ es →
    Forall (fun e => eTerm e = currentTerm r) es →
    commitIndex r' = commitIndex r →
    (∀ p, p ≠ r_id r →
      map_read 0%N (matchIndex r') p = map_read 0%N (matchIndex r) p) →
    Forall (fun m => ∃ p, m = heartbeat_to r' p) ms → trans r r' ms
| tr_append m :
    m ∈ ntw → mType m = MsgAppendEntries → mTo m = r_id r →
    mTerm m = currentTerm r → state r = Follower → appendable r m →
    mPrevLogIndex m = 0%N ∨
      log_term (log r) (mPrevLogIndex m) = mPrevLogTerm m →
    same_vote r r' → log r' = merged r m → commitIndex r' = follower_commit r m →
    ms = [append_reply r m (mTerm m) false (N.of_nat (pred (length (merged r m))))] →
    trans r r' ms
| tr_match m :
    m ∈ ntw → is_ack m → mTo m = r_id r → mTerm m = currentTerm r →
    state r = Leader → same_vote r r' → same_log r r' →
    (∀ p, map_read 0%N (matchIndex r') p = map_read 0%N (matchIndex r) p ∨
          p = mFrom m ∧ map_read 0%N (matchIndex r') p = mIndex m) →
    ms = [] → trans r r' ms
| tr_commit :
    state r = Leader → same_vote r r' → log r' = log r →
    matchIndex r' = matchIndex r →
    (commitIndex r < commitIndex r' < N.of_nat (length (log r)))%N →
    log_term (log r) (commitIndex r') = currentTerm r →
    (quorumSize r ≤ count_matches (matchIndex r) (commitIndex r') (peers r) 1)%Z →
    ms = [] → trans r r' ms.

(** What all transitions of a node have in common. *)
Record tame (r r' : Raft) (ms : list Message) : Prop := {
  tame_wf : raft_wf r';
  tame_id : r_id r' = r_id r;
  tame_peers : peers r' = peers r;
  tame_applied : lastApplied r' = lastApplied r;
  tame_msgs : msgs r' = [];
  tame_out m : m ∈ ms →
    mFrom m = r_id r ∧ mTo m ∈ members ∧ mTo m ≠ r_id r ∧ msg_wf m ∧
    mTerm m = currentTerm r'
}.

Inductive transs : Raft → Raft → list Message → Prop :=
| ts_nil r : transs r r []
| ts_cons r1 r2 r3 ms1 ms2 :
    trans r1 r2 ms1 → tame r1 r2 ms1 → transs r2 r3 ms2 →
    transs r1 r3 (ms1 ++ ms2).

Lemma ts_one r r' ms : trans r r' ms → tame r r' ms → transs r r' ms.
Proof.
  intros Ht Hg. rewrite <- (app_nil_r ms). eapply ts_cons; eauto using ts_nil.
Qed.

Lemma ts_silent r1 r2 r3 ms :
  trans r1 r2 [] → tame r1 r2 [] → transs r2 r3 ms → transs r1 r3 ms.
Proof. intros Ht Hg H. rewrite <- (app_nil_l ms). by eapply ts_cons. Qed.

Definition valid_msg (m : Message) : Prop :=
  mFrom m ∈ members ∧ mTo m ∈ members ∧ mFrom m ≠ mTo m ∧ msg_wf m.

(** A node at rest between two events. *)
Record node_ok (r : Raft) : Prop := {
  no_wf : raft_wf r;
  no_peers : peers_ok members r;
  no_msgs : msgs r = []
}.

Lemma tame_node_ok r r' ms : node_ok r → tame r r' ms → node_ok r'.
Proof.
  intros [Hwf Hp Hm] [Hwf' Hid Hps _ Hms _]. split; [done| |done].
  unfold peers_ok in *. by rewrite Hid, Hps.
Qed.

(** What an elementary transition, an apply step and a restart share. *)
Record calm (r r' : Raft) (ms : list Message) : Prop := {
  calm_ok : node_ok r';
  calm_id : r_id r' = r_id r;
  calm_out m : m ∈ ms →
    mFrom m = r_id r ∧ mTo m ∈ members ∧ mTo m ≠ r_id r ∧ msg_wf m ∧
    mTerm m = currentTerm r'
}.

Lemma tame_calm r r' ms : node_ok r → tame r r' ms → calm r r' ms.
Proof. intros Hok Ht. split; [by eapply tame_node_ok|by destruct Ht..]. Qed.

(** ** Outbound messages are valid *)

Lemma heartbeat_to_wf r p : raft_wf r → msg_wf (heartbeat_to r p).
Proof.
  intros Hwf. split; [by apply rw_term|]. intros _. simpl.
  pose proof (rw_next_u64 _ Hwf p) as Hn.
  pose proof (rw_log _ Hwf) as Hl. pose proof (log_wf_bound _ Hl) as Hb.
  set (n := map_read 0%N (nextIndex r) p) in *.
  destruct (decide (n = 0%N)) as [->|Hne].
  { left. rewrite u64_sub_wrap by done. done. }
  destruct (decide (n -u 1 + 1 = two64)%N) as [|Hnw]; [by left|right].
  rewrite u64_sub_small in * by lia. rewrite length_drop. split; [lia|].
  intros i e. rewrite lookup_drop. intros He.
  rewrite (log_wf_index _ Hl _ _ He). lia.
Qed.

Lemma vote_request_to_wf r p : raft_wf r → msg_wf (vote_request_to r p).
Proof. intros Hwf. split; [by apply rw_term|done]. Qed.

Lemma peer_elem r p : peers_ok members r → p ∈ peers r → p ∈ members ∧ p ≠ r_id r.
Proof. intros (_ & _ & H). by apply H. Qed.

Lemma drain_wf r : raft_wf r → raft_wf (drain r).
Proof. intros Hwf. wf_same. Qed.

(** ** The transitions behind each operation *)

Lemma heartbeats_out r (ps : list string) :
  raft_wf r → peers_ok members r → (∀ p, p ∈ ps → p ∈ peers r) →
  ∀ m, m ∈ heartbeat_to r <$> ps →
    mFrom m = r_id r ∧ mTo m ∈ members ∧ mTo m ≠ r_id r ∧ msg_wf m ∧
    mTerm m = currentTerm r.
Proof.
  intros Hwf Hp Hps m (p & -> & Hin)%list_elem_of_fmap.
  destruct (peer_elem _ _ Hp (Hps _ Hin)). by pose proof (heartbeat_to_wf r p Hwf).
Qed.

Lemma vote_requests_out r (ps : list string) :
  raft_wf r → peers_ok members r → (∀ p, p ∈ ps → p ∈ peers r) →
  ∀ m, m ∈ vote_request_to r <$> ps →
    mFrom m = r_id r ∧ mTo m ∈ members ∧ mTo m ≠ r_id r ∧ msg_wf m ∧
    mTerm m = currentTerm r.
Proof.
  intros Hwf Hp Hps m (p & -> & Hin)%list_elem_of_fmap.
  destruct (peer_elem _ _ Hp (Hps _ Hin)). by pose proof (vote_request_to_wf r p Hwf).
Qed.

Lemma Forall_heartbeats r r' (ps : list string) :
  (∀ p, heartbeat_to r p = heartbeat_to r' p) →
  Forall (fun m => ∃ p, m = heartbeat_to r' p) (heartbeat_to r <$> ps).
Proof.
  intros Heq. apply Forall_forall. intros m (p & -> & _)%list_elem_of_fmap.
  exists p. by rewrite Heq.
Qed.

(** A leader that appends [es] and broadcasts. *)
Lemma lead_transs r r' es ms :
  node_ok r → raft_wf r' → state r = Leader → same_vote r r' →
  log r' = log r ++ es → Forall (fun e => eTerm e = currentTerm r) es →
  commitIndex r' = commitIndex r →
  (∀ p, p ≠ r_id r →
    map_read 0%N (matchIndex r') p = map_read 0%N (matchIndex r) p) →
  r_id r' = r_id r → peers r' = peers r → lastApplied r' = lastApplied r →
  msgs r' = [] → ms = heartbeat_to r' <$> peers r →
  transs r r' ms.
Proof.
  intros [Hwf Hp Hm] Hwf' Hst Hv Hl Hes Hc Hmi Hid Hps Hla Hms ->.
  apply ts_one.
  - eapply tr_lead; try done. by apply Forall_heartbeats.
  - split; try done. rewrite <- Hid. apply heartbeats_out; [done| |].
    + unfold peers_ok in *. by rewrite Hid, Hps.
    + by rewrite Hps.
Qed.

Lemma win_transs r :
  node_ok r → state r = Candidate → quorum r = true → log_room r →
  transs r (leader_of r) (heartbeat_to (leader_of r) <$> peers r).
Proof.
  intros [Hwf Hp Hm] Hst Hq Hroom.
  pose proof (leader_of_wf r Hwf Hroom) as Hwf'. apply ts_one.
  - eapply tr_win; try done.
    + intros p. simpl. rewrite init_peers_read. by case_decide.
    + by apply Forall_heartbeats.
  - split; try done. by apply (heartbeats_out (leader_of r)).
Qed.

Lemma campaign_transs r :
  node_ok r → state r ≠ Leader → (currentTerm r + 1 < two64)%N → log_room r →
  ∃ r' ms, transs r r' ms ∧ becomeCandidate r = Some (with_msgs r' ms) ∧ msgs r' = [].
Proof.
  intros [Hwf Hp Hm] Hst Hterm Hroom.
  pose proof (candidate_of_wf r Hwf) as Hwf'.
  assert (currentTerm (candidate_of r) = currentTerm r + 1)%N as Ht
    by (by apply u64_add_small).
  rewrite becomeCandidate_eq by (done || apply Hwf). cbv zeta.
  destruct (quorum (candidate_of r)) eqn:Hq.
  - exists (leader_of (candidate_of r)), (heartbeat_to (leader_of (candidate_of r)) <$> peers r).
    split_and!; [|done|done]. eapply ts_silent; [|by split; try set_solver|].
    + by apply tr_campaign.
    + apply (win_transs (candidate_of r)); try done.
  - exists (candidate_of r), (vote_request_to (candidate_of r) <$> peers r).
    split_and!; [|done|done]. apply ts_one.
    + apply tr_campaign; try done. apply Forall_forall.
      intros m (p & -> & _)%list_elem_of_fmap. by exists p.
    + split; try done. by apply (vote_requests_out (candidate_of r)).
Qed.

Lemma drain_id r : msgs r = [] → drain r = r.
Proof. destruct r; unfold drain, modify; simpl. by intros ->. Qed.

Lemma drain_with_msgs r ms : msgs r = [] → drain (with_msgs r ms) = r.
Proof. destruct r; unfold drain, with_msgs, modify; simpl. by intros ->. Qed.

Lemma msgs_with_msgs r ms : msgs r = [] → msgs (with_msgs r ms) = ms.
Proof. unfold with_msgs, modify. simpl. by intros ->. Qed.

(** What a completed operation did, read off its result. *)
Definition ran (r r' : Raft) : Prop := transs r (drain r') (msgs r').

Lemma ran_with_msgs r r' ms : msgs r' = [] → transs r r' ms → ran r (with_msgs r' ms).
Proof.
  intros Hm Ht. unfold ran. by rewrite drain_with_msgs, msgs_with_msgs.
Qed.

Lemma ran_silent r r1 r' : trans r r1 [] → tame r r1 [] → ran r1 r' → ran r r'.
Proof. apply ts_silent. Qed.

Lemma tame_silent r r' :
  raft_wf r' → r_id r' = r_id r → peers r' = peers r →
  lastApplied r' = lastApplied r → msgs r' = [] → tame r r' [].
Proof. intros. split; try done. intros m Hm. by apply not_elem_of_nil in Hm. Qed.

Lemma ran_one r r' :
  trans r (drain r') [] → raft_wf r' → r_id r' = r_id r → peers r' = peers r →
  lastApplied r' = lastApplied r → msgs r' = [] → ran r r'.
Proof.
  intros Ht Hwf Hid Hps Hla Hms. unfold ran. rewrite Hms. apply ts_one; [done|].
  apply tame_silent; try done. by apply drain_wf.
Qed.

Lemma keep_ran r r' :
  same_vote r r' → same_log r r' → matchIndex r' = matchIndex r →
  raft_wf r' → r_id r' = r_id r → peers r' = peers r →
  lastApplied r' = lastApplied r → msgs r' = [] → ran r r'.
Proof. intros. apply ran_one; try done. by apply tr_keep. Qed.

Lemma keep_silent r r1 r' :
  same_vote r r1 → same_log r r1 → matchIndex r1 = matchIndex r →
  raft_wf r1 → r_id r1 = r_id r → peers r1 = peers r →
  lastApplied r1 = lastApplied r → msgs r1 = [] → ran r1 r' → ran r r'.
Proof. intros. eapply ran_silent; [by apply tr_keep|by apply tame_silent|done]. Qed.

Definition room (r : Raft) : Prop := (currentTerm r + 1 < two64)%N ∧ log_room r.

Lemma becomeCandidate_ran r r' :
  node_ok r → state r ≠ Leader → room r → becomeCandidate r = Some r' → ran r r'.
Proof.
  intros Hr Hst [Hterm Hroom] Hc.
  destruct (campaign_transs r Hr Hst Hterm Hroom) as (r1 & ms & Ht & Heq & Hm).
  simplify_eq. by apply ran_with_msgs.
Qed.

Lemma becomeLeader_ran r r' :
  node_ok r → state r = Candidate → quorum r = true → log_room r →
  becomeLeader r = Some r' → ran r r'.
Proof.
  intros Hr Hst Hq Hroom Hl. rewrite becomeLeader_eq in Hl by (done || apply Hr).
  simplify_eq. apply ran_with_msgs; [by apply Hr|by apply win_transs].
Qed.

Lemma broadcastHeartbeat_ran r r1 r' es :
  node_ok r → raft_wf r1 → state r = Leader → same_vote r r1 →
  log r1 = log r ++ es → Forall (fun e => eTerm e = currentTerm r) es →
  commitIndex r1 = commitIndex r →
  (∀ p, p ≠ r_id r →
    map_read 0%N (matchIndex r1) p = map_read 0%N (matchIndex r) p) →
  r_id r1 = r_id r → peers r1 = peers r → lastApplied r1 = lastApplied r →
  msgs r1 = [] → broadcastHeartbeat r1 = Some r' → ran r r'.
Proof.
  intros Hr Hwf Hst Hv Hl Hes Hc Hmi Hid Hps Hla Hms Hb.
  rewrite broadcastHeartbeat_eq in Hb by apply Hwf. simplify_eq.
  apply ran_with_msgs; [done|]. eapply lead_transs; try done. by rewrite Hps.
Qed.

Lemma Tick_ran r r' : node_ok r → room r → Tick r = Some r' → ran r r'.
Proof.
  intros Hr Hroom. pose proof Hr as [Hwf Hp Hm].
  assert (∀ e, state r ≠ Leader → tickElection r = Some e → ran r e) as Helec.
  { intros e Hst. unfold tickElection. cbv zeta. case_decide.
    - intros He. eapply (keep_silent r (r <| electionElapsed := 0%Z |>
        <| leaderActive := false |>)); try done; [wf_same|].
      apply becomeCandidate_ran; try done. split; [wf_same|done|done].
    - intros [= <-]. apply keep_ran; try done. wf_same. }
  unfold Tick. destruct (state r) eqn:Hst; [by apply Helec|by apply Helec|].
  unfold tickHeartbeat. cbv zeta. case_decide.
  - intros Hb.
    refine (broadcastHeartbeat_ran r _ _ [] Hr _ Hst _ _ _ _ _ _ _ _ _ Hb);
      try done; [wf_same|by rewrite app_nil_r].
  - intros [= <-]. apply keep_ran; try done. wf_same.
Qed.

(** ** Message handlers *)

(** A reply to [m] leaves the node for the sender of [m]. *)
Record reply_to (r : Raft) (m reply : Message) : Prop := {
  rt_from : mFrom reply = r_id r;
  rt_to : mTo reply = mFrom m;
  rt_term : mTerm reply = currentTerm r;
  rt_type : mType reply ≠ MsgAppendEntries
}.

Lemma reply_ran r r1 m reply :
  raft_wf r1 → valid_msg m → mTo m = r_id r →
  r_id r1 = r_id r → peers r1 = peers r → lastApplied r1 = lastApplied r →
  msgs r1 = [] → reply_to r1 m reply →
  trans r r1 [reply] → ran r (send r1 reply).
Proof.
  intros Hwf (Hf & Hto & Hne & _) Hm Hid Hps Hla Hms [Rf Rt Rterm Rty] Ht.
  change (send r1 reply) with (with_msgs r1 [reply]).
  apply ran_with_msgs; [done|]. apply ts_one; [done|].
  split; try done. intros x ->%list_elem_of_singleton.
  split_and!; [congruence|congruence|congruence| |done].
  split; [rewrite Rterm; by apply rw_term|done].
Qed.

Lemma quiet_reply_ran r r1 m reply :
  raft_wf r1 → valid_msg m → mTo m = r_id r →
  r_id r1 = r_id r → peers r1 = peers r → lastApplied r1 = lastApplied r →
  msgs r1 = [] → reply_to r1 m reply → quiet reply →
  same_vote r r1 → same_log r r1 → matchIndex r1 = matchIndex r →
  ran r (send r1 reply).
Proof.
  intros. eapply reply_ran; try done. apply tr_keep; try done. by constructor.
Qed.

Lemma quiet_vote_reply r m pre reject :
  pre = true ∨ reject = true → quiet (vote_reply r m pre reject).
Proof.
  intros Hpr. split; [by left|]. split; [|by intros []].
  intros (_ & Hp & Hr). simpl in *. by destruct Hpr as [->| ->].
Qed.

Lemma quiet_append_reply r m t i : quiet (append_reply r m t true i).
Proof. split; [by right|]. by split; intros [? ?]. Qed.

Lemma handleRequestVote_ran r m r' :
  node_ok r → valid_msg m → m ∈ ntw → mType m = MsgRequestVote → mTo m = r_id r →
  (mTerm m ≤ currentTerm r)%N ∨ mIsPreVote m = true →
  handleRequestVote r m = Some r' → ran r r'.
Proof.
  intros [Hwf Hp Hms] Hv Hin Hty Hto Hle.
  rewrite handleRequestVote_eq by apply Hwf. intros [= <-].
  assert (∀ pre rej, pre = true ∨ rej = true → ran r (send r (vote_reply r m pre rej)))
    as Hquiet.
  { intros pre rej Hpr. apply (quiet_reply_ran r r m); try done. by apply quiet_vote_reply. }
  case_decide; [by apply Hquiet; right|].
  destruct (mIsPreVote m); [by apply Hquiet; left|].
  case_decide; [by apply Hquiet; right|].
  destruct (can_vote r m) eqn:Hc; [|by apply Hquiet; right].
  apply andb_true_iff in Hc as [Hc%bool_decide_eq_true Hup].
  assert (mTerm m = currentTerm r) as Ht by (destruct Hle; [lia|done]).
  eapply (reply_ran r _ m); try done; [wf_same|]. by eapply (tr_grant _ _ _ m).
Qed.

Lemma handleRequestVoteResp_ran r m r' :
  node_ok r → valid_msg m → m ∈ ntw → mType m = MsgRequestVoteResp →
  mTo m = r_id r → (state r = Candidate → (currentTerm r + 1 < two64)%N) → log_room r →
  handleRequestVoteResp r m = Some r' → ran r r'.
Proof.
  intros Hr Hv Hin Hty Hto Hterm Hroom. pose proof Hr as [Hwf Hp Hms].
  assert (same_vote r r) as Hsv by done.
  unfold handleRequestVoteResp. case_decide as Hst; [by intros [= <-]; apply keep_ran|].
  assert (state r = Candidate) as Hc by (by destruct (decide (state r = Candidate))).
  destruct (mIsPreVote m) eqn:Hpre.
  - cbv zeta. intros Hres. inv_seq. set (r1 := r <| preVotes := a |>) in Hres.
    assert (raft_wf r1) as Hwf1 by wf_same.
    case_decide.
    + eapply (keep_silent r r1); try done.
      apply becomeCandidate_ran; [by split|simpl; congruence|by split; auto|done].
    + simplify_eq. by apply keep_ran.
  - case_decide as Ht; [by intros [= <-]; apply keep_ran|].
    assert (mTerm m = currentTerm r) by (by destruct (decide (mTerm m = currentTerm r))).
    intros Hres. inv_seq. cbv zeta in Hres.
    apply map_write_Some in Hm as (kvs & Hkvs & ->).
    set (r1 := r <| votes := Some (<[mFrom m:=negb (mReject m)]> kvs) |>) in Hres.
    assert (raft_wf r1) as Hwf1 by (wf_same; by eexists).
    assert (trans r r1 []) as Htr by (by eapply tr_tally).
    destruct (quorum r1) eqn:Hq.
    + eapply ran_silent; [done|by apply tame_silent|].
      by apply becomeLeader_ran.
    + simplify_eq. apply ran_one; try done. by eapply tr_tally.
Qed.

Lemma handleAppendEntries_ran r m r' :
  node_ok r → valid_msg m → m ∈ ntw → mType m = MsgAppendEntries → mTo m = r_id r →
  (mTerm m ≤ currentTerm r)%N → handleAppendEntries r m = Some r' → ran r r'.
Proof.
  intros Hr Hv Hin Hty Hto Hle. pose proof Hr as [Hwf Hp Hms].
  pose proof Hv as (_ & _ & _ & Hmwf).
  destruct (decide (mTerm m < currentTerm r)%N) as [Hlt|Hge].
  { rewrite handleAppendEntries_stale by done. intros [= <-].
    apply (quiet_reply_ran r r m); try done. apply quiet_append_reply. }
  assert (currentTerm r = mTerm m) as Ht by lia.
  pose proof (heard_leader_wf r m Hwf (proj1 Hmwf)) as Hwf1.
  rewrite handleAppendEntries_eq;
    [|done|done|by apply msg_wf_prev|intros; by apply msg_wf_appendable; [apply Hwf|..]].
  assert (trans r (heard_leader r m) [] ∧ state (heard_leader r m) = Follower ∧
          r_id (heard_leader r m) = r_id r ∧ peers (heard_leader r m) = peers r ∧
          lastApplied (heard_leader r m) = lastApplied r ∧
          msgs (heard_leader r m) = [] ∧ currentTerm (heard_leader r m) = mTerm m)
    as (Htr & Hst1 & Hid & Hps & Hla & Hms1 & Ht1).
  { unfold heard_leader. cbv zeta. case_decide as Hst.
    - split; [by eapply (tr_demote _ _ _ m)|done].
    - split; [by apply tr_keep|]. split_and!; try done. }
  pose proof (heard_leader_log r m) as Hlog.
  set (r1 := heard_leader r m) in *. clearbody r1.
  assert (tame r r1 []) as Htame by by apply tame_silent.
  assert (∀ t rej i, append_reply r m t rej i = append_reply r1 m t rej i) as Hrep.
  { intros. unfold append_reply. by rewrite Hid. }
  rewrite !Hrep. intros [= <-]. eapply ran_silent; [done|done|].
  assert (∀ i, ran r1 (send r1 (append_reply r1 m (mTerm m) true i))) as Hrej.
  { intros i. apply (quiet_reply_ran r1 r1 m); try done; [congruence|].
    apply quiet_append_reply. }
  case_decide as Hgap; [apply Hrej|]. case_decide as Hcf; [apply Hrej|].
  assert (appendable r1 m) as Happ.
  { apply msg_wf_appendable; [apply Hwf1|done|done|]. rewrite Hlog. lia. }
  eapply (reply_ran r1 _ m); try done; [by apply accepted_wf|congruence|].
  eapply (tr_append _ _ _ m); try done; [congruence|].
  rewrite Hlog. destruct (decide (mPrevLogIndex m = 0%N)); [by left|right].
  destruct (decide (log_term (log r) (mPrevLogIndex m) = mPrevLogTerm m)); [done|].
  destruct Hcf. lia.
Qed.

Lemma maybeAdvanceCommit_ran r r' :
  node_ok r → state r = Leader → maybeAdvanceCommit r = Some r' → ran r r'.
Proof.
  intros [Hwf Hp Hms] Hst.
  pose proof (log_wf_bound _ (rw_log _ Hwf)) as Hb.
  destruct (maybeAdvanceCommit_cases r) as [[-> _]|(c & -> & Hc & [Htm Hq] & _)];
    [apply Hwf|apply Hwf| |]; intros [= <-]; [by apply keep_ran|].
  apply ran_one; try done; [by apply tr_commit|]. wf_same. lia.
Qed.

Lemma handleAppendEntriesResp_ran r m r' :
  node_ok r → m ∈ ntw → mType m = MsgAppendEntriesResp → mTo m = r_id r →
  handleAppendEntriesResp r m = Some r' → ran r r'.
Proof.
  intros Hr Hin Hty Hto Hres. pose proof Hr as [Hwf Hp Hms].
  assert (raft_wf r') as Hwf'.
  { by destruct (handleAppendEntriesResp_returns r m Hwf) as (x & ? & ?); simplify_eq. }
  unfold handleAppendEntriesResp in Hres.
  case_decide as Hst; [simplify_eq; by apply keep_ran|].
  assert (state r = Leader) as Hl by (by destruct (decide (state r = Leader))).
  case_decide as Ht; [simplify_eq; by apply keep_ran|].
  assert (mTerm m = currentTerm r) by (by destruct (decide (mTerm m = currentTerm r))).
  destruct (mReject m) eqn:Hrej.
  { repeat case_decide; inv_seq; simplify_eq; by apply keep_ran. }
  clear Hwf'. apply seq_bind_Some in Hres as (r1 & Hr1 & Hres).
  set (r2 := r1 <| heartbeatAcked := i64 (heartbeatAcked r1 + 1) |>) in Hres.
  assert (trans r r2 [] ∧ raft_wf r2 ∧ r_id r2 = r_id r ∧ peers r2 = peers r ∧
          lastApplied r2 = lastApplied r ∧ msgs r2 = [] ∧ state r2 = Leader)
    as (Htr & Hwf2 & Hid & Hps & Hla & Hms2 & Hst2).
  { unfold r2. case_decide; [|simplify_eq; split; [by apply tr_keep|];
      split_and!; try done; wf_same].
    inv_seq. apply map_write_Some in Hm as (mi & Hmi & ->).
    apply map_write_Some in Hm0 as (ni & Hni & ->). simplify_eq. split_and!; try done.
    - apply (tr_match _ _ _ m); try done. intros p. simpl. rewrite Hmi.
      destruct (decide (p = mFrom m)) as [->|Hne].
      + right. by rewrite map_read_write_eq.
      + left. by rewrite map_read_write_ne.
    - pose proof (rw_next_u64 _ Hwf) as Hu. rewrite Hni in Hu.
      pose proof (map_u64_insert ni (mFrom m) _ Hu (u64_lt (mIndex m + 1))). wf_same. }
  eapply ran_silent; [done|by apply tame_silent|].
  apply maybeAdvanceCommit_ran; try done. split; try done.
  unfold peers_ok in *. by rewrite Hid, Hps.
Qed.

(** ** The public operations *)

Lemma stepped_ran r m r' :
  node_ok r → valid_msg m →
  (node_ok (stepped r m) → ran (stepped r m) r') → ran r r'.
Proof.
  intros [Hwf Hp Hms] (_ & _ & _ & Hm & _) Hran.
  pose proof (stepped_wf r m Hwf Hm) as Hwf'.
  unfold stepped in *. destruct (raises_term r m) eqn:Hraise.
  - apply andb_true_iff in Hraise as [Hlt%bool_decide_eq_true _].
    match type of Hran with _ → ran ?s _ => apply (ran_silent r s) end;
      [by apply tr_raise|by apply tame_silent|by apply Hran].
  - apply Hran. by split.
Qed.

Lemma Step_ran r m r' :
  node_ok r → room r → valid_msg m → m ∈ ntw → mTo m = r_id r →
  Step r m = Some r' → ran r r'.
Proof.
  intros Hr [Hterm Hroom] Hv Hin Hto. rewrite Step_eq by apply Hr. intros Hh.
  apply (stepped_ran r m); [done|done|]. intros Hs.
  assert (mTo m = r_id (stepped r m)) as Hto'
    by (rewrite Hto; unfold stepped; by destruct (raises_term r m)).
  pose proof (stepped_term r m) as Hst. unfold handle in Hh.
  destruct (mType m) eqn:Hty.
  - apply (handleRequestVote_ran _ m); try done. destruct Hst as [?|[? _]]; eauto.
  - apply (handleRequestVoteResp_ran _ m); try done.
    + unfold stepped. by destruct (raises_term r m).
    + unfold log_room. by rewrite stepped_log.
  - apply (handleAppendEntries_ran _ m); try done.
    destruct Hst as [?|[_ [?|?]]]; congruence.
  - by apply (handleAppendEntriesResp_ran _ m).
Qed.

Lemma Propose_ran r d pr :
  node_ok r → room r → Propose r d = Some pr → ran r pr.2.
Proof.
  intros Hr [Hterm Hroom]. pose proof Hr as [Hwf Hp Hms].
  pose proof (Propose_returns r d Hwf Hroom) as (x & Hx & Hwfx).
  rewrite Propose_eq in * by (done || apply Hwf).
  case_decide as Hst; intros [= <-]; [by apply keep_ran|].
  assert (state r = Leader) as Hl by (by destruct (decide (state r = Leader))).
  injection Hx as <-. simpl in *. apply ran_with_msgs; [done|].
  eapply (lead_transs r (proposed r d)); try done.
  - apply drain_wf in Hwfx. by rewrite drain_with_msgs in Hwfx.
  - by constructor.
  - intros p Hpi. simpl. destruct (matchIndex r) as [kvs|]; [|done].
    simpl. by rewrite map_read_write_ne.
Qed.

Lemma ProposeConfigChange_ran r a r' :
  node_ok r → room r → ProposeConfigChange r a = Some r' → ran r r'.
Proof.
  intros Hr [Hterm Hroom]. pose proof Hr as [Hwf Hp Hms].
  rewrite ProposeConfigChange_eq by (done || apply Hwf).
  case_decide as Hst; intros [= <-]; [by apply keep_ran|].
  assert (state r = Leader) as Hl by (by destruct (decide (state r = Leader))).
  apply ran_with_msgs; [done|].
  eapply (lead_transs r (appended r (bytes_of_string a) EntryConfigChange)); try done.
  - by apply appended_wf.
  - by constructor.
Qed.
End transitions.

(** ** Events of a run *)

Section events.
Context {GR : GoRand}.
Context (members : gset string) (conf : string → Config).

Lemma put_put c i r1 r2 ms1 ms2 :
  put (put c i r1 ms1) i r2 ms2 = put c i r2 (ms1 ++ ms2).
Proof. unfold put. simpl. by rewrite insert_insert_eq, app_assoc. Qed.

Lemma put_same c i r : nodes c !! i = Some r → put c i r [] = c.
Proof. intros Hr. destruct c. unfold put. simpl in *. by rewrite insert_id, app_nil_r. Qed.

(** A property kept by every elementary transition is kept by a chain. *)
Lemma transs_put (P : Cluster → Prop) ntw i r r' ms :
  (∀ c s s' ms, P c → nodes c !! i = Some s → (∀ m, m ∈ ntw → m ∈ net c) →
    trans ntw s s' ms → tame members s s' ms → P (put c i s' ms)) →
  transs members ntw r r' ms →
  ∀ c, P c → nodes c !! i = Some r → (∀ m, m ∈ ntw → m ∈ net c) → P (put c i r' ms).
Proof.
  intros HP. induction 1 as [r|r1 r2 r3 ms1 ms2 Ht Htame _ IH]; intros c Hc Hr Hntw.
  - by rewrite put_same.
  - rewrite <- (put_put c i r2). apply IH.
    + by eapply HP.
    + simpl. by rewrite lookup_insert_eq.
    + intros m Hm. simpl. apply elem_of_app. auto.
Qed.

Record cluster_ok (c : Cluster) : Prop := {
  ck_node i r : nodes c !! i = Some r → node_ok members r ∧ r_id r = i;
  ck_net m : m ∈ net c → valid_msg members m
}.

(** An event is a chain of elementary transitions of one node, or hands
    committed entries to the application. *)
Lemma exec_cases c e c' :
  cluster_ok c → headroom c → exec c e = Some c' →
  (∃ i r r' ms, nodes c !! i = Some r ∧ transs members (net c) r r' ms ∧
     c' = put c i r' ms) ∨
  (∃ i r er, nodes c !! i = Some r ∧ ApplicableEntries r = Some er ∧
     c' = mkCluster (<[i := er.2]> (nodes c)) (net c)
            (<[i := applied_of c i ++ er.1]> (applied c))).
Proof.
  intros [Hnode Hnet] Hroom Hex.
  assert (∀ i f, at_node c i f = Some c' →
    (∀ r r', nodes c !! i = Some r → node_ok members r → r_id r = i → room r →
      f r = Some r' → ran members (net c) r r') →
    ∃ i r r' ms, nodes c !! i = Some r ∧ transs members (net c) r r' ms ∧
      c' = put c i r' ms) as Hat.
  { intros i f Hf Hran. unfold at_node in Hf. inv_seq. cbn [Messages] in Hf.
    injection Hf as <-. destruct (Hnode i a Hm) as [Hok Hid].
    eexists i, a, _, _. split_and!; [done| |done].
    apply (Hran a a0); try done. exact (Hroom i a Hm). }
  destruct e as [i|m|i d|i a|i]; simpl in Hex.
  - left. eapply Hat; [done|]. intros r r' _ Hok _ Hrm. by apply Tick_ran.
  - left. case_decide as Hin; [|done]. eapply Hat; [done|].
    intros r r' _ Hok Hid Hrm. apply Step_ran; auto.
  - left. eapply Hat; [done|]. intros r r' _ Hok _ Hrm Hp. cbv beta in Hp. inv_seq.
    injection Hp as <-. by eapply Propose_ran.
  - left. eapply Hat; [done|]. intros r r' _ Hok _ Hrm. by apply ProposeConfigChange_ran.
  - right. inv_seq. simplify_eq. by exists i, a, a0.
Qed.

Lemma fresh_config_wf i cfg : fresh_config members i cfg → config_wf cfg.
Proof.
  intros []. split_and!; [done|by rewrite fc_term|done|]. rewrite fc_log.
  split; [done| |done]. intros [|j] e; [by intros [= <-]|done].
Qed.

Lemma restart_config_wf i r :
  fresh_config members i (conf i) → (currentTerm r < two64)%N →
  config_wf (restart_config (conf i) r).
Proof.
  intros Hf Ht. destruct (fresh_config_wf _ _ Hf) as (Hb & _ & _ & Hl).
  rewrite (fc_log _ _ _ Hf) in Hl. by split_and!.
Qed.

(** A node as [NewRaft] leaves it, from its own membership configuration. *)
Lemma started_ok i cfg :
  i ∈ members → fresh_config members i (conf i) →
  cfgID cfg = i → cfgPeers cfg = cfgPeers (conf i) → config_wf cfg →
  node_ok members (started cfg).
Proof.
  intros Hi Hf Hid Hps Hwf. split; [by apply started_wf| |done].
  destruct Hf. split_and!; simpl; rewrite ?Hid, ?Hps; done.
Qed.

Lemma restart_cases c i c' :
  (∀ i, i ∈ members → fresh_config members i (conf i)) →
  (∀ i, is_Some (nodes c !! i) → i ∈ members) →
  cluster_ok c → restart conf c i = Some c' →
  ∃ r r', nodes c !! i = Some r ∧ calm members r r' [] ∧
    currentTerm r' = currentTerm r ∧ votedFor r' = votedFor r ∧ state r' = Follower ∧
    c' = mkCluster (<[i := r']> (nodes c)) (net c) (<[i := []]> (applied c)).
Proof.
  intros Hcf Hdom [Hnode _] Hre. unfold restart in Hre. inv_seq.
  assert (i ∈ members) as Hi by (apply Hdom; by eexists).
  destruct (Hnode i a Hm) as [Hok Hid].
  pose proof (restart_config_wf i a (Hcf i Hi) (rw_term _ (no_wf _ _ Hok))) as Hwf.
  rewrite NewRaft_eq in Hm0 by done. injection Hm0 as <-. injection Hre as <-.
  exists a, (started (restart_config (conf i) a)). split_and!; try done.
  pose proof (fc_id _ _ _ (Hcf i Hi)) as Hci.
  split; [by apply (started_ok i); auto|simpl; congruence|].
  intros m Hin. by apply not_elem_of_nil in Hin.
Qed.

Lemma apply_cases c i r er :
  cluster_ok c → nodes c !! i = Some r → ApplicableEntries r = Some er →
  calm members r er.2 [] ∧ same_vote r er.2 ∧ same_log r er.2 ∧
  matchIndex er.2 = matchIndex r.
Proof.
  intros [Hnode _] Hr Ha. destruct (Hnode i r Hr) as [[Hwf Hp Hm] Hid].
  destruct (ApplicableEntries_returns r Hwf) as (x & Hx & Hwf').
  rewrite Ha in Hx. injection Hx as <-.
  rewrite ApplicableEntries_eq in Ha by apply Hwf. injection Ha as <-. revert Hwf'.
  case_decide; intros Hwf'; split_and!; try done; (split; [by split|done|]);
    intros m Hin; by apply not_elem_of_nil in Hin.
Qed.
End events.
