(* ===== verification/Sample.v ===== *)
(** * A concrete cluster

    Three nodes and a generator, for evaluating the model and for the
    witnesses of the theorems about runs. *)

From S2P Require Import Prelude Pb Raft RaftWf Cluster ClusterTrans.

#[export] Program Instance sample_rand : GoRand :=
  {| intn_value seed k n := ((seed + Z.of_nat k * 13 + 5) mod n)%Z |}.
Next Obligation. intros seed k n Hn. by apply Z.mod_pos_bound. Qed.

Definition trio : gset string := {["a"; "b"; "c"]}.

Definition trio_conf (i : string) : Config :=
  mkConfig i (filter (fun p => p ≠ i) ["a"; "b"; "c"]) 5 2 0
    (if decide (i = "a") then 0 else 7) 0 "" [].

Lemma trio_fresh i : i ∈ trio → fresh_config trio i (trio_conf i).
Proof.
  intros Hi. split; try done.
  - apply NoDup_filter, (bool_decide_unpack _). by vm_compute.
  - intros p. unfold trio_conf, trio. simpl. rewrite list_elem_of_filter. set_solver.
Qed.

Lemma trio_membership : membership_ok trio trio_conf.
Proof.
  split; [|exact trio_fresh]. apply (bool_decide_unpack _). by vm_compute.
Qed.

Definition trio0 : Cluster := boot trio trio_conf.

Lemma trio0_initial : initial trio trio_conf trio0.
Proof.
  apply boot_initial. intros i Hi. apply (fresh_config_wf trio i). by apply trio_fresh.
Qed.

(** Deliver the [k]-th message sent so far. *)
Definition deliver (k : nat) (c : Cluster) : Event :=
  match net c !! k with Some m => EvDeliver m | None => EvTick "" end.

Definition ticks (i : string) (n : nat) : list (Cluster → Event) :=
  replicate n (fun _ => EvTick i).

(** Node "a" wins term 1 with the vote of "b"; its first heartbeats are sent. *)
Definition elect_a : list (Cluster → Event) := ticks "a" 10 ++ [deliver 0; deliver 2].

(** It accepts a proposal; "b" acknowledges both entries, which commits them;
    the next heartbeat tells "b" and "c"; every node applies what it has. *)
Definition commit_x : list (Cluster → Event) :=
  [(fun _ => EvPropose "a" [x01]); deliver 3; deliver 5; deliver 7; deliver 8].

Definition spread : list (Cluster → Event) :=
  ticks "a" 2 ++ [deliver 9; deliver 10; deliver 12; (fun _ => EvApply "a"); (fun _ => EvApply "b"); (fun _ => EvApply "c")].

Definition after (c : Cluster) (es : list (Cluster → Event)) : Cluster :=
  default c (play c es).

Definition the (o : option Raft) : Raft := default (started (trio_conf "")) o.

Lemma after_steps c es : is_Some (play c es) → rtc step c (after c es).
Proof. intros [c' Hc]. unfold after. rewrite Hc. by apply (play_steps c es). Qed.

(** The cluster with a leader, with a committed entry, and with the entry
    applied everywhere. *)
Definition trio1 : Cluster := after trio0 elect_a.
Definition trio2 : Cluster := after trio1 commit_x.
Definition trio3 : Cluster := after trio2 spread.

Lemma trio_steps : rtc step trio0 trio1 ∧ rtc step trio1 trio2 ∧ rtc step trio2 trio3.
Proof.
  split_and!; apply after_steps; apply (bool_decide_unpack (is_Some _)); by vm_compute.
Qed.

(** Node "a" applies the committed entry; "b" crashes, and "c" wins term 2
    with the vote of "b", whose log is gone. *)
Definition trio_applied : Cluster := after trio2 [(fun _ => EvApply "a")].
Definition trio_crashed : Cluster := default trio_applied (restart trio_conf trio_applied "b").
Definition elect_c : list (Cluster → Event) :=
  ticks "c" 12 ++ [deliver 12; deliver 13; deliver 15; deliver 16; (fun _ => EvApply "c")].
Definition trio_lost : Cluster := after trio_crashed elect_c.

(** In [trio2]: the leader, a follower with both entries, and a follower that
    has heard nothing; the messages of that run. *)
Definition leader_a : Raft := the (nodes trio2 !! "a").
Definition follower_b : Raft := the (nodes trio2 !! "b").
Definition follower_c : Raft := the (nodes trio2 !! "c").

Definition sent (k : nat) : Message :=
  default (newMessage MsgRequestVote "" "" 0) (net trio2 !! k).

(** Node "b" after a crash: its term and vote are back, its log is not. *)
Definition crashed_b_conf : Config :=
  mkConfig "b" ["a"; "c"] 5 2 0 7 1 "a" [].
Definition crashed_b : Raft := started crashed_b_conf.

Lemma crashed_b_conf_wf : config_wf crashed_b_conf.
Proof.
  split_and!; [done|done|done|]. split; [done| |done].
  intros [|i] e; [by intros [= <-]|done].
Qed.
