(* ===== verification/Election.v ===== *)
(** * Election safety

    At most one leader per term, over the whole history of a run, including
    crashes that keep only what [Node.persistState] saves.  The proof carries
    two history relations: the votes cast and the leaders elected. *)

From S2P Require Import Prelude Pb Raft RaftWf Cluster ClusterTrans Sample.

Record History := mkHistory {
  casts : string → N → string → Prop;   (* voter, term, candidate *)
  leads : N → string → Prop             (* term, leader *)
}.

(** What the state of node [i] adds to the history. *)
Definition observe (h : History) (r : Raft) : History := {|
  casts v T x := casts h v T x ∨
    (v = r_id r ∧ T = currentTerm r ∧ x = votedFor r ∧ votedFor r ≠ NoneID);
  leads T x := leads h T x ∨
    (state r = Leader ∧ T = currentTerm r ∧ x = r_id r)
|}.

Section election.
Context {GR : GoRand}.
Context (members : gset string) (conf : string → Config).
Context (Hmem : NoneID ∉ members).

(** ** The effect of a transition on votes and roles *)

Inductive vote_effect (ntw : list Message) (r r' : Raft) : Prop :=
| ve_stay :
    currentTerm r' = currentTerm r → votedFor r' = votedFor r → state r' = state r →
    (∀ v, state r ≠ Follower → map_read false (votes r') v = true →
      map_read false (votes r) v = true ∨
      ∃ m, m ∈ ntw ∧ is_grant m ∧ mFrom m = v ∧ mTo m = r_id r ∧
           mTerm m = currentTerm r) →
    vote_effect ntw r r'
| ve_down :
    votedFor r' = NoneID → state r' = Follower →
    (currentTerm r < currentTerm r')%N ∨
    (currentTerm r' = currentTerm r ∧ state r ≠ Follower ∧
     ∃ m, m ∈ ntw ∧ mType m = MsgAppendEntries ∧ mTo m = r_id r ∧
          mTerm m = currentTerm r) →
    vote_effect ntw r r'
| ve_grant m :
    m ∈ ntw → mTo m = r_id r →
    votedFor r = NoneID ∨ votedFor r = mFrom m →
    currentTerm r' = currentTerm r → votedFor r' = mFrom m → state r' = state r →
    vote_effect ntw r r'
| ve_campaign :
    currentTerm r' = (currentTerm r + 1)%N → votedFor r' = r_id r →
    state r' = Candidate → votes r' = Some {[ r_id r := true ]} →
    vote_effect ntw r r'
| ve_win :
    state r = Candidate → quorum r = true → currentTerm r' = currentTerm r →
    votedFor r' = votedFor r → votes r' = votes r → state r' = Leader →
    vote_effect ntw r r'.

Lemma trans_vote_effect ntw r r' ms : trans ntw r r' ms → vote_effect ntw r r'.
Proof.
  destruct 1 as [(?&?&?&Hv)| | |m| m kvs ? Hty Hpre | | |es ? (?&?&?&Hv)
    |m ??????? (?&?&?&Hv)|m ????? (?&?&?&Hv)|? (?&?&?&Hv)].
  1,8-11: by apply ve_stay; try done; rewrite Hv; auto.
  - apply ve_down; auto.
  - apply ve_down; eauto 10.
  - by apply (ve_grant _ _ _ m).
  - apply ve_stay; try done; [congruence|]. intros v _.
    match goal with H : votes r' = _, H' : votes r = _ |- _ => rewrite H, H' end.
    destruct (decide (v = mFrom m)) as [->|Hne]; [|rewrite map_read_write_ne by done; auto].
    rewrite map_read_write_eq. intros Hrej%negb_true_iff. right. by exists m.
  - by apply ve_campaign.
  - by apply ve_win.
Qed.

Ltac out_cases Ht Hin ms :=
  destruct Ht; try subst ms; try (by apply not_elem_of_nil in Hin);
  try (apply list_elem_of_singleton in Hin as ->);
  try match goal with H : Forall _ ms |- _ =>
        rewrite Forall_forall in H; specialize (H _ Hin) end.

Lemma trans_grants ntw r r' ms m :
  trans ntw r r' ms → m ∈ ms → is_grant m → votedFor r' = mTo m.
Proof.
  intros Ht Hin Hg. pose proof Hg as (Hty & _ & _).
  out_cases Ht Hin ms; try done.
  - match goal with H : quiet m |- _ => by destruct H as (_ & ? & _) end.
  - match goal with H : ∃ p, m = _ |- _ => by destruct H as (p & ->) end.
  - match goal with H : ∃ p, m = _ |- _ => by destruct H as (p & ->) end.
  - match goal with H : ∃ p, m = _ |- _ => by destruct H as (p & ->) end.
Qed.

Lemma trans_appends ntw r r' ms m :
  trans ntw r r' ms → m ∈ ms → mType m = MsgAppendEntries →
  state r' = Leader ∧ ∃ p, m = heartbeat_to r' p.
Proof.
  intros Ht Hin Hty. out_cases Ht Hin ms; try done.
  - match goal with H : quiet m |- _ => destruct H as ([?|?] & _); congruence end.
  - match goal with H : ∃ p, m = _ |- _ => by destruct H as (p & ->) end.
  - match goal with H : same_vote _ _ |- _ =>
      destruct H as (_ & _ & -> & _); done end.
Qed.

(** ** The invariant *)

Record elect_inv (h : History) (c : Cluster) : Prop := {
  ei_dom i : is_Some (nodes c !! i) ↔ i ∈ members;
  ei_node i r : nodes c !! i = Some r → node_ok members r ∧ r_id r = i;
  ei_net m : m ∈ net c → valid_msg members m;
  (* votes *)
  ei_cast_dom v T x : casts h v T x → v ∈ members ∧ x ≠ NoneID;
  ei_cast_term v T x r :
    casts h v T x → nodes c !! v = Some r → (T ≤ currentTerm r)%N;
  ei_voted i r :
    nodes c !! i = Some r → votedFor r ≠ NoneID →
    casts h i (currentTerm r) (votedFor r);
  (* the vote of a candidate that stepped down in its own term is forgotten *)
  ei_cast_now v r x :
    nodes c !! v = Some r → casts h v (currentTerm r) x →
    votedFor r = x ∨ (x = v ∧ state r = Follower);
  ei_two v T x y : casts h v T x → casts h v T y → x = y ∨ x = v ∨ y = v;
  ei_lost v T x :
    casts h v T v → casts h v T x → x ≠ v →
    ¬ leads h T v ∧
    ∀ r, nodes c !! v = Some r → currentTerm r = T → state r = Follower;
  (* roles *)
  ei_self i r : nodes c !! i = Some r → state r ≠ Follower → votedFor r = i;
  ei_leads_self i r :
    nodes c !! i = Some r → leads h (currentTerm r) i → votedFor r = i;
  ei_leads_term T i r :
    leads h T i → nodes c !! i = Some r → (T ≤ currentTerm r)%N;
  ei_leader i r :
    nodes c !! i = Some r → state r = Leader → leads h (currentTerm r) i;
  ei_votes i r v :
    nodes c !! i = Some r → state r ≠ Follower →
    map_read false (votes r) v = true → casts h v (currentTerm r) i;
  ei_won T i : leads h T i → ∃ Q, majority members Q ∧ ∀ v, v ∈ Q → casts h v T i;
  ei_uniq T i j : leads h T i → leads h T j → i = j;
  (* messages *)
  ei_grant m : m ∈ net c → is_grant m → casts h (mFrom m) (mTerm m) (mTo m);
  ei_append m : m ∈ net c → mType m = MsgAppendEntries → leads h (mTerm m) (mFrom m)
}.

(** Fields whose statement is about the history and the network only are
    preserved as the history grows. *)

Section step.
Context (h : History) (c : Cluster) (i : string) (r r' : Raft) (ms : list Message).
Context (Inv : elect_inv h c) (Hr : nodes c !! i = Some r).
Context (Hid : r_id r' = i) (Hok : node_ok members r').
Context (Hout : ∀ m, m ∈ ms → mFrom m = i ∧ mTo m ∈ members ∧ mTo m ≠ i ∧
                  msg_wf m ∧ mTerm m = currentTerm r').
Context (Hgrants : ∀ m, m ∈ ms → is_grant m → votedFor r' = mTo m).
Context (Happends : ∀ m, m ∈ ms → mType m = MsgAppendEntries → state r' = Leader).
Let h' := observe h r'.
Let c' := put c i r' ms.

Lemma self_member : i ∈ members.
Proof using Inv Hr. apply (ei_dom _ _ Inv). by exists r. Qed.

Lemma self_not_none : i ≠ NoneID.
Proof using Inv Hr Hmem. intros He. apply Hmem. rewrite <- He. apply self_member. Qed.

Lemma put_lookup j s :
  nodes c' !! j = Some s → (j = i ∧ s = r') ∨ (j ≠ i ∧ nodes c !! j = Some s).
Proof. simpl. intros [[<- <-]|[? ?]]%lookup_insert_Some; auto. Qed.

(** The cases that need thought are the ones about node [i] itself. *)
Lemma elect_inv_step :
  (∀ x, casts h' i (currentTerm r') x → votedFor r' = x ∨ (x = i ∧ state r' = Follower)) →
  (currentTerm r ≤ currentTerm r')%N →
  (∀ T x y, casts h' i T x → casts h' i T y → x = y ∨ x = i ∨ y = i) →
  (∀ T x, casts h' i T i → casts h' i T x → x ≠ i →
    ¬ leads h' T i ∧ (currentTerm r' = T → state r' = Follower)) →
  (state r' ≠ Follower → votedFor r' = i) →
  (leads h' (currentTerm r') i → votedFor r' = i) →
  (∀ v, state r' ≠ Follower → map_read false (votes r') v = true →
    casts h' v (currentTerm r') i) →
  (state r' = Leader → ∃ Q, majority members Q ∧
    ∀ v, v ∈ Q → casts h' v (currentTerm r') i) →
  (∀ j, state r' = Leader → leads h (currentTerm r') j → i = j) →
  elect_inv h' c'.
Proof using Inv Hr Hid Hok Hout Hgrants Happends Hmem.
  intros Hnow Hterm Htwo Hlost Hself Hlself Hvotes Hwon Huniq.
  assert (∀ v T x, casts h' v T x → v ≠ i → casts h v T x) as Hother.
  { intros v T x [?|(? & _)] ?; [done|congruence]. }
  assert (∀ T x, leads h' T x → x ≠ i → leads h T x) as Hlother.
  { intros T x [?|(_ & _ & ?)] ?; [done|congruence]. }
  split.
  - intros j. simpl. rewrite lookup_insert_is_Some, <- (ei_dom _ _ Inv).
    destruct (decide (j = i)) as [Hji|Hji].
    + rewrite Hji. split; [intros _; by exists r|auto].
    + split; [intros [?|[_ ?]]; [congruence|done]|auto].
  - intros j s [[-> ->]|[_ Hs]]%put_lookup; [done|by apply (ei_node _ _ Inv)].
  - intros m [Hm|Hm]%elem_of_app; [by apply (ei_net _ _ Inv)|].
    destruct (Hout m Hm) as (Hf & ? & ? & ? & _). unfold valid_msg. rewrite Hf.
    split_and!; try done. by apply self_member.
  - intros v T x [Hc|(-> & _ & -> & ?)]; [by eapply (ei_cast_dom _ _ Inv)|].
    rewrite Hid. split; [apply self_member|done].
  - intros v T x s Hc [[-> ->]|[Hne Hs]]%put_lookup.
    + destruct Hc as [Hc|(_ & -> & _)]; [|done].
      pose proof (ei_cast_term _ _ Inv _ _ _ _ Hc Hr). lia.
    + eapply (ei_cast_term _ _ Inv); [by apply Hother|done].
  - intros j s [[-> ->]|[Hne Hs]]%put_lookup Hv.
    + right. split_and!; done.
    + left. by apply (ei_voted _ _ Inv).
  - intros v s x [[-> ->]|[Hne Hs]]%put_lookup Hc; [by apply Hnow|].
    by apply (ei_cast_now _ _ Inv), Hother.
  - intros v T x y Hx Hy. destruct (decide (v = i)) as [->|Hne]; [by eapply Htwo|].
    eapply (ei_two _ _ Inv); by apply Hother.
  - intros v T x Hv Hx Hxv. destruct (decide (v = i)) as [->|Hne].
    + destruct (Hlost T x Hv Hx Hxv) as [? Hst]. split; [done|].
      intros s [[_ ->]|[? _]]%put_lookup; [done|done].
    + destruct (ei_lost _ _ Inv v T x) as [Hl Hst]; [by apply Hother|by apply Hother|done|].
      split; [by intros ?%Hlother|].
      intros s [[-> _]|[_ Hs]]%put_lookup; [done|by apply Hst].
  - intros j s [[-> ->]|[_ Hs]]%put_lookup; [done|by apply (ei_self _ _ Inv)].
  - intros j s [[-> ->]|[Hne Hs]]%put_lookup Hl; [by apply Hlself|].
    by apply (ei_leads_self _ _ Inv), Hlother.
  - intros T j s Hl [[-> ->]|[Hne Hs]]%put_lookup.
    + destruct Hl as [Hl|(_ & -> & _)]; [|done].
      pose proof (ei_leads_term _ _ Inv _ _ _ Hl Hr). lia.
    + eapply (ei_leads_term _ _ Inv); [by apply Hlother|done].
  - intros j s [[-> ->]|[_ Hs]]%put_lookup Hst; [by right|].
    left. by apply (ei_leader _ _ Inv).
  - intros j s v [[-> ->]|[_ Hs]]%put_lookup Hst Hv; [by apply Hvotes|].
    left. by apply (ei_votes _ _ Inv _ s).
  - intros T j [Hl|(Hst & -> & ->)].
    + destruct (ei_won _ _ Inv T j Hl) as (Q & HQ & Hv).
      exists Q. split; [done|]. intros v ?. left. by apply Hv.
    + rewrite Hid. by apply Hwon.
  - intros T j k [Hj|(Hj & -> & ->)] [Hk|(Hk & HT & ->)]; try done.
    + by apply (ei_uniq _ _ Inv T).
    + subst T. rewrite Hid. symmetry. by apply Huniq.
    + rewrite Hid. by apply Huniq.
  - intros m [Hm|Hm]%elem_of_app Hg; [left; by apply (ei_grant _ _ Inv)|].
    destruct (Hout m Hm) as (-> & Hto & _ & _ & ->). right. rewrite Hid.
    rewrite (Hgrants m Hm Hg). split_and!; try done.
    intros He. rewrite He in Hto. done.
  - intros m [Hm|Hm]%elem_of_app Hty; [left; by apply (ei_append _ _ Inv)|].
    destruct (Hout m Hm) as (-> & _ & _ & _ & ->). right. rewrite Hid.
    split_and!; try done. by eapply Happends.
Qed.
End step.

(** ** Every transition preserves the invariant *)

Section preserve.
Context (h : History) (c : Cluster) (i : string) (r r' : Raft) (ms : list Message).
Context (Inv : elect_inv h c) (Hr : nodes c !! i = Some r).

Lemma node_id : r_id r = i.
Proof using Inv Hr. by eapply (ei_node _ _ Inv). Qed.

Lemma old_cast T x : casts h i T x → (T ≤ currentTerm r)%N.
Proof using Inv Hr. intros Hc. by eapply (ei_cast_term _ _ Inv). Qed.

Lemma old_lead T : leads h T i → (T ≤ currentTerm r)%N.
Proof using Inv Hr. intros Hl. by eapply (ei_leads_term _ _ Inv). Qed.

(** A vote for another node in the current term is the recorded one. *)
Lemma cast_is_vote x :
  casts h i (currentTerm r) x → x ≠ i → votedFor r = x.
Proof using Inv Hr.
  intros Hc Hne. by destruct (ei_cast_now _ _ Inv _ _ _ Hr Hc) as [?|[? _]].
Qed.

Lemma running_no_lost x :
  state r ≠ Follower → casts h i (currentTerm r) x → x = i.
Proof using Inv Hr.
  intros Hst Hc. pose proof (ei_self _ _ Inv _ _ Hr Hst).
  destruct (ei_cast_now _ _ Inv _ _ _ Hr Hc) as [?|[? _]]; congruence.
Qed.

(** The votes a candidate holds name a majority ... *)
Lemma win_majority :
  state r = Candidate → quorum r = true →
  ∃ Q, majority members Q ∧ ∀ v, v ∈ Q → casts h v (currentTerm r) i.
Proof using Inv Hr.
  intros Hst Hq. destruct (ei_node _ _ Inv _ _ Hr) as [Hok Hid].
  assert (∀ v, v ∈ granted (votes r) → casts h v (currentTerm r) i) as Hv.
  { intros v Hv%elem_of_granted.
    eapply (ei_votes _ _ Inv); [exact Hr|congruence|done]. }
  exists (granted (votes r)). split; [split|done].
  - intros v Hv1%Hv. by eapply (ei_cast_dom _ _ Inv).
  - apply bool_decide_eq_true in Hq. rewrite count_true_granted in Hq.
    by apply (quorumSize_majority _ r); [apply Hok|].
Qed.

(** ... so nobody else can have won the term. *)
Lemma win_unique j :
  state r = Candidate → quorum r = true → leads h (currentTerm r) j → i = j.
Proof using Inv Hr.
  intros Hst Hq Hj.
  destruct (ei_won _ _ Inv _ _ Hj) as (Q & HQ & Hv).
  destruct (win_majority Hst Hq) as (Q' & HQ' & Hi).
  destruct (decide (i = j)) as [|Hne]; [done|exfalso].
  destruct (majority_intersect members Q Q') as (v & Hv1 & Hv2); [done..|].
  specialize (Hi v Hv2). specialize (Hv v Hv1).
  destruct (ei_two _ _ Inv _ _ _ _ Hi Hv) as [?|[He|He]]; [done| |].
  - destruct (ei_lost _ _ Inv v (currentTerm r) j) as [_ Hf];
      [congruence|congruence|congruence|].
    specialize (Hf r). rewrite <- He in Hf. specialize (Hf Hr eq_refl). congruence.
  - destruct (ei_lost _ _ Inv v (currentTerm r) i) as [Hf _];
      [congruence..|]. apply Hf. congruence.
Qed.

Context (ntw : list Message) (Hntw : ∀ m, m ∈ ntw → m ∈ net c).
Context (Hcalm : calm members r r' ms).
Context (Hgr : ∀ m, m ∈ ms → is_grant m → votedFor r' = mTo m).
Context (Hap : ∀ m, m ∈ ms → mType m = MsgAppendEntries → state r' = Leader).
Let h' := observe h r'.

Lemma new_id : r_id r' = i.
Proof using Inv Hr Hcalm. rewrite (calm_id _ _ _ _ Hcalm). by apply node_id. Qed.

(** What is left of [elect_inv_step] for a transition. *)
Lemma elect_inv_put :
  (∀ x, casts h' i (currentTerm r') x → votedFor r' = x ∨ (x = i ∧ state r' = Follower)) →
  (currentTerm r ≤ currentTerm r')%N →
  (∀ T x y, casts h' i T x → casts h' i T y → x = y ∨ x = i ∨ y = i) →
  (∀ T x, casts h' i T i → casts h' i T x → x ≠ i →
    ¬ leads h' T i ∧ (currentTerm r' = T → state r' = Follower)) →
  (state r' ≠ Follower → votedFor r' = i) →
  (leads h' (currentTerm r') i → votedFor r' = i) →
  (∀ v, state r' ≠ Follower → map_read false (votes r') v = true →
    casts h' v (currentTerm r') i) →
  (state r' = Leader → ∃ Q, majority members Q ∧
    ∀ v, v ∈ Q → casts h' v (currentTerm r') i) →
  (∀ j, state r' = Leader → leads h (currentTerm r') j → i = j) →
  elect_inv h' (put c i r' ms).
Proof using Inv Hr Hcalm Hgr Hap Hmem.
  pose proof node_id as Hid. intros.
  apply (elect_inv_step h c i r r' ms); try done.
  - by apply new_id.
  - by apply (calm_ok _ _ _ _ Hcalm).
  - rewrite <- Hid. apply (calm_out _ _ _ _ Hcalm).
Qed.

(** When node [i] gains no vote and no office, the history says no more
    about it than before. *)
Lemma same_casts :
  votedFor r' = NoneID ∨
    (currentTerm r' = currentTerm r ∧ votedFor r' = votedFor r) →
  ∀ v T x, casts h' v T x → casts h v T x.
Proof using Inv Hr Hcalm.
  intros Hv v T x [?|(-> & -> & -> & Hne)]; [done|]. rewrite new_id.
  destruct Hv as [?|[-> He]]; [done|]. rewrite He in Hne |- *. by apply (ei_voted _ _ Inv).
Qed.

Lemma same_leads :
  state r' ≠ Leader ∨ (currentTerm r' = currentTerm r ∧ state r' = state r) →
  ∀ T x, leads h' T x → leads h T x.
Proof using Inv Hr Hcalm.
  intros Hl T x [?|(Hst & -> & ->)]; [done|]. rewrite new_id.
  destruct Hl as [?|[-> He]]; [done|]. apply (ei_leader _ _ Inv); congruence.
Qed.

Lemma case_stay :
  currentTerm r' = currentTerm r → votedFor r' = votedFor r → state r' = state r →
  (∀ v, state r ≠ Follower → map_read false (votes r') v = true →
    map_read false (votes r) v = true ∨
    ∃ m, m ∈ ntw ∧ is_grant m ∧ mFrom m = v ∧ mTo m = r_id r ∧
         mTerm m = currentTerm r) →
  elect_inv h' (put c i r' ms).
Proof using Inv Hr Hntw Hcalm Hgr Hap Hmem.
  intros HT Hv Hst Hvotes.
  pose proof (same_casts (or_intror (conj HT Hv))) as Hc.
  pose proof (same_leads (or_intror (conj HT Hst))) as Hl.
  apply elect_inv_put; rewrite ?HT, ?Hv, ?Hst; try done.
  - intros x Hx%Hc. by apply (ei_cast_now _ _ Inv).
  - intros T x y Hx%Hc Hy%Hc. by apply (ei_two _ _ Inv i T).
  - intros T x Hi%Hc Hx%Hc Hne.
    destruct (ei_lost _ _ Inv _ _ _ Hi Hx Hne) as [Hnl Hf].
    split; [by intros ?%Hl|]. by apply Hf.
  - by apply (ei_self _ _ Inv).
  - intros Hx%Hl. by apply (ei_leads_self _ _ Inv).
  - intros v Hf Hg. left. destruct (Hvotes v Hf Hg) as [Hg'|(m & Hm & Hgrm & <- & Hto & <-)].
    + by apply (ei_votes _ _ Inv _ r).
    + rewrite <- node_id, <- Hto. apply (ei_grant _ _ Inv); auto.
  - intros Hld%(ei_leader _ _ Inv _ _ Hr).
    destruct (ei_won _ _ Inv _ _ Hld) as (Q & HQ & HQv).
    exists Q. split; [done|]. intros v Hin. left. by apply HQv.
  - intros j Hld%(ei_leader _ _ Inv _ _ Hr) Hj. by apply (ei_uniq _ _ Inv (currentTerm r)).
Qed.

Lemma case_down :
  votedFor r' = NoneID → state r' = Follower →
  (currentTerm r < currentTerm r')%N ∨
  (currentTerm r' = currentTerm r ∧ state r ≠ Follower ∧
   ∃ m, m ∈ ntw ∧ mType m = MsgAppendEntries ∧ mTo m = r_id r ∧
        mTerm m = currentTerm r) →
  elect_inv h' (put c i r' ms).
Proof using Inv Hr Hntw Hcalm Hgr Hap Hmem.
  intros Hv Hst HT. pose proof (same_casts (or_introl Hv)) as Hc.
  assert (∀ T x, leads h' T x → leads h T x) as Hl
    by (apply same_leads; left; congruence).
  assert (currentTerm r ≤ currentTerm r')%N by (destruct HT as [?|[? _]]; lia).
  apply elect_inv_put; try (intros; congruence); try done.
  - intros x Hx%Hc. right. split; [|done].
    destruct HT as [HT|(HT & Hf & _)]; [pose proof (old_cast _ _ Hx); lia|].
    rewrite HT in Hx. by apply running_no_lost.
  - intros T x y Hx%Hc Hy%Hc. by apply (ei_two _ _ Inv i T).
  - intros T x Hi%Hc Hx%Hc Hne.
    destruct (ei_lost _ _ Inv _ _ _ Hi Hx Hne) as [Hnl Hf].
    split; [by intros ?%Hl|done].
  - intros Hx%Hl. exfalso. destruct HT as [HT|(HT & _ & m & Hm%Hntw & Hty & Hto & Hmt)].
    + pose proof (old_lead _ Hx). lia.
    + destruct (ei_net _ _ Inv m Hm) as (_ & _ & Hne & _). apply Hne.
      rewrite Hto, node_id. apply (ei_uniq _ _ Inv (currentTerm r)); [|congruence].
      rewrite <- Hmt. by apply (ei_append _ _ Inv).
Qed.

Lemma case_grant m :
  m ∈ ntw → mTo m = r_id r → votedFor r = NoneID ∨ votedFor r = mFrom m →
  currentTerm r' = currentTerm r → votedFor r' = mFrom m → state r' = state r →
  elect_inv h' (put c i r' ms).
Proof using Inv Hr Hntw Hcalm Hgr Hap Hmem.
  intros Hm%Hntw Hto Hvr HT Hv Hst. rewrite node_id in Hto.
  destruct (ei_net _ _ Inv m Hm) as (Hf & Him & Hne & _). rewrite Hto in Him, Hne.
  set (x := mFrom m) in *.
  assert (x ≠ NoneID) as Hx0 by congruence. assert (i ≠ NoneID) as Hi0 by congruence.
  assert (votedFor r ≠ i) as Hvi by (destruct Hvr; congruence).
  assert (state r = Follower) as Hfol.
  { destruct (decide (state r = Follower)) as [|Hn]; [done|].
    by destruct Hvi; apply (ei_self _ _ Inv). }
  assert (∀ T y, casts h' i T y → casts h i T y ∨ (T = currentTerm r ∧ y = x)) as Hc.
  { intros T y [?|(_ & -> & -> & _)]; [by left|by right]. }
  assert (∀ T y, leads h' T y → leads h T y) as Hl
    by (apply same_leads; left; congruence).
  assert (∀ y, casts h i (currentTerm r) y → y = x ∨ y = i) as Hold.
  { intros y Hy. destruct (decide (y = i)) as [|Hyi]; [by right|left].
    pose proof (cast_is_vote _ Hy Hyi) as Hvy.
    destruct (ei_cast_dom _ _ Inv _ _ _ Hy) as [_ Hy0].
    destruct Hvr; congruence. }
  apply elect_inv_put; try (intros; congruence); rewrite ?HT; try done.
  - intros y [Hy|[_ ->]]%Hc; [|by left].
    destruct (Hold y Hy) as [->|?]; [by left|right]. split; congruence.
  - intros T y z [Hy|[-> ->]]%Hc [Hz|[HTz ->]]%Hc; try by left.
    + by apply (ei_two _ _ Inv i T).
    + rewrite HTz in Hy. destruct (Hold y Hy); auto.
    + destruct (Hold z Hz); auto.
  - intros T y [Hi|[_ ?]]%Hc Hy%Hc Hyi; [|done]. split; [|congruence].
    intros Hli%Hl. destruct Hy as [Hy|[-> ->]].
    + by destruct (ei_lost _ _ Inv _ _ _ Hi Hy Hyi) as [? _].
    + by apply Hvi, (ei_leads_self _ _ Inv).
  - intros Hli%Hl. by destruct Hvi; apply (ei_leads_self _ _ Inv).
Qed.

Lemma case_campaign :
  currentTerm r' = (currentTerm r + 1)%N → votedFor r' = r_id r →
  state r' = Candidate → votes r' = Some {[ r_id r := true ]} →
  elect_inv h' (put c i r' ms).
Proof using Inv Hr Hcalm Hgr Hap Hmem.
  rewrite node_id. intros HT Hv Hst Hvotes.
  assert (i ≠ NoneID) as Hi0 by by apply (self_not_none h c i r).
  assert (∀ T y, casts h' i T y → casts h i T y ∧ (T ≤ currentTerm r)%N ∨
            (T = currentTerm r + 1)%N ∧ y = i) as Hc.
  { intros T y [Hy|(_ & -> & -> & _)]; [left; split; [done|by eapply old_cast]|by right]. }
  assert (∀ T y, leads h' T y → leads h T y) as Hl
    by (apply same_leads; left; congruence).
  apply elect_inv_put; try (intros; congruence); rewrite ?HT; try lia.
  - intros y [[_ ?]|[_ ->]]%Hc; [lia|by left].
  - intros T y z [[Hy ?]|[? ->]]%Hc [[Hz ?]|[? ->]]%Hc; auto.
    by apply (ei_two _ _ Inv i T).
  - intros T y [[Hi ?]|[? _]]%Hc [[Hy ?]|[? ?]]%Hc Hyi; try lia; try done.
    split; [|lia]. intros Hli%Hl. by destruct (ei_lost _ _ Inv _ _ _ Hi Hy Hyi) as [? _].
  - intros v _. rewrite Hvotes. intros Hg.
    assert (v = i) as ->.
    { destruct (decide (v = i)) as [|Hn]; [done|].
      unfold map_read in Hg. simpl in Hg. by rewrite lookup_singleton_ne in Hg. }
    right. rewrite new_id. split_and!; congruence.
Qed.

Lemma case_win :
  state r = Candidate → quorum r = true → currentTerm r' = currentTerm r →
  votedFor r' = votedFor r → votes r' = votes r → state r' = Leader →
  elect_inv h' (put c i r' ms).
Proof using Inv Hr Hcalm Hgr Hap Hmem.
  intros Hst Hq HT Hv Hvotes Hld.
  pose proof (same_casts (or_intror (conj HT Hv))) as Hc.
  assert (state r ≠ Follower) as Hnf by congruence.
  pose proof (ei_self _ _ Inv _ _ Hr Hnf) as Hself.
  assert (∀ T y, leads h' T y → leads h T y ∨ T = currentTerm r) as Hl.
  { intros T y [?|(_ & -> & _)]; [by left|by right]. }
  apply elect_inv_put; try (intros; congruence); rewrite ?HT; try done.
  - intros y Hy%Hc. left. rewrite Hv, Hself. symmetry. by apply running_no_lost.
  - intros T y z Hy%Hc Hz%Hc. by apply (ei_two _ _ Inv i T).
  - intros T y Hi%Hc Hy%Hc Hyi.
    destruct (ei_lost _ _ Inv _ _ _ Hi Hy Hyi) as [Hnl Hf].
    assert (currentTerm r ≠ T) by (intros He; specialize (Hf r Hr He); congruence).
    split; [intros [?|?]%Hl; congruence|congruence].
  - intros v _. rewrite Hvotes. intros Hg. left. by apply (ei_votes _ _ Inv _ r).
  - intros _. destruct (win_majority Hst Hq) as (Q & HQ & HQv).
    exists Q. split; [done|]. intros v Hin. left. by apply HQv.
  - intros j _ Hj. by apply win_unique.
Qed.

(** A node that comes back as a follower, with its term and vote. *)
Lemma case_restart :
  currentTerm r' = currentTerm r → votedFor r' = votedFor r → state r' = Follower →
  elect_inv h' (put c i r' ms).
Proof using Inv Hr Hcalm Hgr Hap Hmem.
  intros HT Hv Hst.
  pose proof (same_casts (or_intror (conj HT Hv))) as Hc.
  assert (∀ T y, leads h' T y → leads h T y) as Hl
    by (apply same_leads; left; congruence).
  apply elect_inv_put; try (intros; congruence); rewrite ?HT, ?Hv; try done.
  - intros x Hx%Hc. destruct (ei_cast_now _ _ Inv _ _ _ Hr Hx) as [?|[? _]]; auto.
  - intros T x y Hx%Hc Hy%Hc. by apply (ei_two _ _ Inv i T).
  - intros T x Hi%Hc Hx%Hc Hne.
    destruct (ei_lost _ _ Inv _ _ _ Hi Hx Hne) as [Hnl Hf].
    split; [by intros ?%Hl|done].
  - intros Hx%Hl. by apply (ei_leads_self _ _ Inv).
Qed.
End preserve.

Lemma elect_inv_trans h c i r r' ms ntw :
  elect_inv h c → nodes c !! i = Some r → (∀ m, m ∈ ntw → m ∈ net c) →
  trans ntw r r' ms → calm members r r' ms →
  elect_inv (observe h r') (put c i r' ms).
Proof using Hmem.
  intros Inv Hr Hntw Ht Hcalm.
  assert (∀ m, m ∈ ms → is_grant m → votedFor r' = mTo m)
    by (intros m; by eapply trans_grants).
  assert (∀ m, m ∈ ms → mType m = MsgAppendEntries → state r' = Leader)
    by (intros m Hm Hty; by eapply trans_appends).
  destruct (trans_vote_effect _ _ _ _ Ht).
  - by eapply case_stay.
  - by eapply case_down.
  - by eapply case_grant.
  - by eapply case_campaign.
  - by eapply case_win.
Qed.

(** ** Whole runs *)

Definition hist_le (h h' : History) : Prop :=
  (∀ v T x, casts h v T x → casts h' v T x) ∧ (∀ T x, leads h T x → leads h' T x).

Lemma hist_le_observe h h' r : hist_le h h' → hist_le h (observe h' r).
Proof. intros [Hc Hl]. split; intros; left; auto. Qed.

(** The invariant does not look at what was applied. *)
Lemma elect_inv_applied h c i r a :
  elect_inv h (put c i r []) → elect_inv h (mkCluster (<[i := r]> (nodes c)) (net c) a).
Proof. intros []. simpl in *. rewrite app_nil_r in *. by split. Qed.

Lemma elect_inv_ok h c : elect_inv h c → cluster_ok members c.
Proof. intros Inv. split; [apply (ei_node _ _ Inv)|apply (ei_net _ _ Inv)]. Qed.

Lemma elect_inv_exec h c e c' :
  elect_inv h c → headroom c → exec c e = Some c' →
  ∃ h', hist_le h h' ∧ elect_inv h' c'.
Proof using Hmem.
  intros Inv Hroom Hex.
  destruct (exec_cases members c e c') as [(i & r & r' & ms & Hr & Ht & ->)|
    (i & r & er & Hr & Ha & ->)]; [by eapply elect_inv_ok|done..| |].
  - refine (transs_put members (fun c => ∃ h', hist_le h h' ∧ elect_inv h' c)
      (net c) i r r' ms _ Ht c _ Hr (fun m H => H)); [|by exists h].
    intros c1 s s' ms1 (h1 & Hle & Inv1) Hs Hin Hts Htame.
    exists (observe h1 s'). split; [by apply hist_le_observe|].
    eapply elect_inv_trans; try done. apply tame_calm; [|done].
    by eapply (ei_node _ _ Inv1).
  - destruct (apply_cases members c i r er) as (Hcalm & Hv & Hl & Hm);
      [by eapply elect_inv_ok|done..|].
    exists (observe h er.2). split; [by apply hist_le_observe|].
    apply elect_inv_applied. eapply (elect_inv_trans _ _ _ r _ _ []); try done.
    + by intros m ?%not_elem_of_nil.
    + by apply tr_keep.
Qed.

Lemma elect_inv_restart h c i c' :
  (∀ i, i ∈ members → fresh_config members i (conf i)) →
  elect_inv h c → restart conf c i = Some c' →
  ∃ h', hist_le h h' ∧ elect_inv h' c'.
Proof using Hmem.
  intros Hcf Inv Hre.
  destruct (restart_cases members conf c i c') as
    (r & r' & Hr & Hcalm & HT & Hv & Hst & ->); try done.
  { intros j. apply (ei_dom _ _ Inv). }
  { by eapply elect_inv_ok. }
  exists (observe h r'). split; [by apply hist_le_observe|].
  apply elect_inv_applied.
  by apply (case_restart h c i r r' []); try done; intros m ?%not_elem_of_nil.
Qed.

Definition no_history : History := {| casts v T x := False; leads T x := False |}.

Lemma elect_inv_initial c :
  (∀ i, i ∈ members → fresh_config members i (conf i)) →
  initial members conf c → elect_inv no_history c.
Proof using Hmem.
  intros Hcf (Hn & Hnet & _).
  assert (∀ i r, nodes c !! i = Some r →
    i ∈ members ∧ r = started (conf i) ∧ config_wf (conf i)) as Hnode.
  { intros i r Hr. rewrite Hn in Hr. case_decide as Hi; [|done].
    pose proof (fresh_config_wf members i _ (Hcf i Hi)) as Hwf.
    rewrite NewRaft_eq in Hr by done. by simplify_eq. }
  split; simpl; rewrite ?Hnet; try done;
    try (intros ? Hin; by apply not_elem_of_nil in Hin).
  - intros i. split.
    + intros [r Hr]. by apply (Hnode i r).
    + intros Hi. rewrite Hn, decide_True by done.
      rewrite NewRaft_eq by (by apply (fresh_config_wf members i), Hcf). by eexists.
  - intros i r Hr. destruct (Hnode i r Hr) as (Hi & -> & Hwf).
    pose proof (fc_id _ _ _ (Hcf i Hi)). split; [|done].
    by apply (started_ok members conf i); auto.
  - intros i r Hr Hv. destruct (Hnode i r Hr) as (Hi & -> & Hwf).
    simpl in Hv. by rewrite (fc_vote _ _ _ (Hcf i Hi)) in Hv.
  - intros i r Hr Hst. by destruct (Hnode i r Hr) as (Hi & -> & Hwf).
  - intros i r Hr Hst. by destruct (Hnode i r Hr) as (Hi & -> & Hwf).
  - intros i r v Hr Hst. by destruct (Hnode i r Hr) as (Hi & -> & Hwf).
Qed.

Lemma elect_inv_steps h c c' :
  (∀ i, i ∈ members → fresh_config members i (conf i)) →
  rtc (step_or_restart conf) c c' → elect_inv h c →
  ∃ h', hist_le h h' ∧ elect_inv h' c'.
Proof using Hmem.
  intros Hcf Hsteps. revert h. induction Hsteps as [c|c c1 c2 Hs _ IH]; intros h Inv.
  - by exists h.
  - assert (∃ h1, hist_le h h1 ∧ elect_inv h1 c1) as (h1 & [Hc Hl] & Inv1).
    { destruct Hs as [[Hroom [e He]]|[_ [i Hi]]];
        [by eapply elect_inv_exec|by eapply elect_inv_restart]. }
    destruct (IH h1 Inv1) as (h2 & [Hc2 Hl2] & Inv2).
    exists h2. split; [split; auto|done].
Qed.

Lemma reachable_elect_inv c :
  (∀ i, i ∈ members → fresh_config members i (conf i)) →
  reachable_with_restarts members conf c → ∃ h, elect_inv h c.
Proof using Hmem.
  intros Hcf (c0 & Hi & Hs). pose proof (elect_inv_initial c0 Hcf Hi) as Inv.
  destruct (elect_inv_steps _ _ _ Hcf Hs Inv) as (h & _ & Inv'). by exists h.
Qed.
End election.

(** ** Theorems *)

(** C1: election safety. Along any run of a cluster of fixed membership, over a
    network that loses, duplicates, delays and reorders messages, and with
    nodes that crash and come back with their persisted term and vote, two
    leaders of the same term, at whatever two moments they are observed, are
    the same node. *)
Theorem one_leader_per_term `{GoRand} members conf c0 c1 c2 i j r s :
  membership_ok members conf → initial members conf c0 →
  rtc (step_or_restart conf) c0 c1 → rtc (step_or_restart conf) c1 c2 →
  nodes c1 !! i = Some r → nodes c2 !! j = Some s →
  state r = Leader → state s = Leader → currentTerm r = currentTerm s → i = j.
Proof.
  intros [Hmem Hcf] Hini H01 H12 Hr Hs Hlr Hls HT.
  pose proof (elect_inv_initial members conf Hmem c0 Hcf Hini) as Inv0.
  destruct (elect_inv_steps members conf Hmem _ _ _ Hcf H01 Inv0) as (h1 & _ & Inv1).
  destruct (elect_inv_steps members conf Hmem _ _ _ Hcf H12 Inv1) as (h2 & [_ Hl] & Inv2).
  apply (ei_uniq _ _ _ Inv2 (currentTerm r)).
  - by apply Hl, (ei_leader _ _ _ Inv1).
  - rewrite HT. by apply (ei_leader _ _ _ Inv2).
Qed.

Lemma one_leader_per_term_witness :
  nodes trio1 !! "a" = Some (the (nodes trio1 !! "a")) ∧
  nodes trio2 !! "a" = Some (the (nodes trio2 !! "a")) ∧
  state (the (nodes trio1 !! "a")) = Leader ∧ "a" = "a".
Proof.
  split_and!; [by vm_compute..|].
  destruct trio_steps as (H01 & H12 & _).
  apply (one_leader_per_term trio trio_conf trio0 trio1 trio2 "a" "a"
    (the (nodes trio1 !! "a")) (the (nodes trio2 !! "a"))).
  - exact trio_membership.
  - exact trio0_initial.
  - by apply steps_restarts.
  - by apply steps_restarts.
  - by vm_compute.
  - by vm_compute.
  - by vm_compute.
  - by vm_compute.
  - by vm_compute.
Defined.

(** In a run with crashes, all AppendEntries messages ever sent in one
    term have the same sender. *)
Theorem one_append_source_per_term `{GoRand} members conf c m1 m2 :
  membership_ok members conf → reachable_with_restarts members conf c →
  m1 ∈ net c → m2 ∈ net c →
  mType m1 = MsgAppendEntries → mType m2 = MsgAppendEntries →
  mTerm m1 = mTerm m2 → mFrom m1 = mFrom m2.
Proof.
  intros [Hmem Hcf] Hre H1 H2 Ht1 Ht2 HT.
  destruct (reachable_elect_inv members conf Hmem c Hcf Hre) as [h Inv].
  apply (ei_uniq _ _ _ Inv (mTerm m1)); [|rewrite HT]; by apply (ei_append _ _ _ Inv).
Qed.

Lemma one_append_source_per_term_witness :
  let sent := filter (fun m => mType m = MsgAppendEntries) (net trio2) in
  mFrom <$> last sent = Some "a" ∧ mFrom <$> head sent = mFrom <$> last sent.
Proof.
  cbv zeta. split; [by vm_compute|].
  set (sent := filter _ (net trio2)).
  assert (∃ m1 m2, head sent = Some m1 ∧ last sent = Some m2 ∧ mTerm m1 = mTerm m2)
    as (m1 & m2 & H1 & H2 & HT) by (do 2 eexists; split_and!; by vm_compute).
  rewrite H1, H2. simpl. f_equal.
  assert (m1 ∈ sent) as [Ht1 Hm1]%list_elem_of_filter
    by (apply head_Some_elem_of; exact H1).
  assert (m2 ∈ sent) as [Ht2 Hm2]%list_elem_of_filter
    by (apply last_Some_elem_of; exact H2).
  apply (one_append_source_per_term trio trio_conf trio2 m1 m2);
    [exact trio_membership| |done..].
  exists trio0. split; [exact trio0_initial|]. destruct trio_steps as (H01 & H12 & _).
  apply steps_restarts. by transitivity trio1.
Defined.

(** C2: a node never grants its vote to two candidates in the same term, even
    when it stepped down from its own candidacy in that term, or crashed in
    between. *)
Theorem one_vote_per_term `{GoRand} members conf c m1 m2 :
  membership_ok members conf → reachable_with_restarts members conf c →
  m1 ∈ net c → m2 ∈ net c → is_grant m1 → is_grant m2 →
  mFrom m1 = mFrom m2 → mTerm m1 = mTerm m2 → mTo m1 = mTo m2.
Proof.
  intros [Hmem Hcf] Hre H1 H2 Hg1 Hg2 HF HT.
  destruct (reachable_elect_inv members conf Hmem c Hcf Hre) as [h Inv].
  pose proof (ei_grant _ _ _ Inv m1 H1 Hg1) as Hc1.
  pose proof (ei_grant _ _ _ Inv m2 H2 Hg2) as Hc2. rewrite <- HF, <- HT in Hc2.
  destruct (ei_net _ _ _ Inv _ H1) as (_ & _ & Hn1 & _).
  destruct (ei_net _ _ _ Inv _ H2) as (_ & _ & Hn2 & _).
  destruct (ei_two _ _ _ Inv _ _ _ _ Hc1 Hc2) as [?|[?|?]]; congruence.
Qed.

Lemma one_vote_per_term_witness :
  ∃ m1 m2, net trio1 !! 2 = Some m1 ∧ net trio2 !! 2 = Some m2 ∧ mTo m1 = mTo m2.
Proof.
  assert (∃ m, net trio2 !! 2 = Some m ∧ is_grant m) as (m & Hm & Hg)
    by (eexists; split; by vm_compute).
  exists m, m. split_and!; [|done|].
  - rewrite <- Hm. by vm_compute.
  - apply (one_vote_per_term trio trio_conf trio2 m m);
      [exact trio_membership| |by eapply list_elem_of_lookup_2..|done|done|done|done].
    exists trio0. split; [exact trio0_initial|]. destruct trio_steps as (H01 & H12 & _).
    apply steps_restarts. by transitivity trio1.
Defined.

(** ** The nodes and messages of the sample run *)

Lemma trio_reached c : rtc step trio0 c → ∃ h, elect_inv trio h c.
Proof.
  intros Hs. destruct trio_membership as [Hmem Hcf].
  apply (reachable_elect_inv trio trio_conf Hmem c Hcf).
  exists trio0. split; [exact trio0_initial|by apply steps_restarts].
Qed.

Lemma trio2_steps : rtc step trio0 trio2.
Proof. destruct trio_steps as (H01 & H12 & _). by transitivity trio1. Qed.

Lemma trio2_node i : is_Some (nodes trio2 !! i) → node_ok trio (the (nodes trio2 !! i)).
Proof.
  intros [r Hr]. rewrite Hr. destruct (trio_reached _ trio2_steps) as [h Inv].
  by eapply (ei_node _ _ _ Inv).
Qed.

Lemma trio2_msg k : is_Some (net trio2 !! k) → valid_msg trio (sent k).
Proof.
  intros [m Hm]. unfold sent. rewrite Hm. destruct (trio_reached _ trio2_steps) as [h Inv].
  apply (ei_net _ _ _ Inv). by eapply list_elem_of_lookup_2.
Qed.

Lemma leader_a_wf : raft_wf leader_a.
Proof. apply (no_wf trio), trio2_node, (bool_decide_unpack (is_Some _)). by vm_compute. Qed.

Lemma follower_b_wf : raft_wf follower_b.
Proof. apply (no_wf trio), trio2_node, (bool_decide_unpack (is_Some _)). by vm_compute. Qed.

Lemma follower_c_wf : raft_wf follower_c.
Proof. apply (no_wf trio), trio2_node, (bool_decide_unpack (is_Some _)). by vm_compute. Qed.

Lemma sent_wf k : is_Some (net trio2 !! k) → msg_wf (sent k).
Proof. intros Hk. by apply trio2_msg. Qed.
