(* ===== verification/Logs.v ===== *)
(** * Logs and the logs of the leaders

    Pure facts about logs that the safety proof of replication needs: a table
    records, for each term that had a leader, that leader and the last log it
    had in the term.  A log is well sourced when each of its prefixes that
    ends in an entry of term [t] is a prefix of the log of the leader of [t]. *)

From S2P Require Import Prelude Pb Raft RaftWf.

Abbreviation leaders := (gmap N (string * list LogEntry)).

(** The entry at position [k] has term [T]. *)
Definition has (T : N) (k : nat) (l : list LogEntry) : Prop :=
  ∃ e, l !! k = Some e ∧ eTerm e = T.

Definition sourced (ll : leaders) (l : list LogEntry) : Prop :=
  ∀ k e, 0 < k → l !! k = Some e →
    (1 ≤ eTerm e)%N ∧
    ∃ x L, ll !! eTerm e = Some (x, L) ∧ take (S k) l = take (S k) L.

(** Terms never decrease along a log. *)
Definition mono (l : list LogEntry) : Prop :=
  ∀ i j e f, i ≤ j → l !! i = Some e → l !! j = Some f → (eTerm e ≤ eTerm f)%N.

Record leader_log_ok (ll : leaders) (T : N) (L : list LogEntry) : Prop := {
  llo_term : (1 ≤ T)%N;
  llo_wf : log_wf L;
  llo_sourced : sourced ll L;
  llo_mono : mono L;
  llo_last : last_term L = T
}.

Definition leaders_ok (ll : leaders) : Prop :=
  ∀ T x L, ll !! T = Some (x, L) → leader_log_ok ll T L.

(** The table only grows: terms are added, and the log of a leader is extended
    with entries of its term. *)
Definition leaders_le (ll ll' : leaders) : Prop :=
  ∀ T x L, ll !! T = Some (x, L) →
    ∃ es, ll' !! T = Some (x, L ++ es) ∧ Forall (fun e => eTerm e = T) es.

Lemma has_lt T k l : has T k l → k < length l.
Proof. intros (e & He & _). by apply lookup_lt_Some in He. Qed.

Lemma has_app_l T k l es : has T k l → has T k (l ++ es).
Proof. intros (e & He & Ht). exists e. by rewrite (lookup_app_l_Some _ _ _ _ He). Qed.

Lemma has_app_old T k l es : has T k (l ++ es) → k < length l → has T k l.
Proof. intros (e & He & Ht) Hk. exists e. by rewrite lookup_app_l in He. Qed.

Lemma has_app_other T T' k l es :
  T ≠ T' → Forall (fun e => eTerm e = T') es → has T k (l ++ es) → has T k l.
Proof.
  intros Hne Hes (e & He & Ht). apply lookup_app_Some in He as [He|[_ He]]; [by exists e|].
  rewrite Forall_lookup in Hes. specialize (Hes _ _ He). congruence.
Qed.

Lemma has_take T k n l : has T k l → k < n → has T k (take n l).
Proof. intros (e & He & Ht) Hk. exists e. by rewrite lookup_take_lt. Qed.

Lemma has_take_inv T k n l : has T k (take n l) → has T k l.
Proof. intros (e & He & Ht). exists e. by apply lookup_take_Some in He as [He _]. Qed.

Lemma has_prefix T k l l' : has T k l → l `prefix_of` l' → has T k l'.
Proof. intros Hh [es ->]. by apply has_app_l. Qed.

Lemma has_agree T k n l l' : take n l = take n l' → k < n → has T k l → has T k l'.
Proof.
  intros Ht Hk Hh. apply (has_take_inv _ _ n). rewrite <- Ht. by apply has_take.
Qed.

Lemma has_log_term l k T :
  (k < N.of_nat (length l))%N → log_term l k = T → has T (N.to_nat k) l.
Proof.
  intros Hk Ht. destruct (lookup_lt_is_Some_2 l (N.to_nat k)) as [e He]; [lia|].
  exists e. split; [done|]. by rewrite <- (log_term_lookup_N _ _ _ He).
Qed.

Lemma has_pos T k l : log_wf l → (1 ≤ T)%N → has T k l → 0 < k.
Proof.
  intros Hwf HT (e & He & Ht). destruct k; [|lia].
  rewrite (log_wf_sentinel _ Hwf) in He. injection He as <-. simpl in Ht. lia.
Qed.

Lemma last_has l : log_wf l → has (last_term l) (pred (length l)) l.
Proof.
  intros Hwf. destruct (log_wf_last _ Hwf) as (e & He & _).
  exists e. rewrite <- last_lookup. unfold last_term. by rewrite He.
Qed.

Lemma last_term_snoc l e : last_term (l ++ [e]) = eTerm e.
Proof. unfold last_term. by rewrite last_snoc. Qed.

Lemma last_term_app l es t :
  last_term l = t → Forall (fun e => eTerm e = t) es → last_term (l ++ es) = t.
Proof.
  intros Hl Hes. destruct es as [|e es _] using rev_ind; [by rewrite app_nil_r|].
  rewrite app_assoc, last_term_snoc. apply Forall_app in Hes as [_ Hes].
  rewrite Forall_singleton in Hes. exact Hes.
Qed.

Lemma prefix_take_eq {A} (l l' : list A) : l `prefix_of` l' → l = take (length l) l'.
Proof. intros [es ->]. by rewrite take_app_length. Qed.

Lemma take_prefix {A} n (l : list A) : take n l `prefix_of` l.
Proof. exists (drop n l). by rewrite take_drop. Qed.

Lemma take_agree_le {A} m n (l l' : list A) :
  take n l = take n l' → m ≤ n → take m l = take m l'.
Proof.
  intros H Hm. replace m with (m `min` n) by lia. by rewrite <- !take_take, H.
Qed.

Lemma take_prefix_same {A} n (l l' : list A) :
  l `prefix_of` l' → n ≤ length l → take n l' = take n l.
Proof. intros [es ->] Hn. by rewrite take_app_le. Qed.

(** ** Well-sourced logs *)

Lemma sourced_take ll n l : sourced ll l → sourced ll (take n l).
Proof.
  intros Hs k e Hk He. apply lookup_take_Some in He as [He Hkn].
  destruct (Hs k e Hk He) as (? & x & L & HL & Ht). split; [done|].
  exists x, L. split; [done|]. rewrite take_take, <- Ht. f_equal. lia.
Qed.

Lemma sourced_prefix ll l l' : sourced ll l' → l `prefix_of` l' → sourced ll l.
Proof. intros Hs Hp. rewrite (prefix_take_eq _ _ Hp). by apply sourced_take. Qed.

Lemma leaders_le_refl ll : leaders_le ll ll.
Proof. intros T x L HL. exists []. by rewrite app_nil_r. Qed.

Lemma sourced_le ll ll' l : leaders_le ll ll' → sourced ll l → sourced ll' l.
Proof.
  intros Hle Hs k e Hk He. destruct (Hs k e Hk He) as (? & x & L & HL & Ht).
  split; [done|]. destruct (Hle _ _ _ HL) as (es & HL' & _).
  exists x, (L ++ es). split; [done|]. rewrite Ht. symmetry. apply take_app_le.
  apply lookup_lt_Some in He.
  assert (length (take (S k) l) = S k) as Hlen by (rewrite length_take; lia).
  rewrite Ht, length_take in Hlen. lia.
Qed.

Lemma sourced_agree ll l1 l2 T k :
  log_wf l1 → log_wf l2 → sourced ll l1 → sourced ll l2 →
  has T k l1 → has T k l2 → take (S k) l1 = take (S k) l2.
Proof.
  intros Hw1 Hw2 Hs1 Hs2 (e1 & He1 & Ht1) (e2 & He2 & Ht2). destruct k as [|k].
  - pose proof (log_wf_sentinel _ Hw1). pose proof (log_wf_sentinel _ Hw2).
    destruct l1, l2; simpl in *; try done. rewrite !take_0. congruence.
  - destruct (Hs1 _ _ (Nat.lt_0_succ k) He1) as (_ & x1 & L1 & HL1 & ->).
    destruct (Hs2 _ _ (Nat.lt_0_succ k) He2) as (_ & x2 & L2 & HL2 & ->).
    congruence.
Qed.

Lemma sourced_has ll l T k :
  log_wf l → sourced ll l → (1 ≤ T)%N → has T k l →
  ∃ x L, ll !! T = Some (x, L) ∧ take (S k) l = take (S k) L ∧ has T k L.
Proof.
  intros Hwf Hs HT Hh. pose proof (has_pos _ _ _ Hwf HT Hh) as Hk.
  destruct Hh as (e & He & <-). destruct (Hs k e Hk He) as (_ & x & L & HL & Ht).
  exists x, L. split_and!; [done|done|].
  eapply has_agree; [done|lia|]. by exists e.
Qed.

Lemma sourced_mono ll l : leaders_ok ll → log_wf l → sourced ll l → mono l.
Proof.
  intros Hok Hwf Hs i j e f Hij He Hf. destruct j as [|j].
  { assert (i = 0) as -> by lia. simplify_eq. lia. }
  destruct (Hs (S j) f) as (_ & x & L & HL & Ht); [lia|done|].
  apply (llo_mono _ _ _ (Hok _ _ _ HL) i (S j)); [done| |].
  - rewrite <- (lookup_take_lt L (S (S j))), <- Ht by lia. by rewrite lookup_take_lt by lia.
  - rewrite <- (lookup_take_lt L (S (S j))), <- Ht by lia. by rewrite lookup_take_lt by lia.
Qed.

(** A well-sourced log is a prefix of the log of the leader of its last term. *)
Lemma sourced_last ll l :
  log_wf l → sourced ll l → (1 ≤ last_term l)%N →
  ∃ x L, ll !! last_term l = Some (x, L) ∧ l `prefix_of` L.
Proof.
  intros Hwf Hs HT.
  destruct (sourced_has ll l _ _ Hwf Hs HT (last_has l Hwf)) as (x & L & HL & Ht & _).
  exists x, L. split; [done|]. pose proof (log_wf_nonempty _ Hwf).
  rewrite take_ge in Ht by lia. rewrite Ht. apply take_prefix.
Qed.

Lemma mono_has_lt T T' j k l :
  mono l → has T k l → has T' j l → (T < T')%N → k < j.
Proof.
  intros Hm (e & He & <-) (f & Hf & <-) Hlt.
  destruct (decide (j ≤ k)) as [Hle|]; [|lia].
  pose proof (Hm _ _ _ _ Hle Hf He). lia.
Qed.

Lemma mono_last T k l : mono l → log_wf l → has T k l → (T ≤ last_term l)%N.
Proof.
  intros Hm Hwf Hh. pose proof (has_lt _ _ _ Hh) as Hk.
  destruct Hh as (e & He & <-). destruct (last_has l Hwf) as (f & Hf & <-).
  apply (Hm k (pred (length l))); [lia|done|done].
Qed.

(** The prefix of a log that ends in a later term keeps the entry. *)
Lemma has_prefix_back T k l l' :
  mono l' → log_wf l → l `prefix_of` l' → has T k l' → (T < last_term l)%N → has T k l.
Proof.
  intros Hm Hwf Hp Hh Hlt. pose proof (has_prefix _ _ _ _ (last_has l Hwf) Hp) as Hl.
  pose proof (mono_has_lt _ _ _ _ _ Hm Hh Hl Hlt).
  destruct Hp as [es ->]. apply (has_app_old _ _ _ es); [done|lia].
Qed.

(** ** Merging the entries of a leader *)

(** Two well-sourced logs that agree on the term at the position before the
    entries: the merge keeps the log when it already extends the leader's, and
    gives the leader's log otherwise. *)
Lemma merge_sourced ll l Lm prev :
  log_wf l → log_wf Lm → sourced ll l → sourced ll Lm →
  prev < length l → prev < length Lm →
  prev = 0 ∨ log_term l (N.of_nat prev) = log_term Lm (N.of_nat prev) →
  let l' := merge_log l (S prev) (drop (S prev) Lm) in
  (l' = l ∧ Lm `prefix_of` l) ∨ (l' = Lm ∧ ¬ Lm `prefix_of` l).
Proof.
  intros Hw Hwm Hs Hsm Hp Hpm Hprev. cbv zeta.
  assert (∀ j T, has T j l → has T j Lm → take (S j) l = take (S j) Lm) as Hagree
    by (intros; by eapply sourced_agree).
  assert (take (S prev) l = take (S prev) Lm) as Hbase.
  { destruct (lookup_lt_is_Some_2 _ _ Hp) as [e He].
    destruct (lookup_lt_is_Some_2 _ _ Hpm) as [f Hf].
    apply (Hagree _ (eTerm e)); [by exists e|]. exists f. split; [done|].
    destruct Hprev as [->|Hprev].
    - rewrite (log_wf_sentinel _ Hw) in He. rewrite (log_wf_sentinel _ Hwm) in Hf. congruence.
    - by rewrite (log_term_lookup _ _ _ He), (log_term_lookup _ _ _ Hf) in Hprev. }
  destruct (merge_log_shape l (S prev) (drop (S prev) Lm)) as (k & Hk & Hpk & Hm & Hres); [lia|].
  rewrite length_drop in Hk.
  assert (take (S prev + k) l = take (S prev + k) Lm) as Htk.
  { destruct k as [|k]; [by rewrite Nat.add_0_r|].
    destruct (lookup_lt_is_Some_2 l (S prev + k)) as [e He]; [lia|].
    destruct (lookup_lt_is_Some_2 Lm (S prev + k)) as [f Hf]; [lia|].
    rewrite Nat.add_succ_r. apply (Hagree _ (eTerm e)); [by exists e|].
    exists f. split; [done|]. symmetry. apply (Hm k); [lia|done|]. by rewrite lookup_drop. }
  destruct Hres as [[-> ->]|(Hlt & -> & Hmis)].
  - left. split; [done|]. rewrite length_drop in Htk.
    replace (S prev + (length Lm - S prev)) with (length Lm) in Htk by lia.
    rewrite (take_ge Lm) in Htk by lia. rewrite <- Htk. apply take_prefix.
  - rewrite length_drop in Hlt. right. rewrite drop_drop, Htk, take_drop. split; [done|].
    intros Hpre. destruct (lookup_lt_is_Some_2 Lm (S prev + k)) as [f Hf]; [lia|].
    pose proof (prefix_lookup_Some _ _ _ _ Hf Hpre) as He.
    apply (Hmis f f He); [|done]. by rewrite lookup_drop.
Qed.
