(* ===== verification/LogInv.v ===== *)
(** * The invariant of replication

    What a run of the cluster (without crashes) keeps true of the logs, the
    acknowledgements and the commit indices, on top of the election invariant.
    The table of leader logs of [Logs] is the history the invariant refers
    to. *)

From S2P Require Import Prelude Pb Raft RaftWf Cluster ClusterTrans Election Logs.

(** What the state of a node adds to the table of leader logs. *)
Definition record_leader (ll : leaders) (r : Raft) : leaders :=
  if decide (state r = Leader) then <[currentTerm r := (r_id r, log r)]> ll else ll.

Section invariant.
Context {GR : GoRand}.
Context (members : gset string).

Section history.
Context (ll : leaders) (ntw : list Message).

(** Node [v] holds the entry of term [T] at position [k], and said so in
    term [T]: it was the leader, or it acknowledged that position. *)
Definition acked (v : string) (T : N) (k : nat) : Prop :=
  ∃ x L, ll !! T = Some (x, L) ∧ has T k L ∧
    (v = x ∨ ∃ m, m ∈ ntw ∧ is_ack m ∧ mFrom m = v ∧ mTerm m = T ∧
                  k ≤ N.to_nat (mIndex m)).

(** A leader of a later term below [B] lacks the entry. *)
Definition lacks (T : N) (k : nat) (B : N) : Prop :=
  ∃ T' x L, (T < T' < B)%N ∧ ll !! T' = Some (x, L) ∧ ¬ has T k L.

(** What voter [v] acknowledged before term [T'] is in [l]. *)
Definition supports (v : string) (T' : N) (l : list LogEntry) : Prop :=
  ∀ T k, acked v T k → (T < T')%N → has T k l ∨ lacks T k T'.

Definition committed (T : N) (k : nat) : Prop :=
  ∃ Q, majority members Q ∧ ∀ v, v ∈ Q → acked v T k.

(** The entries of [l] up to position [c] are committed, by terms up to [B]. *)
Definition safe (B : N) (l : list LogEntry) (c : nat) : Prop :=
  c = 0 ∨ ∃ T k x L, (T ≤ B)%N ∧ ll !! T = Some (x, L) ∧ has T k L ∧ c ≤ k ∧
            committed T k ∧ take (S c) l = take (S c) L.

(** An AppendEntries request carries the rest of a log its sender had as
    the leader of the term, or cannot match any log. *)
Definition append_ok (m : Message) : Prop :=
  ∃ L Lm, ll !! mTerm m = Some (mFrom m, L) ∧ Lm `prefix_of` L ∧ log_wf Lm ∧
    last_term Lm = mTerm m ∧
    (((0 < mPrevLogIndex m)%N ∧ mPrevLogTerm m = 0%N) ∨
     ((mPrevLogIndex m < N.of_nat (length Lm))%N ∧
      mPrevLogTerm m = log_term Lm (mPrevLogIndex m) ∧
      mEntries m = drop (S (N.to_nat (mPrevLogIndex m))) Lm ∧
      safe (mTerm m) Lm (N.to_nat (mLeaderCommit m)))).
End history.

Record log_inv (ll : leaders) (h : History) (c : Cluster) : Prop := {
  lg_elect : elect_inv members h c;
  lg_ok : leaders_ok ll;
  lg_leads T x L : ll !! T = Some (x, L) → leads h T x;
  lg_won T x L : ll !! T = Some (x, L) →
    ∃ Q, majority members Q ∧
      ∀ v, v ∈ Q → casts h v T x ∧ supports ll (net c) v T L;
  lg_lead i r : nodes c !! i = Some r → state r = Leader →
    ll !! currentTerm r = Some (i, log r);
  lg_only i r L : nodes c !! i = Some r → ll !! currentTerm r = Some (i, L) →
    state r = Leader;
  lg_pos i r : nodes c !! i = Some r → state r ≠ Follower → (1 ≤ currentTerm r)%N;
  lg_log i r : nodes c !! i = Some r → sourced ll (log r);
  lg_le i r k e : nodes c !! i = Some r → log r !! k = Some e →
    (eTerm e ≤ currentTerm r)%N;
  lg_append m : m ∈ net c → mType m = MsgAppendEntries → append_ok ll (net c) m;
  lg_request m r : m ∈ net c → mType m = MsgRequestVote →
    nodes c !! mFrom m = Some r → state r = Candidate → currentTerm r = mTerm m →
    mLastLogIndex m = N.of_nat (pred (length (log r))) ∧
    mLastLogTerm m = last_term (log r);
  lg_term m r : m ∈ net c → nodes c !! mFrom m = Some r → (mTerm m ≤ currentTerm r)%N;
  lg_cast v T x r : casts h v T x → nodes c !! x = Some r → (T ≤ currentTerm r)%N;
  lg_ack m : m ∈ net c → is_ack m →
    ∃ x L, ll !! mTerm m = Some (x, L) ∧ N.to_nat (mIndex m) < length L;
  lg_promise v T k r : acked ll (net c) v T k → nodes c !! v = Some r →
    (T ≤ currentTerm r)%N ∧
    (has T k (log r) ∨ lacks ll T k (currentTerm r + 1));
  lg_cand v x r : nodes c !! x = Some r → state r = Candidate →
    ll !! currentTerm r = None → casts h v (currentTerm r) x →
    supports ll (net c) v (currentTerm r) (log r);
  lg_match i r p : nodes c !! i = Some r → state r = Leader → p ≠ i →
    (0 < map_read 0 (matchIndex r) p)%N →
    ∃ m, m ∈ net c ∧ is_ack m ∧ mFrom m = p ∧ mTerm m = currentTerm r ∧
         (map_read 0 (matchIndex r) p ≤ mIndex m)%N;
  lg_commit i r : nodes c !! i = Some r →
    safe ll (net c) (currentTerm r) (log r) (N.to_nat (commitIndex r))
}.

(** ** Monotonicity in the history *)

Section grow.
Context (ll ll' : leaders) (ntw ntw' : list Message).
Context (Hll : leaders_le ll ll') (Hnet : ∀ m, m ∈ ntw → m ∈ ntw').

Lemma acked_grow v T k : acked ll ntw v T k → acked ll' ntw' v T k.
Proof using Hll Hnet.
  intros (x & L & HL & Hh & Hv). destruct (Hll _ _ _ HL) as (es & HL' & _).
  exists x, (L ++ es). split_and!; [done|by apply has_app_l|].
  destruct Hv as [?|(m & ? & ?)]; [by left|right]. exists m. auto.
Qed.

Lemma lacks_grow T k B B' : (B ≤ B')%N → lacks ll T k B → lacks ll' T k B'.
Proof using Hll.
  intros HB (T' & x & L & HT & HL & Hn). destruct (Hll _ _ _ HL) as (es & HL' & Hes).
  exists T', x, (L ++ es). split_and!; [lia|lia|done|].
  intros Hh. apply Hn. eapply has_app_other; [|done|done]. lia.
Qed.

Lemma committed_grow T k : committed ll ntw T k → committed ll' ntw' T k.
Proof using Hll Hnet.
  intros (Q & HQ & Hv). exists Q. split; [done|]. intros v Hin. by apply acked_grow, Hv.
Qed.

Lemma safe_grow B B' l c : (B ≤ B')%N → safe ll ntw B l c → safe ll' ntw' B' l c.
Proof using Hll Hnet.
  intros HB [->|(T & k & x & L & HT & HL & Hh & Hc & Hcm & Ht)]; [by left|right].
  destruct (Hll _ _ _ HL) as (es & HL' & _). pose proof (has_lt _ _ _ Hh).
  exists T, k, x, (L ++ es). split_and!;
    [lia|done|by apply has_app_l|done|by apply committed_grow|].
  by rewrite Ht, take_app_le by lia.
Qed.

Lemma append_ok_grow m : append_ok ll ntw m → append_ok ll' ntw' m.
Proof using Hll Hnet.
  intros (L & Lm & HL & Hp & Hwf & Hlast & Hm).
  destruct (Hll _ _ _ HL) as (es & HL' & _).
  exists (L ++ es), Lm. split_and!; [done| |done|done|].
  - destruct Hp as [k ->]. rewrite <- app_assoc. by eexists.
  - destruct Hm as [?|(? & ? & ? & Hs)]; [by left|right].
    split_and!; [done..|]. by eapply safe_grow.
Qed.
End grow.

Lemma safe_prefix ll ntw B l l' c :
  take (S c) l' = take (S c) l → safe ll ntw B l c → safe ll ntw B l' c.
Proof.
  intros Ht [->|(T & k & x & L & ? & ? & ? & ? & ? & Hl)]; [by left|right].
  exists T, k, x, L. split_and!; try done. congruence.
Qed.

Lemma safe_lt ll ntw B l c : log_wf l → safe ll ntw B l c → c < length l.
Proof.
  intros Hwf [->|(T & k & x & L & _ & HL & Hh & Hc & _ & Ht)];
    [by apply log_wf_nonempty|].
  pose proof (has_lt _ _ _ Hh). assert (length (take (S c) l) = S c) as Hlen
    by (rewrite Ht, length_take; lia).
  rewrite length_take in Hlen. lia.
Qed.

Lemma safe_app ll ntw B l es c :
  log_wf l → safe ll ntw B l c → safe ll ntw B (l ++ es) c.
Proof.
  intros Hwf Hs. apply (safe_prefix _ _ _ l); [|done].
  pose proof (safe_lt _ _ _ _ _ Hwf Hs). apply take_app_le. lia.
Qed.

Lemma has_dec T k l : has T k l ∨ ¬ has T k l.
Proof.
  destruct (l !! k) as [e|] eqn:He; [|right; intros (f & Hf & _); congruence].
  destruct (decide (eTerm e = T)); [left; by exists e|right].
  intros (f & Hf & Ht). congruence.
Qed.

(** ** Leader completeness *)

(** A committed entry is in the log of every leader of a later term. *)
Lemma leader_completeness ll h c :
  log_inv ll h c →
  ∀ T k T' x L x' L',
    ll !! T = Some (x, L) → has T k L → committed ll (net c) T k →
    (T < T')%N → ll !! T' = Some (x', L') → has T k L'.
Proof.
  intros Inv T k T' x L x' L' HL Hh (Q & HQ & HQv). revert x' L'.
  induction T' as [T' IH] using (well_founded_induction N.lt_wf_0).
  intros x' L' Hlt HL'.
  destruct (lg_won _ _ _ Inv _ _ _ HL') as (Q' & HQ' & HQv').
  destruct (majority_intersect members Q Q' HQ HQ') as (v & Hv & Hv').
  destruct (HQv' v Hv') as [_ Hs].
  destruct (Hs T k (HQv v Hv) Hlt) as [?|(T2 & x2 & L2 & [? ?] & HL2 & Hn)]; [done|].
  destruct Hn. by apply (IH T2 ltac:(done) x2 L2).
Qed.

(** Committed prefixes agree. *)
Lemma safe_agree ll h c B1 B2 l1 l2 c1 c2 :
  log_inv ll h c → log_wf l1 → log_wf l2 →
  safe ll (net c) B1 l1 c1 → safe ll (net c) B2 l2 c2 → c1 ≤ c2 →
  take (S c1) l1 = take (S c1) l2.
Proof.
  intros Inv Hw1 Hw2 Hs1 Hs2 Hle. destruct (decide (c1 = 0)) as [->|Hne].
  { pose proof (log_wf_sentinel _ Hw1). pose proof (log_wf_sentinel _ Hw2).
    destruct l1, l2; simpl in *; try done. rewrite !take_0. congruence. }
  destruct Hs1 as [?|(T1 & k1 & x1 & L1 & _ & HL1 & Hh1 & Hc1 & Hcm1 & Ht1)]; [done|].
  destruct Hs2 as [?|(T2 & k2 & x2 & L2 & _ & HL2 & Hh2 & Hc2 & Hcm2 & Ht2)]; [lia|].
  rewrite Ht1, (take_agree_le (S c1) (S c2) l2 L2 Ht2) by lia.
  destruct (lg_ok _ _ _ Inv _ _ _ HL1) as [Hp1 Hwf1 Hsr1 _ _].
  destruct (lg_ok _ _ _ Inv _ _ _ HL2) as [Hp2 Hwf2 Hsr2 _ _].
  destruct (N.lt_trichotomy T1 T2) as [Hlt|[->|Hlt]].
  - pose proof (leader_completeness _ _ _ Inv _ _ _ _ _ _ _ HL1 Hh1 Hcm1 Hlt HL2) as Hh.
    apply (take_agree_le _ (S k1)); [|lia]. by eapply sourced_agree.
  - congruence.
  - pose proof (leader_completeness _ _ _ Inv _ _ _ _ _ _ _ HL2 Hh2 Hcm2 Hlt HL1) as Hh.
    apply (take_agree_le _ (S k2)); [|lia]. by eapply sourced_agree.
Qed.
End invariant.
