(* ===== verification/LogStep.v ===== *)
(** * Preservation of the replication invariant

    Every elementary transition of a node keeps [log_inv]. *)

From S2P Require Import Prelude Pb Raft RaftWf Cluster ClusterTrans Election Logs LogInv.

(** Go by cases on a transition, with its equations in the context. *)
Ltac trans_cases Ht :=
  destruct Ht; unfold same_vote, same_log in *; destruct_and?.

(** Node [r] accepts the entries of message [m]. *)
Record takes (ntw : list Message) (r r' : Raft) (m : Message) : Prop := {
  tk_in : m ∈ ntw;
  tk_type : mType m = MsgAppendEntries;
  tk_to : mTo m = r_id r;
  tk_term : mTerm m = currentTerm r;
  tk_keeps : currentTerm r' = currentTerm r;
  tk_room : appendable r m;
  tk_match : mPrevLogIndex m = 0%N ∨ log_term (log r) (mPrevLogIndex m) = mPrevLogTerm m;
  tk_log : log r' = merged r m;
  tk_commit : commitIndex r' = follower_commit r m
}.

Section trans_facts.
Context {GR : GoRand}.
Context (ntw : list Message) (r r' : Raft) (ms : list Message).
Context (Ht : trans ntw r r' ms).

Lemma trans_term : (currentTerm r ≤ currentTerm r')%N.
Proof using Ht.
  trans_cases Ht; lia.
Qed.

(** A node that is leader after the transition was leader before, and only
    appended entries of its term, or has just won. *)
Lemma trans_leader :
  state r' = Leader →
  currentTerm r' = currentTerm r ∧
  ((state r = Leader ∧ ∃ es, log r' = log r ++ es ∧
      Forall (fun e => eTerm e = currentTerm r) es) ∨
   (state r = Candidate ∧ quorum r = true ∧ log r' = log r ++ [noop_of r] ∧
      ∀ p, map_read 0%N (matchIndex r') p = 0%N)).
Proof using Ht.
  intros Hl.
  assert (log r' = log r → ∃ es, log r' = log r ++ es ∧
      Forall (fun e => eTerm e = currentTerm r) es) as Hsame.
  { intros ->. exists []. rewrite app_nil_r. auto. }
  trans_cases Ht; try congruence; (split; [congruence|]);
    try (left; split; [congruence|by auto]).
  - by right.
  - left. split; [done|by exists es].
Qed.

(** The log after the transition. *)
Lemma trans_log :
  (log r' = log r) ∨
  (state r' = Leader ∧ ∃ es, log r' = log r ++ es ∧
     Forall (fun e => eTerm e = currentTerm r) es) ∨
  (∃ m, takes ntw r r' m).
Proof using Ht.
  trans_cases Ht; auto.
  - right; left. split; [done|]. exists [noop_of r]. split; [done|]. by constructor.
  - right; left. split; [congruence|]. by exists es.
  - right; right. by exists m.
Qed.

Lemma trans_commit :
  commitIndex r' = commitIndex r ∨ (∃ m, takes ntw r r' m) ∨
  (state r' = Leader ∧ state r = Leader ∧ currentTerm r' = currentTerm r ∧
   log r' = log r ∧ matchIndex r' = matchIndex r ∧
   (commitIndex r < commitIndex r' < N.of_nat (length (log r)))%N ∧
   log_term (log r) (commitIndex r') = currentTerm r ∧
   (quorumSize r ≤ count_matches (matchIndex r) (commitIndex r') (peers r) 1)%Z).
Proof using Ht.
  trans_cases Ht; auto.
  - right; left. by exists m.
  - right; right. split_and!; congruence || lia.
Qed.

Lemma trans_requests m :
  m ∈ ms → mType m = MsgRequestVote →
  state r' = Candidate ∧ log r' = log r ∧ ∃ p, m = vote_request_to r' p.
Proof using Ht.
  intros Hin Hty. trans_cases Ht; try subst ms; try (by apply not_elem_of_nil in Hin);
    try (apply list_elem_of_singleton in Hin as ->);
    try match goal with H : Forall _ ms |- _ =>
          rewrite Forall_forall in H; specialize (H _ Hin) end; try done.
  - match goal with H : quiet m |- _ => destruct H as ([?|?] & _); congruence end.
  - match goal with H : ∃ p, m = _ |- _ => by destruct H as (p & ->) end.
  - match goal with H : ∃ p, m = _ |- _ => by destruct H as (p & ->) end.
Qed.

Lemma trans_acks a :
  a ∈ ms → is_ack a →
  (∃ m, takes ntw r r' m) ∧ mIndex a = N.of_nat (pred (length (log r'))).
Proof using Ht.
  intros Hin [Hty Hrej]. trans_cases Ht; try subst ms; try (by apply not_elem_of_nil in Hin);
    try (apply list_elem_of_singleton in Hin; subst a);
    try match goal with H : Forall _ ms |- _ =>
          rewrite Forall_forall in H; specialize (H _ Hin) end; try done.
  - match goal with H : quiet a |- _ => by destruct H as (_ & _ & []) end.
  - match goal with H : ∃ p, a = _ |- _ => by destruct H as (p & ->) end.
  - match goal with H : ∃ p, a = _ |- _ => by destruct H as (p & ->) end.
  - match goal with H : ∃ p, a = _ |- _ => by destruct H as (p & ->) end.
  - split; [by exists m|]. simpl. congruence.
Qed.

(** A candidate that stays a candidate of its term keeps its log, and gains
    no vote from itself. *)
Lemma trans_candidate :
  state r' = Candidate →
  log r' = log r ∧
  ((state r = Candidate ∧ currentTerm r' = currentTerm r) ∨
   (state r ≠ Leader ∧ currentTerm r' = (currentTerm r + 1)%N ∧ votedFor r' = r_id r)).
Proof using Ht.
  intros Hc. trans_cases Ht; try congruence;
    (split; [done|]); [left|left|left|right]; split_and!; congruence.
Qed.
End trans_facts.

Section preserve.
Context {GR : GoRand}.
Context (members : gset string) (Hmem : NoneID ∉ members).
Context (ll : leaders) (h : History) (c : Cluster).
Context (Inv : log_inv members ll h c).
Context (ntw : list Message) (i : string) (r r' : Raft) (ms : list Message).
Context (Hr : nodes c !! i = Some r) (Hntw : ∀ m, m ∈ ntw → m ∈ net c).
Context (Ht : trans ntw r r' ms) (Hcalm : calm members r r' ms).

Let ll' := record_leader ll r'.
Let h' := observe h r'.
Let c' := put c i r' ms.

Lemma step_elect : elect_inv members h' c'.
Proof using Inv Hr Hntw Ht Hcalm Hmem.
  eapply elect_inv_trans; try done. apply (lg_elect _ _ _ _ Inv).
Qed.

Lemma step_id : r_id r = i.
Proof using Inv Hr. by eapply (ei_node _ _ _ (lg_elect _ _ _ _ Inv)). Qed.

Lemma step_id' : r_id r' = i.
Proof using Inv Hr Hcalm. rewrite (calm_id _ _ _ _ Hcalm). by apply step_id. Qed.

Lemma node_wf j s : nodes c !! j = Some s → log_wf (log s).
Proof using Inv.
  intros Hs. apply rw_log, (no_wf members).
  by eapply (ei_node _ _ _ (lg_elect _ _ _ _ Inv)).
Qed.

Lemma step_wf : log_wf (log r').
Proof using Hcalm. apply rw_log, (no_wf members), (calm_ok _ _ _ _ Hcalm). Qed.

Lemma step_net m : m ∈ net c → m ∈ net c'.
Proof. intros Hm. simpl. apply elem_of_app. auto. Qed.

Lemma step_put j s :
  nodes c' !! j = Some s → (j = i ∧ s = r') ∨ (j ≠ i ∧ nodes c !! j = Some s).
Proof. simpl. intros [[<- <-]|[? ?]]%lookup_insert_Some; auto. Qed.

Lemma step_leads : state r' = Leader → leads h' (currentTerm r') i.
Proof using Inv Hr Hcalm. intros Hl. right. by rewrite step_id'. Qed.

(** A node that wins is the first leader of its term. *)
Lemma win_fresh :
  state r = Candidate → state r' = Leader → ll !! currentTerm r = None.
Proof using Inv Hr Hntw Ht Hcalm Hmem.
  intros Hc Hl. destruct (ll !! currentTerm r) as [[x L]|] eqn:HL; [|done].
  destruct (trans_leader _ _ _ _ Ht Hl) as [HT _].
  assert (x = i) as ->.
  { apply (ei_uniq _ _ _ step_elect (currentTerm r)).
    - left. by eapply (lg_leads _ _ _ _ Inv).
    - rewrite <- HT. by apply step_leads. }
  pose proof (lg_only _ _ _ _ Inv _ _ _ Hr HL). congruence.
Qed.

(** The new table at the term of a leader. *)
Lemma record_here : state r' = Leader → ll' !! currentTerm r' = Some (i, log r').
Proof using Inv Hr Hcalm.
  intros Hl. unfold ll', record_leader. rewrite decide_True by done.
  by rewrite lookup_insert_eq, step_id'.
Qed.

Lemma record_cases T x L :
  ll' !! T = Some (x, L) →
  (state r' = Leader ∧ T = currentTerm r' ∧ x = i ∧ L = log r') ∨
  ll !! T = Some (x, L) ∧ (state r' = Leader → T ≠ currentTerm r').
Proof using Inv Hr Hcalm.
  unfold ll', record_leader. case_decide as Hl; [|by right].
  rewrite lookup_insert_Some, step_id'. intros [[<- [= <- <-]]|[? ?]]; [by left|by right].
Qed.

Lemma record_le : leaders_le ll ll'.
Proof using Inv Hr Hntw Ht Hcalm Hmem.
  intros T x L HL. unfold ll', record_leader. case_decide as Hl;
    [|exists []; by rewrite app_nil_r].
  destruct (decide (T = currentTerm r')) as [->|Hne];
    [|exists []; by rewrite lookup_insert_ne, app_nil_r].
  rewrite lookup_insert_eq, step_id'.
  destruct (trans_leader _ _ _ _ Ht Hl) as [HT [(Hlr & es & Hlog & Hes)|(Hc & _)]].
  - rewrite HT in *. pose proof (lg_lead _ _ _ _ Inv _ _ Hr Hlr) as HL'.
    rewrite HL in HL'. injection HL' as -> ->. exists es. by rewrite Hlog.
  - rewrite HT in HL. by rewrite (win_fresh Hc Hl) in HL.
Qed.

Lemma record_other T x L :
  ll !! T = Some (x, L) → x ≠ i → ll' !! T = Some (x, L).
Proof using Inv Hr Hntw Ht Hcalm Hmem.
  intros HL Hx. destruct (record_le _ _ _ HL) as (es & HL' & _).
  destruct (record_cases _ _ _ HL') as [(_ & _ & ? & _)|[HL2 _]]; [done|].
  rewrite HL' . congruence.
Qed.

(** ** The leader's entries accepted by a follower *)

Lemma accepted_log m :
  takes ntw r r' m →
  ∃ x L Lm, ll !! currentTerm r = Some (x, L) ∧ Lm `prefix_of` L ∧ log_wf Lm ∧
    last_term Lm = currentTerm r ∧ Lm `prefix_of` log r' ∧ log r' `prefix_of` L ∧
    (log r' = log r ∨ (log r' = Lm ∧ ¬ Lm `prefix_of` log r)) ∧
    safe members ll (net c) (currentTerm r) Lm (N.to_nat (mLeaderCommit m)) ∧
    commitIndex r' = N.max (commitIndex r) (mLeaderCommit m).
Proof using Inv Hr Hntw.
  intros [Hm%Hntw Hty _ HT _ (Hprev & _) Hmatch -> ->].
  destruct (lg_append _ _ _ _ Inv m Hm Hty) as (L & Lm & HL & Hp & Hwfm & Hlast & Hcase).
  rewrite HT in HL, Hlast. pose proof (node_wf _ _ Hr) as Hwf.
  pose proof (lg_log _ _ _ _ Inv _ _ Hr) as Hs.
  destruct (lg_ok _ _ _ _ Inv _ _ _ HL) as [Hpos HwfL HsL HmL HlastL].
  destruct Hcase as [[Hp0 Hpt]|(Hpm & Hpt & Hes & Hsafe)].
  { (* a request that matches no log *)
    exfalso. destruct Hmatch as [?|Hmatch]; [lia|]. rewrite Hpt in Hmatch.
    pose proof (has_log_term _ _ _ Hprev Hmatch) as (e & He & Ht0).
    destruct (Hs (N.to_nat (mPrevLogIndex m)) e) as [? _]; [lia|done|lia]. }
  pose proof (sourced_prefix _ _ _ HsL Hp) as Hsm.
  pose proof (merge_sourced ll (log r) Lm (N.to_nat (mPrevLogIndex m)) Hwf Hwfm Hs Hsm)
    as Hmerge.
  rewrite <- Hes, N2Nat.id in Hmerge. unfold merged.
  replace (N.to_nat (mPrevLogIndex m + 1)) with (S (N.to_nat (mPrevLogIndex m))) by lia.
  destruct Hmerge as [[Heq Hpre]|[Heq Hnp]]; [lia|lia|destruct Hmatch; [left; lia|right; congruence]| |].
  - rewrite Heq. exists (mFrom m), L, Lm. split_and!; try done; [|by left| |].
    + (* the follower's log ends in the leader's term too *)
      pose proof (sourced_mono _ _ (lg_ok _ _ _ _ Inv) Hwf Hs) as Hmono.
      pose proof (mono_last _ _ _ Hmono Hwf (has_prefix _ _ _ _ (last_has _ Hwfm) Hpre)).
      destruct (last_has _ Hwf) as (e & He & Hte).
      pose proof (lg_le _ _ _ _ Inv _ _ _ _ Hr He).
      assert (last_term (log r) = currentTerm r) as Hlr by lia.
      destruct (sourced_last ll (log r) Hwf Hs) as (x & L' & HL' & Hpr); [lia|].
      rewrite Hlr, HL in HL'. by injection HL' as <- <-.
    + by rewrite <- HT.
    + unfold follower_commit. pose proof (safe_lt _ _ _ _ _ _ Hwfm Hsafe).
      rewrite Hes, length_drop. case_decide; lia.
  - rewrite Heq. exists (mFrom m), L, Lm. split_and!; try done; [by right| |].
    + by rewrite <- HT.
    + unfold follower_commit. pose proof (safe_lt _ _ _ _ _ _ Hwfm Hsafe).
      rewrite Hes, length_drop. case_decide; lia.
Qed.

(** ** Logs *)

Lemma log_mono j s : nodes c !! j = Some s → mono (log s).
Proof using Inv.
  intros Hs. eapply sourced_mono; [apply (lg_ok _ _ _ _ Inv)|by eapply node_wf|].
  by eapply (lg_log _ _ _ _ Inv).
Qed.

(** A log that differs from a prefix of the leader's log covers at most ... *)
Lemma short_prefix (l L Lm : list LogEntry) n :
  Lm `prefix_of` L → take n l = take n L → ¬ Lm `prefix_of` l → n ≤ length Lm.
Proof.
  intros Hp Htk Hn. destruct (decide (n ≤ length Lm)) as [|Hgt]; [done|]. destruct Hn.
  rewrite (prefix_take_eq _ _ Hp), <- (take_agree_le (length Lm) n l L Htk) by lia.
  apply take_prefix.
Qed.

Lemma commit_prefix :
  take (S (N.to_nat (commitIndex r))) (log r') = take (S (N.to_nat (commitIndex r))) (log r).
Proof using Inv Hr Hntw Ht Hcalm.
  pose proof (lg_commit _ _ _ _ Inv _ _ Hr) as Hs. pose proof (node_wf _ _ Hr) as Hwf.
  pose proof (safe_lt _ _ _ _ _ _ Hwf Hs) as Hlt. set (c0 := N.to_nat (commitIndex r)) in *.
  destruct (trans_log _ _ _ _ Ht) as [->|[(_ & es & -> & _)|[m Htk]]];
    [done|by rewrite take_app_le by lia|].
  destruct (accepted_log m Htk) as
    (x & L & Lm & HL & Hp & Hwm & Hlast & _ & _ & Heq & _ & _).
  destruct Heq as [->|[-> Hn]]; [done|].
  destruct (lg_ok _ _ _ _ Inv _ _ _ HL) as [Hpos HwfL HsL HmL HlastL].
  destruct Hs as [->|(T & k & y & Ly & HT & HLy & Hh & Hk & Hcm & Hy)].
  { pose proof (log_wf_sentinel _ Hwf). pose proof (log_wf_sentinel _ Hwm).
    destruct Lm, (log r); simpl in *; try done. rewrite !take_0. congruence. }
  rewrite Hy. destruct (decide (T = currentTerm r)) as [->|Hne].
  - rewrite HLy in HL. injection HL as <- <-.
    pose proof (short_prefix _ _ _ _ Hp Hy Hn). symmetry. by apply take_prefix_same.
  - assert (T < currentTerm r)%N as HTlt by lia.
    pose proof (leader_completeness _ _ _ _ Inv _ _ _ _ _ _ _ HLy Hh Hcm HTlt HL) as HhL.
    assert (has T k Lm) as Hhm by (eapply has_prefix_back; try done; lia).
    pose proof (has_lt _ _ _ Hhm).
    rewrite <- (take_prefix_same (S c0) Lm L Hp) by lia.
    apply (take_agree_le _ (S k)); [|lia].
    destruct (lg_ok _ _ _ _ Inv _ _ _ HLy). by eapply sourced_agree.
Qed.

Lemma commit_mono : (commitIndex r ≤ commitIndex r')%N.
Proof using Inv Hr Hntw Ht.
  destruct (trans_commit _ _ _ _ Ht) as [->|[[m Htk]|(_ & _ & _ & _ & _ & ? & _)]];
    [lia| |lia].
  destruct (accepted_log m Htk) as (x & L & Lm & _ & _ & _ & _ & _ & _ & _ & _ & ->). lia.
Qed.

Lemma mono_snoc_term l es T :
  mono l → (∀ k e, l !! k = Some e → (eTerm e ≤ T)%N) →
  Forall (fun e => eTerm e = T) es → mono (l ++ es).
Proof.
  intros Hm Hle Hes a b e f Hab He Hf. rewrite Forall_lookup in Hes.
  apply lookup_app_Some in He as [He|[Hge He]];
    apply lookup_app_Some in Hf as [Hf|[Hgf Hf]].
  - by apply (Hm a b).
  - rewrite (Hes _ _ Hf). by eapply Hle.
  - apply lookup_lt_Some in Hf. lia.
  - by rewrite (Hes _ _ He), (Hes _ _ Hf).
Qed.

Lemma sourced_own (tbl : leaders) x l es T :
  sourced tbl l → tbl !! T = Some (x, l ++ es) → (1 ≤ T)%N →
  Forall (fun e => eTerm e = T) es → sourced tbl (l ++ es).
Proof.
  intros Hs HT Hpos Hes k e Hk He. rewrite Forall_lookup in Hes.
  apply lookup_app_Some in He as [He|[Hge He]].
  - destruct (Hs k e Hk He) as (? & y & L & HL & Htk). split; [done|].
    exists y, L. split; [done|]. rewrite take_app_le; [done|].
    by apply lookup_lt_Some in He.
  - rewrite (Hes _ _ He). split; [done|]. by exists x, (l ++ es).
Qed.

Lemma step_le k e : log r' !! k = Some e → (eTerm e ≤ currentTerm r')%N.
Proof using Inv Hr Hntw Ht.
  pose proof (trans_term _ _ _ _ Ht).
  destruct (trans_log _ _ _ _ Ht) as [->|[(_ & es & -> & Hes)|[m Htk]]]; intros He.
  - pose proof (lg_le _ _ _ _ Inv _ _ _ _ Hr He). lia.
  - apply lookup_app_Some in He as [He|[_ He]].
    + pose proof (lg_le _ _ _ _ Inv _ _ _ _ Hr He). lia.
    + rewrite Forall_lookup in Hes. by rewrite (Hes _ _ He).
  - destruct (accepted_log m Htk) as
      (x & L & Lm & HL & _ & _ & _ & _ & Hp & _ & _ & _).
    destruct (lg_ok _ _ _ _ Inv _ _ _ HL) as [Hpos HwfL HsL HmL HlastL].
    assert (has (eTerm e) k L) as Hh by (eapply has_prefix; [by exists e|done]).
    pose proof (mono_last _ _ _ HmL HwfL Hh). lia.
Qed.

Lemma step_pos : state r' ≠ Follower → (1 ≤ currentTerm r')%N.
Proof using Inv Hr Ht.
  intros Hst. pose proof (trans_term _ _ _ _ Ht).
  destruct (decide (state r = Follower)) as [Hf|Hn];
    [|pose proof (lg_pos _ _ _ _ Inv _ _ Hr Hn); lia].
  trans_cases Ht; try congruence; lia.
Qed.

Lemma step_log_own :
  state r' = Leader → sourced ll' (log r').
Proof using Inv Hr Hntw Ht Hcalm Hmem.
  intros Hl. pose proof (record_here Hl) as HL.
  pose proof (sourced_le _ _ _ record_le (lg_log _ _ _ _ Inv _ _ Hr)) as Hs.
  assert (1 ≤ currentTerm r')%N as Hpos by (apply step_pos; congruence).
  destruct (trans_leader _ _ _ _ Ht Hl) as [HT [(_ & es & Hlog & Hes)|(_ & _ & Hlog & _)]];
    rewrite Hlog, HT in *; eapply sourced_own; try done. by constructor.
Qed.

Lemma step_log : sourced ll' (log r').
Proof using Inv Hr Hntw Ht Hcalm Hmem.
  pose proof (sourced_le _ _ _ record_le (lg_log _ _ _ _ Inv _ _ Hr)) as Hs.
  destruct (trans_log _ _ _ _ Ht) as [->|[(Hl & _)|[m Htk]]];
    [done|by apply step_log_own|].
  destruct (accepted_log m Htk) as
    (x & L & Lm & HL & _ & _ & _ & _ & Hp & _ & _ & _).
  apply (sourced_prefix _ _ L); [|done]. apply (sourced_le ll); [apply record_le|].
  apply (lg_ok _ _ _ _ Inv _ _ _ HL).
Qed.

Lemma step_ok : leaders_ok ll'.
Proof using Inv Hr Hntw Ht Hcalm Hmem.
  intros T x L [(Hl & -> & -> & ->)|[HL _]]%record_cases.
  - assert (1 ≤ currentTerm r')%N as Hpos by (apply step_pos; congruence).
    destruct (trans_leader _ _ _ _ Ht Hl) as [HT Hcase].
    assert (∃ es, log r' = log r ++ es ∧
      Forall (fun e => eTerm e = currentTerm r') es) as (es & Hlog & Hes).
    { rewrite HT. destruct Hcase as [(_ & Hes)|(_ & _ & -> & _)]; [done|].
      eexists. split; [done|]. by constructor. }
    split; [done|apply step_wf|by apply step_log_own| |].
    + rewrite Hlog. apply (mono_snoc_term _ _ (currentTerm r')); [by eapply log_mono| |done].
      intros k e He. rewrite HT. by eapply (lg_le _ _ _ _ Inv).
    + destruct Hcase as [(Hlr & _)|(_ & _ & -> & _)].
      * rewrite Hlog. apply last_term_app; [|done]. rewrite HT.
        eapply (llo_last ll), (lg_ok _ _ _ _ Inv), (lg_lead _ _ _ _ Inv); done.
      * by rewrite last_term_snoc, HT.
  - destruct (lg_ok _ _ _ _ Inv _ _ _ HL). split; try done.
    eapply sourced_le; [apply record_le|done].
Qed.

(** ** Roles *)

Lemma step_lead j s :
  nodes c' !! j = Some s → state s = Leader → ll' !! currentTerm s = Some (j, log s).
Proof using Inv Hr Hntw Ht Hcalm Hmem.
  intros [[-> ->]|[Hne Hs]]%step_put Hl; [by apply record_here|].
  apply record_other; [by apply (lg_lead _ _ _ _ Inv)|done].
Qed.

Lemma step_only j s L :
  nodes c' !! j = Some s → ll' !! currentTerm s = Some (j, L) → state s = Leader.
Proof using Inv Hr Hntw Ht Hcalm Hmem.
  intros [[-> ->]|[Hne Hs]]%step_put [(? & _ & ? & _)|[HL _]]%record_cases; try done.
  - pose proof (lg_leads _ _ _ _ Inv _ _ _ HL) as Hld.
    pose proof (ei_leads_term _ _ _ (lg_elect _ _ _ _ Inv) _ _ _ Hld Hr) as Hle.
    pose proof (trans_term _ _ _ _ Ht) as Hge.
    assert (currentTerm r' = currentTerm r) as HT by lia. rewrite HT in *.
    pose proof (lg_only _ _ _ _ Inv _ _ _ Hr HL) as Hlr.
    trans_cases Ht; try congruence; try lia.
    (* only another leader of the term could have deposed it *)
    exfalso. match goal with Hm : m ∈ ntw |- _ => apply Hntw in Hm end.
    pose proof (ei_net _ _ _ (lg_elect _ _ _ _ Inv) m) as Hv.
    destruct Hv as (_ & _ & Hne & _); [done|]. apply Hne.
    transitivity i; [|by rewrite <- step_id].
    apply (ei_uniq _ _ _ (lg_elect _ _ _ _ Inv) (currentTerm r)); [|done].
    match goal with H : mTerm m = _ |- _ => rewrite <- H end.
    by apply (ei_append _ _ _ (lg_elect _ _ _ _ Inv)).
  - by eapply (lg_only _ _ _ _ Inv).
Qed.

(** ** Acknowledgements *)

Lemma step_ack m :
  m ∈ net c' → is_ack m →
  ∃ x L, ll' !! mTerm m = Some (x, L) ∧ N.to_nat (mIndex m) < length L.
Proof using Inv Hr Hntw Ht Hcalm Hmem.
  intros [Hm|Hm]%elem_of_app Ha.
  - destruct (lg_ack _ _ _ _ Inv m Hm Ha) as (x & L & HL & Hlt).
    destruct (record_le _ _ _ HL) as (es & HL' & _).
    exists x, (L ++ es). split; [done|]. rewrite length_app. lia.
  - destruct (trans_acks _ _ _ _ Ht m Hm Ha) as [[q Htk] Hi].
    destruct (accepted_log q Htk) as (x & L & Lm & HL & _ & _ & _ & _ & Hp & _).
    destruct (calm_out _ _ _ _ Hcalm m Hm) as (_ & _ & _ & _ & ->).
    rewrite (tk_keeps _ _ _ _ Htk).
    destruct (record_le _ _ _ HL) as (es & HL' & _).
    exists x, (L ++ es). split; [done|]. rewrite Hi, length_app.
    pose proof (prefix_length _ _ Hp). pose proof (log_wf_nonempty _ step_wf). lia.
Qed.

(** A new acknowledgement is of the current term, by a node that holds what
    it acknowledges. *)
Lemma acked_new v T k :
  acked ll' (net c') v T k →
  acked ll (net c) v T k ∨ (v = i ∧ T = currentTerm r' ∧ has T k (log r')).
Proof using Inv Hr Hntw Ht Hcalm Hmem.
  intros (x & L & HL & Hh & Hv).
  assert (∀ m, m ∈ net c → is_ack m → mFrom m = v → mTerm m = T →
    k ≤ N.to_nat (mIndex m) → acked ll (net c) v T k) as Hold.
  { intros m Hm Ha Hf HT Hk. destruct (lg_ack _ _ _ _ Inv m Hm Ha) as (y & L0 & HL0 & Hlt).
    rewrite HT in HL0. destruct (record_le _ _ _ HL0) as (es & HL' & Hes).
    rewrite HL in HL'. injection HL' as <- ->.
    exists x, L0. split_and!; [done|apply (has_app_old _ _ _ es); [done|lia]|].
    right. by exists m. }
  destruct (record_cases _ _ _ HL) as [(Hl & -> & -> & ->)|[HL0 _]].
  - destruct Hv as [->|(m & [Hm|Hm]%elem_of_app & Ha & Hf & HT & Hk)];
      [by right|by left; eapply Hold|].
    exfalso. destruct (trans_acks _ _ _ _ Ht m Hm Ha) as [[q Htk] _].
    destruct Htk as [Hq _ _ _ _ _ _ _ _]. clear Hq.
    destruct (calm_out _ _ _ _ Hcalm m Hm) as (Hfm & _).
    destruct Ha as [Hty Hrej]. clear -Ht Hm Hty Hrej Hl.
    trans_cases Ht; try subst ms; try (by apply not_elem_of_nil in Hm); try congruence;
      try (apply list_elem_of_singleton in Hm; subst m; done);
      match goal with H : Forall _ ms |- _ =>
        rewrite Forall_forall in H; specialize (H _ Hm) end;
      try match goal with H : ∃ p, m = _ |- _ => by destruct H as (p & ->) end.
    match goal with H : quiet m |- _ => by destruct H as (_ & _ & []) end.
  - destruct Hv as [->|(m & [Hm|Hm]%elem_of_app & Ha & Hf & HT & Hk)].
    + left. exists x, L. split_and!; try done. by left.
    + left. by eapply Hold.
    + destruct (trans_acks _ _ _ _ Ht m Hm Ha) as [[q Htk] Hi].
      destruct (calm_out _ _ _ _ Hcalm m Hm) as (Hfm & _ & _ & _ & HTm).
      right. rewrite step_id in Hfm. split_and!; [congruence|congruence|].
      destruct (accepted_log q Htk) as (y & L1 & Lm & HL1 & _ & _ & _ & _ & Hp & _).
      assert (T = currentTerm r) as HTr by (rewrite <- HT, HTm; apply Htk).
      rewrite HTr, HL1 in HL0. injection HL0 as -> ->.
      destruct Hp as [es ->]. apply (has_app_old _ _ _ es); [done|].
      pose proof (log_wf_nonempty _ step_wf). lia.
Qed.

(** What follower [i] acknowledged survives the entries it accepts. *)
Lemma take_keeps m T k :
  takes ntw r r' m → (1 ≤ T ≤ currentTerm r)%N → has T k (log r) →
  (∃ x L, ll !! T = Some (x, L) ∧ has T k L) →
  has T k (log r') ∨ lacks ll T k (currentTerm r' + 1).
Proof using Inv Hr Hntw.
  intros Htk HT Hh (x0 & L0 & HL0 & Hh0).
  destruct (accepted_log m Htk) as (x & L & Lm & HL & Hp & Hwm & Hlast & _ & _ & Heq & _ & _).
  destruct Heq as [->|[-> Hn]]; [by left|].
  destruct (lg_ok _ _ _ _ Inv _ _ _ HL) as [Hpos HwfL HsL HmL HlastL].
  destruct (decide (T = currentTerm r)) as [->|Hne].
  - left. rewrite HL in HL0. injection HL0 as <- <-.
    assert (take (S k) (log r) = take (S k) L) as Heq.
    { eapply sourced_agree; [by eapply node_wf|done| |done|done|done].
      by eapply (lg_log _ _ _ _ Inv). }
    pose proof (short_prefix _ _ _ _ Hp Heq Hn). destruct Hp as [es ->].
    apply (has_app_old _ _ _ es); [done|lia].
  - destruct (has_dec T k L) as [HhL|HnL].
    + left. eapply has_prefix_back; try done. lia.
    + right. rewrite (tk_keeps _ _ _ _ Htk). exists (currentTerm r), x, L.
      split_and!; [lia|lia|done|done].
Qed.

Lemma step_promise v T k s :
  acked ll' (net c') v T k → nodes c' !! v = Some s →
  (T ≤ currentTerm s)%N ∧ (has T k (log s) ∨ lacks ll' T k (currentTerm s + 1)).
Proof using Inv Hr Hntw Ht Hcalm Hmem.
  intros Hack Hs. pose proof (trans_term _ _ _ _ Ht) as Hle.
  assert (∀ B B', (B ≤ B')%N → lacks ll T k B → lacks ll' T k B') as Hlk.
  { intros B B' HB. apply lacks_grow; [apply record_le|done]. }
  destruct (acked_new _ _ _ Hack) as [Hold|(-> & -> & Hh)].
  - destruct (step_put _ _ Hs) as [[-> ->]|[Hne Hs0]].
    + destruct (lg_promise _ _ _ _ Inv _ _ _ _ Hold Hr) as [HT [Hh|Hl]]; (split; [lia|]);
        [|right; eapply Hlk; [|done]; lia].
      destruct (trans_log _ _ _ _ Ht) as [->|[(_ & es & -> & _)|[m Htk]]];
        [by left|left; by apply has_app_l|].
      destruct Hold as (x & L & HL & HhL & _).
      pose proof (llo_term _ _ _ (lg_ok _ _ _ _ Inv _ _ _ HL)).
      destruct (take_keeps m T k Htk) as [?|Hl]; [lia|done|by exists x, L|by left|].
      right. by eapply Hlk.
    + destruct (lg_promise _ _ _ _ Inv _ _ _ _ Hold Hs0) as [HT [Hh|Hl]];
        (split; [done|]); [by left|right; by eapply Hlk].
  - simpl in Hs. rewrite lookup_insert_eq in Hs. injection Hs as <-.
    split; [lia|by left].
Qed.

Lemma supports_grow v T l s :
  nodes c !! v = Some s → (T ≤ currentTerm s)%N →
  supports ll (net c) v T l → supports ll' (net c') v T l.
Proof using Inv Hr Hntw Ht Hcalm Hmem.
  intros Hs HT Hsup T0 k Hack Hlt.
  destruct (acked_new _ _ _ Hack) as [Hold|(-> & -> & _)].
  - destruct (Hsup T0 k Hold Hlt) as [?|?]; [by left|right].
    eapply lacks_grow; [apply record_le| |done]. lia.
  - rewrite Hr in Hs. injection Hs as <-. pose proof (trans_term _ _ _ _ Ht). lia.
Qed.

Lemma supports_app v T l es : supports ll' (net c') v T l → supports ll' (net c') v T (l ++ es).
Proof.
  intros Hs T0 k Ha Hlt. destruct (Hs T0 k Ha Hlt); [left; by apply has_app_l|by right].
Qed.

Lemma caster_node v T x : casts h v T x → ∃ s, nodes c !! v = Some s ∧ (T ≤ currentTerm s)%N.
Proof using Inv.
  intros Hc. pose proof (lg_elect _ _ _ _ Inv) as Einv.
  destruct (ei_cast_dom _ _ _ Einv _ _ _ Hc) as [Hv _].
  apply (ei_dom _ _ _ Einv) in Hv as [s Hs]. exists s. split; [done|].
  by eapply (ei_cast_term _ _ _ Einv).
Qed.

(** ** Votes *)

Lemma cast_new v T x :
  casts h' v T x →
  casts h v T x ∨
  (v = i ∧ T = currentTerm r' ∧
   ((x = i ∧ currentTerm r' = (currentTerm r + 1)%N) ∨
    ∃ m, m ∈ ntw ∧ mType m = MsgRequestVote ∧ mTo m = i ∧ mTerm m = currentTerm r ∧
      currentTerm r' = currentTerm r ∧ x = mFrom m ∧ log r' = log r ∧
      up_to_date (log r) (mLastLogIndex m) (mLastLogTerm m) = true)).
Proof using Inv Hr Ht Hcalm.
  intros Hc. pose proof step_id as Hid.
  pose proof (same_casts members h c i r r' ms (lg_elect _ _ _ _ Inv) Hr Hcalm) as Hsame.
  destruct Hc as [?|(-> & -> & -> & Hne)]; [by left|].
  assert (votedFor r' = NoneID ∨ currentTerm r' = currentTerm r ∧ votedFor r' = votedFor r →
    casts h (r_id r') (currentTerm r') (votedFor r')) as Hold.
  { intros Hv. apply Hsame; [done|]. right. by split_and!. }
  rewrite step_id' in *. trans_cases Ht; auto.
  - right. split_and!; [done..|]. right. exists m. split_and!; congruence.
  - right. split_and!; [done..|]. left. split; congruence.
Qed.

Lemma step_cast v T x s :
  casts h' v T x → nodes c' !! x = Some s → (T ≤ currentTerm s)%N.
Proof using Inv Hr Hntw Ht Hcalm.
  intros Hc Hs. pose proof (trans_term _ _ _ _ Ht) as Hle.
  assert (∀ T, (∀ s0, nodes c !! x = Some s0 → (T ≤ currentTerm s0)%N) →
    (T ≤ currentTerm s)%N) as Hup.
  { intros T0 H0. destruct (step_put _ _ Hs) as [[-> ->]|[_ Hs0]]; [|by apply H0].
    specialize (H0 _ Hr). lia. }
  destruct (cast_new _ _ _ Hc) as [Ho|(_ & -> & [[-> _]|(m & Hm & _ & _ & HT & -> & -> & _)])].
  - apply Hup. intros s0. by eapply (lg_cast _ _ _ _ Inv).
  - destruct (step_put _ _ Hs) as [[_ ->]|[? _]]; [lia|done].
  - apply Hup. intros s0 Hs0. rewrite <- HT. by apply (lg_term _ _ _ _ Inv m); [apply Hntw|].
Qed.

Lemma step_term m s : m ∈ net c' → nodes c' !! mFrom m = Some s → (mTerm m ≤ currentTerm s)%N.
Proof using Inv Hr Ht Hcalm.
  pose proof (trans_term _ _ _ _ Ht) as Hle.
  intros [Hm|Hm]%elem_of_app Hs; destruct (step_put _ _ Hs) as [[Hf ->]|[Hf Hs0]].
  - rewrite <- Hf in Hr. pose proof (lg_term _ _ _ _ Inv m r Hm Hr). lia.
  - by apply (lg_term _ _ _ _ Inv m).
  - by destruct (calm_out _ _ _ _ Hcalm m Hm) as (_ & _ & _ & _ & ->).
  - destruct Hf. rewrite <- step_id. by destruct (calm_out _ _ _ _ Hcalm m Hm) as (? & _).
Qed.

Lemma step_request m s :
  m ∈ net c' → mType m = MsgRequestVote → nodes c' !! mFrom m = Some s →
  state s = Candidate → currentTerm s = mTerm m →
  mLastLogIndex m = N.of_nat (pred (length (log s))) ∧
  mLastLogTerm m = last_term (log s).
Proof using Inv Hr Ht Hcalm.
  intros [Hm|Hm]%elem_of_app Hty Hs Hc HT.
  - destruct (step_put _ _ Hs) as [[Hf ->]|[_ Hs0]]; [|by apply (lg_request _ _ _ _ Inv)].
    destruct (trans_candidate _ _ _ _ Ht Hc) as [-> [[Hcr HTr]|(_ & HTr & _)]].
    + apply (lg_request _ _ _ _ Inv m r); try done; congruence.
    + rewrite <- Hf in Hr. pose proof (lg_term _ _ _ _ Inv m r Hm Hr). lia.
  - destruct (trans_requests _ _ _ _ Ht m Hm Hty) as (_ & _ & p & ->).
    destruct (step_put _ _ Hs) as [[_ ->]|[Hf _]]; [done|].
    destruct Hf. apply step_id'.
Qed.

(** The check of [isLogUpToDate]: a candidate whose log is at least as up to
    date as the voter's holds what the voter acknowledged. *)
Lemma up_to_date_has l lc T k T' :
  log_wf l → log_wf lc → sourced ll l → sourced ll lc →
  up_to_date l (N.of_nat (pred (length lc))) (last_term lc) = true →
  (1 ≤ T)%N → has T k l → (∀ k e, lc !! k = Some e → (eTerm e ≤ T')%N) →
  ll !! T' = None →
  has T k lc ∨ lacks ll T k T'.
Proof using Inv.
  intros Hwf Hwc Hs Hsc Hup HT Hh Hle Hfresh.
  pose proof (sourced_mono _ _ (lg_ok _ _ _ _ Inv) Hwf Hs) as Hm.
  pose proof (mono_last _ _ _ Hm Hwf Hh) as HTl.
  pose proof (log_wf_nonempty _ Hwf). pose proof (log_wf_nonempty _ Hwc).
  unfold up_to_date in Hup. case_decide as Hlast; apply bool_decide_eq_true in Hup.
  - destruct (sourced_last ll lc Hwc Hsc) as (x & L & HL & Hp); [lia|].
    destruct (last_has lc Hwc) as (e & He & Hte). specialize (Hle _ _ He).
    assert (last_term lc ≠ T') by congruence.
    destruct (lg_ok _ _ _ _ Inv _ _ _ HL) as [_ HwfL _ HmL _].
    destruct (has_dec T k L) as [HhL|HnL].
    + left. eapply has_prefix_back; try done. lia.
    + right. exists (last_term lc), x, L. split_and!; try done; lia.
  - left. assert (last_term lc = last_term l) as Heq
      by (by destruct (decide (last_term lc = last_term l))).
    destruct (sourced_last ll lc Hwc Hsc) as (x & L & HL & Hp); [lia|].
    destruct (sourced_last ll l Hwf Hs) as (y & L' & HL' & Hp'); [lia|].
    rewrite Heq, HL' in HL. injection HL as -> ->.
    pose proof (has_lt _ _ _ Hh). destruct Hp as [es ->].
    apply (has_app_old _ _ _ es); [|lia]. by eapply has_prefix.
Qed.

Lemma step_cand v x s :
  nodes c' !! x = Some s → state s = Candidate → ll' !! currentTerm s = None →
  casts h' v (currentTerm s) x → supports ll' (net c') v (currentTerm s) (log s).
Proof using Inv Hr Hntw Ht Hcalm Hmem.
  intros Hs Hcs Hnone Hc.
  assert (ll !! currentTerm s = None) as Hnone0.
  { destruct (ll !! currentTerm s) as [[y L]|] eqn:HL; [|done].
    destruct (record_le _ _ _ HL) as (es & HL' & _). congruence. }
  pose proof (trans_term _ _ _ _ Ht) as Hle.
  assert (∀ s0, nodes c !! x = Some s0 → state s0 = Candidate →
    currentTerm s0 = currentTerm s → log s0 = log s → casts h v (currentTerm s) x →
    supports ll' (net c') v (currentTerm s) (log s)) as Hold.
  { intros s0 Hs0 Hc0 HT0 Hl0 Hc0'. destruct (caster_node _ _ _ Hc0') as (sv & Hsv & HTv).
    apply (supports_grow _ _ _ sv); [done|done|]. rewrite <- HT0, <- Hl0 in *.
    by apply (lg_cand _ _ _ _ Inv _ x). }
  destruct (cast_new _ _ _ Hc) as [Ho|(-> & HT & [[-> HTr]|(m & Hm & Hty & Hto & HTm & HTr & -> & Hlog & Hup)])].
  - destruct (step_put _ _ Hs) as [[-> ->]|[Hne Hs0]]; [|by apply (Hold s)].
    destruct (trans_candidate _ _ _ _ Ht Hcs) as [Hlog [[Hcr HTr]|(_ & HTr & _)]].
    + by apply (Hold r).
    + pose proof (lg_cast _ _ _ _ Inv _ _ _ _ Ho Hr). lia.
  - (* the vote of a candidate for itself *)
    destruct (step_put _ _ Hs) as [[_ ->]|[? _]]; [|done].
    destruct (trans_candidate _ _ _ _ Ht Hcs) as [Hlog _]. rewrite Hlog, HTr.
    intros T k Hack Hlt. destruct (acked_new _ _ _ Hack) as [Ha|(_ & -> & _)]; [|lia].
    destruct (lg_promise _ _ _ _ Inv _ _ _ _ Ha Hr) as [_ [?|Hl]]; [by left|right].
    eapply lacks_grow; [apply record_le| |done]. lia.
  - (* a vote granted *)
    destruct (step_put _ _ Hs) as [[Hf _]|[Hne Hs0]].
    { destruct (ei_net _ _ _ (lg_elect _ _ _ _ Inv) m) as (_ & _ & ? & _); [auto|congruence]. }
    rewrite HT, HTr in *.
    destruct (lg_request _ _ _ _ Inv m s) as [Hi Hlt]; [auto|done|done|done|congruence|].
    rewrite Hi, Hlt in Hup. intros T k Hack HltT.
    destruct (acked_new _ _ _ Hack) as [Ha|(_ & -> & _)]; [|lia].
    destruct (lg_promise _ _ _ _ Inv _ _ _ _ Ha Hr) as [_ Hpr].
    assert (∀ B, (B ≤ currentTerm r)%N → lacks ll T k B → lacks ll' T k (currentTerm r)) as Hlk.
    { intros B HB. apply lacks_grow; [apply record_le|done]. }
    assert (lacks ll T k (currentTerm r + 1) → lacks ll' T k (currentTerm r)) as Hlk'.
    { intros (T2 & y & L2 & ? & HL2 & Hn2). apply (Hlk (currentTerm r)); [lia|].
      exists T2, y, L2. split_and!; [lia| |done|done].
      assert (T2 ≠ currentTerm r) by congruence. lia. }
    destruct Hpr as [Hh|Hl]; [|right; auto].
    destruct Ha as (y & L & HL & _).
    destruct (up_to_date_has (log r) (log s) T k (currentTerm r)) as [?|?]; try done.
    + by eapply node_wf.
    + by eapply node_wf.
    + by eapply (lg_log _ _ _ _ Inv).
    + by eapply (lg_log _ _ _ _ Inv).
    + by apply (lg_ok _ _ _ _ Inv _ _ _ HL).
    + intros k0 e He. pose proof (lg_le _ _ _ _ Inv _ _ _ _ Hs0 He). lia.
    + by left.
    + right. by eapply Hlk.
Qed.

Lemma step_won T x L :
  ll' !! T = Some (x, L) →
  ∃ Q, majority members Q ∧
    ∀ v, v ∈ Q → casts h' v T x ∧ supports ll' (net c') v T L.
Proof using Inv Hr Hntw Ht Hcalm Hmem.
  assert (∀ T x L (Q : gset string), (∀ v, v ∈ Q → casts h v T x ∧ supports ll (net c) v T L) →
    ∀ v : string, v ∈ Q → casts h' v T x ∧ supports ll' (net c') v T L) as Hgrow.
  { intros T0 x0 L0 Q HQv v Hin. destruct (HQv v Hin) as [Hc Hs]. split; [by left|].
    destruct (caster_node _ _ _ Hc) as (s & Hsn & HTs). by eapply supports_grow. }
  intros [(Hl & -> & -> & ->)|[HL _]]%record_cases.
  - destruct (trans_leader _ _ _ _ Ht Hl) as [HT [(Hlr & es & Hlog & Hes)|(Hcr & Hq & Hlog & _)]];
      rewrite HT, Hlog.
    + destruct (lg_won _ _ _ _ Inv _ _ _ (lg_lead _ _ _ _ Inv _ _ Hr Hlr)) as (Q & HQ & HQv).
      exists Q. split; [done|]. intros v Hin. destruct (Hgrow _ _ _ _ HQv v Hin).
      split; [done|by apply supports_app].
    + pose proof (win_fresh Hcr Hl) as Hfresh.
      destruct (win_majority members h c i r (lg_elect _ _ _ _ Inv) Hr Hcr Hq)
        as (Q & HQ & HQv).
      exists Q. split; [done|]. intros v Hin.
      destruct (Hgrow (currentTerm r) i (log r) Q) with v as [? ?]; [|done|].
      * intros w Hw. split; [by apply HQv|].
        apply (lg_cand _ _ _ _ Inv _ i); auto.
      * split; [done|by apply supports_app].
  - destruct (lg_won _ _ _ _ Inv _ _ _ HL) as (Q & HQ & HQv).
    exists Q. split; [done|]. by apply Hgrow.
Qed.

(** ** Commitment *)

Lemma step_match j s p :
  nodes c' !! j = Some s → state s = Leader → p ≠ j →
  (0 < map_read 0 (matchIndex s) p)%N →
  ∃ m, m ∈ net c' ∧ is_ack m ∧ mFrom m = p ∧ mTerm m = currentTerm s ∧
       (map_read 0 (matchIndex s) p ≤ mIndex m)%N.
Proof using Inv Hr Hntw Ht.
  assert (∀ j s T, nodes c !! j = Some s → state s = Leader → p ≠ j → currentTerm s = T →
    (0 < map_read 0 (matchIndex s) p)%N →
    ∃ m, m ∈ net c' ∧ is_ack m ∧ mFrom m = p ∧ mTerm m = T ∧
         (map_read 0 (matchIndex s) p ≤ mIndex m)%N) as Hold.
  { intros j0 s0 T Hs0 Hl0 Hp0 <- H0.
    destruct (lg_match _ _ _ _ Inv _ _ _ Hs0 Hl0 Hp0 H0) as (m & Hm & ?).
    exists m. split; [by apply step_net|done]. }
  intros [[-> ->]|[_ Hs]]%step_put Hl Hp Hpos; [|by eapply Hold].
  pose proof step_id as Hid.
  trans_cases Ht; try congruence;
    try (match goal with Heq : matchIndex r' = _ |- _ => rewrite Heq in Hpos |- * end;
         by apply (Hold i); [done|congruence|..]).
  - match goal with H : ∀ p, map_read _ (matchIndex r') p = 0%N |- _ => rewrite H in Hpos end.
    lia.
  - match goal with H : ∀ p, _ → map_read _ (matchIndex r') p = _ |- _ =>
      rewrite H in Hpos |- * by congruence end.
    apply (Hold i); [done|congruence|done|congruence|done].
  - match goal with H : ∀ p, _ ∨ _ |- _ => destruct (H p) as [Heq|[-> Heq]] end;
      rewrite Heq in Hpos |- *.
    + apply (Hold i); [done|congruence|done|congruence|done].
    + exists m. split_and!; [apply step_net; auto|done|done|congruence|lia].
Qed.

(** A leader that counts a quorum of acknowledgements for an entry of its
    term has committed it. *)
Lemma leader_commits n :
  state r = Leader → (0 < n)%N → has (currentTerm r) (N.to_nat n) (log r) →
  (quorumSize r ≤ count_matches (matchIndex r) n (peers r) 1)%Z →
  committed members ll (net c) (currentTerm r) (N.to_nat n).
Proof using Inv Hr.
  intros Hl Hn Hh Hq. destruct (ei_node _ _ _ (lg_elect _ _ _ _ Inv) _ _ Hr) as [Hok Hid].
  pose proof (no_peers _ _ Hok) as Hps. pose proof Hps as (Hmi & Hnd & Hpm).
  pose proof (lg_lead _ _ _ _ Inv _ _ Hr Hl) as HL.
  set (ps := filter (fun p => (n ≤ map_read 0 (matchIndex r) p)%N) (peers r)) in *.
  assert (∀ p, p ∈ ps → p ∈ peers r ∧ (n ≤ map_read 0 (matchIndex r) p)%N) as Hin.
  { intros p Hp. apply list_elem_of_filter in Hp. tauto. }
  exists ({[i]} ∪ list_to_set ps). split.
  - split.
    + intros p [->%elem_of_singleton|Hp%elem_of_list_to_set]%elem_of_union; [congruence|].
      by apply Hpm, Hin.
    + rewrite size_union, size_singleton, size_list_to_set.
      * rewrite count_matches_filter in Hq. fold ps in Hq.
        apply (quorumSize_majority members r); [done|]. lia.
      * by apply NoDup_filter.
      * intros p ->%elem_of_singleton Hp%elem_of_list_to_set.
        destruct (Hin _ Hp) as [Hip _]. apply Hpm in Hip as [_ Hip]. congruence.
  - intros v Hv. exists i, (log r). split_and!; [done|done|].
    apply elem_of_union in Hv as [->%elem_of_singleton|Hp%elem_of_list_to_set]; [by left|right].
    destruct (Hin _ Hp) as [Hip Hge]. apply Hpm in Hip as [_ Hip].
    destruct (lg_match _ _ _ _ Inv _ _ v Hr Hl) as (m & ? & ? & ? & ? & ?);
      [congruence|lia|]. exists m. split_and!; try done. lia.
Qed.

Lemma step_commit :
  safe members ll' (net c') (currentTerm r') (log r') (N.to_nat (commitIndex r')).
Proof using Inv Hr Hntw Ht Hcalm Hmem.
  pose proof (trans_term _ _ _ _ Ht) as Hle.
  assert (∀ l n, safe members ll (net c) (currentTerm r) l n →
    safe members ll' (net c') (currentTerm r') l n) as Hgrow.
  { intros l n. apply safe_grow; [apply record_le|apply step_net|done]. }
  destruct (trans_commit _ _ _ _ Ht) as [->|[[m Htk]|(Hl' & Hl & HT & -> & _ & Hc & Htm & Hq)]].
  - apply (safe_prefix _ _ _ _ (log r)); [apply commit_prefix|].
    apply Hgrow, (lg_commit _ _ _ _ Inv _ _ Hr).
  - destruct (accepted_log m Htk) as
      (x & L & Lm & _ & _ & Hwm & _ & Hp & _ & _ & Hsafe & Hc).
    destruct (N.max_spec (commitIndex r) (mLeaderCommit m)) as [[_ Hmax]|[_ Hmax]];
      rewrite Hc, Hmax.
    + apply (safe_prefix _ _ _ _ Lm); [|by apply Hgrow].
      pose proof (safe_lt _ _ _ _ _ _ Hwm Hsafe). by apply take_prefix_same.
    + apply (safe_prefix _ _ _ _ (log r)); [apply commit_prefix|].
      apply Hgrow, (lg_commit _ _ _ _ Inv _ _ Hr).
  - apply Hgrow. right. pose proof (has_log_term _ _ _ (proj2 Hc) Htm) as Hh.
    exists (currentTerm r), (N.to_nat (commitIndex r')), i, (log r).
    split_and!; try done.
    + by apply (lg_lead _ _ _ _ Inv).
    + apply leader_commits; try done. lia.
Qed.

Lemma heartbeat_append_ok p :
  state r' = Leader → append_ok members ll' (net c') (heartbeat_to r' p).
Proof using Inv Hr Hntw Ht Hcalm Hmem.
  intros Hl. pose proof (record_here Hl) as HL. pose proof step_wf as Hwf.
  destruct (step_ok _ _ _ HL) as [_ _ _ _ Hlast].
  exists (log r'), (log r'). simpl. rewrite step_id'. split_and!; try done.
  pose proof (rw_next_u64 _ (no_wf _ _ (calm_ok _ _ _ _ Hcalm)) p) as Hn.
  pose proof (log_wf_bound _ Hwf) as Hb. pose proof (log_wf_nonempty _ Hwf) as Hne.
  set (n := map_read 0%N (nextIndex r') p) in *.
  destruct (decide (N.of_nat (length (log r')) ≤ n -u 1)%N) as [Hge|Hlt].
  - left. split; [lia|]. unfold logTerm. by apply log_term_ge.
  - right. assert (0 < n)%N as Hn0.
    { destruct (decide (n = 0%N)) as [Heq|]; [|lia]. rewrite Heq in Hlt.
      rewrite u64_sub_wrap in Hlt by done. word. }
    rewrite u64_sub_small in * by lia. split_and!; [lia|done| |apply step_commit].
    f_equal. lia.
Qed.

Lemma step_append m :
  m ∈ net c' → mType m = MsgAppendEntries → append_ok members ll' (net c') m.
Proof using Inv Hr Hntw Ht Hcalm Hmem.
  intros [Hm|Hm]%elem_of_app Hty.
  - apply (append_ok_grow members ll ll' (net c)); [apply record_le|apply step_net|].
    by apply (lg_append _ _ _ _ Inv).
  - destruct (trans_appends _ _ _ _ _ Ht Hm Hty) as (Hl & p & ->).
    by apply heartbeat_append_ok.
Qed.

Lemma log_inv_step : log_inv members ll' h' c'.
Proof using Inv Hr Hntw Ht Hcalm Hmem.
  split.
  - apply step_elect.
  - apply step_ok.
  - intros T x L [(Hl & -> & -> & _)|[HL _]]%record_cases; [by apply step_leads|].
    left. by eapply (lg_leads _ _ _ _ Inv).
  - apply step_won.
  - apply step_lead.
  - apply step_only.
  - intros j s [[-> ->]|[_ Hs]]%step_put; [apply step_pos|by eapply (lg_pos _ _ _ _ Inv)].
  - intros j s [[-> ->]|[_ Hs]]%step_put; [apply step_log|].
    eapply sourced_le; [apply record_le|]. by eapply (lg_log _ _ _ _ Inv).
  - intros j s k e [[-> ->]|[_ Hs]]%step_put; [apply step_le|by eapply (lg_le _ _ _ _ Inv)].
  - apply step_append.
  - intros m s. apply step_request.
  - intros m s. apply step_term.
  - intros v T x s. apply step_cast.
  - apply step_ack.
  - apply step_promise.
  - apply step_cand.
  - apply step_match.
  - intros j s [[-> ->]|[_ Hs]]%step_put; [apply step_commit|].
    eapply safe_grow; [apply record_le|apply step_net|done|by eapply (lg_commit _ _ _ _ Inv)].
Qed.
End preserve.
