(* ===== verification/LogSafety.v ===== *)
(** * Replication safety

    Log matching, leader completeness and state machine safety for every run
    of a cluster whose nodes do not crash, as theorems about reachable states;
    and the loss of committed entries once nodes restart, because
    [Node.persistState] saves the term and the vote but no log entry. *)

From S2P Require Import Prelude Pb Raft RaftWf Cluster ClusterTrans Election Logs LogInv LogStep Sample.

Section runs.
Context {GR : GoRand}.
Context (members : gset string) (conf : string → Config).
Context (Hmem : NoneID ∉ members).
Context (Hcf : ∀ i, i ∈ members → fresh_config members i (conf i)).

(** What a node has handed to the application is its log up to
    [lastApplied], which is committed. *)
Definition applied_ok (c : Cluster) : Prop :=
  ∀ i r, nodes c !! i = Some r →
    (lastApplied r ≤ commitIndex r)%N ∧
    applied_of c i = take (N.to_nat (lastApplied r)) (drop 1 (log r)).

Lemma take_drop_one {A} (l l' : list A) n :
  take (S n) l = take (S n) l' → take n (drop 1 l) = take n (drop 1 l').
Proof. destruct l, l'; simpl; rewrite ?drop_0; congruence. Qed.

(** [c] comes after [c0]: messages stay, terms and commit indices grow. *)
Definition after_state (c0 c : Cluster) : Prop :=
  (∀ m, m ∈ net c0 → m ∈ net c) ∧
  (∀ i r r', nodes c0 !! i = Some r → nodes c !! i = Some r' →
     (currentTerm r ≤ currentTerm r')%N ∧ (commitIndex r ≤ commitIndex r')%N) ∧
  (∀ i, is_Some (nodes c !! i) → is_Some (nodes c0 !! i)).

Lemma after_put c0 c i s s' ms :
  after_state c0 c → nodes c !! i = Some s → (currentTerm s ≤ currentTerm s')%N →
  (commitIndex s ≤ commitIndex s')%N → after_state c0 (put c i s' ms).
Proof.
  intros (Hnet & Hle & Hdom) Hs HT Hc. split_and!.
  - intros m Hm. simpl. apply elem_of_app. auto.
  - intros j r r' Hr. simpl. intros [[<- <-]|[_ Hr']]%lookup_insert_Some; [|by eapply Hle].
    destruct (Hle _ _ _ Hr Hs). split; lia.
  - intros j. simpl. rewrite lookup_insert_is_Some. intros [<-|[_ ?]]; [|auto].
    apply Hdom. by exists s.
Qed.

(** The state of a run after [c0], with a history that extends [ll0]. *)
Definition run_inv (ll0 : leaders) (c0 : Cluster) (c : Cluster) : Prop :=
  applied_ok c ∧ after_state c0 c ∧
  ∃ ll h, leaders_le ll0 ll ∧ log_inv members ll h c.

Lemma leaders_le_trans ll1 ll2 ll3 :
  leaders_le ll1 ll2 → leaders_le ll2 ll3 → leaders_le ll1 ll3.
Proof.
  intros H12 H23 T x L HL. destruct (H12 _ _ _ HL) as (es & HL2 & Hes).
  destruct (H23 _ _ _ HL2) as (es' & HL3 & Hes').
  exists (es ++ es'). rewrite app_assoc. split; [done|]. by apply Forall_app.
Qed.

Lemma run_inv_trans ll0 c0 c i s s' ms ntw :
  run_inv ll0 c0 c → nodes c !! i = Some s → (∀ m, m ∈ ntw → m ∈ net c) →
  trans ntw s s' ms → tame members s s' ms → run_inv ll0 c0 (put c i s' ms).
Proof using Hmem.
  intros (Hap & Hnet & ll & h & Hle & Inv) Hs Hin Hts Htame.
  assert (calm members s s' ms) as Hcalm.
  { apply tame_calm; [|done]. by eapply (ei_node _ _ _ (lg_elect _ _ _ _ Inv)). }
  split_and!.
  - intros j t. simpl. intros [[<- <-]|[Hne Ht]]%lookup_insert_Some; [|by apply Hap].
    destruct (Hap _ _ Hs) as [Hla Hapi]. rewrite (tame_applied _ _ _ _ Htame).
    pose proof (commit_mono members ll h c Inv ntw i s s' ms Hs Hin Hts) as Hcm.
    split; [lia|]. unfold applied_of in *. simpl. rewrite Hapi. apply take_drop_one.
    pose proof (commit_prefix members ll h c Inv ntw i s s' ms Hs Hin Hts Hcalm) as Hcp.
    symmetry. eapply take_agree_le; [exact Hcp|]. lia.
  - eapply after_put; [done|done|by eapply trans_term|].
    by eapply (commit_mono members ll h c Inv ntw i s s' ms).
  - exists (record_leader ll s'), (observe h s'). split.
    + eapply leaders_le_trans; [done|]. by eapply (record_le members).
    + by eapply (log_inv_step members).
Qed.

Lemma log_inv_applied ll h c i r a :
  log_inv members ll h (put c i r []) →
  log_inv members ll h (mkCluster (<[i := r]> (nodes c)) (net c) a).
Proof.
  intros [He]. apply (elect_inv_applied _ _ _ _ _ a) in He.
  simpl in *. rewrite app_nil_r in *. by split.
Qed.

Lemma apply_step_ok ll h c i r er :
  log_inv members ll h c → applied_ok c → nodes c !! i = Some r →
  ApplicableEntries r = Some er →
  applied_ok (mkCluster (<[i := er.2]> (nodes c)) (net c)
                (<[i := applied_of c i ++ er.1]> (applied c))).
Proof.
  intros Inv Hap Hr Ha j t. simpl. unfold applied_of. simpl.
  intros [[<- <-]|[Hne Ht]]%lookup_insert_Some;
    [|rewrite lookup_insert_ne by done; by apply Hap].
  rewrite lookup_insert_eq. simpl. fold (applied_of c i).
  destruct (Hap _ _ Hr) as [Hla Hapi]. rewrite Hapi.
  pose proof (node_wf _ _ _ _ Inv _ _ Hr) as Hwf.
  pose proof (safe_lt _ _ _ _ _ _ Hwf (lg_commit _ _ _ _ Inv _ _ Hr)) as Hlt.
  rewrite ApplicableEntries_eq in Ha by done. injection Ha as <-.
  assert (apply_end r = commitIndex r) as Hend by (unfold apply_end; lia).
  rewrite Hend. case_decide; simpl; [by rewrite app_nil_r|].
  split; [lia|].
  replace (N.to_nat (commitIndex r)) with
    (N.to_nat (lastApplied r) + N.to_nat (commitIndex r - lastApplied r)) by lia.
  rewrite <- take_take_drop, drop_drop. do 3 f_equal. lia.
Qed.

Lemma run_inv_step ll0 c0 c c' :
  run_inv ll0 c0 c → step c c' → run_inv ll0 c0 c'.
Proof using Hmem.
  intros Hrun (Hroom & e & Hex). pose proof Hrun as (Hap & Hnet & ll & h & Hle & Inv).
  assert (cluster_ok members c) as Hok
    by (eapply elect_inv_ok, lg_elect, Inv).
  destruct (exec_cases members c e c' Hok Hroom Hex) as
    [(i & r & r' & ms & Hr & Ht & ->)|(i & r & er & Hr & Ha & ->)].
  - apply (transs_put members (run_inv ll0 c0) (net c) i r r' ms); try done.
    intros c1 s s' ms1. by apply run_inv_trans.
  - destruct (apply_cases members c i r er Hok Hr Ha) as (Hcalm & Hv & Hl & Hm).
    split_and!; [by eapply apply_step_ok| |].
    { destruct (after_put c0 c i r er.2 [] Hnet Hr) as (Hn & Hle' & Hdom).
      - by rewrite (proj1 Hv).
      - by rewrite (proj2 Hl).
      - simpl in *. rewrite app_nil_r in Hn. by split_and!. }
    assert (trans [] r er.2 []) as Ht by (by apply tr_keep).
    assert (∀ m, m ∈ [] → m ∈ net c) as Hnil by (by intros m ?%not_elem_of_nil).
    exists (record_leader ll er.2), (observe h er.2). split.
    + eapply leaders_le_trans; [done|]. by eapply (record_le members).
    + apply log_inv_applied. by eapply (log_inv_step members).
Qed.

Lemma run_inv_steps ll0 c0 c c' :
  rtc step c c' → run_inv ll0 c0 c → run_inv ll0 c0 c'.
Proof using Hmem. induction 1; eauto using run_inv_step. Qed.

Lemma sourced_sentinel (ll : leaders) : sourced ll [sentinel].
Proof. intros [|k] e Hk; [lia|done]. Qed.

Lemma run_inv_initial c : initial members conf c → run_inv ∅ c c.
Proof using Hmem Hcf.
  intros Hini. pose proof (elect_inv_initial members conf Hmem c Hcf Hini) as Einv.
  destruct Hini as (Hn & Hnet & Happ).
  assert (∀ i r, nodes c !! i = Some r →
    i ∈ members ∧ r = started (conf i) ∧ log r = [sentinel]) as Hnode.
  { intros i r Hr. rewrite Hn in Hr. case_decide as Hi; [|done].
    pose proof (fresh_config_wf members i _ (Hcf i Hi)) as Hwf.
    rewrite NewRaft_eq in Hr by done. simplify_eq. split_and!; [done|done|].
    simpl. by rewrite (fc_log _ _ _ (Hcf i Hi)). }
  split_and!.
  - intros i r Hr. destruct (Hnode i r Hr) as (Hi & -> & _). split; [done|].
    unfold applied_of. by rewrite Happ.
  - split_and!; [done| |done]. intros i r r' Hr Hr'. simplify_eq. lia.
  - exists ∅, no_history. split; [apply leaders_le_refl|]. split; try done;
      try (intros * Hin; rewrite Hnet in Hin; by apply not_elem_of_nil in Hin).
    + intros i r Hr Hl. by destruct (Hnode i r Hr) as (_ & -> & _).
    + intros i r Hr Hl. by destruct (Hnode i r Hr) as (_ & -> & _).
    + intros i r Hr. destruct (Hnode i r Hr) as (_ & _ & ->). apply sourced_sentinel.
    + intros i r [|k] e Hr; destruct (Hnode i r Hr) as (_ & _ & ->); [|done].
      intros [= <-]. simpl. lia.
    + intros v T k r (x & L & HL & _). done.
    + intros i r p Hr Hl. by destruct (Hnode i r Hr) as (_ & -> & _).
    + intros i r Hr. destruct (Hnode i r Hr) as (_ & -> & _). by left.
Qed.

Lemma reachable_inv c :
  reachable members conf c → ∃ ll h, log_inv members ll h c ∧ applied_ok c.
Proof using Hmem Hcf.
  intros (c0 & Hi & Hs).
  destruct (run_inv_steps _ _ _ _ Hs (run_inv_initial c0 Hi)) as (Hap & _ & ll & h & _ & Inv).
  by exists ll, h.
Qed.

(** An invariant at [c1], and one at a later [c2] that extends it. *)
Lemma later_inv c1 c2 ll h :
  log_inv members ll h c1 → applied_ok c1 → rtc step c1 c2 →
  after_state c1 c2 ∧ applied_ok c2 ∧
  ∃ ll' h', leaders_le ll ll' ∧ log_inv members ll' h' c2.
Proof using Hmem.
  intros Inv Hap Hs.
  destruct (run_inv_steps ll c1 _ _ Hs) as (Hap2 & Hnet & ll' & h' & Hle & Inv2).
  - split_and!; [done| |].
    + split_and!; [done| |done]. intros i r r' Hr Hr'. simplify_eq. lia.
    + exists ll, h. split; [apply leaders_le_refl|done].
  - split_and!; [done|done|]. by exists ll', h'.
Qed.
End runs.

(** What was applied stays applied, and only grows. *)
Lemma applied_grows `{GoRand} c c' i :
  rtc step c c' → applied_of c i `prefix_of` applied_of c' i.
Proof.
  induction 1 as [|c c1 c2 (_ & e & Hex) _ IH]; [done|]. etransitivity; [|exact IH].
  assert (∀ j f, at_node c j f = Some c1 → applied c1 = applied c) as Hat.
  { intros j f Hf. unfold at_node in Hf. inv_seq. cbn [Messages] in Hf. by injection Hf as <-. }
  unfold applied_of. destruct e; simpl in Hex; try (by erewrite Hat).
  - case_decide; [|done]. by erewrite Hat.
  - inv_seq. simplify_eq. simpl. destruct (decide (i = i0)) as [->|Hne].
    + rewrite lookup_insert_eq. by apply prefix_app_r.
    + by rewrite lookup_insert_ne.
Qed.

(** In one state, what two nodes have applied is prefix-comparable. *)
Lemma applied_comparable `{GoRand} members ll h c i j r s :
  log_inv members ll h c → applied_ok c → nodes c !! i = Some r → nodes c !! j = Some s →
  applied_of c i `prefix_of` applied_of c j ∨ applied_of c j `prefix_of` applied_of c i.
Proof.
  intros Inv Hap Hr Hs. destruct (Hap i r Hr) as [Hlr ->], (Hap j s Hs) as [Hls ->].
  pose proof (node_wf _ _ _ _ Inv _ _ Hr) as Hwr.
  pose proof (node_wf _ _ _ _ Inv _ _ Hs) as Hws.
  pose proof (lg_commit _ _ _ _ Inv _ _ Hr) as Hcr.
  pose proof (lg_commit _ _ _ _ Inv _ _ Hs) as Hcs.
  assert (∀ la lb (l l' : list LogEntry), la ≤ lb → take (S la) l = take (S la) l' →
    take la (drop 1 l) `prefix_of` take lb (drop 1 l')) as Hpre.
  { intros la lb l l' Hle Heq. rewrite (take_drop_one _ _ _ Heq).
    replace la with (la `min` lb) by lia. rewrite <- take_take. apply take_prefix. }
  destruct (decide (lastApplied r ≤ lastApplied s)%N) as [Hle|Hgt];
    destruct (decide (commitIndex r ≤ commitIndex s)%N) as [Hc|Hc].
  - left. apply Hpre; [lia|]. eapply take_agree_le.
    + eapply (safe_agree members ll h c _ _ (log r) (log s)); try done. lia.
    + lia.
  - left. apply Hpre; [lia|]. symmetry. eapply take_agree_le.
    + eapply (safe_agree members ll h c _ _ (log s) (log r)); try done. lia.
    + lia.
  - right. apply Hpre; [lia|]. symmetry. eapply take_agree_le.
    + eapply (safe_agree members ll h c _ _ (log r) (log s)); try done. lia.
    + lia.
  - right. apply Hpre; [lia|]. eapply take_agree_le.
    + eapply (safe_agree members ll h c _ _ (log s) (log r)); try done. lia.
    + lia.
Qed.

(** A node has applied exactly [lastApplied] entries. *)
Lemma applied_count `{GoRand} members ll h c i r :
  log_inv members ll h c → applied_ok c → nodes c !! i = Some r →
  length (applied_of c i) = N.to_nat (lastApplied r).
Proof.
  intros Inv Hap Hr. destruct (Hap i r Hr) as [Hla ->].
  rewrite length_take, length_drop.
  assert (N.to_nat (lastApplied r) < length (log r)); [|lia].
  pose proof (log_wf_nonempty _ (node_wf _ _ _ _ Inv _ _ Hr)).
  destruct (lg_commit _ _ _ _ Inv _ _ Hr) as [Hz|(T & n & x & L & _ & _ & Hn & Hc & _ & Ht)];
    [lia|].
  apply (f_equal length) in Ht. rewrite !length_take in Ht.
  assert (n < length L) by (by eapply has_lt). lia.
Qed.

(** ** Theorems *)

(** C3: state machine safety. In a run without crashes, the sequences of
    entries that any two nodes have handed to their state machines, observed
    at any two moments, are prefix-comparable: no two nodes ever apply
    different entries at the same index. *)
Theorem state_machine_safety `{GoRand} members conf c0 c1 c2 i j :
  membership_ok members conf → initial members conf c0 →
  rtc step c0 c1 → rtc step c1 c2 → is_Some (nodes c2 !! i) → is_Some (nodes c2 !! j) →
  applied_of c1 i `prefix_of` applied_of c2 j ∨
  applied_of c2 j `prefix_of` applied_of c1 i.
Proof.
  intros [Hmem Hcf] Hini H01 H12 [r Hr] [s Hs].
  destruct (reachable_inv members conf Hmem Hcf c2) as (ll & h & Inv & Hap).
  { exists c0. split; [done|]. by transitivity c1. }
  pose proof (applied_comparable members ll h c2 i j r s Inv Hap Hr Hs) as Hcmp.
  pose proof (applied_grows c1 c2 i H12) as Hg.
  destruct Hcmp as [Hp|Hp].
  - left. by transitivity (applied_of c2 i).
  - by destruct (prefix_weak_total _ _ _ Hg Hp); [left|right].
Qed.

Lemma state_machine_safety_witness :
  length (applied_of trio_applied "a") = 2 ∧ length (applied_of trio3 "b") = 2 ∧
  (applied_of trio1 "a" `prefix_of` applied_of trio3 "b" ∨
   applied_of trio3 "b" `prefix_of` applied_of trio1 "a").
Proof.
  destruct trio_steps as (H01 & H12 & H23).
  split_and!; [by vm_compute..|].
  apply (state_machine_safety trio trio_conf trio0 trio1 trio3).
  - exact trio_membership.
  - exact trio0_initial.
  - done.
  - by transitivity trio2.
  - apply (bool_decide_unpack (is_Some _)). by vm_compute.
  - apply (bool_decide_unpack (is_Some _)). by vm_compute.
Defined.

(** C4: leader completeness. In a run without crashes, every entry up to the
    commit index of a node is in the log of every leader of the same or a
    later term, from then on. *)
Theorem committed_entries_in_later_leaders `{GoRand} members conf c0 c1 c2 i j r s k e :
  membership_ok members conf → initial members conf c0 →
  rtc step c0 c1 → rtc step c1 c2 →
  nodes c1 !! i = Some r → nodes c2 !! j = Some s →
  log r !! k = Some e → k ≤ N.to_nat (commitIndex r) →
  state s = Leader → (currentTerm r ≤ currentTerm s)%N →
  log s !! k = Some e.
Proof.
  intros [Hmem Hcf] Hini H01 H12 Hr Hs He Hk Hl HT.
  destruct (reachable_inv members conf Hmem Hcf c1) as (ll1 & h1 & Inv1 & Hap1).
  { by exists c0. }
  destruct (later_inv members Hmem c1 c2 ll1 h1 Inv1 Hap1 H12)
    as ((Hnet & _) & _ & ll2 & h2 & Hle & Inv2).
  pose proof (node_wf _ _ _ _ Inv1 _ _ Hr) as Hwr.
  pose proof (node_wf _ _ _ _ Inv2 _ _ Hs) as Hws.
  assert (take (S k) (log s) = take (S k) (log r)) as Heq.
  { pose proof (lg_commit _ _ _ _ Inv1 _ _ Hr) as Hsafe.
    apply (safe_grow _ _ _ _ _ Hle Hnet _ _ _ _ (N.le_refl _)) in Hsafe.
    destruct Hsafe as [H0|(T & n & x & L & HTr & HL & Hh & Hc & Hcm & Htk)].
    - assert (k = 0) as -> by lia.
      pose proof (log_wf_sentinel _ Hwr). pose proof (log_wf_sentinel _ Hws).
      destruct (log r), (log s); simpl in *; try done. rewrite !take_0. congruence.
    - rewrite (take_agree_le (S k) _ _ _ Htk) by lia.
      pose proof (lg_lead _ _ _ _ Inv2 _ _ Hs Hl) as HLs.
      destruct (decide (T = currentTerm s)) as [->|Hne]; [congruence|].
      assert (T < currentTerm s)%N as Hlt by lia.
      pose proof (leader_completeness _ _ _ _ Inv2 _ _ _ _ _ _ _ HL Hh Hcm Hlt HLs) as Hh'.
      apply (take_agree_le _ (S n)); [|lia]. destruct (lg_ok _ _ _ _ Inv2 _ _ _ HL).
      eapply sourced_agree; try done. by eapply (lg_log _ _ _ _ Inv2). }
  rewrite <- (lookup_take_lt (log s) (S k)), Heq by lia.
  by rewrite lookup_take_lt by lia.
Qed.

Lemma committed_entries_in_later_leaders_witness :
  commitIndex (the (nodes trio2 !! "a")) = 2%N ∧
  log (the (nodes trio3 !! "a")) !! 2 = Some (mkLogEntry 2 1 [x01] EntryCommand).
Proof.
  destruct trio_steps as (H01 & H12 & H23). split; [by vm_compute|].
  apply (committed_entries_in_later_leaders trio trio_conf trio0 trio2 trio3 "a" "a"
    (the (nodes trio2 !! "a")) (the (nodes trio3 !! "a")) 2).
  - exact trio_membership.
  - exact trio0_initial.
  - by transitivity trio1.
  - exact H23.
  - by vm_compute.
  - by vm_compute.
  - by vm_compute.
  - apply Nat.leb_le. by vm_compute.
  - by vm_compute.
  - by vm_compute.
Defined.

(** C5: log matching. In a run without crashes, if the logs of two nodes hold
    entries of the same term at the same index, the logs are equal up to that
    index. *)
Theorem log_matching `{GoRand} members conf c i j r s k e f :
  membership_ok members conf → reachable members conf c →
  nodes c !! i = Some r → nodes c !! j = Some s →
  log r !! k = Some e → log s !! k = Some f → eTerm e = eTerm f →
  take (S k) (log r) = take (S k) (log s).
Proof.
  intros [Hmem Hcf] Hre Hr Hs He Hf HT.
  destruct (reachable_inv members conf Hmem Hcf c Hre) as (ll & h & Inv & _).
  apply (sourced_agree ll _ _ (eTerm e)).
  - by eapply node_wf.
  - by eapply node_wf.
  - by eapply (lg_log _ _ _ _ Inv).
  - by eapply (lg_log _ _ _ _ Inv).
  - by exists e.
  - exists f. by split.
Qed.

Lemma log_matching_witness :
  let ra := the (nodes trio3 !! "a") in let rc := the (nodes trio3 !! "c") in
  take 3 (log ra) = take 3 (log rc) ∧ length (log ra) = 3.
Proof.
  cbv zeta. split; [|by vm_compute].
  apply (log_matching trio trio_conf trio3 "a" "c"
    (the (nodes trio3 !! "a")) (the (nodes trio3 !! "c")) 2
    (mkLogEntry 2 1 [x01] EntryCommand) (mkLogEntry 2 1 [x01] EntryCommand)).
  - exact trio_membership.
  - exists trio0. split; [exact trio0_initial|]. destruct trio_steps as (H01 & H12 & H23).
    transitivity trio1; [exact H01|]. by transitivity trio2.
  - by vm_compute.
  - by vm_compute.
  - by vm_compute.
  - by vm_compute.
  - reflexivity.
Defined.

(** C6: commitment is stable. In a run without crashes the term and the commit
    index of a node never decrease, and the entries up to its commit index are
    never overwritten. *)
Theorem committed_prefix_stable `{GoRand} members conf c0 c1 c2 i r r' :
  membership_ok members conf → initial members conf c0 →
  rtc step c0 c1 → rtc step c1 c2 →
  nodes c1 !! i = Some r → nodes c2 !! i = Some r' →
  (currentTerm r ≤ currentTerm r')%N ∧ (commitIndex r ≤ commitIndex r')%N ∧
  take (S (N.to_nat (commitIndex r))) (log r') =
  take (S (N.to_nat (commitIndex r))) (log r).
Proof.
  intros [Hmem Hcf] Hini H01 H12 Hr Hr'.
  destruct (reachable_inv members conf Hmem Hcf c1) as (ll1 & h1 & Inv1 & Hap1).
  { by exists c0. }
  destruct (later_inv members Hmem c1 c2 ll1 h1 Inv1 Hap1 H12)
    as ((Hnet & Hmono & _) & _ & ll2 & h2 & Hle & Inv2).
  destruct (Hmono _ _ _ Hr Hr') as [HT Hc]. split_and!; [done|done|]. symmetry.
  eapply (safe_agree members ll2 h2 c2 _ _ (log r) (log r') _ (N.to_nat (commitIndex r')));
    [done|..].
  - by apply (node_wf _ _ _ _ Inv1 i).
  - by apply (node_wf _ _ _ _ Inv2 i).
  - eapply (safe_grow _ _ _ _ _ Hle Hnet _ _ _ _ (N.le_refl _)).
    by apply (lg_commit _ _ _ _ Inv1 i).
  - by apply (lg_commit _ _ _ _ Inv2 i).
  - lia.
Qed.

Lemma committed_prefix_stable_witness :
  let r := the (nodes trio2 !! "a") in let r' := the (nodes trio3 !! "a") in
  (currentTerm r ≤ currentTerm r')%N ∧ (commitIndex r ≤ commitIndex r')%N ∧
  take (S (N.to_nat (commitIndex r))) (log r') =
  take (S (N.to_nat (commitIndex r))) (log r).
Proof.
  destruct trio_steps as (H01 & H12 & H23). cbv zeta.
  apply (committed_prefix_stable trio trio_conf trio0 trio2 trio3 "a").
  - exact trio_membership.
  - exact trio0_initial.
  - by transitivity trio1.
  - done.
  - by vm_compute.
  - by vm_compute.
Defined.

(** C8: replication safety does not survive a crash. In the three-node
    cluster, "a" applies an entry that it and "b" hold; "b" restarts with the
    term and vote that were saved and an empty log; "c" then wins the next term
    with the vote of "b" and applies a different entry at the same index.  The
    source never calls [Store.AppendEntries]. *)
Theorem restart_loses_committed_entry :
  ∃ c1 c2 c3 e f,
    reachable trio trio_conf c1 ∧ headroom c1 ∧ restart trio_conf c1 "b" = Some c2 ∧
    rtc step c2 c3 ∧
    applied_of c1 "a" !! 0 = Some e ∧ applied_of c3 "c" !! 0 = Some f ∧
    eIndex e = eIndex f ∧ eTerm e ≠ eTerm f.
Proof.
  destruct trio_steps as (H01 & H12 & _).
  exists trio_applied, trio_crashed, trio_lost.
  do 2 eexists. split_and!.
  - exists trio0. split; [exact trio0_initial|].
    transitivity trio1; [done|]. transitivity trio2; [done|].
    apply after_steps, (bool_decide_unpack (is_Some _)). by vm_compute.
  - apply (bool_decide_unpack _). by vm_compute.
  - by vm_compute.
  - apply after_steps, (bool_decide_unpack (is_Some _)). by vm_compute.
  - by vm_compute.
  - by vm_compute.
  - by vm_compute.
  - by vm_compute.
Qed.
