(* ===== verification/RaftSpec.v ===== *)
(** * What each operation of the Raft state machine promises

    Properties of single operations of src/raft/raft.go: absence of panics,
    the reconciliation of logs, the conflict hint, the commit rule, the
    partition of the committed log into applied batches, timing of elections
    and heartbeats, and the behaviours the documentation describes
    differently. *)

From S2P Require Import Prelude Pb Raft RaftWf Cluster ClusterTrans Sample Election.


Section total.
Context {GR : GoRand}.

(** C15: no panic. On a well-formed state with room for one more entry, a
    tick, a message whose term fits 64 bits and whose entries have the
    consecutive indices after its [PrevLogIndex] ([msg_wf]), a proposal, a
    configuration change and the hand-out of committed entries all return, and
    leave the state well formed: no index or slice bound is exceeded, no nil map
    is written, [rand.Intn] gets a positive bound.  The condition on messages is
    needed ([RaftGaps.malformed_requests_panic]). *)
Theorem operations_never_panic r m data addr :
  raft_wf r → log_room r → msg_wf m →
  returns (Tick r) raft_wf ∧ returns (Step r m) raft_wf ∧
  returns (Propose r data) (fun pr => raft_wf pr.2) ∧
  returns (ProposeConfigChange r addr) raft_wf ∧
  returns (ApplicableEntries r) (fun er => raft_wf er.2).
Proof.
  intros Hwf Hroom Hm. split_and!.
  - by apply Tick_returns.
  - by apply Step_returns.
  - by apply Propose_returns.
  - rewrite ProposeConfigChange_eq by (done || apply Hwf). apply returns_Some.
    case_decide; [done|]. by apply with_msgs_wf, appended_wf.
  - by apply ApplicableEntries_returns.
Qed.
End total.

(** ** Reconciling a follower's log *)

Section reconcile.
Context {GR : GoRand}.

Lemma merge_log_keeps l p es k : k ≤ p → p ≤ length l → take k (merge_log l p es) = take k l.
Proof.
  intros Hk Hp. destruct (merge_log_shape l p es Hp) as (n & _ & Hn & _ & [[_ ->]|(_ & -> & _)]);
    [done|]. rewrite take_app_le by (rewrite length_take; lia).
  rewrite take_take. f_equal. lia.
Qed.

Lemma merge_log_has l p es j e :
  p ≤ length l → es !! j = Some e →
  ∃ x, merge_log l p es !! (p + j) = Some x ∧ eTerm x = eTerm e.
Proof.
  intros Hp He. destruct (merge_log_shape l p es Hp) as (n & Hn & Hpn & Hm & Hcase).
  assert (j < n → ∃ x, l !! (p + j) = Some x ∧ eTerm x = eTerm e) as Hlow.
  { intros Hj. destruct (lookup_lt_is_Some_2 l (p + j)) as [x Hx]; [lia|].
    exists x. split; [done|]. by eapply Hm. }
  destruct Hcase as [[-> ->]|(Hlt & -> & _)].
  - apply Hlow. by apply lookup_lt_Some in He.
  - destruct (decide (j < n)) as [Hj|Hj].
    + destruct (Hlow Hj) as (x & Hx & ?). exists x. split; [|done].
      rewrite lookup_app_l by (rewrite length_take; lia). by rewrite lookup_take_lt by lia.
    + exists e. split; [|done]. rewrite lookup_app_r by (rewrite length_take; lia).
      rewrite length_take, lookup_drop, <- He. f_equal. lia.
Qed.

(** An entry beyond the message is dropped only after a term conflict. *)
Lemma merge_log_no_conflict l p es :
  p ≤ length l →
  (∀ j x e, l !! (p + j) = Some x → es !! j = Some e → eTerm x = eTerm e) →
  length (merge_log l p es) = length l `max` (p + length es) ∧
  take (length l) (merge_log l p es) = l.
Proof.
  intros Hp Hall. destruct (merge_log_shape l p es Hp) as (n & Hn & Hpn & _ & Hcase).
  destruct Hcase as [[-> ->]|(Hlt & -> & Hmis)]; [split; [lia|by rewrite take_ge]|].
  assert (p + n = length l) as Heq.
  { destruct (decide (p + n = length l)) as [|Hne]; [done|].
    destruct (lookup_lt_is_Some_2 l (p + n)) as [x Hx]; [lia|].
    destruct (lookup_lt_is_Some_2 es n) as [e He]; [lia|].
    destruct (Hmis x e Hx He). by eapply Hall. }
  rewrite Heq, (take_ge l) by lia. split; [rewrite length_app, length_drop; lia|].
  by rewrite take_app_length.
Qed.

(** The first [k] entries of [es] have counterparts of their terms in [l], from
    position [p] on. *)
Definition agree_for (l : list LogEntry) (p : nat) (es : list LogEntry) (k : nat) : Prop :=
  k ≤ length es ∧
  ∀ j e, j < k → es !! j = Some e → ∃ x, l !! (p + j) = Some x ∧ eTerm x = eTerm e.

(** What the append loop leaves, entry by entry. *)
Lemma merge_log_exact l p es :
  p ≤ length l →
  (agree_for l p es (length es) ∧ merge_log l p es = l) ∨
  (∃ k e, agree_for l p es k ∧ es !! k = Some e ∧
     (∀ x, l !! (p + k) = Some x → eTerm x ≠ eTerm e) ∧
     merge_log l p es = take (p + k) l ++ drop k es).
Proof.
  intros Hp. destruct (merge_log_shape l p es Hp) as (k & Hk & Hpk & Hm & Hcase).
  assert (agree_for l p es k) as Hag.
  { split; [done|]. intros j e Hj He. destruct (lookup_lt_is_Some_2 l (p + j)) as [x Hx]; [lia|].
    exists x. split; [done|]. by eapply Hm. }
  destruct Hcase as [[-> Heq]|(Hlt & Heq & Hmis)]; [by left|right].
  destruct (lookup_lt_is_Some_2 es k Hlt) as [e He]. exists k, e. split_and!; [done|done| |done].
  intros x Hx. by apply Hmis.
Qed.

Lemma heard_leader_commit r m : commitIndex (heard_leader r m) = commitIndex r.
Proof. unfold heard_leader. by case_decide. Qed.

(** C16: the follower's log after an AppendEntries request of its term whose
    consistency check passes. Either every entry sent has a counterpart of its
    term in the log, and the log stays as it is, entries beyond the ones sent
    included; or the log is cut at the first entry sent without a counterpart
    of its term (there is none at its index, or one of another term), and that
    entry and all after it are appended as they were sent, whatever stood
    there before. So the log is unchanged up to [PrevLogIndex] and holds an
    entry of the term of every entry sent; it keeps all it had unless some term
    conflicts. The reply accepts and names the last index; the commit index
    becomes [min(LeaderCommit, index of last new entry)] if that request's
    commit index is ahead. *)
Theorem append_entries_reconciles r m :
  raft_wf r → msg_wf m → mType m = MsgAppendEntries → mTerm m = currentTerm r →
  (mPrevLogIndex m < N.of_nat (length (log r)))%N →
  mPrevLogIndex m = 0%N ∨ log_term (log r) (mPrevLogIndex m) = mPrevLogTerm m →
  ∃ r', handleAppendEntries r m = Some r' ∧ state r' = Follower ∧
    let p := S (N.to_nat (mPrevLogIndex m)) in
    ((agree_for (log r) p (mEntries m) (length (mEntries m)) ∧ log r' = log r) ∨
     (∃ k e, agree_for (log r) p (mEntries m) k ∧ mEntries m !! k = Some e ∧
        (∀ x, log r !! (p + k) = Some x → eTerm x ≠ eTerm e) ∧
        log r' = take (p + k) (log r) ++ drop k (mEntries m))) ∧
    take p (log r') = take p (log r) ∧
    (∀ j e, mEntries m !! j = Some e →
       ∃ x, log r' !! (p + j) = Some x ∧ eTerm x = eTerm e) ∧
    ((∀ j x e, log r !! (p + j) = Some x → mEntries m !! j = Some e → eTerm x = eTerm e) →
       length (log r') = length (log r) `max` (p + length (mEntries m)) ∧
       take (length (log r)) (log r') = log r) ∧
    commitIndex r' = follower_commit r m ∧
    last (msgs r') = Some (append_reply r m (currentTerm r) false
      (N.of_nat (pred (length (log r'))))).
Proof.
  intros Hwf Hm Hty HT Hlt Hmatch.
  rewrite handleAppendEntries_eq;
    [|done|done|by apply msg_wf_prev|intros; by apply msg_wf_appendable; [apply Hwf|..]].
  rewrite decide_False by lia. rewrite decide_False by (destruct Hmatch; [lia|tauto]).
  eexists. split; [done|]. unfold accepted, send, merged. simpl.
  rewrite heard_leader_log.
  replace (N.to_nat (mPrevLogIndex m + 1)) with (S (N.to_nat (mPrevLogIndex m))) by lia.
  split_and!.
  - unfold heard_leader. cbv zeta. case_decide as Hst; [done|].
    by destruct (decide (state r = Follower)).
  - apply merge_log_exact. lia.
  - apply merge_log_keeps; lia.
  - intros j e He. apply (merge_log_has (log r) (S _) (mEntries m) j e); [lia|done].
  - apply (merge_log_no_conflict (log r) (S _) (mEntries m)). lia.
  - unfold follower_commit. by rewrite heard_leader_commit.
  - rewrite last_snoc, HT. done.
Qed.

(** The hint of a rejected request. If the log is too short, the reply
    carries its last index; if the terms at [PrevLogIndex] differ, every
    entry after the hint up to [PrevLogIndex] has the conflicting term and
    the hint is 0 or names an entry of another term: the leader skips the
    whole run of the conflicting term. The log is not touched. *)
Theorem conflict_hint_skips_term r m :
  raft_wf r → msg_wf m → mType m = MsgAppendEntries → mTerm m = currentTerm r →
  (0 < mPrevLogIndex m)%N →
  (mPrevLogIndex m < N.of_nat (length (log r)))%N →
  log_term (log r) (mPrevLogIndex m) ≠ mPrevLogTerm m →
  ∃ r' hint, handleAppendEntries r m = Some r' ∧ log r' = log r ∧
    last (msgs r') = Some (append_reply r m (currentTerm r) true hint) ∧
    (hint < mPrevLogIndex m)%N ∧
    (∀ j, (hint < j ≤ mPrevLogIndex m)%N →
       log_term (log r) j = log_term (log r) (mPrevLogIndex m)) ∧
    (hint = 0%N ∨ log_term (log r) hint ≠ log_term (log r) (mPrevLogIndex m)).
Proof.
  intros Hwf Hm Hty HT Hpos Hlt Hne.
  rewrite handleAppendEntries_eq;
    [|done|done|by apply msg_wf_prev|intros; by apply msg_wf_appendable; [apply Hwf|..]].
  rewrite decide_False by lia. rewrite decide_True by done.
  do 2 eexists. split; [done|]. unfold send. simpl. rewrite last_snoc, HT.
  split; [apply heard_leader_log|]. split; [done|]. unfold conflict_hint.
  set (t := log_term (log r) (mPrevLogIndex m)).
  assert (∀ n, 0 < n → let h := hint_loop (log r) t n in
    0 < h ≤ n ∧ (∀ j, h ≤ j < n → log_term (log r) (N.of_nat j) = t) ∧
    (h = 1 ∨ log_term (log r) (N.of_nat (pred h)) ≠ t)) as Hloop.
  { induction n as [|[|n] IH]; intros Hn; [lia| |].
    - simpl. split_and!; [lia|lia|intros; lia|by left].
    - rewrite hint_loop_SS. cbv zeta. case_decide as Ht.
      + destruct IH as (Hb & Hall & Hend); [lia|]. split_and!; [lia|lia| |done].
        intros j Hj. destruct (decide (j = S n)) as [->|]; [done|]. apply Hall. lia.
      + split_and!; [lia|lia|intros; lia|by right]. }
  destruct (Hloop (N.to_nat (mPrevLogIndex m))) as (Hb & Hall & Hend); [lia|].
  set (hh := hint_loop (log r) t (N.to_nat (mPrevLogIndex m))) in *.
  split_and!; [lia| |].
  - intros j Hj. destruct (decide (j = mPrevLogIndex m)) as [->|]; [done|].
    rewrite <- (N2Nat.id j). apply Hall. lia.
  - destruct Hend as [->|Hend]; [by left|by right].
Qed.
End reconcile.

(** ** Commitment and application *)

Section commit.
Context {GR : GoRand}.

Lemma quorum_count r n :
  (quorumSize r ≤ count_matches (matchIndex r) n (peers r) 1)%Z ↔
  length (peers r) + 1 <
    2 * S (length (filter (fun p => (n ≤ map_read 0 (matchIndex r) p)%N) (peers r))).
Proof.
  rewrite count_matches_filter. unfold quorumSize, clusterSize.
  set (f := filter _ _). rewrite Z.quot_div_nonneg by lia.
  set (len := Z.of_nat (length (peers r))).
  pose proof (Z.div_mod (len + 1) 2). pose proof (Z.mod_pos_bound (len + 1) 2). lia.
Qed.

(** C17: the commit rule. The leader's commit index moves to the last log
    position beyond it that holds an entry of the current term and is
    acknowledged by a strict majority of the cluster, the leader included;
    it does not move when there is no such position. *)
Theorem commit_rule r :
  raft_wf r →
  let committable n :=
    (commitIndex r < n < N.of_nat (length (log r)))%N ∧
    log_term (log r) n = currentTerm r ∧
    length (peers r) + 1 <
      2 * S (length (filter (fun p => (n ≤ map_read 0 (matchIndex r) p)%N) (peers r))) in
  (maybeAdvanceCommit r = Some r ∧ ∀ n, ¬ committable n) ∨
  (∃ c, maybeAdvanceCommit r = Some (r <| commitIndex := c |>) ∧ committable c ∧
     ∀ n, committable n → (n ≤ c)%N).
Proof.
  intros Hwf committable.
  assert (∀ n, committable n ↔
    (commitIndex r < n < N.of_nat (length (log r)))%N ∧ commitable r n) as Hiff.
  { intros n. unfold committable, commitable. rewrite quorum_count. tauto. }
  destruct (maybeAdvanceCommit_cases r) as [[Heq Hno]|(c & Heq & Hc & Hok & Hmax)];
    [apply Hwf|apply Hwf|left|right].
  - split; [done|]. intros n [Hn Hcn]%Hiff. by apply (Hno n).
  - exists c. split; [done|]. split; [by apply Hiff|].
    intros n [Hn Hcn]%Hiff. by apply Hmax.
Qed.

(** C18: every committed entry is handed out once, in order.  A call returns
    every entry of the log that is committed and not yet applied, each at its
    position after [lastApplied] and nothing else, moves [lastApplied] to the
    last of them, which is the commit index (or the end of the log where that
    comes first), and the next call has nothing to return. *)
Theorem applicable_entries_in_order r :
  raft_wf r →
  let la := N.max (lastApplied r) (N.min (commitIndex r) (N.of_nat (pred (length (log r))))) in
  ∃ es, ApplicableEntries r = Some (es, r <| lastApplied := la |>) ∧
    (∀ i, (lastApplied r < i ≤ commitIndex r)%N → N.to_nat i < length (log r) →
       ∃ e, log r !! N.to_nat i = Some e ∧ eIndex e = i ∧
         es !! N.to_nat (i - lastApplied r - 1) = Some e) ∧
    length es = N.to_nat (la - lastApplied r) ∧
    (∀ j e, es !! j = Some e →
       eIndex e = (lastApplied r + 1 + N.of_nat j)%N ∧
       log r !! N.to_nat (eIndex e) = Some e) ∧
    ApplicableEntries (r <| lastApplied := la |>) = Some ([], r <| lastApplied := la |>).
Proof.
  intros Hwf. pose proof (rw_log _ Hwf) as Hl. pose proof (log_wf_nonempty _ Hl).
  assert (∀ la, (apply_end r ≤ la)%N →
    ApplicableEntries (r <| lastApplied := la |>) = Some ([], r <| lastApplied := la |>))
    as Hidle.
  { intros la Hla. rewrite ApplicableEntries_eq by done. by rewrite decide_True. }
  fold (apply_end r). intros la. rewrite ApplicableEntries_eq by done. case_decide as Hend.
  - assert (la = lastApplied r) as -> by (unfold la; lia). exists []. split; [by destruct r|].
    split_and!; [|simpl; lia|done|by apply Hidle].
    intros i Hi Hlen. unfold apply_end in Hend. lia.
  - assert (la = apply_end r) as -> by (unfold la; lia).
    exists (take (N.to_nat (apply_end r - lastApplied r))
             (drop (N.to_nat (lastApplied r + 1)) (log r))).
    split; [done|]. split_and!; [| | |by apply Hidle].
    + intros i Hi Hlen. destruct (lookup_lt_is_Some_2 (log r) (N.to_nat i) Hlen) as [e He].
      exists e. split_and!; [done|by rewrite (log_wf_index _ Hl _ _ He), N2Nat.id|].
      rewrite lookup_take_lt by (unfold apply_end; lia). rewrite lookup_drop, <- He. f_equal. lia.
    + rewrite length_take, length_drop. unfold apply_end in *. lia.
    + intros j e [He Hj]%lookup_take_Some. rewrite lookup_drop in He.
      pose proof (log_wf_index _ Hl _ _ He) as Hi. split; [lia|].
      rewrite Hi, Nat2N.id. done.
Qed.
End commit.

(** ** Votes *)

Section votes.
Context {GR : GoRand}.

(** A pre-vote request is a query. Whatever its term, it leaves the
    state of the node as it was, but for the reply; the reply grants exactly
    if no active leader of that term or a later one is known, the term asked
    for is not stale, and the candidate's log is up to date. *)
Theorem prevote_is_a_query r m :
  raft_wf r → mType m = MsgRequestVote → mIsPreVote m = true →
  ∃ grant, Step r m = Some (send r (vote_reply r m true (negb grant))) ∧
    (grant = true ↔ (¬ (leaderActive r = true ∧ mTerm m ≤ currentTerm r) ∧
      currentTerm r ≤ mTerm m)%N ∧
      up_to_date (log r) (mLastLogIndex m) (mLastLogTerm m) = true).
Proof.
  intros Hwf Hty Hpre. rewrite Step_eq by apply Hwf.
  assert (stepped r m = r) as ->.
  { unfold stepped, raises_term. rewrite Hpre, Hty.
    rewrite (bool_decide_true (MsgRequestVote = MsgRequestVote ∨ _)) by auto. simpl.
    by rewrite andb_false_r. }
  unfold handle. rewrite Hty, handleRequestVote_eq by apply Hwf. rewrite Hpre.
  case_decide as Hact; [exists false; split; [done|naive_solver]|].
  eexists. split; [done|]. rewrite andb_true_iff, bool_decide_eq_true. tauto.
Qed.

Lemma handleRequestVote_grants s m :
  raft_wf s → mIsPreVote m = false → (mTerm m ≤ currentTerm s)%N →
  ∃ r' grant, handleRequestVote s m = Some r' ∧
    last (msgs r') = Some (vote_reply r' m false (negb grant)) ∧
    currentTerm r' = currentTerm s ∧ log r' = log s ∧
    (grant = true → votedFor r' = mFrom m) ∧
    (grant = true ↔
      up_to_date (log s) (mLastLogIndex m) (mLastLogTerm m) = true ∧
      mTerm m = currentTerm s ∧ leaderActive s = false ∧
      (votedFor s = NoneID ∨ votedFor s = mFrom m)).
Proof.
  intros Hwf Hpre Hle. rewrite handleRequestVote_eq by apply Hwf. rewrite Hpre.
  case_decide as Hact.
  { exists (send s (vote_reply s m false true)), false. split; [done|].
    unfold send. simpl. rewrite last_snoc. split_and!; try done.
    split; [done|]. intros (_ & _ & Hf & _). destruct Hact. congruence. }
  case_decide as Hst.
  { exists (send s (vote_reply s m false true)), false. split; [done|].
    unfold send. simpl. rewrite last_snoc. split_and!; try done.
    split; [done|]. intros (_ & ? & _). lia. }
  assert (leaderActive s = false) as Ha
    by (destruct (leaderActive s); [by destruct Hact|done]).
  assert (can_vote s m = true ↔ (votedFor s = NoneID ∨ votedFor s = mFrom m) ∧
    up_to_date (log s) (mLastLogIndex m) (mLastLogTerm m) = true) as Hg
    by (unfold can_vote; by rewrite andb_true_iff, bool_decide_eq_true).
  eexists _, (can_vote s m). split; [done|]. destruct (can_vote s m);
    unfold send; simpl; rewrite last_snoc; split_and!; try done; rewrite Hg;
    (split; [intros []; split_and!; done || lia|naive_solver]).
Qed.

(** C19: the vote. A request of a lower term is refused; one of the current
    term is granted exactly if no leader is active, the node has not voted
    for another candidate and the candidate's log is up to date; one of a
    higher term makes the node a follower of that term first, so it is
    granted exactly if the log is up to date. A granted vote is recorded
    before the reply is queued. *)
Theorem vote_granted_iff r m :
  raft_wf r → mType m = MsgRequestVote → mIsPreVote m = false →
  (mTerm m < two64)%N →
  ∃ r' grant, Step r m = Some r' ∧
    last (msgs r') = Some (vote_reply r' m false (negb grant)) ∧
    currentTerm r' = N.max (currentTerm r) (mTerm m) ∧ log r' = log r ∧
    (grant = true → votedFor r' = mFrom m) ∧
    (grant = true ↔
      up_to_date (log r) (mLastLogIndex m) (mLastLogTerm m) = true ∧
      ((currentTerm r < mTerm m)%N ∨
       mTerm m = currentTerm r ∧ leaderActive r = false ∧
       (votedFor r = NoneID ∨ votedFor r = mFrom m))).
Proof.
  intros Hwf Hty Hpre Hlt. rewrite Step_eq by apply Hwf. unfold handle. rewrite Hty.
  pose proof (stepped_wf r m Hwf Hlt) as Hwf'. pose proof (stepped_log r m) as Hlog.
  assert (mTerm m ≤ currentTerm (stepped r m))%N as Hle
    by (destruct (stepped_term r m) as [?|[? _]]; [done|congruence]).
  destruct (handleRequestVote_grants _ m Hwf' Hpre Hle)
    as (r' & g & Heq & Hrep & HT & Hl & Hv & Hg).
  exists r', g. rewrite Hlog in *. split_and!; [done|done| |done|done|].
  - rewrite HT. unfold stepped, raises_term in *. rewrite Hpre in *.
    destruct (decide (currentTerm r < mTerm m)%N) as [Hgt|Hge].
    + rewrite bool_decide_true by done. cbn [negb andb]. rewrite follower_of_term. lia.
    + rewrite bool_decide_false by done. cbn [negb andb]. lia.
  - rewrite Hg. clear -Hpre Hle Hty. unfold stepped, raises_term in *. rewrite Hpre in *.
    destruct (decide (currentTerm r < mTerm m)%N) as [Hgt|Hge].
    + rewrite bool_decide_true by done. cbn [negb andb]. rewrite follower_of_term.
      set (s := follower_of _ _ _).
      assert (votedFor s = NoneID) as -> by done.
      assert (leaderActive s = bool_decide ((if decide (mType m = MsgAppendEntries)
        then mFrom m else NoneID) ≠ NoneID)) as -> by done.
      split; [naive_solver|]. intros [Hup _]. split_and!; [done|done| |by left].
      rewrite Hty, decide_False by done. by rewrite bool_decide_false by (by intros []).
    + rewrite bool_decide_false by done. cbn [negb andb]. naive_solver lia.
Qed.

(** The order on logs that [isLogUpToDate] decides: [s] is at least as up to
    date as [r]. *)
Definition at_least (s r : Raft) : Prop :=
  ∃ i t, lastLogIndex s = Some i ∧ lastLogTerm s = Some t ∧
         isLogUpToDate r i t = Some true.

(** The check that candidates' logs must pass is a total preorder on
    well-formed logs: reflexive, transitive, and any two logs are
    comparable. *)
Theorem up_to_date_total_preorder :
  (∀ r, log_wf (log r) → at_least r r) ∧
  (∀ r s t, log_wf (log r) → log_wf (log s) → log_wf (log t) →
     at_least t s → at_least s r → at_least t r) ∧
  (∀ r s, log_wf (log r) → log_wf (log s) → at_least r s ∨ at_least s r).
Proof.
  assert (∀ r s, log_wf (log r) → log_wf (log s) →
    at_least s r ↔
    (last_term (log r) < last_term (log s))%N ∨
    (last_term (log r) = last_term (log s) ∧
     pred (length (log r)) ≤ pred (length (log s)))) as Hiff.
  { intros r s Hr Hs. unfold at_least.
    rewrite (lastLogIndex_wf s), (lastLogTerm_wf s) by done. split.
    - intros (i & t & [= <-] & [= <-] & Hup). rewrite isLogUpToDate_eq in Hup by done.
      injection Hup as Hup. unfold up_to_date in Hup.
      case_decide as Hne; apply bool_decide_eq_true in Hup; [by left|right].
      split; [|lia]. by destruct (decide (last_term (log r) = last_term (log s))).
    - intros Hle. do 2 eexists. split; [done|]. split; [done|].
      rewrite isLogUpToDate_eq by done. f_equal. unfold up_to_date.
      case_decide as Hne; apply bool_decide_eq_true; [|lia].
      destruct Hle as [?|[? _]]; [done|congruence]. }
  split_and!.
  - intros r Hr. apply Hiff; [done..|]. right. lia.
  - intros r s t Hr Hs Ht. rewrite !Hiff by done. lia.
  - intros r s Hr Hs. rewrite !Hiff by done. lia.
Qed.
End votes.

(** ** Witnesses *)

Lemma operations_never_panic_witness :
  returns (Tick leader_a) raft_wf ∧ returns (Step leader_a (sent 8)) raft_wf ∧
  returns (Propose leader_a [x02]) (fun pr => raft_wf pr.2) ∧
  returns (ProposeConfigChange leader_a "d") raft_wf ∧
  returns (ApplicableEntries leader_a) (fun er => raft_wf er.2).
Proof.
  apply (operations_never_panic leader_a (sent 8) [x02] "d").
  - exact leader_a_wf.
  - unfold log_room. by vm_compute.
  - apply sent_wf, (bool_decide_unpack (is_Some _)). by vm_compute.
Defined.

(** A request with an entry that conflicts with the last one of "b". *)
Definition overwriting : Message :=
  mkMessage MsgAppendEntries "a" "b" 1 1 1 [mkLogEntry 2 9 [x02] EntryCommand] 0 0 0 false false 0.

Lemma overwriting_wf : msg_wf overwriting.
Proof.
  split; [done|]. intros _. right. split; [done|]. intros [|j] e; [by intros [= <-]|done].
Qed.

Lemma append_entries_reconciles_witness :
  ∃ r', handleAppendEntries follower_b overwriting = Some r' ∧ state r' = Follower ∧
    log r' = take 2 (log follower_b) ++ [mkLogEntry 2 9 [x02] EntryCommand].
Proof.
  destruct (append_entries_reconciles follower_b overwriting) as (r' & Heq & Hst & Hlog & _).
  - exact follower_b_wf.
  - exact overwriting_wf.
  - by vm_compute.
  - by vm_compute.
  - by vm_compute.
  - right. by vm_compute.
  - exists r'. split; [exact Heq|]. split; [exact Hst|].
    destruct Hlog as [[[_ Hag] _]|(k & e & [Hk _] & He & _ & Hlog)].
    + destruct (Hag 0 _ (le_n 1) eq_refl) as (x & Hx & Ht).
      assert (eTerm <$> log follower_b !! 2 = Some 1%N) as H2 by (by vm_compute).
      change (log follower_b !! 2 = Some x) in Hx. rewrite Hx in H2. injection H2 as H2.
      rewrite H2 in Ht. discriminate Ht.
    + destruct k as [|k]; [exact Hlog|]. by apply lookup_lt_Some in He; simpl in He; lia.
Defined.

(** A request of the leader whose previous term differs. *)
Definition mismatched : Message :=
  mkMessage MsgAppendEntries "a" "b" 1 2 7 [] 0 0 0 false false 0.

Lemma conflict_hint_skips_term_witness :
  ∃ r' hint, handleAppendEntries follower_b mismatched = Some r' ∧ log r' = log follower_b ∧
    last (msgs r') = Some (append_reply follower_b mismatched 1 true hint) ∧ (hint < 2)%N.
Proof.
  destruct (conflict_hint_skips_term follower_b mismatched) as (r' & hint & H1 & H2 & H3 & H4 & _).
  - exact follower_b_wf.
  - split; [done|]. intros _. right. split; [done|]. by intros i e.
  - done.
  - by vm_compute.
  - done.
  - by vm_compute.
  - by vm_compute.
  - exists r', hint. split_and!; [exact H1|exact H2|exact H3|exact H4].
Defined.

Lemma commit_rule_witness :
  commitIndex leader_a = 2%N ∧ ∃ c, maybeAdvanceCommit leader_a = Some c ∧
    commitIndex c = 2%N.
Proof.
  split; [by vm_compute|].
  destruct (commit_rule leader_a leader_a_wf) as [[Heq _]|(c & Heq & Hc & _)].
  - exists leader_a. split; [exact Heq|by vm_compute].
  - exfalso. destruct Hc as ([H1 H2] & _).
    assert (commitIndex leader_a = 2%N) as He by (by vm_compute).
    assert (length (log leader_a) = 3) as Hl by (by vm_compute).
    rewrite He in H1. rewrite Hl in H2. clear - H1 H2. lia.
Defined.

(** The leader of [trio2] has committed two entries and applied none. *)
Lemma applicable_entries_in_order_witness :
  ∃ es e, ApplicableEntries leader_a = Some (es, leader_a <| lastApplied := 2%N |>) ∧
    log leader_a !! 2 = Some e ∧ es !! 1 = Some e.
Proof.
  assert (lastApplied leader_a = 0%N) as Hla by (by vm_compute).
  assert (commitIndex leader_a = 2%N) as Hci by (by vm_compute).
  assert (length (log leader_a) = 3) as Hlen by (by vm_compute).
  generalize leader_a leader_a_wf Hla Hci Hlen. clear. intros r Hwf Hla Hci Hlen.
  destruct (applicable_entries_in_order r Hwf) as (es & Heq & Hall & _).
  rewrite Hla, Hci, Hlen in Heq, Hall.
  destruct (Hall 2%N) as (e & He & _ & Hes); [by vm_compute|lia|].
  exists es, e. split; [exact Heq|split; [exact He|exact Hes]].
Defined.

Definition prevote_request : Message :=
  mkMessage MsgRequestVote "a" "c" 9 0 0 [] 0 2 1 true false 0.

Lemma prevote_is_a_query_witness :
  ∃ grant, Step follower_c prevote_request =
    Some (send follower_c (vote_reply follower_c prevote_request true (negb grant))).
Proof.
  destruct (prevote_is_a_query follower_c prevote_request) as (grant & Heq & _);
    [exact follower_c_wf|done|done|].
  exists grant. exact Heq.
Defined.

Lemma vote_granted_iff_witness :
  ∃ r' grant, Step follower_c (sent 1) = Some r' ∧ currentTerm r' = 1%N ∧
    last (msgs r') = Some (vote_reply r' (sent 1) false (negb grant)).
Proof.
  destruct (vote_granted_iff follower_c (sent 1)) as (r' & grant & H1 & H2 & H3 & _).
  - exact follower_c_wf.
  - by vm_compute.
  - by vm_compute.
  - by vm_compute.
  - exists r', grant. split_and!; [exact H1| |exact H2]. rewrite H3. by vm_compute.
Defined.

Lemma up_to_date_total_preorder_witness :
  at_least leader_a follower_b ∨ at_least follower_b leader_a.
Proof.
  apply (proj2 (proj2 up_to_date_total_preorder)).
  - apply rw_log, leader_a_wf.
  - apply rw_log, follower_b_wf.
Defined.
