(* ===== verification/RaftTiming.v ===== *)
(** * Time: elections, heartbeats and back-off

    How the tick counters of src/raft/raft.go drive elections and heartbeats,
    the range of the randomised timeout, and the exchange by which a leader
    finds the point where a follower's log agrees with its own. *)

From S2P Require Import Prelude Pb Raft RaftWf Cluster ClusterTrans Sample Election RaftSpec.

Section ticking.
Context {GR : GoRand}.

Fixpoint tick_n (n : nat) (r : Raft) : option Raft :=
  match n with
  | O => Some r
  | S n' => r' <- Tick r;; tick_n n' r'
  end.

Lemma tick_n_add n k r : tick_n (n + k) r = (r' <- tick_n n r;; tick_n k r').
Proof.
  revert r. induction n as [|n IH]; intros r; simpl; [done|].
  destruct (Tick r); simpl; [apply IH|done].
Qed.

(** Below the timeout a tick only counts. *)
Lemma tick_waits n r :
  state r ≠ Leader → (0 ≤ electionElapsed r)%Z →
  (electionElapsed r + Z.of_nat n < electionTimeout r)%Z →
  (electionTimeout r < 9223372036854775808)%Z →
  tick_n n r = Some (r <| electionElapsed := (electionElapsed r + Z.of_nat n)%Z |>).
Proof.
  revert r. induction n as [|n IH]; intros r Hst H0 Hlt Hb.
  { simpl. rewrite Z.add_0_r. by destruct r. }
  assert (Tick r = Some (r <| electionElapsed := (electionElapsed r + 1)%Z |>)) as HT.
  { unfold Tick, tickElection. cbv zeta. rewrite i64_small by lia.
    destruct (state r) eqn:Hs; [| |done]; (rewrite decide_False; [done|simpl; lia]). }
  simpl tick_n. rewrite HT. cbn [seq_bind]. rewrite IH; simpl; [|done|lia|lia|done].
  f_equal. unfold modify. simpl. f_equal. lia.
Qed.

(** With peers around, a node's own vote is no majority. *)
Lemma candidate_no_quorum r : peers r ≠ [] → quorum (candidate_of r) = false.
Proof.
  intros Hps. apply bool_decide_eq_false. rewrite count_true_granted.
  assert (granted (votes (candidate_of r)) = {[r_id r]}) as ->.
  { apply set_eq. intros x. rewrite elem_of_granted, elem_of_singleton.
    unfold candidate_of, map_read. simpl. destruct (decide (r_id r = x)) as [->|Hx].
    - by rewrite lookup_singleton_eq.
    - rewrite lookup_singleton_ne by done. simpl. naive_solver. }
  rewrite size_singleton. unfold quorumSize, clusterSize. simpl peers.
  destruct (peers r) as [|p ps]; [done|]. simpl length. rewrite Z.quot_div_nonneg by lia.
  pose proof (Z.div_le_lower_bound (Z.of_nat (S (length ps)) + 1) 2 1). lia.
Qed.

(** C20: elections are timed exactly. A node that is not leader and hears
    nothing changes neither its term, its role nor its vote, and sends
    nothing, before its election timeout; at the tick that reaches the
    timeout it starts an election in the next term, voting for itself and
    asking every peer with the index and term of its last entry. *)
Theorem election_exactly_at_timeout r n :
  raft_wf r → log_room r → state r ≠ Leader → msgs r = [] →
  (0 ≤ electionElapsed r)%Z → (electionTimeout r < 9223372036854775808)%Z →
  (electionElapsed r + Z.of_nat (S n) = electionTimeout r)%Z → peers r ≠ [] →
  (∀ k, k ≤ n → ∃ s, tick_n k r = Some s ∧
    currentTerm s = currentTerm r ∧ state s = state r ∧
    votedFor s = votedFor r ∧ msgs s = []) ∧
  ∃ s, tick_n (S n) r = Some s ∧
    currentTerm s = currentTerm r +u 1 ∧ state s = Candidate ∧ votedFor s = r_id r ∧
    leaderActive s = false ∧ electionElapsed s = 0%Z ∧
    msgs s = vote_request_to s <$> peers r.
Proof.
  intros Hwf Hroom Hst Hms H0 Hb Hn Hps. split.
  - intros k Hk. rewrite tick_waits by (done || lia). eexists. split; [done|]. done.
  - replace (S n) with (n + 1) by lia. rewrite tick_n_add, tick_waits by (done || lia).
    cbn [seq_bind tick_n]. set (r1 := r <| electionElapsed := _ |>).
    assert (Tick r1 = becomeCandidate (r1 <| electionElapsed := 0%Z |>
      <| leaderActive := false |>)) as ->.
    { unfold Tick, tickElection. cbv zeta. rewrite i64_small by (simpl; lia).
      simpl state. destruct (state r) eqn:Hs; [| |done];
        (rewrite decide_True; [done|simpl; lia]). }
    rewrite becomeCandidate_eq; [|apply Hwf|exact Hroom|apply Hwf]. cbv zeta.
    set (cd := candidate_of _).
    unfold cd. rewrite candidate_no_quorum by done.
    eexists. split; [done|]. unfold with_msgs. simpl. rewrite Hms. done.
Qed.

Lemma heartbeat_waits n r :
  state r = Leader → (0 ≤ heartbeatElapsed r)%Z →
  (heartbeatElapsed r + Z.of_nat n < heartbeatTimeout r)%Z →
  (heartbeatTimeout r < 9223372036854775808)%Z →
  tick_n n r = Some (r <| heartbeatElapsed := (heartbeatElapsed r + Z.of_nat n)%Z |>).
Proof.
  revert r. induction n as [|n IH]; intros r Hst H0 Hlt Hb.
  { simpl. rewrite Z.add_0_r. by destruct r. }
  assert (Tick r = Some (r <| heartbeatElapsed := (heartbeatElapsed r + 1)%Z |>)) as HT.
  { unfold Tick, tickHeartbeat. cbv zeta. rewrite i64_small by lia.
    rewrite Hst. rewrite decide_False; [done|simpl; lia]. }
  simpl tick_n. rewrite HT. cbn [seq_bind]. rewrite IH; simpl; [|done|lia|lia|done].
  f_equal. unfold modify. simpl. f_equal. lia.
Qed.

(** Heartbeats are timed exactly. A leader sends nothing before its
    heartbeat timeout; at the tick that reaches it, it sends each peer one
    AppendEntries request with that peer's missing entries, resets the
    counter, and forgets the acknowledgements of the previous round but its
    own. *)
Theorem heartbeat_exactly_at_timeout r n :
  raft_wf r → state r = Leader → msgs r = [] →
  (0 ≤ heartbeatElapsed r)%Z → (heartbeatTimeout r < 9223372036854775808)%Z →
  (heartbeatElapsed r + Z.of_nat (S n) = heartbeatTimeout r)%Z →
  (∀ k, k ≤ n → ∃ s, tick_n k r = Some s ∧ msgs s = []) ∧
  ∃ s, tick_n (S n) r = Some s ∧ msgs s = heartbeat_to r <$> peers r ∧
    heartbeatElapsed s = 0%Z ∧ heartbeatAcked s = 1%Z ∧
    currentTerm s = currentTerm r ∧ log s = log r ∧ commitIndex s = commitIndex r.
Proof.
  intros Hwf Hst Hms H0 Hb Hn. split.
  - intros k Hk. rewrite heartbeat_waits by (done || lia). eexists. split; [done|]. done.
  - replace (S n) with (n + 1) by lia. rewrite tick_n_add, heartbeat_waits by (done || lia).
    cbn [seq_bind tick_n]. unfold Tick, tickHeartbeat. simpl state. rewrite Hst. cbv zeta.
    rewrite i64_small by (simpl; lia). rewrite decide_True by (simpl; lia).
    rewrite broadcastHeartbeat_eq by apply Hwf. eexists. split; [done|].
    unfold with_msgs. simpl. by rewrite Hms.
Qed.

(** ** The randomised timeout *)

Definition timeout_ok (r : Raft) : Prop :=
  (0 < baseElectionTimeout r)%Z ∧
  (2 * baseElectionTimeout r ≤ 9223372036854775807)%Z ∧
  (baseElectionTimeout r ≤ electionTimeout r < 2 * baseElectionTimeout r)%Z.

Lemma timeout_value base seed k :
  (0 < base)%Z → (2 * base ≤ 9223372036854775807)%Z →
  (base ≤ i64 (base + intn_value seed k base) < 2 * base)%Z.
Proof.
  intros H0 Hb. pose proof (intn_value_range seed k _ H0) as Hv.
  set (v := intn_value _ _ _) in *. clearbody v.
  assert (i64 (base + v) = base + v)%Z as -> by (apply i64_small; lia). lia.
Qed.

Lemma timeout_ok_same r r' :
  baseElectionTimeout r' = baseElectionTimeout r → electionTimeout r' = electionTimeout r →
  timeout_ok r → timeout_ok r'.
Proof. unfold timeout_ok. by intros -> ->. Qed.

Lemma reset_timeout_base r : baseElectionTimeout (reset_timeout r) = baseElectionTimeout r.
Proof. reflexivity. Qed.

Lemma reset_timeout_drawn r :
  electionTimeout (reset_timeout r) =
  i64 (baseElectionTimeout r +
       intn_value (rSeed (rand r)) (rDraws (rand r)) (baseElectionTimeout r)).
Proof. reflexivity. Qed.

Lemma reset_timeout_ok r :
  (0 < baseElectionTimeout r)%Z → (2 * baseElectionTimeout r ≤ 9223372036854775807)%Z →
  timeout_ok (reset_timeout r).
Proof.
  intros H0 Hb. unfold timeout_ok. rewrite reset_timeout_base, reset_timeout_drawn.
  split; [done|]. split; [done|]. by apply timeout_value.
Qed.

Lemma syncTerm_timeout r : timeout_ok r → timeout_ok (syncTerm r).
Proof. by apply timeout_ok_same. Qed.

(** A reset after changes to fields other than the base. *)
Lemma reset_after r q :
  baseElectionTimeout q = baseElectionTimeout r → timeout_ok r →
  timeout_ok (syncTerm (reset_timeout q)).
Proof.
  intros Hq (H0 & Hb & _). apply syncTerm_timeout, reset_timeout_ok; by rewrite Hq.
Qed.

Lemma follower_of_timeout r t l : timeout_ok r → timeout_ok (follower_of r t l).
Proof. by apply reset_after. Qed.

Lemma candidate_of_timeout r : timeout_ok r → timeout_ok (candidate_of r).
Proof. by apply reset_after. Qed.

Lemma becomeCandidate_timeout r r' :
  log_wf (log r) → log_room r → timeout_ok r → becomeCandidate r = Some r' → timeout_ok r'.
Proof.
  intros Hwf Hroom Hok. pose proof (candidate_of_timeout r Hok) as Hc.
  rewrite becomeCandidate_eq by (done || apply Hok). cbv zeta.
  generalize dependent (candidate_of r). intros q Hq.
  destruct (quorum q); intros [= <-]; by apply (timeout_ok_same q).
Qed.

Lemma Tick_timeout r r' :
  raft_wf r → log_room r → timeout_ok r → Tick r = Some r' → timeout_ok r'.
Proof.
  intros Hwf Hroom Hok. unfold Tick, tickElection, tickHeartbeat. cbv zeta.
  assert (∀ q, log q = log r → baseElectionTimeout q = baseElectionTimeout r →
    electionTimeout q = electionTimeout r → becomeCandidate q = Some r' → timeout_ok r')
    as Hcand.
  { intros q Hl Hb He. apply becomeCandidate_timeout.
    - rewrite Hl. apply Hwf.
    - unfold log_room. by rewrite Hl.
    - by apply (timeout_ok_same r). }
  destruct (state r); case_decide; try (by intros [= <-]; apply (timeout_ok_same r));
    try (by apply Hcand).
  rewrite broadcastHeartbeat_eq by apply Hwf. intros [= <-]. by apply (timeout_ok_same r).
Qed.

Lemma becomeLeader_timeout r r' :
  log_wf (log r) → log_room r → timeout_ok r → becomeLeader r = Some r' → timeout_ok r'.
Proof.
  intros Hwf Hroom Hok. rewrite becomeLeader_eq by done. intros [= <-].
  by apply (timeout_ok_same r).
Qed.

Lemma maybeAdvanceCommit_loop_timeout k n r :
  timeout_ok r → timeout_ok (maybeAdvanceCommit_loop k n r).
Proof.
  revert n r. induction k as [|k IH]; intros n r Hok; cbn [maybeAdvanceCommit_loop]; [done|].
  apply IH. repeat case_decide; done.
Qed.

Lemma handleAppendEntriesResp_timeout r m r' :
  timeout_ok r → handleAppendEntriesResp r m = Some r' → timeout_ok r'.
Proof.
  intros Hok. unfold handleAppendEntriesResp.
  case_decide; [by intros [= <-]|]. case_decide; [by intros [= <-]|].
  destruct (mReject m).
  - intros Hres. repeat case_decide; inv_seq; injection Hres as <-; by eapply timeout_ok_same.
  - intros Hres. apply seq_bind_Some in Hres as (q & Hq & Hres).
    assert (timeout_ok q).
    { case_decide; inv_seq; injection Hq as <-; by eapply timeout_ok_same. }
    unfold maybeAdvanceCommit in Hres. inv_seq. injection Hres as <-.
    apply maybeAdvanceCommit_loop_timeout. by apply (timeout_ok_same q).
Qed.

Lemma handle_timeout r m r' :
  raft_wf r → log_room r → msg_wf m → timeout_ok r →
  (mType m = MsgAppendEntries → mTerm m ≤ currentTerm r)%N →
  handle r m = Some r' → timeout_ok r'.
Proof.
  intros Hwf Hroom Hm Hok Hle. unfold handle. destruct (mType m) eqn:Hty.
  - rewrite handleRequestVote_eq by apply Hwf.
    intros [= Heq]. revert Heq. repeat case_match; intros <-; by apply (timeout_ok_same r).
  - unfold handleRequestVoteResp. case_decide; [by intros [= <-]|].
    destruct (mIsPreVote m).
    + cbv zeta. intros Hres. inv_seq. case_decide.
      * apply (becomeCandidate_timeout (r <| preVotes := a |>)) in Hres; [done| |done|].
        -- apply Hwf.
        -- by apply (timeout_ok_same r).
      * injection Hres as <-. by eapply timeout_ok_same.
    + case_decide; [by intros [= <-]|]. intros Hres. inv_seq. cbv zeta in Hres.
      destruct (quorum _).
      * apply (becomeLeader_timeout (r <| votes := a |>)) in Hres; [done|apply Hwf|done|].
        by apply (timeout_ok_same r).
      * injection Hres as <-. by eapply timeout_ok_same.
  - specialize (Hle eq_refl).
    destruct (decide (mTerm m < currentTerm r)%N) as [Hlt|Hge].
    { rewrite handleAppendEntries_stale by done. intros [= <-]. by apply (timeout_ok_same r). }
    rewrite handleAppendEntries_eq;
      [|done|lia|by apply msg_wf_prev|intros; by apply msg_wf_appendable; [apply Hwf|..]].
    assert (timeout_ok (heard_leader r m)) as Hh.
    { unfold heard_leader. cbv zeta. case_decide; [apply follower_of_timeout|];
        by apply (timeout_ok_same r). }
    revert Hh. generalize (heard_leader r m). intros q Hh.
    repeat case_decide; intros [= <-]; by apply (timeout_ok_same q).
  - apply handleAppendEntriesResp_timeout; try done.
Qed.

(** The election timeout stays randomised within bounds. [NewRaft]
    draws it between the configured base and twice the base, and every tick,
    every message, and every reset on a change of role or term keeps it
    there, with no overflow of the sum. *)
Theorem election_timeout_in_range :
  (∀ cfg, config_wf cfg → (2 * cfgElectionTimeout cfg ≤ 9223372036854775807)%Z →
     ∃ r, NewRaft cfg = Some r ∧ timeout_ok r) ∧
  (∀ r r', raft_wf r → log_room r → timeout_ok r → Tick r = Some r' → timeout_ok r') ∧
  (∀ r m r', raft_wf r → log_room r → msg_wf m → timeout_ok r →
     Step r m = Some r' → timeout_ok r').
Proof.
  split_and!.
  - intros cfg Hcfg Hb. rewrite NewRaft_eq by done. eexists. split; [done|].
    destruct Hcfg as (H0 & _). unfold started. by apply reset_timeout_ok.
  - apply Tick_timeout.
  - intros r m r' Hwf Hroom Hm Hok. rewrite Step_eq by apply Hwf.
    apply handle_timeout; try done.
    + by apply stepped_wf; [|apply Hm].
    + unfold log_room. by rewrite stepped_log.
    + unfold stepped. destruct (raises_term r m); [by apply follower_of_timeout|done].
    + intros Hty. destruct (stepped_term r m) as [?|[_ [?|?]]]; congruence.
Qed.
End ticking.

(** ** Finding the point of agreement *)

Section backoff.
Context {GR : GoRand}.

(** One heartbeat of leader [r] to follower [s], and the reply. *)
Definition round (r s : Raft) : option (bool * Raft * Raft) :=
  m <- heartbeatMessage r (r_id s);;
  s' <- Step s m;;
  reply <- last (msgs s');;
  r' <- Step r reply;;
  Some (mReject reply, r', s' <| msgs := [] |>).

(** Heartbeats until one is accepted. *)
Fixpoint sync (fuel : nat) (r s : Raft) : option (Raft * Raft) :=
  match fuel with
  | O => None
  | S fuel' =>
      out <- round r s;;
      let '(rejected, r', s') := out in
      if rejected then sync fuel' r' s' else Some (r', s')
  end.

Definition next_of (r s : Raft) : N := map_read 0%N (nextIndex r) (r_id s).

Definition positive_terms (l : list LogEntry) : Prop :=
  ∀ k e, 0 < k → l !! k = Some e → eTerm e ≠ 0%N.

(** A leader and a node of no later term that it knows; a [nextIndex] past the
    end of the log asks for an entry of term 0, which no log has. *)
Record talk_ok (r s : Raft) : Prop := {
  tk_leader : raft_wf r;
  tk_follower : raft_wf s;
  tk_state : state r = Leader;
  tk_term : (currentTerm s ≤ currentTerm r)%N;
  tk_next : (1 ≤ next_of r s)%N;
  tk_noop : 1 < length (log r);
  tk_bound : (next_of r s ≤ N.of_nat (length (log r)))%N ∨ positive_terms (log s)
}.

(** A leader and a follower of its term, with [nextIndex] inside the log. *)
Record pair_ok (r s : Raft) : Prop := {
  po_leader : raft_wf r;
  po_follower : raft_wf s;
  po_state : state r = Leader;
  po_term : currentTerm s = currentTerm r;
  po_next : (1 ≤ next_of r s ≤ N.of_nat (length (log r)))%N;
  po_noop : 1 < length (log r)
}.

Lemma pair_talk r s : pair_ok r s → talk_ok r s.
Proof. intros []. split; try done; [lia..|]. left. lia. Qed.

Lemma same_term_step r m : raft_wf r → mTerm m = currentTerm r → Step r m = handle r m.
Proof.
  intros Hwf HT. rewrite Step_eq by apply Hwf. unfold stepped, raises_term.
  by rewrite bool_decide_false by lia.
Qed.

(** The state in which a request of a term not below the node's is handled. *)
Lemma stepped_to s m :
  mType m = MsgAppendEntries → (currentTerm s ≤ mTerm m)%N →
  currentTerm (stepped s m) = mTerm m ∧ r_id (stepped s m) = r_id s ∧
  msgs (stepped s m) = msgs s.
Proof.
  intros Hty HT. unfold stepped, raises_term. rewrite Hty.
  rewrite (bool_decide_false (_ ∨ _)) by (intros [?|?]; done). rewrite andb_false_r, andb_true_r.
  case_bool_decide; [done|]. split; [lia|done].
Qed.

(** The state in which such a request is compared with the log. *)
Lemma heard_of s m (q := heard_leader (stepped s m) m) :
  raft_wf s → msg_wf m → mType m = MsgAppendEntries → (currentTerm s ≤ mTerm m)%N →
  raft_wf q ∧ currentTerm q = mTerm m ∧ r_id q = r_id s ∧ msgs q = msgs s ∧ log q = log s.
Proof.
  intros Hs Hm Hty HT. destruct (stepped_to s m Hty HT) as (HTq & Hid & Hmsg). unfold q.
  rewrite heard_leader_id, heard_leader_msgs, heard_leader_log, stepped_log.
  split_and!; try done.
  - apply heard_leader_wf; [by apply stepped_wf; [|apply Hm]|apply Hm].
  - apply heard_leader_term; lia.
Qed.

(** What a follower's log is after it took the leader's entries from [n] on. *)
Lemma merged_covers (l ls : list LogEntry) (n : nat) :
  1 ≤ n ≤ length ls → n ≤ length l →
  let l' := merge_log ls n (drop n l) in
  length l ≤ length l' ≤ length ls `max` length l ∧
  ∀ k e, n ≤ k → l !! k = Some e → ∃ x, l' !! k = Some x ∧ eTerm x = eTerm e.
Proof.
  intros Hn Hnl. cbv zeta. split.
  - destruct (merge_log_shape ls n (drop n l)) as (k & Hk & Hpk & _ & Hcase); [lia|].
    rewrite length_drop in *. destruct Hcase as [[-> ->]|(_ & -> & _)]; [lia|].
    rewrite length_app, length_take, !length_drop. lia.
  - intros k e Hk He.
    destruct (merge_log_has ls n (drop n l) (k - n) e) as (x & Hx & Ht); [lia| |].
    { rewrite lookup_drop, <- He. f_equal. lia. }
    exists x. split; [|done]. rewrite <- Hx. f_equal. lia.
Qed.

(** Where the logs agree on the entry before [nextIndex], that is a position of
    the leader's log. *)
Lemma agreed_inside r s (p := (next_of r s - 1)%N) :
  talk_ok r s → (p < N.of_nat (length (log s)))%N →
  ¬ (0 < p ∧ log_term (log s) p ≠ log_term (log r) p)%N →
  (next_of r s ≤ N.of_nat (length (log r)))%N.
Proof.
  intros [Hr Hs Hl HT Hn Hno [?|Hpos]] Hp Hagree; [done|].
  destruct (decide (next_of r s ≤ N.of_nat (length (log r)))%N) as [|Hgt]; [done|].
  destruct Hagree. split; [lia|]. rewrite (log_term_ge (log r)) by lia.
  destruct (lookup_lt_is_Some_2 (log s) (N.to_nat p)) as [e He]; [lia|].
  rewrite (log_term_lookup_N _ _ _ He). apply (Hpos (N.to_nat p) e); [lia|done].
Qed.

(** The reply of a node to the leader's heartbeat: a rejection points below
    [nextIndex]; after an acceptance the log covers the leader's. *)
Lemma follower_reply r s :
  talk_ok r s →
  let m := heartbeat_to r (r_id s) in
  ∃ s' rej i, Step s m = Some s' ∧
    msgs s' = msgs s ++ [append_reply s m (currentTerm r) rej i] ∧
    raft_wf (s' <| msgs := [] |>) ∧ currentTerm s' = currentTerm r ∧ r_id s' = r_id s ∧
    length (log s') ≤ length (log s) `max` length (log r) ∧
    ((rej = true ∧ log s' = log s ∧ (1 < next_of r s)%N ∧ (i + 1 < next_of r s)%N) ∨
     (rej = false ∧ i = N.of_nat (pred (length (log s'))) ∧
      length (log r) ≤ length (log s') ∧
      ∀ k e, N.to_nat (next_of r s) ≤ k → log r !! k = Some e →
        ∃ x, log s' !! k = Some x ∧ eTerm x = eTerm e)).
Proof.
  intros Htk. destruct Htk as [Hr Hs Hl HT Hn Hno Hpos] eqn:Heq. clear Heq Hpos.
  cbv zeta. set (m := heartbeat_to r (r_id s)).
  assert (msg_wf m) as Hm by (by apply heartbeat_to_wf).
  assert (mType m = MsgAppendEntries) as Hty by done.
  pose proof (rw_next_u64 _ Hr (r_id s)) as Hu.
  assert (mPrevLogIndex m = next_of r s - 1)%N as Hprev
    by (unfold m, next_of in *; cbn [heartbeat_to mPrevLogIndex]; rewrite u64_sub_small; lia).
  assert (mPrevLogTerm m = log_term (log r) (next_of r s - 1)) as Hpt
    by (rewrite <- Hprev; done).
  assert (mEntries m = drop (N.to_nat (next_of r s)) (log r)) as Hes by done.
  rewrite Step_eq by apply Hs. unfold handle. rewrite Hty.
  destruct (stepped_to s m Hty HT) as (HTq & Hidq & _).
  assert (∀ t rej i, append_reply (stepped s m) m t rej i = append_reply s m t rej i) as Hrep
    by (intros; unfold append_reply; by rewrite Hidq).
  pose proof (stepped_wf s m Hs (proj1 Hm)) as Hwq.
  rewrite handleAppendEntries_eq;
    [|done|done|by apply msg_wf_prev|intros; by apply msg_wf_appendable; [apply Hwq|..]].
  rewrite !Hrep, stepped_log. change (mTerm m) with (currentTerm r).
  destruct (heard_of s m Hs Hm Hty HT) as (Hwf1 & HT1 & Hid & Hmsg & Hlog).
  change (mTerm m) with (currentTerm r) in HT1.
  generalize dependent (heard_leader (stepped s m) m). intros q Hwf1 HT1 Hid Hmsg Hlog.
  pose proof (log_wf_nonempty _ (rw_log _ Hs)) as Hne. clearbody m.
  case_decide as Hshort; [|case_decide as Hconf].
  - eexists _, true, _. split; [done|]. unfold send. simpl. split; [by rewrite Hmsg|].
    split; [wf_same|]. rewrite Hlog. split_and!; [congruence|congruence|lia|left].
    split_and!; [done|done|lia|lia].
  - eexists _, true, _. split; [done|]. unfold send. simpl. split; [by rewrite Hmsg|].
    split; [wf_same|]. rewrite Hlog. split_and!; [congruence|congruence|lia|left].
    destruct Hconf as [Hp _].
    destruct (hint_loop_bounds (log s) (log_term (log s) (mPrevLogIndex m))
      (N.to_nat (mPrevLogIndex m))) as [Hb1 Hb2].
    unfold conflict_hint. split_and!; [done|done|lia|lia].
  - assert (next_of r s ≤ N.of_nat (length (log r)))%N as Hin
      by (apply agreed_inside; [done|lia|by rewrite <- Hpt, <- Hprev]).
    assert (appendable q m) as Happ
      by (apply msg_wf_appendable; [apply Hwf1|done|done|rewrite Hlog; lia]).
    pose proof (accepted_wf q m Hwf1 Happ) as Hwfa.
    assert (merged q m = merge_log (log s) (N.to_nat (next_of r s)) (drop (N.to_nat (next_of r s)) (log r)))
      as Hmg by (unfold merged; rewrite Hlog, Hes; do 2 f_equal; lia).
    destruct (merged_covers (log r) (log s) (N.to_nat (next_of r s))) as [Hlen Hcov]; [lia..|].
    rewrite <- Hmg in Hlen, Hcov. unfold accepted in *.
    eexists _, false, _. split; [done|]. unfold send. simpl.
    split; [rewrite Hmsg; unfold merged; by rewrite Hlog|]. split; [wf_same|].
    split_and!; [congruence|congruence|lia|right].
    split_and!; [done|unfold merged; by rewrite Hlog|lia|exact Hcov].
Qed.

(** The fields of a leader that a reply leaves alone. *)
Record same_lead (r r' : Raft) : Prop := {
  sl_state : state r' = state r;
  sl_term : currentTerm r' = currentTerm r;
  sl_log : log r' = log r;
  sl_id : r_id r' = r_id r;
  sl_peers : peers r' = peers r;
  sl_msgs : msgs r' = msgs r;
  sl_heart : heartbeatTimeout r' = heartbeatTimeout r
}.

Definition reply_of (r : Raft) (p : string) (rej : bool) (i : N) (a : Message) : Prop :=
  mType a = MsgAppendEntriesResp ∧ mFrom a = p ∧ mTerm a = currentTerm r ∧
  mReject a = rej ∧ mIndex a = i.

(** A rejection lowers [nextIndex], which stays positive. *)
Lemma leader_rejected r p i a (n := map_read 0%N (nextIndex r) p) :
  raft_wf r → state r = Leader → reply_of r p true i a → (1 < n)%N → (i + 1 < n)%N →
  ∃ r', Step r a = Some r' ∧ raft_wf r' ∧ same_lead r r' ∧ matchIndex r' = matchIndex r ∧
    commitIndex r' = commitIndex r ∧ (1 ≤ map_read 0%N (nextIndex r') p < n)%N.
Proof.
  intros Hr Hl (Hty & Hfr & HT & Hrej & Hi) H1 Hin. subst n.
  pose proof (rw_next_u64 _ Hr p) as Hb.
  destruct (handleAppendEntriesResp_returns r a Hr) as (r' & Hr' & Hwf').
  exists r'. rewrite same_term_step by done. unfold handle. rewrite Hty.
  split; [exact Hr'|]. split; [done|]. clear Hwf'.
  unfold handleAppendEntriesResp in Hr'.
  rewrite decide_False in Hr' by (rewrite Hl; auto). rewrite decide_False in Hr' by auto.
  rewrite Hrej, Hfr, Hi in Hr'. destruct (rw_next _ Hr Hl) as [ni Hni]. rewrite Hni in *.
  case_decide as H0; [|rewrite decide_True in Hr' by done];
    cbn [map_write seq_bind] in Hr'; injection Hr' as <-; (split; [by split|]); simpl;
    rewrite map_read_write_eq; split_and!; try done;
    (rewrite u64_add_small || rewrite u64_sub_small); lia.
Qed.

(** Advancing the commit index reaches every position that passes the test. *)
Lemma maybeAdvanceCommit_reaches r :
  raft_wf r → ∃ r', maybeAdvanceCommit r = Some r' ∧ same_lead r r' ∧
    matchIndex r' = matchIndex r ∧ (commitIndex r ≤ commitIndex r')%N ∧
    ∀ c, (c < N.of_nat (length (log r)))%N → commitable r c → (c ≤ commitIndex r')%N.
Proof.
  intros Hwf. destruct (maybeAdvanceCommit_cases r) as
    [[-> Hno]|(c & -> & Hc & _ & Hmax)]; [apply Hwf|apply Hwf|..];
    (eexists; split; [done|]; split; [by split|]; split; [done|]).
  - split; [lia|]. intros c Hc Hcm.
    destruct (decide (c ≤ commitIndex r)%N) as [|Hgt]; [done|]. exfalso. apply (Hno c); [lia|done].
  - simpl. split; [lia|]. intros c' Hc' Hcm.
    destruct (decide (c' ≤ commitIndex r)%N) as [|Hgt]; [lia|]. apply Hmax; [lia|done].
Qed.

(** An acceptance is recorded, and every position that the replies now cover
    is committed. *)
Lemma leader_accepted r p i a :
  raft_wf r → state r = Leader → reply_of r p false i a → (0 < i)%N →
  ∃ r' mi, Step r a = Some r' ∧ same_lead r r' ∧ matchIndex r = Some mi ∧
    matchIndex r' = Some (<[p := i]> mi) ∧ (commitIndex r ≤ commitIndex r')%N ∧
    ∀ c, (c < N.of_nat (length (log r)))%N → log_term (log r) c = currentTerm r →
      (quorumSize r ≤ count_matches (Some (<[p := i]> mi)) c (peers r) 1)%Z →
      (c ≤ commitIndex r')%N.
Proof.
  intros Hr Hl (Hty & Hfr & HT & Hrej & Hi) H0.
  destruct (rw_next _ Hr Hl) as [ni Hni]. destruct (rw_match _ Hr Hl) as [mi Hmi].
  set (r1 := r <| matchIndex := Some (<[p := i]> mi) |> <| nextIndex := Some (<[p := i +u 1]> ni) |>
               <| heartbeatAcked := i64 (heartbeatAcked r + 1) |>).
  assert (raft_wf r1) as Hwf1.
  { assert (map_u64 (nextIndex r1)) as Hu.
    { apply map_u64_insert; [|apply u64_lt]. rewrite <- Hni. apply Hr. }
    clear -Hr Hu. subst r1. destruct Hr. split; try done; by eexists. }
  destruct (maybeAdvanceCommit_reaches r1 Hwf1) as (r' & Hr' & Hsame & Hm & Hc & Hall).
  exists r', mi. rewrite same_term_step by done. unfold handle. rewrite Hty.
  split; [|split; [by destruct Hsame; split|]].
  - unfold handleAppendEntriesResp.
    rewrite decide_False by (rewrite Hl; auto). rewrite decide_False by auto.
    rewrite Hrej, Hfr, Hi, Hni, Hmi, decide_True by done. exact Hr'.
  - split_and!; [done|done|done|]. intros c Hlt Hlt' Hq. apply Hall; [done|]. by split.
Qed.

(** C21: a leader brings a follower up to date. Exchanging heartbeats and
    replies with a follower of its term, and nothing else, a leader whose
    [nextIndex] for it is [n] gets an acceptance within [n] rounds: every
    rejection lowers [nextIndex], which stays at least 1. The follower then
    has an entry of the leader's term at every position from the accepted
    one to the end of the leader's log, and the leader records its last
    index as matched. *)
Theorem backoff_terminates r s :
  pair_ok r s →
  ∃ r' s' p, sync (N.to_nat (next_of r s)) r s = Some (r', s') ∧
    log r' = log r ∧ length (log r) ≤ length (log s') ∧
    1 ≤ p ≤ N.to_nat (next_of r s) ∧
    (∀ k e, p ≤ k → log r !! k = Some e → ∃ x, log s' !! k = Some x ∧ eTerm x = eTerm e) ∧
    map_read 0%N (matchIndex r') (r_id s) = N.of_nat (pred (length (log s'))).
Proof.
  remember (N.to_nat (next_of r s)) as n eqn:Hn. 
  assert (N.to_nat (next_of r s) ≤ n) as Hle by lia. clear Hn.
  revert r s Hle. induction n as [|n IH]; intros r s Hle Hok;
    pose proof Hok as [Hr Hs Hl HT Hnx Hno]; [lia|].
  destruct (follower_reply r s (pair_talk _ _ Hok)) as
    (s' & rej & i & Hstep & Hrep & Hwfs & HTs & Hid & _ & Hcase).
  pose proof (heartbeatMessage_eq r (r_id s) (rw_log _ Hr)) as Hmsg.
  cbn [sync]. unfold round. rewrite Hmsg. cbn [seq_bind]. rewrite Hstep. cbn [seq_bind].
  rewrite Hrep, last_snoc. cbn [seq_bind].
  destruct Hcase as [(-> & Hlog & H1 & Hi)|(-> & -> & Hlen & Hent)].
  - destruct (leader_rejected r (r_id s) i (append_reply s (heartbeat_to r (r_id s)) (currentTerm r) true i))
      as (r' & Hr' & Hwfr & [Hlr HTr Hlogr _ _ _ _] & _ & _ & Hnext); [done..|].
    rewrite Hr'. cbn [seq_bind append_reply mReject].
    assert (next_of r' (s' <| msgs := [] |>) = map_read 0%N (nextIndex r') (r_id s)) as Hno'
      by (unfold next_of; cbn; by rewrite Hid).
    destruct (IH r' (s' <| msgs := [] |>)) as (r2 & s2 & p & Hsync & Hl2 & Hlen2 & Hp & Hent & Hm).
    + unfold next_of in *. lia.
    + split; try done; [congruence|simpl; congruence|rewrite Hno', Hlogr; unfold next_of in *; lia|by rewrite Hlogr].
    + exists r2, s2, p. rewrite Hlogr in *. cbn [r_id] in Hm. unfold next_of in *.
      split_and!; try done; try lia. rewrite <- Hm. simpl. by rewrite Hid.
  - set (i := N.of_nat (pred (length (log s')))).
    destruct (leader_accepted r (r_id s) i (append_reply s (heartbeat_to r (r_id s)) (currentTerm r) false i))
      as (r' & mi & Hr' & [_ _ Hlr _ _ _ _] & _ & Hm & _); [done..|unfold i; lia|].
    rewrite Hr'. cbn [seq_bind append_reply mReject].
    exists r', (s' <| msgs := [] |>), (N.to_nat (next_of r s)).
    split_and!; try done; try lia. rewrite Hm, map_read_write_eq. done.
Qed.
End backoff.

(** ** Witnesses *)

Lemma election_exactly_at_timeout_witness :
  ∃ s, tick_n 7 follower_c = Some s ∧ state s = Candidate ∧ length (msgs s) = 2.
Proof.
  destruct (election_exactly_at_timeout follower_c 6) as [_ (s & Hs & _ & Hst & _ & _ & _ & Hm)].
  - exact follower_c_wf.
  - unfold log_room. by vm_compute.
  - intros Hl. assert (state follower_c = Follower) as Hf by (by vm_compute). congruence.
  - by vm_compute.
  - by vm_compute.
  - by vm_compute.
  - by vm_compute.
  - intros Hp. assert (peers follower_c = ["a"; "b"]) as Hf by (by vm_compute). congruence.
  - exists s. split; [exact Hs|]. split; [exact Hst|]. rewrite Hm, length_fmap. by vm_compute.
Defined.

Lemma heartbeat_exactly_at_timeout_witness :
  ∃ s, tick_n 2 leader_a = Some s ∧ msgs s = heartbeat_to leader_a <$> peers leader_a.
Proof.
  destruct (heartbeat_exactly_at_timeout leader_a 1) as [_ (s & Hs & Hm & _)].
  - exact leader_a_wf.
  - by vm_compute.
  - by vm_compute.
  - by vm_compute.
  - by vm_compute.
  - by vm_compute.
  - exists s. split; [exact Hs|exact Hm].
Defined.

Lemma election_timeout_in_range_witness :
  ∃ r, NewRaft (trio_conf "a") = Some r ∧ timeout_ok r.
Proof.
  apply (proj1 election_timeout_in_range).
  - apply (fresh_config_wf trio "a"), trio_fresh, (bool_decide_unpack _). by vm_compute.
  - by vm_compute.
Defined.

Lemma backoff_terminates_witness :
  ∃ r' s', sync 3 leader_a crashed_b = Some (r', s') ∧ length (log s') = 3.
Proof.
  assert (pair_ok leader_a crashed_b) as Hok.
  { split.
    - exact leader_a_wf.
    - apply started_wf, crashed_b_conf_wf.
    - by vm_compute.
    - by vm_compute.
    - by vm_compute.
    - apply Nat.ltb_lt. by vm_compute. }
  destruct (backoff_terminates leader_a crashed_b Hok) as (r' & s' & p & Hs & _).
  assert (N.to_nat (next_of leader_a crashed_b) = 3) as H3 by (by vm_compute).
  rewrite H3 in Hs. exists r', s'. split; [exact Hs|].
  assert (Some 3 = (fun rs : Raft * Raft => length (log rs.2)) <$> sync 3 leader_a crashed_b)
    as Hl by (by vm_compute).
  rewrite Hs in Hl. by injection Hl as <-.
Defined.
