(* ===== verification/RaftGaps.v ===== *)
(** * Where the behaviour and the documentation part

    Theorems about behaviours of src/raft/raft.go that its comments or the
    README describe differently: a single-node cluster, the read lease, nodes
    added at run time, and the pre-vote phase; and requests that only a faulty
    sender makes. *)

From S2P Require Import Prelude Pb Raft RaftWf Cluster ClusterTrans Election Logs LogInv LogStep RaftTiming Sample.

(** ** A cluster of one *)

Section solo.
Context {GR : GoRand}.

(** The operations a node without peers goes through: nobody sends it
    messages. *)
Inductive LocalOp := LTick | LPropose (data : bytes) | LConfig (addr : string) | LApply.

Definition local_op (r : Raft) (op : LocalOp) : option Raft :=
  match op with
  | LTick => Tick r
  | LPropose d => pr <- Propose r d;; Some pr.2
  | LConfig a => ProposeConfigChange r a
  | LApply => er <- ApplicableEntries r;; Some er.2
  end.

Fixpoint local_ops (r : Raft) (ops : list LocalOp) : option Raft :=
  match ops with
  | [] => Some r
  | op :: ops' => r' <- local_op r op;; local_ops r' ops'
  end.

Definition same_commit (r r' : Raft) : Prop :=
  commitIndex r' = commitIndex r ∧ peers r' = peers r ∧
  (peers r = [] → msgs r' = msgs r).

Lemma same_commit_refl r : same_commit r r.
Proof. done. Qed.

Lemma same_commit_trans r1 r2 r3 : same_commit r1 r2 → same_commit r2 r3 → same_commit r1 r3.
Proof.
  intros (Hc1 & Hp1 & Hm1) (Hc2 & Hp2 & Hm2). split_and!; [congruence|congruence|].
  intros Hp. rewrite Hm2, Hm1; congruence.
Qed.

Lemma broadcastHeartbeat_loop_commit ps r r' :
  broadcastHeartbeat_loop ps r = Some r' →
  commitIndex r' = commitIndex r ∧ peers r' = peers r ∧ (ps = [] → msgs r' = msgs r).
Proof.
  revert r. induction ps as [|p ps IH]; cbn [broadcastHeartbeat_loop]; intros r Hb;
    [by injection Hb as <-|].
  inv_seq. by destruct (IH _ Hb) as (-> & -> & _).
Qed.

Lemma broadcastHeartbeat_commit r r' : broadcastHeartbeat r = Some r' → same_commit r r'.
Proof. apply broadcastHeartbeat_loop_commit. Qed.

Lemma resetElectionTimeout_commit r r' : resetElectionTimeout r = Some r' → same_commit r r'.
Proof. unfold resetElectionTimeout. intros H. inv_seq. destruct a. by injection H as <-. Qed.

Lemma becomeLeader_commit r r' : becomeLeader r = Some r' → same_commit r r'.
Proof. unfold becomeLeader. cbv zeta. intros H. inv_seq. by apply broadcastHeartbeat_commit in H. Qed.

Lemma broadcastRequestVote_commit r r' : broadcastRequestVote r = Some r' → same_commit r r'.
Proof.
  unfold broadcastRequestVote. intros H. inv_seq. injection H as <-. clear.
  assert (∀ ps q, let q' := broadcastRequestVote_loop a a0 ps q in
    commitIndex q' = commitIndex q ∧ peers q' = peers q ∧ (ps = [] → msgs q' = msgs q))
    as Hloop.
  { induction ps as [|p ps IH]; intros q; cbn [broadcastRequestVote_loop]; [done|].
    cbv zeta. match goal with |- context [broadcastRequestVote_loop _ _ _ ?x] =>
      destruct (IH x) as (-> & -> & _) end. done. }
  apply Hloop.
Qed.

Lemma becomeCandidate_commit r r' : becomeCandidate r = Some r' → same_commit r r'.
Proof.
  unfold becomeCandidate. cbv zeta. intros H.
  apply seq_bind_Some in H as (q & Hq%resetElectionTimeout_commit & H).
  assert (same_commit (syncTerm q) r') as Hs.
  { destruct (quorum (syncTerm q));
      [by apply becomeLeader_commit|by apply broadcastRequestVote_commit]. }
  eapply same_commit_trans; [|exact Hs]. eapply same_commit_trans; [|by split_and!].
  destruct Hq as (Hc & Hp & Hm). split_and!; [exact Hc|exact Hp|exact Hm].
Qed.

Lemma local_op_commit r op r' :
  commitIndex r = 0%N → local_op r op = Some r' →
  same_commit r r'.
Proof.
  intros Hc. destruct op; simpl.
  - unfold Tick, tickElection, tickHeartbeat. cbv zeta.
    destruct (state r); case_decide; try (by intros [= <-]);
      (intros Hb%becomeCandidate_commit || intros Hb%broadcastHeartbeat_commit); done.
  - intros Hop. inv_seq. injection Hop as <-. unfold Propose in Hm.
    case_decide; [by injection Hm as <-|].
    apply seq_bind_Some in Hm as (l & Hl & Hm).
    apply seq_bind_Some in Hm as (r1 & Hr1 & Hm).
    apply seq_bind_Some in Hm as (r2 & Hr2%broadcastHeartbeat_commit & Hm).
    injection Hm as <-. apply (same_commit_trans _ r1); [|done].
    destruct (matchIndex _); inv_seq; by injection Hr1 as <-.
  - unfold ProposeConfigChange. case_decide; [by intros [= <-]|]. intros Hop. inv_seq.
    by apply broadcastHeartbeat_commit in Hop.
  - intros H. inv_seq. injection H as <-. unfold ApplicableEntries in Hm.
    rewrite decide_True in Hm by lia. by injection Hm as <-.
Qed.

(** C22: a single-node cluster commits nothing. A node without peers that
    goes through any sequence of ticks, proposals and hand-outs keeps commit
    index 0, never gives its state machine an entry and sends nothing, although
    it elects itself and accepts proposals: only [handleAppendEntriesResp], which
    needs a peer, calls [maybeAdvanceCommit]. *)
Theorem single_node_never_commits cfg r0 ops r :
  config_wf cfg → cfgPeers cfg = [] → NewRaft cfg = Some r0 →
  local_ops r0 ops = Some r →
  msgs r = [] ∧ commitIndex r = 0%N ∧ ApplicableEntries r = Some ([], r).
Proof.
  intros Hwf Hps Hnew. rewrite NewRaft_eq in Hnew by done. injection Hnew as <-.
  intros Hops.
  assert (commitIndex (started cfg) = 0%N) as H0 by reflexivity.
  assert (peers (started cfg) = []) as Hp by done.
  assert (msgs (started cfg) = []) as Hms by reflexivity.
  revert H0 Hp Hms Hops. generalize (started cfg).
  induction ops as [|op ops IH]; simpl; intros q H0 Hp Hms.
  - intros [= <-]. split_and!; [done|done|].
    unfold ApplicableEntries. by rewrite decide_True by lia.
  - intros Hops. inv_seq. destruct (local_op_commit q op a) as (Hc & Hp' & Hm'); [done..|].
    apply (IH a); [congruence|congruence| |done]. rewrite Hm'; done.
Qed.
End solo.

(** ** The read lease *)

Section lease.
Context {GR : GoRand}.

Fixpoint step_n (n : nat) (r : Raft) (m : Message) : option Raft :=
  match n with
  | O => Some r
  | S n' => r' <- Step r m;; step_n n' r' m
  end.

Lemma maybeAdvanceCommit_loop_lease k n r :
  let r' := maybeAdvanceCommit_loop k n r in
  state r' = state r ∧ currentTerm r' = currentTerm r ∧ peers r' = peers r ∧
  heartbeatAcked r' = heartbeatAcked r.
Proof.
  revert n r. induction k as [|k IH]; intros n r; cbn [maybeAdvanceCommit_loop]; [done|].
  cbv zeta. match goal with |- context [maybeAdvanceCommit_loop k ?n' ?x] =>
    destruct (IH n' x) as (-> & -> & -> & ->) end. repeat case_decide; done.
Qed.

Lemma ack_counts r m :
  raft_wf r → state r = Leader → is_ack m → mTerm m = currentTerm r →
  (0 ≤ heartbeatAcked r < 9223372036854775807)%Z →
  ∃ r', Step r m = Some r' ∧ raft_wf r' ∧ state r' = Leader ∧
    currentTerm r' = currentTerm r ∧ peers r' = peers r ∧
    heartbeatAcked r' = (heartbeatAcked r + 1)%Z.
Proof.
  intros Hwf Hl [Hty Hrej] HT Hb.
  destruct (handleAppendEntriesResp_returns r m Hwf) as (r' & Hr' & Hwf').
  exists r'. rewrite same_term_step by done. unfold handle. rewrite Hty.
  split; [done|]. split; [done|]. clear Hwf'.
  unfold handleAppendEntriesResp in Hr'.
  rewrite decide_False in Hr' by (rewrite Hl; auto).
  rewrite decide_False in Hr' by auto. rewrite Hrej in Hr'.
  apply seq_bind_Some in Hr' as (q & Hq & Hr').
  assert (state q = Leader ∧ currentTerm q = currentTerm r ∧ peers q = peers r ∧
    heartbeatAcked q = heartbeatAcked r) as (Hs & HTq & Hp & Ha).
  { case_decide; inv_seq; by injection Hq as <-. }
  unfold maybeAdvanceCommit in Hr'. inv_seq. injection Hr' as <-.
  match goal with |- context [maybeAdvanceCommit_loop ?k ?n ?x] =>
    destruct (maybeAdvanceCommit_loop_lease k n x) as (-> & -> & -> & ->) end.
  simpl. split_and!; try done. rewrite Ha. apply i64_small. lia.
Qed.

(** The lease counts replies, not repliers. Delivering the same
    follower's acknowledgement [n] times raises [heartbeatAcked] by [n], so
    a leader that just broadcast ([heartbeatAcked] is 1) passes the check of
    [HasLeaderQuorum] after [quorumSize - 1] replies of one follower, in a
    cluster of any size. *)
Theorem one_follower_renews_lease r m n :
  raft_wf r → state r = Leader → is_ack m → mTerm m = currentTerm r →
  heartbeatAcked r = 1%Z → (Z.of_nat n < 9223372036854775807)%Z →
  ∃ r', step_n n r m = Some r' ∧ heartbeatAcked r' = (1 + Z.of_nat n)%Z ∧
    HasLeaderQuorum r' = bool_decide (quorumSize r ≤ 1 + Z.of_nat n)%Z.
Proof.
  intros Hwf Hl Ha HT H1 Hn.
  assert (∀ n q, raft_wf q → state q = Leader → mTerm m = currentTerm q →
    (0 ≤ heartbeatAcked q)%Z → (heartbeatAcked q + Z.of_nat n < 9223372036854775808)%Z →
    ∃ r', step_n n q m = Some r' ∧ state r' = Leader ∧ peers r' = peers q ∧
      heartbeatAcked r' = (heartbeatAcked q + Z.of_nat n)%Z) as Hloop.
  { clear -Ha. induction n as [|n IH]; intros q Hwf Hl HT H0 Hb.
    { exists q. split_and!; try done. simpl. lia. }
    destruct (ack_counts q m Hwf Hl Ha HT) as (q' & Hq & Hwf' & Hl' & HT' & Hp' & Hk'); [lia|].
    destruct (IH q') as (r' & Hr' & Hlr & Hpr & Hkr); [done|done|congruence|lia|lia|].
    exists r'. simpl step_n. rewrite Hq. cbn [seq_bind]. split_and!; [done|done|congruence|lia]. }
  destruct (Hloop n r) as (r' & Hr' & Hl' & Hp & Hk); [done|done|done|lia|lia|].
  rewrite H1 in Hk. exists r'. split_and!; [done|done|].
  unfold HasLeaderQuorum, quorumSize, clusterSize. rewrite Hl', Hp, Hk.
  by rewrite bool_decide_true.
Qed.
End lease.

(** ** Nodes added at run time *)

Section added.
Context {GR : GoRand}.



End added.

(** ** The pre-vote phase *)

Section prevote.
Context {GR : GoRand}.

(** No node ever starts a pre-vote. In every run, with crashes, each
    RequestVote message ever sent asks for a real vote: [becomeCandidate]
    raises the term at once. *)
Theorem prevote_never_requested members conf c m :
  membership_ok members conf → reachable_with_restarts members conf c →
  m ∈ net c → mType m = MsgRequestVote → mIsPreVote m = false.
Proof.
  intros [Hmem Hcf] (c0 & Hini & Hsteps). revert m.
  pose proof (elect_inv_initial members conf Hmem c0 Hcf Hini) as Inv.
  assert (∀ m, m ∈ net c0 → mType m = MsgRequestVote → mIsPreVote m = false) as Hnet0.
  { destruct Hini as (_ & -> & _). by intros m ?%not_elem_of_nil. }
  revert Inv Hnet0. generalize no_history. clear Hini.
  induction Hsteps as [c|c c1 c2 Hs _ IH]; intros h Inv Hnet; [done|].
  destruct Hs as [(Hroom & e & Hex)|(_ & i & Hi)].
  - destruct (elect_inv_exec members Hmem h c e c1 Inv Hroom Hex) as (h1 & _ & Inv1).
    apply (IH h1); [done|].
    destruct (exec_cases members c e c1 (elect_inv_ok _ _ _ Inv) Hroom Hex) as
      [(i & r & r' & ms & Hr & Ht & ->)|(i & r & er & Hr & Ha & ->)]; [|done].
    refine (transs_put members (fun c => ∀ m, m ∈ net c → mType m = MsgRequestVote →
      mIsPreVote m = false) (net c) i r r' ms _ Ht c Hnet Hr (fun m H => H)).
    intros c' s s' ms' Hc' _ _ Hts _ m [Hm|Hm]%elem_of_app Hty; [by apply Hc'|].
    by destruct (trans_requests _ _ _ _ Hts m Hm Hty) as (_ & _ & p & ->).
  - destruct (elect_inv_restart members conf Hmem h c i c1 Hcf Inv Hi) as (h1 & _ & Inv1).
    apply (IH h1); [done|]. unfold restart in Hi. inv_seq. by injection Hi as <-.
Qed.
End prevote.

(** ** Witnesses *)

Definition solo_conf : Config := mkConfig "a" [] 3 1 0 7 0 "" [].

Lemma solo_conf_wf : config_wf solo_conf.
Proof.
  split_and!; [done|done|done|]. split; [done| |done].
  intros [|i] e; [by intros [= <-]|done].
Qed.

(** The node becomes leader and accepts a proposal, which stays uncommitted. *)
Lemma single_node_never_commits_witness :
  ∃ r, local_ops (started solo_conf) (replicate 5 LTick ++ [LPropose [x01]; LTick]) = Some r ∧
    state r = Leader ∧ length (log r) = 3 ∧ commitIndex r = 0%N.
Proof.
  assert (∃ r, local_ops (started solo_conf) (replicate 5 LTick ++ [LPropose [x01]; LTick]) = Some r ∧
    state r = Leader ∧ length (log r) = 3) as (r & Hr & Hst & Hl)
    by (eexists; split_and!; by vm_compute).
  exists r. split_and!; [exact Hr|exact Hst|exact Hl|].
  apply (single_node_never_commits solo_conf (started solo_conf)
    (replicate 5 LTick ++ [LPropose [x01]; LTick]) r).
  - exact solo_conf_wf.
  - reflexivity.
  - apply NewRaft_eq, solo_conf_wf.
  - exact Hr.
Defined.

(** The leader right after a broadcast: only its own acknowledgement counts. *)
Lemma ticked_wf r : raft_wf r → log_room r → raft_wf (the (Tick r)).
Proof. intros Hwf Hroom. by destruct (Tick_returns r Hwf Hroom) as (r' & -> & ?). Qed.

Definition ticked : Raft := the (Tick leader_a).
Definition fresh_lease : Raft := the (Tick ticked).

Lemma fresh_lease_wf : raft_wf fresh_lease.
Proof.
  apply ticked_wf; [apply ticked_wf; [exact leader_a_wf|]|]; unfold log_room; by vm_compute.
Qed.

Lemma one_follower_renews_lease_witness :
  HasLeaderQuorum fresh_lease = false ∧
  ∃ r', step_n 1 fresh_lease (sent 8) = Some r' ∧ heartbeatAcked r' = 2%Z.
Proof.
  split; [by vm_compute|].
  destruct (one_follower_renews_lease fresh_lease (sent 8) 1) as (r' & H1 & H2 & _).
  - exact fresh_lease_wf.
  - by vm_compute.
  - split; by vm_compute.
  - by vm_compute.
  - by vm_compute.
  - by vm_compute.
  - exists r'. split; [exact H1|exact H2].
Defined.

(** A fourth node, of the leader's term, with an empty log. *)
Definition joiner_conf : Config := mkConfig "d" ["a"; "b"; "c"] 5 2 0 7 1 "" [].



(** ** Requests that no node sends *)

(** An entry may claim any index, and the follower takes it at its word. *)
Definition far_entry : Message :=
  mkMessage MsgAppendEntries "a" "d" 1 0 0 [mkLogEntry 1152921504606846976 1 [] EntryCommand]
    0 0 0 false false 0.
Definition far_prev : Message :=
  mkMessage MsgAppendEntries "a" "d" 1 576460752303423488 0 [mkLogEntry 1 1 [] EntryCommand]
    0 0 0 false false 0.

(** The two requests are accepted and then panic the follower, which slices its
    log at an index it does not have. *)
Theorem malformed_requests_panic :
  (length ∘ log) <$> Step (started joiner_conf) far_entry = Some 2 ∧
  (r <- Step (started joiner_conf) far_entry;; Step r far_prev) = None.
Proof. split; by vm_compute. Qed.

Lemma prevote_never_requested_witness :
  mIsPreVote (sent 0) = false ∧ mType (sent 0) = MsgRequestVote.
Proof.
  split; [|by vm_compute].
  apply (prevote_never_requested trio trio_conf trio2).
  - exact trio_membership.
  - exists trio0. split; [exact trio0_initial|]. apply steps_restarts, trio2_steps.
  - apply (list_elem_of_lookup_2 _ 0). by vm_compute.
  - by vm_compute.
Defined.
