(* ===== verification/Progress.v ===== *)
(** * Progress

    What a healthy majority can always do.  From every state that a cluster
    reaches without crashes, a leader whose term no member of a majority has
    passed can get its whole log committed: the ticks and deliveries that do
    it are exhibited.  The network and the clocks may also behave otherwise:
    the theorem says that the algorithm never paints itself into a corner. *)

From S2P Require Import Prelude Pb Raft RaftWf Cluster ClusterTrans Sample Election Logs LogInv LogStep LogSafety RaftTiming.

(** ** [nextIndex] stays positive

    A leader's [nextIndex] of every peer is at least 1, because the index in an
    AppendEntries response is one that a log can have. *)

Definition index_ok (m : Message) : Prop :=
  mType m = MsgAppendEntriesResp → (mIndex m + 1 < two64)%N.

Definition next_ok (r : Raft) : Prop :=
  (state r = Leader → ∀ p, p ∈ peers r → (0 < map_read 0 (nextIndex r) p)%N) ∧
  Forall index_ok (msgs r).

Section next_index.
Context {GR : GoRand}.

Lemma next_ok_send r m : index_ok m → next_ok r → next_ok (send r m).
Proof. intros Hm [Hn Hms]. split; [done|]. apply Forall_app. by repeat constructor. Qed.

Lemma next_ok_with_msgs r ms : Forall index_ok ms → next_ok r → next_ok (with_msgs r ms).
Proof. intros Hm [Hn Hms]. split; [done|]. by apply Forall_app. Qed.

Lemma heartbeats_index_ok r ps : Forall index_ok (heartbeat_to r <$> ps).
Proof. apply Forall_fmap, Forall_true. by intros p ?. Qed.

Lemma vote_requests_index_ok r ps : Forall index_ok (vote_request_to r <$> ps).
Proof. apply Forall_fmap, Forall_true. by intros p ?. Qed.

Lemma next_ok_not_leader r r' :
  state r' ≠ Leader → msgs r' = msgs r → next_ok r → next_ok r'.
Proof. intros Hs Hm [_ Hms]. split; [done|]. by rewrite Hm. Qed.

Lemma next_ok_leader_of r : log_wf (log r) → Forall index_ok (msgs r) → next_ok (leader_of r).
Proof.
  intros Hwf Hms. split; [|done]. intros _ p Hp. simpl in Hp |- *.
  rewrite init_peers_read, decide_True by done.
  pose proof (log_wf_nonempty _ Hwf). lia.
Qed.

Lemma becomeLeader_next r r' :
  log_wf (log r) → log_room r → next_ok r → becomeLeader r = Some r' → next_ok r'.
Proof.
  intros Hwf Hroom [_ Hms]. rewrite becomeLeader_eq by done. intros [= <-].
  apply next_ok_with_msgs; [apply heartbeats_index_ok|by apply next_ok_leader_of].
Qed.

Lemma becomeCandidate_next r r' :
  raft_wf r → log_room r → next_ok r → becomeCandidate r = Some r' → next_ok r'.
Proof.
  intros Hwf Hroom Hok. rewrite becomeCandidate_eq by (done || apply Hwf). cbv zeta.
  intros [= <-]. case_match.
  - apply next_ok_with_msgs; [apply heartbeats_index_ok|].
    apply next_ok_leader_of; [apply Hwf|]. exact (proj2 Hok).
  - apply next_ok_with_msgs; [apply vote_requests_index_ok|].
    by apply (next_ok_not_leader r).
Qed.

Lemma broadcastHeartbeat_next r r' :
  raft_wf r → next_ok r → broadcastHeartbeat r = Some r' → next_ok r'.
Proof.
  intros Hwf Hok. rewrite broadcastHeartbeat_eq by apply Hwf. intros [= <-].
  apply next_ok_with_msgs; [apply heartbeats_index_ok|done].
Qed.

Lemma Tick_next r r' : raft_wf r → log_room r → next_ok r → Tick r = Some r' → next_ok r'.
Proof.
  intros Hwf Hroom Hok. unfold Tick, tickElection, tickHeartbeat. cbv zeta.
  destruct (state r) eqn:Hst; case_decide; try (intros [= <-]; by destruct Hok; split).
  1, 2: apply becomeCandidate_next; [wf_same|done|by apply (next_ok_not_leader r); simpl; rewrite ?Hst].
  apply broadcastHeartbeat_next; [wf_same|]. by destruct Hok.
Qed.

Lemma handleRequestVote_next r m r' :
  raft_wf r → next_ok r → handleRequestVote r m = Some r' → next_ok r'.
Proof.
  intros Hwf Hok. rewrite handleRequestVote_eq by apply Hwf. intros [= <-].
  repeat case_match; by apply next_ok_send.
Qed.

Lemma handleRequestVoteResp_next r m r' :
  raft_wf r → log_room r → next_ok r → handleRequestVoteResp r m = Some r' → next_ok r'.
Proof.
  intros Hwf Hroom Hok. unfold handleRequestVoteResp. case_decide as Hst; [by intros [= <-]|].
  destruct (mIsPreVote m).
  - cbv zeta. intros Hres. inv_seq. case_decide; [|injection Hres as <-; by destruct Hok; split].
    apply (becomeCandidate_next (r <| preVotes := a |>)) in Hres; [done|wf_same|done|].
    by destruct Hok; split.
  - case_decide; [by intros [= <-]|]. intros Hres. inv_seq. cbv zeta in Hres.
    destruct (quorum _); [|injection Hres as <-; by destruct Hok; split].
    apply (becomeLeader_next (r <| votes := a |>)) in Hres; [done|apply Hwf|done|].
    by destruct Hok; split.
Qed.

(** A response's index is a position of the responder's log, or below the
    request's. *)
Lemma handleAppendEntries_next r m r' :
  raft_wf r → msg_wf m → mType m = MsgAppendEntries → (mTerm m ≤ currentTerm r)%N →
  next_ok r → handleAppendEntries r m = Some r' → next_ok r'.
Proof.
  intros Hwf Hm Hty Hle Hok. destruct (decide (mTerm m < currentTerm r)%N) as [Hlt|Hge].
  { rewrite handleAppendEntries_stale by done. intros [= <-]. by apply next_ok_send. }
  pose proof (heard_leader_wf r m Hwf (proj1 Hm)) as Hwf1.
  pose proof (log_wf_bound _ (rw_log _ Hwf)) as Hb. pose proof (log_wf_nonempty _ (rw_log _ Hwf)).
  pose proof (msg_wf_prev m Hm Hty) as Hprev.
  rewrite handleAppendEntries_eq;
    [|done|lia|done|intros; by apply msg_wf_appendable; [apply Hwf|..]].
  assert (next_ok (heard_leader r m)) as Hok1.
  { apply (next_ok_not_leader r); [|apply heard_leader_msgs|done].
    unfold heard_leader. simpl. case_decide as Hf; [done|]. simpl in *. by rewrite Hf. }
  pose proof (heard_leader_log r m) as Hql.
  generalize dependent (heard_leader r m). intros q Hwf1 Hok1 Hql.
  assert (mPrevLogIndex m < N.of_nat (length (log q)) → appendable q m)%N as Happ
    by (intros; by apply msg_wf_appendable; [apply Hwf1|..]).
  case_decide; [|case_decide as Hc]; intros [= <-]; apply next_ok_send; try done.
  - intros _. simpl. lia.
  - intros _. simpl. unfold conflict_hint.
    destruct (hint_loop_bounds (log r) (log_term (log r) (mPrevLogIndex m))
      (N.to_nat (mPrevLogIndex m))). lia.
  - intros _. simpl. assert (mPrevLogIndex m < N.of_nat (length (log q)))%N as Hlt by (rewrite Hql; lia).
    pose proof (merged_wf q m (rw_log _ Hwf1) (Happ Hlt)) as Hmw.
    pose proof (log_wf_nonempty _ Hmw). pose proof (log_wf_bound _ Hmw). lia.
Qed.

Lemma handleAppendEntriesResp_next r m r' :
  raft_wf r → index_ok m → mType m = MsgAppendEntriesResp → next_ok r →
  handleAppendEntriesResp r m = Some r' → next_ok r'.
Proof.
  intros Hwf Hm Hty Hok. specialize (Hm Hty). unfold handleAppendEntriesResp.
  case_decide as Hl; [by intros [= <-]|]. case_decide; [by intros [= <-]|].
  assert (∀ ni v, nextIndex r = Some ni → (0 < v)%N →
    ∀ p, p ∈ peers r → (0 < map_read 0 (Some (<[mFrom m := v]> ni)) p)%N) as Hins.
  { intros ni v Hni Hv p Hp. destruct (decide (p = mFrom m)) as [->|Hne];
      [by rewrite map_read_write_eq|]. rewrite map_read_write_ne by done.
    rewrite <- Hni. apply Hok; [|done]. by destruct (decide (state r = Leader)). }
  destruct (mReject m).
  - pose proof (rw_next_u64 _ Hwf (mFrom m)) as Hu.
    intros Hres. repeat case_decide; [| |by injection Hres as <-];
      destruct (nextIndex r) as [ni|] eqn:Hni; [|done| |done]; cbn [map_write seq_bind] in Hres;
      injection Hres as <-; destruct Hok; (split; [|done]); intros _; simpl; apply Hins; try done.
    + rewrite u64_add_small; lia.
    + rewrite u64_sub_small; lia.
  - intros Hres. apply seq_bind_Some in Hres as (q & Hq & Hres).
    assert (next_ok q) as Hokq.
    { case_decide; [|by injection Hq as <-]. apply seq_bind_Some in Hq as (mi & _ & Hq).
      apply seq_bind_Some in Hq as (ni' & Hm1 & Hq). injection Hq as <-.
      destruct (nextIndex r) as [ni|] eqn:Hni; [|done]. destruct Hok. split; [|done].
      intros _. simpl. injection Hm1 as <-. apply Hins; [done|].
      rewrite u64_add_small; lia. }
    unfold maybeAdvanceCommit in Hres. inv_seq. injection Hres as <-.
    assert (∀ k n x, next_ok x → next_ok (maybeAdvanceCommit_loop k n x)) as Hloop.
    { induction k as [|k IH]; intros n x Hx; cbn [maybeAdvanceCommit_loop]; [done|].
      apply IH. by repeat case_decide. }
    apply Hloop. by destruct Hokq; split.
Qed.

Lemma Step_next r m r' :
  raft_wf r → log_room r → msg_wf m → index_ok m → next_ok r → Step r m = Some r' → next_ok r'.
Proof.
  intros Hwf Hroom Hm Hi Hok. rewrite Step_eq by apply Hwf.
  pose proof (stepped_wf r m Hwf (proj1 Hm)) as Hwf'.
  assert (log_room (stepped r m)) by (unfold log_room; by rewrite stepped_log).
  assert (next_ok (stepped r m)) as Hok'
    by (unfold stepped; destruct (raises_term r m); [by apply (next_ok_not_leader r)|done]).
  unfold handle. destruct (mType m) eqn:Hty.
  - by apply handleRequestVote_next.
  - by apply handleRequestVoteResp_next.
  - apply handleAppendEntries_next; try done.
    destruct (stepped_term r m) as [?|[_ [?|?]]]; congruence.
  - by apply handleAppendEntriesResp_next.
Qed.

Lemma Propose_next r d pr :
  raft_wf r → log_room r → next_ok r → Propose r d = Some pr → next_ok pr.2.
Proof.
  intros Hwf Hroom Hok. rewrite Propose_eq by (done || apply Hwf). intros [= <-].
  case_decide; [done|]. apply next_ok_with_msgs; [apply heartbeats_index_ok|].
  by destruct Hok; split.
Qed.

Lemma ProposeConfigChange_next r a r' :
  raft_wf r → log_room r → next_ok r → ProposeConfigChange r a = Some r' → next_ok r'.
Proof.
  intros Hwf Hroom Hok. rewrite ProposeConfigChange_eq by (done || apply Hwf). intros [= <-].
  case_decide; [done|]. apply next_ok_with_msgs; [apply heartbeats_index_ok|].
  by destruct Hok; split.
Qed.

Lemma ApplicableEntries_next r er : next_ok r → ApplicableEntries r = Some er → next_ok er.2.
Proof.
  intros Hok. unfold ApplicableEntries. case_decide; [by intros [= <-]|]. cbv zeta.
  case_decide; [by intros [= <-]|]. intros Ha. inv_seq. injection Ha as <-. by destruct Hok; split.
Qed.

(** ** In a cluster *)

Definition cluster_next (c : Cluster) : Prop :=
  (∀ i r, nodes c !! i = Some r → next_ok r) ∧ Forall index_ok (net c).

Lemma at_node_next c i f c' :
  cluster_next c → at_node c i f = Some c' →
  (∀ r r', nodes c !! i = Some r → f r = Some r' → next_ok r') → cluster_next c'.
Proof.
  intros [Hn Hnet] Hat Hf. unfold at_node in Hat. inv_seq. injection Hat as <-.
  destruct (Hf _ _ Hm Hm0) as [H1 H2]. split; simpl.
  - intros j r [[<- <-]|[_ Hj]]%lookup_insert_Some; [|by apply (Hn j)]. by split.
  - by apply Forall_app.
Qed.

Lemma exec_next members c e c' :
  cluster_ok members c → headroom c → cluster_next c → exec c e = Some c' → cluster_next c'.
Proof.
  intros Hok Hroom Hn Hex.
  assert (∀ i r, nodes c !! i = Some r → raft_wf r ∧ log_room r ∧ next_ok r) as Hall.
  { intros i r Hr. split_and!; [apply (ck_node _ _ Hok i r Hr)|by apply (Hroom i)|by apply (proj1 Hn i)]. }
  destruct e as [i|m|i d|i a|i]; simpl in Hex.
  - eapply at_node_next; [done..|]. intros r r' (Hw & Hl & Hr)%Hall. by apply Tick_next.
  - case_decide as Hin; [|done]. eapply at_node_next; [done..|].
    intros r r' (Hw & Hl & Hr)%Hall. apply Step_next; try done.
    + by apply (ck_net _ _ Hok).
    + by eapply (proj1 (Forall_forall _ _) (proj2 Hn)).
  - eapply at_node_next; [done..|]. intros r r' (Hw & Hl & Hr)%Hall Hp. inv_seq.
    injection Hp as <-. by eapply Propose_next.
  - eapply at_node_next; [done..|]. intros r r' (Hw & Hl & Hr)%Hall.
    by apply ProposeConfigChange_next.
  - inv_seq. injection Hex as <-. split; [|apply Hn]. simpl.
    intros j r [[<- <-]|[_ Hj]]%lookup_insert_Some; [|by apply (proj1 Hn j)].
    by eapply ApplicableEntries_next; [apply (Hall i)|].
Qed.
End next_index.

(** ** What a reachable state gives *)

Section runs.
Context {GR : GoRand}.
Context (members : gset string) (conf : string → Config).
Context (Hmo : membership_ok members conf).

Lemma reachable_step c c' : reachable members conf c → rtc step c c' → reachable members conf c'.
Proof. intros (c0 & Hi & Hs) Hs'. exists c0. split; [done|]. by trans c. Qed.

Record standing (c : Cluster) : Prop := {
  st_reach : reachable members conf c;
  st_room : headroom c;
  st_ok : cluster_ok members c;
  st_next : cluster_next c;
  st_applied : applied_ok c;
  st_logs i r : nodes c !! i = Some r → positive_terms (log r);
  st_commit i r : nodes c !! i = Some r → N.to_nat (commitIndex r) < length (log r);
  st_lead i r : nodes c !! i = Some r → state r = Leader →
    1 < length (log r) ∧ log_term (log r) (N.of_nat (pred (length (log r)))) = currentTerm r
}.

Lemma started_next cfg : next_ok (started cfg).
Proof. by split; [|constructor]. Qed.

Lemma initial_next c : initial members conf c → cluster_next c.
Proof using Hmo.
  intros (Hn & Hnet & _). destruct Hmo as [_ Hcf]. split; [|rewrite Hnet; constructor].
  intros i r Hr. rewrite Hn in Hr. case_decide as Hi; [|done].
  rewrite NewRaft_eq in Hr by (by eapply fresh_config_wf, Hcf). injection Hr as <-.
  apply started_next.
Qed.

Lemma reachable_next c : reachable members conf c → cluster_next c.
Proof using Hmo.
  intros (c0 & Hi & Hs).
  assert (reachable members conf c0) as Hre by (exists c0; by split; [|apply rtc_refl]).
  pose proof (initial_next c0 Hi) as Hn. clear Hi. induction Hs as [c|c c1 c2 H01 _ IH]; [done|].
  apply IH; [by eapply reachable_step, rtc_once|]. destruct H01 as (Hroom & e & Hex).
  eapply exec_next; [|exact Hroom|exact Hn|exact Hex].
  destruct Hmo as [Hmem Hcf].
  destruct (reachable_inv members conf Hmem Hcf c Hre) as (ll & h & Inv & _).
  by eapply elect_inv_ok, lg_elect.
Qed.

Lemma last_log_term l : log_wf l → log_term l (N.of_nat (pred (length l))) = last_term l.
Proof.
  intros Hwf. destruct (log_wf_last l Hwf) as (e & He & _). unfold last_term. rewrite He.
  apply log_term_lookup. by rewrite <- last_lookup_pred.
Qed.

Lemma standing_intro c : reachable members conf c → headroom c → standing c.
Proof using Hmo.
  intros Hre Hroom. pose proof (reachable_next c Hre) as Hn. destruct Hmo as [Hmem Hcf].
  destruct (reachable_inv members conf Hmem Hcf c Hre) as (ll & h & Inv & Hap).
  pose proof (elect_inv_ok _ _ _ (lg_elect _ _ _ _ Inv)) as Hok.
  split; [done|done|done|done|done|..].
  - intros i r Hr k e Hk He. destruct (lg_log _ _ _ _ Inv i r Hr k e Hk He) as [H1 _]. lia.
  - intros i r Hr. eapply safe_lt; [apply (ck_node _ _ Hok i r Hr)|].
    by eapply (lg_commit _ _ _ _ Inv).
  - intros i r Hr Hl. destruct (lg_ok _ _ _ _ Inv _ _ _ (lg_lead _ _ _ _ Inv i r Hr Hl))
      as [HT Hwf _ _ Hlast].
    rewrite last_log_term, Hlast by done. split; [|done].
    pose proof (log_wf_nonempty _ Hwf). destruct (decide (length (log r) = 1)) as [H1|]; [|lia].
    rewrite <- Hlast in HT. unfold last_term in HT. rewrite last_lookup_pred, H1 in HT.
    simpl in HT. rewrite (log_wf_sentinel _ Hwf) in HT. simpl in HT. lia.
Qed.

Lemma reachable_node_dom c : reachable members conf c → ∀ j, j ∈ members → is_Some (nodes c !! j).
Proof using Hmo.
  intros Hre j Hj. destruct Hmo as [Hmem Hcf].
  destruct (reachable_inv members conf Hmem Hcf c Hre) as (ll & h & Inv & _).
  by apply (ei_dom _ _ _ (lg_elect _ _ _ _ Inv)).
Qed.

(** ** Runs inside a group of nodes

    Only the nodes of [Q] tick, hear messages, and only of each other: the rest
    of the cluster may be down or cut off. *)

Definition among (Q : gset string) (e : Event) : Prop :=
  match e with
  | EvTick j => j ∈ Q
  | EvDeliver m => mFrom m ∈ Q ∧ mTo m ∈ Q
  | EvPropose j _ => j ∈ Q
  | EvConfigChange _ _ => False
  | EvApply j => j ∈ Q
  end.

Definition step_among (Q : gset string) (c c' : Cluster) : Prop :=
  headroom c ∧ ∃ e, among Q e ∧ exec c e = Some c'.

Lemma among_steps Q c c' : rtc (step_among Q) c c' → rtc step c c'.
Proof. apply rtc_subrel. intros x y (Hroom & e & _ & He). split; [done|by exists e]. Qed.

Lemma standing_step Q c c' :
  standing c → rtc (step_among Q) c c' → headroom c' → standing c'.
Proof using Hmo.
  intros Hst Hs%among_steps Hroom. apply standing_intro; [|done].
  eapply reachable_step, Hs. apply Hst.
Qed.

Section group.
Context (Q : gset string).

(** ** The next heartbeat *)

Definition fired (r : Raft) : Raft :=
  r <| heartbeatElapsed := 0%Z |> <| heartbeatAcked := 1%Z |>.

Lemma headroom_put c i r ms : headroom c → room r → headroom (put c i r ms).
Proof.
  intros Hroom Hr j s. simpl. intros [[<- <-]|[_ Hj]]%lookup_insert_Some; [done|by apply (Hroom j)].
Qed.

Lemma exec_tick c i r r' :
  nodes c !! i = Some r → Tick r = Some r' → exec c (EvTick i) = Some (put c i (drain r') (msgs r')).
Proof. intros Hr Ht. simpl. unfold at_node. rewrite Hr. cbn [seq_bind]. by rewrite Ht. Qed.

Lemma exec_deliver_to c m r r' :
  m ∈ net c → nodes c !! mTo m = Some r → Step r m = Some r' →
  exec c (EvDeliver m) = Some (put c (mTo m) (drain r') (msgs r')).
Proof.
  intros Hm Hr Ht. simpl. rewrite decide_True by done. unfold at_node. rewrite Hr. cbn [seq_bind].
  by rewrite Ht.
Qed.

Lemma fired_elapsed r e : fired (r <| heartbeatElapsed := e |>) = fired r.
Proof. done. Qed.

Lemma tick_fires r :
  raft_wf r → state r = Leader → msgs r = [] →
  (heartbeatTimeout r ≤ i64 (heartbeatElapsed r + 1))%Z →
  Tick r = Some (with_msgs (fired r) (heartbeat_to r <$> peers r)).
Proof.
  intros Hwf Hl Hm Hle. unfold Tick, tickHeartbeat. rewrite Hl. cbv zeta.
  rewrite decide_True by done. rewrite broadcastHeartbeat_eq by apply Hwf. done.
Qed.

Lemma tick_counts r :
  state r = Leader → (i64 (heartbeatElapsed r + 1) < heartbeatTimeout r)%Z →
  Tick r = Some (r <| heartbeatElapsed := i64 (heartbeatElapsed r + 1) |>).
Proof.
  intros Hl Hlt. unfold Tick, tickHeartbeat. rewrite Hl. cbv zeta.
  rewrite decide_False by (simpl; lia). done.
Qed.

(** One tick that only counts. *)
Lemma wait_one c i r :
  i ∈ Q → nodes c !! i = Some r → headroom c → raft_wf r → state r = Leader → msgs r = [] →
  (i64 (heartbeatElapsed r + 1) < heartbeatTimeout r)%Z →
  let r1 := r <| heartbeatElapsed := i64 (heartbeatElapsed r + 1) |> in
  step_among Q c (put c i r1 []) ∧ headroom (put c i r1 []) ∧ raft_wf r1.
Proof.
  intros Hi Hr Hroom Hwf Hl Hm Hlt r1. split; [split; [done|]|split].
  - exists (EvTick i). split; [done|]. rewrite (exec_tick c i r r1 Hr); [|by apply tick_counts].
    assert (msgs r1 = []) as Hm1 by done. by rewrite Hm1, (drain_id r1 Hm1).
  - apply headroom_put; [done|]. exact (Hroom i r Hr).
  - unfold r1. wf_same.
Qed.

Lemma fire_now c i r :
  i ∈ Q → nodes c !! i = Some r → headroom c → raft_wf r → state r = Leader → msgs r = [] →
  (heartbeatTimeout r ≤ i64 (heartbeatElapsed r + 1))%Z →
  step_among Q c (put c i (fired r) (heartbeat_to r <$> peers r)).
Proof.
  intros Hi Hr Hroom Hwf Hl Hm Hle. split; [done|]. exists (EvTick i). split; [done|].
  rewrite (exec_tick c i r _ Hr (tick_fires r Hwf Hl Hm Hle)).
  by rewrite drain_with_msgs, msgs_with_msgs.
Qed.

(** Whatever its counter, a leader broadcasts after some ticks. *)
Lemma fire c i r :
  i ∈ Q → nodes c !! i = Some r → headroom c → raft_wf r → state r = Leader → msgs r = [] →
  (heartbeatTimeout r ≤ int_max)%Z →
  rtc (step_among Q) c (put c i (fired r) (heartbeat_to r <$> peers r)).
Proof.
  intros Hi Hr Hroom Hwf Hl Hm Hto. remember (heartbeatTimeout r) as lim eqn:Hlim.
  remember (heartbeatElapsed r) as e eqn:He. revert e c r Hr Hroom Hwf Hl Hm Hlim He.
  apply (count_up lim (fun e => ∀ c r, _ → _ → _ → _ → _ → _ → e = heartbeatElapsed r → _));
    [done|..]; intros e Hcmp; [|intros IH]; intros c r Hr Hroom Hwf Hl Hm -> ->.
  { by apply rtc_once, fire_now. }
  destruct (wait_one c i r) as (Hs & Hroom1 & Hwf1); [done..|]. eapply rtc_l; [exact Hs|].
  rewrite <- (fired_elapsed r (i64 (heartbeatElapsed r + 1))).
  match goal with |- context [fired ?x] => set (r1 := x) in * end.
  change (heartbeat_to r <$> peers r) with (heartbeat_to r1 <$> peers r1).
  rewrite <- (app_nil_l (heartbeat_to r1 <$> peers r1)), <- (put_put c i r1).
  apply IH; try done. apply lookup_insert_eq.
Qed.

(** ** One exchange with a peer *)

(** What an exchange with [j] leaves of a leader [r] at [i]: the peer is in its
    term, and either [nextIndex] went down or the peer covers the log. *)
Record exchanged (c : Cluster) (i j : string) (r : Raft) (c' : Cluster) (r' : Raft) : Prop := {
  ex_run : rtc (step_among Q) c c';
  ex_room : headroom c';
  ex_node : nodes c' !! i = Some r';
  ex_lead : same_lead r r';
  ex_peer s : nodes c' !! j = Some s → (currentTerm s ≤ currentTerm r)%N;
  ex_rest k : k ≠ i → k ≠ j → nodes c' !! k = nodes c !! k;
  ex_dom k : is_Some (nodes c !! k) → is_Some (nodes c' !! k)
}.

(** The peer's log covers the leader's, and all that is covered is committed. *)
Definition covered (j : string) (r r' : Raft) : Prop :=
  ∃ mi x, matchIndex r = Some mi ∧ matchIndex r' = Some (<[j := x]> mi) ∧
    (N.of_nat (pred (length (log r))) ≤ x)%N ∧ (commitIndex r ≤ commitIndex r')%N ∧
    ∀ n, (n < N.of_nat (length (log r)))%N → log_term (log r) n = currentTerm r →
      (quorumSize r ≤ count_matches (Some (<[j := x]> mi)) n (peers r) 1)%Z →
      (n ≤ commitIndex r')%N.

Lemma same_lead_room r r' : same_lead r r' → room r → room r'.
Proof. intros [_ HT Hl _ _ _ _] [H1 H2]. unfold room, log_room. by rewrite HT, Hl. Qed.

(** The reply to a heartbeat that was sent is delivered back. *)
Lemma deliver_reply c i r a r' :
  mFrom a ∈ Q → i ∈ Q → nodes c !! i = Some r → headroom c → msgs r = [] → a ∈ net c → mTo a = i →
  Step r a = Some r' → same_lead r r' →
  step_among Q c (put c i r' []) ∧ headroom (put c i r' []).
Proof.
  intros Hfrom Hi Hr Hroom Hm Ha Hto Hs Hl.
  assert (msgs r' = []) as Hm' by (by rewrite (sl_msgs _ _ Hl)). split.
  - split; [done|]. exists (EvDeliver a). split; [by rewrite <- Hto in Hi|]. subst i.
    rewrite (exec_deliver_to c a r r' Ha Hr Hs). by rewrite Hm', (drain_id r' Hm').
  - apply headroom_put; [done|]. eapply same_lead_room; [exact Hl|exact (Hroom i r Hr)].
Qed.

(** The leader broadcasts, and one of its heartbeats reaches [j]. *)
Lemma heartbeat_heard c i j r s :
  i ∈ Q → standing c → nodes c !! i = Some r → state r = Leader → (heartbeatTimeout r ≤ int_max)%Z →
  j ∈ Q → j ∈ peers r → nodes c !! j = Some s → (currentTerm s ≤ currentTerm r)%N →
  ∃ c2 s' rej x (a := append_reply s (heartbeat_to r j) (currentTerm r) rej x),
    rtc (step_among Q) c c2 ∧ headroom c2 ∧ a ∈ net c2 ∧
    nodes c2 = <[j := s']> (<[i := fired r]> (nodes c)) ∧ i ≠ j ∧ r_id s = j ∧
    currentTerm s' = currentTerm r ∧
    ((rej = true ∧ (1 < map_read 0 (nextIndex r) j)%N ∧ (x + 1 < map_read 0 (nextIndex r) j)%N) ∨
     (rej = false ∧ (0 < x)%N ∧ (N.of_nat (pred (length (log r))) ≤ x)%N)).
Proof.
  intros Hi Hst Hr Hl Hto HjQ Hj Hs HT.
  destruct (ck_node _ _ (st_ok _ Hst) i r Hr) as [[Hwf Hp Hm] Hid].
  destruct (ck_node _ _ (st_ok _ Hst) j s Hs) as [[Hwfs _ Hms] Hids].
  destruct (st_lead _ Hst i r Hr Hl) as [Hlen _].
  pose proof (peer_elem _ _ _ Hp Hj) as [_ Hji]. rewrite Hid in Hji.
  pose proof (st_room _ Hst) as Hroom. pose proof (Hroom i r Hr) as [Hr1 Hr2].
  pose proof (Hroom j s Hs) as [Hs1 Hs2].
  pose proof (fire c i r Hi Hr Hroom Hwf Hl Hm Hto) as Hfire.
  set (ms := heartbeat_to r <$> peers r) in *. set (c1 := put c i (fired r) ms) in *.
  assert (raft_wf (fired r)) as Hwf1 by (clear -Hwf; unfold fired; wf_same).
  assert (headroom c1) as Hroom1 by (apply headroom_put; [done|by split]).
  assert (talk_ok (fired r) s) as Htalk.
  { split; try done; [|right; by apply (st_logs _ Hst j)]. unfold next_of. rewrite Hids.
    pose proof (proj1 (proj1 (st_next _ Hst) i r Hr) Hl j Hj) as Hpos. simpl. lia. }
  destruct (follower_reply (fired r) s Htalk) as
    (s' & rej & x & Hstep & Hrep & Hwfs' & HTs' & Hids' & Hlen' & Hcase).
  unfold next_of in Hcase. rewrite Hids in *. rewrite Hms in Hrep.
  assert (heartbeat_to r j ∈ net c1) as Hin
    by (apply elem_of_app; right; by apply list_elem_of_fmap_2).
  exists (put c1 j (drain s') (msgs s')), (drain s'), rej, x. split_and!; try done.
  - eapply rtc_r; [exact Hfire|]. split; [done|]. exists (EvDeliver (heartbeat_to r j)).
    split; [by split; simpl; [rewrite Hid|]|].
    apply (exec_deliver_to c1 (heartbeat_to r j) s s'); [done| |exact Hstep].
    simpl. by rewrite lookup_insert_ne.
  - apply headroom_put; [done|]. unfold room, log_room in *. simpl in *. rewrite HTs'. lia.
  - apply elem_of_app. right. rewrite Hrep. by apply list_elem_of_singleton.
  - destruct Hcase as [(-> & _ & H1 & H2)|(-> & -> & H1 & _)]; [by left|right]. simpl in *. lia.
Qed.

Lemma exchange c i j r s :
  i ∈ Q → standing c → nodes c !! i = Some r → state r = Leader → (heartbeatTimeout r ≤ int_max)%Z →
  j ∈ Q → j ∈ peers r → nodes c !! j = Some s → (currentTerm s ≤ currentTerm r)%N →
  ∃ c' r', exchanged c i j r c' r' ∧
    ((matchIndex r' = matchIndex r ∧ commitIndex r' = commitIndex r ∧
      (map_read 0 (nextIndex r') j < map_read 0 (nextIndex r) j)%N) ∨ covered j r r').
Proof.
  intros Hi Hst Hr Hl Hto HjQ Hj Hs HT.
  destruct (ck_node _ _ (st_ok _ Hst) i r Hr) as [[Hwf Hp Hm] Hid].
  destruct (heartbeat_heard c i j r s) as
    (c2 & s' & rej & x & Hrun & Hroom2 & Ha & Hn & Hij & Hids & HTs & Hcase); [done..|].
  set (a := append_reply _ _ _ _ _) in Ha.
  assert (mFrom a ∈ Q) as Hfrom by (simpl; by rewrite Hids).
  assert (nodes c2 !! i = Some (fired r)) as Hr2
    by (rewrite Hn, lookup_insert_ne by done; apply lookup_insert_eq).
  assert (reply_of (fired r) j rej x a) as Hof by done.
  assert (raft_wf (fired r)) as Hwf1 by (clear -Hwf; unfold fired; wf_same).
  assert (∀ r', Step (fired r) a = Some r' → same_lead (fired r) r' →
    exchanged c i j r (put c2 i r' []) r') as Hdone.
  { intros r' Hstep Hsl. destruct (deliver_reply c2 i (fired r) a r') as [H2 H3]; [done..|].
    split; [by eapply rtc_r|done|apply lookup_insert_eq|by destruct Hsl; split| | |].
    - intros s2. simpl. rewrite lookup_insert_ne, Hn, lookup_insert_eq by done. intros [= <-]. lia.
    - intros k Hki Hkj. simpl. by rewrite Hn, !lookup_insert_ne by done.
    - intros k Hk. simpl. rewrite Hn, !lookup_insert_is_Some'. auto. }
  destruct Hcase as [(-> & H1 & H2)|(-> & H0 & Hx)].
  - destruct (leader_rejected (fired r) j x a) as (r' & Hstep & _ & Hsl & Hmi & Hci & Hni); [done..|].
    exists (put c2 i r' []), r'. split; [by apply Hdone|left]. simpl in *. split_and!; [done|done|lia].
  - destruct (leader_accepted (fired r) j x a) as (r' & mi & Hstep & Hsl & Hmi & Hmi' & Hci & Hall); [done..|].
    exists (put c2 i r' []), r'. split; [by apply Hdone|right]. by exists mi, x.
Qed.
(** ** Exchanges until the peer covers the log *)

Lemma same_lead_trans r1 r2 r3 : same_lead r1 r2 → same_lead r2 r3 → same_lead r1 r3.
Proof. intros [] []. split; congruence. Qed.

Lemma exchanged_trans c1 c2 c3 i j r1 r2 r3 :
  exchanged c1 i j r1 c2 r2 → exchanged c2 i j r2 c3 r3 → exchanged c1 i j r1 c3 r3.
Proof.
  intros [H1 _ _ Hl1 _ Hrest1 Hdom1] [H2 Hroom Hn Hl2 Hp Hrest2 Hdom2]. split; try done.
  - by trans c2.
  - by eapply same_lead_trans.
  - intros s Hs. rewrite <- (sl_term _ _ Hl1). by apply Hp.
  - intros k Hi Hj. by rewrite Hrest2, Hrest1.
  - intros k Hk. by apply Hdom2, Hdom1.
Qed.

Lemma bring_up n i j c r :
  N.to_nat (map_read 0%N (nextIndex r) j) ≤ n →
  i ∈ Q → standing c → nodes c !! i = Some r → state r = Leader → (heartbeatTimeout r ≤ int_max)%Z →
  j ∈ Q → j ∈ peers r → (∃ s, nodes c !! j = Some s ∧ (currentTerm s ≤ currentTerm r)%N) →
  ∃ c' r', exchanged c i j r c' r' ∧ covered j r r'.
Proof using Hmo.
  revert c r. induction n as [|n IH]; intros c r Hn Hi Hst Hr Hl Hto HjQ Hj (s & Hs & HT);
    destruct (exchange c i j r s) as (c1 & r1 & Hex & Hcase); try done;
    (destruct Hcase as [(Hm & Hc & Hlt)|Hcov]; [|by exists c1, r1]); [lia|].
  pose proof Hex as [Hrun Hroom1 Hr1 [Hs1 HT1 Hl1 _ Hp1 _ Ht1] Hpeer _ Hdom].
  destruct (Hdom j) as [s1 Hj1]; [by exists s|].
  destruct (IH c1 r1) as (c2 & r2 & Hex2 & Hcov);
    [lia|done|by apply (standing_step Q c)|done|congruence|congruence|done| | |].
  - by rewrite Hp1.
  - exists s1. split; [done|]. rewrite HT1. by apply Hpeer.
  - exists c2, r2. split; [by eapply exchanged_trans|].
    destruct Hcov as (mi & x & Hmi & Hmi' & Hx & Hle & Hall). exists mi, x.
    rewrite <- Hm, <- Hc, <- Hl1, <- HT1, <- Hp1.
    assert (quorumSize r1 = quorumSize r) as <- by (unfold quorumSize, clusterSize; by rewrite Hp1).
    done.
Qed.

(** The peers in [ps] cover the log up to position [n]. *)
Definition matched (r : Raft) (n : N) (ps : list string) : Prop :=
  ∀ p, p ∈ ps → (n ≤ map_read 0 (matchIndex r) p)%N.

Lemma count_matched mi n (ps qs : list string) :
  NoDup qs → (∀ p, p ∈ qs → p ∈ ps ∧ (n ≤ map_read 0 mi p)%N) →
  (1 + Z.of_nat (length qs) ≤ count_matches mi n ps 1)%Z.
Proof.
  intros Hnd Hqs. rewrite count_matches_filter.
  assert (length qs ≤ length (filter (fun p => (n ≤ map_read 0 mi p)%N) ps)); [|lia].
  apply submseteq_length, NoDup_submseteq; [done|]. intros p Hp. apply list_elem_of_filter.
  destruct (Hqs p Hp). done.
Qed.

Definition last_of (r : Raft) : N := N.of_nat (pred (length (log r))).

Lemma cover_all i js : ∀ have c r,
  i ∈ Q → (∀ j, j ∈ js → j ∈ Q) → standing c → nodes c !! i = Some r → state r = Leader →
  (heartbeatTimeout r ≤ int_max)%Z → NoDup (js ++ have) → (∀ j, j ∈ js ++ have → j ∈ peers r) →
  (∀ j, j ∈ js → ∃ s, nodes c !! j = Some s ∧ (currentTerm s ≤ currentTerm r)%N) →
  matched r (last_of r) have → size members < 2 * S (length (js ++ have)) →
  (js = [] → last_of r ≤ commitIndex r)%N →
  ∃ c' r', rtc (step_among Q) c c' ∧ headroom c' ∧ nodes c' !! i = Some r' ∧ same_lead r r' ∧
    (last_of r ≤ commitIndex r')%N.
Proof using Hmo.
  induction js as [|j js IH]; intros have c r Hi HjQ Hst Hr Hl Hto Hnd Hps Hjs Hhave Hq Hcm.
  { exists c, r. split_and!; [apply rtc_refl|apply Hst|done|by split|by apply Hcm]. }
  destruct (bring_up (N.to_nat (map_read 0%N (nextIndex r) j)) i j c r) as (c1 & r1 & Hex & Hcov);
    [done..|apply HjQ; set_solver|apply Hps; set_solver|apply Hjs; set_solver|].
  destruct Hex as [Hrun Hroom1 Hr1 Hsl Hpeer Hrest Hdom]. pose proof Hsl as [Hs1 HT1 Hl1 _ Hp1 _ Ht1].
  destruct Hcov as (mi & x & Hmi & Hmi1 & Hx & Hle & Hall).
  destruct (ck_node _ _ (st_ok _ Hst) i r Hr) as [[Hwf Hpo Hm] Hid].
  destruct (st_lead _ Hst i r Hr Hl) as [Hlen Hlast].
  simpl in Hnd. apply NoDup_cons in Hnd as [Hj Hnd].
  assert (last_of r1 = last_of r) as Hlo by (unfold last_of; by rewrite Hl1).
  assert (matched r1 (last_of r) (j :: have)) as Hmt.
  { intros p [->|Hp]%elem_of_cons; rewrite Hmi1; [by rewrite map_read_write_eq|].
    rewrite map_read_write_ne by set_solver. rewrite <- Hmi. by apply Hhave. }
  destruct (IH (j :: have) c1 r1) as (c2 & r2 & Hrun2 & Hroom2 & Hr2 & Hsl2 & Hcm2).
  - done.
  - intros k Hk. apply HjQ. set_solver.
  - by apply (standing_step Q c).
  - done.
  - congruence.
  - congruence.
  - rewrite <- Permutation_middle. by constructor.
  - intros k Hk. rewrite Hp1. apply Hps. set_solver.
  - intros k Hk. destruct (Hjs k) as (s & Hs & HT); [set_solver|]. exists s.
    assert (k ∈ peers r) as [_ Hki]%(peer_elem _ _ _ Hpo) by (apply Hps; set_solver).
    rewrite Hrest; [by rewrite HT1|congruence|set_solver].
  - by rewrite Hlo.
  - rewrite length_app in *. simpl in *. lia.
  - intros ->. rewrite Hlo. apply Hall; [unfold last_of; lia|exact Hlast|].
    transitivity (1 + Z.of_nat (length (j :: have)))%Z.
    + enough (quorumSize r ≤ Z.of_nat (S (length (j :: have))))%Z by lia.
      by apply (quorumSize_majority members r _ Hpo).
    + apply count_matched; [constructor; set_solver|]. intros p Hp.
      split; [apply Hps; set_solver|]. rewrite <- Hmi1. by apply Hmt.
  - exists c2, r2. rewrite <- Hlo. split_and!; try done; [by trans c1|by eapply same_lead_trans].
Qed.

(** ** Commit *)

Lemma apply_all c i r :
  i ∈ Q → standing c → nodes c !! i = Some r → commitIndex r = last_of r →
  ∃ c' r', step_among Q c c' ∧ nodes c' !! i = Some r' ∧ same_lead r r' ∧
    commitIndex r' = commitIndex r ∧ applied_of c' i = drop 1 (log r').
Proof using Hmo.
  intros Hi Hst Hr Hci. destruct (ck_node _ _ (st_ok _ Hst) i r Hr) as [[Hwf _ _] _].
  destruct (ApplicableEntries_returns r Hwf) as (er & Her & _).
  set (c' := mkCluster (<[i := er.2]> (nodes c)) (net c) (<[i := applied_of c i ++ er.1]> (applied c))).
  assert (step_among Q c c') as Hs.
  { split; [apply Hst|]. exists (EvApply i). split; [done|]. simpl. rewrite Hr. cbn [seq_bind]. by rewrite Her. }
  assert (nodes c' !! i = Some er.2) as Hr' by apply lookup_insert_eq.
  rewrite ApplicableEntries_eq in Her by apply Hwf.
  assert (same_lead r er.2 ∧ commitIndex er.2 = commitIndex r ∧ (last_of r ≤ lastApplied er.2)%N)
    as (Hsl & Hc & Hla).
  { unfold apply_end in Her. fold (last_of r) in Her. rewrite Hci, N.min_id in Her.
    case_decide; injection Her as <-; (split; [by split|]); simpl; by rewrite ?Hci. }
  exists c', er.2. split_and!; try done.
  assert (headroom c') as Hroom'.
  { intros j s Hj. simpl in Hj. apply lookup_insert_Some in Hj as [[<- <-]|[_ Hj]];
      [|by apply (st_room _ Hst j)].
    eapply same_lead_room; [exact Hsl|exact (st_room _ Hst i r Hr)]. }
  pose proof (standing_step Q c c' Hst (rtc_once _ _ Hs) Hroom') as Hst'.
  destruct (st_applied _ Hst' i _ Hr') as [_ ->]. apply take_ge. rewrite length_drop.
  unfold last_of in Hla. rewrite (sl_log _ _ Hsl). lia.
Qed.

(** A leader of a majority that no member of it has passed commits its log. *)
Lemma commit_among c i r :
  standing c → nodes c !! i = Some r → state r = Leader → (heartbeatTimeout r ≤ int_max)%Z →
  1 < size members → majority members Q → i ∈ Q →
  (∀ j s, j ∈ Q → nodes c !! j = Some s → (currentTerm s ≤ currentTerm r)%N) →
  ∃ c' r', rtc (step_among Q) c c' ∧ nodes c' !! i = Some r' ∧ same_lead r r' ∧
    commitIndex r' = last_of r' ∧ applied_of c' i = drop 1 (log r').
Proof using Hmo.
  intros Hst Hr Hl Hto Hsz [HQ Hmaj] Hi HT.
  destruct (ck_node _ _ (st_ok _ Hst) i r Hr) as [[Hwf Hpo Hm] Hid].
  set (js := elements (Q ∖ {[i]})).
  assert (length js = pred (size Q)) as Hlen.
  { unfold js. change (length (elements ?X)) with (size X). rewrite size_difference by set_solver.
    rewrite size_singleton. lia. }
  assert (∀ j, j ∈ js → j ∈ Q ∧ j ≠ i) as Hjs by (unfold js; set_solver).
  destruct (cover_all i js [] c r) as (c1 & r1 & Hrun & Hroom1 & Hr1 & Hsl & Hcm); try done.
  - intros j Hj. by apply Hjs.
  - rewrite app_nil_r. apply NoDup_elements.
  - rewrite app_nil_r. intros j [Hj Hne]%Hjs. destruct Hpo as (_ & _ & Hp).
    apply Hp. rewrite Hid. split; [by apply HQ|done].
  - intros j [Hj Hne]%Hjs.
    destruct (reachable_node_dom c (st_reach _ Hst) j) as [s Hs]; [by apply HQ|].
    exists s. split; [done|]. by apply (HT j).
  - by intros p ?%not_elem_of_nil.
  - rewrite app_nil_r, Hlen. assert (size Q ≠ 0) by (intros H0; lia). lia.
  - intros Hnil. rewrite Hnil in Hlen. simpl in Hlen. lia.
  - pose proof (standing_step Q c c1 Hst Hrun Hroom1) as Hst1.
    pose proof (st_commit _ Hst1 i r1 Hr1) as Hlt.
    assert (commitIndex r1 = last_of r1) as Hci.
    { unfold last_of in *. rewrite (sl_log _ _ Hsl) in *. lia. }
    destruct (apply_all c1 i r1 Hi Hst1 Hr1 Hci) as (c2 & r2 & Hs2 & Hr2 & Hsl2 & Hc2 & Hap).
    exists c2, r2. split_and!; try done; [by eapply rtc_r|by eapply same_lead_trans|].
    rewrite Hc2, Hci. unfold last_of. by rewrite (sl_log _ _ Hsl2).
Qed.
End group.
End runs.

(** ** Theorems *)

(** A leader can always commit.  Take any state that a cluster of at least
    two nodes reaches without crashes, and a leader in it, such that no member of
    some majority around the leader is in a later term.  Then there is a
    continuation in which only that majority takes part, after which the same
    node, still leading the same term with the same log, has committed its whole
    log and handed all of it to its state machine. *)
Theorem leader_can_commit `{GoRand} members conf c i r Q :
  membership_ok members conf → reachable members conf c → headroom c →
  nodes c !! i = Some r → state r = Leader → (heartbeatTimeout r ≤ int_max)%Z →
  1 < size members → majority members Q → i ∈ Q →
  (∀ j s, j ∈ Q → nodes c !! j = Some s → (currentTerm s ≤ currentTerm r)%N) →
  ∃ c' r', rtc (step_among Q) c c' ∧ nodes c' !! i = Some r' ∧ state r' = Leader ∧
    currentTerm r' = currentTerm r ∧ log r' = log r ∧
    commitIndex r' = N.of_nat (pred (length (log r'))) ∧
    applied_of c' i = drop 1 (log r').
Proof.
  intros Hmo Hre Hroom Hr Hl Hto Hsz Hmaj Hi HT.
  pose proof (standing_intro members conf Hmo c Hre Hroom) as Hst.
  destruct (commit_among members conf Hmo Q c i r) as (c' & r' & Hrun & Hr' & Hsl & Hc & Ha); try done.
  destruct Hsl. exists c', r'. split_and!; try done. congruence.
Qed.

(** In [trio1], "a" has just won: its first entry can be committed with "b". *)
Lemma leader_can_commit_witness :
  ∃ c' r', rtc (step_among {["a"; "b"]}) trio1 c' ∧ nodes c' !! "a" = Some r' ∧
    commitIndex r' = N.of_nat (pred (length (log r'))).
Proof.
  destruct (leader_can_commit trio trio_conf trio1 "a" (the (nodes trio1 !! "a")) {["a"; "b"]}) as
    (c' & r' & Hrun & Hr & _ & _ & _ & Hc & _).
  - exact trio_membership.
  - exists trio0. split; [exact trio0_initial|]. exact (proj1 trio_steps).
  - apply (bool_decide_unpack _). by vm_compute.
  - by vm_compute.
  - by vm_compute.
  - by vm_compute.
  - apply Nat.ltb_lt. by vm_compute.
  - split; apply (bool_decide_unpack _); by vm_compute.
  - set_solver.
  - intros j s Hj Hs.
    assert (map_Forall (fun _ s => (currentTerm s ≤ currentTerm (the (nodes trio1 !! "a")))%N)
      (nodes trio1)) as Hall by (apply (bool_decide_unpack _); by vm_compute).
    exact (Hall j s Hs).
  - exists c', r'. split; [exact Hrun|]. split; [exact Hr|exact Hc].
Defined.
