(* ===== verification/Liveness.v ===== *)
(** * A majority can always commit

    The other half of progress: from every state that a cluster reaches without
    crashes, a majority can elect one of its members, by itself, and then commit
    any command.  The winner is a member with a most up-to-date log; it steps
    down if it leads an old term, campaigns until its term is the latest, and is
    granted the vote of every other member. *)

From S2P Require Import Prelude Pb Raft RaftWf Cluster ClusterTrans Sample Election Logs LogInv LogStep LogSafety RaftTiming Progress.

Section runs.
Context {GR : GoRand}.
Context (members : gset string) (conf : string → Config).
Context (Hmo : membership_ok members conf).
Context (Q : gset string).

(** ** Campaigns *)

Definition campaigning (r : Raft) : Raft :=
  candidate_of (r <| electionElapsed := 0%Z |> <| leaderActive := false |>).

Lemma campaign_tick r :
  raft_wf r → log_room r → state r ≠ Leader → peers r ≠ [] →
  (electionTimeout r ≤ i64 (electionElapsed r + 1))%Z →
  Tick r = Some (with_msgs (campaigning r) (vote_request_to (campaigning r) <$> peers r)).
Proof.
  intros Hwf Hroom Hst Hps Hle. unfold Tick, tickElection. cbv zeta.
  assert (becomeCandidate (r <| electionElapsed := 0%Z |> <| leaderActive := false |>) =
    Some (with_msgs (campaigning r) (vote_request_to (campaigning r) <$> peers r))) as Hb.
  { rewrite becomeCandidate_eq; [|apply Hwf|exact Hroom|apply Hwf]. cbv zeta.
    by rewrite candidate_no_quorum. }
  destruct (state r); [| |done]; rewrite decide_True by done; exact Hb.
Qed.

Lemma waiting_tick r :
  state r ≠ Leader → (i64 (electionElapsed r + 1) < electionTimeout r)%Z →
  Tick r = Some (r <| electionElapsed := i64 (electionElapsed r + 1) |>).
Proof.
  intros Hst Hlt. unfold Tick, tickElection. cbv zeta.
  destruct (state r) eqn:Hs; [| |done]; (rewrite decide_False; [done|simpl; lia]).
Qed.

(** Whatever its counter, a node that does not lead campaigns after some ticks. *)
Lemma campaign c i r :
  i ∈ Q → nodes c !! i = Some r → headroom c → raft_wf r → state r ≠ Leader → msgs r = [] →
  peers r ≠ [] → (electionTimeout r ≤ int_max)%Z →
  rtc (step_among Q) c (put c i (campaigning r) (vote_request_to (campaigning r) <$> peers r)).
Proof.
  intros Hi Hr Hroom Hwf Hl Hm Hps Hto. remember (electionTimeout r) as lim eqn:Hlim.
  remember (electionElapsed r) as e eqn:He. revert e c r Hr Hroom Hwf Hl Hm Hps Hlim He.
  apply (count_up lim (fun e => ∀ c r, _ → _ → _ → _ → _ → _ → _ → e = electionElapsed r → _));
    [done|..]; intros e Hcmp; [|intros IH]; intros c r Hr Hroom Hwf Hl Hm Hps -> ->.
  - apply rtc_once. split; [done|]. exists (EvTick i). split; [done|].
    destruct (Hroom i r Hr) as [_ Hlr].
    rewrite (exec_tick c i r _ Hr (campaign_tick r Hwf Hlr Hl Hps Hcmp)).
    by rewrite drain_with_msgs, msgs_with_msgs.
  - set (r1 := r <| electionElapsed := i64 (electionElapsed r + 1) |>).
    assert (msgs r1 = []) as Hm1 by done.
    assert (step_among Q c (put c i r1 [])) as Hs.
    { split; [done|]. exists (EvTick i). split; [done|].
      rewrite (exec_tick c i r r1 Hr); [|by apply waiting_tick]. by rewrite Hm1, (drain_id r1 Hm1). }
    eapply rtc_l; [exact Hs|]. change (campaigning r) with (campaigning r1).
    change (peers r) with (peers r1).
    rewrite <- (app_nil_l (vote_request_to _ <$> peers r1)), <- (put_put c i r1).
    apply IH; try done; [apply lookup_insert_eq|apply headroom_put; [done|exact (Hroom i r Hr)]|].
    unfold r1. wf_same.
Qed.

Definition asks (c : Cluster) (r : Raft) : Prop :=
  ∀ p, p ∈ peers r → vote_request_to r p ∈ net c.

(** A member of [members] other than itself is a peer. *)
Lemma peers_nonempty r : peers_ok members r → 1 < size members → peers r ≠ [].
Proof. intros Hp Hsz Hnil. pose proof (peers_ok_size _ _ Hp) as Hl. rewrite Hnil in Hl. simpl in Hl. lia. Qed.

(** What campaigning changes of node [i]. *)
Record campaigned (c : Cluster) (i : string) (r : Raft) (c' : Cluster) (r' : Raft) : Prop := {
  cp_run : rtc (step_among Q) c c';
  cp_room : headroom c';
  cp_nodes : nodes c' = <[i := r']> (nodes c);
  cp_state : state r' = Candidate;
  cp_log : log r' = log r;
  cp_heart : heartbeatTimeout r' = heartbeatTimeout r;
  cp_self : map_read false (votes r') i = true;
  cp_asks : asks c' r'
}.

(** Campaigns raise the term past any [M]. *)
Lemma campaign_past n M i c r :
  N.to_nat (M + 1 - currentTerm r) = n → (currentTerm r ≤ M)%N → (M + 2 < two64)%N →
  i ∈ Q → nodes c !! i = Some r → r_id r = i → headroom c → raft_wf r → state r ≠ Leader →
  msgs r = [] → peers r ≠ [] → (electionTimeout r ≤ int_max)%Z →
  ∃ c' r', campaigned c i r c' r' ∧ currentTerm r' = (M + 1)%N.
Proof.
  revert c r. induction n as [|n IH]; intros c r Hn HT HM Hi Hr Hid Hroom Hwf Hl Hm Hps Hto; [lia|].
  pose proof (campaign c i r Hi Hr Hroom Hwf Hl Hm Hps Hto) as Hrun.
  set (r1 := campaigning r) in *. set (c1 := put c i r1 _) in Hrun.
  assert (currentTerm r1 = currentTerm r + 1)%N as HT1 by (apply u64_add_small; lia).
  assert (raft_wf r1) as Hwf1 by (apply candidate_of_wf; wf_same).
  assert (headroom c1) as Hroom1.
  { apply headroom_put; [done|]. destruct (Hroom i r Hr) as [_ Hlr]. split; [lia|exact Hlr]. }
  assert (nodes c1 !! i = Some r1) as Hr1 by apply lookup_insert_eq.
  destruct (decide (currentTerm r = M)) as [Heq|Hne].
  - exists c1, r1. split; [|lia]. split; try done.
    + unfold r1. simpl. rewrite Hid. apply map_read_write_eq.
    + intros p Hp. apply elem_of_app. right. by apply list_elem_of_fmap_2.
  - destruct (IH c1 r1) as (c2 & r2 & [] & HT2); try done; try lia.
    + pose proof (i64_range (baseElectionTimeout r + intn_value (rSeed (rand r)) (rDraws (rand r))
        (baseElectionTimeout r))). unfold int_max. simpl. lia.
    + exists c2, r2. split; [|done]. split; try done; [by trans c1|].
      rewrite cp_nodes0. simpl. by rewrite insert_insert_eq.
Qed.

(** ** Votes *)

Definition granting (r : Raft) (m : Message) : Raft :=
  r <| votedFor := mFrom m |> <| electionElapsed := 0%Z |>.

Lemma fresh_term_grants q m :
  log_wf (log q) → leaderActive q = false → mIsPreVote m = false → currentTerm q = mTerm m →
  votedFor q = NoneID → up_to_date (log q) (mLastLogIndex m) (mLastLogTerm m) = true →
  handleRequestVote q m = Some (send (granting q m) (vote_reply q m false false)).
Proof.
  intros Hwf Hact Hpre HT Hv Hup. rewrite handleRequestVote_eq by done.
  rewrite Hact, Hpre, HT. rewrite decide_False by (by intros [? _]). rewrite decide_False by lia.
  unfold can_vote. rewrite bool_decide_true by (by left). by rewrite Hup.
Qed.

(** A node of an earlier term whose log is not ahead grants the vote. *)
Lemma vote_is_granted s m :
  raft_wf s → mType m = MsgRequestVote → mIsPreVote m = false → (currentTerm s < mTerm m)%N →
  up_to_date (log s) (mLastLogIndex m) (mLastLogTerm m) = true →
  let q := follower_of s (mTerm m) NoneID in
  Step s m = Some (send (granting q m) (vote_reply q m false false)).
Proof.
  intros Hwf Hty Hpre HT Hup q. rewrite Step_eq by apply Hwf.
  assert (stepped s m = q) as ->.
  { unfold stepped, raises_term. rewrite Hpre, bool_decide_true by done. simpl.
    by rewrite decide_False by (rewrite Hty; done). }
  unfold handle. rewrite Hty. by apply fresh_term_grants; [apply Hwf|..].
Qed.

(** A granted vote makes a candidate leader, or is counted. *)
Lemma vote_is_counted r a kvs :
  raft_wf r → log_room r → state r = Candidate → votes r = Some kvs →
  mType a = MsgRequestVoteResp → mIsPreVote a = false → mReject a = false →
  mTerm a = currentTerm r →
  let r1 := r <| votes := Some (<[mFrom a := true]> kvs) |> in
  Step r a = Some (if quorum r1 then with_msgs (leader_of r1) (heartbeat_to (leader_of r1) <$> peers r)
                   else r1).
Proof.
  intros Hwf Hroom Hst Hv Hty Hpre Hrej HT r1. rewrite same_term_step by done.
  unfold handle. rewrite Hty. unfold handleRequestVoteResp. rewrite decide_False by (rewrite Hst; auto).
  rewrite Hpre. rewrite decide_False by auto. rewrite Hv, Hrej. cbn [map_write seq_bind negb].
  fold r1. destruct (quorum r1); [|done]. rewrite becomeLeader_eq; [done|apply Hwf|exact Hroom].
Qed.

(** A candidate that has collected the votes of [have] and its own. *)
Definition has_votes (r : Raft) (have : list string) : Prop :=
  ∀ p, p ∈ have → map_read false (votes r) p = true.

Lemma votes_quorum r have :
  peers_ok members r → NoDup have → has_votes r have → size members < 2 * length have →
  quorum r = true.
Proof.
  intros Hp Hnd Hv Hsz. apply bool_decide_eq_true. rewrite count_true_granted.
  apply (quorumSize_majority members r _ Hp).
  assert (size (list_to_set have : gset string) ≤ size (granted (votes r))) as Hle.
  { apply subseteq_size. intros p Hin%elem_of_list_to_set. by apply elem_of_granted, Hv. }
  rewrite size_list_to_set in Hle by done. lia.
Qed.

(** The reply of [s] to the request of [r]. *)
Lemma request_granted r j s :
  raft_wf s → (currentTerm s < currentTerm r)%N →
  up_to_date (log s) (N.of_nat (pred (length (log r)))) (last_term (log r)) = true →
  ∃ q a, Step s (vote_request_to r j) = Some (send q a) ∧
    currentTerm q = currentTerm r ∧ log q = log s ∧ msgs q = msgs s ∧
    mFrom a = r_id s ∧ mTo a = r_id r ∧ mTerm a = currentTerm r ∧
    mType a = MsgRequestVoteResp ∧ mIsPreVote a = false ∧ mReject a = false.
Proof.
  intros Hwf HT Hup. remember (vote_request_to r j) as m eqn:Hm.
  assert (mType m = MsgRequestVote ∧ mIsPreVote m = false ∧ mTerm m = currentTerm r ∧ mFrom m = r_id r ∧
    mLastLogIndex m = N.of_nat (pred (length (log r))) ∧ mLastLogTerm m = last_term (log r))
    as (Hty & Hpre & HTm & Hfm & Hi & Ht) by (by subst m).
  clear Hm. pose proof (vote_is_granted s m Hwf Hty Hpre) as Hg. cbv zeta in Hg.
  rewrite Hi, Ht, HTm in Hg. specialize (Hg HT Hup). do 2 eexists. split; [exact Hg|].
  unfold granting, vote_reply, follower_of, reset_timeout, syncTerm. simpl. by rewrite Hfm.
Qed.

(** The vote request of candidate [i] reaches [j], and the reply [i]. *)
Lemma ask c i j r s :
  standing members conf c → i ∈ Q → j ∈ Q → nodes c !! i = Some r → state r = Candidate →
  asks c r → j ∈ peers r → nodes c !! j = Some s → (currentTerm s < currentTerm r)%N →
  up_to_date (log s) (N.of_nat (pred (length (log r)))) (last_term (log r)) = true →
  (N.of_nat (length (log r)) + 2 < two64)%N →
  ∃ c' r1 r' s', rtc (step_among Q) c c' ∧ headroom c' ∧
    nodes c' = <[i := r']> (<[j := s']> (nodes c)) ∧ currentTerm s' = currentTerm r ∧
    r1 = r <| votes := insert j true <$> votes r |> ∧ is_Some (votes r) ∧
    (∀ m, m ∈ net c → m ∈ net c') ∧
    r' = (if quorum r1 then leader_of r1 else r1).
Proof.
  intros Hst Hi Hj Hr Hc Hasks Hp Hs HT Hup Hlen.
  destruct (ck_node _ _ (st_ok _ _ _ Hst) i r Hr) as [[Hwf Hpo Hm] Hid].
  destruct (ck_node _ _ (st_ok _ _ _ Hst) j s Hs) as [[Hwfs _ Hms] Hids].
  pose proof (peer_elem _ _ _ Hpo Hp) as [_ Hji]. rewrite Hid in Hji.
  pose proof (st_room _ _ _ Hst) as Hroom.
  destruct (Hroom i r Hr) as [HTr Hlr]. destruct (Hroom j s Hs) as [_ Hls].
  destruct (request_granted r j s Hwfs HT Hup) as
    (q & a & Hgr & HTq & Hlq & Hmq & Hfa & Hta & HTa & Htya & Hpa & Hra).
  rewrite Hids in Hfa. rewrite Hid in Hta. rewrite Hms in Hmq.
  set (c1 := put c j q [a]).
  assert (step_among Q c c1) as Hs1.
  { split; [done|]. exists (EvDeliver (vote_request_to r j)). split; [by split; simpl; [rewrite Hid|]|].
    rewrite (exec_deliver_to c _ s _ (Hasks j Hp) Hs Hgr).
    change (send q a) with (with_msgs q [a]). by rewrite drain_with_msgs, msgs_with_msgs. }
  assert (headroom c1) as Hroom1.
  { apply headroom_put; [done|]. unfold room, log_room in *. rewrite HTq, Hlq. by split. }
  assert (nodes c1 !! i = Some r) as Hr1 by (simpl; by rewrite lookup_insert_ne).
  destruct (rw_votes _ Hwf Hc) as [kvs Hkvs].
  pose proof (vote_is_counted r a kvs Hwf Hlr Hc Hkvs Htya Hpa Hra HTa) as Hcount. cbv zeta in Hcount.
  rewrite Hfa in Hcount. set (r1 := r <| votes := Some (<[j := true]> kvs) |>) in Hcount.
  set (r' := if quorum r1 then leader_of r1 else r1).
  set (ms := if quorum r1 then heartbeat_to (leader_of r1) <$> peers r else []).
  assert (drain (if quorum r1 then with_msgs (leader_of r1) (heartbeat_to (leader_of r1) <$> peers r)
    else r1) = r' ∧ msgs (if quorum r1 then with_msgs (leader_of r1)
      (heartbeat_to (leader_of r1) <$> peers r) else r1) = ms) as [Hdr Hout].
  { unfold r', ms. destruct (quorum r1); [|by split; [apply drain_id|]].
    split; [by apply drain_with_msgs|by apply msgs_with_msgs]. }
  exists (put c1 i r' ms), r1, r', q. split_and!; try done.
  - eapply rtc_l; [exact Hs1|]. apply rtc_once. split; [done|]. exists (EvDeliver a).
    split; [by split; [rewrite Hfa|rewrite Hta]|].
    assert (a ∈ net c1) as Hin by (apply elem_of_app; right; by apply list_elem_of_singleton).
    assert (nodes c1 !! mTo a = Some r) as Hr2 by (by rewrite Hta).
    rewrite (exec_deliver_to c1 a r _ Hin Hr2 Hcount), Hdr, Hout, Hta. done.
  - apply headroom_put; [done|]. clear -HTr Hlr Hlen. unfold r', room, log_room in *.
    destruct (quorum r1); simpl; [|by split]. rewrite length_app. simpl. lia.
  - unfold r1. by rewrite Hkvs.
  - intros m Hin. apply elem_of_app. left. by apply elem_of_app; left.
Qed.

(** ** Winning *)

Record won (c : Cluster) (i : string) (r : Raft) (c' : Cluster) (r' : Raft) : Prop := {
  wn_run : rtc (step_among Q) c c';
  wn_room : headroom c';
  wn_node : nodes c' !! i = Some r';
  wn_state : state r' = Leader;
  wn_term : currentTerm r' = currentTerm r;
  wn_log : log r' = log r ++ [noop_of r];
  wn_heart : heartbeatTimeout r' = heartbeatTimeout r;
  wn_rest k s : k ≠ i → nodes c' !! k = Some s → nodes c !! k = Some s ∨ currentTerm s = currentTerm r
}.

Lemma collect_votes i js : ∀ have c r,
  standing members conf c → i ∈ Q → (∀ j, j ∈ js → j ∈ Q) → nodes c !! i = Some r →
  state r = Candidate → asks c r → (N.of_nat (length (log r)) + 2 < two64)%N →
  (∀ j, j ∈ js → j ∈ peers r ∧ ∃ s, nodes c !! j = Some s ∧ (currentTerm s < currentTerm r)%N ∧
     up_to_date (log s) (N.of_nat (pred (length (log r)))) (last_term (log r)) = true) →
  NoDup (js ++ have) → has_votes r have → size members < 2 * length (js ++ have) → js ≠ [] →
  ∃ c' r', won c i r c' r'.
Proof.
  induction js as [|j js IH]; intros have c r Hst Hi HjQ Hr Hc Hasks Hlen Hjs Hnd Hv Hsz Hne; [done|].
  destruct (Hjs j) as (Hp & s & Hs & HT & Hup); [set_solver|].
  destruct (ck_node _ _ (st_ok _ _ _ Hst) i r Hr) as [[Hwf Hpo Hm] Hid].
  pose proof (peer_elem _ _ _ Hpo Hp) as [_ Hji]. rewrite Hid in Hji.
  destruct (ask c i j r s) as (c1 & r1 & r' & s' & Hrun & Hroom1 & Hn1 & HTs & Hr1 & [kvs Hkvs] & Hnet & Hr');
    [done|done|apply HjQ; set_solver|done..|].
  rewrite Hkvs in Hr1. cbn [fmap option_fmap option_map] in Hr1.
  assert (has_votes r1 (j :: have)) as Hv1.
  { intros p Hin. subst r1. simpl. destruct (decide (p = j)) as [->|Hpj]; [by rewrite map_read_write_eq|].
    rewrite map_read_write_ne by done. rewrite <- Hkvs. apply Hv. set_solver. }
  assert (nodes c1 !! i = Some r') as Hi1 by (rewrite Hn1; apply lookup_insert_eq).
  assert (∀ k s2, k ≠ i → nodes c1 !! k = Some s2 →
    nodes c !! k = Some s2 ∨ currentTerm s2 = currentTerm r) as Hrest1.
  { intros k s2 Hk. rewrite Hn1, lookup_insert_ne by done.
    intros [[_ <-]|[_ ?]]%lookup_insert_Some; [by right|by left]. }
  simpl in Hnd. apply NoDup_cons in Hnd as [Hj Hnd].
  destruct (quorum r1) eqn:Hq; subst r'.
  { exists c1, (leader_of r1). subst r1. by split. }
  assert (js ≠ []) as Hne'.
  { intros ->. enough (quorum r1 = true) by congruence. apply (votes_quorum _ (j :: have)); try done.
    - by subst r1.
    - by constructor. }
  destruct (IH (j :: have) c1 r1) as (c2 & r2 & []); try done.
  - by eapply standing_step.
  - intros k Hk. apply HjQ. set_solver.
  - by subst r1.
  - intros p Hin. apply Hnet. subst r1. by apply Hasks.
  - by subst r1.
  - intros k Hk. destruct (Hjs k) as (Hpk & s2 & Hs2 & HT2 & Hup2); [set_solver|].
    pose proof (peer_elem _ _ _ Hpo Hpk) as [_ Hki]. rewrite Hid in Hki.
    split; [by subst r1|]. exists s2. subst r1. split; [|done].
    rewrite Hn1, !lookup_insert_ne by (congruence || set_solver). done.
  - rewrite <- Permutation_middle. by constructor.
  - rewrite length_app in *. simpl in *. lia.
  - exists c2, r2. subst r1. split; try done; [by trans c1|].
    intros k s2 Hk Hs2. destruct (wn_rest0 k s2 Hk Hs2) as [?|?]; [by apply Hrest1|by right].
Qed.

(** ** Stepping down *)

(** A node of a later term rejects the heartbeat, and the reply ends the lead. *)
Lemma stale_heartbeat s m :
  raft_wf s → mType m = MsgAppendEntries → (mTerm m < currentTerm s)%N →
  Step s m = Some (send s (append_reply s m (currentTerm s) true 0)).
Proof.
  intros Hwf Hty HT. rewrite Step_eq by apply Hwf. unfold stepped, raises_term.
  rewrite bool_decide_false by lia. simpl. unfold handle. rewrite Hty. by apply handleAppendEntries_stale.
Qed.

Lemma later_reply r a :
  raft_wf r → mType a = MsgAppendEntriesResp → (currentTerm r < mTerm a)%N →
  Step r a = Some (follower_of r (mTerm a) NoneID).
Proof.
  intros Hwf Hty HT. rewrite Step_eq by apply Hwf. unfold stepped, raises_term. rewrite Hty.
  rewrite bool_decide_true by done. rewrite (bool_decide_false (_ ∨ _)) by (by intros [?|?]).
  rewrite andb_false_r. simpl. unfold handle. rewrite Hty.
  unfold handleAppendEntriesResp. by rewrite decide_True.
Qed.

Record stepped_down (c : Cluster) (i : string) (r : Raft) (c' : Cluster) (r' : Raft) (T : N) : Prop := {
  sd_run : rtc (step_among Q) c c';
  sd_room : headroom c';
  sd_nodes : nodes c' = <[i := r']> (nodes c);
  sd_state : state r' = Follower;
  sd_term : currentTerm r' = T;
  sd_log : log r' = log r;
  sd_heart : heartbeatTimeout r' = heartbeatTimeout r;
  sd_elect : (electionTimeout r' ≤ int_max)%Z
}.

Lemma step_down c i j r s :
  standing members conf c → i ∈ Q → j ∈ Q → nodes c !! i = Some r → state r = Leader →
  (heartbeatTimeout r ≤ int_max)%Z → j ∈ peers r → nodes c !! j = Some s →
  (currentTerm r < currentTerm s)%N → ∃ c' r', stepped_down c i r c' r' (currentTerm s).
Proof.
  intros Hst Hi Hj Hr Hl Hto Hp Hs HT.
  destruct (ck_node _ _ (st_ok _ _ _ Hst) i r Hr) as [[Hwf Hpo Hm] Hid].
  destruct (ck_node _ _ (st_ok _ _ _ Hst) j s Hs) as [[Hwfs _ Hms] Hids].
  pose proof (peer_elem _ _ _ Hpo Hp) as [_ Hji]. rewrite Hid in Hji.
  pose proof (st_room _ _ _ Hst) as Hroom. pose proof (Hroom i r Hr) as Hrr.
  pose proof (Hroom j s Hs) as Hrs.
  pose proof (fire Q c i r Hi Hr Hroom Hwf Hl Hm Hto) as Hfire.
  set (ms := heartbeat_to r <$> peers r) in *. set (c1 := put c i (fired r) ms) in *.
  assert (raft_wf (fired r)) as Hwf1 by (clear -Hwf; unfold fired; wf_same).
  assert (headroom c1) as Hroom1 by (apply headroom_put; [done|exact Hrr]).
  assert (nodes c1 !! j = Some s) as Hs1 by (simpl; by rewrite lookup_insert_ne).
  assert (heartbeat_to r j ∈ net c1) as Hin
    by (apply elem_of_app; right; by apply list_elem_of_fmap_2).
  pose proof (stale_heartbeat s (heartbeat_to r j) Hwfs eq_refl HT) as Hstep.
  set (a := append_reply _ _ _ _ _) in Hstep. set (c2 := put c1 j s [a]).
  assert (step_among Q c1 c2) as H2.
  { split; [done|]. exists (EvDeliver (heartbeat_to r j)). split; [by split; simpl; [rewrite Hid|]|].
    rewrite (exec_deliver_to c1 _ s _ Hin Hs1 Hstep).
    change (send s a) with (with_msgs s [a]). by rewrite drain_with_msgs, msgs_with_msgs. }
  assert (headroom c2) as Hroom2 by (apply headroom_put; [done|exact Hrs]).
  assert (mFrom a = j ∧ mTo a = i) as [Hfa Hta] by (unfold a; simpl; by rewrite Hids).
  pose proof (later_reply (fired r) a Hwf1 eq_refl HT) as Hstep2. change (mTerm a) with (currentTerm s) in Hstep2.
  set (r' := follower_of (fired r) (currentTerm s) NoneID) in Hstep2.
  assert (msgs r' = []) as Hm' by exact Hm.
  assert (room r') as Hroom'
    by (destruct Hrr as [_ Hlr], Hrs as [HTs _]; split; [exact HTs|exact Hlr]).
  exists (put c2 i r' []), r'. split; try done.
  - eapply rtc_r; [eapply rtc_r; [exact Hfire|exact H2]|]. split; [done|]. exists (EvDeliver a).
    split; [unfold among; by rewrite Hfa, Hta|].
    assert (nodes c2 !! mTo a = Some (fired r)) as Hr2
      by (rewrite Hta; simpl; rewrite lookup_insert_ne by done; apply lookup_insert_eq).
    assert (a ∈ net c2) as Hina by (apply elem_of_app; right; by apply list_elem_of_singleton).
    by rewrite (exec_deliver_to c2 a _ _ Hina Hr2 Hstep2), Hta, Hm', (drain_id r' Hm').
  - by apply headroom_put.
  - simpl. rewrite (insert_insert_ne _ j i) by done. rewrite insert_insert_eq.
    by rewrite (insert_id (nodes c) j s).
  - pose proof (i64_range (baseElectionTimeout r + intn_value (rSeed (rand r)) (rDraws (rand r))
      (baseElectionTimeout r))). unfold int_max. simpl. lia.
Qed.

(** ** A most up-to-date member *)

Definition log_key (l : list LogEntry) : N * nat := (last_term l, pred (length l)).

Definition not_ahead (l l' : list LogEntry) : Prop :=
  up_to_date l (N.of_nat (pred (length l'))) (last_term l') = true.

Lemma not_ahead_iff l l' :
  not_ahead l l' ↔ (last_term l < last_term l')%N ∨
    (last_term l = last_term l' ∧ pred (length l) ≤ pred (length l')).
Proof.
  unfold not_ahead, up_to_date. case_decide; rewrite bool_decide_eq_true; lia.
Qed.

Lemma most_up_to_date (c : Cluster) (js : list string) :
  js ≠ [] → (∀ j, j ∈ js → is_Some (nodes c !! j)) →
  ∃ i r, i ∈ js ∧ nodes c !! i = Some r ∧
    ∀ j s, j ∈ js → nodes c !! j = Some s → not_ahead (log s) (log r).
Proof.
  induction js as [|j js IH]; intros Hne Hsome; [done|].
  destruct (Hsome j) as [s Hs]; [set_solver|].
  destruct (decide (js = [])) as [->|Hjs].
  { exists j, s. split_and!; [set_solver|done|]. intros k t ->%list_elem_of_singleton Ht.
    rewrite Hs in Ht. injection Ht as <-. apply not_ahead_iff. lia. }
  destruct IH as (i & r & Hi & Hr & Hbest); [done|intros k Hk; apply Hsome; set_solver|].
  assert (not_ahead (log s) (log r) ∨ not_ahead (log r) (log s)) as [Hsr|Hrs]
    by (rewrite !not_ahead_iff; lia).
  - exists i, r. split_and!; [set_solver|done|]. intros k t [->|Hk]%elem_of_cons Ht; [|by eapply Hbest].
    rewrite Hs in Ht. by injection Ht as <-.
  - exists j, s. split_and!; [set_solver|done|]. intros k t [->|Hk]%elem_of_cons Ht.
    + rewrite Hs in Ht. injection Ht as <-. apply not_ahead_iff. lia.
    + pose proof (Hbest k t Hk Ht) as Htr. rewrite !not_ahead_iff in *. lia.
Qed.

Definition top_term (c : Cluster) (js : list string) : N :=
  foldr (fun j M => N.max M (from_option currentTerm 0%N (nodes c !! j))) 0%N js.

Lemma top_term_ge c js j s : j ∈ js → nodes c !! j = Some s → (currentTerm s ≤ top_term c js)%N.
Proof.
  intros Hj Hs. induction js as [|k js IH]; [by apply not_elem_of_nil in Hj|].
  cbn [top_term foldr]. apply elem_of_cons in Hj as [<-|Hj].
  - rewrite Hs. simpl. lia.
  - specialize (IH Hj). unfold top_term in IH. lia.
Qed.

Lemma top_term_bound c js B :
  (0 < B)%N → (∀ j s, j ∈ js → nodes c !! j = Some s → (currentTerm s < B)%N) → (top_term c js < B)%N.
Proof.
  intros HB Hall. induction js as [|k js IH]; [done|]. cbn [top_term foldr].
  assert (top_term c js < B)%N as Hrec by (apply IH; intros j s Hj; apply Hall; set_solver).
  unfold top_term in Hrec. destruct (nodes c !! k) as [s|] eqn:Hs; simpl; [|lia].
  pose proof (Hall k s ltac:(set_solver) Hs). lia.
Qed.

(** ** Election *)

(** Two more terms and three more entries have numbers, and the timeouts are
    values of a Go [int]. *)
Definition ample (c : Cluster) : Prop :=
  ∀ i r, nodes c !! i = Some r →
    (currentTerm r + 2 < two64)%N ∧ (N.of_nat (length (log r)) + 3 < two64)%N ∧
    (heartbeatTimeout r ≤ int_max)%Z ∧ (electionTimeout r ≤ int_max)%Z.

#[export] Instance ample_dec c : Decision (ample c).
Proof.
  refine (cast_if (decide (map_Forall (fun _ r =>
    (currentTerm r + 2 < two64)%N ∧ (N.of_nat (length (log r)) + 3 < two64)%N ∧
    (heartbeatTimeout r ≤ int_max)%Z ∧ (electionTimeout r ≤ int_max)%Z) (nodes c)))); done.
Defined.

(** A leader that no member of [Q] has passed. *)
Record leads (c : Cluster) (i : string) (r : Raft) : Prop := {
  ls_node : nodes c !! i = Some r;
  ls_in : i ∈ Q;
  ls_state : state r = Leader;
  ls_heart : (heartbeatTimeout r ≤ int_max)%Z;
  ls_log : (N.of_nat (length (log r)) + 2 < two64)%N;
  ls_top j s : j ∈ Q → nodes c !! j = Some s → (currentTerm s ≤ currentTerm r)%N
}.

Lemma others_in_Q i j : j ∈ elements (Q ∖ {[i]}) ↔ j ∈ Q ∧ j ≠ i.
Proof. set_solver. Qed.

(** A member with a most up-to-date log that does not lead runs and wins. *)
Lemma run_for_leader c i r :
  standing members conf c → ample c → 1 < size members → majority members Q → i ∈ Q →
  nodes c !! i = Some r → state r ≠ Leader →
  (∀ j s, j ∈ Q → nodes c !! j = Some s → not_ahead (log s) (log r)) →
  ∃ c' r', rtc (step_among Q) c c' ∧ headroom c' ∧ leads c' i r'.
Proof using Hmo.
  intros Hst Hample Hsz [HQ Hmaj] Hi Hr Hnl Hbest.
  destruct (ck_node _ _ (st_ok _ _ _ Hst) i r Hr) as [[Hwf Hpo Hm] Hid].
  destruct (Hample i r Hr) as (HT2 & Hl3 & Hhb & Hel).
  assert (i ∈ elements Q) as HiQ by set_solver. set (M := top_term c (elements Q)).
  assert (M + 2 < two64)%N as HM.
  { assert (M < two64 - 2)%N; [|lia]. apply top_term_bound; [done|]. intros j s _ Hs.
    destruct (Hample j s Hs) as [? _]. lia. }
  assert (∀ j s, j ∈ Q → nodes c !! j = Some s → (currentTerm s ≤ M)%N) as Htop
    by (intros j s Hj; apply top_term_ge; set_solver).
  destruct (campaign_past (N.to_nat (M + 1 - currentTerm r)) M i c r) as (c1 & r1 & [] & HT1);
    try done; [by apply (Htop i)|apply Hst|by apply peers_nonempty|].
  assert (nodes c1 !! i = Some r1) as Hr1 by (rewrite cp_nodes0; apply lookup_insert_eq).
  pose proof (standing_step members conf Hmo Q c c1 Hst cp_run0 cp_room0) as Hst1.
  destruct (ck_node _ _ (st_ok _ _ _ Hst1) i r1 Hr1) as [[_ Hpo1 _] Hid1].
  assert (∀ j s, j ≠ i → nodes c1 !! j = Some s → nodes c !! j = Some s) as Hrest
    by (intros j s Hj; by rewrite cp_nodes0, lookup_insert_ne).
  set (js := elements (Q ∖ {[i]})).
  assert (length js + 1 = size Q) as Hjs.
  { unfold js. change (length (elements ?X)) with (size X). rewrite size_difference by set_solver.
    rewrite size_singleton. assert (size Q ≠ 0) by (intros H0; lia). lia. }
  destruct (collect_votes i js [i] c1 r1) as (c2 & r2 & []); try done.
  - by intros j [? _]%others_in_Q.
  - rewrite cp_log0. lia.
  - intros j [Hj Hji]%others_in_Q. split.
    { destruct Hpo1 as (_ & _ & Hp). apply Hp. rewrite Hid1. split; [by apply HQ|done]. }
    destruct (reachable_node_dom members conf Hmo c (st_reach _ _ _ Hst) j) as [s Hs]; [by apply HQ|].
    exists s. split; [by rewrite cp_nodes0, lookup_insert_ne|].
    pose proof (Htop j s Hj Hs). split; [lia|]. rewrite cp_log0. by apply (Hbest j).
  - apply NoDup_app. split; [apply NoDup_elements|]. split; [|apply NoDup_singleton].
    intros j [_ Hji]%others_in_Q. by rewrite list_elem_of_singleton.
  - by intros p ->%list_elem_of_singleton.
  - rewrite length_app. simpl. lia.
  - intros Hnil. rewrite Hnil in Hjs. simpl in Hjs. lia.
  - exists c2, r2. split_and!; [by trans c1|done|]. split; try done; try congruence.
    + rewrite wn_log0, length_app, cp_log0. simpl. lia.
    + intros j s Hj Hs. destruct (decide (j = i)) as [->|Hji].
      { rewrite wn_node0 in Hs. by injection Hs as <-. }
      destruct (wn_rest0 j s Hji Hs) as [Hs1|HTs]; [|lia].
      pose proof (Htop j s Hj (Hrest j s Hji Hs1)). lia.
Qed.

Lemma elect c :
  standing members conf c → ample c → 1 < size members → majority members Q →
  ∃ c' i r', rtc (step_among Q) c c' ∧ headroom c' ∧ leads c' i r'.
Proof using Hmo.
  intros Hst Hample Hsz Hmaj. pose proof Hmaj as [HQ HszQ].
  assert (∀ j, j ∈ Q → is_Some (nodes c !! j)) as Hdom
    by (intros j Hj; apply (reachable_node_dom members conf Hmo c (st_reach _ _ _ Hst)), HQ, Hj).
  destruct (most_up_to_date c (elements Q)) as (i & r & Hi & Hr & Hbest).
  { intros Hnil. apply (f_equal length) in Hnil. change (size Q = 0) in Hnil. lia. }
  { intros j Hj. apply Hdom. set_solver. }
  assert (i ∈ Q) as HiQ by set_solver. destruct (Hample i r Hr) as (HT2 & Hl3 & Hhb & Hel).
  assert (∀ j s, j ∈ Q → nodes c !! j = Some s → not_ahead (log s) (log r)) as HbestQ
    by (intros j s Hj; apply Hbest; set_solver).
  destruct (decide (state r = Leader)) as [Hl|Hnl].
  2: { destruct (run_for_leader c i r) as (c' & r' & ?); try done. by exists c', i, r'. }
  destruct (decide (Forall (fun j => (from_option currentTerm 0 (nodes c !! j) ≤ currentTerm r)%N)
    (elements Q))) as [Hall|Hex].
  { exists c, i, r. split_and!; [apply rtc_refl|apply Hst|]. split; try done; [lia|].
    intros j s Hj Hs. pose proof (proj1 (Forall_forall _ _) Hall j ltac:(set_solver)) as Hle.
    cbv beta in Hle. rewrite Hs in Hle. exact Hle. }
  apply not_Forall_Exists, Exists_exists in Hex as (j & Hj & Hgt); [|apply _].
  assert (j ∈ Q) as HjQ by set_solver. destruct (Hdom j HjQ) as [s Hs].
  unfold compose in Hgt. rewrite Hs in Hgt. simpl in Hgt.
  destruct (ck_node _ _ (st_ok _ _ _ Hst) i r Hr) as [[Hwf Hpo Hm] Hid].
  assert (j ∈ peers r) as Hp.
  { destruct Hpo as (_ & _ & Hp). apply Hp. split; [by apply HQ|]. rewrite Hid. intros ->.
    rewrite Hr in Hs. injection Hs as <-. lia. }
  destruct (step_down c i j r s) as (c1 & r1 & []); try done; [lia|].
  assert (nodes c1 !! i = Some r1) as Hr1 by (rewrite sd_nodes0; apply lookup_insert_eq).
  destruct (run_for_leader c1 i r1) as (c' & r' & Hrun & ?); try done.
  - by eapply standing_step.
  - intros k t. rewrite sd_nodes0. intros [[<- <-]|[_ Ht]]%lookup_insert_Some; [|by apply (Hample k)].
    rewrite sd_term0, sd_log0, sd_heart0. destruct (Hample j s Hs) as [? _]. done.
  - by rewrite sd_state0.
  - intros k t Hk. rewrite sd_nodes0, sd_log0. intros [[<- <-]|[_ Ht]]%lookup_insert_Some;
      [|by apply (HbestQ k)]. rewrite sd_log0. apply not_ahead_iff. lia.
  - exists c', i, r'. split; [by trans c1|done].
Qed.

(** ** A command *)

Lemma propose_among c i r d :
  standing members conf c → leads c i r →
  ∃ c' r', step_among Q c c' ∧ headroom c' ∧ nodes c' !! i = Some r' ∧ state r' = Leader ∧
    heartbeatTimeout r' = heartbeatTimeout r ∧ currentTerm r' = currentTerm r ∧
    (∀ j s, j ∈ Q → nodes c' !! j = Some s → (currentTerm s ≤ currentTerm r')%N) ∧
    log r' = log r ++ [mkLogEntry (N.of_nat (length (log r))) (currentTerm r) d EntryCommand].
Proof using Hmo.
  intros Hst [Hr Hi Hl Hhb Hlen Htop].
  destruct (ck_node _ _ (st_ok _ _ _ Hst) i r Hr) as [[Hwf Hpo Hm] Hid].
  pose proof (st_room _ _ _ Hst) as Hroom. destruct (Hroom i r Hr) as [HT Hlr].
  set (r' := proposed r d). set (ms := heartbeat_to r' <$> peers r).
  assert (msgs r' = []) as Hm' by exact Hm.
  assert (log r' = log r ++ [mkLogEntry (N.of_nat (length (log r))) (currentTerm r) d EntryCommand] ∧
    currentTerm r' = currentTerm r ∧ state r' = state r ∧ heartbeatTimeout r' = heartbeatTimeout r)
    as (Hlog & HT' & Hs' & Hhb') by done.
  pose proof (Propose_eq r d (rw_log _ Hwf) Hlr) as Hp. rewrite decide_False in Hp by (rewrite Hl; auto).
  fold r' in Hp. fold ms in Hp. clearbody r' ms.
  exists (put c i r' ms), r'.
  split_and!; [| |apply lookup_insert_eq|congruence|done|done| |done].
  - split; [done|]. exists (EvPropose i d). split; [done|]. simpl. unfold at_node. rewrite Hr.
    cbn [seq_bind]. rewrite Hp. cbn [seq_bind snd].
    change (Messages (with_msgs r' ms)) with (msgs (with_msgs r' ms), drain (with_msgs r' ms)).
    by rewrite drain_with_msgs, msgs_with_msgs.
  - apply headroom_put; [done|]. unfold room, log_room. rewrite HT', Hlog, length_app. simpl. lia.
  - intros j s Hj. simpl. intros [[<- <-]|[_ Hs]]%lookup_insert_Some; [lia|].
    rewrite HT'. by apply (Htop j).
Qed.
End runs.

(** ** Theorems *)

(** C7: a majority can always commit.  Take any state that a cluster of at least
    two nodes reaches without crashes, however its messages were lost, duplicated
    or delayed and whatever its nodes believe, as long as the counters have some
    room left; any majority [Q]; and any command.  Then there is a continuation in
    which only the nodes of [Q] tick and only messages among them are delivered,
    after which a member of [Q] leads, has the command as its last entry, has
    committed its whole log, and has handed all of it, the command last, to its
    state machine. *)
Theorem majority_can_commit `{GoRand} members conf c Q data :
  membership_ok members conf → reachable members conf c → ample c →
  1 < size members → majority members Q →
  ∃ c' i r T k, rtc (step_among Q) c c' ∧ i ∈ Q ∧ nodes c' !! i = Some r ∧
    state r = Leader ∧ currentTerm r = T ∧
    last (log r) = Some (mkLogEntry k T data EntryCommand) ∧ commitIndex r = k ∧
    applied_of c' i = drop 1 (log r) ∧
    last (applied_of c' i) = Some (mkLogEntry k T data EntryCommand).
Proof.
  intros Hmo Hre Hample Hsz Hmaj.
  assert (headroom c) as Hroom.
  { intros i r Hr. destruct (Hample i r Hr) as (HT & Hl & _). unfold log_room. lia. }
  pose proof (standing_intro members conf Hmo c Hre Hroom) as Hst.
  destruct (elect members conf Hmo Q c Hst Hample Hsz Hmaj) as (c1 & i & r1 & Hrun1 & Hroom1 & Hld).
  pose proof (standing_step members conf Hmo Q c c1 Hst Hrun1 Hroom1) as Hst1.
  pose proof (ls_in _ _ _ _ Hld) as Hi.
  destruct (propose_among members conf Hmo Q c1 i r1 data Hst1 Hld) as
    (c2 & r2 & Hs2 & Hroom2 & Hr2 & Hl2 & Hhb2 & HT2 & Htop2 & Hlog2).
  pose proof (standing_step members conf Hmo Q c1 c2 Hst1 (rtc_once _ _ Hs2) Hroom2) as Hst2.
  destruct (commit_among members conf Hmo Q c2 i r2) as (c3 & r3 & Hrun3 & Hr3 & Hsl & Hcm & Hap);
    try done; [rewrite Hhb2; apply Hld|].
  destruct Hsl as [Hs3 HT3 Hl3 _ _ _ _].
  assert (last (log r3) = Some (mkLogEntry (N.of_nat (length (log r1))) (currentTerm r3) data EntryCommand))
    as Hlast by (by rewrite Hl3, Hlog2, last_snoc, HT3, HT2).
  exists c3, i, r3, (currentTerm r3), (N.of_nat (length (log r1))).
  split_and!; try done; [|congruence| |].
  - trans c1; [done|]. by eapply rtc_l.
  - rewrite Hcm. unfold last_of. rewrite Hl3, Hlog2, length_app. simpl. lia.
  - rewrite Hap, <- Hlast. apply last_drop_lt. rewrite Hl3, Hlog2, length_app. simpl.
    destruct (st_lead _ _ _ Hst1 i r1 (ls_node _ _ _ _ Hld) (ls_state _ _ _ _ Hld)). lia.
Qed.

(** Node "a" leads and has committed an entry that "c" has not heard of; "b" and
    "c" are left to themselves. *)
Lemma majority_can_commit_witness :
  ∃ c' i r T k, rtc (step_among {["b"; "c"]}) trio2 c' ∧ nodes c' !! i = Some r ∧
    state r = Leader ∧ last (log r) = Some (mkLogEntry k T [x02] EntryCommand) ∧
    commitIndex r = k.
Proof.
  destruct (majority_can_commit trio trio_conf trio2 {["b"; "c"]} [x02]) as
    (c' & i & r & T & k & Hrun & _ & Hr & Hl & _ & Hlast & Hc & _).
  - exact trio_membership.
  - exists trio0. split; [exact trio0_initial|]. destruct trio_steps as (H01 & H12 & _).
    by trans trio1.
  - apply (bool_decide_unpack _). by vm_compute.
  - apply Nat.ltb_lt. by vm_compute.
  - split; apply (bool_decide_unpack _); by vm_compute.
  - exists c', i, r, T, k. split; [exact Hrun|]. split; [exact Hr|]. split; [exact Hl|].
    split; [exact Hlast|exact Hc].
Defined.
