(* ===== verification/Lease.v ===== *)
(** * When a leader is up to date

    [HandleRead] trusts a leader because of its lease.  What makes a leader's
    state current is something else: no node is in a later term, and the leader
    has committed an entry of its own term.  Then every entry that any node
    regards as committed is committed at the leader. *)

From S2P Require Import Prelude Pb Raft RaftWf Cluster ClusterTrans Election Logs LogInv LogStep LogSafety Sample.

(** The commit index in a request is one the leader that sent it had. *)
Definition sent_ok (c : Cluster) : Prop :=
  ∀ m r, m ∈ net c → mType m = MsgAppendEntries → nodes c !! mFrom m = Some r →
    state r = Leader → currentTerm r = mTerm m → (mLeaderCommit m ≤ commitIndex r)%N.

(** A node of a leader's term is behind it, or committed nothing in the term. *)
Definition behind (r s : Raft) : Prop :=
  (commitIndex s ≤ commitIndex r)%N ∨ (log_term (log s) (commitIndex s) < currentTerm r)%N.

Definition current_ok (c : Cluster) : Prop :=
  ∀ i r j s, nodes c !! i = Some r → state r = Leader → nodes c !! j = Some s →
    currentTerm s = currentTerm r → behind r s.

Section lease.
Context {GR : GoRand}.
Context (members : gset string) (Hmem : NoneID ∉ members).

(** ** Elementary transitions *)

Section preserve.
Context (ll : leaders) (h : History) (c : Cluster).
Context (Inv : log_inv members ll h c) (Hsent : sent_ok c) (Hcur : current_ok c).
Context (ntw : list Message) (i : string) (r r' : Raft) (ms : list Message).
Context (Hr : nodes c !! i = Some r) (Hntw : ∀ m, m ∈ ntw → m ∈ net c).
Context (Ht : trans ntw r r' ms) (Hcalm : calm members r r' ms).

Lemma commit_grows : (commitIndex r ≤ commitIndex r')%N.
Proof using Inv Hr Hntw Ht. by eapply (commit_mono members ll h c Inv ntw i r r' ms). Qed.

Lemma sent_step : sent_ok (put c i r' ms).
Proof using Inv Hsent Hr Hntw Ht Hcalm.
  intros m s Hm Hty Hs Hl HT. simpl in Hm. apply elem_of_app in Hm as [Hm|Hm].
  - apply step_put in Hs as [[Hf ->]|[_ Hs]]; [|by apply Hsent].
    destruct (trans_leader _ _ _ _ Ht Hl) as [HTr [[Hlr _]|[Hcr _]]].
    + pose proof commit_grows. pose proof (Hsent m r Hm Hty) as Hold. rewrite Hf in Hold.
      specialize (Hold Hr Hlr ltac:(congruence)). lia.
    + destruct (lg_append _ _ _ _ Inv m Hm Hty) as (L & _ & HL & _).
      rewrite Hf, <- HT, HTr in HL. pose proof (lg_only _ _ _ _ Inv _ _ _ Hr HL). congruence.
  - destruct (calm_out _ _ _ _ Hcalm m Hm) as (Hf & _).
    destruct (trans_appends _ _ _ _ _ Ht Hm Hty) as (_ & p & ->).
    apply step_put in Hs as [[_ ->]|[Hne _]]; [done|].
    destruct Hne. rewrite Hf. by eapply step_id.
Qed.

(** The entry at a node's commit index has a term that its log knows. *)
Lemma commit_term j s :
  nodes c !! j = Some s →
  N.to_nat (commitIndex s) < length (log s) ∧ (log_term (log s) (commitIndex s) ≤ currentTerm s)%N.
Proof using Inv.
  intros Hs. pose proof (node_wf _ _ _ _ Inv _ _ Hs) as Hwf.
  pose proof (safe_lt _ _ _ _ _ _ Hwf (lg_commit _ _ _ _ Inv _ _ Hs)) as Hlt. split; [done|].
  destruct (lookup_lt_is_Some_2 _ _ Hlt) as [e He]. rewrite (log_term_lookup_N _ _ _ He).
  by apply (lg_le _ _ _ _ Inv _ _ _ _ Hs He).
Qed.

(** The committed entry is still there after the transition. *)
Lemma commit_term_kept :
  log_term (log r') (commitIndex r) = log_term (log r) (commitIndex r).
Proof using Inv Hr Hntw Ht Hcalm.
  pose proof (commit_prefix members ll h c Inv ntw i r r' ms Hr Hntw Ht Hcalm) as Hp.
  destruct (commit_term i r Hr) as [Hlt _]. destruct (lookup_lt_is_Some_2 _ _ Hlt) as [e He].
  rewrite (log_term_lookup_N _ _ _ He). apply log_term_lookup_N.
  rewrite <- (lookup_take_lt _ (S (N.to_nat (commitIndex r)))), Hp by lia.
  by rewrite lookup_take_lt by lia.
Qed.

(** A node that wins its term is ahead of all nodes of the term: nobody has an
    entry of the term yet. *)
Lemma winner_ahead j s :
  state r = Candidate → state r' = Leader → nodes c !! j = Some s →
  currentTerm s = currentTerm r' → behind r' s.
Proof using Inv Hr Hntw Ht Hcalm Hmem.
  intros Hc Hl Hs HT. destruct (trans_leader _ _ _ _ Ht Hl) as [HTr _]. right.
  destruct (commit_term j s Hs) as [Hlt Hle].
  destruct (decide (log_term (log s) (commitIndex s) = currentTerm s)) as [Heq|]; [|lia].
  exfalso. pose proof (lg_pos _ _ _ _ Inv _ _ Hr ltac:(congruence)) as Hpos.
  assert (commitIndex s < N.of_nat (length (log s)))%N as HltN by lia.
  destruct (has_log_term _ _ _ HltN Heq) as (e & He & Hte).
  pose proof (win_fresh members Hmem ll h c Inv ntw i r r' ms Hr Hntw Ht Hcalm Hc Hl) as Hfresh.
  destruct (decide (commitIndex s = 0%N)) as [H0|Hne].
  - rewrite H0 in He. change (N.to_nat 0) with 0 in He. rewrite (log_wf_sentinel _ (node_wf _ _ _ _ Inv _ _ Hs)) in He.
    injection He as <-. simpl in Hte. lia.
  - destruct (lg_log _ _ _ _ Inv _ _ Hs (N.to_nat (commitIndex s)) e) as (_ & y & L & HL & _);
      [lia|done|]. rewrite Hte, HT, HTr in HL. congruence.
Qed.

(** A follower of the term that takes a transition stays behind its leader. *)
Lemma mover_behind a ra :
  a ≠ i → nodes c !! a = Some ra → state ra = Leader → currentTerm r' = currentTerm ra →
  behind ra r'.
Proof using Inv Hsent Hcur Hr Hntw Ht Hcalm.
  intros Hai Ha Hla HT.
  assert (commitIndex r' = commitIndex r → behind ra r') as Hsame.
  { intros Hc. unfold behind. rewrite Hc, commit_term_kept. pose proof (trans_term _ _ _ _ Ht) as Hle.
    destruct (commit_term i r Hr) as [_ Htm].
    destruct (decide (currentTerm r = currentTerm r')); [|right; lia].
    apply (Hcur a ra i r Ha Hla Hr). congruence. }
  destruct (trans_commit _ _ _ _ Ht) as [?|[[m Htk]|(Hl' & Hl & HTr & _)]]; [by apply Hsame| |].
  - destruct (accepted_log members ll h c Inv ntw i r r' Hr Hntw m Htk)
      as (x & L & Lm & _ & _ & _ & _ & _ & _ & _ & _ & Hc).
    destruct Htk as [Hm%Hntw Hty _ HTm HTr _ _ _ _].
    destruct (lg_append _ _ _ _ Inv m Hm Hty) as (L' & _ & HL' & _).
    pose proof (lg_lead _ _ _ _ Inv _ _ Ha Hla) as HLa.
    assert (mTerm m = currentTerm ra) as HTma by congruence.
    rewrite HTma, HLa in HL'. injection HL' as Hf _.
    pose proof (Hsent m ra Hm Hty) as Hle. rewrite <- Hf in Hle.
    specialize (Hle Ha Hla ltac:(done)).
    destruct (N.max_spec (commitIndex r) (mLeaderCommit m)) as [[_ Hmax]|[_ Hmax]].
    + left. lia.
    + apply Hsame. congruence.
  - pose proof (lg_lead _ _ _ _ Inv _ _ Ha Hla) as HLa.
    pose proof (lg_lead _ _ _ _ Inv _ _ Hr Hl) as HLr. congruence.
Qed.

Lemma current_step : current_ok (put c i r' ms).
Proof using Inv Hsent Hcur Hr Hntw Ht Hcalm Hmem.
  intros a ra b sb Ha Hl Hb HT.
  apply step_put in Ha as [[-> ->]|[Hai Ha]], Hb as [[-> ->]|[Hbi Hb]].
  - left. lia.
  - destruct (trans_leader _ _ _ _ Ht Hl) as [HTr [[Hlr _]|[Hcr _]]]; [|by apply (winner_ahead b)].
    pose proof commit_grows. unfold behind in *. rewrite HTr.
    destruct (Hcur i r b sb Hr Hlr Hb ltac:(congruence)); [left; lia|by right].
  - by apply (mover_behind a).
  - by apply (Hcur a ra b sb).
Qed.
End preserve.

(** ** Runs *)

Definition lease_inv (c : Cluster) : Prop :=
  sent_ok c ∧ current_ok c ∧ ∃ ll h, log_inv members ll h c.

Lemma lease_inv_put c i r r' ms ntw :
  lease_inv c → nodes c !! i = Some r → (∀ m, m ∈ ntw → m ∈ net c) →
  trans ntw r r' ms → calm members r r' ms → lease_inv (put c i r' ms).
Proof using Hmem.
  intros (Hsent & Hcur & ll & h & Inv) Hr Hin Ht Hcalm. split_and!.
  - by apply (sent_step ll h c Inv Hsent ntw i r).
  - by apply (current_step ll h c Inv Hsent Hcur ntw i r).
  - exists (record_leader ll r'), (observe h r'). by eapply (log_inv_step members).
Qed.

Lemma lease_inv_step c c' : lease_inv c → step c c' → lease_inv c'.
Proof using Hmem.
  intros Hinv (Hroom & e & Hex). pose proof Hinv as (_ & _ & ll & h & Inv).
  assert (cluster_ok members c) as Hok by (eapply elect_inv_ok, lg_elect, Inv).
  destruct (exec_cases members c e c' Hok Hroom Hex) as
    [(i & r & r' & ms & Hr & Ht & ->)|(i & r & er & Hr & Ha & ->)].
  - apply (transs_put members lease_inv (net c) i r r' ms); try done.
    intros c1 s s' ms1 Hinv1 Hs Hin Hts Htame. eapply lease_inv_put; try done.
    destruct Hinv1 as (_ & _ & ll1 & h1 & Inv1).
    apply tame_calm; [|done]. by eapply (ei_node _ _ _ (lg_elect _ _ _ _ Inv1)).
  - destruct (apply_cases members c i r er Hok Hr Ha) as (Hcalm & Hv & Hl & Hm).
    assert (trans [] r er.2 []) as Ht by (by apply tr_keep).
    assert (∀ m, m ∈ [] → m ∈ net c) as Hnil by (by intros m ?%not_elem_of_nil).
    destruct (lease_inv_put c i r er.2 [] [] Hinv Hr Hnil Ht Hcalm) as (Hs & Hc & ll' & h' & Inv').
    split_and!.
    + intros m s. specialize (Hs m s). simpl in *. by rewrite app_nil_r in Hs.
    + exact Hc.
    + exists ll', h'. by apply log_inv_applied.
Qed.

Lemma lease_inv_initial conf c : membership_ok members conf → initial members conf c → lease_inv c.
Proof using Hmem.
  intros [_ Hcf] Hini. destruct (run_inv_initial members conf Hmem Hcf c Hini) as (_ & _ & ll & h & _ & Inv).
  destruct Hini as (Hn & Hnet & _). split_and!; [| |by exists ll, h].
  - intros m r Hm. rewrite Hnet in Hm. by apply not_elem_of_nil in Hm.
  - intros i r j s Hr Hl. exfalso. rewrite Hn in Hr. case_decide as Hi; [|done].
    rewrite NewRaft_eq in Hr by (by eapply fresh_config_wf, Hcf). by injection Hr as <-.
Qed.
End lease.

Lemma reachable_lease `{GoRand} members conf c :
  membership_ok members conf → reachable members conf c → lease_inv members c.
Proof.
  intros Hmo (c0 & Hi & Hs). pose proof Hmo as [Hmem _].
  pose proof (lease_inv_initial members Hmem conf c0 Hmo Hi) as Hinv. clear Hi.
  induction Hs as [|c0 c1 c2 H01 _ IH]; [done|]. apply IH. by eapply lease_inv_step.
Qed.

(** A leader that has committed an entry of its term, while no node is in a later
    term. *)
Definition settled (c : Cluster) (r : Raft) : Prop :=
  state r = Leader ∧ log_term (log r) (commitIndex r) = currentTerm r ∧
  ∀ j s, nodes c !! j = Some s → (currentTerm s ≤ currentTerm r)%N.

(** Nobody's commit index is ahead of a settled leader's. *)
Lemma settled_ahead `{GoRand} members conf c ll h i r j s :
  membership_ok members conf → reachable members conf c → log_inv members ll h c →
  nodes c !! i = Some r → settled c r → nodes c !! j = Some s →
  (commitIndex s ≤ commitIndex r)%N.
Proof.
  intros Hmo Hre Inv Hr (Hl & Htm & Htop) Hs.
  destruct (reachable_lease members conf c Hmo Hre) as (_ & Hcur & _).
  pose proof (lg_lead _ _ _ _ Inv _ _ Hr Hl) as HL.
  destruct (commit_term members ll h c Inv i r Hr) as [Hlt _].
  assert (commitIndex r < N.of_nat (length (log r)))%N as HltN by lia.
  destruct (has_log_term _ _ _ HltN Htm) as (e & He & Hte).
  pose proof (log_mono members ll h c Inv i r Hr) as Hmono.
  assert (∀ T k, (T < currentTerm r)%N → has T k (log r) → k < N.to_nat (commitIndex r)) as Hearly.
  { intros T k HT (f & Hf & Htf). destruct (decide (k < N.to_nat (commitIndex r))) as [|Hge]; [done|].
    pose proof (Hmono (N.to_nat (commitIndex r)) k e f ltac:(lia) He Hf). lia. }
  destruct (lg_commit _ _ _ _ Inv _ _ Hs) as [?|(T & k & x & L & HT & HLT & Hh & Hk & Hcm & Htk)]; [lia|].
  pose proof (Htop j s Hs) as Hle. destruct (decide (T = currentTerm r)) as [->|Hne].
  - destruct (Hcur i r j s Hr Hl Hs ltac:(lia)) as [|Hlow]; [done|].
    rewrite HL in HLT. injection HLT as <- <-.
    destruct (commit_term members ll h c Inv j s Hs) as [Hlts _].
    destruct (lookup_lt_is_Some_2 _ _ Hlts) as [f Hf]. rewrite (log_term_lookup_N _ _ _ Hf) in Hlow.
    rewrite <- (lookup_take_lt _ (S (N.to_nat (commitIndex s)))), Htk, lookup_take_lt in Hf by lia.
    assert (N.to_nat (commitIndex s) < N.to_nat (commitIndex r)); [|lia].
    apply (Hearly (eTerm f)); [done|]. by exists f.
  - assert (T < currentTerm r)%N as HTlt by lia.
    pose proof (leader_completeness _ _ _ _ Inv _ _ _ _ _ _ _ HLT Hh Hcm HTlt HL) as HhL.
    pose proof (Hearly T k HTlt HhL). lia.
Qed.

(** What a node has applied is in the committed log of a settled leader. *)
Lemma settled_applied `{GoRand} members conf c i r j s :
  membership_ok members conf → reachable members conf c →
  nodes c !! i = Some r → settled c r → nodes c !! j = Some s →
  (lastApplied s ≤ commitIndex s ≤ commitIndex r)%N ∧
  take (S (N.to_nat (commitIndex s))) (log s) = take (S (N.to_nat (commitIndex s))) (log r) ∧
  applied_of c j = take (N.to_nat (lastApplied s)) (drop 1 (log r)).
Proof.
  intros Hmo Hre Hr Hset Hs. pose proof Hmo as [Hmem Hcf].
  destruct (reachable_inv members conf Hmem Hcf c Hre) as (ll & h & Inv & Hap).
  pose proof (settled_ahead members conf c ll h i r j s Hmo Hre Inv Hr Hset Hs) as Hle.
  destruct (Hap j s Hs) as [Hla Happ].
  assert (take (S (N.to_nat (commitIndex s))) (log s) = take (S (N.to_nat (commitIndex s))) (log r)) as Heq.
  { apply (safe_agree members ll h c (currentTerm s) (currentTerm r) _ _ _ (N.to_nat (commitIndex r)) Inv).
    - by apply (node_wf _ _ _ _ Inv j).
    - by apply (node_wf _ _ _ _ Inv i).
    - by apply (lg_commit _ _ _ _ Inv j).
    - by apply (lg_commit _ _ _ _ Inv i).
    - lia. }
  split_and!; [lia|done|done|]. rewrite Happ. apply take_drop_one.
  eapply take_agree_le; [exact Heq|]. lia.
Qed.

(** ** Theorem *)

(** A settled leader is current.  In a run without crashes, take a leader that
    has committed an entry of its own term while no node is in a later term.  No
    node's commit index is above the leader's; what a node regards as committed is
    what the leader's log says; and everything a node has handed to its state
    machine is in the leader's committed log, in the same order. *)
Theorem settled_leader_is_current `{GoRand} members conf c i r :
  membership_ok members conf → reachable members conf c →
  nodes c !! i = Some r → settled c r →
  ∀ j s, nodes c !! j = Some s →
    (commitIndex s ≤ commitIndex r)%N ∧
    take (S (N.to_nat (commitIndex s))) (log s) = take (S (N.to_nat (commitIndex s))) (log r) ∧
    applied_of c j `prefix_of` take (N.to_nat (commitIndex r)) (drop 1 (log r)).
Proof.
  intros Hmo Hre Hr Hset j s Hs.
  destruct (settled_applied members conf c i r j s Hmo Hre Hr Hset Hs) as (Hle & Heq & ->).
  split_and!; [lia|done|].
  replace (N.to_nat (lastApplied s)) with (N.to_nat (lastApplied s) `min` N.to_nat (commitIndex r)) by lia.
  rewrite <- take_take. apply take_prefix.
Qed.

(** In [trio2], "a" has committed its two entries of term 1. *)
Lemma settled_leader_is_current_witness :
  let r := the (nodes trio2 !! "a") in
  settled trio2 r ∧ ∀ j s, nodes trio2 !! j = Some s → (commitIndex s ≤ 2)%N.
Proof.
  assert (settled trio2 (the (nodes trio2 !! "a"))) as Hset.
  { split; [by vm_compute|]. split; [by vm_compute|].
    assert (map_Forall (fun _ s => (currentTerm s ≤ 1)%N) (nodes trio2)) as Hle
      by (apply (bool_decide_unpack _); by vm_compute).
    intros j s Hs. exact (Hle j s Hs). }
  assert (reachable trio trio_conf trio2) as Hre.
  { exists trio0. split; [exact trio0_initial|]. destruct trio_steps as (H01 & H12 & _).
    by transitivity trio1. }
  assert (nodes trio2 !! "a" = Some (the (nodes trio2 !! "a"))) as Hr by (by vm_compute).
  assert (commitIndex (the (nodes trio2 !! "a")) = 2%N) as Hc by (by vm_compute).
  split; [exact Hset|]. intros j s Hs.
  destruct (settled_leader_is_current trio trio_conf trio2 "a" _ trio_membership Hre Hr Hset j s Hs)
    as [Hle _].
  exact (N.le_trans _ _ _ Hle (N.eq_le_incl _ _ Hc)).
Defined.
