(* ===== verification/Rsm.v ===== *)
(** * The specification: one log of what clients ask for

    What the cluster promises, without terms, votes and messages: a single log
    that only grows, by entries that somebody asked for, and from which every
    node applies longer and longer prefixes.  In runs without crashes the cluster
    implements it. *)

From S2P Require Import Prelude Pb Raft RaftWf Cluster Authored ClusterTrans Sample Election Logs LogInv LogStep LogSafety.

(** ** The replicated log *)

Record Rsm := mkRsm {
  rsm_asked : list (EntryType * bytes);   (* what clients have asked for *)
  rsm_log : list LogEntry;                (* what is committed *)
  rsm_done : gmap string nat              (* how much of it each node has applied *)
}.

(** An entry of the log was asked for, or is the empty command with which a
    leader opens its term. *)
Definition admitted (asked : list (EntryType * bytes)) (e : LogEntry) : Prop :=
  (eType e, eData e) = (EntryCommand, []) ∨ (eType e, eData e) ∈ asked.

Inductive rsm_step (a : Rsm) : Rsm → Prop :=
  | rsm_commit es : Forall (admitted (rsm_asked a)) es →
      rsm_step a (mkRsm (rsm_asked a) (rsm_log a ++ es) (rsm_done a))
  | rsm_apply i k k' : rsm_done a !! i = Some k → k ≤ k' ≤ length (rsm_log a) →
      rsm_step a (mkRsm (rsm_asked a) (rsm_log a) (<[i := k']> (rsm_done a))).

Definition rsm_ask (a : Rsm) (qs : list (EntryType * bytes)) : Rsm :=
  mkRsm (rsm_asked a ++ qs) (rsm_log a) (rsm_done a).

(** A run of the specification with the requests it takes in, in order. *)
Inductive rsm_trace : Rsm → list (EntryType * bytes) → Rsm → Prop :=
  | rsm_here a : rsm_trace a [] a
  | rsm_goes qs a a1 a2 : rsm_step a a1 → rsm_trace a1 qs a2 → rsm_trace a qs a2
  | rsm_input q qs a a' : rsm_trace (rsm_ask a [q]) qs a' → rsm_trace a (q :: qs) a'.

(** Nothing asked for, nothing committed, nothing applied. *)
Definition rsm_start (members : gset string) : Rsm :=
  mkRsm [] [] (set_to_map (fun i => (i, 0)) members).

Lemma rsm_trace_app a qs a1 qs' a2 : rsm_trace a qs a1 → rsm_trace a1 qs' a2 → rsm_trace a (qs ++ qs') a2.
Proof.
  induction 1 as [|qs a a1 a3 Hst _ IH|q qs a a3 _ IH]; intros H2; [done| |].
  - eapply rsm_goes; [exact Hst|by apply IH].
  - apply rsm_input. by apply IH.
Qed.

Lemma rsm_trace_then a qs a1 a2 : rsm_trace a qs a1 → rsm_trace a1 [] a2 → rsm_trace a qs a2.
Proof. rewrite <- (app_nil_r qs) at 2. apply rsm_trace_app. Qed.

Lemma rsm_ask_app a qs qs' : rsm_ask (rsm_ask a qs) qs' = rsm_ask a (qs ++ qs').
Proof. unfold rsm_ask. simpl. by rewrite (assoc_L (++)). Qed.

Lemma rsm_trace_ask a qs : rsm_trace a qs (rsm_ask a qs).
Proof.
  revert a. induction qs as [|q qs IH]; intros a.
  - unfold rsm_ask. rewrite app_nil_r. destruct a. apply rsm_here.
  - apply rsm_input.
    change (q :: qs) with ([q] ++ qs). rewrite <- rsm_ask_app. apply IH.
Qed.

(** What is asked for is asked for once and for all. *)
Lemma admitted_more asked asked' e : asked ⊆ asked' → admitted asked e → admitted asked' e.
Proof. intros Hsub [He|He]; [by left|right; by apply Hsub]. Qed.

(** The requests of a run are all that its log can hold. *)
Lemma rsm_trace_log a qs a' :
  rsm_trace a qs a' → Forall (admitted (rsm_asked a)) (rsm_log a) →
  rsm_asked a' = rsm_asked a ++ qs ∧ Forall (admitted (rsm_asked a')) (rsm_log a').
Proof.
  induction 1 as [a|qs a a1 a2 Hst _ IH|q qs a a' _ IH]; intros Ha.
  - by rewrite app_nil_r.
  - destruct Hst as [es Hes|i k k' _ _]; apply IH; simpl; [by apply Forall_app|done].
  - destruct IH as [Hq Hl].
    + eapply Forall_impl; [exact Ha|]. intros e. apply admitted_more. simpl. intros x Hx.
      apply elem_of_app. by left.
    + split; [|done]. rewrite Hq. simpl. by rewrite <- (assoc_L (++)).
Qed.

(** ** The abstraction *)

(** The log is what the node with the greatest commit index regards as
    committed; every node regards a prefix of it as committed, and has handed a
    prefix of that to its state machine; no log and no message holds an entry
    that nobody asked for. *)
Record abs (c : Cluster) (a : Rsm) : Prop := {
  abs_commit j s : nodes c !! j = Some s →
    N.to_nat (commitIndex s) ≤ length (rsm_log a) ∧
    take (N.to_nat (commitIndex s)) (drop 1 (log s)) = take (N.to_nat (commitIndex s)) (rsm_log a);
  abs_done : rsm_done a = (fun s => N.to_nat (lastApplied s)) <$> nodes c;
  abs_applied j s : nodes c !! j = Some s →
    (lastApplied s ≤ commitIndex s)%N ∧
    applied_of c j = take (N.to_nat (lastApplied s)) (rsm_log a);
  abs_front : rsm_log a = [] ∨
    ∃ j s, nodes c !! j = Some s ∧ N.to_nat (commitIndex s) = length (rsm_log a);
  abs_admitted : cluster_carries (admitted (rsm_asked a)) c
}.

Lemma greatest {A} (f : A → N) (m : gmap string A) :
  m = ∅ ∨ ∃ i x, m !! i = Some x ∧ ∀ j y, m !! j = Some y → (f y ≤ f x)%N.
Proof.
  induction m as [|i x m Hi IH] using map_ind; [by left|right].
  destruct IH as [->|(j & y & Hj & Hmax)].
  - exists i, x. split; [apply lookup_insert_eq|].
    intros k z [[_ <-]|[_ Hz]]%lookup_insert_Some; [lia|by rewrite lookup_empty in Hz].
  - destruct (decide (f y ≤ f x)%N) as [Hle|Hgt].
    + exists i, x. split; [apply lookup_insert_eq|].
      intros k z [[_ <-]|[_ Hz]]%lookup_insert_Some; [lia|]. specialize (Hmax k z Hz). lia.
    + exists j, y. split; [rewrite lookup_insert_ne; [done|congruence]|].
      intros k z [[_ <-]|[_ Hz]]%lookup_insert_Some; [lia|by apply (Hmax k)].
Qed.

Section refinement.
Context {GR : GoRand}.
Context (members : gset string) (conf : string → Config).
Context (Hmo : membership_ok members conf).

(** Every event changes one node. *)
Lemma exec_node c e c' :
  exec c e = Some c' →
  ∃ i r r', nodes c !! i = Some r ∧ nodes c' = <[i := r']> (nodes c).
Proof.
  assert (∀ i f, at_node c i f = Some c' →
    ∃ i r r', nodes c !! i = Some r ∧ nodes c' = <[i := r']> (nodes c)) as Hat.
  { intros i f Hf. unfold at_node in Hf. inv_seq. cbn [Messages] in Hf. injection Hf as <-.
    by eexists i, a, _. }
  intros Hex. destruct e; simpl in Hex; try by apply Hat in Hex.
  - case_decide; [|done]. by apply Hat in Hex.
  - inv_seq. injection Hex as <-. by eexists i, a, _.
Qed.

(** The committed part of the log of [s], when [r] has committed less. *)
Lemma committed_prefix ll h c i j r s :
  log_inv members ll h c → nodes c !! i = Some r → nodes c !! j = Some s →
  (commitIndex r ≤ commitIndex s)%N →
  let k := N.to_nat (commitIndex r) in take k (drop 1 (log r)) = take k (drop 1 (log s)).
Proof.
  intros Inv Hr Hs Hle. apply take_drop_one.
  apply (safe_agree members ll h c (currentTerm r) (currentTerm s) _ _ _ (N.to_nat (commitIndex s)) Inv).
  - by apply (node_wf _ _ _ _ Inv i).
  - by apply (node_wf _ _ _ _ Inv j).
  - by apply (lg_commit _ _ _ _ Inv i).
  - by apply (lg_commit _ _ _ _ Inv j).
  - lia.
Qed.

Lemma committed_length ll h c j s :
  log_inv members ll h c → nodes c !! j = Some s →
  length (take (N.to_nat (commitIndex s)) (drop 1 (log s))) = N.to_nat (commitIndex s).
Proof.
  intros Inv Hs. rewrite length_take, length_drop.
  pose proof (safe_lt _ _ _ _ _ _ (node_wf _ _ _ _ Inv _ _ Hs) (lg_commit _ _ _ _ Inv _ _ Hs)). lia.
Qed.

(** The abstraction of a state, from its most committed node. *)
Definition abs_of (c : Cluster) (s : Raft) (asked : list (EntryType * bytes)) : Rsm :=
  mkRsm asked (take (N.to_nat (commitIndex s)) (drop 1 (log s)))
        ((fun s => N.to_nat (lastApplied s)) <$> nodes c).

Lemma abs_of_ok ll h c j s asked :
  log_inv members ll h c → applied_ok c → nodes c !! j = Some s →
  (∀ k r, nodes c !! k = Some r → (commitIndex r ≤ commitIndex s)%N) →
  cluster_carries (admitted asked) c → abs c (abs_of c s asked).
Proof.
  intros Inv Hap Hs Hmax Hcar. pose proof (committed_length ll h c j s Inv Hs) as Hlen.
  split; unfold abs_of; cbn [rsm_log rsm_done rsm_asked]; rewrite ?Hlen; [|done| | |done].
  - intros k r Hr. specialize (Hmax k r Hr). split; [lia|]. rewrite take_take.
    rewrite (committed_prefix ll h c k j r s Inv Hr Hs) by lia. f_equal. lia.
  - intros k r Hr. specialize (Hmax k r Hr). destruct (Hap k r Hr) as [Hla ->]. split; [done|].
    rewrite take_take. replace (_ `min` _) with (N.to_nat (lastApplied r)) by lia.
    pose proof (committed_prefix ll h c k j r s Inv Hr Hs Hmax) as Hp. cbv zeta in Hp.
    eapply take_agree_le; [exact Hp|lia].
  - right. by exists j, s.
Qed.

(** The log of the specification only grows. *)
Lemma front_grows ll h ll' h' c c' a j s :
  log_inv members ll h c → log_inv members ll' h' c' → leaders_le ll ll' → after_state c c' →
  abs c a → (∀ i, is_Some (nodes c !! i) → is_Some (nodes c' !! i)) → nodes c' !! j = Some s →
  (∀ k r, nodes c' !! k = Some r → (commitIndex r ≤ commitIndex s)%N) →
  rsm_log a `prefix_of` take (N.to_nat (commitIndex s)) (drop 1 (log s)).
Proof.
  intros Inv Inv' Hle (Hnet & Hmono & _) [Hcm _ _ [->|(i & r & Hr & Hlen)] _] Hdom Hs Hmax; [apply prefix_nil|].
  destruct (Hdom i) as [r' Hr']; [by exists r|]. destruct (Hmono i r r' Hr Hr') as [_ Hc].
  pose proof (Hmax i r' Hr') as Hc'. destruct (Hcm i r Hr) as [_ Hlog].
  assert (take (N.to_nat (commitIndex r)) (drop 1 (log r)) =
    take (N.to_nat (commitIndex r)) (drop 1 (log s))) as Heq.
  { apply take_drop_one.
    apply (safe_agree members ll' h' c' (currentTerm r) (currentTerm s) _ _ _ (N.to_nat (commitIndex s)) Inv').
    - by apply (node_wf _ _ _ _ Inv i).
    - by apply (node_wf _ _ _ _ Inv' j).
    - eapply (safe_grow _ _ _ _ _ Hle Hnet _ _ _ _ (N.le_refl _)). by apply (lg_commit _ _ _ _ Inv i).
    - by apply (lg_commit _ _ _ _ Inv' j).
    - lia. }
  assert (rsm_log a = take (N.to_nat (commitIndex r)) (drop 1 (log s))) as ->.
  { rewrite <- Heq, Hlog. by rewrite firstn_all2 by lia. }
  replace (N.to_nat (commitIndex r)) with (N.to_nat (commitIndex r) `min` N.to_nat (commitIndex s)) by lia.
  rewrite <- take_take. apply take_prefix.
Qed.

(** The entries that an event asks for are the only new ones. *)
Lemma exec_admitted ll h c e c' asked :
  log_inv members ll h c → exec c e = Some c' → cluster_carries (admitted asked) c →
  cluster_carries (admitted (asked ++ asks e)) c'.
Proof.
  intros Inv Hex [Hn Hm]. apply (exec_carries _ (fun _ _ => or_introl eq_refl) c e c' Hex).
  - assert (∀ x, admitted asked x → admitted (asked ++ asks e) x) as Hmore.
    { intros x. apply admitted_more. intros q Hq. apply elem_of_app. by left. }
    split.
    + intros i r Hr. eapply Forall_impl; [exact (Hn i r Hr)|exact Hmore].
    + eapply Forall_impl; [exact Hm|]. intros m Hes. eapply Forall_impl; [exact Hes|exact Hmore].
  - intros j r Hr. destruct (ei_node _ _ _ (lg_elect _ _ _ _ Inv) _ _ Hr) as [Hok _]. apply Hok.
  - intros t d Hd i k. right. apply elem_of_app. by right.
Qed.

(** One event of the cluster is its requests, one growth of the log and one
    apply. *)
Lemma rsm_simulates c e c' a :
  reachable members conf c → headroom c → abs c a → exec c e = Some c' →
  ∃ a', rsm_trace a (asks e) a' ∧ abs c' a'.
Proof using Hmo.
  intros Hre Hroom Habs Hex. destruct Hmo as [Hmem Hcf].
  assert (step c c') as Hst by (split; [done|by exists e]).
  destruct (reachable_inv members conf Hmem Hcf c Hre) as (ll & h & Inv & Hap).
  destruct (later_inv members Hmem c c' ll h Inv Hap (rtc_once _ _ Hst)) as (Haft & Hap' & ll' & h' & Hle & Inv').
  pose proof (exec_admitted ll h c e c' _ Inv Hex (abs_admitted c a Habs)) as Hcar.
  apply exec_node in Hex as (i & r & r' & Hr & Hnodes).
  assert (nodes c' !! i = Some r') as Hr' by (rewrite Hnodes; apply lookup_insert_eq).
  destruct (greatest commitIndex (nodes c')) as [He|(j & s & Hs & Hmax)].
  { by rewrite He, lookup_empty in Hr'. }
  destruct (front_grows ll h ll' h' c c' a j s Inv Inv' Hle Haft Habs) as [es Hes]; [|done|done|].
  { intros k Hk. rewrite Hnodes. apply lookup_insert_is_Some'. auto. }
  pose proof (abs_of_ok ll' h' c' j s _ Inv' Hap' Hs Hmax Hcar) as Hok. eexists. split; [|exact Hok].
  eapply rsm_trace_then; [apply rsm_trace_ask|].
  eapply rsm_goes; [apply (rsm_commit (rsm_ask a (asks e)) es)|].
  { eapply Forall_app. rewrite <- Hes. apply Forall_take, Forall_drop. by apply (proj1 Hcar j). }
  eapply rsm_goes; [|apply rsm_here].
  assert (abs_of c' s (rsm_asked a ++ asks e) = mkRsm (rsm_asked a ++ asks e) (rsm_log a ++ es)
    (<[i := N.to_nat (lastApplied r')]> (rsm_done a))) as ->.
  { unfold abs_of. rewrite Hes, (abs_done c a Habs), Hnodes, fmap_insert. done. }
  apply (rsm_apply (mkRsm (rsm_asked a ++ asks e) (rsm_log a ++ es) (rsm_done a)) i (N.to_nat (lastApplied r))).
  - simpl. by rewrite (abs_done c a Habs), lookup_fmap, Hr.
  - cbn [rsm_log]. rewrite <- Hes, (committed_length ll' h' c' j s Inv' Hs). split.
    + pose proof (applied_count _ _ _ _ _ _ Inv Hap Hr). pose proof (applied_count _ _ _ _ _ _ Inv' Hap' Hr').
      pose proof (prefix_length _ _ (applied_grows c c' i (rtc_once _ _ Hst))). lia.
    + destruct (Hap' i r' Hr') as [Hla _]. pose proof (Hmax i r' Hr'). lia.
Qed.

Lemma abs_initial c : initial members conf c → abs c (rsm_start members).
Proof using Hmo.
  intros (Hn & Hnet & Hap). destruct Hmo as [Hmem Hcf].
  assert (∀ j s, nodes c !! j = Some s → j ∈ members ∧ commitIndex s = 0%N ∧ lastApplied s = 0%N) as Hnode.
  { intros j s Hs. rewrite Hn in Hs. case_decide as Hj; [|done].
    rewrite NewRaft_eq in Hs by (by eapply fresh_config_wf, Hcf). by injection Hs as <-. }
  split; [| | |by left|].
  - intros j s Hs. destruct (Hnode j s Hs) as (_ & -> & _). split; [simpl; lia|done].
  - cbn [rsm_start rsm_done]. apply map_eq. intros j. rewrite lookup_fmap.
    destruct (nodes c !! j) as [s|] eqn:Hs; simpl.
    + destruct (Hnode j s Hs) as (Hj & _ & ->). apply lookup_set_to_map; [naive_solver|]. by exists j.
    + apply eq_None_not_Some. intros [k (x & Hx & [= -> _])%lookup_set_to_map]; [|naive_solver].
      rewrite Hn, decide_True in Hs by done.
      rewrite NewRaft_eq in Hs by (by eapply fresh_config_wf, Hcf). done.
  - intros j s Hs. destruct (Hnode j s Hs) as (_ & -> & ->). split; [done|].
    unfold applied_of. by rewrite Hap.
  - split; [|rewrite Hnet; by apply Forall_nil]. intros j s Hs. rewrite Hn in Hs. case_decide as Hj; [|done].
    pose proof (Hcf j Hj) as Hfresh. rewrite NewRaft_eq in Hs by (by eapply fresh_config_wf, Hfresh).
    injection Hs as <-. simpl. rewrite (fc_log _ _ _ Hfresh). constructor; [by left|by apply Forall_nil].
Qed.

(** A run of the cluster is a run of the specification. *)
Lemma rsm_run c qs c' a :
  reachable members conf c → abs c a → trace c qs c' → ∃ a', rsm_trace a qs a' ∧ abs c' a'.
Proof using Hmo.
  intros Hre Habs Hs. revert a Hre Habs. induction Hs as [c|c e c1 qs c2 Hroom Hex _ IH]; intros a Hre Habs.
  { exists a. split; [apply rsm_here|done]. }
  destruct (rsm_simulates c e c1 a Hre Hroom Habs Hex) as (a1 & Ha1 & Habs1).
  destruct (IH a1) as (a2 & Ha2 & Habs2); [|done|].
  { destruct Hre as (c0 & Hi & H0). exists c0. split; [done|]. eapply rtc_r; [exact H0|].
    split; [done|by exists e]. }
  exists a2. split; [by eapply rsm_trace_app|done].
Qed.
End refinement.

(** ** Theorem *)

(** C11: the cluster is one log of what clients asked for.  In runs without crashes
    the cluster implements the specification of a single log that only grows, by
    entries that were proposed (or the empty entry of a new leader), and is
    applied in order: the initial cluster is abstracted by the empty log, and
    whatever event the cluster takes (a tick, a message delivered late, twice or
    out of order, a proposal, a hand-out of entries), the specification takes in
    what that event proposes, appends to its log and lets one node apply more of
    it, so that every node's committed entries and every node's applied entries
    are prefixes of the one log. *)
Theorem cluster_implements_log `{GoRand} members conf c0 :
  membership_ok members conf → initial members conf c0 →
  abs c0 (rsm_start members) ∧
  ∀ c e c' a, reachable members conf c → headroom c → abs c a → exec c e = Some c' →
    ∃ a', rsm_trace a (asks e) a' ∧ abs c' a'.
Proof.
  intros Hmo Hini. split; [by apply (abs_initial members conf Hmo)|].
  intros c e c' a. by apply (rsm_simulates members conf Hmo).
Qed.

Lemma cluster_implements_log_witness :
  ∃ a, rtc (fun a a' => ∃ qs, rsm_trace a qs a') (rsm_start trio) a ∧ abs trio1 a.
Proof.
  destruct (cluster_implements_log trio trio_conf trio0 trio_membership trio0_initial) as [Habs0 Hsim].
  destruct trio_steps as (H01 & _). revert Habs0.
  assert (reachable trio trio_conf trio0) as Hre0 by (exists trio0; split; [exact trio0_initial|apply rtc_refl]).
  generalize (rsm_start trio) as a. revert Hre0.
  induction H01 as [c|c c1 c2 Hst _ IH]; intros Hre a Habs.
  - exists a. split; [apply rtc_refl|exact Habs].
  - pose proof Hst as (Hroom & e & Hex).
    destruct (Hsim c e c1 a Hre Hroom Habs Hex) as (a1 & Ha1 & Habs1).
    destruct (IH) with a1 as (a2 & Ha2 & Habs2); [|exact Habs1|].
    + destruct Hre as (c0 & Hi & H0). exists c0. split; [exact Hi|]. by eapply rtc_r.
    + exists a2. split; [|exact Habs2]. eapply rtc_l; [by exists (asks e)|exact Ha2].
Defined.
