(* ===== verification/Kv.v ===== *)
(** * The key-value state machine (src/fsm/kv.go)

    Commands, their JSON form as an interface to encoding/json, and the
    operations of [KV].  The mutex is not modelled: the operations are its
    critical sections. *)

From S2P Require Import Prelude.

Definition OpSet : string := "SET".
Definition OpDelete : string := "DELETE".

Record Command := mkCommand { cOp : string; cKey : string; cValue : string }.

#[export] Instance Command_eq_dec : EqDecision Command.
Proof. solve_decision. Defined.

(** encoding/json on [Command]: [Marshal] never fails on a struct of strings,
    its output is never empty, and [Unmarshal] reads it back when every string
    is valid UTF-8 (other bytes are replaced on the way out). *)
Class CommandJson := {
  json_marshal : Command → bytes;
  json_unmarshal : bytes → option Command;
  utf8_command : Command → Prop;
  json_command_nonempty c : json_marshal c ≠ [];
  json_command_roundtrip c : utf8_command c → json_unmarshal (json_marshal c) = Some c
}.

(** The error values: [fsm: decode command] and [fsm: unknown op]. *)
Inductive FsmError := ErrDecode | ErrUnknownOp (op : string).

#[export] Instance FsmError_eq_dec : EqDecision FsmError.
Proof. solve_decision. Defined.

(** The map behind a [*KV]. *)
Record KV := mkKV { kv_data : gmap string string }.

Definition NewKV : KV := mkKV ∅.

Definition Get (kv : KV) (key : string) : string * bool :=
  match kv_data kv !! key with
  | Some value => (value, true)
  | None => ("", false)
  end.

(** A copy; later changes of the store do not show in it. *)
Definition Snapshot (kv : KV) : gmap string string := kv_data kv.

Definition Len (kv : KV) : nat := size (kv_data kv).

Section kv.
Context {CJ : CommandJson}.

Definition Encode (c : Command) : bytes := json_marshal c.

Definition DecodeCommand (data : bytes) : FsmError + Command :=
  match json_unmarshal data with
  | None => inl ErrDecode
  | Some cmd => inr cmd
  end.

Definition Apply (kv : KV) (data : bytes) : KV * option FsmError :=
  if decide (length data = 0) then (kv, None)
  else
    match DecodeCommand data with
    | inl err => (kv, Some err)
    | inr cmd =>
        if decide (cOp cmd = OpSet)
        then (mkKV (<[cKey cmd := cValue cmd]> (kv_data kv)), None)
        else if decide (cOp cmd = OpDelete)
        then (mkKV (delete (cKey cmd) (kv_data kv)), None)
        else (kv, Some (ErrUnknownOp (cOp cmd)))
    end.

(** ** The abstract store: a partial function on keys *)

Definition store_of (kv : KV) (key : string) : option string := kv_data kv !! key.

(** What a command means, whatever its encoding. *)
Definition command_effect (c : Command) (f : string → option string) (key : string)
    : option string :=
  if decide (cOp c = OpSet) then (if decide (key = cKey c) then Some (cValue c) else f key)
  else if decide (cOp c = OpDelete) then (if decide (key = cKey c) then None else f key)
  else f key.

Lemma Get_store kv key :
  Get kv key = (default "" (store_of kv key), bool_decide (is_Some (store_of kv key))).
Proof.
  unfold Get, store_of. by destruct (kv_data kv !! key).
Qed.

Lemma Apply_encoded kv c :
  utf8_command c →
  Apply kv (Encode c) =
    if decide (cOp c = OpSet)
    then (mkKV (<[cKey c := cValue c]> (kv_data kv)), None)
    else if decide (cOp c = OpDelete) then (mkKV (delete (cKey c) (kv_data kv)), None)
    else (kv, Some (ErrUnknownOp (cOp c))).
Proof.
  intros Hc. unfold Apply, Encode, DecodeCommand.
  rewrite decide_False
    by (intros H0; by apply (json_command_nonempty c), nil_length_inv).
  by rewrite json_command_roundtrip.
Qed.

Lemma Apply_error kv data kv' e : Apply kv data = (kv', Some e) → kv' = kv.
Proof. unfold Apply. repeat case_match; naive_solver. Qed.
End kv.

(** C24: the state machine implements its commands. Applying the encoding of
    a command changes the store as the command says: SET binds the key, DELETE
    unbinds it (a missing key is no error), every other key keeps its value,
    and any other operation is refused by name and changes nothing. *)
Theorem apply_implements_command `{CommandJson} kv c :
  utf8_command c →
  let '(kv', err) := Apply kv (Encode c) in
  (∀ key, Get kv' key =
     (default "" (command_effect c (store_of kv) key),
      bool_decide (is_Some (command_effect c (store_of kv) key)))) ∧
  (err = None ↔ cOp c = OpSet ∨ cOp c = OpDelete) ∧
  (err ≠ None → err = Some (ErrUnknownOp (cOp c)) ∧ kv' = kv).
Proof.
  intros Hc. rewrite Apply_encoded by done. unfold command_effect.
  destruct (decide (cOp c = OpSet)) as [Hs|Hns]; [|destruct (decide (cOp c = OpDelete)) as [Hd|Hnd]].
  - split_and!; [|naive_solver|done]. intros key. rewrite Get_store. unfold store_of. simpl.
    case_decide as Hk; [subst key; by rewrite lookup_insert_eq|by rewrite lookup_insert_ne by auto].
  - split_and!; [|naive_solver|done]. intros key. rewrite Get_store. unfold store_of. simpl.
    case_decide as Hk; [subst key; by rewrite lookup_delete_eq|by rewrite lookup_delete_ne by auto].
  - split_and!; [|naive_solver|done]. intros key. by rewrite Get_store.
Qed.

(** Malformed data is refused. Data that is not a command in JSON gives
    the decode error, empty data gives none, and whenever [Apply] reports an
    error the store is unchanged. *)
Theorem apply_error_leaves_store `{CommandJson} kv data :
  Apply kv [] = (kv, None) ∧
  (json_unmarshal data = None → data ≠ [] → Apply kv data = (kv, Some ErrDecode)) ∧
  ∀ kv' e, Apply kv data = (kv', Some e) → kv' = kv.
Proof.
  split_and!; [done| |apply Apply_error].
  intros Hd Hne. unfold Apply, DecodeCommand. rewrite Hd.
  by rewrite decide_False by (by intros ?%nil_length_inv).
Qed.

(** ** A codec for evaluation

    Three fields, each preceded by its length in unary: enough to run the
    model, not the wire format. *)

Module SampleJson.
Definition put_field (s : string) : bytes :=
  let b := String.list_byte_of_string s in replicate (length b) x01 ++ x00 :: b.

Fixpoint get_len (b : bytes) (n : nat) : option (nat * bytes) :=
  match b with
  | [] => None
  | x :: b' => if decide (x = x01) then get_len b' (S n) else Some (n, b')
  end.

Definition get_field (b : bytes) : option (string * bytes) :=
  nb <- get_len b 0;; let '(n, rest) := nb in
  Some (String.string_of_list_byte (take n rest), drop n rest).

Definition marshal (c : Command) : bytes :=
  put_field (cOp c) ++ put_field (cKey c) ++ put_field (cValue c).

Definition unmarshal (b : bytes) : option Command :=
  o <- get_field b;; k <- get_field o.2;; v <- get_field k.2;;
  match v.2 with [] => Some (mkCommand o.1 k.1 v.1) | _ => None end.

Lemma get_len_put n k b : get_len (replicate n x01 ++ x00 :: b) k = Some (k + n, b).
Proof.
  revert k. induction n as [|n IH]; intros k; simpl; [by rewrite Nat.add_0_r|].
  rewrite IH. by rewrite Nat.add_succ_r.
Qed.

Lemma get_field_put s b : get_field (put_field s ++ b) = Some (s, b).
Proof.
  unfold get_field, put_field. rewrite <- app_assoc. simpl. rewrite get_len_put. simpl.
  rewrite take_app_length, drop_app_length. by rewrite String.string_of_list_byte_of_string.
Qed.

#[export] Program Instance sample_command_json : CommandJson :=
  {| json_marshal := marshal; json_unmarshal := unmarshal; utf8_command _ := True |}.
Next Obligation. intros c Hc. by apply app_eq_nil in Hc as [[_ [=]]%app_eq_nil _]. Qed.
Next Obligation.
  intros [o k v] _. unfold unmarshal, marshal. rewrite get_field_put. simpl.
  rewrite get_field_put. simpl. rewrite <- (app_nil_r (put_field v)), get_field_put. done.
Qed.
End SampleJson.
Export (hints) SampleJson.

Lemma apply_implements_command_witness :
  let kv := (Apply NewKV (Encode (mkCommand OpSet "k" "v"))).1 in
  Get kv "k" = ("v", true) ∧ Get kv "other" = ("", false).
Proof.
  cbv zeta. pose proof (apply_implements_command NewKV (mkCommand OpSet "k" "v") I) as H.
  destruct (Apply NewKV (Encode (mkCommand OpSet "k" "v"))) as [kv' err].
  destruct H as (Hget & _). cbn [fst]. rewrite !Hget. by vm_compute.
Defined.

Lemma apply_error_leaves_store_witness : Apply NewKV [x41] = (NewKV, Some ErrDecode).
Proof.
  apply (apply_error_leaves_store NewKV [x41]); [by vm_compute|done].
Defined.
