(* ===== verification/Storage.v ===== *)
(** * Persistence (src/storage/store.go)

    The store on top of BadgerDB: the hard state under two fixed keys and one
    key per log entry.  The database is an interface with its documented
    behaviour; the key layout and every operation of [Store] are definitions.
    Opening and closing are calls into it. *)

From Stdlib Require Import Sorted.
From stdpp Require Import sorting.
From S2P Require Import Prelude Pb.

(** ** Bytes *)

Definition byte (n : N) : Byte.byte := default x00 (Byte.of_N (n mod 256)).

(** [binary.BigEndian.PutUint64]. *)
Definition PutUint64 (v : N) : bytes :=
  [byte (N.shiftr v 56); byte (N.shiftr v 48); byte (N.shiftr v 40);
   byte (N.shiftr v 32); byte (N.shiftr v 24); byte (N.shiftr v 16);
   byte (N.shiftr v 8); byte v].

(** [binary.BigEndian.Uint64] on the first bytes of a slice. *)
Definition Uint64 (b : bytes) : N :=
  fold_left (fun acc x => acc * 256 + Byte.to_N x)%N b 0%N.

(** Byte-wise lexicographic order, as in [bytes.Compare]. *)
Fixpoint bytes_lt (a b : bytes) : Prop :=
  match a, b with
  | _, [] => False
  | [], _ :: _ => True
  | x :: a', y :: b' =>
      (Byte.to_N x < Byte.to_N y)%N ∨ (x = y ∧ bytes_lt a' b')
  end.

Definition has_prefix (p k : bytes) : Prop := p `prefix_of` k.

Lemma byte_to_N n : Byte.to_N (byte n) = (n mod 256)%N.
Proof.
  unfold byte. destruct (Byte.of_N (n mod 256)) as [b|] eqn:Hb; simpl.
  - by apply Byte.to_of_N.
  - apply Byte.of_N_None_iff in Hb. pose proof (N.mod_lt n 256). lia.
Qed.

Lemma byte_bounded x : (Byte.to_N x < 256)%N.
Proof. pose proof (Byte.to_N_bounded x). lia. Qed.

Lemma to_N_inj x y : Byte.to_N x = Byte.to_N y → x = y.
Proof.
  intros H. apply (f_equal Byte.of_N) in H. rewrite !Byte.of_to_N in H. congruence.
Qed.

Lemma fold_be a acc :
  fold_left (fun acc x => acc * 256 + Byte.to_N x)%N a acc =
  (acc * 256 ^ N.of_nat (length a) + Uint64 a)%N.
Proof.
  unfold Uint64. revert acc. induction a as [|x a IH]; intros acc; simpl fold_left.
  - simpl length. change (N.of_nat 0) with 0%N. rewrite N.pow_0_r. lia.
  - rewrite (IH (acc * 256 + _)%N), (IH (0 * 256 + _)%N). simpl length.
    rewrite Nat2N.inj_succ, N.pow_succ_r'. lia.
Qed.

Lemma Uint64_cons x a :
  Uint64 (x :: a) = (Byte.to_N x * 256 ^ N.of_nat (length a) + Uint64 a)%N.
Proof. unfold Uint64 at 1. simpl. rewrite fold_be. lia. Qed.

Lemma Uint64_bound a : (Uint64 a < 256 ^ N.of_nat (length a))%N.
Proof.
  induction a as [|x a IH]; [done|]. rewrite Uint64_cons. simpl length.
  rewrite Nat2N.inj_succ, N.pow_succ_r'. pose proof (byte_bounded x). nia.
Qed.

(** On slices of one length the order of the bytes is the order of the
    numbers they spell. *)
Lemma bytes_lt_Uint64 a b :
  length a = length b → bytes_lt a b ↔ (Uint64 a < Uint64 b)%N.
Proof.
  revert b. induction a as [|x a IH]; intros [|y b] Hlen; simpl in Hlen; try lia.
  { simpl. unfold Uint64. simpl. lia. }
  injection Hlen as Hlen. rewrite !Uint64_cons. simpl bytes_lt. rewrite (IH b Hlen), Hlen.
  pose proof (Uint64_bound a) as Ha. pose proof (Uint64_bound b) as Hb. rewrite Hlen in Ha.
  set (p := (256 ^ N.of_nat (length b))%N) in *. split.
  - intros [Hlt|[-> Hlt]]; [nia|lia].
  - intros Hlt. destruct (N.lt_trichotomy (Byte.to_N x) (Byte.to_N y)) as [?|[He|Hgt]];
      [by left| |nia].
    right. split; [by apply to_N_inj|]. rewrite He in Hlt. lia.
Qed.

Lemma Uint64_PutUint64 v : (v < two64)%N → Uint64 (PutUint64 v) = v.
Proof.
  intros Hv. unfold Uint64, PutUint64. cbn [fold_left]. rewrite !byte_to_N.
  rewrite !N.shiftr_div_pow2.
  assert (∀ n k, n / 2 ^ (k + 8) = n / 2 ^ k / 256)%N as Hdiv.
  { intros n k. rewrite N.Div0.div_div. f_equal. rewrite N.pow_add_r. done. }
  pose proof (N.Div0.div_mod v 256) as H0.
  pose proof (N.Div0.div_mod (v / 2 ^ 8) 256) as H1. rewrite <- (Hdiv v 8%N) in H1.
  pose proof (N.Div0.div_mod (v / 2 ^ 16) 256) as H2. rewrite <- (Hdiv v 16%N) in H2.
  pose proof (N.Div0.div_mod (v / 2 ^ 24) 256) as H3. rewrite <- (Hdiv v 24%N) in H3.
  pose proof (N.Div0.div_mod (v / 2 ^ 32) 256) as H4. rewrite <- (Hdiv v 32%N) in H4.
  pose proof (N.Div0.div_mod (v / 2 ^ 40) 256) as H5. rewrite <- (Hdiv v 40%N) in H5.
  pose proof (N.Div0.div_mod (v / 2 ^ 48) 256) as H6. rewrite <- (Hdiv v 48%N) in H6.
  assert (v / 2 ^ 56 < 256)%N as H7 by (apply N.Div0.div_lt_upper_bound; exact Hv).
  rewrite (N.mod_small (v / 2 ^ 56) 256) by done.
  change (8 + 8)%N with 16%N in *. change (16 + 8)%N with 24%N in *.
  change (24 + 8)%N with 32%N in *. change (32 + 8)%N with 40%N in *.
  change (40 + 8)%N with 48%N in *. change (48 + 8)%N with 56%N in *.
  change (v / 256)%N with (v / 2 ^ 8)%N in H0. lia.
Qed.

(** ** The database *)

Inductive GetResult {E : Type} := GetErr (e : E) | KeyNotFound | Item (value : E + bytes).
Arguments GetResult : clear implicits.

(** BadgerDB as the store uses it.  A transaction sees a snapshot of the
    database with its own writes on top, its effects appear all at once when
    it commits, and an iterator visits the keys that carry the prefix, from
    the seek key on, in byte-wise order. *)
Class Badger := {
  DB : Type;
  Txn : Type;
  DBError : Type;
  db_view : DB → gmap bytes bytes;
  txn_view : Txn → gmap bytes bytes;
  db_begin : DB → Txn;
  db_commit : DB → Txn → DBError + DB;
  txn_get : Txn → bytes → GetResult DBError;
  txn_set : Txn → bytes → bytes → DBError + Txn;
  txn_delete : Txn → bytes → DBError + Txn;
  txn_scan : Txn → bytes → bytes → list (bytes * (DBError + bytes));
  begin_view db : txn_view (db_begin db) = db_view db;
  commit_view db t db' : db_commit db t = inr db' → db_view db' = txn_view t;
  get_found t k v : txn_get t k = Item (inr v) → txn_view t !! k = Some v;
  get_not_found t k : txn_get t k = KeyNotFound → txn_view t !! k = None;
  set_view t k v t' : txn_set t k v = inr t' → txn_view t' = <[k := v]> (txn_view t);
  delete_view t k t' : txn_delete t k = inr t' → txn_view t' = delete k (txn_view t);
  scan_keys t p s k :
    k ∈ (txn_scan t p s).*1 ↔
    is_Some (txn_view t !! k) ∧ has_prefix p k ∧ ¬ bytes_lt k s;
  scan_sorted t p s : StronglySorted bytes_lt (txn_scan t p s).*1;
  scan_values t p s k v : (k, inr v) ∈ txn_scan t p s → txn_view t !! k = Some v
}.

(** Opening and closing a database, with the options that [New] sets. *)
Class BadgerOpen {B : Badger} := {
  Options : Type;
  DefaultOptions : string → Options;
  with_ValueThreshold : Z → Options → Options;
  without_Logger : Options → Options;
  Open : Options → DBError + DB;
  db_Close : DB → option DBError
}.

(** [New] of src/storage/store.go: the database it opens, or the error. *)
Definition New_store `{BadgerOpen} (path : string) : DBError + DB :=
  Open (without_Logger (with_ValueThreshold 64 (DefaultOptions path))).

Definition Close_store `{BadgerOpen} (s : DB) : option DBError := db_Close s.

(** encoding/json on [LogEntry]: numbers and base64 data read back. *)
Class EntryJson := {
  entry_marshal : LogEntry → option bytes;
  entry_unmarshal : bytes → option LogEntry;
  entry_json_roundtrip e b :
    (eIndex e < two64)%N → (eTerm e < two64)%N →
    entry_marshal e = Some b → entry_unmarshal b = Some e
}.

Inductive StoreError {E : Type} := ErrBadger (e : E) | ErrMarshal (index : N) | ErrUnmarshal.
Arguments StoreError : clear implicits.

Definition keyTerm : bytes := String.list_byte_of_string "m:term".
Definition keyVotedFor : bytes := String.list_byte_of_string "m:vote".
Definition prefixLog : bytes := String.list_byte_of_string "l:".

(** "l:" and the index in big-endian order. *)
Definition logKey (index : N) : bytes := prefixLog ++ PutUint64 index.

Section store.
Context {B : Badger} {EJ : EntryJson}.

Abbreviation StoreErr := (StoreError DBError).

(** [db.Update]: commit if the closure succeeds, else leave the database. *)
Definition Update (db : DB) (fn : Txn → StoreErr + Txn) : DB * option StoreErr :=
  match fn (db_begin db) with
  | inl e => (db, Some e)
  | inr t =>
      match db_commit db t with
      | inl e => (db, Some (ErrBadger e))
      | inr db' => (db', None)
      end
  end.

Definition SaveState (db : DB) (term : N) (votedFor : string) : DB * option StoreErr :=
  Update db (fun txn =>
    match txn_set txn keyTerm (PutUint64 term) with
    | inl e => inl (ErrBadger e)
    | inr txn =>
        match txn_set txn keyVotedFor (String.list_byte_of_string votedFor) with
        | inl e => inl (ErrBadger e)
        | inr txn => inr txn
        end
    end).

(** The two [View] transactions; a failure of the second leaves the term
    that the first has read. *)
Definition LoadState (db : DB) : N * string * option StoreErr :=
  match
    match txn_get (db_begin db) keyTerm with
    | KeyNotFound => (0%N, None)
    | GetErr e => (0%N, Some (ErrBadger e))
    | Item (inl e) => (0%N, Some (ErrBadger e))
    | Item (inr val) => (if decide (length val = 8) then Uint64 val else 0%N, None)
    end
  with
  | (term, Some err) => (term, "", Some err)
  | (term, None) =>
      match txn_get (db_begin db) keyVotedFor with
      | KeyNotFound => (term, "", None)
      | GetErr e => (term, "", Some (ErrBadger e))
      | Item (inl e) => (term, "", Some (ErrBadger e))
      | Item (inr val) => (term, String.string_of_list_byte val, None)
      end
  end.

Fixpoint append_txn (txn : Txn) (entries : list LogEntry) : StoreErr + Txn :=
  match entries with
  | [] => inr txn
  | entry :: entries' =>
      match entry_marshal entry with
      | None => inl (ErrMarshal (eIndex entry))
      | Some data =>
          match txn_set txn (logKey (eIndex entry)) data with
          | inl e => inl (ErrBadger e)
          | inr txn => append_txn txn entries'
          end
      end
  end.

Definition AppendEntries (db : DB) (entries : list LogEntry) : DB * option StoreErr :=
  Update db (fun txn => append_txn txn entries).

(** The loop of [LoadLog]: the entries read before an error are returned
    with it. *)
Fixpoint load_items (items : list (bytes * (DBError + bytes))) (entries : list LogEntry)
    : list LogEntry * option StoreErr :=
  match items with
  | [] => (entries, None)
  | (_, inl e) :: _ => (entries, Some (ErrBadger e))
  | (_, inr val) :: items' =>
      match entry_unmarshal val with
      | None => (entries, Some ErrUnmarshal)
      | Some entry => load_items items' (entries ++ [entry])
      end
  end.

Definition LoadLog (db : DB) : list LogEntry * option StoreErr :=
  load_items (txn_scan (db_begin db) prefixLog prefixLog) [].

Fixpoint delete_keys (txn : Txn) (keys : list bytes) : StoreErr + Txn :=
  match keys with
  | [] => inr txn
  | k :: keys' =>
      match txn_delete txn k with
      | inl e => inl (ErrBadger e)
      | inr txn => delete_keys txn keys'
      end
  end.

Definition TruncateFrom (db : DB) (startIndex : N) : DB * option StoreErr :=
  Update db (fun txn => delete_keys txn (txn_scan txn prefixLog (logKey startIndex)).*1).
End store.

(** ** The log keys *)

Lemma length_PutUint64 v : length (PutUint64 v) = 8.
Proof. done. Qed.

Lemma bytes_lt_app p a b : bytes_lt (p ++ a) (p ++ b) ↔ bytes_lt a b.
Proof.
  induction p as [|x p IH]; simpl; [done|]. rewrite IH. split; [|auto].
  intros [?|[_ ?]]; [lia|done].
Qed.

Lemma logKey_lt_iff a b :
  (a < two64)%N → (b < two64)%N → bytes_lt (logKey a) (logKey b) ↔ (a < b)%N.
Proof.
  intros Ha Hb. unfold logKey. rewrite bytes_lt_app, bytes_lt_Uint64 by done.
  by rewrite !Uint64_PutUint64.
Qed.

Lemma logKey_injective a b :
  (a < two64)%N → (b < two64)%N → logKey a = logKey b → a = b.
Proof.
  intros Ha Hb [=]%app_inv_head. rewrite <- (Uint64_PutUint64 a), <- (Uint64_PutUint64 b) by done.
  unfold PutUint64. congruence.
Qed.

Lemma logKey_prefix i : has_prefix prefixLog (logKey i).
Proof. by exists (PutUint64 i). Qed.

Lemma state_key_no_prefix k : k = keyTerm ∨ k = keyVotedFor → ¬ has_prefix prefixLog k.
Proof. by intros [->| ->] [x Hx]. Qed.

Lemma keyTerm_ne_vote : keyTerm ≠ keyVotedFor.
Proof. by vm_compute. Qed.

(** ** What the database holds for Raft *)

Section abstraction.
Context {B : Badger} {EJ : EntryJson}.

Definition stored (m : gmap bytes bytes) (i : N) : option LogEntry :=
  m !! logKey i ≫= entry_unmarshal.

Definition term_of (m : gmap bytes bytes) : N :=
  match m !! keyTerm with
  | Some v => if decide (length v = 8) then Uint64 v else 0%N
  | None => 0%N
  end.

Definition vote_of (m : gmap bytes bytes) : string :=
  default "" (String.string_of_list_byte <$> m !! keyVotedFor).

(** Every key of the log area is the key of the entry it holds. *)
Definition layout_ok (m : gmap bytes bytes) : Prop :=
  ∀ k v, m !! k = Some v → has_prefix prefixLog k →
    ∃ e, (eIndex e < two64)%N ∧ k = logKey (eIndex e) ∧ entry_unmarshal v = Some e.

(** No read fails. *)
Definition reads_ok : Prop :=
  ∀ (t : Txn),
    (∀ k e, txn_get t k ≠ GetErr e ∧ txn_get t k ≠ Item (inl e)) ∧
    (∀ p s k e, (k, inl e) ∉ txn_scan t p s).

Lemma Update_success db fn db' :
  Update db fn = (db', None) → ∃ t, fn (db_begin db) = inr t ∧ db_view db' = txn_view t.
Proof.
  unfold Update. intros H. destruct (fn (db_begin db)) as [e|t]; [done|].
  destruct (db_commit db t) as [e|d] eqn:Hc; [done|]. injection H as <-.
  exists t. split; [done|]. by eapply commit_view.
Qed.

Lemma Update_failure db fn db' e : Update db fn = (db', Some e) → db' = db.
Proof. unfold Update. repeat case_match; naive_solver. Qed.

Lemma get_cases t k :
  reads_ok →
  (txn_get t k = KeyNotFound ∧ txn_view t !! k = None) ∨
  ∃ v, txn_get t k = Item (inr v) ∧ txn_view t !! k = Some v.
Proof.
  intros Hr. destruct (Hr t) as [Hg _]. specialize (Hg k).
  destruct (txn_get t k) as [e| |[e|v]] eqn:He; [by destruct (Hg e)| |by destruct (Hg e)|].
  - left. split; [done|]. by apply get_not_found.
  - right. exists v. split; [done|]. by apply get_found.
Qed.

Lemma LoadState_ok db :
  reads_ok → LoadState db = (term_of (db_view db), vote_of (db_view db), None).
Proof.
  intros Hr. unfold LoadState, term_of, vote_of. rewrite <- begin_view.
  destruct (get_cases (db_begin db) keyTerm Hr) as [[-> ->]|(v & -> & ->)];
    destruct (get_cases (db_begin db) keyVotedFor Hr) as [[-> ->]|(w & -> & ->)]; done.
Qed.

Lemma SaveState_view db term vote db' :
  SaveState db term vote = (db', None) →
  db_view db' = <[keyVotedFor := String.list_byte_of_string vote]>
                  (<[keyTerm := PutUint64 term]> (db_view db)).
Proof.
  unfold SaveState. intros (t & Ht & ->)%Update_success.
  destruct (txn_set _ keyTerm _) as [e|t1] eqn:H1; [done|].
  destruct (txn_set t1 _ _) as [e|t2] eqn:H2; [done|]. injection Ht as <-.
  by rewrite (set_view _ _ _ _ H2), (set_view _ _ _ _ H1), begin_view.
Qed.

(** Log operations touch log keys only. *)
Definition same_state_keys (m m' : gmap bytes bytes) : Prop :=
  ∀ k, ¬ has_prefix prefixLog k → m' !! k = m !! k.

Lemma same_state_keys_hard m m' :
  same_state_keys m m' → term_of m' = term_of m ∧ vote_of m' = vote_of m.
Proof.
  intros H. unfold term_of, vote_of.
  by rewrite !H by (apply state_key_no_prefix; auto).
Qed.

(** What storing the entries one after the other does to the map. *)
Lemma append_txn_view es t t' :
  append_txn t es = inr t' →
  (∀ e, e ∈ es → (eIndex e < two64)%N ∧ (eTerm e < two64)%N) →
  same_state_keys (txn_view t) (txn_view t') ∧
  (layout_ok (txn_view t) → layout_ok (txn_view t')) ∧
  ∀ i, (i < two64)%N →
    stored (txn_view t') i =
    match last (filter (fun e => eIndex e = i) es) with
    | Some e => Some e
    | None => stored (txn_view t) i
    end.
Proof.
  revert t. induction es as [|e es IH]; cbn [append_txn]; intros t Happ Hes.
  { injection Happ as <-. split_and!; done. }
  destruct (entry_marshal e) as [data|] eqn:Hd; [|done].
  destruct (txn_set t (logKey (eIndex e)) data) as [err|t1] eqn:Hset; [done|].
  apply set_view in Hset. destruct (Hes e) as [Hi HT]; [apply list_elem_of_here|].
  pose proof (entry_json_roundtrip e data Hi HT Hd) as Hround.
  destruct (IH t1 Happ) as (Hsame & Hlay & Hst).
  { intros f Hf. apply Hes. by apply list_elem_of_further. }
  rewrite Hset in *. split_and!.
  - intros k Hk. rewrite Hsame by done. apply lookup_insert_ne. intros <-.
    apply Hk, logKey_prefix.
  - intros Hok. apply Hlay. intros k v. rewrite lookup_insert_Some.
    intros [[<- <-]|[Hne Hk]] Hp; [by exists e|by apply Hok].
  - intros i Hib. rewrite (Hst i Hib), filter_cons. unfold stored.
    case_decide as Hie.
    + subst i. rewrite lookup_insert_eq. simpl. rewrite Hround.
      destruct (filter _ es) as [|f fs] eqn:Hf; [done|].
      rewrite last_cons_cons. destruct (last (f :: fs)) eqn:Hl; [done|].
      by apply last_None in Hl.
    + rewrite lookup_insert_ne; [done|]. intros Hk. apply Hie. by apply logKey_injective.
Qed.

Lemma delete_keys_view ks t t' :
  delete_keys t ks = inr t' →
  ∀ k, txn_view t' !! k = if decide (k ∈ ks) then None else txn_view t !! k.
Proof.
  revert t. induction ks as [|q ks IH]; cbn [delete_keys]; intros t Hdel k.
  { injection Hdel as <-. by rewrite decide_False by (by intros ?%not_elem_of_nil). }
  destruct (txn_delete t q) as [err|t1] eqn:Hd; [done|]. apply delete_view in Hd.
  rewrite (IH t1 Hdel k), Hd. destruct (decide (k = q)) as [->|Hne].
  - rewrite lookup_delete_eq. rewrite (decide_True (P := q ∈ q :: ks)) by set_solver.
    by case_decide.
  - rewrite lookup_delete_ne by done. repeat case_decide; set_solver.
Qed.

Lemma SaveState_hard db term vote :
  (term < two64)%N → (SaveState db term vote).2 = None →
  term_of (db_view (SaveState db term vote).1) = term ∧
  vote_of (db_view (SaveState db term vote).1) = vote.
Proof.
  intros Hterm Hs.
  rewrite (SaveState_view db term vote _) by (by destruct (SaveState db term vote); simpl in *; subst).
  unfold term_of, vote_of. rewrite lookup_insert_ne by (intros He; by apply keyTerm_ne_vote).
  rewrite !lookup_insert_eq. simpl fmap. simpl default.
  rewrite String.string_of_list_byte_of_string.
  rewrite decide_True by apply length_PutUint64. by rewrite Uint64_PutUint64.
Qed.

Lemma LoadState_saved db term vote :
  reads_ok → (term < two64)%N → (SaveState db term vote).2 = None →
  LoadState (SaveState db term vote).1 = (term, vote, None).
Proof.
  intros Hr Hterm Hs. rewrite LoadState_ok by done.
  destruct (SaveState_hard db term vote Hterm Hs) as [-> ->]. done.
Qed.

(** No entry has ever been stored. *)
Definition log_empty (m : gmap bytes bytes) : Prop :=
  ∀ k, has_prefix prefixLog k → m !! k = None.

Lemma LoadLog_empty db : log_empty (db_view db) → LoadLog db = ([], None).
Proof.
  intros Hl. unfold LoadLog. set (items := txn_scan _ _ _).
  assert (items = []) as ->; [|done].
  destruct items as [|[k x] its] eqn:Hi; [done|]. exfalso.
  assert (k ∈ items.*1) as Hk by (rewrite Hi; apply list_elem_of_here).
  apply scan_keys in Hk as ([v Hv] & Hp & _). rewrite begin_view, Hl in Hv; done.
Qed.

Lemma SaveState_holds db term vote :
  (term < two64)%N → (SaveState db term vote).2 = None → log_empty (db_view db) →
  let m := db_view (SaveState db term vote).1 in
  term_of m = term ∧ vote_of m = vote ∧ log_empty m.
Proof.
  intros Hterm Hs Hl. cbv zeta. destruct (SaveState_hard db term vote Hterm Hs) as [-> ->].
  split_and!; [done|done|]. intros k Hk.
  rewrite (SaveState_view db term vote _) by (by destruct (SaveState db term vote); simpl in *; subst).
  rewrite !lookup_insert_ne; [by apply Hl|..]; intros He; apply (state_key_no_prefix k); auto.
Qed.
End abstraction.

(** ** Theorems *)

(** C25: the hard state survives a restart. After [SaveState] reports success,
    [LoadState] returns the term and the vote that were saved, and the log
    area is as it was. *)
Theorem save_load_state `{Badger} `{EntryJson} db db' term vote :
  reads_ok → (term < two64)%N → SaveState db term vote = (db', None) →
  LoadState db' = (term, vote, None) ∧
  ∀ i, stored (db_view db') i = stored (db_view db) i.
Proof.
  intros Hr Hterm Hs. split.
  - pose proof (LoadState_saved db term vote) as Hload. rewrite Hs in Hload. by apply Hload.
  - intros i. unfold stored. rewrite (SaveState_view _ _ _ _ Hs). rewrite !lookup_insert_ne; [done|..]; intros He;
      apply (state_key_no_prefix (logKey i)); auto using logKey_prefix.
Qed.

(** The log keys sort like the indices. Byte-wise comparison of two log
    keys is comparison of the indices, distinct indices have distinct keys,
    and no log key collides with the keys of the hard state. *)
Theorem log_key_order a b :
  (a < two64)%N → (b < two64)%N →
  (bytes_lt (logKey a) (logKey b) ↔ (a < b)%N) ∧ (logKey a = logKey b → a = b) ∧
  logKey a ≠ keyTerm ∧ logKey a ≠ keyVotedFor.
Proof.
  intros Ha Hb. split_and!; [by apply logKey_lt_iff|by apply logKey_injective|done|done].
Qed.

(** Storing entries. After [AppendEntries] reports success, each index
    holds the last entry of that index in the list, or what it held before;
    the hard state and the layout of the log area are kept; on error nothing
    is stored. *)
Theorem append_entries_stores `{Badger} `{EntryJson} db es :
  (∀ e, e ∈ es → (eIndex e < two64)%N ∧ (eTerm e < two64)%N) →
  let '(db', err) := AppendEntries db es in
  (err ≠ None → db' = db) ∧
  (err = None →
    term_of (db_view db') = term_of (db_view db) ∧
    vote_of (db_view db') = vote_of (db_view db) ∧
    (layout_ok (db_view db) → layout_ok (db_view db')) ∧
    ∀ i, (i < two64)%N →
      stored (db_view db') i =
      match last (filter (fun e => eIndex e = i) es) with
      | Some e => Some e
      | None => stored (db_view db) i
      end).
Proof.
  unfold AppendEntries. intros Hes. destruct (Update db _) as [db' [err|]] eqn:Happ; (split; [|done || intros _]).
  - intros _. by eapply Update_failure.
  - done.
  - apply Update_success in Happ as (t & Ht & ->).
    destruct (append_txn_view es (db_begin db) t Ht Hes) as (Hsame & Hlay & Hst).
    rewrite begin_view in *. destruct (same_state_keys_hard _ _ Hsame) as [-> ->].
    split_and!; done.
Qed.

(** Truncation. After [TruncateFrom n] reports success, exactly the
    entries of index at least [n] are gone, and the hard state is kept. *)
Theorem truncate_from_removes_suffix `{Badger} `{EntryJson} db db' n :
  (n < two64)%N → TruncateFrom db n = (db', None) →
  term_of (db_view db') = term_of (db_view db) ∧
  vote_of (db_view db') = vote_of (db_view db) ∧
  (layout_ok (db_view db) → layout_ok (db_view db')) ∧
  ∀ i, (i < two64)%N →
    stored (db_view db') i = if decide (n ≤ i)%N then None else stored (db_view db) i.
Proof.
  unfold TruncateFrom. intros Hn (t & Ht & ->)%Update_success.
  pose proof (delete_keys_view _ _ _ Ht) as Hv.
  set (ks := (txn_scan (db_begin db) prefixLog (logKey n)).*1) in *.
  assert (∀ k, k ∈ ks ↔ is_Some (db_view db !! k) ∧ has_prefix prefixLog k ∧
    ¬ bytes_lt k (logKey n)) as Hks.
  { intros k. unfold ks. by rewrite scan_keys, begin_view. }
  rewrite begin_view in Hv.
  assert (same_state_keys (db_view db) (txn_view t)) as Hsame.
  { intros k Hk. rewrite Hv, decide_False; [done|]. by intros (_ & ? & _)%Hks. }
  destruct (same_state_keys_hard _ _ Hsame) as [-> ->]. split_and!; [done|done| |].
  - intros Hok k v Hk. rewrite Hv in Hk. case_decide; [done|]. by apply Hok.
  - intros i Hi. unfold stored. rewrite Hv.
    destruct (db_view db !! logKey i) as [v|] eqn:Hk.
    + assert (logKey i ∈ ks ↔ (n ≤ i)%N) as Hiff.
      { rewrite Hks, Hk, logKey_lt_iff by done. split; [intros (_ & _ & ?); lia|].
        intros ?. split_and!; [by eexists|apply logKey_prefix|lia]. }
      repeat case_decide; tauto || done.
    + by repeat case_decide.
Qed.

(** ** Reading the log back *)

Section load.
Context {B : Badger} {EJ : EntryJson}.

Lemma prefix_not_lt p k : has_prefix p k → ¬ bytes_lt k p.
Proof.
  intros [x ->]. induction p as [|b p IH]; simpl; [intros H; by destruct x|].
  intros [?|[_ ?]]; [lia|done].
Qed.

(** The item of the iterator that holds entry [e]. *)
Definition item_of (m : gmap bytes bytes) (it : bytes * (DBError + bytes)) (e : LogEntry)
    : Prop :=
  it.1 = logKey (eIndex e) ∧ (eIndex e < two64)%N ∧
  ∃ v, it.2 = inr v ∧ m !! it.1 = Some v ∧ entry_unmarshal v = Some e.

Lemma load_items_ok m items acc :
  (∀ it, it ∈ items → ∃ e, item_of m it e) →
  ∃ es, Forall2 (item_of m) items es ∧ load_items items acc = (acc ++ es, None).
Proof.
  revert acc. induction items as [|[k x] items IH]; intros acc Hall.
  { exists []. split; [constructor|]. simpl. by rewrite app_nil_r. }
  destruct (Hall (k, x)) as [e He]; [apply list_elem_of_here|].
  pose proof He as (Hk & Hi & v & Hx & Hv & Hu). simpl in Hk, Hx, Hv. subst x.
  destruct (IH (acc ++ [e])) as (es & Hes & Hload).
  { intros it Hit. apply Hall. by apply list_elem_of_further. }
  exists (e :: es). split; [by constructor|]. simpl. rewrite Hu, Hload.
  by rewrite <- app_assoc.
Qed.

Lemma sorted_items m items es :
  Forall2 (item_of m) items es → StronglySorted bytes_lt items.*1 →
  StronglySorted (fun e f => eIndex e < eIndex f)%N es.
Proof.
  induction 1 as [|it e items es Hit Hits IH]; intros Hs; [constructor|].
  rewrite fmap_cons in Hs. apply StronglySorted_inv in Hs as [Hs Hall].
  constructor; [by apply IH|]. clear IH Hs.
  destruct Hit as (Hk & Hi & _). rewrite Hk in Hall.
  induction Hits as [|it' e' items es Hit' Hits IH]; [constructor|].
  rewrite fmap_cons in Hall. apply Forall_cons in Hall as [Hlt Hall].
  constructor; [|by apply IH]. destruct Hit' as (Hk' & Hi' & _). rewrite Hk' in Hlt.
  by apply logKey_lt_iff.
Qed.
End load.

(** The log is read back in order. From a database whose log area is laid
    out as the store writes it, [LoadLog] returns exactly the stored entries,
    in strictly increasing order of index. *)
Theorem load_log_in_order `{Badger} `{EntryJson} db :
  reads_ok → layout_ok (db_view db) →
  ∃ es, LoadLog db = (es, None) ∧
    StronglySorted (fun e f => eIndex e < eIndex f)%N es ∧
    ∀ e, e ∈ es ↔ (eIndex e < two64)%N ∧ stored (db_view db) (eIndex e) = Some e.
Proof.
  intros Hr Hlay. unfold LoadLog. set (items := txn_scan _ _ _).
  destruct (Hr (db_begin db)) as [_ Hscan].
  assert (∀ it, it ∈ items → ∃ e, item_of (db_view db) it e) as Hitems.
  { intros [k [err|v]] Hin; [by destruct (Hscan prefixLog prefixLog k err)|].
    pose proof (scan_values _ _ _ _ _ Hin) as Hv. rewrite begin_view in Hv.
    assert (k ∈ items.*1) as Hk by (apply list_elem_of_fmap; by exists (k, inr v)).
    apply scan_keys in Hk as (_ & Hp & _).
    destruct (Hlay k v Hv Hp) as (e & Hi & He & Hu).
    exists e. split_and!; [done|done|]. by exists v. }
  destruct (load_items_ok (db_view db) items [] Hitems) as (es & Hes & Hload).
  exists es. split; [done|]. split.
  { eapply sorted_items; [done|]. apply scan_sorted. }
  intros e. split.
  - intros (j & Hj)%list_elem_of_lookup_1.
    destruct (Forall2_lookup_r _ _ _ _ _ Hes Hj) as (it & _ & Hk & Hi & v & _ & Hv & Hu).
    split; [done|]. unfold stored. rewrite <- Hk, Hv. done.
  - intros [Hi Hst]. unfold stored in Hst.
    destruct (db_view db !! logKey (eIndex e)) as [v|] eqn:Hv; [|done]. simpl in Hst.
    assert (logKey (eIndex e) ∈ items.*1) as Hk.
    { apply scan_keys. rewrite begin_view. pose proof (logKey_prefix (eIndex e)).
      split_and!; [by eexists|done|by apply prefix_not_lt]. }
    apply list_elem_of_fmap in Hk as (it & Hk & (j & Hj)%list_elem_of_lookup_1).
    destruct (Forall2_lookup_l _ _ _ _ _ Hes Hj) as (f & Hf & Hkf & Hif & w & _ & Hw & Hu).
    assert (w = v) as -> by congruence. assert (f = e) as -> by congruence.
    by eapply list_elem_of_lookup_2.
Qed.

(** ** A database for evaluation

    A finite map whose transactions always succeed, and entries written with
    their fields in a fixed-width form. *)

Module SampleStore.
#[export] Instance bytes_lt_dec a b : Decision (bytes_lt a b).
Proof.
  revert b. induction a as [|x a IH]; intros [|y b]; simpl; apply _.
Defined.

Definition bytes_le (a b : bytes) : Prop := a = b ∨ bytes_lt a b.

#[export] Instance bytes_le_dec a b : Decision (bytes_le a b).
Proof. unfold bytes_le. apply _. Defined.

#[export] Instance bytes_le_total : Total bytes_le.
Proof.
  intros a. induction a as [|x a IH]; intros [|y b]; unfold bytes_le in *; simpl; auto.
  destruct (N.lt_trichotomy (Byte.to_N x) (Byte.to_N y)) as [?|[->%to_N_inj|?]]; auto.
  destruct (IH b) as [[->|?]|[->|?]]; auto.
Qed.

#[export] Instance bytes_lt_trans : Transitive bytes_lt.
Proof.
  intros a. induction a as [|x a IH]; intros [|y b] [|z c]; simpl; try done.
  intros [?|[-> ?]] [?|[-> ?]]; [left; lia|by left|by left|right; eauto].
Qed.

#[export] Instance bytes_le_trans : Transitive bytes_le.
Proof.
  intros a b c [->|Hab] [->|Hbc]; unfold bytes_le; auto. right. by transitivity b.
Qed.

Definition keys_of (m : gmap bytes bytes) (p s : bytes) : list bytes :=
  merge_sort bytes_le
    (filter (fun k => p `prefix_of` k ∧ ¬ bytes_lt k s) (elements (dom m))).

Lemma strict_sorted l : NoDup l → StronglySorted bytes_le l → StronglySorted bytes_lt l.
Proof.
  induction 2 as [|x l Hs IH Hall]; [constructor|].
  match goal with Hn : NoDup _ |- _ => apply NoDup_cons in Hn as [Hx Hn] end.
  constructor; [by apply IH|]. rewrite Forall_forall in Hall |- *.
  intros y Hy. destruct (Hall y Hy) as [->|?]; [done|done].
Qed.

Lemma elem_of_keys m p s k :
  k ∈ keys_of m p s ↔ is_Some (m !! k) ∧ p `prefix_of` k ∧ ¬ bytes_lt k s.
Proof.
  unfold keys_of. rewrite merge_sort_Permutation, list_elem_of_filter, elem_of_elements, elem_of_dom.
  tauto.
Qed.

Definition scan (m : gmap bytes bytes) (p s : bytes) : list (bytes * (unit + bytes)) :=
  (fun k => (k, inr (default [] (m !! k)))) <$> keys_of m p s.

Lemma scan_fst m p s : (scan m p s).*1 = keys_of m p s.
Proof. unfold scan. rewrite <- list_fmap_compose. apply list_fmap_id. Qed.

#[export] Program Instance sample_badger : Badger := {|
  DB := gmap bytes bytes; Txn := gmap bytes bytes; DBError := unit;
  db_view m := m; txn_view m := m; db_begin m := m; db_commit _ t := inr t;
  txn_get m k := match m !! k with Some v => Item (inr v) | None => KeyNotFound end;
  txn_set m k v := inr (<[k := v]> m);
  txn_delete m k := inr (delete k m);
  txn_scan := scan
|}.
Next Obligation. done. Qed.
Next Obligation. naive_solver. Qed.
Next Obligation. intros m k v. simpl. case_match; naive_solver. Qed.
Next Obligation. intros m k. simpl. by case_match. Qed.
Next Obligation. naive_solver. Qed.
Next Obligation. naive_solver. Qed.
Next Obligation. intros m p s k. rewrite scan_fst. apply elem_of_keys. Qed.
Next Obligation.
  intros m p s. rewrite scan_fst. apply strict_sorted.
  - unfold keys_of. rewrite merge_sort_Permutation. apply NoDup_filter, NoDup_elements.
  - apply (StronglySorted_merge_sort _).
Qed.
Next Obligation.
  intros m p s k v. simpl. unfold scan. intros (q & [= -> ->] & Hin)%list_elem_of_fmap.
  apply elem_of_keys in Hin as ([w Hw] & _). by rewrite Hw.
Qed.

Lemma sample_reads : reads_ok.
Proof.
  intros t. split.
  - intros k e. simpl. by destruct (_ !! k).
  - intros p s k e. simpl. unfold scan. by intros (q & [=] & _)%list_elem_of_fmap.
Qed.

Definition write_entry (e : LogEntry) : option bytes :=
  Some (PutUint64 (eIndex e) ++ PutUint64 (eTerm e) ++
        (if decide (eType e = EntryCommand) then x00 else x01) :: eData e).

Definition read_entry (b : bytes) : option LogEntry :=
  match drop 16 b with
  | t :: d => Some (mkLogEntry (Uint64 (take 8 b)) (Uint64 (take 8 (drop 8 b))) d
                     (if decide (t = x00) then EntryCommand else EntryConfigChange))
  | [] => None
  end.

#[export] Program Instance sample_entry_json : EntryJson :=
  {| entry_marshal := write_entry; entry_unmarshal := read_entry |}.
Next Obligation.
  intros [i t d ty] b Hi Ht [= <-]. cbn [eIndex eTerm eData eType] in *.
  transitivity (Some (mkLogEntry (Uint64 (PutUint64 i)) (Uint64 (PutUint64 t)) d ty)).
  - by destruct ty.
  - by rewrite !Uint64_PutUint64.
Qed.

Definition empty_db : DB := (∅ : gmap bytes bytes).
Definition entry (i t : N) : LogEntry := mkLogEntry i t [x61] EntryCommand.
Definition two_entries : DB := (AppendEntries empty_db [entry 1 2; entry 2 3]).1.

Lemma two_entries_stored : AppendEntries empty_db [entry 1 2; entry 2 3] = (two_entries, None).
Proof. done. Qed.

Lemma two_entries_layout : layout_ok (db_view two_entries).
Proof.
  intros k v Hk Hp. change (db_view two_entries) with (two_entries : gmap bytes bytes) in Hk.
  unfold two_entries in Hk. cbn in Hk.
  repeat (apply lookup_insert_Some in Hk as [[<- <-]|[_ Hk]];
    [eexists; by split_and!; [| |vm_compute; reflexivity]|]).
  unfold empty_db in Hk. by rewrite lookup_empty in Hk.
Qed.
End SampleStore.
Export (hints) SampleStore.

(** ** Witnesses *)

Import SampleStore.

Lemma no_error {A E} (r : A * option E) : r.2 = None → r = (r.1, None).
Proof. by destruct r as [a [e|]]. Qed.

Lemma save_load_state_witness :
  let db := (SaveState empty_db 3 "a").1 in
  LoadState db = (3%N, "a", None) ∧
  ∀ i, stored (db_view db) i = stored (db_view empty_db) i.
Proof. by apply (save_load_state empty_db _ 3 "a" sample_reads). Defined.

Lemma log_key_order_witness :
  bytes_lt (logKey 255) (logKey 256) ↔ (255 < 256)%N.
Proof. by apply (log_key_order 255 256). Defined.

Lemma append_entries_stores_witness :
  stored (db_view two_entries) 2 = Some (entry 2 3) ∧
  term_of (db_view two_entries) = term_of (db_view empty_db).
Proof.
  pose proof (append_entries_stores empty_db [entry 1 2; entry 2 3]) as H.
  rewrite two_entries_stored in H.
  destruct H as (_ & (Ht & _ & _ & Hst)); [|done|].
  - intros e. rewrite !elem_of_cons, elem_of_nil. by intros [->|[->|[]]].
  - split; [by apply (Hst 2%N)|done].
Defined.

Lemma truncate_from_removes_suffix_witness :
  let db := (TruncateFrom two_entries 2).1 in
  stored (db_view db) 2 = None ∧ stored (db_view db) 1 = Some (entry 1 2).
Proof.
  destruct (truncate_from_removes_suffix two_entries (TruncateFrom two_entries 2).1 2)
    as (_ & _ & _ & Hst); [done|by apply no_error; vm_compute|].
  cbv zeta. split; rewrite Hst by done; by vm_compute.
Defined.

Lemma load_log_in_order_witness :
  ∃ es, LoadLog two_entries = (es, None) ∧ entry 2 3 ∈ es.
Proof.
  destruct (load_log_in_order two_entries sample_reads two_entries_layout)
    as (es & Hload & _ & Hes).
  exists es. split; [done|]. apply Hes. split; [done|by vm_compute].
Defined.
