(* ===== verification/Metrics.v ===== *)
(** * Counters and status (src/observability/metrics.go)

    The atomically updated counters of a node and the record the debug
    endpoint serves.  The endpoint itself is in [Status]. *)

From S2P Require Import Prelude.

Record Metrics := mkMetrics {
  MessagesSent : N;
  ElectionCount : N;
  LastCommitIndex : N;
  ProposalsTotal : N;
  ReadsTotal : N;
  AppliedIndex : N;
  CurrentState : string
}.

#[export] Instance Metrics_settable : Settable Metrics := {| eta_expand m :=
  mkMetrics (MessagesSent m) (ElectionCount m) (LastCommitIndex m)
    (ProposalsTotal m) (ReadsTotal m) (AppliedIndex m) (CurrentState m) |}.

Definition NewMetrics : Metrics := mkMetrics 0 0 0 0 0 0 "follower".

Record MetricsSnapshot := mkMetricsSnapshot {
  msMessagesSent : N;
  msElectionCount : N;
  msLastCommitIndex : N;
  msProposalsTotal : N;
  msReadsTotal : N;
  msAppliedIndex : N;
  msCurrentState : string
}.

Definition Metrics_Snapshot (m : Metrics) : MetricsSnapshot :=
  mkMetricsSnapshot (MessagesSent m) (ElectionCount m) (LastCommitIndex m)
    (ProposalsTotal m) (ReadsTotal m) (AppliedIndex m) (CurrentState m).

Record NodeStatus := mkNodeStatus {
  nsNodeID : string;
  nsState : string;
  nsTerm : N;
  nsLeaderID : string;
  nsCommitIdx : N;
  nsAppliedIdx : N;
  nsLogLength : nat;
  nsPeers : list string;
  nsKVSize : nat;
  nsKVData : gmap string string;
  nsMetrics : MetricsSnapshot
}.
