(* ===== verification/Node.v ===== *)
(** * The node (src/node.go)

    One Definition per handler of [Node]: the critical section it runs under
    the mutex, composed of the operations of the Raft state machine, the
    key-value store and the persistent store.  A handler returns the new node
    and the RPCs it starts ([go n.sendAppendEntries], [go n.sendRequestVote]).
    The part of an RPC after its reply and the wait of a proposal are
    definitions of their own.  Logging, timers and sockets are not modelled. *)

From S2P Require Import Prelude Pb Raft RaftWf Kv Storage Metrics.

(** The fields of [NodeConfig] that reach the state machine; [ncTerm] is the
    value of the shared atomic at start. *)
Record NodeConfig := mkNodeConfig {
  ncID : string;
  ncPeers : list string;
  ncElectionTimeout : Z;
  ncHeartbeatTimeout : Z;
  ncTerm : N
}.

(** ** Discovery events (src/discovery/discovery.go) *)

Inductive EventType := NodeJoin | NodeLeave | NodeUpdate.

#[export] Instance EventType_eq_dec : EqDecision EventType.
Proof. solve_decision. Defined.

Record DiscoveryEvent := mkDiscoveryEvent {
  evType : EventType;
  evNodeID : string;
  evRaftAddr : string
}.

(** [fmt.Errorf("node: no response generated for ...")]. *)
Inductive NodeError := ErrNoResponse (rpc : string).

(** ** Channels

    [make(chan struct{})] takes the next position of the list; the entry says
    whether the channel is closed.  Closing a closed channel panics. *)
Definition close_chan (chans : list bool) (ch : nat) : option (list bool) :=
  match chans !! ch with
  | Some false => Some (<[ch := true]> chans)
  | _ => None
  end.

(** ** RPC messages *)

(** The [raft.Message] that [HandleAppendEntries] builds from a request. *)
Definition append_entries_message (id : string) (req : AppendEntriesRequest) : Message :=
  (newMessage MsgAppendEntries (aeLeaderID req) id (aeTerm req))
    <| mPrevLogIndex := aePrevLogIndex req |> <| mPrevLogTerm := aePrevLogTerm req |>
    <| mEntries := aeEntries req |> <| mLeaderCommit := aeLeaderCommit req |>.

(** The same for [HandleRequestVote]. *)
Definition request_vote_message (id : string) (req : RequestVoteRequest) : Message :=
  (newMessage MsgRequestVote (rvCandidateID req) id (rvTerm req))
    <| mLastLogIndex := rvLastLogIndex req |> <| mLastLogTerm := rvLastLogTerm req |>
    <| mIsPreVote := rvIsPreVote req |>.

(** The request that [sendAppendEntries] puts on the wire. *)
Definition append_entries_request (msg : Message) : AppendEntriesRequest :=
  mkAppendEntriesRequest (mTerm msg) (mFrom msg) (mPrevLogIndex msg) (mPrevLogTerm msg)
    (mEntries msg) (mLeaderCommit msg).

Definition request_vote_request (msg : Message) : RequestVoteRequest :=
  mkRequestVoteRequest (mTerm msg) (mFrom msg) (mLastLogIndex msg) (mLastLogTerm msg)
    (mIsPreVote msg).

(** The [raft.Message] made of the reply to [msg]. *)
Definition append_entries_reply (msg : Message) (resp : AppendEntriesResponse) : Message :=
  (newMessage MsgAppendEntriesResp (mTo msg) (mFrom msg) (aerTerm resp))
    <| mReject := negb (aerSuccess resp) |> <| mIndex := aerLastLogIndex resp |>.

Definition request_vote_reply (msg : Message) (resp : RequestVoteResponse) : Message :=
  (newMessage MsgRequestVoteResp (mTo msg) (mFrom msg) (rvrTerm resp))
    <| mReject := negb (rvrVoteGranted resp) |> <| mIsPreVote := rvrIsPreVote resp |>.

(** [routeMessage]: the RPC goroutine it starts, if any. *)
Definition routeMessage (msg : Message) : list Message :=
  match mType msg with
  | MsgAppendEntries | MsgRequestVote => [msg]
  | _ => []
  end.

(** The loops over [Messages()] in the two RPC handlers: the last response to
    the caller wins, everything else is routed. *)
Fixpoint append_entries_loop (from : string) (ms : list Message)
    (resp : option AppendEntriesResponse) (out : list Message)
    : option AppendEntriesResponse * list Message :=
  match ms with
  | [] => (resp, out)
  | m :: ms' =>
      if decide (mType m = MsgAppendEntriesResp ∧ mTo m = from)
      then append_entries_loop from ms'
             (Some (mkAppendEntriesResponse (mTerm m) (negb (mReject m)) (mIndex m))) out
      else append_entries_loop from ms' resp (out ++ routeMessage m)
  end.

Fixpoint request_vote_loop (from : string) (ms : list Message)
    (resp : option RequestVoteResponse) (out : list Message)
    : option RequestVoteResponse * list Message :=
  match ms with
  | [] => (resp, out)
  | m :: ms' =>
      if decide (mType m = MsgRequestVoteResp ∧ mTo m = from)
      then request_vote_loop from ms'
             (Some (mkRequestVoteResponse (mTerm m) (negb (mReject m)) (mIsPreVote m))) out
      else request_vote_loop from ms' resp (out ++ routeMessage m)
  end.

(** What [HandlePropose] does next: answer at once, or wait on a channel. *)
Inductive ProposeOutcome := Answer (resp : ProposeResponse) | Wait (ch : nat).

(** What [HandleRead] does next: answer, or read the key from the store. *)
Inductive ReadOutcome := ReadAnswer (resp : ReadResponse) | ReadValue (key : string).

(** The cases of the final [select] of [HandlePropose]. *)
Inductive Wakeup {E : Type} := DoneClosed | TimedOut | CtxDone (err : E).
Arguments Wakeup : clear implicits.

(** The response for the case taken; the first case is ready only once the
    channel is closed. *)
Definition await {E} (chans : list bool) (ch : nat) (w : Wakeup E)
    : option (E + ProposeResponse) :=
  match w with
  | DoneClosed =>
      match chans !! ch with
      | Some true => Some (inr (mkProposeResponse true "" ""))
      | _ => None
      end
  | TimedOut => Some (inr (mkProposeResponse false "" "proposal timed out"))
  | CtxDone err => Some (inl err)
  end.

Section node.
Context {GR : GoRand} {CJ : CommandJson} {B : Badger} {EJ : EntryJson}.

Record Node := mkNode {
  n_raft : Raft;
  n_store : DB;
  n_fsm : KV;
  n_metrics : Metrics;
  n_cfg : NodeConfig;
  n_proposals : gmap N nat;
  n_peerAddrs : gmap string string;
  n_chans : list bool
}.

#[export] Instance Node_settable : Settable Node := {| eta_expand n :=
  mkNode (n_raft n) (n_store n) (n_fsm n) (n_metrics n) (n_cfg n)
    (n_proposals n) (n_peerAddrs n) (n_chans n) |}.

(** ** Construction *)

Inductive NewNodeError :=
  | ErrStorage (e : DBError)
  | ErrLoadState (e : StoreError DBError)
  | ErrLoadLog (e : StoreError DBError)
  | ErrTransport.

Definition node_raft_config (cfg : NodeConfig) (savedTerm : N) (savedVote : string)
    (savedLog : list LogEntry) : Config :=
  mkConfig (ncID cfg) (ncPeers cfg) (ncElectionTimeout cfg) (ncHeartbeatTimeout cfg)
    (ncTerm cfg) 0 savedTerm savedVote savedLog.

(** [opened] is the result of opening the database, [New_store] of the data
    directory, and [transport] says whether the gRPC listener could be created; [None] is a panic. *)
Definition NewNode (cfg : NodeConfig) (opened : DBError + DB) (transport : bool)
    : option (NewNodeError + Node) :=
  match opened with
  | inl e => Some (inl (ErrStorage e))
  | inr store =>
      match LoadState store with
      | (_, _, Some e) => Some (inl (ErrLoadState e))
      | (savedTerm, savedVote, None) =>
          match LoadLog store with
          | (_, Some e) => Some (inl (ErrLoadLog e))
          | (savedLog, None) =>
              r <- NewRaft (node_raft_config cfg savedTerm savedVote savedLog);;
              if transport
              then Some (inr (mkNode r store NewKV NewMetrics cfg ∅ ∅ []))
              else Some (inl ErrTransport)
          end
      end
  end.

Definition SetPeerAddr (n : Node) (nodeID addr : string) : Node :=
  n <| n_peerAddrs := <[nodeID := addr]> (n_peerAddrs n) |>.

Definition resolvePeerAddr (n : Node) (nodeID : string) : string :=
  match n_peerAddrs n !! nodeID with
  | Some addr => addr
  | None => nodeID
  end.

Definition resolveLeaderAddr (n : Node) : string :=
  let leader := leaderID (n_raft n) in
  match n_peerAddrs n !! leader with
  | Some addr => addr
  | None => leader
  end.

(** ** Helpers run inside every critical section *)

Definition persistState (n : Node) : Node :=
  n <| n_store := (SaveState (n_store n) (currentTerm (n_raft n)) (votedFor (n_raft n))).1 |>.

Definition updateMetrics (n : Node) : Node :=
  n <| n_metrics := (n_metrics n)
         <| LastCommitIndex := commitIndex (n_raft n) |>
         <| CurrentState := NodeState_String (state (n_raft n)) |> |>.

Fixpoint dispatch_loop (ms : list Message) (n : Node) (out : list Message)
    : Node * list Message :=
  match ms with
  | [] => (n, out)
  | msg :: ms' =>
      dispatch_loop ms'
        (n <| n_metrics := (n_metrics n)
                <| MessagesSent := MessagesSent (n_metrics n) +u 1 |> |>)
        (out ++ routeMessage msg)
  end.

Definition dispatchMessages (n : Node) : Node * list Message :=
  let '(ms, r) := Messages (n_raft n) in
  dispatch_loop ms (n <| n_raft := r |>) [].

(** One iteration of [applyCommitted]: a failing command is logged. *)
Definition apply_entry (n : Node) (entry : LogEntry) : option Node :=
  let n := if decide (eType entry = EntryCommand ∧ 0 < length (eData entry))
           then n <| n_fsm := (Apply (n_fsm n) (eData entry)).1 |> else n in
  n <- (match n_proposals n !! eIndex entry with
        | Some ch =>
            chans <- close_chan (n_chans n) ch;;
            Some (n <| n_chans := chans |>
                    <| n_proposals := delete (eIndex entry) (n_proposals n) |>)
        | None => Some n
        end);;
  Some (n <| n_metrics := (n_metrics n) <| AppliedIndex := eIndex entry |> |>).

Fixpoint apply_loop (entries : list LogEntry) (n : Node) : option Node :=
  match entries with
  | [] => Some n
  | entry :: entries' => n <- apply_entry n entry;; apply_loop entries' n
  end.

Definition applyCommitted (n : Node) : option Node :=
  er <- ApplicableEntries (n_raft n);;
  apply_loop er.1 (n <| n_raft := er.2 |>).

(** ** The event loop *)

(** The [ticker.C] case of [Run]. *)
Definition onTick (n : Node) : option (Node * list Message) :=
  r <- Tick (n_raft n);;
  n <- applyCommitted (n <| n_raft := r |>);;
  let '(n, out) := dispatchMessages (persistState n) in
  Some (updateMetrics n, out).

Definition handleDiscoveryEvent (n : Node) (event : DiscoveryEvent)
    : Node * list Message :=
  match evType event with
  | NodeJoin =>
      let n := n <| n_raft := AddPeer (n_raft n) (evNodeID event) |>
                 <| n_peerAddrs := <[evNodeID event := evRaftAddr event]> (n_peerAddrs n) |> in
      dispatchMessages (persistState n)
  | NodeLeave => (n, [])
  | NodeUpdate => (n, [])
  end.

(** ** Consensus handlers *)

Definition HandleAppendEntries (n : Node) (req : AppendEntriesRequest)
    : option (Node * list Message * (NodeError + AppendEntriesResponse)) :=
  let msg := append_entries_message (ncID (n_cfg n)) req in
  r <- Step (n_raft n) msg;;
  n <- applyCommitted (n <| n_raft := r |>);;
  let n := persistState n in
  let '(ms, r) := Messages (n_raft n) in
  let '(resp, out) := append_entries_loop (mFrom msg) ms None [] in
  let n := updateMetrics (n <| n_raft := r |>) in
  Some (n, out, match resp with
                | None => inl (ErrNoResponse "AppendEntries")
                | Some resp => inr resp
                end).

Definition HandleRequestVote (n : Node) (req : RequestVoteRequest)
    : option (Node * list Message * (NodeError + RequestVoteResponse)) :=
  let msg := request_vote_message (ncID (n_cfg n)) req in
  r <- Step (n_raft n) msg;;
  let n := persistState (n <| n_raft := r |>) in
  let '(ms, r) := Messages (n_raft n) in
  let '(resp, out) := request_vote_loop (mFrom msg) ms None [] in
  let n := updateMetrics (n <| n_raft := r |>) in
  Some (n, out, match resp with
                | None => inl (ErrNoResponse "RequestVote")
                | Some resp => inr resp
                end).

(** [sendAppendEntries] once the call returned; [None] is a failed call. *)
Definition sendAppendEntries_done (n : Node) (msg : Message)
    (result : option AppendEntriesResponse) : option (Node * list Message) :=
  match result with
  | None => Some (n, [])
  | Some resp =>
      r <- Step (n_raft n) (append_entries_reply msg resp);;
      n <- applyCommitted (n <| n_raft := r |>);;
      let '(n, out) := dispatchMessages (persistState n) in
      Some (updateMetrics n, out)
  end.

Definition sendRequestVote_done (n : Node) (msg : Message)
    (result : option RequestVoteResponse) : option (Node * list Message) :=
  match result with
  | None => Some (n, [])
  | Some resp =>
      r <- Step (n_raft n) (request_vote_reply msg resp);;
      let '(n, out) := dispatchMessages (persistState (n <| n_raft := r |>)) in
      Some (updateMetrics n, out)
  end.

(** ** Key-value handlers *)

(** [HandlePropose] up to its [select]. *)
Definition HandlePropose (n : Node) (req : ProposeRequest)
    : option (Node * list Message * ProposeOutcome) :=
  let n := n <| n_metrics := (n_metrics n)
                  <| ProposalsTotal := ProposalsTotal (n_metrics n) +u 1 |> |> in
  if decide (state (n_raft n) ≠ Leader)
  then Some (n, [], Answer (mkProposeResponse false (resolveLeaderAddr n) "not leader"))
  else
    pr <- Propose (n_raft n) (pqData req);;
    let n := n <| n_raft := pr.2 |> in
    match pr.1 with
    | ErrNotLeader => Some (n, [], Answer (mkProposeResponse false "" "raft: not leader"))
    | Proposed idx =>
        let doneCh := length (n_chans n) in
        let n := n <| n_chans := n_chans n ++ [false] |>
                   <| n_proposals := <[idx := doneCh]> (n_proposals n) |> in
        let '(n, out) := dispatchMessages (persistState n) in
        Some (updateMetrics n, out, Wait doneCh)
    end.

(** [HandleRead] up to the release of the lock; the store is read after it. *)
Definition HandleRead (n : Node) (req : ReadRequest) : Node * ReadOutcome :=
  let n := n <| n_metrics := (n_metrics n)
                  <| ReadsTotal := ReadsTotal (n_metrics n) +u 1 |> |> in
  if decide (state (n_raft n) ≠ Leader)
  then (n, ReadAnswer (mkReadResponse "" false (resolveLeaderAddr n) "not leader"))
  else if negb (HasLeaderQuorum (n_raft n))
  then (n, ReadAnswer (mkReadResponse "" false ""
             "leader lost quorum — cannot serve linearizable read"))
  else (n, ReadValue (rqKey req)).

(** The end of [HandleRead], on the node as it is by then. *)
Definition read_value (n : Node) (key : string) : ReadResponse :=
  let '(value, found) := Get (n_fsm n) key in mkReadResponse value found "" "".

(** [HandleRead] when nothing happens between the release of the lock and the
    read of the store. *)
Definition read_answer (n : Node) (req : ReadRequest) : ReadResponse :=
  match (HandleRead n req).2 with
  | ReadAnswer resp => resp
  | ReadValue key => read_value n key
  end.

Definition nodeStatus (n : Node) : NodeStatus :=
  mkNodeStatus (ncID (n_cfg n)) (NodeState_String (state (n_raft n)))
    (currentTerm (n_raft n)) (leaderID (n_raft n)) (commitIndex (n_raft n))
    (lastApplied (n_raft n)) (length (log (n_raft n))) (peers (n_raft n))
    (Len (n_fsm n)) (Snapshot (n_fsm n)) (Metrics_Snapshot (n_metrics n)).
End node.
