(* ===== verification/NodeSpec.v ===== *)
(** * What the handlers of a node do

    The invariant of a node between critical sections, the effect of every
    helper and handler of [Node] on it, and the link to a restart from the
    persistent store. *)

From S2P Require Import Prelude Pb Raft RaftWf Cluster ClusterTrans Kv Storage Metrics Node.

(** ** The state machine as a fold over the log *)

Section replay.
Context {CJ : CommandJson}.

Definition run_entry (kv : KV) (entry : LogEntry) : KV :=
  if decide (eType entry = EntryCommand) then (Apply kv (eData entry)).1 else kv.

Definition replay (kv : KV) (entries : list LogEntry) : KV := foldl run_entry kv entries.

(** Skipping empty commands is no different from applying them. *)
Lemma run_entry_guard kv e :
  (if decide (eType e = EntryCommand ∧ 0 < length (eData e))
   then (Apply kv (eData e)).1 else kv) = run_entry kv e.
Proof.
  unfold run_entry. destruct (decide (eType e = EntryCommand)) as [Ht|Ht].
  - case_decide as Hd; [done|].
    assert (length (eData e) = 0) as Hl by (destruct (decide (0 < length (eData e))); [tauto|lia]).
    unfold Apply. by rewrite decide_True.
  - by rewrite decide_False by tauto.
Qed.
End replay.

Section spec.
Context {GR : GoRand} {CJ : CommandJson} {B : Badger} {EJ : EntryJson}.

(** Registered channels are open and pairwise distinct. *)
Record chans_ok (n : Node) : Prop := {
  co_open i ch : n_proposals n !! i = Some ch → n_chans n !! ch = Some false;
  co_inj i j ch : n_proposals n !! i = Some ch → n_proposals n !! j = Some ch → i = j
}.

(** A node between two critical sections. *)
Record node_wf (n : Node) : Prop := {
  nw_raft : raft_wf (n_raft n);
  nw_msgs : msgs (n_raft n) = [];
  nw_id : r_id (n_raft n) = ncID (n_cfg n);
  nw_chans : chans_ok n
}.

(** ** Applying committed entries *)

(** What applying [es] makes of [n]. *)
Record ran_entries (n : Node) (es : list LogEntry) (n' : Node) : Prop := {
  re_raft : n_raft n' = n_raft n;
  re_store : n_store n' = n_store n;
  re_cfg : n_cfg n' = n_cfg n;
  re_addrs : n_peerAddrs n' = n_peerAddrs n;
  re_fsm : n_fsm n' = replay (n_fsm n) es;
  re_proposals i :
    n_proposals n' !! i = if decide (i ∈ eIndex <$> es) then None else n_proposals n !! i;
  re_closed i ch :
    n_proposals n !! i = Some ch → i ∈ eIndex <$> es → n_chans n' !! ch = Some true;
  re_kept ch :
    (∀ i, i ∈ eIndex <$> es → n_proposals n !! i ≠ Some ch) →
    n_chans n' !! ch = n_chans n !! ch;
  re_metrics : n_metrics n' =
    (n_metrics n) <| AppliedIndex := default (AppliedIndex (n_metrics n)) (eIndex <$> last es) |>;
  re_chans : chans_ok n'
}.

Lemma apply_entry_ran n e :
  chans_ok n → returns (apply_entry n e) (ran_entries n [e]).
Proof.
  intros [Hopen Hinj]. unfold apply_entry. cbv zeta.
  set (n1 := if decide _ then _ else n).
  assert (n1 = n <| n_fsm := run_entry (n_fsm n) e |>) as ->.
  { unfold n1. rewrite <- run_entry_guard. case_decide; [done|by destruct n]. }
  cbn [n_proposals n_chans].
  change (n_proposals (n <| n_fsm := _ |>)) with (n_proposals n).
  change (n_chans (n <| n_fsm := _ |>)) with (n_chans n).
  destruct (n_proposals n !! eIndex e) as [ch|] eqn:Hch.
  - unfold close_chan. rewrite (Hopen _ _ Hch). cbn [seq_bind]. apply returns_Some.
    assert (ch < length (n_chans n)) as Hlt by (by eapply lookup_lt_Some, Hopen).
    split; try done; simpl.
    + intros i. case_decide as Hi; rewrite list_elem_of_singleton in Hi.
      * subst i. apply lookup_delete_eq.
      * by apply lookup_delete_ne.
    + intros i c Hi ->%list_elem_of_singleton. simplify_eq. by apply list_lookup_insert_eq.
    + intros c Hc. apply list_lookup_insert_ne. intros <-. apply (Hc (eIndex e)); [|done].
      by apply list_elem_of_singleton.
    + split; simpl.
      * intros i c [Hne Hi]%lookup_delete_Some. rewrite list_lookup_insert_ne; [by eauto|].
        intros <-. apply Hne. by eapply Hinj.
      * intros i j c [_ Hi]%lookup_delete_Some [_ Hj]%lookup_delete_Some. by eapply Hinj.
  - cbn [seq_bind]. apply returns_Some. split; try done; simpl.
    + intros i. case_decide as Hi; [|done]. rewrite list_elem_of_singleton in Hi. by subst.
    + intros i c Hi ->%list_elem_of_singleton. congruence.
Qed.

Lemma ran_entries_app n1 n2 n3 es fs :
  chans_ok n1 → ran_entries n1 es n2 → ran_entries n2 fs n3 → ran_entries n1 (es ++ fs) n3.
Proof.
  intros [Hopen Hinj] [Hr1 Hs1 Hc1 Ha1 Hf1 Hp1 Hcl1 Hk1 Hm1 Ho1] [Hr2 Hs2 Hc2 Ha2 Hf2 Hp2 Hcl2 Hk2 Hm2 Ho2].
  split; try congruence.
  - rewrite Hf2, Hf1. unfold replay. by rewrite foldl_app.
  - intros i. rewrite Hp2, Hp1, fmap_app. repeat case_decide; set_solver.
  - intros i ch Hi Hin. rewrite fmap_app, elem_of_app in Hin.
    destruct (decide (i ∈ eIndex <$> es)) as [Hes|Hes].
    + rewrite Hk2; [by eapply Hcl1|]. intros j Hj. rewrite Hp1. case_decide as Hje; [done|].
      intros Hjc. apply Hje. by rewrite (Hinj _ _ _ Hjc Hi).
    + destruct Hin as [?|Hin]; [done|]. eapply Hcl2; [|done]. rewrite Hp1. by rewrite decide_False.
  - intros ch Hch. rewrite Hk2, Hk1; [done| |].
    + intros i Hi. apply Hch. set_solver.
    + intros i Hi. rewrite Hp1. case_decide; [done|]. apply Hch. set_solver.
  - rewrite Hm2, Hm1. rewrite last_app. destruct (last fs); [done|]. by destruct (n_metrics n1).
Qed.

Lemma apply_loop_ran es n :
  chans_ok n → returns (apply_loop es n) (ran_entries n es).
Proof.
  revert n. induction es as [|e es IH]; intros n Hok; cbn [apply_loop].
  - apply returns_Some. split; try done.
    + by intros i ch _ ?%not_elem_of_nil.
    + by destruct n as [???[]].
  - eapply returns_bind; [by apply apply_entry_ran|]. intros n1 H1.
    eapply returns_mono; [apply IH; by apply (re_chans _ _ _ H1)|]. intros n2 H2.
    by apply (ran_entries_app n n1 n2 [e] es).
Qed.

(** [applyCommitted] runs the entries the state machine hands out. *)
Lemma applyCommitted_ran n :
  raft_wf (n_raft n) → chans_ok n →
  returns (applyCommitted n) (fun n' =>
    ∃ es r, ApplicableEntries (n_raft n) = Some (es, r) ∧
            ran_entries (n <| n_raft := r |>) es n').
Proof.
  intros Hwf Hok. unfold applyCommitted.
  destruct (ApplicableEntries_returns _ Hwf) as ([es r] & -> & _). cbn [seq_bind fst snd].
  eapply returns_mono; [apply apply_loop_ran|].
  - destruct Hok as [Ho Hi]. by split.
  - intros n' Hn'. by exists es, r.
Qed.

(** ** What [Step] answers to a request *)

Lemma stepped_msgs r m : msgs (stepped r m) = msgs r.
Proof. unfold stepped. by destruct (raises_term r m). Qed.

Lemma stepped_id r m : r_id (stepped r m) = r_id r.
Proof. unfold stepped. by destruct (raises_term r m). Qed.

(** Exactly one message goes out, the reply to the sender. *)
Lemma handleAppendEntries_reply r m :
  raft_wf r → msg_wf m → mType m = MsgAppendEntries → (mTerm m ≤ currentTerm r)%N →
  msgs r = [] →
  returns (handleAppendEntries r m) (fun r' =>
    raft_wf r' ∧ r_id r' = r_id r ∧ ∃ reject i,
      msgs r' = [append_reply r m (currentTerm r') reject i] ∧
      (reject = false → mTerm m = currentTerm r' ∧ state r' = Follower ∧
         leaderID r' = mFrom m ∧ i = N.of_nat (pred (length (log r'))))).
Proof.
  intros Hwf Hm Hty Hle Hms.
  destruct (handleAppendEntries_returns r m Hwf Hm Hty Hle) as (r' & Hr' & Hwf').
  exists r'. split; [done|]. split; [done|].
  destruct (decide (mTerm m < currentTerm r)%N) as [Hlt|Hge].
  { rewrite handleAppendEntries_stale in Hr' by done. injection Hr' as <-.
    split; [done|]. exists true, 0%N. split; [|done]. unfold send. simpl. by rewrite Hms. }
  assert (currentTerm r = mTerm m) as HT by lia.
  rewrite handleAppendEntries_eq in Hr';
    [|done|done|by apply msg_wf_prev|intros; by apply msg_wf_appendable; [apply Hwf|..]].
  assert (state (heard_leader r m) = Follower ∧ leaderID (heard_leader r m) = mFrom m) as [Hst Hl].
  { clear Hr'. unfold heard_leader. cbv zeta. case_decide as Hs; [done|].
    by destruct (decide (state r = Follower)). }
  pose proof (heard_leader_msgs r m) as Hhm. pose proof (heard_leader_id r m) as Hhi.
  pose proof (heard_leader_term r m ltac:(lia) ltac:(lia)) as Hht.
  set (h := heard_leader r m) in *. clearbody h. rewrite Hms in Hhm.
  repeat case_decide; injection Hr' as <-; (split; [done|]); eexists _, _;
    simpl; rewrite Hhm, Hht; split; try done.
Qed.

Lemma Step_append_reply r m :
  raft_wf r → msg_wf m → mType m = MsgAppendEntries → msgs r = [] →
  returns (Step r m) (fun r' =>
    raft_wf r' ∧ r_id r' = r_id r ∧ ∃ reject i,
      msgs r' = [append_reply r m (currentTerm r') reject i] ∧
      (reject = false → mTerm m = currentTerm r' ∧ state r' = Follower ∧
         leaderID r' = mFrom m ∧ i = N.of_nat (pred (length (log r'))))).
Proof.
  intros Hwf Hm Hty Hms. rewrite Step_eq by apply Hwf. unfold handle. rewrite Hty.
  pose proof (stepped_wf r m Hwf (proj1 Hm)) as Hwf'.
  pose proof (stepped_msgs r m) as Hsm. pose proof (stepped_id r m) as Hid.
  assert (mTerm m ≤ currentTerm (stepped r m))%N as Hle
    by (destruct (stepped_term r m) as [?|[_ [?|?]]]; [done|congruence..]).
  set (s := stepped r m) in *. clearbody s. rewrite Hms in Hsm.
  eapply returns_mono; [by apply handleAppendEntries_reply|].
  intros r' (Hw & Hi & rej & i & Hmsg & Hok). rewrite Hi, Hid.
  split_and!; [done|done|]. exists rej, i. split; [|done].
  rewrite Hmsg. unfold append_reply. by rewrite Hid.
Qed.

Lemma Step_vote_reply r m :
  raft_wf r → (mTerm m < two64)%N → mType m = MsgRequestVote → msgs r = [] →
  returns (Step r m) (fun r' =>
    raft_wf r' ∧ r_id r' = r_id r ∧ ∃ reject,
      msgs r' = [vote_reply r' m (mIsPreVote m) reject] ∧
      (reject = false → mIsPreVote m = false →
         currentTerm r' = mTerm m ∧ votedFor r' = mFrom m) ∧
      log r' = log r ∧ lastApplied r' = lastApplied r).
Proof.
  intros Hwf Hm Hty Hms. rewrite Step_eq by apply Hwf. unfold handle. rewrite Hty.
  pose proof (stepped_wf r m Hwf Hm) as Hwf'.
  pose proof (stepped_msgs r m) as Hsm. pose proof (stepped_id r m) as Hid.
  pose proof (stepped_log r m) as Hsl.
  assert (mIsPreVote m = false → mTerm m ≤ currentTerm (stepped r m))%N as Hle
    by (destruct (stepped_term r m) as [?|[? _]]; congruence || done).
  assert (lastApplied (stepped r m) = lastApplied r) as Hla
    by (unfold stepped; by destruct (raises_term r m)).
  set (s := stepped r m) in *. clearbody s. rewrite Hms in Hsm.
  destruct (handleRequestVote_returns s m Hwf') as (r' & Hr' & Hw).
  exists r'. split; [done|]. split; [done|].
  rewrite handleRequestVote_eq in Hr' by apply Hwf'.
  repeat case_match; simplify_eq; simpl; rewrite ?Hsm; (split; [done|]);
    eexists; (split; [done|]); split_and!; try done; lia || naive_solver lia.
Qed.

(** ** The helpers around a transition of the state machine *)

(** Nothing but the state machine, the store and the counters changed. *)
Record same_service (n n' : Node) : Prop := {
  ss_fsm : n_fsm n' = n_fsm n;
  ss_cfg : n_cfg n' = n_cfg n;
  ss_proposals : n_proposals n' = n_proposals n;
  ss_addrs : n_peerAddrs n' = n_peerAddrs n;
  ss_chans : n_chans n' = n_chans n
}.

Lemma same_service_chans n n' : same_service n n' → chans_ok n → chans_ok n'.
Proof. intros [_ _ Hp _ Hc] [Ho Hi]. by split; rewrite Hp, ?Hc. Qed.

(** The RPCs started for a list of outbound messages. *)
Definition routed (ms : list Message) : list Message := concat (routeMessage <$> ms).

Lemma dispatch_loop_eq ms n out :
  let '(n', out') := dispatch_loop ms n out in
  same_service n n' ∧ n_raft n' = n_raft n ∧ n_store n' = n_store n ∧
  out' = out ++ routed ms.
Proof.
  revert n out. induction ms as [|m ms IH]; intros n out; cbn [dispatch_loop].
  - split_and!; [by split|done|done|]. unfold routed. by rewrite app_nil_r.
  - specialize (IH (n <| n_metrics := (n_metrics n)
                <| MessagesSent := MessagesSent (n_metrics n) +u 1 |> |>)
                (out ++ routeMessage m)).
    destruct (dispatch_loop ms _ _) as [n' out'].
    destruct IH as ([] & Hr & Hs & ->). split_and!; [by split|done|done|].
    unfold routed. rewrite fmap_cons. cbn [concat]. by rewrite app_assoc.
Qed.

Definition saved (n : Node) : DB :=
  (SaveState (n_store n) (currentTerm (n_raft n)) (votedFor (n_raft n))).1.

(** The common end of the critical sections. *)
Lemma finish_eq n :
  let '(n', out) := dispatchMessages (persistState n) in
  same_service n (updateMetrics n') ∧ n_raft (updateMetrics n') = drain (n_raft n) ∧
  n_store (updateMetrics n') = saved n ∧ out = routed (msgs (n_raft n)).
Proof.
  unfold dispatchMessages. cbn [Messages].
  pose proof (dispatch_loop_eq (msgs (n_raft (persistState n)))
    ((persistState n) <| n_raft := drain (n_raft n) |>) []) as H.
  change ((n_raft (persistState n)) <| msgs := [] |>) with (drain (n_raft n)).
  destruct (dispatch_loop _ _ _) as [n' out]. destruct H as ([] & Hr & Hs & ->).
  split_and!; [by split|done|done|done].
Qed.

Lemma applicable_same r es r' :
  log_wf (log r) → ApplicableEntries r = Some (es, r') →
  (es = [] ∧ r' = r) ∨ ∃ a, r' = r <| lastApplied := a |>.
Proof.
  intros Hwf. rewrite ApplicableEntries_eq by done. case_decide; intros [= <- <-]; [by left|].
  right. by eexists.
Qed.

(** [applyCommitted] leaves everything but [lastApplied] of the state machine. *)
Definition applied_raft (r r' : Raft) : Prop := r' = r ∨ ∃ a, r' = r <| lastApplied := a |>.

Lemma applied_raft_wf r r' : raft_wf r → applied_raft r r' → raft_wf r'.
Proof. intros Hwf [->|[a ->]]; [done|wf_same]. Qed.

Lemma applicable_drain r es r' :
  log_wf (log r) → ApplicableEntries r = Some (es, r') →
  ApplicableEntries (drain r) = Some (es, drain r').
Proof.
  intros Hwf. rewrite !ApplicableEntries_eq by done.
  change (apply_end (drain r)) with (apply_end r).
  change (lastApplied (drain r)) with (lastApplied r).
  case_decide; by intros [= <- <-].
Qed.

Lemma apply_step n r :
  raft_wf r → chans_ok n →
  returns (applyCommitted (n <| n_raft := r |>)) (fun n' =>
    ∃ es, ApplicableEntries r = Some (es, n_raft n') ∧
          ran_entries (n <| n_raft := n_raft n' |>) es n' ∧
          applied_raft r (n_raft n') ∧ raft_wf (n_raft n')).
Proof.
  intros Hwf Hok. eapply returns_mono.
  - apply applyCommitted_ran; [done|]. destruct Hok. by split.
  - intros n' (es & r' & Ha & Hran). pose proof (re_raft _ _ _ Hran) as Hr.
    change (n_raft (_ <| n_raft := r' |>)) with r' in Hr. subst r'. exists es.
    assert (applied_raft r (n_raft n')) as Har.
    { destruct (applicable_same r es _ (rw_log _ Hwf) Ha) as [[_ ->]|?]; [by left|by right]. }
    split_and!; [done| |done|by eapply applied_raft_wf].
    by destruct n.
Qed.
End spec.

(** ** No operation changes the identity of a node *)

Section identity.
Context {GR : GoRand}.

Lemma becomeCandidate_id r r' :
  raft_wf r → log_room r → becomeCandidate r = Some r' → r_id r' = r_id r.
Proof.
  intros Hwf Hroom. rewrite becomeCandidate_eq by (apply Hwf || done). cbv zeta.
  case_match; by intros [= <-].
Qed.

Lemma becomeLeader_id r r' :
  raft_wf r → log_room r → becomeLeader r = Some r' → r_id r' = r_id r.
Proof. intros Hwf Hroom. rewrite becomeLeader_eq by (apply Hwf || done). by intros [= <-]. Qed.

Lemma Tick_id r r' :
  raft_wf r → log_room r → Tick r = Some r' → r_id r' = r_id r.
Proof.
  intros Hwf Hroom. unfold Tick, tickElection, tickHeartbeat. cbv zeta.
  destruct (state r) eqn:Hst; case_decide; try (by intros [= <-]).
  1, 2: intros Hc%becomeCandidate_id; [done|wf_same; congruence|done].
  intros Hc. rewrite broadcastHeartbeat_eq in Hc by apply Hwf. by injection Hc as <-.
Qed.

Lemma handleRequestVoteResp_id r m r' :
  raft_wf r → log_room r → handleRequestVoteResp r m = Some r' → r_id r' = r_id r.
Proof.
  intros Hwf Hroom. unfold handleRequestVoteResp.
  destruct (decide (state r ≠ Candidate)) as [?|Hst]; [by intros [= <-]|].
  assert (is_Some (votes r)) as [vs Hvs].
  { apply Hwf. by destruct (decide (state r = Candidate)). }
  destruct (mIsPreVote m).
  - intros Hres. inv_seq. case_decide; [|by simplify_eq].
    apply becomeCandidate_id in Hres; [done|wf_same|done].
  - case_decide; [by intros [= <-]|]. intros Hres. inv_seq.
    apply map_write_Some in Hm as (kvs & _ & ->).
    destruct (quorum _); [|by simplify_eq].
    apply becomeLeader_id in Hres; [done| |done]. wf_same.
Qed.

Lemma handleAppendEntriesResp_id r m r' :
  handleAppendEntriesResp r m = Some r' → r_id r' = r_id r.
Proof.
  unfold handleAppendEntriesResp. intros Hres.
  assert (∀ k n s, r_id (maybeAdvanceCommit_loop k n s) = r_id s) as Hloop.
  { induction k as [|k IH]; intros n s; [done|]. cbn [maybeAdvanceCommit_loop].
    rewrite IH. by repeat case_decide. }
  assert (∀ s s', maybeAdvanceCommit s = Some s' → r_id s' = r_id s) as Hadv.
  { intros s s'. unfold maybeAdvanceCommit. intros Hs. inv_seq. simplify_eq. apply Hloop. }
  repeat case_decide; try (destruct (mReject m)); repeat case_decide; inv_seq; simplify_eq;
    try done; apply Hadv in Hres; rewrite Hres; try done;
    repeat case_decide; inv_seq; by simplify_eq.
Qed.

Lemma reply_step_id r m r' :
  raft_wf r → log_room r → (mTerm m < two64)%N →
  mType m = MsgRequestVoteResp ∨ mType m = MsgAppendEntriesResp →
  Step r m = Some r' → r_id r' = r_id r.
Proof.
  intros Hwf Hroom Hm Hty. rewrite Step_eq by apply Hwf. unfold handle.
  rewrite <- (stepped_id r m). pose proof (stepped_wf r m Hwf Hm).
  assert (log_room (stepped r m)) by (unfold log_room; by rewrite stepped_log).
  destruct Hty as [-> | ->]; [by apply handleRequestVoteResp_id|
    by apply handleAppendEntriesResp_id].
Qed.

Lemma Propose_id r d pr :
  raft_wf r → log_room r → Propose r d = Some pr → r_id pr.2 = r_id r.
Proof.
  intros Hwf Hroom. rewrite Propose_eq by (apply Hwf || done). by case_decide; intros [= <-].
Qed.
End identity.

(** ** The handlers *)

Section handlers.
Context {GR : GoRand} {CJ : CommandJson} {B : Badger} {EJ : EntryJson}.

(** The requests a peer can send. *)
Definition append_request_ok (req : AppendEntriesRequest) : Prop :=
  msg_wf (append_entries_message "" req).

Lemma append_request_msg req id :
  append_request_ok req → msg_wf (append_entries_message id req).
Proof. done. Qed.

Lemma append_entries_loop_reply r m t reject i :
  append_entries_loop (mFrom m) [append_reply r m t reject i] None [] =
  (Some (mkAppendEntriesResponse t (negb reject) i), []).
Proof. cbn [append_entries_loop]. by rewrite decide_True. Qed.

Lemma request_vote_loop_reply r m pre reject :
  request_vote_loop (mFrom m) [vote_reply r m pre reject] None [] =
  (Some (mkRequestVoteResponse (currentTerm r) (negb reject) pre), []).
Proof. cbn [request_vote_loop]. by rewrite decide_True. Qed.

Definition append_request (n : Node) (req : AppendEntriesRequest) : Message :=
  append_entries_message (ncID (n_cfg n)) req.

Definition vote_request (n : Node) (req : RequestVoteRequest) : Message :=
  request_vote_message (ncID (n_cfg n)) req.

(** The whole effect of a handler, for its theorem and for the refinement:
    one [Step], the entries it makes applicable, and one reply. *)
Lemma HandleAppendEntries_spec n req :
  node_wf n → append_request_ok req →
  returns (HandleAppendEntries n req) (fun '(n', out, answer) =>
    node_wf n' ∧ out = [] ∧ n_cfg n' = n_cfg n ∧ n_store n' = saved (n' <| n_store := n_store n |>) ∧
    ∃ r es reject i,
      Step (n_raft n) (append_request n req) = Some r ∧
      msgs r = [append_reply (n_raft n) (append_request n req) (currentTerm r) reject i] ∧
      ApplicableEntries (drain r) = Some (es, n_raft n') ∧
      n_fsm n' = replay (n_fsm n) es ∧
      answer = inr (mkAppendEntriesResponse (currentTerm r) (negb reject) i) ∧
      currentTerm (n_raft n') = currentTerm r ∧
      (reject = false → aeTerm req = currentTerm r ∧ state (n_raft n') = Follower ∧
         leaderID (n_raft n') = aeLeaderID req ∧
         i = N.of_nat (pred (length (log (n_raft n')))))).
Proof.
  intros [Hwf Hms Hid Hch] Hreq. unfold HandleAppendEntries. cbv zeta.
  fold (append_request n req).
  destruct (Step_append_reply (n_raft n) (append_request n req) Hwf Hreq eq_refl Hms)
    as (r & Hr & Hwfr & Hrid & reject & i & Hmsg & Hacc).
  rewrite Hr. cbn [seq_bind].
  destruct (apply_step n r Hwfr Hch) as (n1 & Hn1 & es & Ha & Hran & Har & Hwf1).
  rewrite Hn1. cbn [seq_bind Messages].
  change (n_raft (persistState n1)) with (n_raft n1).
  assert (msgs (n_raft n1) = msgs r ∧ currentTerm (n_raft n1) = currentTerm r ∧
    votedFor (n_raft n1) = votedFor r ∧ r_id (n_raft n1) = r_id r ∧ log (n_raft n1) = log r ∧
    state (n_raft n1) = state r ∧ leaderID (n_raft n1) = leaderID r)
    as (Hm1 & Ht1 & Hv1 & Hi1 & Hl1 & Hs1 & Hd1) by (by destruct Har as [->|[a ->]]).
  rewrite Hm1, Hmsg, append_entries_loop_reply. apply returns_Some.
  destruct Hran as [_ Hst Hcfg _ Hfsm _ _ _ _ Hco]. simpl in Hst, Hcfg, Hfsm.
  split_and!; try done.
  - split; simpl; [by apply drain_wf|done|congruence|]. by destruct Hco.
  - unfold saved. simpl. by rewrite Hst.
  - exists r, es, reject, i. apply applicable_drain in Ha; [|apply Hwfr].
    split_and!; try done; simpl.
    intros Hrej. destruct (Hacc Hrej) as (Hterm & Hfol & Hlead & Hidx).
    rewrite Hs1, Hd1, Hl1. by split_and!.
Qed.

Lemma HandleRequestVote_spec n req :
  node_wf n → (rvTerm req < two64)%N →
  returns (HandleRequestVote n req) (fun '(n', out, answer) =>
    node_wf n' ∧ out = [] ∧ same_service n n' ∧
    n_store n' = saved (n' <| n_store := n_store n |>) ∧
    ∃ r reject,
      Step (n_raft n) (vote_request n req) = Some r ∧
      msgs r = [vote_reply r (vote_request n req) (rvIsPreVote req) reject] ∧
      n_raft n' = drain r ∧
      answer = inr (mkRequestVoteResponse (currentTerm r) (negb reject) (rvIsPreVote req)) ∧
      (reject = false → rvIsPreVote req = false →
         currentTerm r = rvTerm req ∧ votedFor r = rvCandidateID req)).
Proof.
  intros [Hwf Hms Hid Hch] Hreq. unfold HandleRequestVote. cbv zeta.
  fold (vote_request n req).
  destruct (Step_vote_reply (n_raft n) (vote_request n req) Hwf Hreq eq_refl Hms)
    as (r & Hr & Hwfr & Hrid & reject & Hmsg & Hgrant & _ & _).
  rewrite Hr. cbn [seq_bind Messages].
  change (n_raft (persistState (n <| n_raft := r |>))) with r.
  rewrite Hmsg, request_vote_loop_reply. apply returns_Some.
  split_and!; try done.
  - split; simpl; [by apply drain_wf|done|congruence|]. by destruct Hch.
  - by exists r, reject.
Qed.

(** The end of the handlers that apply committed entries. *)
Definition apply_and_finish (n : Node) (r : Raft) : option (Node * list Message) :=
  n <- applyCommitted (n <| n_raft := r |>);;
  let '(n, out) := dispatchMessages (persistState n) in
  Some (updateMetrics n, out).

(** The node [n'] is [n] after its state machine went to [r], started the
    RPCs [out] and applied what became applicable. *)
Definition moved (n : Node) (r : Raft) (n' : Node) (out : list Message) : Prop :=
  node_wf n' ∧ n_cfg n' = n_cfg n ∧ n_store n' = saved (n' <| n_store := n_store n |>) ∧
  out = routed (msgs r) ∧
  ∃ es, (ApplicableEntries (drain r) = Some (es, n_raft n') ∨
         (es = [] ∧ n_raft n' = drain r)) ∧
        n_fsm n' = replay (n_fsm n) es.

Lemma apply_and_finish_spec n r :
  raft_wf r → r_id r = ncID (n_cfg n) → chans_ok n →
  returns (apply_and_finish n r) (fun '(n', out) => moved n r n' out).
Proof.
  intros Hwf Hid Hch. unfold apply_and_finish.
  destruct (apply_step n r Hwf Hch) as (n1 & Hn1 & es & Ha & Hran & Har & Hwf1).
  rewrite Hn1. cbn [seq_bind].
  pose proof (finish_eq n1) as Hfin.
  destruct (dispatchMessages (persistState n1)) as [n2 out]. apply returns_Some.
  destruct Hfin as (Hss & Hr2 & Hs2 & ->). set (n3 := updateMetrics n2) in *. clearbody n3.
  assert (msgs (n_raft n1) = msgs r ∧ r_id (n_raft n1) = r_id r) as [Hm1 Hi1]
    by (by destruct Har as [->|[a ->]]).
  destruct Hran as [_ Hst Hcfg _ Hfsm _ _ _ _ Hco]. simpl in Hst, Hcfg, Hfsm.
  pose proof Hss as [Hssf Hssc _ _ _]. split_and!.
  - split; [rewrite Hr2; by apply drain_wf|by rewrite Hr2| |by eapply same_service_chans].
    rewrite Hr2, Hssc. simpl. congruence.
  - congruence.
  - rewrite Hs2. unfold saved. simpl. by rewrite Hr2, Hst.
  - by rewrite Hm1.
  - exists es. split; [left|congruence]. rewrite Hr2. apply applicable_drain; [apply Hwf|done].
Qed.

(** The end of the handlers that do not. *)
Lemma finish_spec n r :
  raft_wf r → r_id r = ncID (n_cfg n) → chans_ok n →
  let '(n', out) := dispatchMessages (persistState (n <| n_raft := r |>)) in
  moved n r (updateMetrics n') out.
Proof.
  intros Hwf Hid Hch. pose proof (finish_eq (n <| n_raft := r |>)) as Hfin.
  destruct (dispatchMessages _) as [n2 out].
  destruct Hfin as (Hss & Hr2 & Hs2 & ->).
  set (n3 := updateMetrics n2) in *. clearbody n3. simpl in Hr2.
  pose proof Hss as [Hssf Hssc _ _ _]. simpl in Hssf, Hssc. split_and!.
  - split; [rewrite Hr2; by apply drain_wf|by rewrite Hr2|by rewrite Hr2, Hssc|].
    eapply same_service_chans; [done|]. destruct Hch. by split.
  - done.
  - rewrite Hs2. unfold saved. simpl. by rewrite Hr2.
  - done.
  - exists []. split; [by right|done].
Qed.

Lemma onTick_spec n :
  node_wf n → log_room (n_raft n) →
  ∃ r, Tick (n_raft n) = Some r ∧
       returns (onTick n) (fun '(n', out) => moved n r n' out).
Proof.
  intros [Hwf Hms Hid Hch] Hroom.
  destruct (Tick_returns _ Hwf Hroom) as (r & Hr & Hwfr).
  pose proof (Tick_id _ _ Hwf Hroom Hr) as Hrid.
  exists r. split; [done|].
  assert (onTick n = apply_and_finish n r) as -> by (unfold onTick; by rewrite Hr).
  apply apply_and_finish_spec; [done|congruence|done].
Qed.

Lemma sendAppendEntries_done_spec n msg resp :
  node_wf n → log_room (n_raft n) → (aerTerm resp < two64)%N →
  ∃ r, Step (n_raft n) (append_entries_reply msg resp) = Some r ∧
       returns (sendAppendEntries_done n msg (Some resp)) (fun '(n', out) => moved n r n' out).
Proof.
  intros [Hwf Hms Hid Hch] Hroom Ht.
  assert (msg_wf (append_entries_reply msg resp)) as Hm by (split; [done|by intros Hty; simpl in Hty]).
  destruct (Step_returns _ _ Hwf Hroom Hm) as (r & Hr & Hwfr).
  assert (r_id r = r_id (n_raft n)) as Hrid by (by eapply (reply_step_id _ (append_entries_reply msg resp)); auto).
  exists r. split; [done|].
  assert (sendAppendEntries_done n msg (Some resp) = apply_and_finish n r) as ->
    by (unfold sendAppendEntries_done; by rewrite Hr).
  apply apply_and_finish_spec; [done|congruence|done].
Qed.

Lemma sendRequestVote_done_spec n msg resp :
  node_wf n → log_room (n_raft n) → (rvrTerm resp < two64)%N →
  ∃ r, Step (n_raft n) (request_vote_reply msg resp) = Some r ∧
       returns (sendRequestVote_done n msg (Some resp)) (fun '(n', out) => moved n r n' out).
Proof.
  intros [Hwf Hms Hid Hch] Hroom Ht.
  assert (msg_wf (request_vote_reply msg resp)) as Hm by (split; [done|by intros Hty; simpl in Hty]).
  destruct (Step_returns _ _ Hwf Hroom Hm) as (r & Hr & Hwfr).
  assert (r_id r = r_id (n_raft n)) as Hrid by (by eapply (reply_step_id _ (request_vote_reply msg resp)); auto).
  exists r. split; [done|]. unfold sendRequestVote_done. rewrite Hr. cbn [seq_bind].
  pose proof (finish_spec n r Hwfr ltac:(congruence) Hch) as Hfin.
  destruct (dispatchMessages _) as [n' out]. by apply returns_Some.
Qed.

Lemma routed_heartbeats r (ps : list string) :
  routed (heartbeat_to r <$> ps) = heartbeat_to r <$> ps.
Proof.
  unfold routed. induction ps as [|p ps IH]; [done|]. rewrite !fmap_cons. cbn [concat].
  by rewrite IH.
Qed.

(** [HandlePropose] on a leader. *)
Lemma HandlePropose_leader n req (r' := proposed (n_raft n) (pqData req)) :
  node_wf n → log_room (n_raft n) → state (n_raft n) = Leader →
  returns (HandlePropose n req) (fun '(n', out, outcome) =>
    node_wf n' ∧ n_raft n' = r' ∧ n_fsm n' = n_fsm n ∧ n_cfg n' = n_cfg n ∧
    n_store n' = saved (n' <| n_store := n_store n |>) ∧
    outcome = Wait (length (n_chans n)) ∧
    n_proposals n' = <[N.of_nat (length (log (n_raft n))) := length (n_chans n)]> (n_proposals n) ∧
    n_chans n' = n_chans n ++ [false] ∧
    out = heartbeat_to r' <$> peers (n_raft n)).
Proof.
  intros [Hwf Hms Hid [Hopen Hinj]] Hroom Hst. unfold HandlePropose. cbv zeta.
  rewrite decide_False by (simpl; tauto).
  destruct (Propose_returns (n_raft n) (pqData req) Hwf Hroom) as (pr & Hpr & Hwf').
  rewrite Propose_eq, decide_False in Hpr by (tauto || apply Hwf || done).
  injection Hpr as <-. simpl in Hwf'. fold r' in Hwf'.
  rewrite Propose_eq, decide_False by (tauto || apply Hwf || done). fold r'.
  cbn [seq_bind fst snd].
  match goal with |- context [dispatchMessages (persistState ?x)] =>
    pose proof (finish_eq x) as Hfin; destruct (dispatchMessages _) as [n2 out] end.
  apply returns_Some. destruct Hfin as ([Hf Hc Hp _ Hch] & Hr2 & Hs2 & ->).
  set (n3 := updateMetrics n2) in *. clearbody n3.
  simpl in Hf, Hc, Hp, Hch, Hr2.
  assert (msgs r' = []) as Hmr by done.
  rewrite drain_with_msgs in Hr2 by done.
  assert (raft_wf r') as Hwfr by (apply drain_wf in Hwf'; by rewrite drain_with_msgs in Hwf').
  split_and!; try done.
  - split; [by rewrite Hr2|by rewrite Hr2|rewrite Hr2, Hc; done|]. split; rewrite Hp, ?Hch.
    + intros i ch [[<- <-]|[Hne Hi]]%lookup_insert_Some.
      * by rewrite lookup_app_r, Nat.sub_diag by lia.
      * rewrite lookup_app_l; [by eauto|]. by eapply lookup_lt_Some, Hopen.
    + assert (∀ i ch, n_proposals n !! i = Some ch → ch ≠ length (n_chans n)) as Hfresh.
      { intros i ch Hi ->. apply Hopen, lookup_lt_Some in Hi. lia. }
      intros i j ch [[<- <-]|[? Hi]]%lookup_insert_Some [[<- Hj]|[? Hj]]%lookup_insert_Some;
        subst; eauto; exfalso; by eapply Hfresh.
  - rewrite Hs2. unfold saved. simpl. by rewrite Hr2.
  - match goal with |- routed (msgs (n_raft ?x)) = _ =>
      change (n_raft x) with (with_msgs r' (heartbeat_to r' <$> peers (n_raft n))) end.
    by rewrite msgs_with_msgs, routed_heartbeats.
Qed.

Lemma HandlePropose_redirect n req :
  state (n_raft n) ≠ Leader →
  ∃ n', HandlePropose n req = Some (n', [], Answer
      (mkProposeResponse false (resolvePeerAddr n (leaderID (n_raft n))) "not leader")) ∧
    same_service n n' ∧ n_raft n' = n_raft n ∧ n_store n' = n_store n.
Proof.
  intros Hst. unfold HandlePropose. cbv zeta. rewrite decide_True by done.
  eexists. split; [done|]. by split_and!.
Qed.
End handlers.

(** ** Events of a node *)

Section events.
Context {GR : GoRand} {CJ : CommandJson} {B : Badger} {EJ : EntryJson}.

(** The critical sections a node may run next. *)
Inductive NodeEvent :=
  | NvTick
  | NvAppendEntries (req : AppendEntriesRequest)
  | NvRequestVote (req : RequestVoteRequest)
  | NvAppendReply (msg : Message) (result : option AppendEntriesResponse)
  | NvVoteReply (msg : Message) (result : option RequestVoteResponse)
  | NvPropose (req : ProposeRequest)
  | NvRead (req : ReadRequest)
  | NvDiscovery (event : DiscoveryEvent).

Definition node_exec (n : Node) (e : NodeEvent) : option Node :=
  match e with
  | NvTick => x <- onTick n;; Some x.1
  | NvAppendEntries req => x <- HandleAppendEntries n req;; Some x.1.1
  | NvRequestVote req => x <- HandleRequestVote n req;; Some x.1.1
  | NvAppendReply msg result => x <- sendAppendEntries_done n msg result;; Some x.1
  | NvVoteReply msg result => x <- sendRequestVote_done n msg result;; Some x.1
  | NvPropose req => x <- HandlePropose n req;; Some x.1.1
  | NvRead req => Some (HandleRead n req).1
  | NvDiscovery event => Some (handleDiscoveryEvent n event).1
  end.

(** What the other side can send: 64-bit terms, consecutive entries. *)
Definition event_ok (e : NodeEvent) : Prop :=
  match e with
  | NvAppendEntries req => append_request_ok req
  | NvRequestVote req => (rvTerm req < two64)%N
  | NvAppendReply _ (Some resp) => (aerTerm resp < two64)%N
  | NvVoteReply _ (Some resp) => (rvrTerm resp < two64)%N
  | _ => True
  end.

(** What a critical section leaves behind: the invariant, and the hard state
    saved unless it did not change. *)
Definition kept (n n' : Node) : Prop :=
  node_wf n' ∧ n_cfg n' = n_cfg n ∧
  (n_store n' = saved (n' <| n_store := n_store n |>) ∨
   (n_store n' = n_store n ∧ currentTerm (n_raft n') = currentTerm (n_raft n) ∧
    votedFor (n_raft n') = votedFor (n_raft n))).

Lemma kept_same n n' :
  node_wf n → same_service n n' → n_raft n' = n_raft n → n_store n' = n_store n → kept n n'.
Proof.
  intros [Hwf Hms Hid Hch] Hss Hr Hs. split_and!; [|by apply Hss|right; by rewrite Hr].
  split; rewrite ?Hr; try done; [by rewrite (ss_cfg _ _ Hss)|by eapply same_service_chans].
Qed.

Lemma moved_kept n r n' out : moved n r n' out → kept n n'.
Proof. intros (Hw & Hc & Hs & _). split_and!; [done|done|by left]. Qed.

Lemma returns_out {A C} (m : option (A * C)) (P : A → C → Prop) (Q : A → Prop) :
  returns m (fun '(a, c) => P a c) → (∀ a c, P a c → Q a) →
  returns (x <- m;; Some x.1) Q.
Proof. intros ([a c] & -> & H) HQ. eexists. split; [done|]. by eapply HQ. Qed.

Lemma node_exec_kept n e :
  node_wf n → log_room (n_raft n) → event_ok e → returns (node_exec n e) (kept n).
Proof.
  intros Hn Hroom He. pose proof Hn as [Hwf Hms Hid Hch].
  destruct e as [|req|req|msg [resp|]|msg [resp|]|req|req|ev]; cbn [node_exec event_ok] in *.
  - destruct (onTick_spec n Hn Hroom) as (r & _ & Ht).
    eapply returns_out; [exact Ht|]. intros. by eapply moved_kept.
  - eapply returns_bind; [by apply HandleAppendEntries_spec|].
    intros [[n' out] ans] (Hw & _ & Hc & Hs & _). apply returns_Some. split_and!; auto.
  - eapply returns_bind; [by apply HandleRequestVote_spec|].
    intros [[n' out] ans] (Hw & _ & Hss & Hs & _). apply returns_Some.
    split_and!; [done|by apply Hss|by left].
  - destruct (sendAppendEntries_done_spec n msg resp Hn Hroom He) as (r & _ & Ht).
    eapply returns_out; [exact Ht|]. intros. by eapply moved_kept.
  - apply returns_Some. by apply kept_same.
  - destruct (sendRequestVote_done_spec n msg resp Hn Hroom He) as (r & _ & Ht).
    eapply returns_out; [exact Ht|]. intros. by eapply moved_kept.
  - apply returns_Some. by apply kept_same.
  - destruct (decide (state (n_raft n) = Leader)) as [Hl|Hl].
    + eapply returns_bind; [by apply HandlePropose_leader|].
      intros [[n' out] ans] (Hw & _ & _ & Hc & Hs & _). apply returns_Some. split_and!; auto.
    + destruct (HandlePropose_redirect n req Hl) as (n' & -> & Hss & Hr & Hs).
      apply returns_Some. by apply kept_same.
  - apply returns_Some. unfold HandleRead. cbv zeta.
    repeat case_match; by apply kept_same.
  - apply returns_Some. destruct ev as [[] id addr]; [|by apply kept_same..].
    unfold handleDiscoveryEvent. cbn [evType evNodeID evRaftAddr]. cbv zeta.
    match goal with |- context [dispatchMessages (persistState ?x)] =>
      pose proof (finish_eq x) as Hfin; destruct (dispatchMessages _) as [n2 out] end.
    destruct Hfin as (Hss & Hr2 & Hs2 & _).
    assert (n_raft n2 = drain (AddPeer (n_raft n) id)) as Hr3 by done.
    assert (msgs (AddPeer (n_raft n) id) = [] ∧ r_id (AddPeer (n_raft n) id) = r_id (n_raft n))
      as [Hm Hi] by (unfold AddPeer; by repeat case_decide).
    assert (n_cfg n2 = n_cfg n ∧ n_store n2 = saved (n <| n_raft := n_raft n2 |>)) as [Hc2 Hs3]
      by (split; [by apply Hss|rewrite Hr3; exact Hs2]).
    cbn [fst]. split_and!.
    + split; rewrite ?Hr3; [by apply drain_wf, AddPeer_wf|done|simpl; congruence|].
      destruct Hss as [_ _ Hp _ Hc]. simpl in Hp, Hc. destruct Hch.
      split; rewrite Hp, ?Hc; done.
    + done.
    + by left.
Qed.
End events.

(** ** Theorems *)

Section theorems.
Context {GR : GoRand} {CJ : CommandJson} {B : Badger} {EJ : EntryJson}.

(** C26: every AppendEntries request with a 64-bit term and consecutive entry
    indices is answered. The handler never reports a missing response and starts
    no RPC; it tries to save the hard state before it replies (a failure is not
    reported); the reply carries the node's term; a successful reply comes from a
    follower of the sender in the request's term and names the last index of its
    log. *)
Theorem append_entries_answered n req :
  node_wf n → append_request_ok req →
  returns (HandleAppendEntries n req) (fun '(n', out, answer) =>
    node_wf n' ∧ out = [] ∧
    n_store n' = (SaveState (n_store n) (currentTerm (n_raft n')) (votedFor (n_raft n'))).1 ∧
    ∃ resp, answer = inr resp ∧ aerTerm resp = currentTerm (n_raft n') ∧
      (aerSuccess resp = true →
         aeTerm req = currentTerm (n_raft n') ∧ state (n_raft n') = Follower ∧
         leaderID (n_raft n') = aeLeaderID req ∧
         aerLastLogIndex resp = N.of_nat (pred (length (log (n_raft n')))))).
Proof.
  intros Hn Hreq. eapply returns_mono; [by apply HandleAppendEntries_spec|].
  intros [[n' out] answer] (Hw & -> & _ & Hs & r & es & rej & i & _ & _ & _ & _ & -> & Ht & Hacc).
  split_and!; [done|done|by rewrite Hs|]. eexists. split; [done|]. simpl.
  split; [done|]. rewrite Ht. intros Hrej%negb_true_iff. by apply Hacc.
Qed.

(** C27: every RequestVote request with a 64-bit term is answered, and a vote is
    on disk before it is told, if the database takes it. A vote is granted only to
    the candidate of the request and in its term; when saving succeeded, the term
    and the vote can be loaded back.  When it failed the vote is granted all the
    same ([NodeRuns.FullDisk.votes_twice_after_failed_save]). *)
Theorem vote_answered_and_persisted n req :
  node_wf n → (rvTerm req < two64)%N → reads_ok →
  returns (HandleRequestVote n req) (fun '(n', out, answer) =>
    node_wf n' ∧ out = [] ∧
    ∃ resp, answer = inr resp ∧ rvrTerm resp = currentTerm (n_raft n') ∧
      rvrIsPreVote resp = rvIsPreVote req ∧
      (rvrVoteGranted resp = true → rvIsPreVote req = false →
         currentTerm (n_raft n') = rvTerm req ∧
         votedFor (n_raft n') = rvCandidateID req ∧
         ((SaveState (n_store n) (rvTerm req) (rvCandidateID req)).2 = None →
          LoadState (n_store n') = (rvTerm req, rvCandidateID req, None)))).
Proof.
  intros Hn Hreq Hreads. eapply returns_mono; [by apply HandleRequestVote_spec|].
  intros [[n' out] answer] (Hw & -> & _ & Hs & r & rej & _ & _ & Hr & -> & Hgrant).
  split_and!; [done|done|]. eexists. split; [done|]. rewrite Hr. simpl.
  split_and!; [done|done|]. intros Hrej%negb_true_iff Hpre.
  destruct (Hgrant Hrej Hpre) as [Ht Hv]. split_and!; [done|done|]. intros Hsave.
  rewrite Hs. unfold saved. simpl. rewrite Hr. simpl. rewrite Ht, Hv.
  by apply LoadState_saved.
Qed.

(** C28: what a proposal does. Away from the leader it changes nothing but a
    counter and points the client to the leader's address. On the leader it
    appends the command at the next index in the current term, starts one
    AppendEntries RPC per peer, and waits on a fresh channel, registered for
    that index and not yet closed. *)
Theorem propose_outcome n req :
  node_wf n → log_room (n_raft n) →
  returns (HandlePropose n req) (fun '(n', out, outcome) =>
    n_fsm n' = n_fsm n ∧
    (state (n_raft n) ≠ Leader →
       n_raft n' = n_raft n ∧ n_store n' = n_store n ∧ n_proposals n' = n_proposals n ∧
       out = [] ∧ outcome = Answer (mkProposeResponse false
                   (resolvePeerAddr n (leaderID (n_raft n))) "not leader")) ∧
    (state (n_raft n) = Leader →
       ∃ ch, let idx := N.of_nat (length (log (n_raft n))) in
       outcome = Wait ch ∧
       log (n_raft n') = log (n_raft n) ++
         [mkLogEntry idx (currentTerm (n_raft n)) (pqData req) EntryCommand] ∧
       n_proposals n' = <[idx := ch]> (n_proposals n) ∧
       await (E := unit) (n_chans n') ch DoneClosed = None ∧
       (∀ j c, n_proposals n !! j = Some c → c ≠ ch) ∧
       mTo <$> out = peers (n_raft n) ∧ Forall (fun m => mType m = MsgAppendEntries) out)).
Proof.
  intros Hn Hroom. destruct (decide (state (n_raft n) = Leader)) as [Hl|Hl].
  - eapply returns_mono; [by apply HandlePropose_leader|].
    intros [[n' out] oc] (Hw & Hr & Hf & Hc & _ & -> & Hp & Hch & ->).
    split_and!; [done|done|]. intros _. exists (length (n_chans n)). cbv zeta.
    split_and!; [done|by rewrite Hr|done| | | |].
    + unfold await. by rewrite Hch, lookup_app_r, Nat.sub_diag by lia.
    + intros j c Hj ->. apply (co_open _ (nw_chans _ Hn)), lookup_lt_Some in Hj. lia.
    + rewrite <- list_fmap_compose. apply list_fmap_id.
    + apply Forall_fmap, Forall_true. done.
  - destruct (HandlePropose_redirect n req Hl) as (n' & -> & Hss & Hr & Hs).
    apply returns_Some. split_and!; [by apply Hss| |done]. intros _.
    split_and!; try done. by apply Hss.
Qed.

(** What a read does. Only a leader whose last heartbeat round was
    acknowledged by a quorum reads its store, and then answers with the
    value bound to the key; any other leader refuses, any other node
    redirects; no read changes anything but a counter. *)
Theorem read_outcome n req :
  let '(n', outcome) := HandleRead n req in
  n_raft n' = n_raft n ∧ n_fsm n' = n_fsm n ∧ n_store n' = n_store n ∧
  (∀ key, outcome = ReadValue key →
     key = rqKey req ∧ state (n_raft n) = Leader ∧
     (quorumSize (n_raft n) ≤ heartbeatAcked (n_raft n))%Z ∧
     ∀ m, rrFound (read_value m key) = bool_decide (is_Some (store_of (n_fsm m) key)) ∧
          rrValue (read_value m key) = default "" (store_of (n_fsm m) key)) ∧
  (∀ resp, outcome = ReadAnswer resp →
     rrFound resp = false ∧ rrValue resp = "" ∧
     (rrLeaderAddr resp ≠ "" → state (n_raft n) ≠ Leader ∧
        rrLeaderAddr resp = resolvePeerAddr n (leaderID (n_raft n)))).
Proof.
  unfold HandleRead. cbv zeta.
  change (n_raft (n <| n_metrics := _ |>)) with (n_raft n).
  destruct (decide (state (n_raft n) ≠ Leader)) as [Hst|Hst].
  - split_and!; try done. by intros resp [= <-].
  - assert (state (n_raft n) = Leader) as Hl by (by destruct (decide (state (n_raft n) = Leader))).
    destruct (HasLeaderQuorum (n_raft n)) eqn:Hq; simpl; split_and!; try done.
    + intros key [= <-]. apply andb_true_iff in Hq as [_ Hq%bool_decide_eq_true].
      split_and!; [done|done|done|]. intros m. unfold read_value. by rewrite Get_store.
    + by intros resp [= <-].
Qed.

(** A leader with a lease answers from its store. *)
Lemma read_answer_served n key :
  HasLeaderQuorum (n_raft n) = true → read_answer n (mkReadRequest key) = read_value n key.
Proof.
  intros Hq. assert (state (n_raft n) = Leader) as Hl.
  { unfold HasLeaderQuorum in Hq. apply andb_true_iff in Hq as [Hl _].
    by apply bool_decide_eq_true_1 in Hl. }
  unfold read_answer, HandleRead. cbn [n_raft modify]. simpl.
  by rewrite Hl, Hq.
Qed.

(** C29: what applying does. The store becomes the replay of exactly the
    entries handed out, in order; a waiting proposal is answered with
    success if and only if the index it is registered for is among them;
    channels are closed at most once (no panic); the applied index is that
    of the last entry. *)
Theorem apply_committed_effect n :
  raft_wf (n_raft n) → chans_ok n →
  returns (applyCommitted n) (fun n' =>
    ∃ es, ApplicableEntries (n_raft n) = Some (es, n_raft n') ∧
      n_fsm n' = replay (n_fsm n) es ∧ n_store n' = n_store n ∧
      AppliedIndex (n_metrics n') = default (AppliedIndex (n_metrics n)) (eIndex <$> last es) ∧
      ∀ i ch, n_proposals n !! i = Some ch →
        (is_Some (await (E := unit) (n_chans n') ch DoneClosed) ↔ i ∈ eIndex <$> es) ∧
        (n_proposals n' !! i = None ↔ i ∈ eIndex <$> es)).
Proof.
  intros Hwf Hok. eapply returns_mono; [by apply applyCommitted_ran|].
  intros n' (es & r & Ha & [Hr Hs _ _ Hf Hp Hcl Hk Hm _]). simpl in Hr, Hs, Hf, Hp, Hcl, Hk, Hm.
  exists es. rewrite Hr, Hm. split_and!; try done. intros i ch Hi. rewrite Hp.
  unfold await. destruct (decide (i ∈ eIndex <$> es)) as [Hin|Hin].
  - rewrite (Hcl i ch Hi Hin). split; split; done.
  - rewrite Hi, Hk, (co_open _ Hok _ _ Hi).
    + split; split; try done; by intros [? [=]].
    + intros j Hj Hjc. apply Hin. by rewrite <- (co_inj _ Hok _ _ _ Hjc Hi).
Qed.

(** Saving the hard state never fails. *)
Definition saves_ok : Prop := ∀ db t v, (SaveState db t v).2 = None.

(** The store holds the hard state of the node and no log entry. *)
Definition synced (n : Node) : Prop :=
  term_of (db_view (n_store n)) = currentTerm (n_raft n) ∧
  vote_of (db_view (n_store n)) = votedFor (n_raft n) ∧
  log_empty (db_view (n_store n)).

Definition node_step (n n' : Node) : Prop :=
  log_room (n_raft n) ∧ ∃ e, event_ok e ∧ node_exec n e = Some n'.

Lemma kept_synced n n' : saves_ok → synced n → kept n n' → synced n'.
Proof.
  intros Hsave (Ht & Hv & Hl) (Hw & _ & [Hs|(Hs & Htt & Hvv)]); unfold synced; rewrite Hs;
    [|split_and!; congruence || done].
  unfold saved. simpl. by apply SaveState_holds; [apply Hw|apply Hsave|].
Qed.

Lemma node_steps_kept n n' :
  saves_ok → node_wf n → synced n → rtc node_step n n' →
  node_wf n' ∧ synced n' ∧ n_cfg n' = n_cfg n.
Proof.
  intros Hsave Hn Hsy. induction 1 as [n|n n1 n2 [Hroom (e & He & Hex)] _ IH]; [done|].
  destruct (node_exec_kept n e Hn Hroom He) as (x & Hx & Hk).
  rewrite Hex in Hx. injection Hx as <-. pose proof Hk as (Hw & Hc & _).
  rewrite <- Hc. apply IH; [done|by eapply kept_synced].
Qed.

Lemma node_steps_wf n n' : node_wf n → rtc node_step n n' → node_wf n'.
Proof.
  intros Hn. induction 1 as [n|n n1 n2 [Hroom (e & He & Hex)] _ IH]; [done|]. apply IH.
  destruct (node_exec_kept n e Hn Hroom He) as (x & Hx & Hw & _). rewrite Hex in Hx. by injection Hx as <-.
Qed.

(** C30: no handler panics. In any state a node can reach from a well-formed
    one, whether or not its database takes what it writes, every critical section it may enter returns, for any request or
    reply with 64-bit terms and consecutive entry indices ([event_ok]): no slice
    or map panic in the state machine, no channel closed twice. *)
Theorem handlers_never_panic n n' e :
  node_wf n → rtc node_step n n' → log_room (n_raft n') → event_ok e →
  is_Some (node_exec n' e).
Proof.
  intros Hn Hsteps Hroom He.
  destruct (node_exec_kept n' e (node_steps_wf n n' Hn Hsteps) Hroom He) as (x & Hx & _). by exists x.
Qed.

Lemma NewNode_restart n :
  reads_ok → synced n → ncTerm (n_cfg n) = 0%N →
  NewNode (n_cfg n) (inr (n_store n)) true =
    (r <- NewRaft (restart_config (node_raft_config (n_cfg n) 0 "" []) (n_raft n));;
     Some (inr (mkNode r (n_store n) NewKV NewMetrics (n_cfg n) ∅ ∅ []))).
Proof.
  intros Hread (Ht & Hv & Hl) Hcell.
  unfold NewNode. rewrite LoadState_ok, LoadLog_empty, Ht, Hv by done.
  unfold node_raft_config, restart_config. cbn [cfgID cfgPeers cfgElectionTimeout
    cfgHeartbeatTimeout cfgRandSeed]. by rewrite Hcell.
Qed.

(** C31: what a restart brings back. However long a node ran, [NewNode] on
    the database it left restores its current term and its vote, and an
    empty log: the node restarts exactly as [Cluster.restart] says, with
    nothing applied and nothing pending. *)
Theorem restart_restores_hard_state n n' :
  saves_ok → reads_ok → node_wf n → synced n → ncTerm (n_cfg n) = 0%N →
  rtc node_step n n' →
  NewNode (n_cfg n) (inr (n_store n')) true =
    (r <- NewRaft (restart_config (node_raft_config (n_cfg n) 0 "" []) (n_raft n'));;
     Some (inr (mkNode r (n_store n') NewKV NewMetrics (n_cfg n) ∅ ∅ []))).
Proof.
  intros Hsave Hread Hn Hsy Hcell Hsteps.
  destruct (node_steps_kept n n' Hsave Hn Hsy Hsteps) as (_ & Hsy' & Hc).
  rewrite <- Hc in *. by apply NewNode_restart.
Qed.
End theorems.

(** ** A fresh node *)

Section fresh.
Context {GR : GoRand} {CJ : CommandJson} {B : Badger} {EJ : EntryJson}.

Definition fresh_node (cfg : NodeConfig) (db : DB) : Node :=
  mkNode (started (node_raft_config cfg 0 "" [])) db NewKV NewMetrics cfg ∅ ∅ [].

(** The configuration of a node started for the first time. *)
Definition node_config_ok (cfg : NodeConfig) : Prop :=
  (0 < ncElectionTimeout cfg)%Z ∧ ncTerm cfg = 0%N.

Definition db_fresh (db : DB) : Prop :=
  term_of (db_view db) = 0%N ∧ vote_of (db_view db) = "" ∧ log_empty (db_view db).

Lemma node_raft_config_wf cfg term vote :
  node_config_ok cfg → (term < two64)%N → config_wf (node_raft_config cfg term vote []).
Proof.
  intros [Ht Hc] Hterm. split_and!; [done|done|done|]. split; [done| |done].
  intros [|i] e; [by intros [= <-]|done].
Qed.

Lemma NewNode_fresh cfg db :
  reads_ok → node_config_ok cfg → db_fresh db →
  NewNode cfg (inr db) true = Some (inr (fresh_node cfg db)).
Proof.
  intros Hr Hc (Ht & Hv & Hl). unfold NewNode.
  rewrite LoadState_ok, LoadLog_empty, Ht, Hv by done.
  rewrite NewRaft_eq by (by apply node_raft_config_wf). done.
Qed.

Lemma fresh_node_wf cfg db :
  node_config_ok cfg → db_fresh db → node_wf (fresh_node cfg db) ∧ synced (fresh_node cfg db).
Proof.
  intros Hc (Ht & Hv & Hl). split; [|by split_and!].
  split; [by apply started_wf, node_raft_config_wf|done|done|]. by split.
Qed.

(** Running a list of critical sections. *)
Fixpoint node_play (n : Node) (es : list NodeEvent) : option Node :=
  match es with
  | [] => Some n
  | e :: es' =>
      if decide (N.of_nat (S (length (log (n_raft n)))) < two64)%N
      then n <- node_exec n e;; node_play n es'
      else None
  end.

Lemma node_play_steps n es n' :
  Forall event_ok es → node_play n es = Some n' → rtc node_step n n'.
Proof.
  intros Hes. revert n. induction Hes as [|e es He _ IH]; cbn [node_play]; intros n Hp;
    [by simplify_eq; apply rtc_refl|].
  case_decide; [|done]. inv_seq. eapply rtc_l; [|by apply IH]. split; [done|by exists e].
Qed.
End fresh.
