(* ===== verification/NodeRuns.v ===== *)
(** * A concrete node

    The handlers of a node run on the sample generator, codecs and database:
    the witnesses of the theorems of [NodeSpec], and three behaviours of
    src/node.go that differ from what its documentation promises. *)

From S2P Require Import Prelude Pb Raft RaftWf Cluster ClusterTrans Sample Kv Storage Metrics Node NodeSpec.

Import SampleStore.

Definition node_cfg : NodeConfig := mkNodeConfig "a" ["b"; "c"] 5 2 0.

Definition node0 : Node := fresh_node node_cfg empty_db.

(** A command as the sample codec writes it. *)
Definition set_cmd (k v : string) : bytes := Encode (mkCommand OpSet k v).

(** Node "a" times out, asks for votes and wins term 1 with the vote of "b". *)
Definition vote_msg : Message := newMessage MsgRequestVote "a" "b" 1.

Definition campaign : list NodeEvent :=
  replicate 10 NvTick ++ [NvVoteReply vote_msg (Some (mkRequestVoteResponse 1 true false))].

Definition ran_node (n : Node) (es : list NodeEvent) : Node := default n (node_play n es).

Definition node1 : Node := ran_node node0 campaign.

(** It accepts the command [x := 1] at index 2. *)
Definition node2 : Node := ran_node node1 [NvPropose (mkProposeRequest (set_cmd "x" "1"))].

Example node1_leads : state (n_raft node1) = Leader ∧ currentTerm (n_raft node1) = 1%N.
Proof. by vm_compute. Qed.

(** A request of leader "c" of term 2, which never saw that command: its own
    entries take indices 1 and 2 and are committed. *)
Definition from_c : AppendEntriesRequest :=
  mkAppendEntriesRequest 2 "c" 0 0
    [mkLogEntry 1 2 [] EntryCommand; mkLogEntry 2 2 (set_cmd "y" "2") EntryCommand] 2.

Definition node3 : Node := ran_node node2 [NvAppendEntries from_c].

(** ** The runs satisfy the hypotheses of the theorems *)

Lemma empty_db_fresh : db_fresh empty_db.
Proof. split_and!; [by vm_compute..|]. by intros k _. Qed.

Lemma node_cfg_ok : node_config_ok node_cfg.
Proof. by split. Qed.

Lemma node0_wf : node_wf node0 ∧ synced node0.
Proof. apply fresh_node_wf; [exact node_cfg_ok|exact empty_db_fresh]. Qed.

Lemma sample_saves : saves_ok.
Proof. intros db t v. done. Qed.

Lemma from_c_ok : append_request_ok from_c.
Proof.
  split; [done|]. intros _. right. split; [done|].
  intros [|[|i]] e; [by intros [= <-]..|done].
Qed.

Lemma ran_node_steps n es :
  Forall event_ok es → is_Some (node_play n es) → rtc node_step n (ran_node n es).
Proof.
  intros Hes [n' Hn']. unfold ran_node. rewrite Hn'. by apply (node_play_steps n es).
Qed.

Lemma campaign_ok : Forall event_ok campaign.
Proof. repeat (constructor; [done|]). constructor. Qed.

Lemma runs_ok :
  rtc node_step node0 node1 ∧ rtc node_step node1 node2 ∧ rtc node_step node2 node3.
Proof.
  split_and!; apply ran_node_steps.
  1: exact campaign_ok.
  2, 4: repeat (constructor; [exact I || exact from_c_ok|]); constructor.
  all: apply (bool_decide_unpack (is_Some _)); by vm_compute.
Qed.

Lemma node_steps : rtc node_step node0 node1 ∧ rtc node_step node0 node2 ∧ rtc node_step node0 node3.
Proof.
  destruct runs_ok as (H1 & H2 & H3). split_and!; [done|by trans node1|].
  trans node1; [done|]. by trans node2.
Qed.

Lemma node1_wf : node_wf node1.
Proof. eapply node_steps_kept; [exact sample_saves|apply node0_wf..|apply node_steps]. Qed.

Lemma node2_wf : node_wf node2.
Proof. eapply node_steps_kept; [exact sample_saves|apply node0_wf..|apply node_steps]. Qed.

Lemma node1_room : log_room (n_raft node1).
Proof. apply (bool_decide_unpack _). by vm_compute. Qed.

Lemma node2_room : log_room (n_raft node2).
Proof. apply (bool_decide_unpack _). by vm_compute. Qed.

(** ** Behaviours that differ from the documentation *)

(** The client of [x := 1] is told that its command succeeded, although the
    entry is no longer in the log and was never applied: [applyCommitted]
    looks the proposal up by index and does not compare terms. *)
Theorem success_for_lost_proposal :
  (∃ n out, HandlePropose node1 (mkProposeRequest (set_cmd "x" "1")) = Some (n, out, Wait 0)) ∧
  await (E := unit) (n_chans node3) 0 DoneClosed = Some (inr (mkProposeResponse true "" "")) ∧
  Forall (fun e => eData e ≠ set_cmd "x" "1") (log (n_raft node3)) ∧
  Get (n_fsm node3) "x" = ("", false) ∧ Get (n_fsm node3) "y" = ("2", true).
Proof.
  split_and!; [|by vm_compute| |by vm_compute..].
  - assert ((fun x => x.2) <$> HandlePropose node1 (mkProposeRequest (set_cmd "x" "1"))
      = Some (Wait 0)) as H by (by vm_compute).
    destruct (HandlePropose node1 _) as [[[n out] w]|]; [|done].
    injection H as ->. by exists n, out.
  - apply (bool_decide_unpack _). by vm_compute.
Qed.

(** A node that joins the gossip mesh is added to the peers of the node that
    sees it; no configuration entry is proposed, on a leader either. *)
Theorem join_proposes_nothing n id addr :
  let '(n', out) := handleDiscoveryEvent n (mkDiscoveryEvent NodeJoin id addr) in
  log (n_raft n') = log (n_raft n) ∧ n_raft n' = drain (AddPeer (n_raft n) id) ∧
  resolvePeerAddr n' id = addr ∧ out = routed (msgs (AddPeer (n_raft n) id)).
Proof.
  unfold handleDiscoveryEvent. cbn [evType evNodeID evRaftAddr]. cbv zeta.
  match goal with |- context [dispatchMessages (persistState ?x)] =>
    pose proof (finish_eq x) as Hfin; destruct (dispatchMessages _) as [n' out] end.
  destruct Hfin as ([_ _ _ Ha _] & Hr & _ & ->). simpl in Ha, Hr.
  split_and!; [|done| |done].
  - rewrite Hr. unfold AddPeer. simpl. by repeat case_decide.
  - unfold resolvePeerAddr. by rewrite Ha, lookup_insert_eq.
Qed.

(** The database of [SampleStore] on a full disk: no commit succeeds. *)
Module FullDisk.
Program Definition full_badger : Badger := {|
  DB := gmap bytes bytes; Txn := gmap bytes bytes; DBError := unit;
  db_view m := m; txn_view m := m; db_begin m := m; db_commit _ _ := inl tt;
  txn_get m k := match m !! k with Some v => Item (inr v) | None => KeyNotFound end;
  txn_set m k v := inr (<[k := v]> m);
  txn_delete m k := inr (delete k m);
  txn_scan := scan
|}.
Next Obligation. done. Qed.
Next Obligation. done. Qed.
Next Obligation. intros m k v. simpl. case_match; naive_solver. Qed.
Next Obligation. intros m k. simpl. by case_match. Qed.
Next Obligation. naive_solver. Qed.
Next Obligation. naive_solver. Qed.
Next Obligation. apply (scan_keys (Badger := sample_badger)). Qed.
Next Obligation. apply (scan_sorted (Badger := sample_badger)). Qed.
Next Obligation. apply (scan_values (Badger := sample_badger)). Qed.

(** The answers to two vote requests of one term, by candidates "b" and "c",
    with a restart from the database in between. *)
Definition vote_of_term_1 (candidate : string) (db : DB (Badger := full_badger))
    : option (bool * DB (Badger := full_badger)) :=
  x <- NewNode (B := full_badger) node_cfg (inr db) true;;
  match x with
  | inl _ => None
  | inr n =>
      y <- HandleRequestVote n (mkRequestVoteRequest 1 candidate 0 0 false);;
      match y.2 with
      | inl _ => None
      | inr resp => Some (rvrVoteGranted resp, n_store y.1.1)
      end
  end.

(** [persistState] only logs a failed save, and the vote is granted all the
    same: after a restart the node votes again in the same term, for another
    candidate. *)
Theorem votes_twice_after_failed_save :
  let first := vote_of_term_1 "b" (∅ : gmap bytes bytes) in
  fst <$> first = Some true ∧
  fst <$> (x <- first;; vote_of_term_1 "c" x.2) = Some true.
Proof. by vm_compute. Qed.
End FullDisk.

(** ** Witnesses *)

Lemma append_entries_answered_witness :
  returns (HandleAppendEntries node2 from_c) (fun '(n', out, answer) =>
    out = [] ∧ ∃ resp, answer = inr resp ∧ aerTerm resp = currentTerm (n_raft n')).
Proof.
  eapply returns_mono; [exact (append_entries_answered node2 from_c node2_wf from_c_ok)|].
  intros [[n' out] answer] (_ & Hout & _ & resp & Hans & Ht & _). split; [exact Hout|].
  exists resp. split; [exact Hans|exact Ht].
Defined.

Lemma vote_answered_and_persisted_witness :
  returns (HandleRequestVote node0 (mkRequestVoteRequest 1 "b" 0 0 false))
    (fun '(n', _, answer) => ∃ resp, answer = inr resp ∧
       (rvrVoteGranted resp = true → LoadState (n_store n') = (1%N, "b", None))).
Proof.
  eapply returns_mono.
  - apply (vote_answered_and_persisted node0 (mkRequestVoteRequest 1 "b" 0 0 false));
      [apply node0_wf|done|exact sample_reads].
  - intros [[n' out] answer] (_ & _ & resp & Hans & _ & _ & Hg). exists resp.
    split; [done|]. intros Hv. by apply Hg.
Defined.

Lemma propose_outcome_witness :
  returns (HandlePropose node1 (mkProposeRequest (set_cmd "x" "1"))) (fun '(n', out, outcome) =>
    ∃ ch, outcome = Wait ch ∧ mTo <$> out = peers (n_raft node1)).
Proof.
  eapply returns_mono.
  - exact (propose_outcome node1 (mkProposeRequest (set_cmd "x" "1")) node1_wf node1_room).
  - intros [[n' out] oc] (_ & _ & Hl). destruct Hl as (ch & Hw & _ & _ & _ & _ & Hto & _);
      [by vm_compute|]. exists ch. split; [exact Hw|exact Hto].
Defined.

Lemma apply_committed_effect_witness :
  returns (applyCommitted node1) (fun n' =>
    ∃ es, ApplicableEntries (n_raft node1) = Some (es, n_raft n') ∧
      n_fsm n' = replay (n_fsm node1) es).
Proof.
  eapply returns_mono.
  - exact (apply_committed_effect node1 (nw_raft _ node1_wf) (nw_chans _ node1_wf)).
  - intros n' (es & Ha & Hf & _). exists es. split; [exact Ha|exact Hf].
Defined.

Lemma handlers_never_panic_witness : is_Some (node_exec node2 (NvAppendEntries from_c)).
Proof.
  apply (handlers_never_panic node0 node2); [apply node0_wf| | |].
  - apply node_steps.
  - exact node2_room.
  - exact from_c_ok.
Defined.

Lemma restart_restores_hard_state_witness :
  NewNode node_cfg (inr (n_store node3)) true =
    (r <- NewRaft (restart_config (node_raft_config node_cfg 0 "" []) (n_raft node3));;
     Some (inr (mkNode r (n_store node3) NewKV NewMetrics node_cfg ∅ ∅ []))).
Proof.
  apply (restart_restores_hard_state node0 node3);
    [exact sample_saves|exact sample_reads|apply node0_wf..|done|apply node_steps].
Defined.
