(* ===== verification/System.v ===== *)
(** * Nodes over RPCs: the composed system

    Every member runs the handlers of src/node.go; an RPC that was started may
    reach its target any number of times, or never, and every answer may
    reach the caller any number of times, or never.  The system refines the
    cluster of [Cluster]: each handler is one event of the cluster, followed by
    the hand-out of committed entries where the handler applies them.  Gossip
    events are left out, because the membership is fixed. *)

From S2P Require Import Prelude Pb Raft RaftWf Cluster ClusterTrans Election LogInv LogSafety Kv Storage Metrics Node NodeSpec.

Inductive Answer :=
  | AppendAnswer (resp : AppendEntriesResponse)
  | VoteAnswer (resp : RequestVoteResponse).

#[export] Instance AppendEntriesResponse_eq_dec : EqDecision AppendEntriesResponse.
Proof. solve_decision. Defined.

#[export] Instance RequestVoteResponse_eq_dec : EqDecision RequestVoteResponse.
Proof. solve_decision. Defined.

#[export] Instance Answer_eq_dec : EqDecision Answer.
Proof. solve_decision. Defined.

(** The message the caller's state machine is given for an answer. *)
Definition answer_message (m : Message) (a : Answer) : Message :=
  match a with
  | AppendAnswer resp => append_entries_reply m resp
  | VoteAnswer resp => request_vote_reply m resp
  end.

Inductive SystemEvent :=
  | SyTick (i : string)
  | SyServe (m : Message)
  | SyReturn (m : Message) (a : Answer)
  | SyPropose (i : string) (req : ProposeRequest)
  | SyRead (i : string) (req : ReadRequest).

Section system.
Context {GR : GoRand} {CJ : CommandJson} {B : Badger} {EJ : EntryJson}.

Record System := mkSystem {
  sys_nodes : gmap string Node;
  sys_rpcs : list Message;                (* every RPC ever started *)
  sys_answers : list (Message * Answer)   (* every answer ever given *)
}.

Definition at_member (s : System) (i : string)
    (f : Node → option (Node * list Message * list (Message * Answer))) : option System :=
  n <- sys_nodes s !! i;;
  x <- f n;;
  Some (mkSystem (<[i := x.1.1]> (sys_nodes s)) (sys_rpcs s ++ x.1.2) (sys_answers s ++ x.2)).

(** The target of [m] handles it; an error of the handler is no answer. *)
Definition serve (m : Message) (n : Node) : option (Node * list Message * list (Message * Answer)) :=
  match mType m with
  | MsgAppendEntries =>
      x <- HandleAppendEntries n (append_entries_request m);;
      Some (x.1, match x.2 with inl _ => [] | inr resp => [(m, AppendAnswer resp)] end)
  | MsgRequestVote =>
      x <- HandleRequestVote n (request_vote_request m);;
      Some (x.1, match x.2 with inl _ => [] | inr resp => [(m, VoteAnswer resp)] end)
  | _ => None
  end.

Definition take_answer (m : Message) (a : Answer) (n : Node)
    : option (Node * list Message * list (Message * Answer)) :=
  x <- match a with
       | AppendAnswer resp => sendAppendEntries_done n m (Some resp)
       | VoteAnswer resp => sendRequestVote_done n m (Some resp)
       end;;
  Some (x, []).

Definition sys_exec (s : System) (e : SystemEvent) : option System :=
  match e with
  | SyTick i => at_member s i (fun n => x <- onTick n;; Some (x, []))
  | SyServe m =>
      if decide (m ∈ sys_rpcs s) then at_member s (mTo m) (serve m) else None
  | SyReturn m a =>
      if decide ((m, a) ∈ sys_answers s) then at_member s (mFrom m) (take_answer m a) else None
  | SyPropose i req => at_member s i (fun n => x <- HandlePropose n req;; Some (x.1, []))
  | SyRead i req => at_member s i (fun n => Some ((HandleRead n req).1, [], []))
  end.

(** A crash: the process starts again on the database it left.  Answers to
    RPCs of its previous life may still arrive, which the program does not
    even allow. *)
Definition sys_restart (s : System) (i : string) : option System :=
  n <- sys_nodes s !! i;;
  x <- NewNode (n_cfg n) (inr (n_store n)) true;;
  match x with
  | inl _ => None
  | inr n' => Some (mkSystem (<[i := n']> (sys_nodes s)) (sys_rpcs s) (sys_answers s))
  end.

(** No counter of a node is one step away from wrapping around. *)
Definition sys_headroom (s : System) : Prop :=
  ∀ i n, sys_nodes s !! i = Some n → room (n_raft n).

Definition sys_step (s s' : System) : Prop :=
  sys_headroom s ∧ sys_headroom s' ∧ ∃ e, sys_exec s e = Some s'.

Definition sys_step_or_restart (s s' : System) : Prop :=
  sys_step s s' ∨ (sys_headroom s ∧ ∃ i, sys_restart s i = Some s').

(** What clients ask for in a run: the commands proposed, in order. *)
Definition sys_asks (e : SystemEvent) : list (EntryType * bytes) :=
  match e with SyPropose _ req => [(EntryCommand, pqData req)] | _ => [] end.

Inductive sys_trace : System → list (EntryType * bytes) → System → Prop :=
  | sys_trace_here s : sys_trace s [] s
  | sys_trace_step s e s1 qs s2 :
      sys_headroom s → sys_headroom s1 → sys_exec s e = Some s1 →
      sys_trace s1 qs s2 → sys_trace s (sys_asks e ++ qs) s2.

Lemma sys_trace_steps s qs s' : sys_trace s qs s' → rtc sys_step s s'.
Proof.
  induction 1 as [|s e s1 qs s2 Hr Hr1 Hex _ IH]; [apply rtc_refl|].
  eapply rtc_l; [|exact IH]. split_and!; [done|done|by exists e].
Qed.

(** ** Executable runs *)

#[export] Instance sys_headroom_dec s : Decision (sys_headroom s).
Proof.
  refine (cast_if (decide (map_Forall (fun _ n =>
    (currentTerm (n_raft n) + 1 < two64)%N ∧ (N.of_nat (S (length (log (n_raft n)))) < two64)%N)
      (sys_nodes s)))); unfold sys_headroom, room, log_room; done.
Defined.

(** A schedule picks each event from the state it is about to happen in. *)
Fixpoint sys_play (s : System) (es : list (System → SystemEvent)) : option System :=
  match es with
  | [] => Some s
  | e :: es' => s' <- sys_exec s (e s);;
      if decide (sys_headroom s') then sys_play s' es' else None
  end.

(** What a schedule asks for. *)
Fixpoint play_asks (s : System) (es : list (System → SystemEvent)) : list (EntryType * bytes) :=
  match es with
  | [] => []
  | e :: es' => sys_asks (e s) ++ match sys_exec s (e s) with Some s' => play_asks s' es' | None => [] end
  end.

Lemma sys_play_trace s es s' :
  sys_headroom s → sys_play s es = Some s' → sys_trace s (play_asks s es) s'.
Proof.
  revert s. induction es as [|e es IH]; cbn [sys_play play_asks]; intros s Hroom Hrun.
  { simplify_eq. apply sys_trace_here. }
  apply seq_bind_Some in Hrun as (s1 & Hex & Hrun). rewrite Hex. case_decide as Hroom'; [|done].
  by eapply sys_trace_step, IH.
Qed.

Lemma sys_play_steps s es s' : sys_headroom s → sys_play s es = Some s' → rtc sys_step s s'.
Proof. intros Hroom Hrun. by eapply sys_trace_steps, sys_play_trace. Qed.

(** ** Plain messages

    An RPC carries only some fields of a message; the handler on the other side
    rebuilds the message with zeros elsewhere.  The messages nodes send have
    zeros there to begin with. *)

Definition plain (m : Message) : Prop :=
  (mType m = MsgAppendEntries →
   append_entries_message (mTo m) (append_entries_request m) = m) ∧
  (mType m = MsgRequestVote → request_vote_message (mTo m) (request_vote_request m) = m).

Lemma plain_heartbeat r p : plain (heartbeat_to r p).
Proof. by split. Qed.

Lemma plain_vote_request r p : plain (vote_request_to r p).
Proof. by split. Qed.

Lemma plain_response m :
  mType m = MsgRequestVoteResp ∨ mType m = MsgAppendEntriesResp → plain m.
Proof. intros Hm. split; intros He; rewrite He in Hm; by destruct Hm. Qed.

Lemma plain_some (f : string → Message) ms :
  (∀ p, plain (f p)) → Forall (fun m => ∃ p, m = f p) ms → Forall plain ms.
Proof. intros Hf Hms. eapply Forall_impl; [exact Hms|]. intros m [p ->]. apply Hf. Qed.

Lemma trans_plain ntw r r' ms : trans ntw r r' ms → Forall plain ms.
Proof.
  intros []; subst; try by constructor.
  - eapply Forall_impl; [done|]. intros m [Hm _]. by apply plain_response.
  - by eapply plain_some; [apply plain_vote_request|].
  - by eapply plain_some; [apply plain_heartbeat|].
  - by eapply plain_some; [apply plain_heartbeat|].
Qed.

Lemma transs_plain members ntw r r' ms : transs members ntw r r' ms → Forall plain ms.
Proof.
  induction 1 as [|r1 r2 r3 ms1 ms2 Ht _ _ IH]; [done|]. apply Forall_app. split; [|done].
  by eapply trans_plain.
Qed.

(** ** The simulation *)

Section simulation.
Context (members : gset string) (ncfg : string → NodeConfig).

(** The state machine configuration of a member. *)
Definition conf_of (i : string) : Config := node_raft_config (ncfg i) 0 "" [].

Context (Hmem : NoneID ∉ members).
Context (Hcf : ∀ i, i ∈ members → fresh_config members i (conf_of i)).
Context (Hsaves : saves_ok) (Hreads : reads_ok).

(** Every member starts on a fresh database. *)
Definition sys_initial (s : System) : Prop :=
  sys_rpcs s = [] ∧ sys_answers s = [] ∧
  ∀ i, if decide (i ∈ members)
       then ∃ db n, db_fresh db ∧ NewNode (ncfg i) (inr db) true = Some (inr n) ∧
                    sys_nodes s !! i = Some n
       else sys_nodes s !! i = None.

(** The cluster state behind a system state: the same state machines; a
    network that holds every RPC and every answer; and, as the contents of
    each store, the replay of what the node has applied. *)
Record sim (s : System) (c : Cluster) : Prop := {
  sim_raft i : nodes c !! i = n_raft <$> sys_nodes s !! i;
  sim_node i n : sys_nodes s !! i = Some n →
    node_wf n ∧ synced n ∧ n_cfg n = ncfg i ∧ ncID (ncfg i) = i ∧
    n_fsm n = replay NewKV (applied_of c i);
  sim_rpcs m : m ∈ sys_rpcs s → m ∈ net c;
  sim_answers m a : (m, a) ∈ sys_answers s → answer_message m a ∈ net c
}.

Definition plain_net (c : Cluster) : Prop := Forall plain (net c).

Lemma plain_net_step c c' :
  cluster_ok members c → plain_net c → step_or_restart conf_of c c' → plain_net c'.
Proof.
  intros Hok Hp [(Hroom & e & Hex)|(_ & i & Hre)].
  - destruct (exec_cases members c e c' Hok Hroom Hex) as
      [(i & r & r' & ms & _ & Ht & ->)|(i & r & er & _ & _ & ->)]; [|done].
    apply Forall_app. split; [done|]. by eapply transs_plain.
  - unfold restart in Hre. inv_seq. by simplify_eq.
Qed.

Lemma reachable_ok c :
  reachable_with_restarts members conf_of c → cluster_ok members c ∧ plain_net c.
Proof using Hmem Hcf.
  intros (c0 & Hi & Hs).
  assert (∀ c, rtc (step_or_restart conf_of) c0 c → cluster_ok members c) as Hok.
  { intros c1 H1. destruct (reachable_elect_inv members conf_of Hmem c1 Hcf) as [h Inv];
      [by exists c0|by eapply elect_inv_ok]. }
  split; [by apply Hok|].
  assert (plain_net c0) as Hp by (destruct Hi as (_ & Hnet & _); unfold plain_net; by rewrite Hnet).
  clear Hi. induction Hs as [c0|c0 c1 c2 H01 _ IH]; [done|].
  apply IH; [by intros; eapply Hok, rtc_l|].
  eapply plain_net_step; [by apply Hok|done|done].
Qed.

(** ** Each handler is answered by the cluster *)

Lemma sim_headroom s c : sim s c → sys_headroom s ↔ headroom c.
Proof.
  intros Hsim. split; intros Hroom i.
  - intros r Hr. rewrite (sim_raft _ _ Hsim) in Hr.
    destruct (sys_nodes s !! i) as [n|] eqn:Hn; [|done]. injection Hr as <-.
    by apply (Hroom i n).
  - intros n Hn. apply (Hroom i (n_raft n)). by rewrite (sim_raft _ _ Hsim), Hn.
Qed.

(** The node [n] of member [i] becomes [n'], leaving the rest alone. *)
Definition with_node (s : System) (i : string) (n' : Node) (out : list Message)
    (ans : list (Message * Answer)) : System :=
  mkSystem (<[i := n']> (sys_nodes s)) (sys_rpcs s ++ out) (sys_answers s ++ ans).

Lemma sim_update s c i n n' out ans ms ap' :
  sim s c → sys_nodes s !! i = Some n → node_wf n' → synced n' → n_cfg n' = n_cfg n →
  n_fsm n' = replay NewKV (default [] (ap' !! i)) →
  (∀ j, j ≠ i → ap' !! j = applied c !! j) →
  (∀ m, m ∈ out → m ∈ ms) → (∀ m a, (m, a) ∈ ans → answer_message m a ∈ ms) →
  sim (with_node s i n' out ans)
      (mkCluster (<[i := n_raft n']> (nodes c)) (net c ++ ms) ap').
Proof.
  intros Hsim Hn Hw Hsy Hc Hf Hap Hout Hans.
  destruct (sim_node _ _ Hsim i n Hn) as (_ & _ & Hcn & Hid & _). split; simpl.
  - intros j. destruct (decide (i = j)) as [<-|Hne].
    + by rewrite !lookup_insert_eq.
    + rewrite !lookup_insert_ne by done. apply Hsim.
  - intros j m [[<- <-]|[Hne Hm]]%lookup_insert_Some.
    + split_and!; [done|done|by rewrite Hc|done|done].
    + unfold applied_of. simpl. rewrite Hap by done. by apply (sim_node _ _ Hsim).
  - intros m [Hm|Hm]%elem_of_app; apply elem_of_app;
      [left; by apply (sim_rpcs _ _ Hsim)|right; auto].
  - intros m a [Hm|Hm]%elem_of_app; apply elem_of_app;
      [left; by apply (sim_answers _ _ Hsim)|right; auto].
Qed.

Lemma with_node_nil s i n' :
  with_node s i n' [] [] = mkSystem (<[i := n']> (sys_nodes s)) (sys_rpcs s) (sys_answers s).
Proof. unfold with_node. by rewrite !app_nil_r. Qed.

Lemma applied_raft_room r r' : applied_raft r r' → room r' → room r.
Proof. by intros [->|[a ->]]. Qed.

(** A handler that runs [f] on the state machine, and perhaps applies. *)
Lemma sim_advance s c i n e f r n' out ans es :
  sim s c → headroom c → sys_nodes s !! i = Some n →
  exec c e = at_node c i f → f (n_raft n) = Some r → raft_wf r → room (n_raft n') →
  node_wf n' → synced n' → n_cfg n' = n_cfg n →
  (ApplicableEntries (drain r) = Some (es, n_raft n') ∨ (es = [] ∧ n_raft n' = drain r)) →
  n_fsm n' = replay (n_fsm n) es →
  (∀ m, m ∈ out → m ∈ msgs r) → (∀ m a, (m, a) ∈ ans → answer_message m a ∈ msgs r) →
  ∃ c', trace c (asks e) c' ∧ sim (with_node s i n' out ans) c'.
Proof.
  intros Hsim Hroom Hn Hex Hf Hwf Hroom' Hw Hsy Hc Happ Hfsm Hout Hans.
  assert (nodes c !! i = Some (n_raft n)) as Hr by (by rewrite (sim_raft _ _ Hsim), Hn).
  set (c1 := put c i (drain r) (msgs r)).
  assert (exec c e = Some c1) as H01.
  { rewrite Hex. unfold at_node. rewrite Hr. cbn [seq_bind]. by rewrite Hf. }
  destruct (sim_node _ _ Hsim i n Hn) as (_ & _ & _ & _ & Hfn).
  destruct Happ as [Happ|[-> Hr']].
  - exists (mkCluster (<[i := n_raft n']> (nodes c)) (net c ++ msgs r)
              (<[i := applied_of c i ++ es]> (applied c))). split.
    + rewrite <- (app_nil_r (asks e)). eapply trace_step; [done|exact H01|].
      apply (trace_one c1 (EvApply i)).
      * intros j t. simpl. intros [[<- <-]|[_ Ht]]%lookup_insert_Some; [|by apply (Hroom j)].
        apply (applied_raft_room _ (n_raft n')); [|done].
        destruct (applicable_same (drain r) es (n_raft n')) as [[_ ->]|?];
          [by apply Hwf|done|by left|by right].
      * simpl. rewrite lookup_insert_eq. cbn [seq_bind].
        rewrite Happ. cbn [seq_bind fst snd]. by rewrite insert_insert_eq.
    + eapply sim_update; try done.
      * rewrite lookup_insert_eq. simpl. unfold replay. rewrite foldl_app.
        fold (replay NewKV (applied_of c i)). by rewrite Hfsm, Hfn.
      * intros j Hj. by rewrite lookup_insert_ne.
  - exists c1. split; [by apply trace_one|]. unfold c1, put. rewrite <- Hr'.
    eapply sim_update; try done. rewrite Hfsm. exact Hfn.
Qed.

(** A handler that leaves the state machine and the store of commands alone. *)
Lemma sim_idle s c i n n' :
  sim s c → sys_nodes s !! i = Some n → node_wf n' → synced n' →
  n_cfg n' = n_cfg n → n_raft n' = n_raft n → n_fsm n' = n_fsm n →
  sim (with_node s i n' [] []) c.
Proof.
  intros Hsim Hn Hw Hsy Hc Hr Hf.
  destruct (sim_node _ _ Hsim i n Hn) as (_ & _ & _ & _ & Hfn).
  assert (nodes c !! i = Some (n_raft n)) as Hrn by (by rewrite (sim_raft _ _ Hsim), Hn).
  pose proof (sim_update s c i n n' [] [] [] (applied c) Hsim Hn Hw Hsy Hc) as H.
  rewrite Hr, app_nil_r, (insert_id _ _ _ Hrn) in H. destruct c as [nd nt ap].
  apply H; try done;
    [by rewrite Hf|by intros m a ?%not_elem_of_nil].
Qed.

Lemma elem_of_routed m ms : m ∈ routed ms → m ∈ ms.
Proof.
  unfold routed. induction ms as [|x ms IH]; [done|]. rewrite fmap_cons. cbn [concat].
  intros [Hm|Hm]%elem_of_app; [|apply list_elem_of_further; auto].
  unfold routeMessage in Hm.
  destruct (mType x); (by apply not_elem_of_nil in Hm) ||
    (apply list_elem_of_singleton in Hm as ->; apply list_elem_of_here).
Qed.

Lemma sim_moved s c i n e f r n' out :
  sim s c → headroom c → sys_nodes s !! i = Some n →
  exec c e = at_node c i f → f (n_raft n) = Some r → raft_wf r → room (n_raft n') →
  moved n r n' out →
  ∃ c', trace c (asks e) c' ∧ sim (with_node s i n' out []) c'.
Proof using Hsaves.
  intros Hsim Hroom Hn Hex Hf Hwf Hroom' Hm.
  pose proof (moved_kept _ _ _ _ Hm) as Hk.
  destruct (sim_node _ _ Hsim i n Hn) as (_ & Hsy & _).
  destruct Hm as (Hw & Hc & _ & -> & es & Happ & Hfsm).
  eapply (sim_advance s c i n e f r n'); try done.
  - by eapply kept_synced.
  - intros m. apply elem_of_routed.
  - by intros m a ?%not_elem_of_nil.
Qed.

Lemma sim_tick s c i n n' out :
  sim s c → headroom c → sys_nodes s !! i = Some n → onTick n = Some (n', out) →
  room (n_raft n') → ∃ c', trace c [] c' ∧ sim (with_node s i n' out []) c'.
Proof using Hsaves.
  intros Hsim Hroom Hn Ht Hroom'. destruct (sim_node _ _ Hsim i n Hn) as (Hw & _).
  pose proof (proj2 (sim_headroom _ _ Hsim) Hroom i n Hn) as [_ Hlr].
  destruct (onTick_spec n Hw Hlr) as (r & Hr & [n2 out2] & Ht2 & Hm).
  rewrite Ht in Ht2. injection Ht2 as <- <-.
  destruct (Tick_returns _ (nw_raft _ Hw) Hlr) as (r2 & Hr2 & Hwf).
  rewrite Hr in Hr2. injection Hr2 as <-.
  by eapply (sim_moved s c i n (EvTick i) Tick).
Qed.

(** A message of the network that is delivered to node [i]. *)
Lemma exec_deliver c m : m ∈ net c → exec c (EvDeliver m) = at_node c (mTo m) (fun r => Step r m).
Proof. intros Hm. simpl. by rewrite decide_True. Qed.

Lemma sim_return s c m a n n' out ans :
  sim s c → headroom c → cluster_ok members c → (m, a) ∈ sys_answers s →
  sys_nodes s !! mFrom m = Some n → take_answer m a n = Some (n', out, ans) →
  room (n_raft n') → ∃ c', trace c [] c' ∧ sim (with_node s (mFrom m) n' out ans) c'.
Proof using Hsaves.
  intros Hsim Hroom Hok Hin Hn Ht Hroom'. destruct (sim_node _ _ Hsim _ n Hn) as (Hw & _).
  pose proof (proj2 (sim_headroom _ _ Hsim) Hroom _ n Hn) as [_ Hlr].
  pose proof (sim_answers _ _ Hsim _ _ Hin) as Hnet.
  destruct (ck_net _ _ Hok _ Hnet) as (_ & _ & _ & Hmwf).
  destruct (Step_returns _ _ (nw_raft _ Hw) Hlr Hmwf) as (r2 & Hr2 & Hwf).
  assert (mTo (answer_message m a) = mFrom m) as Hto by (by destruct a).
  unfold take_answer in Ht. inv_seq. injection Ht as -> <-.
  destruct a as [resp|resp]; cbn [answer_message] in *.
  - destruct (sendAppendEntries_done_spec n m resp Hw Hlr (proj1 Hmwf))
      as (r & Hr & [n2 out2] & Hs & Hmv). simplify_eq.
    eapply (sim_moved s c (mFrom m) n (EvDeliver (append_entries_reply m resp))
      (fun r => Step r (append_entries_reply m resp))); try done.
    exact (exec_deliver _ _ Hnet).
  - destruct (sendRequestVote_done_spec n m resp Hw Hlr (proj1 Hmwf))
      as (r & Hr & [n2 out2] & Hs & Hmv). simplify_eq.
    eapply (sim_moved s c (mFrom m) n (EvDeliver (request_vote_reply m resp))
      (fun r => Step r (request_vote_reply m resp))); try done.
    exact (exec_deliver _ _ Hnet).
Qed.

(** An RPC reaches its target as the message it was made from. *)
Lemma rpc_message s c m :
  sim s c → cluster_ok members c → plain_net c → m ∈ sys_rpcs s →
  m ∈ net c ∧ msg_wf m ∧ plain m.
Proof.
  intros Hsim Hok Hp Hm. pose proof (sim_rpcs _ _ Hsim _ Hm) as Hnet.
  destruct (ck_net _ _ Hok _ Hnet) as (_ & _ & _ & Hwf). split_and!; [done|done|].
  by eapply Forall_forall in Hp.
Qed.

Lemma sim_serve_append s c m n x :
  sim s c → headroom c → cluster_ok members c → plain_net c → m ∈ sys_rpcs s →
  mType m = MsgAppendEntries → sys_nodes s !! mTo m = Some n →
  HandleAppendEntries n (append_entries_request m) = Some x → room (n_raft x.1.1) →
  ∃ c', trace c [] c' ∧ sim (with_node s (mTo m) x.1.1 x.1.2
    match x.2 with inl _ => [] | inr resp => [(m, AppendAnswer resp)] end) c'.
Proof using Hsaves.
  intros Hsim Hroom Hok Hp Hin Hty Hn Hx Hroom'.
  destruct (rpc_message s c m Hsim Hok Hp Hin) as (Hnet & Hmwf & [Hplain _]).
  destruct (sim_node _ _ Hsim _ n Hn) as (Hw & Hsy & Hcn & Hid & _).
  pose proof (proj2 (sim_headroom _ _ Hsim) Hroom _ n Hn) as [_ Hlr].
  assert (append_request n (append_entries_request m) = m) as Hmsg.
  { unfold append_request. rewrite Hcn, Hid. by apply Hplain. }
  assert (append_request_ok (append_entries_request m)) as Hreq.
  { change (msg_wf (append_request n (append_entries_request m))). by rewrite Hmsg. }
  destruct (HandleAppendEntries_spec n _ Hw Hreq) as ([[n' out] ans] & Hx2 & Hpost).
  rewrite Hx in Hx2. injection Hx2 as ->. cbn [fst snd] in *.
  destruct Hpost as (Hw' & -> & Hc & Hs & r & es & rej & i & Hstep & Hms & Ha & Hf & -> & Ht & _).
  rewrite Hmsg in Hstep, Hms.
  destruct (Step_returns _ _ (nw_raft _ Hw) Hlr Hmwf) as (r2 & Hr2 & Hwf).
  rewrite Hstep in Hr2. injection Hr2 as <-.
  eapply (sim_advance s c (mTo m) n (EvDeliver m) (fun r => Step r m) r n'); try done.
  - by apply exec_deliver.
  - by eapply kept_synced; [..|split_and!; [done|done|left]].
  - by left.
  - by intros q ?%not_elem_of_nil.
  - intros q a [= -> ->]%list_elem_of_singleton. rewrite Hms. apply list_elem_of_singleton.
    unfold append_reply. simpl. unfold append_entries_reply. simpl.
    rewrite negb_involutive, (nw_id _ Hw), Hcn, Hid. done.
Qed.

Lemma sim_serve_vote s c m n x :
  sim s c → headroom c → cluster_ok members c → plain_net c → m ∈ sys_rpcs s →
  mType m = MsgRequestVote → sys_nodes s !! mTo m = Some n →
  HandleRequestVote n (request_vote_request m) = Some x → room (n_raft x.1.1) →
  ∃ c', trace c [] c' ∧ sim (with_node s (mTo m) x.1.1 x.1.2
    match x.2 with inl _ => [] | inr resp => [(m, VoteAnswer resp)] end) c'.
Proof using Hsaves.
  intros Hsim Hroom Hok Hp Hin Hty Hn Hx Hroom'.
  destruct (rpc_message s c m Hsim Hok Hp Hin) as (Hnet & Hmwf & [_ Hplain]).
  destruct (sim_node _ _ Hsim _ n Hn) as (Hw & Hsy & Hcn & Hid & _).
  pose proof (proj2 (sim_headroom _ _ Hsim) Hroom _ n Hn) as [_ Hlr].
  assert (vote_request n (request_vote_request m) = m) as Hmsg.
  { unfold vote_request. rewrite Hcn, Hid. by apply Hplain. }
  destruct (HandleRequestVote_spec n _ Hw (proj1 Hmwf : (rvTerm (request_vote_request m) < _)%N))
    as ([[n' out] ans] & Hx2 & Hpost).
  rewrite Hx in Hx2. injection Hx2 as ->. cbn [fst snd] in *.
  destruct Hpost as (Hw' & -> & Hss & Hs & r & rej & Hstep & Hms & Hr & -> & _).
  rewrite Hmsg in Hstep, Hms.
  destruct (Step_vote_reply (n_raft n) m (nw_raft _ Hw) (proj1 Hmwf) Hty (nw_msgs _ Hw))
    as (r2 & Hr2 & Hwf & Hrid & _).
  rewrite Hstep in Hr2. injection Hr2 as <-.
  eapply (sim_advance s c (mTo m) n (EvDeliver m) (fun r => Step r m) r n'); try done.
  - by apply exec_deliver.
  - by eapply kept_synced; [..|split_and!; [done|apply Hss|left]].
  - apply Hss.
  - by right.
  - apply Hss.
  - by intros q ?%not_elem_of_nil.
  - intros q a [= -> ->]%list_elem_of_singleton. rewrite Hms. apply list_elem_of_singleton.
    unfold vote_reply. simpl. unfold request_vote_reply. simpl.
    rewrite negb_involutive, Hrid, (nw_id _ Hw), Hcn, Hid. done.
Qed.

(** A proposal that is refused changes nothing. *)
Lemma trace_refused c i n data :
  headroom c → nodes c !! i = Some (n_raft n) → node_wf n → state (n_raft n) ≠ Leader →
  trace c [(EntryCommand, data)] c.
Proof.
  intros Hroom Hr Hw Hl. apply (trace_one c (EvPropose i data)); [done|]. simpl. unfold at_node.
  rewrite Hr. cbn [seq_bind]. unfold Propose. rewrite decide_True by done. cbn [seq_bind snd].
  change (Some (put c i (drain (n_raft n)) (msgs (n_raft n))) = Some c). f_equal.
  rewrite (drain_id _ (nw_msgs _ Hw)), (nw_msgs _ Hw). by apply put_same.
Qed.

Lemma sim_propose s c i req n x :
  sim s c → headroom c → sys_nodes s !! i = Some n →
  HandlePropose n req = Some x → room (n_raft x.1.1) →
  ∃ c', trace c [(EntryCommand, pqData req)] c' ∧ sim (with_node s i x.1.1 x.1.2 []) c'.
Proof using Hsaves.
  intros Hsim Hroom Hn Hx Hroom'.
  destruct (sim_node _ _ Hsim _ n Hn) as (Hw & Hsy & Hcn & Hid & _).
  pose proof (proj2 (sim_headroom _ _ Hsim) Hroom _ n Hn) as [_ Hlr].
  pose proof (nw_raft _ Hw) as Hwf.
  destruct (decide (state (n_raft n) = Leader)) as [Hl|Hl].
  - destruct (HandlePropose_leader n req Hw Hlr Hl) as ([[n' out] oc] & Hx2 & Hpost).
    rewrite Hx in Hx2. injection Hx2 as ->. cbn [fst snd] in *.
    destruct Hpost as (Hw' & Hr & Hf & Hc & Hs & _ & _ & _ & ->).
    set (r' := proposed (n_raft n) (pqData req)) in *.
    set (r := with_msgs r' (heartbeat_to r' <$> peers (n_raft n))).
    assert (msgs r' = []) as Hm' by (apply (nw_msgs _ Hw)).
    destruct (Propose_returns (n_raft n) (pqData req) Hwf Hlr) as (pr & Hpr & Hwfp).
    rewrite Propose_eq, decide_False in Hpr by (tauto || apply Hwf || done).
    injection Hpr as <-. fold r' in Hwfp. fold r in Hwfp.
    eapply (sim_advance s c i n (EvPropose i (pqData req))
      (fun r => pr <- Propose r (pqData req);; Some pr.2) r n' _ [] []); try done.
    + cbv beta. rewrite Propose_eq, decide_False by (tauto || apply Hwf || done). done.
    + by eapply kept_synced; [..|split_and!; [done|done|left]].
    + right. split; [done|]. unfold r. by rewrite drain_with_msgs.
    + intros m Hm. unfold r. by rewrite msgs_with_msgs.
    + by intros q a ?%not_elem_of_nil.
  - destruct (HandlePropose_redirect n req Hl) as (n' & Hx2 & Hss & Hr & Hs).
    rewrite Hx in Hx2. injection Hx2 as ->. cbn [fst snd] in *.
    exists c. split; [apply (trace_refused c i n); try done; by rewrite (sim_raft _ _ Hsim), Hn|]. eapply sim_idle; try done.
    + by apply (kept_same n).
    + eapply kept_synced; [done|done|]. by apply kept_same.
    + apply Hss.
    + apply Hss.
Qed.

Lemma at_member_inv s i f s' :
  at_member s i f = Some s' →
  ∃ n x, sys_nodes s !! i = Some n ∧ f n = Some x ∧ s' = with_node s i x.1.1 x.1.2 x.2.
Proof.
  unfold at_member. intros Hat. inv_seq. injection Hat as <-. by exists a, a0.
Qed.

Lemma with_node_room s i n' out ans :
  sys_headroom (with_node s i n' out ans) → room (n_raft n').
Proof. intros Hroom. apply (Hroom i). simpl. apply lookup_insert_eq. Qed.

(** One critical section of a node, as some event of the system runs it. *)
Inductive handled (n : Node) : Node * list Message * list (Message * Answer) → Prop :=
  | h_tick x : onTick n = Some x → handled n (x, [])
  | h_serve m x : msg_wf m → serve m n = Some x → handled n x
  | h_answer m a x : msg_wf (answer_message m a) → take_answer m a n = Some x → handled n x
  | h_propose req x : HandlePropose n req = Some x → handled n (x.1, [])
  | h_read req : handled n ((HandleRead n req).1, [], []).

(** Every event of the system is a critical section of one member. *)
Lemma exec_handled s c e s' :
  sim s c → cluster_ok members c → plain_net c → sys_headroom s → sys_exec s e = Some s' →
  ∃ i n x, sys_nodes s !! i = Some n ∧ node_wf n ∧ log_room (n_raft n) ∧ handled n x ∧
    s' = with_node s i x.1.1 x.1.2 x.2.
Proof using Type.
  intros Hsim Hok Hp Hroom Hex.
  assert (∀ i f, at_member s i f = Some s' →
    (∀ n x, sys_nodes s !! i = Some n → f n = Some x → handled n x) →
    ∃ i n x, sys_nodes s !! i = Some n ∧ node_wf n ∧ log_room (n_raft n) ∧ handled n x ∧
      s' = with_node s i x.1.1 x.1.2 x.2) as Hat.
  { intros i f Hat Hf. apply at_member_inv in Hat as (n & x & Hn & Hx & ->).
    exists i, n, x. destruct (sim_node _ _ Hsim i n Hn) as (Hw & _).
    split_and!; [done|done|apply (Hroom i n Hn)|by apply Hf|done]. }
  destruct e as [i|m|m a|i req|i req]; simpl in Hex.
  - apply (Hat _ _ Hex). intros n x Hn Hx. inv_seq. injection Hx as <-. by apply h_tick.
  - case_decide as Hm; [|done]. apply (Hat _ _ Hex). intros n x Hn Hx.
    destruct (rpc_message s c m Hsim Hok Hp Hm) as (_ & Hwf & _). by eapply h_serve.
  - case_decide as Hm; [|done]. apply (Hat _ _ Hex). intros n x Hn Hx.
    destruct (ck_net _ _ Hok _ (sim_answers _ _ Hsim _ _ Hm)) as (_ & _ & _ & Hwf). by eapply h_answer.
  - apply (Hat _ _ Hex). intros n x Hn Hx. inv_seq. injection Hx as <-. by eapply h_propose.
  - apply (Hat _ _ Hex). intros n x Hn [= <-]. apply h_read.
Qed.

(** One event of the system is a run of the cluster that asks for the same. *)
Lemma sim_event s c e s' :
  sim s c → reachable_with_restarts members conf_of c → sys_headroom s → sys_headroom s' →
  sys_exec s e = Some s' → ∃ c', trace c (sys_asks e) c' ∧ sim s' c'.
Proof using Hmem Hcf Hsaves.
  intros Hsim Hre Hroom Hroom' Hex.
  destruct (reachable_ok c Hre) as [Hok Hp]. pose proof (proj1 (sim_headroom _ _ Hsim) Hroom) as Hrc.
  destruct e as [i|m|m a|i req|i req]; simpl in Hex.
  - apply at_member_inv in Hex as (n & x & Hn & Hx & ->). inv_seq. injection Hx as <-.
    destruct a as [n' out]. apply with_node_room in Hroom'. by eapply sim_tick.
  - case_decide as Hin; [|done]. apply at_member_inv in Hex as (n & x & Hn & Hx & ->).
    apply with_node_room in Hroom'. unfold serve in Hx.
    destruct (mType m) eqn:Hty; try done; inv_seq; injection Hx as <-; cbn [fst snd] in *.
    + by apply (sim_serve_vote s c m n a).
    + by apply (sim_serve_append s c m n a).
  - case_decide as Hin; [|done]. apply at_member_inv in Hex as (n & [[n' out] ans] & Hn & Hx & ->).
    apply with_node_room in Hroom'. by eapply sim_return.
  - apply at_member_inv in Hex as (n & x & Hn & Hx & ->). inv_seq. injection Hx as <-.
    apply with_node_room in Hroom'. by eapply sim_propose.
  - apply at_member_inv in Hex as (n & x & Hn & [= <-] & ->). cbn [fst snd].
    destruct (sim_node _ _ Hsim _ n Hn) as (Hw & Hsy & _).
    assert (same_service n (HandleRead n req).1 ∧ n_raft (HandleRead n req).1 = n_raft n ∧
      n_store (HandleRead n req).1 = n_store n) as (Hss & Hr & Hs)
      by (unfold HandleRead; cbv zeta; by repeat case_match).
    exists c. split; [apply trace_here|]. eapply sim_idle; try done.
    + by apply (kept_same n).
    + eapply kept_synced; [done|done|]. by apply kept_same.
    + apply Hss.
    + apply Hss.
Qed.

Lemma sim_step s c s' :
  sim s c → reachable_with_restarts members conf_of c → sys_step s s' →
  ∃ c', rtc step c c' ∧ sim s' c'.
Proof using Hmem Hcf Hsaves.
  intros Hsim Hre (Hroom & Hroom' & e & Hex).
  destruct (sim_event s c e s' Hsim Hre Hroom Hroom' Hex) as (c' & Hc%trace_steps & Hsim'). by exists c'.
Qed.

Lemma node_member c i r :
  cluster_ok members c → nodes c !! i = Some r → i ∈ members ∧ r_id r = i.
Proof.
  intros Hok Hr. destruct (ck_node _ _ Hok i r Hr) as [[_ (Hi & _) _] Hid]. by rewrite Hid in Hi.
Qed.

(** A restart of the system is a restart of the cluster. *)
Lemma sim_restart s c i s' :
  sim s c → cluster_ok members c → sys_restart s i = Some s' →
  ∃ c', restart conf_of c i = Some c' ∧ sim s' c'.
Proof using Hcf Hreads.
  intros Hsim Hok Hre. unfold sys_restart in Hre.
  destruct (sys_nodes s !! i) as [n|] eqn:Hn; [|done]. cbn [seq_bind] in Hre.
  assert (nodes c !! i = Some (n_raft n)) as Hr by (by rewrite (sim_raft _ _ Hsim), Hn).
  destruct (sim_node _ _ Hsim _ n Hn) as (Hw & Hsy & Hcn & Hid & _).
  destruct (node_member c i _ Hok Hr) as [Hi Hri]. pose proof (Hcf i Hi) as Hfc.
  pose proof (restart_config_wf members conf_of i (n_raft n) Hfc (rw_term _ (nw_raft _ Hw))) as Hwf.
  assert (ncTerm (n_cfg n) = 0%N) as Hcell by (rewrite Hcn; exact (fc_cell _ _ _ Hfc)).
  rewrite (NewNode_restart n Hreads Hsy Hcell), Hcn in Hre.
  change (node_raft_config (ncfg i) 0 "" []) with (conf_of i) in Hre.
  rewrite NewRaft_eq in Hre by done. cbn [seq_bind] in Hre. injection Hre as <-.
  unfold restart. rewrite Hr. cbn [seq_bind]. rewrite NewRaft_eq by done. cbn [seq_bind].
  eexists. split; [done|]. rewrite <- with_node_nil, <- (app_nil_r (net c)).
  eapply sim_update; try done.
  - split; simpl; [by apply started_wf|done|done|by split].
  - by rewrite lookup_insert_eq.
  - intros j Hj. by rewrite lookup_insert_ne.
  - by intros m a ?%not_elem_of_nil.
Qed.

Lemma sim_initial s : sys_initial s → ∃ c, initial members conf_of c ∧ sim s c.
Proof using Hcf Hreads.
  intros (Hrpc & Hans & Hnodes).
  exists (boot members conf_of). split.
  { apply boot_initial. intros i Hi. by eapply fresh_config_wf, Hcf. }
  destruct (boot_initial members conf_of) as (Hn & _ & _).
  { intros i Hi. by eapply fresh_config_wf, Hcf. }
  assert (∀ i, i ∈ members → node_config_ok (ncfg i)) as Hcok.
  { intros i Hi. split; [exact (fc_timeout _ _ _ (Hcf i Hi))|exact (fc_cell _ _ _ (Hcf i Hi))]. }
  split.
  - intros i. rewrite Hn. specialize (Hnodes i). case_decide as Hi; [|by rewrite Hnodes].
    destruct Hnodes as (db & n & Hdb & Hnew & ->).
    rewrite NewNode_fresh in Hnew by auto. injection Hnew as <-. simpl.
    apply NewRaft_eq. by eapply fresh_config_wf, Hcf.
  - intros i n Hi. specialize (Hnodes i). case_decide as Him; [|by rewrite Hnodes in Hi].
    destruct Hnodes as (db & n' & Hdb & Hnew & Hn'). rewrite Hi in Hn'. injection Hn' as <-.
    rewrite NewNode_fresh in Hnew by auto. injection Hnew as <-.
    destruct (fresh_node_wf (ncfg i) db (Hcok i Him) Hdb) as [Hw Hsy].
    split_and!; try done. exact (fc_id _ _ _ (Hcf i Him)).
  - rewrite Hrpc. by intros m ?%not_elem_of_nil.
  - rewrite Hans. by intros m a ?%not_elem_of_nil.
Qed.

Lemma sim_run s0 c0 s :
  sim s0 c0 → reachable members conf_of c0 → rtc sys_step s0 s →
  ∃ c, rtc step c0 c ∧ reachable members conf_of c ∧ sim s c.
Proof using Hmem Hcf Hsaves.
  intros Hsim Hre Hs. revert c0 Hsim Hre. induction Hs as [s|s s1 s2 H01 _ IH].
  { intros c0 Hsim Hre. by exists c0. }
  intros c0 Hsim Hre.
  destruct (sim_step s c0 s1 Hsim) as (c1 & Hc1 & Hsim1); [by apply reachable_restarts|done|].
  destruct (IH c1 Hsim1) as (c & Hc & Hrest).
  { destruct Hre as (c & Hi & Hr). exists c. split; [done|]. by trans c0. }
  exists c. split; [by trans c1|done].
Qed.

Lemma sim_trace s0 c0 qs s :
  sim s0 c0 → reachable members conf_of c0 → sys_trace s0 qs s →
  ∃ c, trace c0 qs c ∧ sim s c.
Proof using Hmem Hcf Hsaves.
  intros Hsim Hre Hs. revert c0 Hsim Hre. induction Hs as [s|s e s1 qs s2 Hr Hr1 Hex _ IH].
  { intros c0 Hsim Hre. exists c0. split; [apply trace_here|done]. }
  intros c0 Hsim Hre.
  destruct (sim_event s c0 e s1 Hsim) as (c1 & Hc1 & Hsim1); [by apply reachable_restarts|done..|].
  destruct (IH c1 Hsim1) as (c & Hc & Hsim2).
  { destruct Hre as (c & Hi & Hr0). exists c. split; [done|]. trans c0; [done|by eapply trace_steps]. }
  exists c. split; [by eapply trace_app|done].
Qed.

Lemma sim_step_or_restart s c s' :
  sim s c → reachable_with_restarts members conf_of c → sys_step_or_restart s s' →
  ∃ c', rtc (step_or_restart conf_of) c c' ∧ sim s' c'.
Proof using Hmem Hcf Hsaves Hreads.
  intros Hsim Hre [Hst|(Hroom & i & Hst)].
  - destruct (sim_step s c s' Hsim Hre Hst) as (c' & Hc & Hsim'). exists c'. split; [|done].
    by apply steps_restarts.
  - destruct (sim_restart s c i s' Hsim) as (c' & Hc & Hsim'); [by apply reachable_ok|done|].
    exists c'. split; [|done]. apply rtc_once. right. split; [|by exists i].
    by apply (sim_headroom s).
Qed.

Lemma sim_run_restarts s0 c0 s :
  sim s0 c0 → reachable_with_restarts members conf_of c0 → rtc sys_step_or_restart s0 s →
  ∃ c, reachable_with_restarts members conf_of c ∧ sim s c.
Proof using Hmem Hcf Hsaves Hreads.
  intros Hsim Hre Hs. revert c0 Hsim Hre. induction Hs as [s|s s1 s2 H01 _ IH]; [by eauto|].
  intros c0 Hsim Hre.
  destruct (sim_step_or_restart s c0 s1 Hsim Hre H01) as (c1 & Hc1 & Hsim1).
  apply (IH c1); [done|]. destruct Hre as (c & Hi & Hr). exists c. split; [done|]. by trans c0.
Qed.

Lemma sys_initial_sim s0 :
  sys_initial s0 → ∃ c0, reachable members conf_of c0 ∧ sim s0 c0.
Proof using Hcf Hreads.
  intros Hini. destruct (sim_initial s0 Hini) as (c0 & Hc0 & Hsim). exists c0.
  split; [|done]. by exists c0.
Qed.
End simulation.

(** ** Theorems *)

Section theorems.
Context (members : gset string) (ncfg : string → NodeConfig).
Context (Hmo : membership_ok members (conf_of ncfg)).
Context (Hsaves : saves_ok) (Hreads : reads_ok).

(** C9: the composed system of nodes, RPCs, databases and key-value stores
    refines the cluster of Raft state machines: whatever state it reaches, a
    reachable state of the cluster has the same state machines, a network that
    holds every RPC and every answer, and hands out the commands whose replay
    is each node's store.  So it is with crashes and restarts, if the cluster
    may restart too. *)
Theorem system_refines_cluster s0 s :
  sys_initial members ncfg s0 →
  (rtc sys_step s0 s →
   ∃ c, reachable members (conf_of ncfg) c ∧ sim ncfg s c) ∧
  (rtc sys_step_or_restart s0 s →
   ∃ c, reachable_with_restarts members (conf_of ncfg) c ∧ sim ncfg s c).
Proof using Hmo Hsaves Hreads.
  intros Hini. destruct Hmo as [Hmem Hcf].
  destruct (sys_initial_sim members ncfg Hcf Hreads s0 Hini) as (c0 & Hre & Hsim).
  split; intros Hs.
  - destruct (sim_run members ncfg Hmem Hcf Hsaves s0 c0 s Hsim Hre Hs) as (c & _ & ?). by exists c.
  - apply (sim_run_restarts members ncfg Hmem Hcf Hsaves Hreads s0 c0); [done| |done].
    by apply reachable_restarts.
Qed.

(** In a run of the composed system without crashes, the key-value
    stores of any two nodes are states of one history: the store of the node
    that has applied more is the replay of further entries on the store of the
    other, and nodes that have applied equally much hold equal stores. *)
Theorem replicas_agree s0 s i j n1 n2 :
  sys_initial members ncfg s0 → rtc sys_step s0 s →
  sys_nodes s !! i = Some n1 → sys_nodes s !! j = Some n2 →
  (lastApplied (n_raft n1) ≤ lastApplied (n_raft n2))%N →
  (∃ rest, n_fsm n2 = replay (n_fsm n1) rest) ∧
  (lastApplied (n_raft n1) = lastApplied (n_raft n2) → n_fsm n1 = n_fsm n2).
Proof using Hmo Hsaves Hreads.
  intros Hini Hs H1 H2 Hle. destruct Hmo as [Hmem Hcf].
  destruct (sys_initial_sim members ncfg Hcf Hreads s0 Hini) as (c0 & Hre0 & Hsim0).
  destruct (sim_run members ncfg Hmem Hcf Hsaves s0 c0 s Hsim0 Hre0 Hs) as (c & _ & Hre & Hsim).
  destruct (reachable_inv members (conf_of ncfg) Hmem Hcf c Hre) as (ll & h & Inv & Hap).
  destruct (sim_node _ _ _ Hsim i n1 H1) as (_ & _ & _ & _ & ->).
  destruct (sim_node _ _ _ Hsim j n2 H2) as (_ & _ & _ & _ & ->).
  assert (nodes c !! i = Some (n_raft n1)) as Hr1 by (by rewrite (sim_raft _ _ _ Hsim), H1).
  assert (nodes c !! j = Some (n_raft n2)) as Hr2 by (by rewrite (sim_raft _ _ _ Hsim), H2).
  pose proof (applied_count _ _ _ _ _ _ Inv Hap Hr1) as Hl1.
  pose proof (applied_count _ _ _ _ _ _ Inv Hap Hr2) as Hl2.
  assert (applied_of c i `prefix_of` applied_of c j) as [rest Hrest].
  { destruct (applied_comparable _ _ _ _ _ _ _ _ Inv Hap Hr1 Hr2) as [Hp|Hp]; [done|].
    rewrite (prefix_length_eq _ _ Hp) by lia. done. }
  rewrite Hrest in *. split.
  - exists rest. unfold replay. by rewrite foldl_app.
  - intros Heq. rewrite length_app in Hl2. assert (rest = []) as ->; [|by rewrite app_nil_r].
    destruct rest; [done|simpl in Hl2; lia].
Qed.
End theorems.

End system.
