(* ===== verification/SystemRuns.v ===== *)
(** * A concrete system

    Three nodes on empty databases: "a" is elected over RPCs, replicates a
    command to "b", and both apply it; then "a" crashes and starts again.  The
    witnesses of the theorems of [System]. *)

From S2P Require Import Prelude Pb Raft RaftWf Cluster ClusterTrans Sample Kv Storage Metrics Node NodeSpec NodeRuns System.

Import SampleStore.

Definition trio_cfg (i : string) : NodeConfig :=
  mkNodeConfig i (filter (fun p => p ≠ i) ["a"; "b"; "c"]) 5 2 0.

Lemma trio_cfg_fresh i : i ∈ trio → fresh_config trio i (conf_of trio_cfg i).
Proof.
  intros Hi. pose proof (trio_fresh i Hi) as H. by destruct H; split.
Qed.

Lemma trio_cfg_membership : membership_ok trio (conf_of trio_cfg).
Proof. split; [apply trio_membership|exact trio_cfg_fresh]. Qed.

Definition sys0 : System :=
  mkSystem (set_to_map (fun i => (i, fresh_node (trio_cfg i) empty_db)) trio) [] [].

(** The [k]-th RPC reaches its target; the [k]-th answer reaches the caller. *)
Definition serve_rpc (k : nat) (s : System) : SystemEvent :=
  match sys_rpcs s !! k with Some m => SyServe m | None => SyTick "" end.

Definition return_answer (k : nat) (s : System) : SystemEvent :=
  match sys_answers s !! k with Some (m, a) => SyReturn m a | None => SyTick "" end.

Definition tick_a (n : nat) : list (System → SystemEvent) := replicate n (fun _ => SyTick "a").

(** Node "a" wins term 1, accepts [x := 1], replicates it to "b", and tells
    "b" that it is committed; "c" has heard of nothing. *)
Definition replicate_x : list (System → SystemEvent) :=
  tick_a 10 ++ [serve_rpc 0; return_answer 0;
    (fun _ => SyPropose "a" (mkProposeRequest (set_cmd "x" "1"))); serve_rpc 4; return_answer 1] ++
  tick_a 2 ++ [serve_rpc 6].

Definition sys1 : System := default sys0 (sys_play sys0 replicate_x).

Definition sys2 : System := default sys1 (sys_restart sys1 "a").

Lemma sys0_initial : sys_initial trio trio_cfg sys0.
Proof.
  split_and!; [done|done|]. intros i. unfold sys0. cbn [sys_nodes]. case_decide as Hi.
  - exists empty_db, (fresh_node (trio_cfg i) empty_db).
    split_and!; [exact empty_db_fresh|apply NewNode_fresh|].
    + exact sample_reads.
    + by split.
    + exact empty_db_fresh.
    + apply lookup_set_to_map; [done|]. by exists i.
  - apply eq_None_not_Some. intros [n Hn]. apply lookup_set_to_map in Hn as (j & Hj & [= -> _]); done.
Qed.

Lemma sys_steps : rtc sys_step sys0 sys1 ∧ sys_step_or_restart sys1 sys2.
Proof.
  assert (is_Some (sys_play sys0 replicate_x)) as [s Hs]
    by (apply (bool_decide_unpack (is_Some _)); by vm_compute).
  split.
  - unfold sys1. rewrite Hs. apply (sys_play_steps _ replicate_x); [|done].
    apply (bool_decide_unpack _). by vm_compute.
  - right. split; [apply (bool_decide_unpack _); by vm_compute|]. exists "a". unfold sys2.
    assert (is_Some (sys_restart sys1 "a")) as [s' ->]
      by (apply (bool_decide_unpack (is_Some _)); by vm_compute).
    done.
Qed.

(** ** The witnesses *)

Lemma system_refines_cluster_witness :
  (∃ c, reachable trio (conf_of trio_cfg) c ∧ sim trio_cfg sys1 c) ∧
  (∃ c, reachable_with_restarts trio (conf_of trio_cfg) c ∧ sim trio_cfg sys2 c).
Proof.
  destruct sys_steps as [H01 H12]. split.
  - apply (system_refines_cluster trio trio_cfg trio_cfg_membership sample_saves sample_reads
      sys0 sys1 sys0_initial). exact H01.
  - apply (system_refines_cluster trio trio_cfg trio_cfg_membership sample_saves sample_reads
      sys0 sys2 sys0_initial).
    eapply rtc_r; [|exact H12]. eapply rtc_subrel; [|exact H01]. intros x y. by left.
Defined.

Lemma sys1_stores :
  (fun n => (lastApplied (n_raft n), Get (n_fsm n) "x")) <$> sys_nodes sys1 !! "a" =
    Some (2%N, ("1", true)) ∧
  (fun n => (lastApplied (n_raft n), Get (n_fsm n) "x")) <$> sys_nodes sys1 !! "b" =
    Some (2%N, ("1", true)) ∧
  (fun n => (lastApplied (n_raft n), Get (n_fsm n) "x")) <$> sys_nodes sys1 !! "c" =
    Some (0%N, ("", false)).
Proof. split_and!; by vm_compute. Qed.

(** The stores of "a" and "b" are equal, and that of "c" is behind. *)
Lemma replicas_agree_witness :
  ∃ na nb nc, sys_nodes sys1 !! "a" = Some na ∧ sys_nodes sys1 !! "b" = Some nb ∧
    sys_nodes sys1 !! "c" = Some nc ∧ n_fsm na = n_fsm nb ∧
    (∃ rest, n_fsm na = replay (n_fsm nc) rest) ∧ Get (n_fsm na) "x" = ("1", true).
Proof.
  destruct sys_steps as [H01 _]. destruct sys1_stores as (Ha & Hb & Hc).
  apply fmap_Some in Ha as (na & Hna & Ha), Hb as (nb & Hnb & Hb), Hc as (nc & Hnc & Hc).
  injection Ha as Ha Hx. injection Hb as Hb _. injection Hc as Hc _.
  exists na, nb, nc. split; [done|]. split; [done|]. split; [done|]. split; [|split; [|symmetry; exact Hx]].
  - eapply (replicas_agree trio trio_cfg trio_cfg_membership sample_saves sample_reads
      sys0 sys1 "a" "b" na nb sys0_initial H01 Hna Hnb); [by rewrite <- Ha, <- Hb|by rewrite <- Ha, <- Hb].
  - eapply (replicas_agree trio trio_cfg trio_cfg_membership sample_saves sample_reads
      sys0 sys1 "c" "a" nc na sys0_initial H01 Hnc Hna). by rewrite <- Ha, <- Hc.
Defined.
