(* ===== verification/StaleReads.v ===== *)
(** * A read that is stale

    Three nodes that tick in lockstep.  "a" leads and renews its lease with "b"
    in every heartbeat interval, while "c" hears nothing, calls an election of
    a higher term, wins it with the vote of "b", and commits a new value: "a"
    still serves the old one. *)

From S2P Require Import Prelude Pb Raft RaftWf Cluster ClusterTrans Sample Kv Storage Metrics Node NodeSpec NodeRuns System SystemRuns.

Import SampleStore.

(** ** Schedules by name *)

Definition newest {A} (P : A → Prop) `{∀ x, Decision (P x)} (xs : list A) : option A :=
  last (filter P xs).

(** The latest RPC from [i] to [j] reaches [j]; the latest answer to such an
    RPC reaches [i]. *)
Definition serve_newest (i j : string) (s : System) : SystemEvent :=
  match newest (fun m => mFrom m = i ∧ mTo m = j) (sys_rpcs s) with
  | Some m => SyServe m
  | None => SyTick ""
  end.

Definition return_newest (i j : string) (s : System) : SystemEvent :=
  match newest (fun x => mFrom x.1 = i ∧ mTo x.1 = j) (sys_answers s) with
  | Some (m, a) => SyReturn m a
  | None => SyTick ""
  end.

(** One whole RPC from [i] to [j]. *)
Definition call (i j : string) : list (System → SystemEvent) :=
  [serve_newest i j; return_newest i j].

(** Every node ticks once. *)
Definition tick_all : list (System → SystemEvent) :=
  (fun i _ => SyTick i) <$> ["a"; "b"; "c"].

Definition client_set (i k v : string) : System → SystemEvent :=
  fun _ => SyPropose i (mkProposeRequest (set_cmd k v)).

Definition repeat_schedule (n : nat) (es : list (System → SystemEvent)) : list (System → SystemEvent) :=
  concat (replicate n es).

(** Node "a" wins term 1 at the fifth tick and commits [x := 1] on all. *)
Definition write_one : list (System → SystemEvent) :=
  repeat_schedule 5 tick_all ++ call "a" "b" ++ call "a" "b" ++ call "a" "c" ++
  [client_set "a" "x" "1"] ++ call "a" "b" ++ call "a" "c".

(** Nothing reaches "c" any more; every second tick "a" renews its lease with
    "b".  At the fifth tick "c" times out. *)
Definition renew_lease : list (System → SystemEvent) :=
  repeat_schedule 2 (tick_all ++ tick_all ++ call "a" "b") ++ tick_all.

(** Before the next tick, "c" wins term 2 with the vote of "b" and commits
    [x := 2] with it. *)
Definition write_two : list (System → SystemEvent) :=
  call "c" "b" ++ call "c" "b" ++ [client_set "c" "x" "2"] ++ call "c" "b".

(** ** The run *)

Definition set_committed (n : Node) (ch : nat) : option (unit + ProposeResponse) :=
  await (n_chans n) ch DoneClosed.

(** What a client that reads "x" from [n] is told. *)
Definition told (n : Node) : ReadResponse := read_answer n (mkReadRequest "x").

(** The role, term and lease of a node, and its stickiness. *)
Definition role (n : Node) : NodeState * N * bool :=
  (state (n_raft n), currentTerm (n_raft n), HasLeaderQuorum (n_raft n)).

Definition sticky (n : Node) : bool :=
  leaderActive (n_raft n) && bool_decide (electionElapsed (n_raft n) < electionTimeout (n_raft n))%Z.

Definition sys_leased : System := default sys0 (sys_play sys0 (write_one ++ renew_lease)).
Definition sys_stale : System := default sys_leased (sys_play sys_leased write_two).

(** The two requests of the run. *)
Definition ask_one : list (EntryType * bytes) := [(EntryCommand, set_cmd "x" "1")].
Definition ask_two : list (EntryType * bytes) := [(EntryCommand, set_cmd "x" "2")].

Lemma sys_leased_trace : sys_trace sys0 ask_one sys_leased.
Proof.
  assert (is_Some (sys_play sys0 (write_one ++ renew_lease))) as [s Hs]
    by (apply (bool_decide_unpack (is_Some _)); by vm_compute).
  assert (ask_one = play_asks sys0 (write_one ++ renew_lease)) as -> by (by vm_compute).
  unfold sys_leased. rewrite Hs. apply (sys_play_trace _ (write_one ++ renew_lease)); [|done].
  apply (bool_decide_unpack _). by vm_compute.
Qed.

Lemma sys_stale_trace : sys_trace sys_leased ask_two sys_stale.
Proof.
  assert (is_Some (sys_play sys_leased write_two)) as [s Hs]
    by (apply (bool_decide_unpack (is_Some _)); by vm_compute).
  assert (ask_two = play_asks sys_leased write_two) as -> by (by vm_compute).
  unfold sys_stale. rewrite Hs. apply (sys_play_trace _ write_two); [|done].
  apply (bool_decide_unpack _). by vm_compute.
Qed.

Lemma sys_leased_steps : rtc sys_step sys0 sys_leased.
Proof. exact (sys_trace_steps _ _ _ sys_leased_trace). Qed.

Lemma sys_stale_steps : rtc sys_step sys_leased sys_stale.
Proof. exact (sys_trace_steps _ _ _ sys_stale_trace). Qed.

(** C14: reads are not linearizable.  There is a run without crashes, in which
    all nodes tick equally often, to a state in which the client of [x := 2] has
    been told of its success by "c", the leader of term 2, and a client that
    then reads "x" from "a" is served the old value 1: "a" still passes
    [HasLeaderQuorum], with an acknowledgement of its current heartbeat interval
    from "b".  Before "b" voted for "c" it had heard from "a" within its election
    timeout, so leader stickiness did not hold it back. *)
Theorem leased_read_is_stale :
  rtc sys_step sys0 sys_leased ∧ rtc sys_step sys_leased sys_stale ∧
  (∃ b, sys_nodes sys_leased !! "b" = Some b ∧ sticky b = true) ∧
  ∃ a c, sys_nodes sys_stale !! "a" = Some a ∧ sys_nodes sys_stale !! "c" = Some c ∧
    role a = (Leader, 1%N, true) ∧ role c = (Leader, 2%N, true) ∧
    set_committed c 0 = Some (inr (mkProposeResponse true "" "")) ∧
    told c = mkReadResponse "2" true "" "" ∧ told a = mkReadResponse "1" true "" "".
Proof.
  split; [exact sys_leased_steps|]. split; [exact sys_stale_steps|]. split.
  - assert (sticky <$> sys_nodes sys_leased !! "b" = Some true) as H by (by vm_compute).
    apply fmap_Some in H as (b & Hb & H). exists b. split; [exact Hb|symmetry; exact H].
  - assert ((fun n => (role n, told n)) <$> sys_nodes sys_stale !! "a" =
      Some (Leader, 1%N, true, mkReadResponse "1" true "" "")) as H by (by vm_compute).
    apply fmap_Some in H as (a & Ha & H).
    assert ((fun n => (role n, told n, set_committed n 0)) <$> sys_nodes sys_stale !! "c" =
      Some (Leader, 2%N, true, mkReadResponse "2" true "" "",
            Some (inr (mkProposeResponse true "" "")))) as H' by (by vm_compute).
    apply fmap_Some in H' as (c & Hc & H'). exists a, c.
    injection H as Hs Ht Hq Hv. injection H' as Hs' Ht' Hq' Hv' Hw'.
    split; [exact Ha|]. split; [exact Hc|]. unfold role. rewrite <- Hs, <- Ht, <- Hq, <- Hs', <- Ht', <- Hq'.
    split; [reflexivity|]. split; [reflexivity|]. split; [symmetry; exact Hw'|].
    split; symmetry; assumption.
Qed.
