(* ===== verification/CurrentReads.v ===== *)
(** * When a read is current

    The positive side of [StaleReads]: a leader that has committed an entry of
    its own term, while no node is in a later term, answers reads from a store
    that is ahead of every other store.  The handlers hand out committed
    entries in the critical section that commits them, so that no committed
    entry is missing from the store when the lock is free. *)

From S2P Require Import Prelude Pb Raft RaftWf Cluster ClusterTrans Sample Election LogInv LogSafety Lease Kv Storage Metrics Node NodeSpec NodeRuns System SystemRuns StaleReads.

(** Everything committed has been handed out. *)
Definition caught_up (r : Raft) : Prop := lastApplied r = commitIndex r.

Definition commit_inside (r : Raft) : Prop :=
  (lastApplied r ≤ commitIndex r)%N ∧ N.to_nat (commitIndex r) < length (log r).

Lemma hand_out r es r' :
  log_wf (log r) → ApplicableEntries r = Some (es, r') → commit_inside r' → caught_up r'.
Proof.
  intros Hwf. rewrite ApplicableEntries_eq by done. unfold caught_up, commit_inside.
  case_decide as Hd; intros [= _ <-]; unfold apply_end in *; simpl in *; lia.
Qed.

(** ** What handlers do to the two indices *)

Section indices.
Context {GR : GoRand}.

Definition same_indices (r r' : Raft) : Prop :=
  commitIndex r' = commitIndex r ∧ lastApplied r' = lastApplied r.

Lemma becomeCandidate_indices r r' :
  raft_wf r → log_room r → becomeCandidate r = Some r' → same_indices r r'.
Proof.
  intros Hwf Hroom. rewrite becomeCandidate_eq by (done || apply Hwf). cbv zeta.
  intros [= <-]. by destruct (quorum (candidate_of r)).
Qed.

Lemma becomeLeader_indices r r' :
  log_wf (log r) → log_room r → becomeLeader r = Some r' → same_indices r r'.
Proof. intros Hwf Hroom. rewrite becomeLeader_eq by done. by intros [= <-]. Qed.

Lemma stepped_indices r m : same_indices r (stepped r m).
Proof. unfold stepped. by destruct (raises_term r m). Qed.

Lemma handleRequestVoteResp_indices r m r' :
  raft_wf r → log_room r → handleRequestVoteResp r m = Some r' → same_indices r r'.
Proof.
  intros Hwf Hroom Hs. unfold handleRequestVoteResp in Hs.
  case_decide; [by simplify_eq|]. destruct (mIsPreVote m).
  - inv_seq. cbv zeta in Hs. case_decide; [|by simplify_eq].
    assert (raft_wf (r <| preVotes := a |>)) as Hwf1 by wf_same.
    exact (becomeCandidate_indices (r <| preVotes := a |>) r' Hwf1 Hroom Hs).
  - case_decide; [by simplify_eq|]. inv_seq. destruct (quorum _); [|by simplify_eq].
    exact (becomeLeader_indices (r <| votes := a |>) r' (rw_log _ Hwf) Hroom Hs).
Qed.

Lemma vote_indices r m r' :
  raft_wf r → log_room r → msg_wf m → mType m = MsgRequestVote ∨ mType m = MsgRequestVoteResp →
  Step r m = Some r' → same_indices r r'.
Proof.
  intros Hwf Hroom Hm Hty Hs. rewrite Step_eq in Hs by apply Hwf.
  pose proof (stepped_wf r m Hwf (proj1 Hm)) as Hwf1. pose proof (stepped_indices r m) as [Hc Hl].
  assert (same_indices (stepped r m) r') as [? ?]; [|split; congruence].
  assert (log_room (stepped r m)) as Hroom1 by (unfold log_room; by rewrite stepped_log).
  unfold handle in Hs. destruct Hty as [Hty|Hty]; rewrite Hty in Hs.
  - rewrite handleRequestVote_eq in Hs by apply Hwf1. injection Hs as <-. by repeat case_match.
  - by apply (handleRequestVoteResp_indices _ m).
Qed.
End indices.

(** ** Handlers leave nothing to hand out *)

Section system.
Context {GR : GoRand} {CJ : CommandJson} {B : Badger} {EJ : EntryJson}.

Lemma apply_and_finish_caught_up n r n' out :
  raft_wf r → chans_ok n → apply_and_finish n r = Some (n', out) →
  commit_inside (n_raft n') → caught_up (n_raft n').
Proof.
  intros Hwf Hch Hf Hin. unfold apply_and_finish in Hf.
  destruct (apply_step n r Hwf Hch) as (n1 & Hn1 & es & Ha & _ & _ & _).
  rewrite Hn1 in Hf. cbn [seq_bind] in Hf. pose proof (finish_eq n1) as Hfin.
  destruct (dispatchMessages (persistState n1)) as [n2 out2]. destruct Hfin as (_ & Hr2 & _).
  injection Hf as <- _. rewrite Hr2 in *. by apply (hand_out r es (n_raft n1)); [apply Hwf|..].
Qed.

(** A node that is moved by a vote message. *)
Lemma moved_caught_up n m r n' out :
  raft_wf (n_raft n) → log_room (n_raft n) → msg_wf m →
  mType m = MsgRequestVote ∨ mType m = MsgRequestVoteResp → Step (n_raft n) m = Some r →
  moved n r n' out → commit_inside (n_raft n') → caught_up (n_raft n) → caught_up (n_raft n').
Proof.
  intros Hwf Hroom Hm Hty Hs (_ & _ & _ & _ & es & Happ & _) Hin Hup.
  destruct (Step_returns _ _ Hwf Hroom Hm) as (r2 & Hr2 & Hwf2). rewrite Hs in Hr2. injection Hr2 as <-.
  destruct Happ as [Happ|[_ ->]].
  - by apply (hand_out (drain r) es); [apply Hwf2|..].
  - destruct (vote_indices _ _ _ Hwf Hroom Hm Hty Hs) as [Hc Hl].
    unfold caught_up. simpl. congruence.
Qed.

Lemma onTick_caught_up n n' out :
  node_wf n → log_room (n_raft n) → onTick n = Some (n', out) →
  commit_inside (n_raft n') → caught_up (n_raft n').
Proof.
  intros [Hwf _ _ Hch] Hroom Ht. destruct (Tick_returns _ Hwf Hroom) as (r & Hr & Hwfr).
  assert (onTick n = apply_and_finish n r) as Heq by (unfold onTick; by rewrite Hr).
  rewrite Heq in Ht. by apply (apply_and_finish_caught_up n r _ out).
Qed.

Lemma take_answer_caught_up n m a x :
  node_wf n → log_room (n_raft n) → msg_wf (answer_message m a) → take_answer m a n = Some x →
  commit_inside (n_raft x.1.1) → caught_up (n_raft n) → caught_up (n_raft x.1.1).
Proof.
  intros Hw Hroom Hm Ht Hin Hup. pose proof Hw as [Hwf _ _ Hch]. unfold take_answer in Ht.
  inv_seq. injection Ht as <-. destruct a0 as [n' out]. cbn [fst] in *.
  destruct a as [resp|resp]; cbn [answer_message] in *.
  - destruct (Step_returns _ _ Hwf Hroom Hm) as (r & Hr & Hwfr).
    assert (sendAppendEntries_done n m (Some resp) = apply_and_finish n r) as Heq
      by (unfold sendAppendEntries_done; by rewrite Hr).
    rewrite Heq in Hm0. by apply (apply_and_finish_caught_up n r _ out).
  - destruct (sendRequestVote_done_spec n m resp Hw Hroom (proj1 Hm)) as (r & Hr & [n2 out2] & Hs & Hmv).
    rewrite Hs in Hm0. injection Hm0 as -> ->.
    apply (moved_caught_up n (request_vote_reply m resp) r n' out); try done. by right.
Qed.

Lemma serve_caught_up n m x :
  node_wf n → log_room (n_raft n) → msg_wf m → serve m n = Some x →
  commit_inside (n_raft x.1.1) → caught_up (n_raft n) → caught_up (n_raft x.1.1).
Proof.
  intros Hw Hroom Hm Hs Hin Hup. pose proof (nw_raft _ Hw) as Hwf. unfold serve in Hs.
  destruct (mType m) eqn:Hty; try done; inv_seq; injection Hs as <-; cbn [fst] in *.
  - destruct (HandleRequestVote_spec n (request_vote_request m) Hw (proj1 Hm)) as ([[n' out] ans] & Hx & Hpost).
    rewrite Hm0 in Hx. injection Hx as ->. cbn [fst] in *.
    destruct Hpost as (_ & _ & _ & _ & r & rej & Hstep & _ & Hr & _).
    assert (msg_wf (vote_request n (request_vote_request m))) as Hmv by (split; [apply Hm|done]).
    destruct (vote_indices _ _ _ Hwf Hroom Hmv (or_introl eq_refl) Hstep) as [Hc Hl].
    unfold caught_up. rewrite Hr. simpl. congruence.
  - assert (append_request_ok (append_entries_request m)) as Hreq.
    { split; [apply Hm|]. intros _. exact (proj2 Hm Hty). }
    destruct (HandleAppendEntries_spec n _ Hw Hreq) as ([[n' out] ans] & Hx & Hpost).
    rewrite Hm0 in Hx. injection Hx as ->. cbn [fst] in *.
    destruct Hpost as (_ & _ & _ & _ & r & es & rej & i & Hstep & _ & Happ & _).
    destruct (Step_returns _ _ Hwf Hroom Hreq) as (r2 & Hr2 & Hwf2).
    assert (Step (n_raft n) (append_request n (append_entries_request m)) = Some r2) as Hr2' by exact Hr2.
    rewrite Hstep in Hr2'. injection Hr2' as <-.
    by apply (hand_out (drain r) es); [apply Hwf2|..].
Qed.

Lemma propose_caught_up n req x :
  node_wf n → log_room (n_raft n) → HandlePropose n req = Some x →
  caught_up (n_raft n) → caught_up (n_raft x.1.1).
Proof.
  intros Hw Hroom Hp Hup. destruct (decide (state (n_raft n) = Leader)) as [Hl|Hl].
  - destruct (HandlePropose_leader n req Hw Hroom Hl) as ([[n' out] oc] & Hx & Hpost).
    rewrite Hp in Hx. injection Hx as ->. cbn [fst]. destruct Hpost as (_ & -> & _). exact Hup.
  - destruct (HandlePropose_redirect n req Hl) as (n' & Hx & _ & Hr & _).
    rewrite Hp in Hx. injection Hx as ->. cbn [fst]. by rewrite Hr.
Qed.

(** ** Runs of the system *)

Section runs.
Context (members : gset string) (ncfg : string → NodeConfig).
Context (Hmo : membership_ok members (conf_of ncfg)).
Context (Hsaves : saves_ok) (Hreads : reads_ok).

Definition sys_caught_up (s : System) : Prop :=
  ∀ i n, sys_nodes s !! i = Some n → caught_up (n_raft n).

(** The state of the system, with the cluster it simulates. *)
Definition sys_ok (s : System) : Prop :=
  sys_caught_up s ∧ ∃ c, reachable members (conf_of ncfg) c ∧ sim ncfg s c.

Lemma node_commit_inside s c i n :
  sim ncfg s c → reachable members (conf_of ncfg) c → sys_nodes s !! i = Some n →
  commit_inside (n_raft n).
Proof using Hmo.
  intros Hsim Hre Hn. destruct Hmo as [Hmem Hcf].
  destruct (reachable_inv members (conf_of ncfg) Hmem Hcf c Hre) as (ll & h & Inv & Hap).
  assert (nodes c !! i = Some (n_raft n)) as Hr by (by rewrite (sim_raft _ _ _ Hsim), Hn).
  split; [apply (Hap i _ Hr)|]. by eapply commit_term.
Qed.

(** The member that moves is caught up again. *)
Lemma handled_caught_up n x :
  node_wf n → log_room (n_raft n) → handled n x → commit_inside (n_raft x.1.1) →
  caught_up (n_raft n) → caught_up (n_raft x.1.1).
Proof using Type.
  intros Hw Hroom Hx Hin Hup.
  destruct Hx as [[n' out] Ht|m x Hm Hs|m a x Hm Hs|req x Hp|req]; cbn [fst] in *.
  - by apply (onTick_caught_up n n' out).
  - by apply (serve_caught_up n m).
  - by apply (take_answer_caught_up n m a).
  - by apply (propose_caught_up n req).
  - pose proof (read_outcome n req) as Hread. destruct (HandleRead n req) as [n' oc].
    destruct Hread as [Hr _]. cbn [fst]. by rewrite Hr.
Qed.

Lemma exec_caught_up s c e s' :
  sim ncfg s c → cluster_ok members c → plain_net c → sys_headroom s → sys_caught_up s →
  sys_exec s e = Some s' → (∀ i n, sys_nodes s' !! i = Some n → commit_inside (n_raft n)) →
  sys_caught_up s'.
Proof using Type.
  intros Hsim Hok Hp Hroom Hup Hex Hin.
  destruct (exec_handled members ncfg s c e s' Hsim Hok Hp Hroom Hex) as (i & n & x & Hn & Hw & Hlr & Hx & ->).
  intros j m. simpl. intros [[<- <-]|[_ Hm]]%lookup_insert_Some; [|by apply (Hup j)].
  apply (handled_caught_up n x Hw Hlr Hx); [|by apply (Hup i)].
  apply (Hin i). simpl. apply lookup_insert_eq.
Qed.

Lemma sys_ok_step s s' : sys_ok s → sys_step s s' → sys_ok s'.
Proof using Hmo Hsaves.
  intros (Hup & c & Hre & Hsim) Hst. destruct Hmo as [Hmem Hcf].
  destruct (sim_step members ncfg Hmem Hcf Hsaves s c s' Hsim) as (c' & Hc & Hsim');
    [by apply reachable_restarts|done|].
  assert (reachable members (conf_of ncfg) c') as Hre'.
  { destruct Hre as (c0 & Hi & H0). exists c0. split; [done|]. by trans c. }
  split; [|by exists c'].
  destruct (reachable_ok members ncfg Hmem Hcf c) as [Hok Hp]; [by apply reachable_restarts|].
  destruct Hst as (Hroom & _ & e & Hex). apply (exec_caught_up s c e s' Hsim Hok Hp Hroom Hup Hex).
  intros i n. by apply (node_commit_inside s' c').
Qed.

Lemma sys_ok_run s0 s : sys_initial members ncfg s0 → rtc sys_step s0 s → sys_ok s.
Proof using Hmo Hsaves Hreads.
  intros Hini Hs. pose proof Hmo as [Hmem Hcf].
  assert (sys_ok s0) as H0.
  { destruct (sys_initial_sim members ncfg Hcf Hreads s0 Hini) as (c0 & Hre & Hsim).
    split; [|by exists c0]. destruct Hini as (_ & _ & Hnodes). intros i n Hn.
    specialize (Hnodes i). case_decide as Hi; [|congruence].
    destruct Hnodes as (db & n' & Hdb & Hnew & Hn'). rewrite Hn in Hn'. injection Hn' as <-.
    rewrite NewNode_fresh in Hnew; [|done| |done].
    - by injection Hnew as <-.
    - split; [exact (fc_timeout _ _ _ (Hcf i Hi))|exact (fc_cell _ _ _ (Hcf i Hi))]. }
  clear Hini. induction Hs as [s|s s1 s2 H01 _ IH]; [done|]. apply IH. by eapply sys_ok_step.
Qed.

(** ** Theorem *)

(** The node leads, has committed an entry of its term, and no node is in a later
    term. *)
Definition sys_settled (s : System) (n : Node) : Prop :=
  state (n_raft n) = Leader ∧
  log_term (log (n_raft n)) (commitIndex (n_raft n)) = currentTerm (n_raft n) ∧
  ∀ j m, sys_nodes s !! j = Some m → (currentTerm (n_raft m) ≤ currentTerm (n_raft n))%N.

Lemma sys_settled_settled s c n :
  sim ncfg s c → sys_settled s n → settled c (n_raft n).
Proof using Type.
  intros Hsim (Hl & Htm & Htop). split_and!; [done|done|]. intros j r Hr.
  rewrite (sim_raft _ _ _ Hsim) in Hr. destruct (sys_nodes s !! j) as [m|] eqn:Hm; [|done].
  injection Hr as <-. by apply (Htop j).
Qed.

(** C13: reads of a settled leader are current.  In a run of the composed system
    without crashes, take a node that leads and has committed an entry of its own
    term while no node is in a later term.  Its store is the replay of its whole
    committed log; the store of any node is the replay of the first entries of
    that log, as many as the node has applied; and if the leader holds its lease,
    a read is answered with the value that its whole committed log gives to the
    key: every write that any node has applied, and so every write that any client
    was told of, is visible. *)
Theorem settled_reads_are_current s0 s i n :
  sys_initial members ncfg s0 → rtc sys_step s0 s → sys_nodes s !! i = Some n → sys_settled s n →
  let history := take (N.to_nat (commitIndex (n_raft n))) (drop 1 (log (n_raft n))) in
  n_fsm n = replay NewKV history ∧
  (∀ j m, sys_nodes s !! j = Some m →
     (lastApplied (n_raft m) ≤ commitIndex (n_raft n))%N ∧
     n_fsm m = replay NewKV (take (N.to_nat (lastApplied (n_raft m))) history)) ∧
  (HasLeaderQuorum (n_raft n) = true → ∀ key,
     read_answer n (mkReadRequest key) =
       let v := store_of (replay NewKV history) key in
       mkReadResponse (default "" v) (bool_decide (is_Some v)) "" "").
Proof using Hmo Hsaves Hreads.
  intros Hini Hs Hn Hset. cbv zeta.
  destruct (sys_ok_run s0 s Hini Hs) as (Hup & c & Hre & Hsim).
  assert (∀ j m, sys_nodes s !! j = Some m → nodes c !! j = Some (n_raft m)) as Hnode
    by (intros j m Hm; by rewrite (sim_raft _ _ _ Hsim), Hm).
  pose proof (sys_settled_settled s c n Hsim Hset) as Hset'.
  assert (∀ j m, sys_nodes s !! j = Some m →
    (lastApplied (n_raft m) ≤ commitIndex (n_raft n))%N ∧
    n_fsm m = replay NewKV (take (N.to_nat (lastApplied (n_raft m))) (drop 1 (log (n_raft n)))))
    as Hall.
  { intros j m Hm.
    destruct (settled_applied members (conf_of ncfg) c i (n_raft n) j (n_raft m) Hmo Hre (Hnode i n Hn) Hset'
      (Hnode j m Hm)) as (Hle & _ & Happ).
    destruct (sim_node _ _ _ Hsim j m Hm) as (_ & _ & _ & _ & ->). split; [lia|by rewrite Happ]. }
  assert (n_fsm n = replay NewKV (take (N.to_nat (commitIndex (n_raft n))) (drop 1 (log (n_raft n))))) as Hfsm
    by (rewrite <- (Hup i n Hn); by apply (Hall i)).
  split_and!; [done| |].
  - intros j m Hm. destruct (Hall j m Hm) as [Hle ->]. split; [done|]. rewrite take_take. do 2 f_equal. lia.
  - intros Hq key. rewrite read_answer_served by done. unfold read_value. by rewrite Get_store, Hfsm.
Qed.
End runs.
End system.

(** ** The witness *)

Import SampleStore.

(** Node "a" won term 1 and has committed [x := 1] on all three nodes. *)
Definition sys_written : System := default sys0 (sys_play sys0 write_one).

Lemma sys_written_steps : rtc sys_step sys0 sys_written.
Proof.
  assert (is_Some (sys_play sys0 write_one)) as [s Hs]
    by (apply (bool_decide_unpack (is_Some _)); by vm_compute).
  unfold sys_written. rewrite Hs. apply (sys_play_steps _ write_one); [|done].
  apply (bool_decide_unpack _). by vm_compute.
Qed.

#[export] Instance sys_settled_dec s n : Decision (sys_settled s n).
Proof.
  refine (cast_if (decide (state (n_raft n) = Leader ∧
    log_term (log (n_raft n)) (commitIndex (n_raft n)) = currentTerm (n_raft n) ∧
    map_Forall (fun _ m => (currentTerm (n_raft m) ≤ currentTerm (n_raft n))%N) (sys_nodes s))));
    unfold sys_settled; done.
Defined.

Lemma settled_reads_are_current_witness :
  ∃ n, sys_nodes sys_written !! "a" = Some n ∧ HasLeaderQuorum (n_raft n) = true ∧
    read_answer n (mkReadRequest "x") =
      let v := store_of (replay NewKV
        (take (N.to_nat (commitIndex (n_raft n))) (drop 1 (log (n_raft n))))) "x" in
      mkReadResponse (default "" v) (bool_decide (is_Some v)) "" "".
Proof.
  assert ((fun n => (bool_decide (sys_settled sys_written n), HasLeaderQuorum (n_raft n))) <$>
    sys_nodes sys_written !! "a" = Some (true, true)) as H by (by vm_compute).
  apply fmap_Some in H as (n & Hn & H). injection H as Hset Hq. symmetry in Hset, Hq.
  apply bool_decide_eq_true_1 in Hset. exists n. split; [exact Hn|]. split; [exact Hq|].
  destruct (settled_reads_are_current trio trio_cfg trio_cfg_membership sample_saves sample_reads
    sys0 sys_written "a" n sys0_initial sys_written_steps Hn Hset) as (_ & _ & Hread).
  exact (Hread Hq "x").
Defined.
