(* ===== verification/Acks.v ===== *)
(** * What an acknowledged proposal means

    [HandlePropose] waits on a channel that [applyCommitted] closes when it
    applies the index of the proposal.  The channel belongs to that index alone,
    so a success says that the index was applied; and as long as the node is in
    the term of the proposal, the entry at the index is the one proposed. *)

From S2P Require Import Prelude Pb Raft RaftWf Cluster ClusterTrans Sample Election LogInv LogSafety Lease Kv Storage Metrics Node NodeSpec NodeRuns System SystemRuns StaleReads CurrentReads.

(** The entries handed out end at [lastApplied]. *)
Lemma handed_index r es r' k :
  log_wf (log r) → ApplicableEntries r = Some (es, r') → k ∈ eIndex <$> es →
  (k ≤ lastApplied r')%N.
Proof.
  intros Hwf. rewrite ApplicableEntries_eq by done. case_decide as Hd; intros [= <- <-].
  { by intros ?%not_elem_of_nil. }
  intros (e & -> & He)%list_elem_of_fmap. apply list_elem_of_lookup in He as [j He].
  apply lookup_take_Some in He as [He Hj]. rewrite lookup_drop in He.
  rewrite (log_wf_index _ Hwf _ _ He). simpl. lia.
Qed.

(** ** What a critical section does to the waiting proposals *)

Section waiters.
Context {GR : GoRand} {CJ : CommandJson} {B : Badger} {EJ : EntryJson}.

(** The channels of [n] stay: none is registered at another index, and one is
    closed only when the index it waits for has been applied. *)
Record waiters_ok (n n' : Node) : Prop := {
  wt_length : length (n_chans n) ≤ length (n_chans n');
  wt_registered k ch : ch < length (n_chans n) →
    n_proposals n' !! k = Some ch → n_proposals n !! k = Some ch;
  wt_closed ch : ch < length (n_chans n) → n_chans n' !! ch = Some true →
    n_chans n !! ch = Some true ∨
    ∃ k, n_proposals n !! k = Some ch ∧ (k ≤ lastApplied (n_raft n'))%N
}.

Lemma waiters_same n n' :
  n_proposals n' = n_proposals n → n_chans n' = n_chans n → waiters_ok n n'.
Proof. intros Hp Hc. split; rewrite ?Hp, ?Hc; auto. Qed.

Lemma waiters_applied n r n1 n' :
  raft_wf r → chans_ok n → applyCommitted (n <| n_raft := r |>) = Some n1 →
  n_proposals n' = n_proposals n1 → n_chans n' = n_chans n1 →
  lastApplied (n_raft n') = lastApplied (n_raft n1) → waiters_ok n n'.
Proof.
  intros Hwf Hok Hap Hp Hc Hl. destruct (apply_step n r Hwf Hok) as (n2 & Hn2 & es & Ha & Hran & _ & _).
  rewrite Hap in Hn2. injection Hn2 as <-. destruct Hran as [_ _ _ _ _ Hpr Hcl Hk _ _].
  simpl in Hpr, Hcl, Hk.
  assert (∀ ch, (∃ k, n_proposals n !! k = Some ch ∧ k ∈ eIndex <$> es ∧ n_chans n1 !! ch = Some true) ∨
    n_chans n1 !! ch = n_chans n !! ch) as Hcase.
  { intros ch. destruct (decide (Exists (fun k => n_proposals n !! k = Some ch) (eIndex <$> es))) as [He|He].
    - apply Exists_exists in He as (k & Hin & Hreg). left. exists k. split_and!; [done|done|]. by eapply Hcl.
    - right. apply Hk. intros k Hin Hreg. apply He, Exists_exists. by exists k. }
  split; rewrite ?Hp, ?Hc, ?Hl.
  - destruct (length (n_chans n)) as [|l] eqn:Hlen; [lia|].
    apply (lookup_lt_is_Some_1 (n_chans n1) l).
    destruct (Hcase l) as [(k & _ & _ & Heq)|Heq]; rewrite Heq; [done|].
    apply lookup_lt_is_Some_2. lia.
  - intros k ch _. rewrite Hpr. by case_decide.
  - intros ch _ Htrue. destruct (Hcase ch) as [(k & Hreg & Hin & _)|Heq]; [right|left; congruence].
    exists k. split; [done|]. by apply (handed_index r es); [apply Hwf|..].
Qed.

Lemma apply_and_finish_waiters n r x :
  raft_wf r → chans_ok n → apply_and_finish n r = Some x → waiters_ok n x.1.
Proof.
  intros Hwf Hok Hf. unfold apply_and_finish in Hf.
  destruct (applyCommitted (n <| n_raft := r |>)) as [n1|] eqn:Hap; [|done]. cbn [seq_bind] in Hf.
  pose proof (finish_eq n1) as Hfin. destruct (dispatchMessages (persistState n1)) as [n2 out].
  destruct Hfin as ([_ _ Hp _ Hc] & Hr & _). injection Hf as <-. cbn [fst].
  apply (waiters_applied n r n1); try done. by rewrite Hr.
Qed.

Lemma onTick_waiters n x :
  node_wf n → log_room (n_raft n) → onTick n = Some x → waiters_ok n x.1.
Proof.
  intros [Hwf _ _ Hch] Hroom Ht. destruct (Tick_returns _ Hwf Hroom) as (r & Hr & Hwfr).
  assert (onTick n = apply_and_finish n r) as Heq by (unfold onTick; by rewrite Hr).
  rewrite Heq in Ht. by apply (apply_and_finish_waiters n r).
Qed.

Lemma take_answer_waiters n m a x :
  node_wf n → log_room (n_raft n) → msg_wf (answer_message m a) → take_answer m a n = Some x →
  waiters_ok n x.1.1.
Proof.
  intros [Hwf _ _ Hch] Hroom Hm Ht. unfold take_answer in Ht. inv_seq. injection Ht as <-. cbn [fst].
  destruct (Step_returns _ _ Hwf Hroom Hm) as (r & Hr & Hwfr).
  destruct a as [resp|resp]; cbn [answer_message] in *.
  - assert (sendAppendEntries_done n m (Some resp) = apply_and_finish n r) as Heq
      by (unfold sendAppendEntries_done; by rewrite Hr).
    rewrite Heq in Hm0. by apply (apply_and_finish_waiters n r).
  - unfold sendRequestVote_done in Hm0. rewrite Hr in Hm0. cbn [seq_bind] in Hm0.
    pose proof (finish_eq (n <| n_raft := r |>)) as Hfin. destruct (dispatchMessages _) as [n2 out].
    destruct Hfin as ([_ _ Hp _ Hc] & _). injection Hm0 as <-. by apply waiters_same.
Qed.

Lemma HandleAppendEntries_waiters n req x :
  node_wf n → log_room (n_raft n) → append_request_ok req →
  HandleAppendEntries n req = Some x → waiters_ok n x.1.1.
Proof.
  intros [Hwf _ _ Hch] Hroom Hreq Hx. unfold HandleAppendEntries in Hx. cbv zeta in Hx.
  destruct (Step_returns _ _ Hwf Hroom (append_request_msg req (ncID (n_cfg n)) Hreq)) as (r & Hr & Hwfr).
  rewrite Hr in Hx. cbn [seq_bind] in Hx.
  destruct (applyCommitted (n <| n_raft := r |>)) as [n1|] eqn:Hap; [|done]. cbn [seq_bind Messages] in Hx.
  destruct (append_entries_loop _ _ _ _) as [resp out]. injection Hx as <-. cbn [fst].
  by apply (waiters_applied n r n1).
Qed.

Lemma serve_waiters n m x :
  node_wf n → log_room (n_raft n) → msg_wf m → serve m n = Some x → waiters_ok n x.1.1.
Proof.
  intros Hw Hroom Hm Hs. unfold serve in Hs.
  destruct (mType m) eqn:Hty; try done; inv_seq; injection Hs as <-; cbn [fst].
  - destruct (HandleRequestVote_spec n (request_vote_request m) Hw (proj1 Hm)) as ([[n' out] ans] & Hx & Hpost).
    rewrite Hm0 in Hx. injection Hx as ->. destruct Hpost as (_ & _ & [_ _ Hp _ Hc] & _).
    by apply waiters_same.
  - apply (HandleAppendEntries_waiters n (append_entries_request m)); try done.
    split; [apply Hm|]. intros _. exact (proj2 Hm Hty).
Qed.

Lemma propose_waiters n req x :
  node_wf n → log_room (n_raft n) → HandlePropose n req = Some x → waiters_ok n x.1.1.
Proof.
  intros Hw Hroom Hp. destruct (decide (state (n_raft n) = Leader)) as [Hl|Hl].
  - destruct (HandlePropose_leader n req Hw Hroom Hl) as ([[n' out] oc] & Hx & Hpost).
    rewrite Hp in Hx. injection Hx as ->. cbn [fst].
    destruct Hpost as (_ & _ & _ & _ & _ & _ & Hpr & Hch & _). split; rewrite ?Hpr, ?Hch, ?length_app.
    + lia.
    + intros k ch Hlt [[_ <-]|[_ ?]]%lookup_insert_Some; [lia|done].
    + intros ch Hlt. rewrite lookup_app_l by done. by left.
  - destruct (HandlePropose_redirect n req Hl) as (n' & Hx & [_ _ Hpr _ Hch] & _).
    rewrite Hp in Hx. injection Hx as ->. by apply waiters_same.
Qed.

Lemma handled_waiters n x :
  node_wf n → log_room (n_raft n) → handled n x → waiters_ok n x.1.1.
Proof.
  intros Hw Hroom Hx. destruct Hx as [x Ht|m x Hm Hs|m a x Hm Hs|req x Hp|req]; cbn [fst].
  - by apply onTick_waiters.
  - by apply (serve_waiters n m).
  - by apply (take_answer_waiters n m a).
  - by apply (propose_waiters n req).
  - apply waiters_same; unfold HandleRead; cbv zeta; by repeat case_match.
Qed.
End waiters.

(** ** Runs *)

Section runs.
Context {GR : GoRand} {CJ : CommandJson} {B : Badger} {EJ : EntryJson}.
Context (members : gset string) (ncfg : string → NodeConfig).
Context (Hmo : membership_ok members (conf_of ncfg)).
Context (Hsaves : saves_ok) (Hreads : reads_ok).

(** Channel [ch] of the node waits for the index [k], and for no other. *)
Definition waits (n : Node) (ch : nat) (k : N) : Prop :=
  ch < length (n_chans n) ∧ (∀ k', n_proposals n !! k' = Some ch → k' = k) ∧
  (n_chans n !! ch = Some true → (k ≤ lastApplied (n_raft n))%N).

Lemma waits_step n n' ch k :
  waits n ch k → waiters_ok n n' → (lastApplied (n_raft n) ≤ lastApplied (n_raft n'))%N → waits n' ch k.
Proof using Type.
  intros (Hlt & Hreg & Hcl) [Hlen Hr Hc] Hle. split_and!; [lia|eauto|].
  intros Ht. destruct (Hc ch Hlt Ht) as [Ho|(k' & Hk' & ?)]; [specialize (Hcl Ho); lia|].
  by rewrite <- (Hreg k' Hk').
Qed.

Lemma sim_applied s c i n :
  sim ncfg s c → reachable members (conf_of ncfg) c → sys_nodes s !! i = Some n →
  length (applied_of c i) = N.to_nat (lastApplied (n_raft n)).
Proof using Hmo.
  intros Hsim Hre Hn. destruct Hmo as [Hmem Hcf].
  destruct (reachable_inv members (conf_of ncfg) Hmem Hcf c Hre) as (ll & h & Inv & Hap).
  apply (applied_count members ll h c i _ Inv Hap). by rewrite (sim_raft _ _ _ Hsim), Hn.
Qed.

Lemma reachable_later c c' :
  reachable members (conf_of ncfg) c → rtc step c c' → reachable members (conf_of ncfg) c'.
Proof using Type. intros (c0 & Hi & H0) Hs. exists c0. split; [done|]. by trans c. Qed.

(** A channel waits for its index for ever. *)
Lemma run_waits s s' c i n ch k :
  sim ncfg s c → reachable members (conf_of ncfg) c → rtc sys_step s s' →
  sys_nodes s !! i = Some n → waits n ch k →
  ∃ c' n', rtc step c c' ∧ sim ncfg s' c' ∧ sys_nodes s' !! i = Some n' ∧ waits n' ch k.
Proof using Hmo Hsaves.
  intros Hsim Hre Hs. revert c n Hsim Hre.
  induction Hs as [s|s s1 s2 H01 _ IH]; intros c n Hsim Hre Hn Hw.
  { by exists c, n. }
  pose proof Hmo as [Hmem Hcf]. pose proof (reachable_restarts _ _ _ Hre) as Hrr.
  destruct (sim_step members ncfg Hmem Hcf Hsaves s c s1 Hsim Hrr H01) as (c1 & Hc1 & Hsim1).
  pose proof (reachable_later c c1 Hre Hc1) as Hre1.
  destruct (reachable_ok members ncfg Hmem Hcf c Hrr) as [Hok Hp].
  destruct H01 as (Hroom & _ & e & Hex).
  destruct (exec_handled members ncfg s c e s1 Hsim Hok Hp Hroom Hex) as (j & m & x & Hm & Hwm & Hlr & Hx & Heq).
  assert (∃ n1, sys_nodes s1 !! i = Some n1 ∧ waiters_ok n n1) as (n1 & Hn1 & Hwt).
  { rewrite Heq. simpl. destruct (decide (j = i)) as [->|Hne].
    - rewrite lookup_insert_eq. exists x.1.1. split; [done|]. simplify_eq. by apply handled_waiters.
    - rewrite lookup_insert_ne by done. exists n. split; [done|]. by apply waiters_same. }
  destruct (IH c1 n1 Hsim1 Hre1 Hn1) as (c' & n' & Hc' & Hrest).
  { apply (waits_step n); [done|done|].
    pose proof (sim_applied s c i n Hsim Hre Hn). pose proof (sim_applied s1 c1 i n1 Hsim1 Hre1 Hn1).
    pose proof (prefix_length _ _ (applied_grows c c1 i Hc1)). lia. }
  exists c', n'. split; [by trans c1|done].
Qed.

(** What a leader proposed is in its log as long as it is in the term. *)
Lemma proposed_stays c c' i r r' k e :
  reachable members (conf_of ncfg) c → rtc step c c' →
  nodes c !! i = Some r → state r = Leader → log r !! k = Some e →
  nodes c' !! i = Some r' → currentTerm r' = currentTerm r → log r' !! k = Some e.
Proof using Hmo.
  intros Hre Hs Hr Hl He Hr' HT. destruct Hmo as [Hmem Hcf].
  destruct (reachable_inv members (conf_of ncfg) Hmem Hcf c Hre) as (ll & h & Inv & Hap).
  destruct (later_inv members Hmem c c' ll h Inv Hap Hs) as (_ & _ & ll' & h' & Hle & Inv').
  destruct (Hle _ _ _ (lg_lead _ _ _ _ Inv _ _ Hr Hl)) as (es & HL & _). rewrite <- HT in HL.
  pose proof (lg_only _ _ _ _ Inv' _ _ _ Hr' HL) as Hl'.
  pose proof (lg_lead _ _ _ _ Inv' _ _ Hr' Hl') as HL'. rewrite HL in HL'. injection HL' as <-.
  rewrite lookup_app_l; [done|]. by eapply lookup_lt_Some.
Qed.

(** An entry that some node has applied is in the history of a settled leader. *)
Lemma applied_entry_read c c' s s' i j n m k e :
  sim ncfg s c → sim ncfg s' c' → reachable members (conf_of ncfg) c → rtc step c c' →
  sys_nodes s !! i = Some n → sys_nodes s' !! j = Some m → sys_settled s' m →
  sys_caught_up s' → log (n_raft n) !! N.to_nat k = Some e → (0 < k ≤ lastApplied (n_raft n))%N →
  ∃ before after,
    take (N.to_nat (commitIndex (n_raft m))) (drop 1 (log (n_raft m))) = before ++ e :: after ∧
    length before = N.to_nat k - 1 ∧ n_fsm m = replay (run_entry (replay NewKV before) e) after.
Proof using Hmo.
  intros Hsim Hsim' Hre Hcc Hn Hm Hset' Hup He Hk. pose proof Hmo as [Hmem Hcf].
  pose proof (reachable_later c c' Hre Hcc) as Hre'.
  assert (nodes c !! i = Some (n_raft n)) as Hr by (by rewrite (sim_raft _ _ _ Hsim), Hn).
  assert (nodes c' !! j = Some (n_raft m)) as Hrm by (by rewrite (sim_raft _ _ _ Hsim'), Hm).
  destruct (reachable_inv members (conf_of ncfg) Hmem Hcf c Hre) as (ll & h & Inv & Hap).
  destruct (reachable_inv members (conf_of ncfg) Hmem Hcf c' Hre') as (ll' & h' & Inv' & _).
  assert (is_Some (nodes c' !! i)) as [r' Hr'].
  { apply (ei_dom _ _ _ (lg_elect _ _ _ _ Inv')).
    destruct (node_member members c i (n_raft n)) as [Hi _]; [|done|done].
    by eapply elect_inv_ok, lg_elect. }
  pose proof (sys_settled_settled ncfg s' c' m Hsim' Hset') as Hset.
  destruct (settled_applied members (conf_of ncfg) c' j (n_raft m) i r' Hmo Hre' Hrm Hset Hr')
    as (Hle & _ & Happ').
  destruct (Hap i _ Hr) as [_ Happ]. set (k1 := N.to_nat k - 1).
  assert (applied_of c i !! k1 = Some e) as Hin.
  { rewrite Happ, lookup_take_lt, lookup_drop by lia. rewrite <- He. f_equal. lia. }
  assert (applied_of c' i !! k1 = Some e) as Hin'
    by (eapply prefix_lookup_Some; [exact Hin|by apply applied_grows]).
  rewrite Happ' in Hin'. apply lookup_take_Some in Hin' as [Hin' Hlt].
  set (history := take (N.to_nat (commitIndex (n_raft m))) (drop 1 (log (n_raft m)))).
  assert (history !! k1 = Some e) as Hh by (unfold history; rewrite lookup_take_lt; [done|lia]).
  exists (take k1 history), (drop (S k1) history).
  assert (history = take k1 history ++ e :: drop (S k1) history) as Hsplit by (by rewrite take_drop_middle).
  split; [done|]. split; [rewrite length_take; apply lookup_lt_Some in Hh; lia|].
  destruct (sim_node _ _ _ Hsim' j m Hm) as (_ & _ & _ & _ & ->).
  destruct (settled_applied members (conf_of ncfg) c' j (n_raft m) j (n_raft m) Hmo Hre' Hrm Hset Hrm)
    as (_ & _ & ->).
  rewrite (Hup j m Hm). fold history. rewrite Hsplit at 1. unfold replay. by rewrite foldl_app.
Qed.

(** The critical section of [HandlePropose] on a leader. *)
Lemma proposed_waits n req n' out ch (k := N.of_nat (length (log (n_raft n)))) :
  node_wf n → log_room (n_raft n) → HandlePropose n req = Some (n', out, Wait ch) →
  state (n_raft n) = Leader ∧ n_raft n' = proposed (n_raft n) (pqData req) ∧ waits n' ch k.
Proof using Type.
  intros Hw Hroom Hp. destruct (decide (state (n_raft n) = Leader)) as [Hl|Hl].
  - destruct (HandlePropose_leader n req Hw Hroom Hl) as ([[n2 out2] oc] & Hx & Hpost).
    rewrite Hp in Hx. injection Hx as <- <- <-.
    destruct Hpost as (_ & Hr & _ & _ & _ & [= ->] & Hpr & Hch & _).
    split; [done|]. split; [done|]. unfold waits. rewrite Hpr, Hch, length_app. split_and!.
    + simpl. lia.
    + destruct (nw_chans _ Hw) as [Hopen _].
      intros k' [[<- _]|[_ Hk']]%lookup_insert_Some; [done|].
      apply Hopen, lookup_lt_Some in Hk'. lia.
    + by rewrite lookup_app_r, Nat.sub_diag by lia.
  - destruct (HandlePropose_redirect n req Hl) as (n2 & Hx & _). congruence.
Qed.

(** ** Theorem *)

(** C12: an acknowledged write is not lost and will be read.  In a run of the
    composed system without crashes, let a client propose a command to a leader,
    and let the channel its call waits on be closed, so that it is told of success,
    while the node is still in the term of the proposal.  Then every settled leader
    from there on (it has committed an entry of its own term, and no node is in a
    later one) has the command in its committed log, at the index and term of the
    proposal, and its store, from which it answers reads, is the result of running
    what is before the command, the command, and what is after it. *)
Theorem acknowledged_writes_are_read s0 s1 s2 s3 s4 i j req n1 n2 n3 n4 out ch resp :
  sys_initial members ncfg s0 → rtc sys_step s0 s1 → sys_nodes s1 !! i = Some n1 →
  HandlePropose n1 req = Some (n2, out, Wait ch) →
  sys_step s1 s2 → sys_exec s1 (SyPropose i req) = Some s2 →
  rtc sys_step s2 s3 → sys_nodes s3 !! i = Some n3 →
  await (E := unit) (n_chans n3) ch DoneClosed = Some resp →
  currentTerm (n_raft n3) = currentTerm (n_raft n1) →
  rtc sys_step s3 s4 → sys_nodes s4 !! j = Some n4 → sys_settled s4 n4 →
  let k := N.of_nat (length (log (n_raft n1))) in
  let entry := mkLogEntry k (currentTerm (n_raft n1)) (pqData req) EntryCommand in
  ∃ before after,
    take (N.to_nat (commitIndex (n_raft n4))) (drop 1 (log (n_raft n4))) = before ++ entry :: after ∧
    length before = N.to_nat k - 1 ∧
    n_fsm n4 = replay (run_entry (replay NewKV before) entry) after.
Proof using Hmo Hsaves Hreads.
  intros Hini H01 Hn1 Hp H12 Hex H23 Hn3 Hack HT H34 Hn4 Hset k entry.
  pose proof Hmo as [Hmem Hcf].
  destruct (sys_initial_sim members ncfg Hcf Hreads s0 Hini) as (c0 & Hre0 & Hsim0).
  destruct (sim_run members ncfg Hmem Hcf Hsaves s0 c0 s1 Hsim0 Hre0 H01) as (c1 & _ & Hre1 & Hsim1).
  destruct (sim_run members ncfg Hmem Hcf Hsaves s1 c1 s2 Hsim1 Hre1 (rtc_once _ _ H12)) as (c2 & _ & Hre2 & Hsim2).
  destruct (sim_node _ _ _ Hsim1 i n1 Hn1) as (Hw1 & _).
  destruct (proposed_waits n1 req n2 out ch Hw1 (proj2 (proj1 H12 i n1 Hn1)) Hp) as (Hl & Hr2 & Hwait).
  assert (sys_nodes s2 !! i = Some n2) as Hn2.
  { simpl in Hex. apply at_member_inv in Hex as (n & x & Hn & Hx & ->). rewrite Hn1 in Hn.
    injection Hn as <-. rewrite Hp in Hx. injection Hx as <-. simpl. apply lookup_insert_eq. }
  destruct (run_waits s2 s3 c2 i n2 ch k Hsim2 Hre2 H23 Hn2 Hwait) as (c3 & n & Hc23 & Hsim3 & Hn & Hw3).
  rewrite Hn3 in Hn. injection Hn as <-. destruct Hw3 as (_ & _ & Hclosed).
  assert (k ≤ lastApplied (n_raft n3))%N as Hk.
  { apply Hclosed. simpl in Hack. by destruct (n_chans n3 !! ch) as [[]|]. }
  pose proof (reachable_later c2 c3 Hre2 Hc23) as Hre3.
  destruct (sim_run members ncfg Hmem Hcf Hsaves s3 c3 s4 Hsim3 Hre3 H34) as (c4 & Hc34 & Hre4 & Hsim4).
  assert (∀ s c a m, sim ncfg s c → sys_nodes s !! a = Some m → nodes c !! a = Some (n_raft m)) as Hnode
    by (intros s c a m Hs Hm; by rewrite (sim_raft _ _ _ Hs), Hm).
  assert (log (n_raft n3) !! N.to_nat k = Some entry) as Hlog3.
  { apply (proposed_stays c2 c3 i (n_raft n2) (n_raft n3)); [done|done|by apply (Hnode s2)| | | |].
    - rewrite Hr2. exact Hl.
    - rewrite Hr2. simpl. unfold k. by rewrite Nat2N.id, lookup_app_r, Nat.sub_diag by lia.
    - by apply (Hnode s3).
    - by rewrite HT, Hr2. }
  assert (sys_caught_up s4) as Hup.
  { apply (sys_ok_run members ncfg Hmo Hsaves Hreads s0 s4 Hini).
    trans s1; [done|]. eapply rtc_l; [done|]. by trans s3. }
  pose proof (log_wf_nonempty _ (rw_log _ (nw_raft _ Hw1))) as Hne.
  apply (applied_entry_read c3 c4 s3 s4 i j n3 n4 k entry); try done. unfold k in *. lia.
Qed.
End runs.

(** ** The witness *)

Import SampleStore.

(** Node "a" has just won term 1; it is asked to set [x := 1]; both other nodes
    acknowledge the entry. *)
Definition sys_elected : System :=
  default sys0 (sys_play sys0 (repeat_schedule 5 tick_all ++ call "a" "b" ++ call "a" "b" ++ call "a" "c")).

Definition set_x : ProposeRequest := mkProposeRequest (set_cmd "x" "1").

Definition sys_asked : System := default sys_elected (sys_exec sys_elected (SyPropose "a" set_x)).

Definition sys_acked : System :=
  default sys_asked (sys_play sys_asked (call "a" "b" ++ call "a" "c")).

Lemma played s es : bool_decide (sys_headroom s) = true → is_Some (sys_play s es) →
  rtc sys_step s (default s (sys_play s es)).
Proof. intros Hroom%bool_decide_eq_true_1 [s' Hs]. rewrite Hs. by apply (sys_play_steps s es). Qed.

Lemma sys_elected_steps : rtc sys_step sys0 sys_elected.
Proof. apply played; [by vm_compute|]. apply (bool_decide_unpack (is_Some _)). by vm_compute. Qed.

Lemma sys_acked_steps : rtc sys_step sys_asked sys_acked.
Proof. apply played; [by vm_compute|]. apply (bool_decide_unpack (is_Some _)). by vm_compute. Qed.

Lemma sys_asked_exec : sys_exec sys_elected (SyPropose "a" set_x) = Some sys_asked.
Proof.
  assert (is_Some (sys_exec sys_elected (SyPropose "a" set_x))) as [s Hs]
    by (apply (bool_decide_unpack (is_Some _)); by vm_compute).
  unfold sys_asked. by rewrite Hs.
Qed.

Lemma sys_asked_step : sys_step sys_elected sys_asked.
Proof.
  split; [|split; [|by eexists; apply sys_asked_exec]]; apply (bool_decide_unpack _); by vm_compute.
Qed.

(** The channel [HandlePropose] waits on. *)
Definition waits_on (n : Node) (req : ProposeRequest) : option nat :=
  x <- HandlePropose n req;; match x.2 with Wait ch => Some ch | _ => None end.

Lemma waits_on_inv n req ch :
  waits_on n req = Some ch → ∃ n' out, HandlePropose n req = Some (n', out, Wait ch).
Proof.
  unfold waits_on. destruct (HandlePropose n req) as [[[n' out] [|]]|]; try done. intros [= ->]. by eexists _, _.
Qed.

Lemma acknowledged_writes_are_read_witness :
  ∃ n before after, sys_nodes sys_acked !! "a" = Some n ∧
    take (N.to_nat (commitIndex (n_raft n))) (drop 1 (log (n_raft n))) =
      before ++ mkLogEntry 2 1 (set_cmd "x" "1") EntryCommand :: after.
Proof.
  assert ((fun n => (waits_on n set_x, length (log (n_raft n)), currentTerm (n_raft n))) <$>
    sys_nodes sys_elected !! "a" = Some (Some 0, 2, 1%N)) as H by (by vm_compute).
  apply fmap_Some in H as (n1 & Hn1 & H). injection H as Hw Hlen HT1. symmetry in Hw, Hlen, HT1.
  apply waits_on_inv in Hw as (n2 & out & Hp).
  assert ((fun n => (bool_decide (sys_settled sys_acked n), await (E := unit) (n_chans n) 0 DoneClosed,
      currentTerm (n_raft n))) <$> sys_nodes sys_acked !! "a" =
    Some (true, Some (inr (mkProposeResponse true "" "")), 1%N)) as H by (by vm_compute).
  apply fmap_Some in H as (n3 & Hn3 & H). injection H as Hset Hack HT3. symmetry in Hset, Hack, HT3.
  apply bool_decide_eq_true_1 in Hset.
  destruct (acknowledged_writes_are_read trio trio_cfg trio_cfg_membership sample_saves sample_reads
    sys0 sys_elected sys_asked sys_acked sys_acked "a" "a" set_x n1 n2 n3 n3 out 0 _
    sys0_initial sys_elected_steps Hn1 Hp sys_asked_step sys_asked_exec sys_acked_steps Hn3 Hack)
    as (before & after & Hlog & _).
  - by rewrite HT1, HT3.
  - apply rtc_refl.
  - exact Hn3.
  - exact Hset.
  - exists n3, before, after. split; [exact Hn3|]. rewrite HT1, Hlen in Hlog. exact Hlog.
Defined.
