(* ===== verification/StoreSpec.v ===== *)
(** * The composed system as a replicated store

    The specification of [Rsm], carried to the system of nodes, RPCs, databases
    and key-value stores: every store is the replay of a prefix of one log of
    commands that only grows, and a settled leader has replayed all of it. *)

From S2P Require Import Prelude Pb Raft RaftWf Cluster ClusterTrans Sample Election LogInv LogSafety Lease Rsm Kv Storage Metrics Node NodeSpec NodeRuns System SystemRuns StaleReads CurrentReads.

Section spec.
Context {GR : GoRand} {CJ : CommandJson} {B : Badger} {EJ : EntryJson}.

(** What the specification state [a] says of the system state [s]. *)
Definition shows (s : System) (a : Rsm) : Prop :=
  ∀ i n, sys_nodes s !! i = Some n →
    let k := N.to_nat (lastApplied (n_raft n)) in
    rsm_done a !! i = Some k ∧ k ≤ length (rsm_log a) ∧
    n_fsm n = replay NewKV (take k (rsm_log a)) ∧
    (sys_settled s n → k = length (rsm_log a)).

Context (members : gset string) (ncfg : string → NodeConfig).
Context (Hmo : membership_ok members (conf_of ncfg)).
Context (Hsaves : saves_ok) (Hreads : reads_ok).

Lemma sim_shows s c a :
  sys_caught_up s → reachable members (conf_of ncfg) c → sim ncfg s c → abs c a → shows s a.
Proof using Hmo.
  intros Hup Hre Hsim Habs i n Hn.
  assert (nodes c !! i = Some (n_raft n)) as Hr by (by rewrite (sim_raft _ _ _ Hsim), Hn).
  destruct (abs_applied c a Habs i _ Hr) as [Hla Happ]. destruct (abs_commit c a Habs i _ Hr) as [Hlen _].
  cbv zeta. split_and!.
  - by rewrite (abs_done c a Habs), lookup_fmap, Hr.
  - lia.
  - destruct (sim_node _ _ _ Hsim i n Hn) as (_ & _ & _ & _ & ->). by rewrite Happ.
  - intros Hset%(sys_settled_settled ncfg s c n Hsim). rewrite (Hup i n Hn).
    destruct (abs_front c a Habs) as [Hnil|(j & r & Hj & Hfront)]; [rewrite Hnil in *; simpl in *; lia|].
    destruct (settled_applied members (conf_of ncfg) c i (n_raft n) j r Hmo Hre Hr Hset Hj) as (Hle & _). lia.
Qed.

(** ** Theorem *)

(** C10: the system is one store.  In a run of the composed system without crashes
    there is one log of commands, empty at first and only ever appended to, which
    holds nothing but commands that clients proposed in that run (and the empty
    entries of new leaders), such that at any moment the store of every node is
    the replay of the first [lastApplied] commands of that log, a number that only
    grows; so two nodes that have applied equally much hold equal stores, and a
    leader that has committed an entry of its own term while no node is in a later
    term has replayed it all. *)
Theorem system_implements_store s0 qs1 s1 qs2 s2 :
  sys_initial members ncfg s0 → sys_trace s0 qs1 s1 → sys_trace s1 qs2 s2 →
  ∃ a1 a2, rsm_trace (rsm_start members) qs1 a1 ∧ rsm_trace a1 qs2 a2 ∧
    Forall (admitted (qs1 ++ qs2)) (rsm_log a2) ∧ shows s1 a1 ∧ shows s2 a2.
Proof using Hmo Hsaves Hreads.
  intros Hini H01 H12. pose proof Hmo as [Hmem Hcf].
  destruct (sim_initial members ncfg Hcf Hreads s0 Hini) as (c0 & Hc0 & Hsim0).
  assert (reachable members (conf_of ncfg) c0) as Hre0 by (by exists c0).
  destruct (sim_trace members ncfg Hmem Hcf Hsaves s0 c0 qs1 s1 Hsim0 Hre0 H01) as (c1 & Hc01 & Hsim1).
  assert (reachable members (conf_of ncfg) c1) as Hre1
    by (exists c0; split; [done|by eapply trace_steps]).
  destruct (sim_trace members ncfg Hmem Hcf Hsaves s1 c1 qs2 s2 Hsim1 Hre1 H12) as (c2 & Hc12 & Hsim2).
  assert (reachable members (conf_of ncfg) c2) as Hre2
    by (exists c0; split; [done|trans c1; by eapply trace_steps]).
  pose proof (abs_initial members (conf_of ncfg) Hmo c0 Hc0) as Habs0.
  destruct (rsm_run members (conf_of ncfg) Hmo c0 qs1 c1 _ Hre0 Habs0 Hc01) as (a1 & Ha1 & Habs1).
  destruct (rsm_run members (conf_of ncfg) Hmo c1 qs2 c2 a1 Hre1 Habs1 Hc12) as (a2 & Ha2 & Habs2).
  destruct (sys_ok_run members ncfg Hmo Hsaves Hreads s0 s1 Hini) as [Hup1 _]; [by eapply sys_trace_steps|].
  destruct (sys_ok_run members ncfg Hmo Hsaves Hreads s0 s2 Hini) as [Hup2 _];
    [trans s1; by eapply sys_trace_steps|].
  destruct (rsm_trace_log _ _ _ (rsm_trace_app _ _ _ _ _ Ha1 Ha2)) as [Hq Hadm]; [by apply Forall_nil|].
  rewrite Hq in Hadm.
  exists a1, a2. split_and!; [done|done|done|exact (sim_shows s1 c1 a1 Hup1 Hre1 Hsim1 Habs1)
    |exact (sim_shows s2 c2 a2 Hup2 Hre2 Hsim2 Habs2)].
Qed.
End spec.

(** ** The witness *)

Import SampleStore.

(** Before and after the second leader overwrites the value of "x". *)
Lemma system_implements_store_witness :
  ∃ a1 a2, rsm_trace (rsm_start trio) ask_one a1 ∧ rsm_trace a1 ask_two a2 ∧
    Forall (admitted (ask_one ++ ask_two)) (rsm_log a2) ∧ shows sys_leased a1 ∧ shows sys_stale a2.
Proof.
  exact (system_implements_store trio trio_cfg trio_cfg_membership sample_saves sample_reads
    sys0 ask_one sys_leased ask_two sys_stale sys0_initial sys_leased_trace sys_stale_trace).
Defined.
