(* ===== verification/Transport.v ===== *)
(** * The in-memory transport (src/network/local.go, pool.go, transport.go)

    Local transports share one heap of log entries and one pool.  A transport
    is a pointer; its inbox is a channel of 256 messages; a message carries a
    pointer to an entry.  [Send] is two steps, up to its [select] and the
    [select] itself, because other goroutines run in between and a full inbox
    blocks the sender there.  The same network over values instead of pointers
    is the specification: the header of local.go promises that every message
    is a deep copy. *)

From S2P Require Import Prelude Pb.

Definition defaultInboxSize : nat := 256.

Inductive TransportError :=
  | ErrTransportClosed
  | ErrPeerNotFound (target : string)
  | ErrPartitioned
  | ErrContext (cause : string).

#[export] Instance TransportError_eq_dec : EqDecision TransportError.
Proof. solve_decision. Defined.

(** ** Transports, over any representation [E] of an entry *)

Record NetMessage (E : Type) := mkNetMessage { nmFrom : string; nmEntry : E }.
Arguments mkNetMessage {E} _ _.
Arguments nmFrom {E} _.
Arguments nmEntry {E} _.

Record LocalTransport (E : Type) := mkLocalTransport {
  lt_addr : string;
  lt_inbox : list (NetMessage E);
  lt_peers : gmap string nat;
  lt_partitioned : gset string;
  lt_closed : bool;
  lt_inbox_closed : bool
}.
Arguments mkLocalTransport {E} _ _ _ _ _ _.
Arguments lt_addr {E} _.
Arguments lt_inbox {E} _.
Arguments lt_peers {E} _.
Arguments lt_partitioned {E} _.
Arguments lt_closed {E} _.
Arguments lt_inbox_closed {E} _.

#[export] Instance LocalTransport_settable E : Settable (LocalTransport E) :=
  {| eta_expand t := mkLocalTransport (lt_addr t) (lt_inbox t) (lt_peers t)
       (lt_partitioned t) (lt_closed t) (lt_inbox_closed t) |}.

(** A sender that is blocked in its [select]: the inbox it wants to write to,
    and the message. *)
Record Pending (E : Type) := mkPending { pd_peer : nat; pd_msg : NetMessage E }.
Arguments mkPending {E} _ _.
Arguments pd_peer {E} _.
Arguments pd_msg {E} _.

Record Net (E : Type) := mkNet {
  transports : gmap nat (LocalTransport E);
  pending : list (Pending E)
}.
Arguments mkNet {E} _ _.
Arguments transports {E} _.
Arguments pending {E} _.

Section net.
Context {E : Type}.
Implicit Types (n : Net E) (t : LocalTransport E).

Definition NewLocalTransport (addr : string) : LocalTransport E :=
  mkLocalTransport addr [] ∅ ∅ false false.

(** An operation on the transport behind pointer [i]. *)
Definition on_transport n (i : nat) (f : LocalTransport E → LocalTransport E) : option (Net E) :=
  t <- transports n !! i;; Some (mkNet (<[i := f t]> (transports n)) (pending n)).

Definition Connect n (a b : nat) : option (Net E) :=
  ta <- transports n !! a;; tb <- transports n !! b;;
  n <- on_transport n a (fun t => t <| lt_peers := <[lt_addr tb := b]> (lt_peers t) |>);;
  on_transport n b (fun t => t <| lt_peers := <[lt_addr ta := a]> (lt_peers t) |>).

Definition Disconnect n (a b : nat) : option (Net E) :=
  ta <- transports n !! a;; tb <- transports n !! b;;
  n <- on_transport n a (fun t => t <| lt_peers := delete (lt_addr tb) (lt_peers t) |>);;
  on_transport n b (fun t => t <| lt_peers := delete (lt_addr ta) (lt_peers t) |>).

Definition Partition n (i : nat) (target : string) : option (Net E) :=
  on_transport n i (fun t => t <| lt_partitioned := {[target]} ∪ lt_partitioned t |>).

Definition Heal n (i : nat) (target : string) : option (Net E) :=
  on_transport n i (fun t => t <| lt_partitioned := lt_partitioned t ∖ {[target]} |>).

(** The first part of [Send]: what it returns at once, or the peer. *)
Definition Send_resolve t (target : string) : TransportError + nat :=
  if lt_closed t then inl ErrTransportClosed
  else if decide (target ∈ lt_partitioned t) then inl ErrPartitioned
  else match lt_peers t !! target with
       | None => inl (ErrPeerNotFound target)
       | Some peer => inr peer
       end.

Definition add_pending n (p : Pending E) : Net E := mkNet (transports n) (pending n ++ [p]).

(** The case [peer.inbox <- msg] of the [select]: [None] is the panic of a send
    on a closed channel, [Some None] a full inbox, where the sender stays. *)
Definition select_inbox n (k : nat) : option (option (Net E)) :=
  p <- pending n !! k;;
  t <- transports n !! pd_peer p;;
  if lt_inbox_closed t then None
  else if decide (length (lt_inbox t) < defaultInboxSize)
  then Some (Some (mkNet (<[pd_peer p := t <| lt_inbox := lt_inbox t ++ [pd_msg p] |>]>
                            (transports n)) (delete k (pending n))))
  else Some None.

(** The case [<-ctx.Done()]: the sender gives up, its message is not sent. *)
Definition select_done n (k : nat) : option (E * Net E) :=
  p <- pending n !! k;;
  Some (nmEntry (pd_msg p), mkNet (transports n) (delete k (pending n))).

(** [<-t.Consume()]: [inl true] is an empty open channel, which blocks, and
    [inl false] a closed one, which yields a zero message. *)
Definition receive n (i : nat) : option (bool + (NetMessage E * Net E)) :=
  t <- transports n !! i;;
  match lt_inbox t with
  | [] => Some (inl (negb (lt_inbox_closed t)))
  | m :: ms => Some (inr (m, mkNet (<[i := t <| lt_inbox := ms |>]> (transports n)) (pending n)))
  end.

Definition Close n (i : nat) : option (option TransportError * Net E) :=
  t <- transports n !! i;;
  if lt_closed t then Some (Some ErrTransportClosed, n)
  else n <- on_transport n i (fun t => t <| lt_closed := true |> <| lt_inbox_closed := true |>);;
       Some (None, n).

(** [Reset] up to the entries it takes out of the inbox. *)
Definition Reset_drain n (i : nat) : option (list E * Net E) :=
  t <- transports n !! i;;
  n <- on_transport n i (fun t => t <| lt_peers := ∅ |> <| lt_partitioned := ∅ |> <| lt_inbox := [] |>);;
  Some (nmEntry <$> lt_inbox t, n).
End net.

(** ** The heap of entries and the pool *)

(** A slice starts at the beginning of its array; its capacity is the array's
    length. *)
Record Slice := mkSlice { sl_arr : nat; sl_len : nat }.

Record Cell := mkCell { c_index : N; c_term : N; c_type : EntryType; c_data : option Slice }.

#[export] Instance Cell_settable : Settable Cell :=
  {| eta_expand c := mkCell (c_index c) (c_term c) (c_type c) (c_data c) |}.

Record Heap := mkHeap { cells : gmap nat Cell; arrays : gmap nat bytes }.

Definition slice_bytes (h : Heap) (s : Slice) : bytes :=
  take (sl_len s) (default [] (arrays h !! sl_arr s)).

Definition data_of (h : Heap) (c : Cell) : bytes :=
  match c_data c with None => [] | Some s => slice_bytes h s end.

(** The entry a pointer stands for. *)
Definition contents (h : Heap) (p : nat) : option LogEntry :=
  c <- cells h !! p;; Some (mkLogEntry (c_index c) (c_term c) (data_of h c) (c_type c)).

Definition set_cell (h : Heap) (p : nat) (c : Cell) : Heap :=
  mkHeap (<[p := c]> (cells h)) (arrays h).

(** [make] of a fresh array that holds [data]. *)
Definition make_array (h : Heap) (data : bytes) : Heap * nat :=
  let a := fresh (dom (arrays h)) in (mkHeap (cells h) (<[a := data]> (arrays h)), a).

(** The pool's [New]: an entry with an empty slice of capacity 256. *)
Definition new_entry (h : Heap) : Heap * nat :=
  let '(h, a) := make_array h (replicate 256 x00) in
  let p := fresh (dom (cells h)) in
  (set_cell h p (mkCell 0 0 EntryCommand (Some (mkSlice a 0))), p).

(** [s[:0]] *)
Definition empty_slice (s : Slice) : Slice := mkSlice (sl_arr s) 0.

Definition reset_cell (c : Cell) : Cell :=
  mkCell 0 0 EntryCommand (empty_slice <$> c_data c).

(** [sync.Pool.Get] hands out any pooled entry, or a new one: [pick] is its
    choice. *)
Definition AcquireEntry (h : Heap) (pool : list nat) (pick : option nat)
    : Heap * list nat * nat :=
  match pick with
  | Some i =>
      match pool !! i with
      | Some p => (h, delete i pool, p)
      | None => let '(h, p) := new_entry h in (h, pool, p)
      end
  | None => let '(h, p) := new_entry h in (h, pool, p)
  end.

Definition ReleaseEntry (h : Heap) (pool : list nat) (e : option nat) : option (Heap * list nat) :=
  match e with
  | None => Some (h, pool)
  | Some p => c <- cells h !! p;; Some (set_cell h p (reset_cell c), pool ++ [p])
  end.

Fixpoint release_all (h : Heap) (pool : list nat) (es : list nat) : option (Heap * list nat) :=
  match es with
  | [] => Some (h, pool)
  | e :: es' => x <- ReleaseEntry h pool (Some e);; release_all x.1 x.2 es'
  end.

(** [Send] copies the entry into the clone: the data into a new array, or, when
    there is none, [clone.Data[:0]]. *)
Definition fill_clone (h : Heap) (clone entry : nat) : option Heap :=
  e <- cells h !! entry;;
  c <- cells h !! clone;;
  let c := c <| c_index := c_index e |> <| c_term := c_term e |> <| c_type := c_type e |> in
  if decide (0 < length (data_of h e))
  then let '(h', a) := make_array h (data_of h e) in
       Some (set_cell h' clone (c <| c_data := Some (mkSlice a (length (data_of h e))) |>))
  else Some (set_cell h clone (c <| c_data := empty_slice <$> c_data c |>)).

(** ** Events of the network *)

Inductive NetEvent (E : Type) :=
  | NtNew (addr : string)
  | NtConnect (a b : nat)
  | NtDisconnect (a b : nat)
  | NtPartition (i : nat) (target : string)
  | NtHeal (i : nat) (target : string)
  | NtSend (i : nat) (target : string) (entry : E)
  | NtSelect (k : nat)
  | NtCancel (k : nat) (cause : string)
  | NtReceive (i : nat)
  | NtClose (i : nat)
  | NtReset (i : nat).
Arguments NtNew {E} _.
Arguments NtConnect {E} _ _.
Arguments NtDisconnect {E} _ _.
Arguments NtPartition {E} _ _.
Arguments NtHeal {E} _ _.
Arguments NtSend {E} _ _ _.
Arguments NtSelect {E} _.
Arguments NtCancel {E} _ _.
Arguments NtReceive {E} _.
Arguments NtClose {E} _.
Arguments NtReset {E} _.

Inductive NetResult (E : Type) :=
  | NrDone
  | NrError (err : TransportError)
  | NrBlocked
  | NrGot (m : NetMessage E)
  | NrClosed.
Arguments NrDone {E}.
Arguments NrError {E} _.
Arguments NrBlocked {E}.
Arguments NrGot {E} _.
Arguments NrClosed {E}.

Section exec.
Context {E : Type}.
Implicit Types (n : Net E).

(** [Send] up to its [select], with the entry already copied. *)
Definition Send n (i : nat) (target : string) (entry : E) : option (Net E * NetResult E) :=
  t <- transports n !! i;;
  match Send_resolve t target with
  | inl err => Some (n, NrError err)
  | inr peer => Some (add_pending n (mkPending peer (mkNetMessage (lt_addr t) entry)), NrBlocked)
  end.

Definition done_with (n : option (Net E)) : option (Net E * NetResult E * list E) :=
  n <- n;; Some (n, NrDone, []).

(** An event, its result, and the entries that go back to the pool. *)
Definition net_exec n (e : NetEvent E) : option (Net E * NetResult E * list E) :=
  match e with
  | NtNew addr =>
      done_with (Some (mkNet (<[fresh (dom (transports n)) := NewLocalTransport addr]>
                         (transports n)) (pending n)))
  | NtConnect a b => done_with (Connect n a b)
  | NtDisconnect a b => done_with (Disconnect n a b)
  | NtPartition i target => done_with (Partition n i target)
  | NtHeal i target => done_with (Heal n i target)
  | NtSend i target entry => x <- Send n i target entry;; Some (x, [])
  | NtSelect k =>
      x <- select_inbox n k;;
      Some (match x with None => (n, NrBlocked, []) | Some n' => (n', NrDone, []) end)
  | NtCancel k cause => x <- select_done n k;; Some (x.2, NrError (ErrContext cause), [x.1])
  | NtReceive i =>
      x <- receive n i;;
      Some (match x with
            | inl blocked => (n, if blocked then NrBlocked else NrClosed, [])
            | inr (m, n') => (n', NrGot m, [])
            end)
  | NtClose i =>
      x <- Close n i;;
      Some (x.2, match x.1 with None => NrDone | Some err => NrError err end, [])
  | NtReset i => x <- Reset_drain n i;; Some (x.2, NrDone, x.1)
  end.
End exec.

(** ** The whole program: network, heap, pool, and what its callers hold *)

Record World := mkWorld {
  w_net : Net nat;
  w_heap : Heap;
  w_pool : list nat;
  w_held : list nat
}.

Inductive WorldEvent :=
  | WNet (e : NetEvent nat)                       (* any call but [Send] *)
  | WSend (i : nat) (target : string) (p : nat) (pick : option nat)
  | WAcquire (pick : option nat)
  | WRelease (p : nat)
  | WSetFields (p : nat) (index term : N) (ty : EntryType)
  | WPoke (p : nat) (i : nat) (b : Byte.byte)     (* entry.Data[i] = b *)
  | WAppend (p : nat) (data : bytes) (spare : nat). (* entry.Data = append(entry.Data, data...) *)

(** Callers use only entries they hold: they leased or received them and have
    not released them since. *)
Definition allowed (w : World) (e : WorldEvent) : Prop :=
  match e with
  | WNet (NtSend _ _ _) => False
  | WNet _ | WAcquire _ => True
  | WSend _ _ p _ | WRelease p | WSetFields p _ _ _ | WPoke p _ _ | WAppend p _ _ => p ∈ w_held w
  end.

#[export] Instance allowed_dec w e : Decision (allowed w e).
Proof. destruct e as [[]| | | | | |]; simpl; apply _. Defined.

Fixpoint remove_one (p : nat) (ps : list nat) : list nat :=
  match ps with
  | [] => []
  | q :: ps' => if decide (p = q) then ps' else q :: remove_one p ps'
  end.

Definition received {E} (r : NetResult E) : list E :=
  match r with NrGot m => [nmEntry m] | _ => [] end.

(** [entry.Data[i] = b]: out of range panics. *)
Definition poke (h : Heap) (p i : nat) (b : Byte.byte) : option Heap :=
  c <- cells h !! p;;
  s <- c_data c;;
  a <- arrays h !! sl_arr s;;
  if decide (i < sl_len s)
  then Some (mkHeap (cells h) (<[sl_arr s := <[i := b]> a]> (arrays h)))
  else None.

(** [append] writes in place when the capacity suffices; otherwise it moves to
    a new array with [spare] bytes of room. *)
Definition append_data (h : Heap) (p : nat) (data : bytes) (spare : nat) : option Heap :=
  c <- cells h !! p;;
  let grow old :=
    let '(h', a) := make_array h (old ++ data ++ replicate spare x00) in
    Some (set_cell h' p (c <| c_data := Some (mkSlice a (length old + length data)) |>)) in
  match c_data c with
  | None => grow []
  | Some s =>
      a <- arrays h !! sl_arr s;;
      if decide (sl_len s + length data ≤ length a)
      then Some (mkHeap
             (<[p := c <| c_data := Some (mkSlice (sl_arr s) (sl_len s + length data)) |>]> (cells h))
             (<[sl_arr s := take (sl_len s) a ++ data ++ drop (sl_len s + length data) a]> (arrays h)))
      else grow (slice_bytes h s)
  end.

Definition world_exec (w : World) (e : WorldEvent) : option (World * NetResult nat) :=
  match e with
  | WNet ev =>
      x <- net_exec (w_net w) ev;;
      y <- release_all (w_heap w) (w_pool w) x.2;;
      Some (mkWorld x.1.1 y.1 y.2 (w_held w ++ received x.1.2), x.1.2)
  | WSend i target p pick =>
      t <- transports (w_net w) !! i;;
      match Send_resolve t target with
      | inl err => Some (w, NrError err)
      | inr _ =>
          let '(h, pool, clone) := AcquireEntry (w_heap w) (w_pool w) pick in
          h <- fill_clone h clone p;;
          x <- Send (w_net w) i target clone;;
          Some (mkWorld x.1 h pool (w_held w), x.2)
      end
  | WAcquire pick =>
      let '(h, pool, p) := AcquireEntry (w_heap w) (w_pool w) pick in
      Some (mkWorld (w_net w) h pool (w_held w ++ [p]), NrDone)
  | WRelease p =>
      x <- ReleaseEntry (w_heap w) (w_pool w) (Some p);;
      Some (mkWorld (w_net w) x.1 x.2 (remove_one p (w_held w)), NrDone)
  | WSetFields p index term ty =>
      c <- cells (w_heap w) !! p;;
      Some (mkWorld (w_net w) (set_cell (w_heap w) p
              (c <| c_index := index |> <| c_term := term |> <| c_type := ty |>))
              (w_pool w) (w_held w), NrDone)
  | WPoke p i b =>
      h <- poke (w_heap w) p i b;; Some (mkWorld (w_net w) h (w_pool w) (w_held w), NrDone)
  | WAppend p data spare =>
      h <- append_data (w_heap w) p data spare;;
      Some (mkWorld (w_net w) h (w_pool w) (w_held w), NrDone)
  end.

Definition world0 : World := mkWorld (mkNet ∅ []) (mkHeap ∅ ∅) [] [].

Definition world_step (w w' : World) : Prop :=
  ∃ e r, allowed w e ∧ world_exec w e = Some (w', r).

(** ** What the callers see: the network over values *)

Section views.
Context {A B : Type} (f : A → B).

Definition view_msg (m : NetMessage A) : NetMessage B := mkNetMessage (nmFrom m) (f (nmEntry m)).

Definition view_transport (t : LocalTransport A) : LocalTransport B :=
  mkLocalTransport (lt_addr t) (view_msg <$> lt_inbox t) (lt_peers t) (lt_partitioned t)
    (lt_closed t) (lt_inbox_closed t).

Definition view_pending (p : Pending A) : Pending B := mkPending (pd_peer p) (view_msg (pd_msg p)).

Definition view_net (n : Net A) : Net B :=
  mkNet (view_transport <$> transports n) (view_pending <$> pending n).

Definition view_result (r : NetResult A) : NetResult B :=
  match r with
  | NrDone => NrDone
  | NrError err => NrError err
  | NrBlocked => NrBlocked
  | NrGot m => NrGot (view_msg m)
  | NrClosed => NrClosed
  end.

Definition view_event (e : NetEvent A) : NetEvent B :=
  match e with
  | NtNew addr => NtNew addr
  | NtConnect a b => NtConnect a b
  | NtDisconnect a b => NtDisconnect a b
  | NtPartition i target => NtPartition i target
  | NtHeal i target => NtHeal i target
  | NtSend i target entry => NtSend i target (f entry)
  | NtSelect k => NtSelect k
  | NtCancel k cause => NtCancel k cause
  | NtReceive i => NtReceive i
  | NtClose i => NtClose i
  | NtReset i => NtReset i
  end.

Lemma view_on_transport n i (g : LocalTransport A → LocalTransport A) (g' : LocalTransport B → LocalTransport B) :
  (∀ t, view_transport (g t) = g' (view_transport t)) →
  on_transport (view_net n) i g' = view_net <$> on_transport n i g.
Proof.
  intros Hg. unfold on_transport. simpl. rewrite lookup_fmap.
  destruct (transports n !! i) as [t|]; [|done]. simpl. unfold view_net. simpl.
  by rewrite fmap_insert, Hg.
Qed.
End views.

Definition view_outcome {A B} (f : A → B) (x : Net A * NetResult A * list A)
    : Net B * NetResult B * list B :=
  (view_net f x.1.1, view_result f x.1.2, f <$> x.2).

Section opaque.
Context {A B : Type} (f : A → B).
Implicit Types n : Net A.

(** Updates that two transports make on each other commute with a view. *)
Lemma view_both n a b (g h : LocalTransport A → LocalTransport A)
    (g' h' : LocalTransport B → LocalTransport B) :
  (∀ t, view_transport f (g t) = g' (view_transport f t)) →
  (∀ t, view_transport f (h t) = h' (view_transport f t)) →
  (n <- on_transport (view_net f n) a g';; on_transport n b h') =
  view_net f <$> (n <- on_transport n a g;; on_transport n b h).
Proof.
  intros Hg Hh. rewrite (view_on_transport f n a g) by done.
  destruct (on_transport n a g) as [n'|]; [|done]. simpl. by apply view_on_transport.
Qed.

Lemma view_Connect n a b : Connect (view_net f n) a b = view_net f <$> Connect n a b.
Proof.
  unfold Connect. simpl. rewrite !lookup_fmap.
  destruct (transports n !! a) as [ta|]; [|done]. destruct (transports n !! b) as [tb|]; [|done].
  by apply view_both.
Qed.

Lemma view_Disconnect n a b : Disconnect (view_net f n) a b = view_net f <$> Disconnect n a b.
Proof.
  unfold Disconnect. simpl. rewrite !lookup_fmap.
  destruct (transports n !! a) as [ta|]; [|done]. destruct (transports n !! b) as [tb|]; [|done].
  by apply view_both.
Qed.

Lemma view_select_inbox n k :
  select_inbox (view_net f n) k = option_map (option_map (view_net f)) (select_inbox n k).
Proof.
  unfold select_inbox. simpl. rewrite list_lookup_fmap.
  destruct (pending n !! k) as [p|]; [|done]. simpl. rewrite lookup_fmap.
  destruct (transports n !! pd_peer p) as [t|]; [|done]. simpl.
  destruct (lt_inbox_closed t); [done|]. rewrite length_fmap. case_decide; [|done]. simpl.
  unfold view_net. simpl. rewrite fmap_insert, list_fmap_delete.
  unfold view_transport. simpl. by rewrite fmap_app.
Qed.

(** Every operation treats entries as opaque: it commutes with a view. *)
Lemma net_exec_view n e :
  net_exec (view_net f n) (view_event f e) = view_outcome f <$> net_exec n e.
Proof.
  destruct e as [addr|a b|a b|i target|i target|i target entry|k|k cause|i|i|i]; simpl.
  - unfold view_outcome, view_net. simpl. rewrite fmap_insert, dom_fmap_L. done.
  - rewrite view_Connect. by destruct (Connect n a b).
  - rewrite view_Disconnect. by destruct (Disconnect n a b).
  - unfold Partition. rewrite (view_on_transport f n i
      (fun t => t <| lt_partitioned := {[target]} ∪ lt_partitioned t |>)) by done.
    by destruct (on_transport n i _).
  - unfold Heal. rewrite (view_on_transport f n i
      (fun t => t <| lt_partitioned := lt_partitioned t ∖ {[target]} |>)) by done.
    by destruct (on_transport n i _).
  - unfold Send. simpl. rewrite lookup_fmap. destruct (transports n !! i) as [t|]; [|done]. simpl.
    change (Send_resolve (view_transport f t) target) with (Send_resolve t target).
    destruct (Send_resolve t target); [done|]. unfold view_outcome, view_net, add_pending. simpl.
    by rewrite fmap_app.
  - rewrite view_select_inbox. by destruct (select_inbox n k) as [[]|].
  - unfold select_done. simpl. rewrite list_lookup_fmap. destruct (pending n !! k) as [p|]; [|done].
    simpl. unfold view_outcome, view_net. simpl. by rewrite list_fmap_delete.
  - unfold receive. simpl. rewrite lookup_fmap. destruct (transports n !! i) as [t|]; [|done]. simpl.
    destruct (lt_inbox t) as [|m ms]; simpl; [by destruct (lt_inbox_closed t)|].
    unfold view_outcome, view_net. simpl. by rewrite fmap_insert.
  - unfold Close. simpl. rewrite lookup_fmap. destruct (transports n !! i) as [t|]; [|done]. simpl.
    destruct (lt_closed t); [done|]. rewrite (view_on_transport f n i
      (fun t => t <| lt_closed := true |> <| lt_inbox_closed := true |>)) by done.
    by destruct (on_transport n i _).
  - unfold Reset_drain. simpl. rewrite lookup_fmap. destruct (transports n !! i) as [t|]; [|done].
    simpl. rewrite (view_on_transport f n i
      (fun t => t <| lt_peers := ∅ |> <| lt_partitioned := ∅ |> <| lt_inbox := [] |>)) by done.
    destruct (on_transport n i _); [|done]. simpl. unfold view_outcome. simpl.
    by rewrite <- !list_fmap_compose.
Qed.
End opaque.

(** ** Ownership *)

Definition inbox_entries {E} (t : LocalTransport E) : list E := nmEntry <$> lt_inbox t.

Definition net_entries {E} (n : Net E) : list E :=
  ((fun p => nmEntry (pd_msg p)) <$> pending n) ++
  concat ((fun x => inbox_entries x.2) <$> map_to_list (transports n)).

(** Every entry the program still refers to. *)
Definition owned (w : World) : list nat := w_pool w ++ w_held w ++ net_entries (w_net w).

Lemma concat_insert {E} (m : gmap nat (LocalTransport E)) i t t' :
  m !! i = Some t →
  ∃ rest, concat ((fun x => inbox_entries x.2) <$> map_to_list m) ≡ₚ inbox_entries t ++ rest ∧
    concat ((fun x => inbox_entries x.2) <$> map_to_list (<[i := t']> m)) ≡ₚ
    inbox_entries t' ++ rest.
Proof.
  intros Hi. exists (concat ((fun x => inbox_entries x.2) <$> map_to_list (delete i m))). split.
  - by rewrite <- (insert_delete_id m i t) at 1 by done;
      rewrite map_to_list_insert by apply lookup_delete_eq.
  - rewrite <- insert_delete_eq, map_to_list_insert by apply lookup_delete_eq. done.
Qed.

Lemma entries_update {E} (n : Net E) i t t' ps :
  transports n !! i = Some t →
  ∃ rest, net_entries n ≡ₚ inbox_entries t ++ ((fun p => nmEntry (pd_msg p)) <$> pending n) ++ rest ∧
    net_entries (mkNet (<[i := t']> (transports n)) ps) ≡ₚ
    inbox_entries t' ++ ((fun p => nmEntry (pd_msg p)) <$> ps) ++ rest.
Proof.
  intros Hi. destruct (concat_insert (transports n) i t t' Hi) as (rest & H1 & H2).
  exists rest. unfold net_entries. simpl. rewrite H1, H2. split; solve_Permutation.
Qed.

Lemma on_transport_entries {E} (n : Net E) i f n' :
  on_transport n i f = Some n' → (∀ t, lt_inbox (f t) = lt_inbox t) →
  net_entries n' ≡ₚ net_entries n.
Proof.
  unfold on_transport. intros Hn Hf. inv_seq. injection Hn as <-.
  destruct (entries_update n i a (f a) (pending n) Hm) as (rest & -> & ->).
  unfold inbox_entries. by rewrite Hf.
Qed.

Ltac same_entries :=
  repeat match goal with
  | H : on_transport _ _ _ = Some ?n |- context [net_entries ?n] =>
      rewrite (on_transport_entries _ _ _ _ H) by done; clear H
  end.

Lemma select_inbox_entries {E} (n : Net E) k n' :
  select_inbox n k = Some (Some n') → net_entries n' ≡ₚ net_entries n.
Proof.
  unfold select_inbox. intros Hn. inv_seq. destruct (lt_inbox_closed a0); [done|].
  case_decide; [|done]. injection Hn as <-.
  destruct (entries_update n _ a0 (a0 <| lt_inbox := lt_inbox a0 ++ [pd_msg a] |>)
    (delete k (pending n)) Hm0) as (rest & -> & ->).
  unfold inbox_entries. simpl. rewrite fmap_app. simpl.
  rewrite (delete_Permutation (pending n) k a Hm) at 2. simpl. solve_Permutation.
Qed.

Lemma receive_entries {E} (n : Net E) i m n' :
  receive n i = Some (inr (m, n')) → net_entries n ≡ₚ nmEntry m :: net_entries n'.
Proof.
  unfold receive. intros Hn. inv_seq. destruct (lt_inbox a) as [|m' ms] eqn:Hb; [done|].
  injection Hn as <- <-.
  destruct (entries_update n i a (a <| lt_inbox := ms |>) (pending n) Hm) as (rest & -> & ->).
  unfold inbox_entries. rewrite Hb. done.
Qed.

Lemma select_done_entries {E} (n : Net E) k e n' :
  select_done n k = Some (e, n') → net_entries n ≡ₚ e :: net_entries n'.
Proof.
  unfold select_done. intros Hn. inv_seq. injection Hn as <- <-. unfold net_entries. simpl.
  by rewrite (delete_Permutation (pending n) k a Hm) at 1.
Qed.

Lemma Reset_drain_entries {E} (n : Net E) i es n' :
  Reset_drain n i = Some (es, n') → net_entries n ≡ₚ es ++ net_entries n'.
Proof.
  unfold Reset_drain, on_transport. intros Hn. inv_seq. injection Hn as <- <-. injection Hm0 as <-.
  simplify_eq.
  destruct (entries_update n i a (a <| lt_peers := ∅ |> <| lt_partitioned := ∅ |> <| lt_inbox := [] |>)
    (pending n) Hm) as (rest & -> & ->). done.
Qed.

(** No operation but [Send] makes or loses an entry: they stay in the network,
    are received, or go back to the pool. *)
Lemma net_exec_entries {E} (n : Net E) e n' r rel :
  net_exec n e = Some (n', r, rel) → match e with NtSend _ _ _ => False | _ => True end →
  net_entries n ≡ₚ net_entries n' ++ received r ++ rel.
Proof.
  intros Hex Hs.
  destruct e as [addr|a b|a b|i target|i target|i target entry|k|k cause|i|i|i]; simpl in Hex;
    unfold done_with, Connect, Disconnect, Partition, Heal, Close in Hex; inv_seq; simplify_eq; simpl;
    rewrite ?app_nil_r.
  - unfold net_entries. simpl. rewrite map_to_list_insert; [done|]. apply not_elem_of_dom, is_fresh.
  - by same_entries.
  - by same_entries.
  - by same_entries.
  - by same_entries.
  - done.
  - destruct a as [n2|]; simplify_eq; simpl; rewrite ?app_nil_r; [|done].
    by rewrite (select_inbox_entries _ _ _ Hm).
  - destruct a as [e n2]. simpl. rewrite (select_done_entries _ _ _ _ Hm). solve_Permutation.
  - destruct a as [b|[m n2]]; simplify_eq; simpl.
    + by destruct b; simpl; rewrite app_nil_r.
    + rewrite (receive_entries _ _ _ _ Hm). solve_Permutation.
  - destruct (lt_closed a0); simplify_eq; simpl; rewrite ?app_nil_r; [done|]. inv_seq. simplify_eq.
    simpl. rewrite app_nil_r. by same_entries.
  - destruct a as [es n2]. simpl. rewrite (Reset_drain_entries _ _ _ _ Hm). solve_Permutation.
Qed.

(** ** The heap *)

(** The slice of an entry lies in an array. *)
Definition cell_ok (h : Heap) (c : Cell) : Prop :=
  ∀ s, c_data c = Some s → ∃ a, arrays h !! sl_arr s = Some a ∧ sl_len s ≤ length a.

(** No owned entry but [p] has its data in array [a]. *)
Definition private (h : Heap) (os : list nat) (p a : nat) : Prop :=
  ∀ q c s, q ∈ os → q ≠ p → cells h !! q = Some c → c_data c = Some s → sl_arr s ≠ a.

(** Owned entries are distinct, exist, and share no array. *)
Definition heap_ok (h : Heap) (os : list nat) : Prop :=
  NoDup os ∧
  ∀ p, p ∈ os → ∃ c, cells h !! p = Some c ∧ cell_ok h c ∧
    ∀ s, c_data c = Some s → private h os p (sl_arr s).

#[export] Instance heap_ok_Permutation h : Proper ((≡ₚ) ==> iff) (heap_ok h).
Proof.
  assert (∀ os os' : list nat, os ≡ₚ os' → heap_ok h os → heap_ok h os') as Hp.
  { intros os os' Heq [Hd Hc]. split; [by rewrite <- Heq|].
    intros p Hin. rewrite <- Heq in Hin. destruct (Hc p Hin) as (c & Hpc & Hok & Hpr).
    exists c. split_and!; [done|done|]. intros s Hs q d u Hq. rewrite <- Heq in Hq.
    by apply (Hpr s Hs). }
  intros os os' Heq. split; by apply Hp.
Qed.

Lemma heap_ok_sublist h os os' : NoDup os' → os' ⊆ os → heap_ok h os → heap_ok h os'.
Proof.
  intros Hd Hsub [_ Hc]. split; [done|]. intros p Hp.
  destruct (Hc p) as (c & Hpc & Hok & Hpr); [by apply Hsub|].
  exists c. split_and!; [done|done|]. intros s Hs q d u Hq. apply (Hpr s Hs). by apply Hsub.
Qed.

(** [h'] is [h] with entry [p] rewritten, where every array that changed, and
    the array of the new data, belongs to no other owned entry. *)
Record rewrites (h h' : Heap) (os : list nat) (p : nat) : Prop := {
  rw_cell : ∃ c, cells h' = <[p := c]> (cells h) ∧ cell_ok h' c ∧
    ∀ s, c_data c = Some s → private h os p (sl_arr s);
  rw_arrays : ∀ a, arrays h' !! a = arrays h !! a ∨ private h os p a
}.

(** The other owned entries keep their contents. *)
Lemma rewrites_frame h h' os p q :
  rewrites h h' os p → q ∈ os → q ≠ p → contents h' q = contents h q.
Proof.
  intros [(c & Hcs & _) Har] Hq Hne. unfold contents. rewrite Hcs, lookup_insert_ne by done.
  destruct (cells h !! q) as [d|] eqn:Hd; [|done]. simpl. f_equal. f_equal.
  unfold data_of. destruct (c_data d) as [s|] eqn:Hs; [|done]. unfold slice_bytes.
  destruct (Har (sl_arr s)) as [->|Hpr]; [done|]. by destruct (Hpr q d s).
Qed.

Lemma rewrites_ok h h' os p :
  rewrites h h' os p → heap_ok h os →
  ∀ os', NoDup os' → (∀ q, q ∈ os' → q = p ∨ q ∈ os) → heap_ok h' os'.
Proof.
  intros [(c & Hcs & Hok & Hpriv) Har] [_ Hc] os' Hd Hsub. split; [done|]. intros q Hq.
  rewrite Hcs. destruct (decide (p = q)) as [<-|Hne].
  - exists c. rewrite lookup_insert_eq. split_and!; [done|done|]. intros s Hs r d u Hr Hrp.
    rewrite Hcs, lookup_insert_ne by done. destruct (Hsub r Hr) as [->|Hro]; [done|].
    by apply (Hpriv s Hs).
  - rewrite lookup_insert_ne by done. destruct (Hsub q Hq) as [->|Hqo]; [done|].
    destruct (Hc q Hqo) as (d & Hd' & Hdo & Hdp). exists d. split_and!; [done| |].
    + intros s Hs. destruct (Hdo s Hs) as (a & Ha & Hle).
      destruct (Har (sl_arr s)) as [Hsame|Hpr]; [exists a; by rewrite Hsame|].
      by destruct (Hpr q d s).
    + intros s Hs r e u Hr Hrq. rewrite Hcs. intros [[<- <-]|[Hrp He]]%lookup_insert_Some Hu.
      * intros Heq. by apply (Hpriv u Hu q d s Hqo).
      * destruct (Hsub r Hr) as [->|Hro]; [done|]. by apply (Hdp s Hs r e).
Qed.

Lemma fresh_private h os p : heap_ok h os → private h os p (fresh (dom (arrays h))).
Proof.
  intros [_ Hc] q c s Hq _ Hqc Hs Heq. destruct (Hc q Hq) as (d & Hd & Hok & _). simplify_eq.
  destruct (Hok s Hs) as (a & Ha & _). rewrite Heq in Ha.
  by apply elem_of_dom_2, is_fresh in Ha.
Qed.

(** Writing a cell whose slice is still in the array it was in. *)
Lemma rewrites_set_cell h os p c d :
  heap_ok h os → p ∈ os → cells h !! p = Some c →
  (∀ s, c_data d = Some s → ∃ u, c_data c = Some u ∧ sl_arr s = sl_arr u ∧ sl_len s ≤ sl_len u) →
  rewrites h (set_cell h p d) os p.
Proof.
  intros [_ Hc] Hp Hpc Hd. destruct (Hc p Hp) as (c' & Hc' & Hok & Hpr). simplify_eq.
  split; [|by left]. exists d. split_and!; [done| |].
  - intros s Hs. destruct (Hd s Hs) as (u & Hu & -> & Hle). destruct (Hok u Hu) as (a & Ha & Hla).
    exists a. split; [done|lia].
  - intros s Hs. destruct (Hd s Hs) as (u & Hu & -> & _). by apply Hpr.
Qed.

(** Writing a cell whose data moves to a fresh array. *)
Lemma rewrites_fresh_array h os p d data n :
  heap_ok h os → n ≤ length data →
  c_data d = Some (mkSlice (make_array h data).2 n) →
  rewrites h (set_cell (make_array h data).1 p d) os p.
Proof.
  intros Hok Hle Hd. split; simpl.
  - exists d. split_and!; [done| |]; intros s; rewrite Hd; intros [= <-]; simpl.
    + exists data. by rewrite lookup_insert_eq.
    + by apply fresh_private.
  - intros a. destruct (decide (fresh (dom (arrays h)) = a)) as [<-|Hne].
    + right. by apply fresh_private.
    + left. by rewrite lookup_insert_ne.
Qed.

(** Writing the array of an owned entry in place. *)
Lemma rewrites_in_place h os p c s a a' d n :
  heap_ok h os → p ∈ os → cells h !! p = Some c → c_data c = Some s →
  arrays h !! sl_arr s = Some a → n ≤ length a' → c_data d = Some (mkSlice (sl_arr s) n) →
  rewrites h (mkHeap (<[p := d]> (cells h)) (<[sl_arr s := a']> (arrays h))) os p.
Proof.
  intros [_ Hc] Hp Hpc Hs Ha Hle Hd. destruct (Hc p Hp) as (c' & Hc' & Hok & Hpr). simplify_eq.
  split; simpl.
  - exists d. split_and!; [done| |]; intros u; rewrite Hd; intros [= <-]; simpl.
    + exists a'. by rewrite lookup_insert_eq.
    + by apply Hpr.
  - intros b. destruct (decide (sl_arr s = b)) as [<-|Hne]; [right; by apply Hpr|].
    left. by rewrite lookup_insert_ne.
Qed.

(** ** The pool *)

Definition zero_entry : LogEntry := mkLogEntry 0 0 [] EntryCommand.

Definition pool_ok (h : Heap) (pool : list nat) : Prop :=
  ∀ p, p ∈ pool → contents h p = Some zero_entry.

(** [contents] of the other entries of [os] are as before. *)
Definition frame (h h' : Heap) (os : list nat) (p : nat) : Prop :=
  ∀ q, q ∈ os → q ≠ p → contents h' q = contents h q.

Lemma contents_set_cell h p d :
  contents (set_cell h p d) p = Some (mkLogEntry (c_index d) (c_term d) (data_of h d) (c_type d)).
Proof. unfold contents. simpl. by rewrite lookup_insert_eq. Qed.

Lemma new_entry_ok h os :
  heap_ok h os →
  heap_ok (new_entry h).1 ((new_entry h).2 :: os) ∧ ((new_entry h).2 ∉ os) ∧
  contents (new_entry h).1 (new_entry h).2 = Some zero_entry ∧
  ∀ q, q ∈ os → contents (new_entry h).1 q = contents h q.
Proof.
  intros Hok. pose proof (is_fresh (dom (cells h))) as Hf.
  assert (fresh (dom (cells h)) ∉ os) as Hnew.
  { intros Hin. destruct Hok as [_ Hc]. destruct (Hc _ Hin) as (c & Hc' & _).
    by apply Hf, elem_of_dom_2 with c. }
  assert (rewrites h (new_entry h).1 os (fresh (dom (cells h)))) as Hrw.
  { apply (rewrites_fresh_array h os _ (mkCell 0 0 EntryCommand (Some (mkSlice _ 0)))
      (replicate 256 x00) 0); [done|lia|done]. }
  split_and!; [| done| |].
  - eapply rewrites_ok; [done|done| |].
    + constructor; [done|apply Hok].
    + intros q [->|Hq]%elem_of_cons; [by left|by right].
  - unfold new_entry. simpl. by rewrite contents_set_cell.
  - intros q Hq. eapply rewrites_frame; [done|done|]. by intros ->.
Qed.

(** [AcquireEntry] leases an entry that nobody else has, all of whose fields
    are zero. *)
Lemma AcquireEntry_ok h pool rest pick h' pool' p :
  heap_ok h (pool ++ rest) → pool_ok h pool → AcquireEntry h pool pick = (h', pool', p) →
  heap_ok h' (p :: pool' ++ rest) ∧ contents h' p = Some zero_entry ∧ pool_ok h' pool' ∧
  ∀ q, q ∈ pool ++ rest → contents h' q = contents h q.
Proof.
  intros Hok Hz Hget.
  assert (∀ h2 pool2 p2,
    (let '(h, p) := new_entry h in (h, pool, p)) = (h2, pool2, p2) →
    heap_ok h2 (p2 :: pool2 ++ rest) ∧ contents h2 p2 = Some zero_entry ∧ pool_ok h2 pool2 ∧
    ∀ q, q ∈ pool ++ rest → contents h2 q = contents h q) as Hnew.
  { intros h2 pool2 p2 Hn. destruct (new_entry_ok h _ Hok) as (H1 & _ & H2 & H3).
    destruct (new_entry h) as [h3 p3]. simplify_eq. split_and!; [done|done| |done].
    intros q Hq. rewrite H3 by (apply elem_of_app; by left). by apply Hz. }
  unfold AcquireEntry in Hget. destruct pick as [i|]; [|by apply Hnew].
  destruct (pool !! i) as [p0|] eqn:Hi; [|by apply Hnew]. simplify_eq.
  split_and!; [|by apply Hz, list_elem_of_lookup_2 with i| |done].
  - by rewrite app_comm_cons, <- (delete_Permutation pool i p Hi).
  - intros q Hq. apply Hz. rewrite (delete_Permutation pool i p Hi). by apply elem_of_cons; right.
Qed.

(** [ReleaseEntry] zeroes the entry and gives it back. *)
Lemma ReleaseEntry_ok h pool rest p :
  heap_ok h (p :: pool ++ rest) → pool_ok h pool →
  ∃ h', ReleaseEntry h pool (Some p) = Some (h', pool ++ [p]) ∧
    heap_ok h' ((pool ++ [p]) ++ rest) ∧ pool_ok h' (pool ++ [p]) ∧ frame h h' (pool ++ rest) p.
Proof.
  intros Hok Hz. pose proof Hok as [Hd Hc]. apply NoDup_cons in Hd as [Hp Hd].
  destruct (Hc p) as (c & Hpc & Hco & _); [by left|].
  assert (rewrites h (set_cell h p (reset_cell c)) (p :: pool ++ rest) p) as Hrw.
  { eapply rewrites_set_cell; [done|by left|done|]. simpl. intros s Hs.
    apply fmap_Some in Hs as (u & Hu & ->). exists u. split_and!; [done|done|simpl; lia]. }
  exists (set_cell h p (reset_cell c)). simpl. rewrite Hpc. split_and!; [done| | |].
  - assert ((pool ++ [p]) ++ rest ≡ₚ p :: pool ++ rest) as -> by solve_Permutation.
    eapply rewrites_ok; [done|done|by constructor|]. auto.
  - intros q [Hq|Hq%list_elem_of_singleton]%elem_of_app; [|subst q].
    + rewrite (rewrites_frame _ _ _ _ q Hrw); [by apply Hz|..].
      * apply elem_of_cons. right. apply elem_of_app. by left.
      * intros ->. apply Hp, elem_of_app. by left.
    + rewrite contents_set_cell. unfold zero_entry. simpl. do 2 f_equal.
      unfold data_of. simpl. destruct (c_data c) as [s|]; [|done]. done.
  - intros q Hq Hne. eapply rewrites_frame; [done| |done]. by apply elem_of_cons; right.
Qed.

Lemma release_all_ok h pool rest ps :
  heap_ok h (ps ++ pool ++ rest) → pool_ok h pool →
  ∃ h', release_all h pool ps = Some (h', pool ++ ps) ∧
    heap_ok h' ((pool ++ ps) ++ rest) ∧ pool_ok h' (pool ++ ps) ∧
    ∀ q, q ∈ rest → contents h' q = contents h q.
Proof.
  revert h pool. induction ps as [|p ps IH]; intros h pool Hok Hz; simpl.
  - exists h. rewrite app_nil_r. by split_and!.
  - assert (heap_ok h (p :: pool ++ (ps ++ rest))) as Hok'.
    { eapply heap_ok_Permutation, Hok. solve_Permutation. }
    destruct (ReleaseEntry_ok _ _ _ _ Hok' Hz) as (h1 & Hr & Hok1 & Hz1 & Hf1).
    simpl in Hr. rewrite Hr. cbn [seq_bind fst snd].
    destruct (IH h1 (pool ++ [p])) as (h2 & Hr2 & Hok2 & Hz2 & Hf2).
    { eapply heap_ok_Permutation, Hok1. solve_Permutation. }
    { done. }
    assert ((pool ++ [p]) ++ ps = pool ++ p :: ps) as Heq by (by rewrite <- app_assoc).
    rewrite Heq in Hr2, Hok2, Hz2. exists h2. split_and!; [done|done|done|].
    intros q Hq. rewrite Hf2 by done. apply Hf1; [set_solver|]. intros ->.
    destruct Hok' as [[Hp _]%NoDup_cons _]. apply Hp. set_solver.
Qed.

(** ** Copies and writes *)

(** The clone gets the contents of the entry, in memory of its own. *)
Lemma fill_clone_ok h os clone entry :
  heap_ok h os → clone ∈ os → entry ∈ os → clone ≠ entry →
  ∃ h', fill_clone h clone entry = Some h' ∧ heap_ok h' os ∧
    contents h' clone = contents h entry ∧ frame h h' os clone.
Proof.
  intros Hok Hcl Hen Hne. pose proof Hok as [Hd Hc].
  destruct (Hc entry Hen) as (e & He & _), (Hc clone Hcl) as (c & Hcc & _).
  unfold fill_clone, contents. rewrite He, Hcc. cbn [seq_bind]. cbv zeta.
  set (c1 := c <| c_index := c_index e |> <| c_term := c_term e |> <| c_type := c_type e |>).
  assert (∀ h' d, rewrites h (set_cell h' clone d) os clone →
    c_index d = c_index e ∧ c_term d = c_term e ∧ c_type d = c_type e →
    data_of h' d = data_of h e →
    ∃ h2, Some (set_cell h' clone d) = Some h2 ∧ heap_ok h2 os ∧
      contents h2 clone = Some (mkLogEntry (c_index e) (c_term e) (data_of h e) (c_type e)) ∧
      frame h h2 os clone) as Hdone.
  { intros h' d Hrw (Hi & Ht & Hty) Hda. eexists. split_and!; [done| | |].
    - eapply rewrites_ok; [done|done|done|]. auto.
    - rewrite contents_set_cell. congruence.
    - intros q Hq. by eapply rewrites_frame. }
  case_decide as Hlen.
  - destruct (make_array h (data_of h e)) as [h1 a] eqn:Hma. apply Hdone; [|done|].
    + assert (h1 = (make_array h (data_of h e)).1) as -> by (by rewrite Hma).
      apply (rewrites_fresh_array h os clone _ _ (length (data_of h e))); [done|lia|].
      by rewrite Hma.
    + unfold make_array in Hma. simplify_eq. unfold data_of at 1. simpl. unfold slice_bytes. simpl.
      by rewrite lookup_insert_eq, firstn_all.
  - apply Hdone; [|done|].
    + eapply rewrites_set_cell; [done|done|done|]. simpl. intros s Hs.
      apply fmap_Some in Hs as (u & Hu & ->). exists u. split_and!; [done|done|simpl; lia].
    + destruct (data_of h e); [|simpl in Hlen; lia]. unfold data_of. simpl.
      by destruct (c_data c).
Qed.

(** A write through [p] changes the contents of [p] alone. *)
Definition writes (h h' : Heap) (os : list nat) (p : nat) : Prop :=
  heap_ok h' os ∧ frame h h' os p.

Lemma rewrites_writes h h' os p :
  heap_ok h os → p ∈ os → rewrites h h' os p → writes h h' os p.
Proof.
  intros Hok Hp Hrw. split.
  - eapply rewrites_ok; [done|done|apply Hok|]. auto.
  - intros q Hq. by eapply rewrites_frame.
Qed.

Lemma set_fields_writes h os p c index term ty :
  heap_ok h os → p ∈ os → cells h !! p = Some c →
  writes h (set_cell h p (c <| c_index := index |> <| c_term := term |> <| c_type := ty |>)) os p.
Proof.
  intros Hok Hp Hc. apply rewrites_writes; [done|done|].
  eapply rewrites_set_cell; [done|done|done|]. simpl. intros s Hs. by exists s.
Qed.

Lemma poke_writes h os p i b h' :
  heap_ok h os → p ∈ os → poke h p i b = Some h' → writes h h' os p.
Proof.
  intros Hok Hp Hex. apply rewrites_writes; [done|done|]. unfold poke in Hex. inv_seq.
  case_decide as Hi; [|done]. injection Hex as <-.
  rename a into c, a0 into s, a1 into bs.
  destruct (proj2 Hok p Hp) as (c' & Hc & Hco & _). rewrite Hm in Hc. injection Hc as <-.
  destruct (Hco _ Hm0) as (bs' & Hbs & Hle). rewrite Hm1 in Hbs. injection Hbs as <-.
  rewrite <- (insert_id (cells h) p c Hm) at 1.
  eapply (rewrites_in_place h os p c s _ _ c (sl_len s)); try done.
  - by rewrite length_insert.
  - by destruct s.
Qed.

Lemma append_data_writes h os p data spare h' :
  heap_ok h os → p ∈ os → append_data h p data spare = Some h' → writes h h' os p.
Proof.
  intros Hok Hp Hex. apply rewrites_writes; [done|done|]. unfold append_data in Hex. inv_seq.
  assert (∀ old, (let '(h', a0) := make_array h (old ++ data ++ replicate spare x00) in
     Some (set_cell h' p (a <| c_data := Some (mkSlice a0 (length old + length data)) |>)))
     = Some h' → rewrites h h' os p) as Hgrow.
  { intros old. destruct (make_array h (old ++ data ++ replicate spare x00)) as [h1 b] eqn:Hma. intros [= <-].
    assert (h1 = (make_array h (old ++ data ++ replicate spare x00)).1) as -> by (by rewrite Hma).
    apply (rewrites_fresh_array h os p _ _ (length old + length data));
      [done|rewrite !length_app; lia|]. by rewrite Hma. }
  cbv zeta in Hex. destruct (c_data a) as [s|] eqn:Hs; [|by apply (Hgrow [])]. inv_seq.
  case_decide as Hcap; [|by apply (Hgrow (slice_bytes h s))]. injection Hex as <-.
  eapply (rewrites_in_place _ _ _ _ _ _ _ _ (sl_len s + length data)); try done.
  rewrite !length_app, length_take, length_drop. lia.
Qed.

(** ** The invariant *)

(** No inbox overflows, and a closed transport is one whose channel is closed. *)
Definition net_ok {E} (n : Net E) : Prop :=
  ∀ i t, transports n !! i = Some t →
    length (lt_inbox t) ≤ defaultInboxSize ∧ lt_closed t = lt_inbox_closed t.

Record world_ok (w : World) : Prop := {
  wk_heap : heap_ok (w_heap w) (owned w);
  wk_pool : pool_ok (w_heap w) (w_pool w);
  wk_net : net_ok (w_net w)
}.

Lemma net_ok_insert {E} (n : Net E) i t ps :
  net_ok n → length (lt_inbox t) ≤ defaultInboxSize → lt_closed t = lt_inbox_closed t →
  net_ok (mkNet (<[i := t]> (transports n)) ps).
Proof.
  intros Hok Hl Hc j u. simpl. intros [[<- <-]|[_ Hu]]%lookup_insert_Some; [done|by apply (Hok j)].
Qed.

Lemma net_ok_on {E} (n : Net E) i f n' :
  net_ok n → on_transport n i f = Some n' →
  (∀ t, length (lt_inbox t) ≤ defaultInboxSize → lt_closed t = lt_inbox_closed t →
     length (lt_inbox (f t)) ≤ defaultInboxSize ∧ lt_closed (f t) = lt_inbox_closed (f t)) →
  net_ok n'.
Proof.
  intros Hok Hn Hf. unfold on_transport in Hn. inv_seq. injection Hn as <-.
  destruct (Hok i a Hm) as [Hl Hc]. apply net_ok_insert; [done|by apply Hf..].
Qed.

Ltac net_ok_on :=
  repeat match goal with
  | Hok : net_ok ?n, H : on_transport ?n _ _ = Some ?n' |- _ =>
      assert (net_ok n') by (apply (net_ok_on n _ _ n' Hok H); simpl; auto with lia); clear H
  end; done.

Lemma select_inbox_ok {E} (n : Net E) k n' :
  net_ok n → select_inbox n k = Some (Some n') → net_ok n'.
Proof.
  intros Hok Hn. unfold select_inbox in Hn. inv_seq.
  destruct (lt_inbox_closed a0) eqn:Hc; [done|]. case_decide as Hl; simplify_eq.
  destruct (Hok _ _ Hm0) as [_ Heq].
  apply net_ok_insert; simpl; [done|rewrite length_app; simpl; lia|by rewrite Heq].
Qed.

Lemma receive_ok {E} (n : Net E) i m n' :
  net_ok n → receive n i = Some (inr (m, n')) → net_ok n'.
Proof.
  intros Hok Hn. unfold receive in Hn. inv_seq.
  destruct (lt_inbox a) as [|m' ms] eqn:Hb; simplify_eq.
  destruct (Hok _ _ Hm) as [Hl Heq]. rewrite Hb in Hl. simpl in Hl.
  apply net_ok_insert; simpl; [done|lia|done].
Qed.

Lemma Close_ok {E} (n : Net E) i err n' :
  net_ok n → Close n i = Some (err, n') → net_ok n'.
Proof.
  intros Hok Hn. unfold Close in Hn. inv_seq. destruct (lt_closed a); simplify_eq; [done|].
  inv_seq. simplify_eq. net_ok_on.
Qed.

Lemma net_exec_ok {E} (n : Net E) e n' r rel :
  net_ok n → net_exec n e = Some (n', r, rel) → net_ok n'.
Proof.
  intros Hok Hex.
  destruct e as [addr|a b|a b|i target|i target|i target entry|k|k cause|i|i|i]; simpl in Hex;
    unfold done_with, Connect, Disconnect, Partition, Heal, Send, select_done, Reset_drain in Hex;
    inv_seq; simplify_eq; try net_ok_on.
  - apply net_ok_insert; simpl; [done|lia|done].
  - by case_match; simplify_eq.
  - case_match; simplify_eq; [|done]. by eapply select_inbox_ok.
  - destruct a as [bl|[m n2]]; simplify_eq; [done|]. by eapply receive_ok.
  - destruct a as [err n2]. simpl. by eapply Close_ok.
Qed.

Lemma view_net_ext {A B} (f g : A → B) (n : Net A) :
  (∀ p, p ∈ net_entries n → f p = g p) → view_net f n = view_net g n.
Proof.
  intros Hfg. unfold view_net. f_equal.
  - apply map_eq. intros i. rewrite !lookup_fmap. destruct (transports n !! i) as [t|] eqn:Ht; [|done].
    simpl. unfold view_transport. do 2 f_equal. apply list_fmap_ext. intros k m Hm.
    unfold view_msg. f_equal. apply Hfg. apply elem_of_app. right.
    destruct (concat_insert (transports n) i t t Ht) as (rest & -> & _).
    apply elem_of_app. left. unfold inbox_entries. apply list_elem_of_fmap.
    exists m. split; [done|by apply list_elem_of_lookup_2 with k].
  - apply list_fmap_ext. intros k p Hp. unfold view_pending, view_msg. do 2 f_equal. apply Hfg.
    apply elem_of_app. left. apply list_elem_of_fmap. exists p.
    split; [done|by apply list_elem_of_lookup_2 with k].
Qed.

(** ** Simulation of the network over values *)

Definition value (h : Heap) (p : nat) : LogEntry := default zero_entry (contents h p).

(** What the network is for somebody who sees entries, not pointers. *)
Definition observe (w : World) : Net LogEntry := view_net (value (w_heap w)) (w_net w).

(** The call a program event makes, over values. *)
Definition meaning (w : World) (e : WorldEvent) : option (NetEvent LogEntry) :=
  match e with
  | WNet ev => Some (view_event (value (w_heap w)) ev)
  | WSend i target p _ => Some (NtSend i target (value (w_heap w) p))
  | _ => None
  end.

(** The entry an event writes on behalf of its holder. *)
Definition written (e : WorldEvent) : option nat :=
  match e with WSetFields p _ _ _ | WPoke p _ _ | WAppend p _ _ => Some p | _ => None end.

(** [w] to [w'] by [e]: the network over values makes the same step with the
    same result, and no other caller's entry changes. *)
Definition matched (w : World) (e : WorldEvent) (w' : World) (r : NetResult nat) : Prop :=
  match meaning w e with
  | Some ev => ∃ rel, net_exec (observe w) ev =
      Some (observe w', view_result (value (w_heap w')) r, rel)
  | None => observe w' = observe w
  end ∧
  ∀ q, q ∈ w_held w → q ∈ w_held w' → written e ≠ Some q →
    value (w_heap w') q = value (w_heap w) q.

Lemma elem_of_owned w p :
  p ∈ owned w ↔ p ∈ w_pool w ∨ p ∈ w_held w ∨ p ∈ net_entries (w_net w).
Proof. unfold owned. by rewrite !elem_of_app. Qed.

Lemma held_elsewhere w p :
  world_ok w → p ∈ w_held w → (p ∉ w_pool w) ∧ (p ∉ net_entries (w_net w)).
Proof.
  intros [[Hd _] _ _] Hp. unfold owned in Hd.
  apply NoDup_app in Hd as (_ & H1 & (_ & H2 & _)%NoDup_app). split.
  - intros Hq. apply (H1 _ Hq), elem_of_app. by left.
  - by apply H2.
Qed.

Lemma value_eq h h' p : contents h' p = contents h p → value h' p = value h p.
Proof. unfold value. by intros ->. Qed.

(** Calls other than [Send]. *)
Lemma matched_net w e w' r :
  world_ok w → allowed w (WNet e) → world_exec w (WNet e) = Some (w', r) →
  world_ok w' ∧ matched w (WNet e) w' r.
Proof.
  intros Hw Hal Hex. destruct w as [n h pool held]. simpl in Hex. inv_seq. injection Hex as <- <-.
  destruct a as [[n' r] rel]. cbn [fst snd] in *.
  assert (match e with NtSend _ _ _ => False | _ => True end) as Hns by (by destruct e).
  pose proof (net_exec_entries n e n' r rel Hm Hns) as Hperm.
  assert (heap_ok h (rel ++ pool ++ (held ++ received r ++ net_entries n'))) as Hok.
  { eapply heap_ok_Permutation, (wk_heap _ Hw). unfold owned. simpl. rewrite Hperm.
    solve_Permutation. }
  destruct (release_all_ok h pool _ rel Hok (wk_pool _ Hw)) as (h' & Hr & Hok' & Hz & Hf).
  rewrite Hr in Hm0. injection Hm0 as <-. cbn [fst snd]. split; [split|split]; simpl.
  - unfold owned. simpl. by rewrite <- (assoc app held).
  - done.
  - by eapply net_exec_ok; [apply (wk_net _ Hw)|].
  - exists (value h <$> rel). unfold observe. simpl. rewrite net_exec_view, Hm. simpl.
    unfold view_outcome. simpl. f_equal. f_equal. f_equal.
    + apply view_net_ext. intros p Hp. symmetry. apply value_eq, Hf. set_solver.
    + destruct r; try done. simpl. unfold view_msg. do 2 f_equal. symmetry. apply value_eq, Hf.
      simpl. set_solver.
  - intros q Hq _ _. apply value_eq, Hf. set_solver.
Qed.

Lemma view_add_pending {A B} (f : A → B) n p :
  view_net f (add_pending n p) = add_pending (view_net f n) (view_pending f p).
Proof. unfold view_net, add_pending. simpl. by rewrite fmap_app. Qed.

(** [Send]: the clone is in nobody's hands, and gets the value of the entry. *)
Lemma matched_send w i target p pick w' r :
  world_ok w → p ∈ w_held w → world_exec w (WSend i target p pick) = Some (w', r) →
  world_ok w' ∧ matched w (WSend i target p pick) w' r.
Proof.
  intros Hw Hp Hex. destruct (held_elsewhere w p Hw Hp) as [Hpp Hpn].
  destruct w as [n h pool held]. unfold matched, observe. cbn [meaning w_net w_heap w_pool w_held] in *.
  change (NtSend i target (value h p)) with (view_event (value h) (NtSend i target p)).
  rewrite net_exec_view. simpl in *. unfold Send in *. inv_seq. rename a into t. rewrite Hm. simpl.
  destruct (Send_resolve t target) as [err|peer] eqn:Hres.
  { injection Hex as <- <-. split; [done|]. split; [by eexists|done]. }
  destruct (AcquireEntry h pool pick) as [[h1 pool1] clone] eqn:Hget.
  destruct (AcquireEntry_ok h pool (held ++ net_entries n) pick h1 pool1 clone
    (wk_heap _ Hw) (wk_pool _ Hw) Hget) as (Hok1 & Hzc & Hz1 & Hf1).
  pose proof Hok1 as [[Hcn _]%NoDup_cons _].
  assert (clone ≠ p) as Hne by (intros ->; set_solver).
  destruct (fill_clone_ok h1 _ clone p Hok1) as (h2 & Hfill & Hok2 & Hc2 & Hf2); [set_solver..|].
  rewrite Hfill in Hex. cbn [seq_bind] in Hex. rewrite Hm in Hex. cbn [seq_bind] in Hex.
  rewrite Hres in Hex. injection Hex as <- <-. cbn [fst snd].
  assert (∀ q, q ∈ held ++ net_entries n → contents h2 q = contents h q) as Hf.
  { intros q Hq. rewrite Hf2, Hf1; [done|set_solver..|intros ->; set_solver]. }
  split; [split|split]; simpl.
  - unfold owned. simpl. eapply heap_ok_Permutation, Hok2.
    unfold net_entries, add_pending. simpl. rewrite fmap_app. simpl. solve_Permutation.
  - intros q Hq. rewrite Hf2; [by apply Hz1|set_solver|intros ->; set_solver].
  - apply (wk_net _ Hw).
  - exists []. unfold view_outcome. simpl. rewrite !view_add_pending.
    rewrite (view_net_ext (value h2) (value h) n)
      by (intros q Hq; apply value_eq, Hf; set_solver).
    unfold view_pending, view_msg. simpl.
    assert (value h2 clone = value h p) as ->; [|done].
    unfold value. by rewrite Hc2, Hf1 by set_solver.
  - intros q Hq _ _. apply value_eq, Hf. set_solver.
Qed.

Lemma remove_one_Permutation p ps : p ∈ ps → ps ≡ₚ p :: remove_one p ps.
Proof.
  induction ps as [|q ps IH]; [by intros ?%not_elem_of_nil|]. simpl.
  intros [->|Hp]%elem_of_cons; [by rewrite decide_True|]. case_decide as Hq; [by subst|].
  rewrite IH at 1 by done. apply perm_swap.
Qed.

(** A write through a held entry is not observed in the network. *)
Lemma matched_write w e p h' :
  world_ok w → p ∈ w_held w → written e = Some p → meaning w e = None →
  writes (w_heap w) h' (owned w) p →
  world_ok (mkWorld (w_net w) h' (w_pool w) (w_held w)) ∧
  matched w e (mkWorld (w_net w) h' (w_pool w) (w_held w)) NrDone.
Proof.
  intros Hw Hp He Hme [Hok Hf]. destruct (held_elsewhere w p Hw Hp) as [Hpp Hpn].
  unfold matched. rewrite Hme, He. split; [split|split]; simpl.
  - done.
  - intros q Hq. rewrite Hf; [by apply (wk_pool _ Hw)|by apply elem_of_owned; left|].
    by intros ->.
  - apply (wk_net _ Hw).
  - apply view_net_ext. intros q Hq. apply value_eq, Hf; [|by intros ->].
    apply elem_of_owned. by right; right.
  - intros q Hq _ Hne. apply value_eq, Hf; [|congruence]. apply elem_of_owned. by right; left.
Qed.

Lemma matched_acquire w pick w' r :
  world_ok w → world_exec w (WAcquire pick) = Some (w', r) →
  world_ok w' ∧ matched w (WAcquire pick) w' r.
Proof.
  intros Hw Hex. destruct w as [n h pool held]. simpl in Hex.
  destruct (AcquireEntry h pool pick) as [[h1 pool1] p] eqn:Hget. injection Hex as <- <-.
  destruct (AcquireEntry_ok h pool (held ++ net_entries n) pick h1 pool1 p
    (wk_heap _ Hw) (wk_pool _ Hw) Hget) as (Hok1 & _ & Hz1 & Hf1).
  split; [split|split]; simpl.
  - eapply heap_ok_Permutation, Hok1. unfold owned. simpl. solve_Permutation.
  - done.
  - apply (wk_net _ Hw).
  - apply view_net_ext. intros q Hq. apply value_eq, Hf1. simpl in Hq. set_solver.
  - intros q Hq _ _. apply value_eq, Hf1. set_solver.
Qed.

Lemma matched_release w p w' r :
  world_ok w → p ∈ w_held w → world_exec w (WRelease p) = Some (w', r) →
  world_ok w' ∧ matched w (WRelease p) w' r.
Proof.
  intros Hw Hp Hex. destruct (held_elsewhere w p Hw Hp) as [Hpp Hpn].
  destruct w as [n h pool held]. cbn [w_pool w_held w_net] in *.
  pose proof (remove_one_Permutation p held Hp) as Hperm.
  assert (heap_ok h (p :: pool ++ (remove_one p held ++ net_entries n))) as Hok.
  { eapply heap_ok_Permutation, (wk_heap _ Hw). unfold owned. simpl.
    rewrite Hperm at 2. solve_Permutation. }
  destruct (ReleaseEntry_ok h pool _ p Hok (wk_pool _ Hw)) as (h' & Hr & Hok' & Hz & Hf).
  cbn [world_exec w_pool w_held w_net w_heap] in Hex. rewrite Hr in Hex. injection Hex as <- <-.
  cbn [fst snd]. split; [split|split]; simpl.
  - done.
  - done.
  - apply (wk_net _ Hw).
  - apply view_net_ext. intros q Hq. apply value_eq, Hf; [simpl in Hq; set_solver|]. by intros ->.
  - intros q _ Hq _. apply value_eq, Hf; [set_solver|]. intros ->.
    destruct Hok as [[Hn _]%NoDup_cons _]. apply Hn. set_solver.
Qed.

Lemma world_exec_matched w e w' r :
  world_ok w → allowed w e → world_exec w e = Some (w', r) → world_ok w' ∧ matched w e w' r.
Proof.
  intros Hw Hal Hex.
  assert (∀ p, p ∈ w_held w → p ∈ owned w) as Hin by (intros; apply elem_of_owned; auto).
  destruct e as [e|i target p pick|pick|p|p index term ty|p i b|p data spare]; simpl in Hal.
  - by apply matched_net.
  - by apply matched_send.
  - by apply matched_acquire.
  - by apply matched_release.
  - simpl in Hex. inv_seq. injection Hex as <- <-. apply (matched_write w _ p); try done.
    apply set_fields_writes; [apply Hw|by apply Hin|done].
  - simpl in Hex. inv_seq. injection Hex as <- <-. apply (matched_write w _ p); try done.
    eapply poke_writes; [apply Hw|by apply Hin|done].
  - simpl in Hex. inv_seq. injection Hex as <- <-. apply (matched_write w _ p); try done.
    eapply append_data_writes; [apply Hw|by apply Hin|done].
Qed.

Lemma world0_ok : world_ok world0.
Proof.
  split; simpl.
  - split; [apply NoDup_nil_2|]. by intros p ?%not_elem_of_nil.
  - by intros p ?%not_elem_of_nil.
  - intros i t Ht. simpl in Ht. by rewrite lookup_empty in Ht.
Qed.

Lemma world_steps_ok w w' : world_ok w → rtc world_step w w' → world_ok w'.
Proof.
  intros Hw Hs. induction Hs as [|w1 w2 w3 (e & r & Hal & Hex) _ IH]; [done|].
  apply IH. by eapply world_exec_matched.
Qed.

(** ** Channels keep the order *)

Section order.
Context {E : Type}.
Implicit Types (n : Net E) (e : NetEvent E) (r : NetResult E).

(** What one event, run from [n] with result [r], does to messages: sent, put
    into an inbox, given up, received. *)
Definition ev_sent n e r : list (NetMessage E) :=
  match e, r with
  | NtSend i _ entry, NrBlocked =>
      match transports n !! i with Some t => [mkNetMessage (lt_addr t) entry] | None => [] end
  | _, _ => []
  end.

Definition ev_put n e r : list (nat * NetMessage E) :=
  match e, r with
  | NtSelect k, NrDone =>
      match pending n !! k with Some p => [(pd_peer p, pd_msg p)] | None => [] end
  | _, _ => []
  end.

Definition ev_given_up n e : list (NetMessage E) :=
  match e with
  | NtCancel k _ => match pending n !! k with Some p => [pd_msg p] | None => [] end
  | _ => []
  end.

Definition ev_got e r : list (nat * NetMessage E) :=
  match e, r with NtReceive i, NrGot m => [(i, m)] | _, _ => [] end.

(** A run, as the list of its events with the state before and the result. *)
Fixpoint net_run n (es : list (NetEvent E)) : option (Net E * list (Net E * NetEvent E * NetResult E)) :=
  match es with
  | [] => Some (n, [])
  | e :: es' => x <- net_exec n e;; y <- net_run x.1.1 es';; Some (y.1, (n, e, x.1.2) :: y.2)
  end.

Definition along {A} (f : Net E → NetEvent E → NetResult E → list A)
    (tr : list (Net E * NetEvent E * NetResult E)) : list A :=
  concat ((fun x => f x.1.1 x.1.2 x.2) <$> tr).

(** The messages of a list that concern inbox [i]. *)
Definition at_inbox (i : nat) (ms : list (nat * NetMessage E)) : list (NetMessage E) :=
  (filter (fun x => x.1 = i) ms).*2.

Definition inbox_of n (i : nat) : list (NetMessage E) :=
  match transports n !! i with Some t => lt_inbox t | None => [] end.

Lemma at_inbox_app i ms ms' : at_inbox i (ms ++ ms') = at_inbox i ms ++ at_inbox i ms'.
Proof. unfold at_inbox. by rewrite filter_app, fmap_app. Qed.

Lemma inbox_insert n j t ps i :
  inbox_of (mkNet (<[j := t]> (transports n)) ps) i =
  if decide (j = i) then lt_inbox t else inbox_of n i.
Proof.
  unfold inbox_of. simpl. case_decide as Hi; [by subst; rewrite lookup_insert_eq|].
  by rewrite lookup_insert_ne.
Qed.

Lemma inbox_on n j f n' i :
  on_transport n j f = Some n' → (∀ t, lt_inbox (f t) = lt_inbox t) → inbox_of n' i = inbox_of n i.
Proof.
  unfold on_transport. intros Hn Hf. inv_seq. injection Hn as <-. rewrite inbox_insert, Hf.
  case_decide as Hi; [|done]. subst. unfold inbox_of. by rewrite Hm.
Qed.

Lemma pending_on n j f n' : on_transport n j f = Some n' → pending n' = pending n.
Proof. unfold on_transport. intros Hn. inv_seq. by injection Hn as <-. Qed.

Ltac same_inbox :=
  repeat match goal with
  | H : on_transport _ _ _ = Some ?n |- context [inbox_of ?n _] =>
      rewrite (inbox_on _ _ _ _ _ H) by done; clear H
  end; done.

Ltac same_pending :=
  repeat match goal with
  | H : on_transport _ _ _ = Some ?n |- context [pending ?n] =>
      rewrite (pending_on _ _ _ _ H); clear H
  end; done.

Lemma select_inbox_order n k n' i :
  select_inbox n k = Some (Some n') →
  inbox_of n i ++ at_inbox i (ev_put n (NtSelect k) NrDone) = inbox_of n' i.
Proof.
  unfold select_inbox. intros Hn. inv_seq. destruct (lt_inbox_closed a0); [done|].
  case_decide; simplify_eq. simpl. rewrite Hm, inbox_insert. unfold at_inbox, filter. simpl.
  destruct (decide (pd_peer a = i)) as [<-|Hne]; simpl; [|by rewrite app_nil_r].
  unfold inbox_of. by rewrite Hm0.
Qed.

Lemma receive_order n j m n' i :
  receive n j = Some (inr (m, n')) →
  inbox_of n i = at_inbox i [(j, m)] ++ inbox_of n' i.
Proof.
  unfold receive. intros Hn. inv_seq. destruct (lt_inbox a) as [|m' ms] eqn:Hb; simplify_eq.
  rewrite inbox_insert. unfold at_inbox, filter. simpl.
  destruct (decide (j = i)) as [<-|Hne]; simpl; [|done]. unfold inbox_of. by rewrite Hm.
Qed.

(** One event: an inbox grows at its end and shrinks at its front. *)
Lemma net_exec_order n e n' r rel i :
  net_exec n e = Some (n', r, rel) → e ≠ NtReset i →
  inbox_of n i ++ at_inbox i (ev_put n e r) = at_inbox i (ev_got e r) ++ inbox_of n' i.
Proof.
  intros Hex Hne.
  destruct e as [addr|a b|a b|j target|j target|j target entry|k|k cause|j|j|j];
    simpl in Hex; unfold done_with, Connect, Disconnect, Partition, Heal, Send, Close,
      select_done, Reset_drain in Hex; inv_seq; simplify_eq; cbn [ev_put ev_got];
    try (rewrite app_nil_r; simpl; same_inbox).
  - rewrite app_nil_r, inbox_insert. case_decide as Hi; [|done]. subst i. unfold inbox_of.
    by rewrite (not_elem_of_dom_1 (transports n) _ (is_fresh _)).
  - rewrite app_nil_r. by destruct (Send_resolve _ _); simplify_eq.
  - destruct a as [n2|]; simplify_eq; [|by rewrite app_nil_r]. by apply select_inbox_order.
  - destruct a as [bl|[m n2]]; simplify_eq; rewrite app_nil_r; [by destruct bl|].
    by apply receive_order.
  - rewrite app_nil_r. destruct (lt_closed a0); simplify_eq; [done|]. inv_seq. simplify_eq.
    simpl. same_inbox.
  - rewrite app_nil_r. simpl. unfold on_transport in *. inv_seq. simplify_eq.
    rewrite inbox_insert, decide_False by congruence. done.
Qed.

(** One event: a message that was sent is pending until it is put into an
    inbox or given up. *)
Lemma net_exec_pending n e n' r rel :
  net_exec n e = Some (n', r, rel) →
  (pd_msg <$> pending n) ++ ev_sent n e r ≡ₚ
  (ev_put n e r).*2 ++ ev_given_up n e ++ (pd_msg <$> pending n').
Proof.
  intros Hex.
  destruct e as [addr|a b|a b|j target|j target|j target entry|k|k cause|j|j|j];
    simpl in Hex; unfold done_with, Connect, Disconnect, Partition, Heal, Send, Close,
      select_inbox, select_done, receive, Reset_drain in Hex; inv_seq; simplify_eq;
    cbn [ev_put ev_given_up ev_sent]; rewrite ?app_nil_r; try done;
    try same_pending.
  - destruct (Send_resolve a0 target); simplify_eq; simpl; rewrite ?app_nil_r; [done|].
    rewrite Hm0. by rewrite fmap_app.
  - destruct (lt_inbox_closed a1); [done|]. case_decide; simplify_eq; simpl; [|done].
    rewrite Hm0. simpl. by rewrite (delete_Permutation _ _ _ Hm0) at 1.
  - rewrite Hm0. simpl. by rewrite (delete_Permutation _ _ _ Hm0) at 1.
  - destruct (lt_inbox a0); simplify_eq; done.
  - destruct (lt_closed a0); simplify_eq; [done|]. inv_seq. simplify_eq. simpl.
    same_pending.
  - simpl. same_pending.
Qed.

Lemma net_run_order n es n' tr i :
  net_run n es = Some (n', tr) → NtReset i ∉ es →
  inbox_of n i ++ at_inbox i (along ev_put tr) =
  at_inbox i (along (fun _ => ev_got) tr) ++ inbox_of n' i.
Proof.
  revert n tr. induction es as [|e es IH]; intros n tr Hrun Hres; simpl in Hrun.
  - simplify_eq. by rewrite app_nil_r.
  - inv_seq. injection Hrun as <- <-. destruct a as [[n1 r] rel], a0 as [n2 tr2].
    cbn [fst snd] in *. unfold along. rewrite !fmap_cons. cbn [concat fst snd].
    rewrite !at_inbox_app, (assoc app), (net_exec_order _ _ _ _ _ i Hm) by set_solver.
    rewrite <- !(assoc app). f_equal. apply (IH n1 tr2); [done|set_solver].
Qed.

Lemma net_run_pending n es n' tr :
  net_run n es = Some (n', tr) →
  (pd_msg <$> pending n) ++ along ev_sent tr ≡ₚ
  (along ev_put tr).*2 ++ along (fun n e _ => ev_given_up n e) tr ++ (pd_msg <$> pending n').
Proof.
  revert n tr. induction es as [|e es IH]; intros n tr Hrun; simpl in Hrun.
  - simplify_eq. unfold along. simpl. by rewrite app_nil_r.
  - inv_seq. injection Hrun as <- <-. destruct a as [[n1 r] rel], a0 as [n2 tr2].
    cbn [fst snd] in *. unfold along. rewrite !fmap_cons. cbn [concat fst snd].
    rewrite (assoc app), (net_exec_pending _ _ _ _ _ Hm), fmap_app, <- !(assoc app).
    rewrite (IH n1 tr2 Hm0). unfold along. solve_Permutation.
Qed.
End order.

(** ** Theorems *)

(** The callers of the transport, in any order, with any choice of the pool. *)
Fixpoint world_play (w : World) (es : list WorldEvent) : option World :=
  match es with
  | [] => Some w
  | e :: es' =>
      if decide (allowed w e) then x <- world_exec w e;; world_play x.1 es' else None
  end.

Lemma world_play_steps w es w' : world_play w es = Some w' → rtc world_step w w'.
Proof.
  revert w. induction es as [|e es IH]; simpl; intros w Hp; [by simplify_eq; apply rtc_refl|].
  case_decide; [|done]. inv_seq. destruct a as [w1 r]. eapply rtc_l; [|by apply IH].
  by exists e, r.
Qed.

(** C32: the transport implements deep copies.  However its callers use the
    entries they hold, and whatever the pool hands out, every call is the same
    call of a network whose messages are values: what is received is what was
    in the sender's entry when it was sent, and no caller's entry is changed
    by anybody else.  No two owners share an entry, pooled entries are zeroed,
    and no inbox exceeds its 256 slots. *)
Theorem send_copies_entries w e w' r :
  rtc world_step world0 w → allowed w e → world_exec w e = Some (w', r) →
  matched w e w' r ∧ NoDup (owned w') ∧
  (∀ p, p ∈ w_pool w' → value (w_heap w') p = zero_entry) ∧
  (∀ i t, transports (w_net w') !! i = Some t → length (lt_inbox t) ≤ defaultInboxSize).
Proof.
  intros Hs Hal Hex. pose proof (world_steps_ok _ _ world0_ok Hs) as Hw.
  destruct (world_exec_matched w e w' r Hw Hal Hex) as [Hw' Hm]. split_and!; [done| | |].
  - apply Hw'.
  - intros p Hp. unfold value. by rewrite (wk_pool _ Hw' p Hp).
  - intros i t Ht. by apply (wk_net _ Hw' i t).
Qed.

(** C33: an inbox is a queue.  In any run, the messages received from a
    transport that is not reset, followed by those still in its inbox, are
    the messages put into it, in that order; and every message sent was put
    into one inbox, given up when its context ended, or is still blocked. *)
Theorem inbox_is_a_queue {E} es (n : Net E) tr i :
  net_run (mkNet ∅ []) es = Some (n, tr) → NtReset i ∉ es →
  at_inbox i (along ev_put tr) = at_inbox i (along (fun _ => ev_got) tr) ++ inbox_of n i ∧
  along ev_sent tr ≡ₚ
    (along ev_put tr).*2 ++ along (fun n e _ => ev_given_up n e) tr ++ (pd_msg <$> pending n).
Proof.
  intros Hrun Hres. split.
  - by pose proof (net_run_order _ _ _ _ i Hrun Hres) as Ho.
  - by pose proof (net_run_pending _ _ _ _ Hrun) as Hp.
Qed.

(** Where a [Send] of transport [i] to [target] would go. *)
Definition resolve {E} (n : Net E) (i : nat) (target : string) : option (TransportError + nat) :=
  (fun t => Send_resolve t target) <$> transports n !! i.

(** A partition is one-way and complete: the node cannot send to the
    target, every other pair of sender and target is as before, and healing
    it restores every pair. *)
Theorem partition_is_one_way {E} (n : Net E) i target t :
  transports n !! i = Some t → target ∉ lt_partitioned t → lt_closed t = false →
  ∃ n1 n2, Partition n i target = Some n1 ∧ Heal n1 i target = Some n2 ∧
    (∀ e, Send n1 i target e = Some (n1, NrError ErrPartitioned)) ∧
    (∀ j tg, (j, tg) ≠ (i, target) → resolve n1 j tg = resolve n j tg) ∧
    ∀ j tg, resolve n2 j tg = resolve n j tg.
Proof.
  intros Hi Hp Hc. unfold Partition, Heal, on_transport. rewrite Hi. cbn [seq_bind].
  do 2 eexists. split; [done|]. cbn [transports pending]. rewrite lookup_insert_eq.
  split; [done|]. split_and!.
  - intros e. unfold Send. cbn [transports]. rewrite lookup_insert_eq. cbn [seq_bind].
    unfold Send_resolve. simpl. rewrite Hc, decide_True by set_solver. done.
  - intros j tg Hne. unfold resolve. simpl.
    destruct (decide (i = j)) as [<-|Hij]; [|by rewrite lookup_insert_ne].
    rewrite lookup_insert_eq, Hi. simpl. f_equal. unfold Send_resolve. simpl. rewrite Hc.
    assert (tg ≠ target) by congruence.
    by destruct (decide (tg ∈ lt_partitioned t)); [rewrite decide_True|rewrite decide_False]; set_solver.
  - intros j tg. unfold resolve. simpl. rewrite insert_insert_eq.
    destruct (decide (i = j)) as [<-|Hij]; [|by rewrite lookup_insert_ne].
    rewrite lookup_insert_eq, Hi. simpl. f_equal. unfold Send_resolve. simpl.
    replace (({[target]} ∪ lt_partitioned t) ∖ {[target]}) with (lt_partitioned t); [done|].
    set_solver.
Qed.

(** Transport 0 is "a", transport 1 is "b"; "a" leases an entry and sends it. *)
Definition a_sends_to_b : list WorldEvent :=
  [WNet (NtNew "a"); WNet (NtNew "b"); WNet (NtConnect 0 1); WAcquire None;
   WAppend 0 [x01; x02] 0; WSend 0 "b" 0 None].

Definition world1 : World := default world0 (world_play world0 a_sends_to_b).

Lemma world1_reached : rtc world_step world0 world1.
Proof.
  assert (is_Some (world_play world0 a_sends_to_b)) as [w Hw]
    by (apply (bool_decide_unpack (is_Some _)); by vm_compute).
  unfold world1. rewrite Hw. by apply (world_play_steps _ a_sends_to_b).
Qed.

(** Closing a transport does not disconnect its peers: a peer's [Send]
    finds the link, and its [select] sends on a closed channel, which panics. *)
Theorem send_to_closed_peer_panics {E} (n : Net E) i j t u target entry err n1 :
  net_ok n → i ≠ j → transports n !! i = Some t → transports n !! j = Some u →
  lt_closed t = false → target ∉ lt_partitioned t → lt_peers t !! target = Some j →
  Close n j = Some (err, n1) →
  ∃ n2, Send n1 i target entry = Some (n2, NrBlocked) ∧
    net_exec n2 (NtSelect (length (pending n))) = None.
Proof.
  intros Hok Hij Hi Hj Hc Hp Hpeer Hclose.
  assert (transports n1 !! i = Some t ∧ pending n1 = pending n ∧
    ∃ u', transports n1 !! j = Some u' ∧ lt_inbox_closed u' = true) as (Hi1 & Hpn & u' & Hu & Hcl).
  { unfold Close in Hclose. rewrite Hj in Hclose. cbn [seq_bind] in Hclose.
    destruct (lt_closed u) eqn:Hcu; simplify_eq.
    - destruct (Hok j u Hj) as [_ Heq]. split_and!; [done|done|]. exists u. split; [done|congruence].
    - unfold on_transport in Hclose. rewrite Hj in Hclose. cbn [seq_bind] in Hclose.
      injection Hclose as <- <-. simpl. rewrite lookup_insert_ne, lookup_insert_eq by done.
      split_and!; [done|done|]. by eexists. }
  exists (add_pending n1 (mkPending j (mkNetMessage (lt_addr t) entry))). split.
  - unfold Send. rewrite Hi1. cbn [seq_bind]. unfold Send_resolve.
    by rewrite Hc, decide_False, Hpeer by done.
  - simpl. unfold select_inbox. simpl. rewrite Hpn, list_lookup_middle by done.
    simpl. rewrite Hu. simpl. by rewrite Hcl.
Qed.

(** ** The witnesses *)

(** "b" receives the entry, after "a" overwrote its own. *)
Definition b_receives : list WorldEvent :=
  [WNet (NtSelect 0); WPoke 0 0 xff].

Definition world2 : World := default world1 (world_play world1 b_receives).

Lemma world2_reached : rtc world_step world0 world2.
Proof.
  assert (is_Some (world_play world1 b_receives)) as [w Hw]
    by (apply (bool_decide_unpack (is_Some _)); by vm_compute).
  trans world1; [exact world1_reached|]. unfold world2. rewrite Hw.
  by apply (world_play_steps _ b_receives).
Qed.

Lemma send_copies_entries_witness :
  ∃ w' r, world_exec world2 (WNet (NtReceive 1)) = Some (w', r) ∧
    matched world2 (WNet (NtReceive 1)) w' r ∧ NoDup (owned w').
Proof.
  assert (is_Some (world_exec world2 (WNet (NtReceive 1)))) as [[w' r] Hex]
    by (apply (bool_decide_unpack (is_Some _)); by vm_compute).
  exists w', r. split; [exact Hex|].
  destruct (send_copies_entries world2 (WNet (NtReceive 1)) w' r world2_reached I Hex)
    as (Hm & Hd & _). split; [exact Hm|exact Hd].
Defined.

(** The received entry holds what was sent, not what "a" wrote later. *)
Example received_as_sent :
  (fun x => contents (w_heap x.1) <$> received x.2) <$> world_exec world2 (WNet (NtReceive 1)) =
    Some [Some (mkLogEntry 0 0 [x01; x02] EntryCommand)] ∧
  value (w_heap world2) 0 = mkLogEntry 0 0 [xff; x02] EntryCommand.
Proof. split; by vm_compute. Qed.

(** "a" sends two messages to "b", which receives one. *)
Definition two_messages : list (NetEvent nat) :=
  [NtNew "a"; NtNew "b"; NtConnect 0 1; NtSend 0 "b" 7; NtSend 0 "b" 8; NtSelect 1; NtSelect 0;
   NtReceive 1].

Lemma inbox_is_a_queue_witness :
  ∃ n tr, net_run (mkNet ∅ []) two_messages = Some (n, tr) ∧
    at_inbox 1 (along ev_put tr) = [mkNetMessage "a" 8] ++ inbox_of n 1.
Proof.
  assert ((fun x => at_inbox 1 (along (fun _ => ev_got) x.2)) <$>
    net_run (mkNet ∅ []) two_messages = Some [mkNetMessage "a" 8]) as H by (by vm_compute).
  destruct (net_run (mkNet ∅ []) two_messages) as [[n tr]|] eqn:Hrun; [|done].
  injection H as H. exists n, tr. split; [done|]. rewrite <- H.
  apply (inbox_is_a_queue two_messages n tr 1 Hrun). set_solver.
Defined.

Lemma world1_sender :
  ∃ t, transports (w_net world1) !! 0 = Some t ∧ lt_closed t = false ∧
    (("b" : string) ∉ lt_partitioned t) ∧ lt_peers t !! "b" = Some 1.
Proof.
  assert ((fun t => (lt_closed t, bool_decide ("b" ∈ lt_partitioned t), lt_peers t !! "b")) <$>
    transports (w_net world1) !! 0 = Some (false, false, Some 1)) as H by (by vm_compute).
  apply fmap_Some in H as (t & Ht & [= Hc Hp Hpe]). exists t. split_and!; [done|done| |done].
  by eapply bool_decide_eq_false_1.
Qed.

Lemma partition_is_one_way_witness :
  ∃ n1 : Net nat, Partition (w_net world1) 0 "b" = Some n1 ∧
    resolve n1 0 "b" = Some (inl ErrPartitioned) ∧ resolve n1 1 "a" = Some (inr 0).
Proof.
  destruct world1_sender as (t & Ht & Hc & Hp & _).
  destruct (partition_is_one_way (w_net world1) 0 "b" t Ht Hp Hc) as (n1 & n2 & Hn1 & _ & _ & Hr & _).
  exists n1. split; [done|]. split; [|rewrite Hr by done; by vm_compute].
  vm_compute in Hn1. injection Hn1 as <-. by vm_compute.
Defined.

Lemma send_to_closed_peer_panics_witness :
  ∃ err n1 n2, Close (w_net world1) 1 = Some (err, n1) ∧
    Send n1 0 "b" 9 = Some (n2, NrBlocked) ∧ net_exec n2 (NtSelect 1) = None.
Proof.
  assert (is_Some (Close (w_net world1) 1)) as [[err n1] Hcl]
    by (apply (bool_decide_unpack (is_Some _)); by vm_compute).
  destruct world1_sender as (t & Ht & Hc & Hp & Hpe).
  destruct (transports (w_net world1) !! 1) as [u|] eqn:Hu; [|by vm_compute in Hu].
  destruct (send_to_closed_peer_panics (w_net world1) 0 1 t u "b" 9 err n1) as (n2 & Hs & Hn);
    [apply (wk_net _ (world_steps_ok _ _ world0_ok world1_reached))|done|exact Ht|exact Hu|exact Hc
    |exact Hp|exact Hpe|exact Hcl|].
  exists err, n1, n2. split; [done|]. split; [done|]. exact Hn.
Defined.
