(* ===== verification/TransportApi.v ===== *)
(** * The interface of a transport (src/network/transport.go)

    The methods of the interface as a class, what its comments promise about a
    closed transport as the laws of another, a client that is proved against
    these laws alone, and the in-memory transport as an implementation. *)

From S2P Require Import Prelude Pb Transport.

(** ** The interface *)

(** [St] is the state the transports of a program share, [T] a pointer to one of
    them, [E] an entry; [None] is a panic.  A channel that is read yields a
    message, blocks ([inl true]) or reports that it is closed ([inl false]). *)
Class Transport (St T E : Type) := {
  tp_Send : St → T → string → E → option (St * NetResult E);
  tp_Consume : St → T → option (bool + (NetMessage E * St));
  tp_Addr : St → T → option string;
  tp_Close : St → T → option (option TransportError * St)
}.

(** What the comments promise: after [Close], [Send] returns
    [ErrTransportClosed], and the channel is drained and then closed. *)
Class TransportLaws (St T E : Type) `{Transport St T E} := {
  tp_shut : St → T → Prop;
  tp_waiting : St → T → list (NetMessage E);
  tp_Close_shuts s t s' : tp_Close s t = Some (None, s') →
    tp_shut s' t ∧ tp_waiting s' t = tp_waiting s t ∧ tp_Addr s' t = tp_Addr s t;
  tp_Close_twice s t : tp_shut s t → tp_Close s t = Some (Some ErrTransportClosed, s);
  tp_Send_shut s t target e : tp_shut s t → tp_Send s t target e = Some (s, NrError ErrTransportClosed);
  tp_Consume_empty s t : tp_shut s t → tp_waiting s t = [] → tp_Consume s t = Some (inl false);
  tp_Consume_next s t m ms : tp_shut s t → tp_waiting s t = m :: ms →
    ∃ s', tp_Consume s t = Some (inr (m, s')) ∧ tp_shut s' t ∧ tp_waiting s' t = ms
}.

(** ** A client *)

(** [for msg := range t.Consume()]: the messages until the channel is closed;
    [None] when it panics, blocks, or takes more than [k] rounds. *)
Fixpoint range_Consume {St T E} `{Transport St T E} (k : nat) (s : St) (t : T)
    : option (list (NetMessage E) * St) :=
  match k with
  | O => None
  | S k' =>
      x <- tp_Consume s t;;
      match x with
      | inl true => None
      | inl false => Some ([], s)
      | inr (m, s') => y <- range_Consume k' s' t;; Some (m :: y.1, y.2)
      end
  end.

Section client.
Context {St T E : Type} `{TransportLaws St T E}.

Lemma range_Consume_shut (s : St) (t : T) k :
  tp_shut s t → length (tp_waiting s t) < k →
  ∃ s', range_Consume k s t = Some (tp_waiting s t, s') ∧ tp_shut s' t.
Proof.
  remember (tp_waiting s t) as ms eqn:Hms. revert s k Hms.
  induction ms as [|m ms IH]; intros s k Hms Hs Hk; (destruct k as [|k]; [simpl in Hk; lia|]); simpl.
  - rewrite (tp_Consume_empty s t) by done. by exists s.
  - destruct (tp_Consume_next s t m ms) as (s1 & -> & Hs1 & Hw); [done..|]. cbn [seq_bind].
    destruct (IH s1 k) as (s' & -> & Hs'); [done|done|simpl in Hk; lia|]. by exists s'.
Qed.

(** After [Close] a consumer reads what was waiting, in order, and then stops;
    whatever is sent from there on is refused. *)
Theorem consumer_ends_after_close (s s1 : St) (t : T) :
  tp_Close s t = Some (None, s1) →
  ∃ s2, range_Consume (S (length (tp_waiting s t))) s1 t = Some (tp_waiting s t, s2) ∧
    ∀ target e, tp_Send s2 t target e = Some (s2, NrError ErrTransportClosed).
Proof.
  intros (Hs & Hw & _)%tp_Close_shuts. rewrite <- Hw.
  destruct (range_Consume_shut s1 t (S (length (tp_waiting s1 t)))) as (s2 & Hr & Hs2); [done|lia|].
  exists s2. split; [done|]. intros target e. by apply tp_Send_shut.
Qed.
End client.

(** ** The in-memory transport implements it *)

Section local.
Context {E : Type}.

(** [t.addr]. *)
Definition Addr (n : Net E) (i : nat) : option string :=
  t <- transports n !! i;; Some (lt_addr t).

#[export] Instance LocalTransport_Transport : Transport (Net E) nat E :=
  {| tp_Send := Send; tp_Consume := receive; tp_Addr := Addr; tp_Close := Close |}.

Definition local_shut (n : Net E) (i : nat) : Prop :=
  ∃ t, transports n !! i = Some t ∧ lt_closed t = true ∧ lt_inbox_closed t = true.

Definition local_waiting (n : Net E) (i : nat) : list (NetMessage E) :=
  default [] (lt_inbox <$> transports n !! i).

#[export] Program Instance LocalTransport_laws : TransportLaws (Net E) nat E :=
  {| tp_shut := local_shut; tp_waiting := local_waiting |}.
Next Obligation.
  intros n i n' H. simpl in H. unfold Close in H. apply seq_bind_Some in H as (t & Ht & H).
  destruct (lt_closed t); [done|]. unfold on_transport in H. rewrite Ht in H. injection H as <-.
  unfold local_shut, local_waiting, Addr. simpl. rewrite lookup_insert_eq, Ht. split_and!; [by eexists|done|].
  unfold Addr. simpl. by rewrite lookup_insert_eq, Ht.
Qed.
Next Obligation. intros n i (t & Ht & Hc & _). simpl. unfold Close. rewrite Ht. simpl. by rewrite Hc. Qed.
Next Obligation.
  intros n i target e (t & Ht & Hc & _). simpl. unfold Send, Send_resolve. rewrite Ht. simpl. by rewrite Hc.
Qed.
Next Obligation.
  intros n i (t & Ht & _ & Hc). simpl. unfold local_waiting, receive. rewrite Ht. simpl.
  intros ->. by rewrite Hc.
Qed.
Next Obligation.
  intros n i m ms (t & Ht & Hcl & Hc). simpl. unfold local_waiting, receive. rewrite Ht. simpl.
  intros ->. eexists. split; [done|]. unfold local_shut. simpl. rewrite lookup_insert_eq. by eauto.
Qed.
End local.
