(* ===== verification/Discovery.v ===== *)
(** * Gossip discovery (src/discovery/)

    The metadata codec, the delegates that memberlist calls, and the manager
    with its bounded channel of events.  The memberlist library is a class;
    the manager hands its configuration to it and reacts to its callbacks.
    The channel ends in the event loop of the node. *)

From stdpp Require Import pretty.
From S2P Require Import Prelude Pb Raft RaftWf Cluster ClusterTrans Sample Kv Storage Metrics Node NodeSpec NodeRuns.

(** ** Metadata (meta.go) *)

Record NodeMeta := mkNodeMeta { RaftAddr : string }.

Definition Encode_meta (m : NodeMeta) : bytes := String.list_byte_of_string (RaftAddr m).

Definition DecodeMeta (data : bytes) : NodeMeta := mkNodeMeta (String.string_of_list_byte data).

(** ** Delegates (delegate.go) *)

Record nodeDelegate := mkNodeDelegate { meta : bytes }.

(** [NodeMeta(limit)]; slicing to a negative limit panics. *)
Definition NodeMeta_broadcast (d : nodeDelegate) (limit : Z) : option bytes :=
  if decide (limit < Z.of_nat (length (meta d)))%Z
  then if decide (limit < 0)%Z then None else Some (take (Z.to_nat limit) (meta d))
  else Some (meta d).

Definition NotifyMsg (d : nodeDelegate) (msg : bytes) : nodeDelegate := d.
Definition GetBroadcasts (d : nodeDelegate) (overhead limit : Z) : list bytes := [].
Definition LocalState (d : nodeDelegate) (join : bool) : bytes := [].
Definition MergeRemoteState (d : nodeDelegate) (buf : bytes) (join : bool) : nodeDelegate := d.

(** A memberlist node, as far as the callbacks read it. *)
Record MlNode := mkMlNode { mlName : string; mlAddr : string; mlPort : N; mlMeta : bytes }.

Definition defaultEventBuffer : nat := 64.

(** The channel of events. *)
Record EventChan := mkEventChan { ec_queue : list DiscoveryEvent; ec_closed : bool }.

(** [select { case e.events <- event: default: }]: a full channel drops the
    event, a closed one panics. *)
Definition emit (c : EventChan) (event : DiscoveryEvent) : option EventChan :=
  if ec_closed c then None
  else if decide (length (ec_queue c) < defaultEventBuffer)
  then Some (mkEventChan (ec_queue c ++ [event]) false)
  else Some c.

Definition NotifyJoin (c : EventChan) (node : MlNode) : option EventChan :=
  emit c (mkDiscoveryEvent NodeJoin (mlName node) (RaftAddr (DecodeMeta (mlMeta node)))).

Definition NotifyLeave (c : EventChan) (node : MlNode) : option EventChan :=
  emit c (mkDiscoveryEvent NodeLeave (mlName node) (RaftAddr (DecodeMeta (mlMeta node)))).

Definition NotifyUpdate (c : EventChan) (node : MlNode) : option EventChan :=
  emit c (mkDiscoveryEvent NodeUpdate (mlName node) (RaftAddr (DecodeMeta (mlMeta node)))).

(** ** The manager (discovery.go) *)

Definition EventType_String (e : EventType) : string :=
  match e with NodeJoin => "JOIN" | NodeLeave => "LEAVE" | NodeUpdate => "UPDATE" end.

Record DiscoveryConfig := mkDiscoveryConfig {
  dcNodeID : string;
  dcBindAddr : string;
  dcBindPort : Z;
  dcRaftAddr : string
}.

(** What [New] sets in memberlist's LAN configuration. *)
Record MlConfig := mkMlConfig {
  mcName : string;
  mcBindAddr : string;
  mcBindPort : Z;
  mcAdvertisePort : Z;
  mcDelegate : nodeDelegate
}.

Class Memberlist := {
  MList : Type;
  MlError : Type;
  ml_Create : MlConfig → MlError + MList;
  ml_Join : MList → list string → (Z * option MlError) * MList;
  ml_Leave : MList → option MlError * MList;
  ml_Shutdown : MList → option MlError * MList;
  ml_Members : MList → list MlNode;
  ml_LocalNode : MList → MlNode
}.

Section manager.
Context {ML : Memberlist}.

Inductive DiscoveryError :=
  | ErrCreate (cause : MlError)
  | ErrJoin (cause : MlError)
  | ErrShutdown (cause : MlError).

Record Manager := mkManager {
  m_config : DiscoveryConfig;
  m_list : MList;
  m_events : EventChan;
  m_closed : bool
}.

#[export] Instance Manager_settable : Settable Manager :=
  {| eta_expand m := mkManager (m_config m) (m_list m) (m_events m) (m_closed m) |}.

(** [mlConfig] as [New] fills it in. *)
Definition ml_config (cfg : DiscoveryConfig) : MlConfig :=
  mkMlConfig (dcNodeID cfg) (dcBindAddr cfg) (dcBindPort cfg) (dcBindPort cfg)
    (mkNodeDelegate (Encode_meta (mkNodeMeta (dcRaftAddr cfg)))).

Definition New (cfg : DiscoveryConfig) : DiscoveryError + Manager :=
  match ml_Create (ml_config cfg) with
  | inl err => inl (ErrCreate err)
  | inr list => inr (mkManager cfg list (mkEventChan [] false) false)
  end.

Definition Join (m : Manager) (seeds : list string) : Z * option DiscoveryError * Manager :=
  let '(n, err, list) := ml_Join (m_list m) seeds in
  (n, ErrJoin <$> err, m <| m_list := list |>).

Definition Events (m : Manager) : EventChan := m_events m.
Definition Members (m : Manager) : list MlNode := ml_Members (m_list m).
Definition LocalNode (m : Manager) : MlNode := ml_LocalNode (m_list m).

(** [fmt.Sprintf("%s:%d", node.Addr, node.Port)] *)
Definition MemberAddr (m : Manager) : string :=
  let node := LocalNode m in (mlAddr node +:+ ":" +:+ pretty (mlPort node))%string.

(** Closing a closed channel panics. *)
Definition close_events (c : EventChan) : option EventChan :=
  if ec_closed c then None else Some (mkEventChan (ec_queue c) true).

Definition Shutdown (m : Manager) : option (option DiscoveryError * Manager) :=
  if m_closed m then Some (None, m)
  else
    let m := m <| m_closed := true |> in
    let '(_, list) := ml_Leave (m_list m) in
    let '(err, list) := ml_Shutdown list in
    events <- close_events (m_events m);;
    Some (ErrShutdown <$> err, m <| m_list := list |> <| m_events := events |>).

(** A callback of memberlist. *)
Definition notify (m : Manager) (t : EventType) (node : MlNode) : option Manager :=
  events <- match t with
            | NodeJoin => NotifyJoin (m_events m) node
            | NodeLeave => NotifyLeave (m_events m) node
            | NodeUpdate => NotifyUpdate (m_events m) node
            end;;
  Some (m <| m_events := events |>).

(** [event, ok := <-events]: [inl true] blocks, [inl false] is a closed and
    empty channel. *)
Definition take_event (m : Manager) : bool + (DiscoveryEvent * Manager) :=
  match ec_queue (m_events m) with
  | [] => inl (negb (ec_closed (m_events m)))
  | e :: es => inr (e, m <| m_events := mkEventChan es (ec_closed (m_events m)) |>)
  end.
End manager.

(** ** The event loop of the node (node.go, [Run]) *)

Section loop.
Context {GR : GoRand} {CJ : CommandJson} {B : Badger} {EJ : EntryJson} {ML : Memberlist}.

Record Loop := mkLoop { lp_node : Node; lp_discovery : option Manager; lp_stopped : bool }.

Definition SetDiscovery (l : Loop) (d : Manager) : Loop :=
  mkLoop (lp_node l) (Some d) (lp_stopped l).

(** A nil channel is never ready. *)
Definition discoveryEvents (l : Loop) : bool + (DiscoveryEvent * Manager) :=
  match lp_discovery l with
  | None => inl true
  | Some d => take_event d
  end.

Inductive LoopCase := CaseDone | CaseTick | CaseDiscovery.

(** One iteration of the [select] of [Run] with the given case: [Some None] is
    a case that is not ready.  [shutdown] closes the transport and the store,
    which are outside the model. *)
Definition Run_case (l : Loop) (c : LoopCase) : option (option (Loop * list Message)) :=
  match c with
  | CaseDone => Some (Some (mkLoop (lp_node l) (lp_discovery l) true, []))
  | CaseTick =>
      x <- onTick (lp_node l);;
      Some (Some (mkLoop x.1 (lp_discovery l) (lp_stopped l), x.2))
  | CaseDiscovery =>
      Some (match discoveryEvents l with
            | inl true => None
            | inl false => Some (l, [])
            | inr (event, d) =>
                let '(n, out) := handleDiscoveryEvent (lp_node l) event in
                Some (mkLoop n (Some d) (lp_stopped l), out)
            end)
  end.
End loop.

(** ** Metadata survives the mesh *)

Lemma bytes_of_string_of_bytes bs : String.list_byte_of_string (String.string_of_list_byte bs) = bs.
Proof. apply String.list_byte_of_string_of_list_byte. Qed.

Lemma string_of_bytes_of_string s : String.string_of_list_byte (String.list_byte_of_string s) = s.
Proof. apply String.string_of_list_byte_of_string. Qed.

Lemma length_bytes_of_string s : length (String.list_byte_of_string s) = String.length s.
Proof. induction s as [|c s IH]; [done|]. simpl. by rewrite <- IH. Qed.

(** What peers learn of the address a node advertises. *)
Definition advertised (addr : string) (limit : nat) : string :=
  String.string_of_list_byte (take limit (String.list_byte_of_string addr)).

Lemma advertised_short addr limit : String.length addr ≤ limit → advertised addr limit = addr.
Proof.
  intros Hle. unfold advertised. rewrite take_ge by (by rewrite length_bytes_of_string).
  apply string_of_bytes_of_string.
Qed.

Lemma NodeMeta_broadcast_eq addr limit :
  NodeMeta_broadcast (mkNodeDelegate (Encode_meta (mkNodeMeta addr))) (Z.of_nat limit) =
  Some (take limit (String.list_byte_of_string addr)).
Proof.
  unfold NodeMeta_broadcast, Encode_meta. simpl. case_decide as Hl.
  - rewrite decide_False by lia. by rewrite Nat2Z.id.
  - rewrite take_ge by lia. done.
Qed.

(** ** The channel of events *)

Section channel.
Context {ML : Memberlist}.

(** What a callback puts on the channel. *)
Definition event_of (t : EventType) (node : MlNode) : DiscoveryEvent :=
  mkDiscoveryEvent t (mlName node) (RaftAddr (DecodeMeta (mlMeta node))).

Lemma notify_eq m t node :
  notify m t node = (events <- emit (m_events m) (event_of t node);; Some (m <| m_events := events |>)).
Proof. by destruct t. Qed.

Inductive ManagerEvent :=
  | MnNotify (t : EventType) (node : MlNode)
  | MnTake
  | MnJoin (seeds : list string)
  | MnShutdown.

(** An event of the manager, with what it notified and what was taken. *)
Definition manager_exec (m : Manager) (e : ManagerEvent)
    : option (Manager * list DiscoveryEvent * list DiscoveryEvent) :=
  match e with
  | MnNotify t node => m' <- notify m t node;; Some (m', [event_of t node], [])
  | MnTake => Some (match take_event m with inl _ => (m, [], []) | inr (e, m') => (m', [], [e]) end)
  | MnJoin seeds => let '(_, _, m') := Join m seeds in Some (m', [], [])
  | MnShutdown => x <- Shutdown m;; Some (x.2, [], [])
  end.

Fixpoint manager_run (m : Manager) (es : list ManagerEvent)
    : option (Manager * list DiscoveryEvent * list DiscoveryEvent) :=
  match es with
  | [] => Some (m, [], [])
  | e :: es' =>
      x <- manager_exec m e;;
      y <- manager_run x.1.1 es';;
      Some (y.1.1, x.1.2 ++ y.1.2, x.2 ++ y.2)
  end.

Lemma manager_exec_queue m e m' notified taken :
  manager_exec m e = Some (m', notified, taken) →
  length (ec_queue (m_events m)) ≤ defaultEventBuffer →
  ∃ accepted, ec_queue (m_events m) ++ accepted = taken ++ ec_queue (m_events m') ∧
    length (ec_queue (m_events m')) ≤ defaultEventBuffer ∧
    accepted `sublist_of` notified ∧
    (length (ec_queue (m_events m)) + length notified ≤ defaultEventBuffer → accepted = notified).
Proof.
  intros Hex Hlen. destruct e as [t node| |seeds|]; simpl in Hex.
  - inv_seq. injection Hex as <- <- <-. rewrite notify_eq in Hm. inv_seq. injection Hm as <-.
    unfold emit in Hm0. destruct (ec_closed (m_events m)); [done|]. simpl.
    case_decide as Hfull; injection Hm0 as <-; simpl.
    + exists [event_of t node]. rewrite length_app. simpl. split_and!; [done|lia|done|done].
    + exists []. rewrite app_nil_r. split_and!; [done|done|apply sublist_nil_l|lia].
  - unfold take_event in Hex. destruct (ec_queue (m_events m)) as [|e es] eqn:Hq;
      injection Hex as <- <- <-; exists []; simpl; rewrite ?Hq, ?app_nil_r; simpl in *;
      split_and!; (done || lia).
  - unfold Join in Hex. destruct (ml_Join (m_list m) seeds) as [[n err] l].
    injection Hex as <- <- <-. exists []. rewrite app_nil_r. by split_and!.
  - inv_seq. injection Hex as <- <- <-. exists []. rewrite app_nil_r. unfold Shutdown in Hm.
    destruct (m_closed m); [by injection Hm as <-; split_and!|].
    destruct (ml_Leave _) as [? l]. destruct (ml_Shutdown l) as [err l']. inv_seq.
    injection Hm as <-. unfold close_events in Hm0. simpl in *.
    destruct (ec_closed (m_events m)); [done|]. injection Hm0 as <-. by split_and!.
Qed.

Lemma manager_run_queue m es m' notified taken :
  manager_run m es = Some (m', notified, taken) →
  length (ec_queue (m_events m)) ≤ defaultEventBuffer →
  ∃ accepted, ec_queue (m_events m) ++ accepted = taken ++ ec_queue (m_events m') ∧
    length (ec_queue (m_events m')) ≤ defaultEventBuffer ∧
    accepted `sublist_of` notified ∧
    (length (ec_queue (m_events m)) + length notified ≤ defaultEventBuffer → accepted = notified).
Proof.
  revert m notified taken. induction es as [|e es IH]; intros m notified taken Hrun Hlen.
  - injection Hrun as <- <- <-. exists []. rewrite app_nil_r. by split_and!.
  - simpl in Hrun. inv_seq. injection Hrun as <- <- <-. destruct a as [[m1 n1] t1], a0 as [[m2 n2] t2].
    cbn [fst snd] in *.
    destruct (manager_exec_queue m e m1 n1 t1 Hm Hlen) as (acc1 & Hq1 & Hl1 & Hs1 & Hall1).
    destruct (IH m1 n2 t2 Hm0 Hl1) as (acc2 & Hq2 & Hl2 & Hs2 & Hall2).
    exists (acc1 ++ acc2). split_and!; [|done|by apply sublist_app|].
    + by rewrite (assoc app), Hq1, <- (assoc app), Hq2, (assoc app).
    + rewrite length_app. intros Hle. rewrite Hall1, Hall2; [done| |lia].
      apply (f_equal length) in Hq1. rewrite !length_app, Hall1 in Hq1 by lia. lia.
Qed.

(** C34: the channel of membership events neither reorders nor invents them
    and never holds more than 64.  Whatever the callbacks, the consumer, joins
    and a shutdown do, the events taken, followed by those still queued, are
    a subsequence of the notified ones, and all of them as long as no more
    than 64 were notified: an event is lost only when the buffer is full. *)
Theorem events_in_order cfg m es m' notified taken :
  New cfg = inr m → manager_run m es = Some (m', notified, taken) →
  taken ++ ec_queue (m_events m') `sublist_of` notified ∧
  length (ec_queue (m_events m')) ≤ defaultEventBuffer ∧
  (length notified ≤ defaultEventBuffer → taken ++ ec_queue (m_events m') = notified).
Proof.
  unfold New. intros Hnew Hrun. destruct (ml_Create _) as [|l]; [done|]. injection Hnew as <-.
  destruct (manager_run_queue _ _ _ _ _ Hrun) as (acc & Hq & Hl & Hs & Hall); [simpl; lia|].
  simpl in Hq, Hall. rewrite <- Hq. by split_and!.
Qed.
End channel.

(** ** From the gossip mesh to the transport *)

Section discovered.
Context {GR : GoRand} {CJ : CommandJson} {B : Badger} {EJ : EntryJson} {ML : Memberlist}.

Lemma join_event_handled n id addr :
  let n' := (handleDiscoveryEvent n (mkDiscoveryEvent NodeJoin id addr)).1 in
  n_peerAddrs n' = <[id := addr]> (n_peerAddrs n) ∧ n_raft n' = drain (AddPeer (n_raft n) id).
Proof.
  unfold handleDiscoveryEvent. cbn [evType evNodeID evRaftAddr]. cbv zeta.
  match goal with |- context [dispatchMessages (persistState ?x)] =>
    pose proof (finish_eq x) as Hfin; destruct (dispatchMessages _) as [n' out] end.
  destruct Hfin as ([_ _ _ Ha _] & Hr & _ & _). by split.
Qed.

Lemma AddPeer_known r id : id ∈ peers (AddPeer r id) ∨ id = r_id (AddPeer r id).
Proof.
  unfold AddPeer. case_decide; [by right|]. case_decide; [by left|]. left. simpl.
  apply elem_of_app. right. apply list_elem_of_here.
Qed.

(** A JOIN notification that finds the channel empty, and the iteration of the
    event loop that takes it. *)
Definition join_seen (l : Loop) (d : Manager) (node : MlNode) : option (Loop * list Message) :=
  d <- notify d NodeJoin node;;
  x <- Run_case (SetDiscovery l d) CaseDiscovery;;
  x.

Lemma join_seen_eq l d node :
  ec_closed (m_events d) = false → ec_queue (m_events d) = [] →
  ∃ out, join_seen l d node = Some
    (mkLoop (handleDiscoveryEvent (lp_node l) (event_of NodeJoin node)).1 (Some d) (lp_stopped l), out).
Proof.
  intros Hc Hq. destruct d as [cfg lst [q c] cl]. simpl in Hc, Hq. subst q c.
  unfold join_seen. rewrite notify_eq. unfold emit. simpl.
  destruct (handleDiscoveryEvent _ _) as [n' out]. by exists out.
Qed.

(** A peer that memberlist reports becomes reachable.  Whatever metadata
    limit memberlist imposes, a node that sees the JOIN of a peer started with
    configuration [cfg] adds it to its Raft peers and sends its RPCs to the
    first [limit] bytes of the address the peer advertises, which is the whole
    address when it fits. *)
Theorem discovered_peer_is_reachable l d cfg limit metadata addr port :
  ec_closed (m_events d) = false → ec_queue (m_events d) = [] →
  NodeMeta_broadcast (mcDelegate (ml_config cfg)) (Z.of_nat limit) = Some metadata →
  ∃ l' out, join_seen l d (mkMlNode (dcNodeID cfg) addr port metadata) = Some (l', out) ∧
    resolvePeerAddr (lp_node l') (dcNodeID cfg) = advertised (dcRaftAddr cfg) limit ∧
    (String.length (dcRaftAddr cfg) ≤ limit →
     resolvePeerAddr (lp_node l') (dcNodeID cfg) = dcRaftAddr cfg) ∧
    (dcNodeID cfg ∈ peers (n_raft (lp_node l')) ∨ dcNodeID cfg = r_id (n_raft (lp_node l'))).
Proof.
  intros Hc Hq Hmeta. unfold ml_config in Hmeta. simpl in Hmeta. rewrite NodeMeta_broadcast_eq in Hmeta.
  injection Hmeta as <-.
  destruct (join_seen_eq l d (mkMlNode (dcNodeID cfg) addr port
    (take limit (String.list_byte_of_string (dcRaftAddr cfg)))) Hc Hq) as [out ->].
  do 2 eexists. split; [done|]. cbn [lp_node]. unfold event_of. cbn [mlName mlMeta DecodeMeta RaftAddr].
  destruct (join_event_handled (lp_node l) (dcNodeID cfg) (advertised (dcRaftAddr cfg) limit))
    as [Ha Hr].
  assert (∀ x, n_peerAddrs x = <[dcNodeID cfg := advertised (dcRaftAddr cfg) limit]>
    (n_peerAddrs (lp_node l)) → resolvePeerAddr x (dcNodeID cfg) = advertised (dcRaftAddr cfg) limit) as Hres.
  { intros x Hx. unfold resolvePeerAddr. by rewrite Hx, lookup_insert_eq. }
  fold (advertised (dcRaftAddr cfg) limit). split_and!.
  - by apply Hres.
  - intros Hle. rewrite Hres by done. by apply advertised_short.
  - rewrite Hr. apply AddPeer_known.
Qed.
End discovered.

(** ** A mesh without a network, and the witnesses *)

#[export] Instance sample_memberlist : Memberlist := {|
  MList := list MlNode;
  MlError := unit;
  ml_Create c := inr [mkMlNode (mcName c) (mcBindAddr c) (Z.to_N (mcBindPort c)) (meta (mcDelegate c))];
  ml_Join l seeds := (Z.of_nat (length seeds), None, l);
  ml_Leave l := (None, l);
  ml_Shutdown l := (None, []);
  ml_Members l := l;
  ml_LocalNode l := default (mkMlNode "" "" 0 []) (head l)
|}.

Definition sample_discovery (id addr : string) : DiscoveryConfig :=
  mkDiscoveryConfig id "127.0.0.1" 7946 addr.

Definition sample_manager (id addr : string) : Manager :=
  mkManager (sample_discovery id addr) [] (mkEventChan [] false) false.

Definition peer_node (id addr : string) : MlNode :=
  mkMlNode id "127.0.0.1" 7946 (String.list_byte_of_string addr).

Definition three_callbacks : list ManagerEvent :=
  [MnNotify NodeJoin (peer_node "b" "10.0.0.2:9000"); MnTake;
   MnNotify NodeLeave (peer_node "b" "10.0.0.2:9000");
   MnNotify NodeJoin (peer_node "c" "10.0.0.3:9000"); MnShutdown].

Definition started_manager : Manager :=
  mkManager (sample_discovery "a" "10.0.0.1:9000") [peer_node "a" "10.0.0.1:9000"]
    (mkEventChan [] false) false.

Lemma started_manager_new : New (sample_discovery "a" "10.0.0.1:9000") = inr started_manager.
Proof. by vm_compute. Qed.

Lemma events_in_order_witness :
  ∃ m' notified taken, manager_run started_manager three_callbacks = Some (m', notified, taken) ∧
    taken = [mkDiscoveryEvent NodeJoin "b" "10.0.0.2:9000"] ∧
    taken ++ ec_queue (m_events m') = notified.
Proof.
  assert ((fun x => (x.2, length x.1.2)) <$> manager_run started_manager three_callbacks =
    Some ([mkDiscoveryEvent NodeJoin "b" "10.0.0.2:9000"], 3)) as H by (by vm_compute).
  apply fmap_Some in H as ([[m' notified] taken] & Hrun & H).
  exists m', notified, taken. split; [exact Hrun|]. injection H as <- Hlen.
  split; [reflexivity|].
  apply (events_in_order _ started_manager three_callbacks m' notified _ started_manager_new Hrun).
  simpl in Hlen. unfold defaultEventBuffer. lia.
Defined.

Section witness.
Import SampleStore.

Definition sample_loop : Loop := mkLoop node0 None false.

Lemma discovered_peer_is_reachable_witness :
  ∃ l' out, join_seen sample_loop (sample_manager "a" "10.0.0.1:9000")
      (peer_node "d" "10.0.0.4:9000") = Some (l', out) ∧
    resolvePeerAddr (lp_node l') "d" = "10.0.0.4:9000".
Proof.
  destruct (discovered_peer_is_reachable sample_loop (sample_manager "a" "10.0.0.1:9000")
    (sample_discovery "d" "10.0.0.4:9000") 512 (String.list_byte_of_string "10.0.0.4:9000")
    "127.0.0.1" 7946 eq_refl eq_refl eq_refl) as (l' & out & Hj & _ & Hr & _).
  exists l', out. split; [exact Hj|]. apply Hr. apply Nat.leb_le. by vm_compute.
Defined.
End witness.
