(* ===== verification/Server.v ===== *)
(** * The server binary (src/cmd/server/main.go)

    Configuration from the environment, and [main] up to the event loop.  The
    environment is a function (os.Getenv gives the empty string for a variable
    that is not set); strings.Split, strings.TrimSpace and strconv.Atoi are
    written out, on bytes. *)

From S2P Require Import Prelude Pb Raft RaftWf Cluster ClusterTrans Sample Kv Storage Metrics Node NodeSpec NodeRuns Discovery.

(** ** Strings *)

Abbreviation to_bytes := String.list_byte_of_string.
Abbreviation of_bytes := String.string_of_list_byte.

(** The encodings of the code points for which [unicode.IsSpace] holds. *)
Definition space_runes : list bytes :=
  [[x09]; [x0a]; [x0b]; [x0c]; [x0d]; [x20]; [xc2; x85]; [xc2; xa0]; [xe1; x9a; x80]] ++
  ((fun b => [xe2; x80; b]) <$> [x80; x81; x82; x83; x84; x85; x86; x87; x88; x89; x8a; xa8; xa9; xaf]) ++
  [[xe2; x81; x9f]; [xe3; x80; x80]].

(** Take one of the words [ws] off the front. *)
Fixpoint strip_one (ws : list bytes) (s : bytes) : option bytes :=
  match ws with
  | [] => None
  | w :: ws' =>
      if decide (take (length w) s = w) then Some (drop (length w) s) else strip_one ws' s
  end.

(** Words are not empty, so [length s] rounds suffice. *)
Fixpoint strip_all (fuel : nat) (ws : list bytes) (s : bytes) : bytes :=
  match fuel with
  | O => s
  | S fuel' => match strip_one ws s with Some s' => strip_all fuel' ws s' | None => s end
  end.

Definition trim_left (s : bytes) : bytes := strip_all (length s) space_runes s.

Definition trim_right (s : bytes) : bytes :=
  reverse (strip_all (length s) (reverse <$> space_runes) (reverse s)).

Definition TrimSpace (s : bytes) : bytes := trim_right (trim_left s).

(** [strings.Split(s, ",")] *)
Fixpoint split_comma (s : bytes) : list bytes :=
  match s with
  | [] => [[]]
  | b :: s' =>
      if decide (b = x2c) then [] :: split_comma s'
      else match split_comma s' with [] => [[b]] | p :: ps => (b :: p) :: ps end
  end.

Definition splitCSV_bytes (s : bytes) : list bytes :=
  if decide (s = []) then []
  else filter (fun p => p ≠ []) (TrimSpace <$> split_comma s).

Definition splitCSV (s : string) : list string := of_bytes <$> splitCSV_bytes (to_bytes s).

Definition digit (b : Byte.byte) : option Z :=
  let n := Z.of_N (Byte.to_N b) in
  if decide (48 ≤ n ≤ 57)%Z then Some (n - 48)%Z else None.

Fixpoint decimal (acc : Z) (s : bytes) : option Z :=
  match s with
  | [] => Some acc
  | b :: s' => match digit b with Some d => decimal (10 * acc + d)%Z s' | None => None end
  end.

Definition in_int64 (z : Z) : option Z :=
  if decide (-9223372036854775808 ≤ z < 9223372036854775808)%Z then Some z else None.

(** [strconv.Atoi]; [None] is a syntax or range error. *)
Definition Atoi (s : bytes) : option Z :=
  match s with
  | [] => None
  | b :: s' =>
      if decide (b = x2d) then match s' with [] => None | _ => v ← decimal 0 s'; in_int64 (- v) end
      else if decide (b = x2b) then match s' with [] => None | _ => decimal 0 s' ≫= in_int64 end
      else decimal 0 s ≫= in_int64
  end.

(** ** Configuration *)

Definition Env := string → string.

Definition envOr (env : Env) (key fallback : string) : string :=
  if decide (env key ≠ "") then env key else fallback.

Definition envInt (env : Env) (key : string) (fallback : Z) : Z :=
  if decide (env key ≠ "") then default fallback (Atoi (to_bytes (env key))) else fallback.

(** [host] is os.Hostname, [pid] the process id in decimal. *)
Definition hostname (host : option string) (pid : string) : string :=
  match host with None => ("node-" +:+ pid)%string | Some h => h end.

Record ServerConfig := mkServerConfig {
  scNode : NodeConfig;
  scTickInterval : Z;              (* nanoseconds *)
  scDataDir : string;
  scGRPCAddr : string;
  scDebugAddr : string;
  scSeeds : list string;
  scDiscovery : DiscoveryConfig
}.

(** The values [main] reads, in the structs it puts them in. *)
Definition server_config (env : Env) (host : option string) (pid : string) : ServerConfig :=
  let nodeID := envOr env "NODE_ID" (hostname host pid) in
  let peers := splitCSV (envOr env "PEERS" "") in
  let dataDir := envOr env "DATA_DIR" "/data" in
  let grpcAddr := envOr env "GRPC_ADDR" "[::]:9000" in
  let debugAddr := envOr env "DEBUG_ADDR" "[::]:8080" in
  let seeds := splitCSV (envOr env "SEEDS" "") in
  let bindAddr := envOr env "BIND_ADDR" "::" in
  let bindPort := envInt env "BIND_PORT" 7946 in
  let tickMs := envInt env "TICK_MS" 200 in
  let election := envInt env "ELECTION" 20 in
  let heartbeat := envInt env "HEARTBEAT" 5 in
  mkServerConfig (mkNodeConfig nodeID peers election heartbeat 0) (i64 (tickMs * 1000000))
    dataDir grpcAddr debugAddr seeds (mkDiscoveryConfig nodeID bindAddr bindPort grpcAddr).

Section main.
Context {GR : GoRand} {CJ : CommandJson} {B : Badger} {EJ : EntryJson} {ML : Memberlist}.

(** How [main] gets to its event loop, or not. *)
Inductive Started :=
  | Exit (code : Z)
  | Running (l : Loop).

(** [time.NewTicker] panics on an interval that is not positive. *)
Definition NewTicker (d : Z) : option unit := if decide (0 < d)%Z then Some () else None.

(** [main] up to the first iteration of [Run]; [None] is a panic.  [opened] and
    [transport] are what storage and the listener do, as for [NewNode].  A
    failed join is only logged. *)
Definition main (cfg : ServerConfig) (opened : DBError + DB) (transport : bool) : option Started :=
  x <- NewNode (scNode cfg) opened transport;;
  match x with
  | inl _ => Some (Exit 1)
  | inr node =>
      let l := mkLoop node None false in
      let ready :=
        if decide (0 < length (scSeeds cfg)) then
          match New (scDiscovery cfg) with
          | inl _ => None
          | inr disc => let '(_, _, disc) := Join disc (scSeeds cfg) in Some (SetDiscovery l disc)
          end
        else Some l in
      match ready with
      | None => Some (Exit 1)
      | Some l => _ <- NewTicker (scTickInterval cfg);; Some (Running l)
      end
  end.
End main.

Example atoi_examples :
  Atoi (to_bytes "-42") = Some (-42)%Z ∧ Atoi (to_bytes "+7") = Some 7%Z ∧
  Atoi (to_bytes "9223372036854775808") = None ∧ Atoi (to_bytes "1_0") = None ∧
  Atoi (to_bytes "-") = None.
Proof. by vm_compute. Qed.

Example split_examples :
  splitCSV " a, b ,,c," = ["a"; "b"; "c"] ∧ splitCSV "" = [] ∧ splitCSV " , " = [].
Proof. by vm_compute. Qed.

(** ** Stripping words *)

Section strip.
Context (ws : list bytes).

(** No word is empty or the beginning of another word. *)
Definition prefix_code : Prop :=
  Forall (fun w => w ≠ []) ws ∧
  Forall (fun u => Forall (fun w => take (length u) w = u → u = w) ws) ws.

#[export] Instance prefix_code_dec : Decision prefix_code.
Proof. apply _. Defined.

Lemma strip_one_spec s s' : strip_one ws s = Some s' → ∃ w, w ∈ ws ∧ s = w ++ s'.
Proof.
  induction ws as [|w ws' IH]; [done|]. simpl. case_decide as Hw.
  - intros [= <-]. exists w. split; [by left|]. rewrite <- Hw at 1. by rewrite take_drop.
  - intros Hs. destruct (IH Hs) as (u & Hu & ->). exists u. split; [by right|done].
Qed.

Lemma strip_one_None s : strip_one ws s = None ↔ ∀ w s', w ∈ ws → s ≠ w ++ s'.
Proof.
  induction ws as [|w ws' IH]; simpl.
  - split; [|done]. by intros _ w s' ?%not_elem_of_nil.
  - case_decide as Hw.
    + split; [done|]. intros Hall. exfalso. apply (Hall w (drop (length w) s)); [by left|].
      rewrite <- Hw at 1. by rewrite take_drop.
    + rewrite IH. split.
      * intros Hall u s' [->|Hu]%elem_of_cons; [|by apply Hall].
        intros ->. by rewrite take_app_length in Hw.
      * intros Hall u s' Hu. apply Hall. by right.
Qed.

Context (Hpc : prefix_code).

(** A word is read off the front whatever follows. *)
Lemma strip_one_word w s : w ∈ ws → strip_one ws (w ++ s) = Some s.
Proof using Hpc.
  intros Hw. destruct (strip_one ws (w ++ s)) as [s'|] eqn:Hs.
  - apply strip_one_spec in Hs as (u & Hu & Heq). f_equal. destruct Hpc as [_ Hcode].
    assert (∀ a b x y : bytes, a ∈ ws → b ∈ ws → a ++ x = b ++ y → length a ≤ length b → a = b) as Hab.
    { intros a b x y Ha Hb Hxy Hle. eapply Forall_forall in Hcode; [|exact Ha].
      eapply Forall_forall in Hcode; [|exact Hb]. apply Hcode.
      apply (f_equal (take (length a))) in Hxy. rewrite take_app_length in Hxy.
      by rewrite take_app_le in Hxy. }
    destruct (Nat.le_ge_cases (length w) (length u)) as [Hle|Hle].
    + assert (w = u) as -> by (by eapply Hab). by apply (inj (app u)) in Heq.
    + assert (u = w) as -> by (by eapply Hab). by apply (inj (app w)) in Heq.
  - rewrite strip_one_None in Hs. by destruct (Hs w s).
Qed.

Lemma strip_all_None fuel s : strip_one ws s = None → strip_all fuel ws s = s.
Proof. intros Hs. destruct fuel; [done|]. simpl. by rewrite Hs. Qed.

Lemma strip_all_words fuel l s :
  Forall (fun w => w ∈ ws) l → strip_all (length l + fuel) ws (concat l ++ s) = strip_all fuel ws s.
Proof using Hpc.
  intros Hl. induction Hl as [|w l Hw _ IH]; [done|]. simpl.
  rewrite <- (assoc app), strip_one_word by done. exact IH.
Qed.

Lemma length_words l : Forall (fun w => w ∈ ws) l → length l ≤ length (concat l).
Proof using Hpc.
  destruct Hpc as [Hne _]. intros Hl. induction Hl as [|w l Hw _ IH]; [done|]. simpl.
  rewrite length_app. eapply Forall_forall in Hne; [|exact Hw]. destruct w; [done|]. simpl. lia.
Qed.

(** Words in front of something that starts with no word. *)
Lemma strip_all_clean l s :
  Forall (fun w => w ∈ ws) l → strip_one ws s = None →
  strip_all (length (concat l ++ s)) ws (concat l ++ s) = s.
Proof using Hpc.
  intros Hl Hs. pose proof (length_words l Hl).
  replace (length (concat l ++ s)) with (length l + (length (concat l ++ s) - length l))
    by (rewrite length_app; lia).
  rewrite strip_all_words by done. by apply strip_all_None.
Qed.

Lemma strip_all_done fuel s : length s ≤ fuel → strip_one ws (strip_all fuel ws s) = None.
Proof using Hpc.
  destruct Hpc as [Hne _]. revert s. induction fuel as [|fuel IH]; intros s Hle; simpl.
  - apply strip_one_None. intros w s' Hw ->. eapply Forall_forall in Hne; [|exact Hw].
    destruct w; [done|]. simpl in Hle. lia.
  - destruct (strip_one ws s) as [s'|] eqn:Hs; [|done]. apply IH.
    apply strip_one_spec in Hs as (w & Hw & ->). eapply Forall_forall in Hne; [|exact Hw].
    destruct w; [done|]. rewrite length_app in Hle. simpl in Hle. lia.
Qed.

Lemma strip_all_suffix fuel s : ∃ s0, s = s0 ++ strip_all fuel ws s.
Proof.
  revert s. induction fuel as [|fuel IH]; intros s; simpl; [by exists []|].
  destruct (strip_one ws s) as [s'|] eqn:Hs; [|by exists []].
  apply strip_one_spec in Hs as (w & _ & ->). destruct (IH s') as [s0 Heq].
  exists (w ++ s0). by rewrite <- (assoc app), <- Heq.
Qed.
End strip.

Lemma space_code : prefix_code space_runes ∧ prefix_code (reverse <$> space_runes).
Proof. split; apply (bool_decide_unpack _); by vm_compute. Qed.

(** A field without surrounding white space. *)
Definition trimmed (p : bytes) : Prop :=
  strip_one space_runes p = None ∧ strip_one (reverse <$> space_runes) (reverse p) = None.

(** A byte inside a code point starts no white space. *)
Lemma inside_space u w b :
  u ∈ space_runes → w ∈ space_runes → b ∈ drop 1 u → head w ≠ Some b.
Proof.
  intros Hu Hw. revert b.
  assert (Forall (fun u => Forall (fun w => Forall (fun b => head w ≠ Some b) (drop 1 u)) space_runes)
    space_runes) as Hall by (apply (bool_decide_unpack _); by vm_compute).
  eapply Forall_forall in Hall; [|exact Hu]. eapply Forall_forall in Hall; [|exact Hw].
  by apply Forall_forall.
Qed.

Lemma space_not_spanning p r :
  p ≠ [] → strip_one space_runes p = None → Forall (fun w => w ∈ space_runes) r →
  strip_one space_runes (p ++ concat r) = None.
Proof.
  intros Hne Hp Hr. apply strip_one_None. intros u s' Hu Heq.
  destruct (Nat.le_ge_cases (length u) (length p)) as [Hle|Hge].
  - rewrite strip_one_None in Hp. apply (Hp u (drop (length u) p)); [done|].
    assert (take (length u) p = u) as Ht.
    { apply (f_equal (take (length u))) in Heq. by rewrite take_app_length, take_app_le in Heq. }
    rewrite <- Ht at 1. by rewrite take_drop.
  - assert (u = p ++ drop (length p) u) as Hpu.
    { apply (f_equal (take (length p))) in Heq. rewrite take_app_length in Heq.
      rewrite take_app_le in Heq by done. rewrite Heq at 1. by rewrite take_drop. }
    rewrite Hpu, <- (assoc app) in Heq. apply (inj (app p)) in Heq.
    destruct (drop (length p) u) as [|b u'] eqn:Hd.
    + rewrite app_nil_r in Hpu. subst p. rewrite strip_one_None in Hp.
      apply (Hp u []); [done|by rewrite app_nil_r].
    + destruct Hr as [|w r Hw Hr]; [done|]. destruct w as [|b' w].
      { destruct space_code as [[Hnil _] _]. by eapply Forall_forall in Hnil. }
      simpl in Heq. injection Heq as -> _.
      apply (inside_space u (b :: w) b Hu Hw); [|done]. rewrite Hpu.
      destruct p; [done|]. simpl. apply elem_of_app. right. apply list_elem_of_here.
Qed.

Lemma reverse_concat (r : list bytes) : reverse (concat r) = concat (reverse (reverse <$> r)).
Proof.
  induction r as [|w r IH]; [done|]. rewrite fmap_cons, reverse_cons, concat_app. cbn [concat].
  by rewrite reverse_app, IH, app_nil_r.
Qed.

Lemma trim_right_words p r :
  strip_one (reverse <$> space_runes) (reverse p) = None → Forall (fun w => w ∈ space_runes) r →
  trim_right (p ++ concat r) = p.
Proof.
  intros Hp Hr. unfold trim_right.
  assert (reverse (p ++ concat r) = concat (reverse (reverse <$> r)) ++ reverse p) as Heq
    by (by rewrite reverse_app, reverse_concat).
  rewrite <- (length_reverse (p ++ concat r)), Heq, strip_all_clean.
  - apply reverse_involutive.
  - apply space_code.
  - apply Forall_forall. intros w Hw. rewrite elem_of_reverse in Hw.
    apply list_elem_of_fmap in Hw as (v & -> & Hv). apply list_elem_of_fmap_2.
    eapply Forall_forall in Hr; done.
  - done.
Qed.

(** White space around a trimmed field, in any encoding, is removed. *)
Lemma TrimSpace_words l p r :
  trimmed p → Forall (fun w => w ∈ space_runes) l → Forall (fun w => w ∈ space_runes) r →
  TrimSpace (concat l ++ p ++ concat r) = p.
Proof.
  intros [Hp1 Hp2] Hl Hr. unfold TrimSpace, trim_left.
  destruct (decide (p = [])) as [->|Hne].
  - simpl. rewrite <- concat_app, <- (app_nil_r (concat (l ++ r))).
    rewrite strip_all_clean; [done|apply space_code|by apply Forall_app|done].
  - rewrite strip_all_clean; [|apply space_code|done|by apply space_not_spanning].
    by apply trim_right_words.
Qed.

Lemma TrimSpace_trimmed s : trimmed (TrimSpace s).
Proof.
  destruct space_code as [Hf Hr]. unfold TrimSpace. set (s1 := trim_left s).
  assert (strip_one space_runes s1 = None) as H1 by (by apply strip_all_done).
  unfold trim_right. split.
  - destruct (strip_all_suffix (reverse <$> space_runes) (length s1) (reverse s1)) as [s0 Heq].
    apply (f_equal reverse) in Heq. rewrite reverse_involutive, reverse_app in Heq.
    rewrite strip_one_None in *. intros w s' Hw Hs. rewrite Hs in Heq.
    apply (H1 w (s' ++ reverse s0)); [done|]. by rewrite Heq, <- (assoc app).
  - rewrite reverse_involutive. apply strip_all_done; [done|]. by rewrite length_reverse.
Qed.

Lemma trim_sub s b : b ∈ TrimSpace s → b ∈ s.
Proof.
  unfold TrimSpace. intros Hb.
  assert (b ∈ trim_left s) as H1.
  { unfold trim_right in Hb. rewrite elem_of_reverse in Hb.
    destruct (strip_all_suffix (reverse <$> space_runes) (length (trim_left s)) (reverse (trim_left s)))
      as [s0 Heq].
    rewrite <- elem_of_reverse, Heq. apply elem_of_app. by right. }
  unfold trim_left in H1. destruct (strip_all_suffix space_runes (length s) s) as [s0 Heq].
  rewrite Heq. apply elem_of_app. by right.
Qed.

(** ** Comma-separated lists *)

Fixpoint join_comma (ps : list bytes) : bytes :=
  match ps with
  | [] => []
  | [p] => p
  | p :: ps' => p ++ x2c :: join_comma ps'
  end.

Lemma split_no_comma p : x2c ∉ p → split_comma p = [p].
Proof.
  induction p as [|b p IH]; [done|]. intros [Hb Hp]%not_elem_of_cons. simpl.
  rewrite decide_False by done. by rewrite IH.
Qed.

Lemma split_comma_cons p s : x2c ∉ p → split_comma (p ++ x2c :: s) = p :: split_comma s.
Proof.
  induction p as [|b p IH]; [done|]. intros [Hb Hp]%not_elem_of_cons. simpl.
  rewrite decide_False by done. by rewrite IH.
Qed.

Lemma split_join ps : ps ≠ [] → Forall (fun p => x2c ∉ p) ps → split_comma (join_comma ps) = ps.
Proof.
  intros Hne Hps. induction Hps as [|p ps Hp Hps IH]; [done|]. destruct ps as [|q ps].
  - by apply split_no_comma.
  - change (join_comma (p :: q :: ps)) with (p ++ x2c :: join_comma (q :: ps)).
    by rewrite split_comma_cons, IH.
Qed.

Lemma split_comma_free s p : p ∈ split_comma s → x2c ∉ p.
Proof.
  revert p. induction s as [|b s IH]; intros p; simpl.
  - intros ->%list_elem_of_singleton. apply not_elem_of_nil.
  - case_decide as Hb.
    + intros [->|Hp]%elem_of_cons; [apply not_elem_of_nil|by apply IH].
    + destruct (split_comma s) as [|q qs].
      * intros ->%list_elem_of_singleton. by apply not_elem_of_cons; split; [|apply not_elem_of_nil].
      * intros [->|Hp]%elem_of_cons; [|apply IH; by right].
        apply not_elem_of_cons. split; [done|]. apply IH. by left.
Qed.

Lemma splitCSV_bytes_eq s : splitCSV_bytes s = filter (fun p => p ≠ []) (TrimSpace <$> split_comma s).
Proof. unfold splitCSV_bytes. case_decide; [by subst|done]. Qed.

(** A field as somebody writes it: [field.1.2] with white space around it. *)
Definition padded (field : list bytes * bytes * list bytes) : bytes :=
  concat field.1.1 ++ field.1.2 ++ concat field.2.

Definition field_ok (field : list bytes * bytes * list bytes) : Prop :=
  Forall (fun w => w ∈ space_runes) field.1.1 ∧ trimmed field.1.2 ∧ (x2c ∉ field.1.2) ∧
  Forall (fun w => w ∈ space_runes) field.2.

Lemma comma_no_space l : Forall (fun w => w ∈ space_runes) l → x2c ∉ concat l.
Proof.
  intros Hl. induction Hl as [|w l Hw _ IH]; [apply not_elem_of_nil|]. simpl.
  rewrite not_elem_of_app. split; [|done].
  assert (Forall (fun w => x2c ∉ w) space_runes) as Hall
    by (apply (bool_decide_unpack _); by vm_compute).
  by eapply Forall_forall in Hall.
Qed.

(** Comma-separated variables.  Whatever white space surrounds the items
    and however many fields are empty, [splitCSV] gives exactly the items, in
    order; and of any string it gives only items that are not empty, have no
    white space around them and hold no comma. *)
Theorem split_csv_items fields s :
  (Forall field_ok fields →
   splitCSV_bytes (join_comma (padded <$> fields)) =
     filter (fun p => p ≠ []) ((fun f => f.1.2) <$> fields)) ∧
  Forall (fun p => p ≠ [] ∧ trimmed p ∧ x2c ∉ p) (splitCSV_bytes s).
Proof.
  split.
  - intros Hf. destruct (decide (fields = [])) as [->|Hne]; [done|].
    rewrite splitCSV_bytes_eq, split_join.
    + rewrite <- list_fmap_compose. f_equal. apply list_fmap_ext. intros i f Hi.
      eapply Forall_lookup in Hf; [|exact Hi]. destruct Hf as (H1 & H2 & _ & H4).
      by apply TrimSpace_words.
    + by destruct fields.
    + apply Forall_fmap. eapply Forall_impl; [exact Hf|]. intros f (H1 & _ & H3 & H4).
      unfold compose, padded. rewrite !not_elem_of_app. split_and!; [by apply comma_no_space|done|].
      by apply comma_no_space.
  - rewrite splitCSV_bytes_eq. apply Forall_forall. intros p Hp.
    apply list_elem_of_filter in Hp as [Hne Hp]. apply list_elem_of_fmap in Hp as (q & -> & Hq).
    split_and!; [done|apply TrimSpace_trimmed|]. intros Hc%trim_sub.
    by eapply split_comma_free.
Qed.

Lemma split_csv_items_witness :
  splitCSV_bytes (join_comma (padded <$>
    [([[x20]; [xc2; xa0]], to_bytes "a", []); ([], [], [[x20]]); ([], to_bytes "b", [[x0a]])])) =
  [to_bytes "a"; to_bytes "b"].
Proof.
  etrans; [apply (split_csv_items
    [([[x20]; [xc2; xa0]], to_bytes "a", []); ([], [], [[x20]]); ([], to_bytes "b", [[x0a]])] [])|].
  - apply (bool_decide_unpack _). by vm_compute.
  - by vm_compute.
Defined.

(** ** Starting up *)

Section startup.
Context {GR : GoRand} {CJ : CommandJson} {B : Badger} {EJ : EntryJson} {ML : Memberlist}.

Lemma resetElectionTimeout_panics r :
  (baseElectionTimeout r ≤ 0)%Z → resetElectionTimeout r = None.
Proof. intros Hle. unfold resetElectionTimeout, Intn. by rewrite decide_True. Qed.

Lemma NewRaft_panics cfg : (cfgElectionTimeout cfg ≤ 0)%Z → NewRaft cfg = None.
Proof.
  intros Hle. unfold NewRaft. cbv zeta. apply resetElectionTimeout_panics.
  by repeat match goal with |- context [if decide ?P then _ else _] => destruct (decide P) end.
Qed.

Lemma NewNode_panics cfg db transport :
  reads_ok → db_fresh db → (ncElectionTimeout cfg ≤ 0)%Z → NewNode cfg (inr db) transport = None.
Proof.
  intros Hr (Ht & Hv & Hl) Hle. unfold NewNode.
  rewrite LoadState_ok, LoadLog_empty by done. by rewrite NewRaft_panics.
Qed.

(** A configuration of the server binary. *)
Lemma server_node_config env host pid :
  (0 < ncElectionTimeout (scNode (server_config env host pid)))%Z →
  node_config_ok (scNode (server_config env host pid)).
Proof. by split. Qed.

(** C35: starting up.  On a fresh database, when the listener and gossip can
    be created, the server reaches its event loop with a fresh node, and with
    discovery exactly when seeds are given, if the election timeout and the
    tick interval it read are positive; otherwise it panics, because neither
    is validated: rand.Intn and time.NewTicker refuse such arguments. *)
Theorem startup_outcome env host pid db disc :
  reads_ok → db_fresh db →
  New (scDiscovery (server_config env host pid)) = inr disc →
  let cfg := server_config env host pid in
  if decide (0 < ncElectionTimeout (scNode cfg) ∧ 0 < scTickInterval cfg)%Z
  then ∃ d, main cfg (inr db) true = Some (Running (mkLoop (fresh_node (scNode cfg) db) d false)) ∧
    (is_Some d ↔ scSeeds cfg ≠ [])
  else main cfg (inr db) true = None.
Proof.
  intros Hr Hdb Hnew cfg. fold cfg in Hnew.
  pose proof (server_node_config env host pid) as Hok. fold cfg in Hok. clearbody cfg. unfold main.
  destruct (decide (0 < ncElectionTimeout (scNode cfg))%Z) as [He|He].
  - rewrite NewNode_fresh by auto. cbn [seq_bind]. cbv zeta.
    assert (∃ d, (if decide (0 < length (scSeeds cfg)) then
       match New (scDiscovery cfg) with
       | inl _ => None
       | inr disc => let '(_, _, disc) := Join disc (scSeeds cfg) in
           Some (SetDiscovery (mkLoop (fresh_node (scNode cfg) db) None false) disc)
       end
     else Some (mkLoop (fresh_node (scNode cfg) db) None false)) =
       Some (mkLoop (fresh_node (scNode cfg) db) d false) ∧ (is_Some d ↔ scSeeds cfg ≠ [])) as (d & -> & Hd).
    { destruct (scSeeds cfg) as [|x xs].
      - exists None. split; [done|]. split; [by intros []|done].
      - simpl. rewrite Hnew. destruct (Join disc (x :: xs)) as [[? ?] disc'].
        exists (Some disc'). split; [done|]. split; [done|by eexists]. }
    unfold NewTicker. case_decide as Hc.
    + exists d. rewrite decide_True by tauto. by split.
    + rewrite decide_False by tauto. done.
  - rewrite decide_False by tauto. by rewrite NewNode_panics by (done || lia).
Qed.
End startup.

(** ** The advertised address *)

Section advertised.
Context {GR : GoRand} {CJ : CommandJson} {B : Badger} {EJ : EntryJson} {ML : Memberlist}.

(** What memberlist tells the others about a server, under its limit. *)
Definition mesh_node (cfg : ServerConfig) (addr : string) (port : N) (limit : nat) : MlNode :=
  mkMlNode (dcNodeID (scDiscovery cfg)) addr port
    (take limit (to_bytes (dcRaftAddr (scDiscovery cfg)))).

Lemma join_seen_addr l d cfg addr port limit :
  ec_closed (m_events d) = false → ec_queue (m_events d) = [] →
  ∃ l' out, join_seen l d (mesh_node cfg addr port limit) = Some (l', out) ∧
    n_peerAddrs (lp_node l') =
      <[dcNodeID (scDiscovery cfg) := advertised (dcRaftAddr (scDiscovery cfg)) limit]>
        (n_peerAddrs (lp_node l)).
Proof.
  intros Hc Hq. destruct (join_seen_eq l d (mesh_node cfg addr port limit) Hc Hq) as [out ->].
  do 2 eexists. split; [done|]. unfold event_of, mesh_node.
  cbn [lp_node mlName mlMeta DecodeMeta RaftAddr]. apply join_event_handled.
Qed.

(** C36: servers advertise the address they listen on.  Two servers that leave
    GRPC_ADDR unset are, for any third one that sees both join, at one and
    the same address, [[::]:9000], which is the third server's own listen
    address if it has the default too: its RPCs to both go to itself. *)
Theorem default_addresses_collide env1 env2 env3 host pid l d a1 p1 a2 p2 limit :
  env1 "GRPC_ADDR" = "" → env2 "GRPC_ADDR" = "" → env3 "GRPC_ADDR" = "" → 9 ≤ limit →
  ec_closed (m_events d) = false → ec_queue (m_events d) = [] →
  let c1 := server_config env1 host pid in
  let c2 := server_config env2 host pid in
  let c3 := server_config env3 host pid in
  ∃ l1 l2 out1 out2,
    join_seen l d (mesh_node c1 a1 p1 limit) = Some (l1, out1) ∧
    join_seen l1 d (mesh_node c2 a2 p2 limit) = Some (l2, out2) ∧
    resolvePeerAddr (lp_node l2) (ncID (scNode c1)) = "[::]:9000" ∧
    resolvePeerAddr (lp_node l2) (ncID (scNode c2)) = "[::]:9000" ∧
    scGRPCAddr c3 = "[::]:9000".
Proof.
  intros H1 H2 H3 Hlim Hc Hq c1 c2 c3.
  assert (∀ env, env "GRPC_ADDR" = "" →
    advertised (dcRaftAddr (scDiscovery (server_config env host pid))) limit = "[::]:9000") as Hadv.
  { intros env He. unfold server_config, envOr. cbn [scDiscovery dcRaftAddr]. rewrite He.
    rewrite decide_False by (by intros []). by apply advertised_short. }
  destruct (join_seen_addr l d c1 a1 p1 limit Hc Hq) as (l1 & out1 & Hj1 & Ha1).
  destruct (join_seen_addr l1 d c2 a2 p2 limit Hc Hq) as (l2 & out2 & Hj2 & Ha2).
  unfold c1 in Ha1. rewrite Hadv in Ha1 by done. unfold c2 in Ha2. rewrite Hadv, Ha1 in Ha2 by done.
  exists l1, l2, out1, out2. unfold resolvePeerAddr. rewrite Ha2. split_and!; [done|done| | |].
  - destruct (decide (dcNodeID (scDiscovery c2) = ncID (scNode c1))) as [Heq|Hne].
    + unfold c2 in Heq. by rewrite Heq, lookup_insert_eq.
    + rewrite lookup_insert_ne by done. unfold c1. by rewrite lookup_insert_eq.
  - unfold c2. by rewrite lookup_insert_eq.
  - unfold c3, server_config, envOr. cbn [scGRPCAddr]. by rewrite H3, decide_False by (by intros []).
Qed.
End advertised.

(** ** The witnesses *)

Section witness.
Import SampleStore.

(** NODE_ID alone is set. *)
Definition sample_env (id : string) : Env := fun key => if decide (key = "NODE_ID") then id else "".

Lemma startup_outcome_witness :
  (∃ d, main (server_config (sample_env "a") None "1") (inr empty_db) true =
     Some (Running (mkLoop (fresh_node (scNode (server_config (sample_env "a") None "1")) empty_db) d false)) ∧
     (is_Some d ↔ scSeeds (server_config (sample_env "a") None "1") ≠ [])) ∧
  main (server_config (fun key => if decide (key = "ELECTION") then "0" else "") None "1")
    (inr empty_db) true = None.
Proof.
  split.
  - refine (startup_outcome (sample_env "a") None "1" empty_db _ sample_reads empty_db_fresh eq_refl).
  - refine (startup_outcome (fun key => if decide (key = "ELECTION") then "0" else "") None "1"
      empty_db _ sample_reads empty_db_fresh eq_refl).
Defined.

Lemma default_addresses_collide_witness :
  ∃ l1 l2 out1 out2,
    join_seen sample_loop (sample_manager "c" "[::]:9000")
      (mesh_node (server_config (sample_env "a") None "1") "10.0.0.1" 7946 512) = Some (l1, out1) ∧
    join_seen l1 (sample_manager "c" "[::]:9000")
      (mesh_node (server_config (sample_env "b") None "1") "10.0.0.2" 7946 512) = Some (l2, out2) ∧
    resolvePeerAddr (lp_node l2) "a" = resolvePeerAddr (lp_node l2) "b".
Proof.
  destruct (default_addresses_collide (sample_env "a") (sample_env "b") (sample_env "c") None "1"
    sample_loop (sample_manager "c" "[::]:9000") "10.0.0.1" 7946 "10.0.0.2" 7946 512
    eq_refl eq_refl eq_refl ltac:(apply Nat.leb_le; by vm_compute) eq_refl eq_refl)
    as (l1 & l2 & out1 & out2 & Hj1 & Hj2 & Ha & Hb & _).
  exists l1, l2, out1, out2. split; [exact Hj1|]. split; [exact Hj2|].
  transitivity "[::]:9000"; [exact Ha|symmetry; exact Hb].
Defined.
End witness.
