(* ===== verification/Rpc.v ===== *)
(** * The gRPC transport (src/network/grpc_transport.go)

    The service descriptors with their handlers and the latency interceptor;
    the client side with its cache of connections.  [getConn] looks into the
    cache under the read lock and again under the write lock: the callers of
    all goroutines are a list, and a step lets one of them run one critical
    section, or lets [Close] run its own.  Dialling and invoking are grpc-go's,
    a class here. *)

From S2P Require Import Prelude Pb.

(** ** Service descriptors *)

Inductive Method := MAppendEntries | MRequestVote | MPropose | MRead.

#[export] Instance Method_eq_dec : EqDecision Method.
Proof. solve_decision. Defined.

Record ServiceDesc := mkServiceDesc {
  ServiceName : string;
  Methods : list (string * Method)
}.

Definition consensusServiceDesc : ServiceDesc :=
  mkServiceDesc "phalanx.Consensus" [("AppendEntries", MAppendEntries); ("RequestVote", MRequestVote)].

Definition kvServiceDesc : ServiceDesc :=
  mkServiceDesc "phalanx.KV" [("Propose", MPropose); ("Read", MRead)].

(** [RegisterHandlers] *)
Definition RegisterHandlers : list ServiceDesc := [consensusServiceDesc; kvServiceDesc].

Definition full_name (service method : string) : string :=
  ("/" +:+ service +:+ "/" +:+ method)%string.

(** The handler that serves a full method name. *)
Definition route (services : list ServiceDesc) (name : string) : option Method :=
  snd <$> head (filter (fun x => x.1 = name)
    (concat ((fun s => (fun m => (full_name (ServiceName s) m.1, m.2)) <$> Methods s) <$> services))).

(** ** Server side

    [X] is what a call of the node's handler amounts to; an interceptor sees
    the full method and the rest of the call. *)

(** One line of the log: method, and whether it counts as consensus traffic. *)
Record RpcRecord := mkRpcRecord { rpMethod : string; rpType : string }.

Section server.
Context {Err X : Type}.

Definition UnaryInterceptor (Req : Type) : Type :=
  string → (Req → X) → Req → X * list RpcRecord.

(** [strings.Contains] *)
Fixpoint Contains (s sub : string) : bool :=
  String.prefix sub s || match s with EmptyString => false | String _ s' => Contains s' sub end.

Definition latencyInterceptor {Req} : UnaryInterceptor Req :=
  fun method handler req =>
    (handler req,
     [mkRpcRecord method (if Contains method "AppendEntries" || Contains method "RequestVote"
                          then "consensus" else "client")]).

(** The body the four handlers share: decode, then call, through the
    interceptor if there is one. *)
Definition unary {Req} (method : string) (srv : Req → X) (dec : Err + Req)
    (interceptor : option (UnaryInterceptor Req)) : Err + (X * list RpcRecord) :=
  match dec with
  | inl err => inl err
  | inr req =>
      match interceptor with
      | None => inr (srv req, [])
      | Some i => inr (i method srv req)
      end
  end.

Definition aeHandler (srv : AppendEntriesRequest → X) :=
  unary "/phalanx.Consensus/AppendEntries" srv.
Definition rvHandler (srv : RequestVoteRequest → X) :=
  unary "/phalanx.Consensus/RequestVote" srv.
Definition proposeHandler (srv : ProposeRequest → X) := unary "/phalanx.KV/Propose" srv.
Definition readHandler (srv : ReadRequest → X) := unary "/phalanx.KV/Read" srv.
End server.

(** ** Client side *)

(** encoding/json on one message type [A], with [W] for the bytes of a body.
    Messages with valid UTF-8 strings ([wire_ok]) are read back as they were
    written; the integer fields are typed, so they do not pass through floating
    point. *)
Class JsonMessage (W A : Type) := {
  wire_ok : A → Prop;
  json_marshal_msg : A → string + W;
  json_unmarshal_msg : W → string + A;
  json_message_roundtrip a : wire_ok a →
    ∃ b, json_marshal_msg a = inr b ∧ json_unmarshal_msg b = inr a
}.

(** [Dial] may give something else every time: its last argument counts the
    calls.  [Invoke] uses the codec of the request and of the response. *)
Class Grpc := {
  Wire : Type;
  Conn : Type;
  GrpcError : Type;
  Dial : string → nat → GrpcError + Conn;
  Invoke : ∀ {Req Resp : Type} {JQ : JsonMessage Wire Req} {JR : JsonMessage Wire Resp},
    Conn → string → Req → Resp → Resp * option GrpcError
}.

Section client.
Context {G : Grpc}.

Inductive RpcError :=
  | ErrListen (addr : string) (cause : GrpcError)
  | ErrDial (target : string) (cause : GrpcError)
  | ErrInvoke (cause : GrpcError).

Record GRPCTransport := mkGRPCTransport {
  gt_addr : string;
  gt_conns : gmap string Conn;
  gt_closed : bool;
  gt_dials : list string;      (* the successful dials *)
  gt_attempts : nat;
  gt_shut : list Conn          (* the connections that were closed *)
}.

#[export] Instance GRPCTransport_settable : Settable GRPCTransport :=
  {| eta_expand t := mkGRPCTransport (gt_addr t) (gt_conns t) (gt_closed t) (gt_dials t) (gt_attempts t)
       (gt_shut t) |}.

(** [listen] is the error of [net.Listen] for an address, if any. *)
Definition NewGRPCTransport (cfgAddr : string) (listen : string → option GrpcError)
    : RpcError + GRPCTransport :=
  let addr := if decide (cfgAddr = "") then "[::]:9000" else cfgAddr in
  match listen addr with
  | Some err => inl (ErrListen addr err)
  | None => inr (mkGRPCTransport addr ∅ false [] 0 [])
  end.

(** A goroutine inside [getConn]. *)
Inductive Caller :=
  | AtStart (target : string)
  | AtUpgrade (target : string)        (* missed under the read lock *)
  | GotConn (target : string) (conn : Conn)
  | DialFailed (target : string) (err : RpcError).

(** The critical section under the read lock. *)
Definition getConn_read (t : GRPCTransport) (target : string) : Caller :=
  match gt_conns t !! target with
  | Some conn => GotConn target conn
  | None => AtUpgrade target
  end.

(** The critical section under the write lock. *)
Definition getConn_write (t : GRPCTransport) (target : string) : GRPCTransport * Caller :=
  match gt_conns t !! target with
  | Some conn => (t, GotConn target conn)
  | None =>
      match Dial target (gt_attempts t) with
      | inl err => (t <| gt_attempts := S (gt_attempts t) |>, DialFailed target (ErrDial target err))
      | inr conn =>
          (t <| gt_attempts := S (gt_attempts t) |> <| gt_dials := target :: gt_dials t |>
             <| gt_conns := <[target := conn]> (gt_conns t) |>, GotConn target conn)
      end
  end.

(** [getConn] without other goroutines in between. *)
Definition getConn (t : GRPCTransport) (target : string) : GRPCTransport * Caller :=
  match getConn_read t target with
  | AtUpgrade target => getConn_write t target
  | c => (t, c)
  end.

(** [Close] after the graceful stop: every cached connection is closed and
    forgotten. *)
Definition Close_grpc (t : GRPCTransport) : GRPCTransport :=
  if gt_closed t then t
  else t <| gt_closed := true |>
         <| gt_shut := gt_shut t ++ (map_to_list (gt_conns t)).*2 |> <| gt_conns := ∅ |>.

(** The common body of the four [Send] methods: [None] is a nil response. *)
Definition send_rpc {Req Resp} {JQ : JsonMessage Wire Req} {JR : JsonMessage Wire Resp}
    (t : GRPCTransport) (target method : string) (req : Req) (zero : Resp)
    : GRPCTransport * option Resp * option RpcError :=
  match getConn t target with
  | (t, GotConn _ conn) =>
      let '(out, err) := Invoke conn method req zero in (t, Some out, ErrInvoke <$> err)
  | (t, DialFailed _ err) => (t, None, Some err)
  | (t, _) => (t, None, None)
  end.

Definition SendAppendEntries {JQ : JsonMessage Wire AppendEntriesRequest}
    {JR : JsonMessage Wire AppendEntriesResponse}
    (t : GRPCTransport) (target : string) (req : AppendEntriesRequest) :=
  send_rpc t target "/phalanx.Consensus/AppendEntries" req (mkAppendEntriesResponse 0 false 0).

Definition SendRequestVote {JQ : JsonMessage Wire RequestVoteRequest}
    {JR : JsonMessage Wire RequestVoteResponse}
    (t : GRPCTransport) (target : string) (req : RequestVoteRequest) :=
  send_rpc t target "/phalanx.Consensus/RequestVote" req (mkRequestVoteResponse 0 false false).

Definition SendPropose {JQ : JsonMessage Wire ProposeRequest} {JR : JsonMessage Wire ProposeResponse}
    (t : GRPCTransport) (target : string) (req : ProposeRequest) :=
  send_rpc t target "/phalanx.KV/Propose" req (mkProposeResponse false "" "").

Definition SendRead {JQ : JsonMessage Wire ReadRequest} {JR : JsonMessage Wire ReadResponse}
    (t : GRPCTransport) (target : string) (req : ReadRequest) :=
  send_rpc t target "/phalanx.KV/Read" req (mkReadResponse "" false "" "").

(** ** Interleavings *)

(** One critical section of one goroutine. *)
Inductive conn_step : GRPCTransport * list Caller → GRPCTransport * list Caller → Prop :=
  | step_read t cs i target :
      cs !! i = Some (AtStart target) →
      conn_step (t, cs) (t, <[i := getConn_read t target]> cs)
  | step_write t cs i target :
      cs !! i = Some (AtUpgrade target) →
      conn_step (t, cs) ((getConn_write t target).1, <[i := (getConn_write t target).2]> cs)
  | step_call t cs target :
      conn_step (t, cs) (t, cs ++ [AtStart target])
  | step_close t cs :
      conn_step (t, cs) (Close_grpc t, cs).

(** Every connection handed out is the cached one or was closed; a target was
    dialled successfully once if it has a cached connection, unless [Close]
    emptied the cache. *)
Definition conns_inv (s : GRPCTransport * list Caller) : Prop :=
  (∀ i target conn, s.2 !! i = Some (GotConn target conn) →
     gt_conns s.1 !! target = Some conn ∨ conn ∈ gt_shut s.1) ∧
  (gt_closed s.1 = false → gt_shut s.1 = [] ∧ NoDup (gt_dials s.1) ∧
     ∀ target, target ∈ gt_dials s.1 ↔ is_Some (gt_conns s.1 !! target)).

Lemma getConn_write_inv t target c t' cs :
  conns_inv (t, cs) → getConn_write t target = (t', c) →
  conns_inv (t', cs) ∧
  ∀ tg conn, c = GotConn tg conn → gt_conns t' !! tg = Some conn.
Proof.
  intros [Hgot Hcl] Hw. simpl in Hgot, Hcl. unfold getConn_write in Hw.
  destruct (gt_conns t !! target) as [conn|] eqn:Hc.
  { injection Hw as <- <-. split; [by split|]. by intros tg conn' [= <- <-]. }
  destruct (Dial target (gt_attempts t)) as [err|conn]; injection Hw as <- <-.
  { split; [by split|done]. }
  split; [split; simpl|].
  - intros i tg conn' Hi. destruct (Hgot i tg conn' Hi) as [Hin|Hin]; [left|by right].
    rewrite lookup_insert_ne; [done|]. intros ->. by rewrite Hc in Hin.
  - intros Hf. destruct (Hcl Hf) as (Hs & Hd & Hin). simpl in *. split_and!; [done| |].
    + constructor; [|done]. rewrite Hin, Hc. by intros [? ?].
    + intros tg. rewrite elem_of_cons, Hin, lookup_insert_is_Some'. naive_solver.
  - intros tg conn' [= <- <-]. apply lookup_insert_eq.
Qed.

Lemma conn_step_inv s s' : conns_inv s → conn_step s s' → conns_inv s'.
Proof.
  intros Hinv Hstep. destruct Hstep as [t cs i target Hi|t cs i target Hi|t cs target|t cs].
  - destruct Hinv as [Hgot Hcl]. simpl in Hgot, Hcl. split; [|done]. simpl. intros j tg conn Hj.
    apply list_lookup_insert_Some in Hj as [(<- & Hc & _)|[_ Hj]]; [|by apply (Hgot j)].
    left. unfold getConn_read in Hc. destruct (gt_conns t !! target) eqn:Hl; [|done].
    by injection Hc as <- <-.
  - destruct (getConn_write t target) as [t' c] eqn:Hw.
    destruct (getConn_write_inv t target c t' cs Hinv Hw) as [[Hgot Hcl] Hc]. split; [|done].
    simpl in *. intros j tg conn Hj.
    apply list_lookup_insert_Some in Hj as [(<- & Heq & _)|[_ Hj]]; [|by apply (Hgot j)].
    left. by apply Hc.
  - destruct Hinv as [Hgot Hcl]. simpl in Hgot, Hcl. split; [|done]. simpl. intros j tg conn Hj.
    apply lookup_app_Some in Hj as [Hj|[_ Hj]]; [by apply (Hgot j)|].
    by apply list_lookup_singleton_Some in Hj as [_ ?].
  - destruct Hinv as [Hgot Hcl]. simpl in Hgot, Hcl. unfold Close_grpc.
    destruct (gt_closed t) eqn:Hct; [by split; [|simpl; congruence]|].
    split; [|done]. simpl. intros j tg conn Hj. right. apply elem_of_app.
    destruct (Hgot j tg conn Hj) as [Hin|Hin]; [right|by left].
    apply list_elem_of_fmap. exists (tg, conn). split; [done|by apply elem_of_map_to_list].
Qed.

Lemma conn_steps_inv s s' : conns_inv s → rtc conn_step s s' → conns_inv s'.
Proof. intros Hinv Hs. induction Hs; [done|]. by eauto using conn_step_inv. Qed.

Lemma NewGRPCTransport_eq addr listen t :
  NewGRPCTransport addr listen = inr t → ∃ a, t = mkGRPCTransport a ∅ false [] 0 [].
Proof.
  unfold NewGRPCTransport. cbv zeta. destruct (listen _); [done|]. intros [= <-]. by eexists.
Qed.

Lemma conns_inv_initial addr cs :
  Forall (fun c => ∃ target, c = AtStart target) cs →
  conns_inv (mkGRPCTransport addr ∅ false [] 0 [], cs).
Proof.
  intros Hcs. split; simpl.
  - intros i target conn Hi. eapply Forall_lookup in Hi; [|exact Hcs]. by destruct Hi.
  - intros _. split_and!; [done|apply NoDup_nil_2|]. intros tg. rewrite lookup_empty. split.
    + by intros ?%not_elem_of_nil.
    + by intros [? ?].
Qed.

(** C37: connections are shared.  However the goroutines inside [getConn] are
    interleaved, as long as the transport is not closed, no target is dialled
    successfully twice and all callers of a target hold the same, cached
    connection; and once [Close] ran, every connection that was handed out
    before is closed or cached. *)
Theorem one_connection_per_target addr listen t0 cs t cs' :
  NewGRPCTransport addr listen = inr t0 → Forall (fun c => ∃ target, c = AtStart target) cs →
  rtc conn_step (t0, cs) (t, cs') →
  (gt_closed t = false →
   NoDup (gt_dials t) ∧
   ∀ i target conn, cs' !! i = Some (GotConn target conn) → gt_conns t !! target = Some conn) ∧
  ∀ i target conn, cs' !! i = Some (GotConn target conn) →
    gt_conns t !! target = Some conn ∨ conn ∈ gt_shut t.
Proof.
  intros [a ->]%NewGRPCTransport_eq Hcs Hs.
  destruct (conn_steps_inv _ _ (conns_inv_initial a cs Hcs) Hs) as [Hgot Hcl].
  split; [|done]. intros Hf. simpl in *. destruct (Hcl Hf) as (Hsh & Hd & _). split; [done|].
  intros i target conn Hi. destruct (Hgot i target conn Hi) as [Hin|Hin]; [done|].
  rewrite Hsh in Hin. by apply not_elem_of_nil in Hin.
Qed.

(** [Close] can leave a connection open.  A goroutine that missed the
    cache before [Close] dials after it and caches a new connection, and a
    second [Close] does nothing. *)
Theorem close_leaves_late_connection addr listen t0 target conn :
  NewGRPCTransport addr listen = inr t0 → Dial target 0 = inr conn →
  ∃ t cs, rtc conn_step (t0, [AtStart target]) (t, cs) ∧
    cs !! 0 = Some (GotConn target conn) ∧ gt_closed t = true ∧
    gt_conns (Close_grpc t) !! target = Some conn ∧ conn ∉ gt_shut (Close_grpc t).
Proof.
  intros [a ->]%NewGRPCTransport_eq Hd. do 2 eexists. split_and!.
  - eapply rtc_l; [by apply (step_read _ _ 0)|]. eapply rtc_l; [apply step_close|].
    eapply rtc_l; [by apply (step_write _ _ 0 target)|]. apply rtc_refl.
  - unfold getConn_write. simpl. by rewrite Hd.
  - unfold getConn_write. simpl. by rewrite Hd.
  - unfold getConn_write. simpl. rewrite Hd. simpl. apply lookup_insert_eq.
  - unfold getConn_write. simpl. rewrite Hd. simpl. apply not_elem_of_nil.
Qed.
End client.

(** ** Every call reaches its handler *)

(** The method names the client uses are served by the handlers of their
    requests, and the log tells consensus from client traffic. *)
Theorem methods_routed {Err X : Type} (vote : RequestVoteRequest → X) (append : AppendEntriesRequest → X)
    (propose : ProposeRequest → X) (read : ReadRequest → X) a v p r :
  route RegisterHandlers "/phalanx.Consensus/AppendEntries" = Some MAppendEntries ∧
  route RegisterHandlers "/phalanx.Consensus/RequestVote" = Some MRequestVote ∧
  route RegisterHandlers "/phalanx.KV/Propose" = Some MPropose ∧
  route RegisterHandlers "/phalanx.KV/Read" = Some MRead ∧
  aeHandler (Err := Err) append (inr a) (Some latencyInterceptor) =
    inr (append a, [mkRpcRecord "/phalanx.Consensus/AppendEntries" "consensus"]) ∧
  rvHandler (Err := Err) vote (inr v) (Some latencyInterceptor) =
    inr (vote v, [mkRpcRecord "/phalanx.Consensus/RequestVote" "consensus"]) ∧
  proposeHandler (Err := Err) propose (inr p) (Some latencyInterceptor) =
    inr (propose p, [mkRpcRecord "/phalanx.KV/Propose" "client"]) ∧
  readHandler (Err := Err) read (inr r) (Some latencyInterceptor) =
    inr (read r, [mkRpcRecord "/phalanx.KV/Read" "client"]).
Proof. split_and!; reflexivity. Qed.

(** ** The witnesses *)

#[export] Instance sample_grpc : Grpc := {|
  Wire := bytes;
  Conn := nat;
  GrpcError := unit;
  Dial target k := if decide (target = "") then inl () else inr k;
  Invoke _ _ _ _ _ _ _ out := (out, None)
|}.

(** Two goroutines miss the cache; the second finds the connection of the
    first under the write lock. *)
Definition open_transport : GRPCTransport := mkGRPCTransport "[::]:9000" ∅ false [] 0 [].

Lemma one_connection_per_target_witness :
  ∃ t, rtc conn_step (open_transport, [AtStart "b"; AtStart "b"])
    (t, [GotConn "b" (0 : Conn); GotConn "b" (0 : Conn)]) ∧
    NoDup (gt_dials t) ∧ gt_conns t !! "b" = Some 0.
Proof.
  eexists. match goal with |- ?P ∧ _ => assert P as Hs end.
  { eapply rtc_l; [by apply (step_read _ _ 0 "b")|]. eapply rtc_l; [by apply (step_read _ _ 1 "b")|].
    eapply rtc_l; [by apply (step_write _ _ 1 "b")|]. eapply rtc_l; [by apply (step_write _ _ 0 "b")|].
    apply rtc_refl. }
  split; [exact Hs|].
  destruct (one_connection_per_target "" (fun _ => None) open_transport
    [AtStart "b"; AtStart "b"] _ _ eq_refl ltac:(repeat constructor; by eexists) Hs) as [Hopen _].
  destruct (Hopen eq_refl) as [Hd Hc]. split; [exact Hd|]. exact (Hc 0 "b" 0 eq_refl).
Defined.

Lemma close_leaves_late_connection_witness :
  ∃ t cs, rtc conn_step (open_transport, [AtStart "b"]) (t, cs) ∧
    gt_closed t = true ∧ gt_conns (Close_grpc t) !! "b" = Some 0.
Proof.
  destruct (close_leaves_late_connection (G := sample_grpc) "" (fun _ => None) open_transport "b" 0
    eq_refl eq_refl) as (t & cs & Hs & _ & Hc & Hl & _).
  exists t, cs. split; [exact Hs|]. split; [exact Hc|exact Hl].
Defined.
