(* ===== verification/RpcPath.v ===== *)
(** * From a client call to the node's handler and back

    The way of a request through the gRPC transport
    (src/network/grpc_transport.go): [Send] marshals it with the JSON codec,
    the server finds the method among the registered services, unmarshals it,
    runs the handler through the interceptor, which delegates to the node, and
    the answer comes back the same way.  The two service interfaces of
    src/pb/rpc.go and the two handler interfaces of the transport are records
    of operations. *)

From S2P Require Import Prelude Pb Storage Rpc.

(** ** The JSON codec *)

Definition codecName : string := "json".

(** [jsonCodec], which the package registers under its name. *)
Definition codec_Marshal {W A} `{JsonMessage W A} (v : A) : string + W := json_marshal_msg v.
Definition codec_Unmarshal {W A} `{JsonMessage W A} (data : W) : string + A := json_unmarshal_msg data.
Definition codec_Name : string := codecName.

(** ** Interfaces *)

Section path.
Context {E W : Type}.

(** pb.ConsensusServer, pb.KVServer *)
Record ConsensusServer := mkConsensusServer {
  AppendEntries : AppendEntriesRequest → E + AppendEntriesResponse;
  RequestVote : RequestVoteRequest → E + RequestVoteResponse
}.

Record KVServer := mkKVServer {
  Propose : ProposeRequest → E + ProposeResponse;
  Read : ReadRequest → E + ReadResponse
}.

(** network.ConsensusHandler, network.KVHandler: what a node does with a
    request at the moment it is served. *)
Record ConsensusHandler := mkConsensusHandler {
  HandleAppendEntries : AppendEntriesRequest → E + AppendEntriesResponse;
  HandleRequestVote : RequestVoteRequest → E + RequestVoteResponse
}.

Record KVHandler := mkKVHandler {
  HandlePropose : ProposeRequest → E + ProposeResponse;
  HandleRead : ReadRequest → E + ReadResponse
}.

Definition consensusGRPCHandler (h : ConsensusHandler) : ConsensusServer :=
  mkConsensusServer (HandleAppendEntries h) (HandleRequestVote h).

Definition kvGRPCHandler (h : KVHandler) : KVServer :=
  mkKVServer (HandlePropose h) (HandleRead h).

(** ** The server *)

Context {JAE : JsonMessage W AppendEntriesRequest} {JAR : JsonMessage W AppendEntriesResponse}
  {JRV : JsonMessage W RequestVoteRequest} {JRR : JsonMessage W RequestVoteResponse}
  {JPQ : JsonMessage W ProposeRequest} {JPR : JsonMessage W ProposeResponse}
  {JRQ : JsonMessage W ReadRequest} {JRS : JsonMessage W ReadResponse}.

(** What goes wrong in a call besides what a handler returns: gRPC's own
    status errors. *)
Inductive CallError :=
  | ErrUnimplemented (method : string)
  | ErrDecoding (why : string)
  | ErrEncoding (why : string)
  | ErrHandler (e : E).

(** The answer of one method handler, marshalled. *)
Definition reply {Resp} {JP : JsonMessage W Resp} (x : string + ((E + Resp) * list RpcRecord))
    : (CallError + W) * list RpcRecord :=
  match x with
  | inl why => (inl (ErrDecoding why), [])
  | inr (inl e, records) => (inl (ErrHandler e), records)
  | inr (inr resp, records) =>
      (match codec_Marshal resp with inl why => inl (ErrEncoding why) | inr b => inr b end, records)
  end.

(** The server that [NewGRPCTransport] makes and [RegisterHandlers] fills: the
    registered services with the latency interceptor. *)
Definition server (cons : ConsensusServer) (kv : KVServer) (method : string) (body : W)
    : (CallError + W) * list RpcRecord :=
  match route RegisterHandlers method with
  | Some MAppendEntries =>
      reply (aeHandler (AppendEntries cons) (codec_Unmarshal body) (Some latencyInterceptor))
  | Some MRequestVote =>
      reply (rvHandler (RequestVote cons) (codec_Unmarshal body) (Some latencyInterceptor))
  | Some MPropose =>
      reply (proposeHandler (Propose kv) (codec_Unmarshal body) (Some latencyInterceptor))
  | Some MRead =>
      reply (readHandler (Read kv) (codec_Unmarshal body) (Some latencyInterceptor))
  | None => (inl (ErrUnimplemented method), [])
  end.

(** A transport with a node's handlers registered. *)
Definition RegisterHandlers_server (h : ConsensusHandler) (k : KVHandler) :=
  server (consensusGRPCHandler h) (kvGRPCHandler k).

(** ** The client *)

(** [conn.Invoke] on a connection to that server: the response is decoded into
    [out], which keeps its zero value when the call fails. *)
Definition invoke {Req Resp} {JQ : JsonMessage W Req} {JP : JsonMessage W Resp}
    (srv : string → W → (CallError + W) * list RpcRecord)
    (method : string) (req : Req) (out : Resp) : Resp * option CallError :=
  match codec_Marshal req with
  | inl why => (out, Some (ErrEncoding why))
  | inr b =>
      match (srv method b).1 with
      | inl e => (out, Some e)
      | inr b => match codec_Unmarshal b with
                 | inl why => (out, Some (ErrDecoding why))
                 | inr resp => (resp, None)
                 end
      end
  end.

(** What a caller should see of a handler's result. *)
Definition result {Resp} (zero : Resp) (x : E + Resp) : Resp * option CallError :=
  match x with
  | inl e => (zero, Some (ErrHandler e))
  | inr resp => (resp, None)
  end.

(** A handler of messages of the wire. *)
Definition answers_ok {Req Resp} {JP : JsonMessage W Resp} (f : Req → E + Resp) : Prop :=
  ∀ req resp, f req = inr resp → wire_ok resp.

Lemma decoded {A} {JA : JsonMessage W A} (a : A) b :
  wire_ok a → codec_Marshal a = inr b → codec_Unmarshal b = inr a.
Proof.
  intros Ha Hb. destruct (json_message_roundtrip a Ha) as (b' & Hb' & Hu).
  unfold codec_Marshal in Hb. rewrite Hb in Hb'. by injection Hb' as <-.
Qed.

(** One method: [handler] is the one that serves [method]. *)
Lemma invoke_result {Req Resp} {JQ : JsonMessage W Req} {JP : JsonMessage W Resp} srv method
    (f : Req → E + Resp) (req : Req) (zero : Resp) records :
  (∀ b, srv method b = reply (match codec_Unmarshal b with
     | inl why => inl why | inr req => inr (f req, records) end)) →
  wire_ok req → answers_ok f → invoke srv method req zero = result zero (f req).
Proof.
  intros Hsrv Hreq Hf. unfold invoke.
  destruct (json_message_roundtrip req Hreq) as (b & Hb & Hu). unfold codec_Marshal at 1. rewrite Hb.
  rewrite Hsrv. unfold codec_Unmarshal at 1. rewrite Hu. unfold reply, result.
  destruct (f req) as [e|resp] eqn:Hr; [done|].
  destruct (json_message_roundtrip resp (Hf req resp Hr)) as (b' & Hb' & Hu').
  unfold codec_Marshal. rewrite Hb'. cbn [fst]. unfold codec_Unmarshal. by rewrite Hu'.
Qed.

End path.

Arguments ConsensusServer : clear implicits.
Arguments KVServer : clear implicits.
Arguments ConsensusHandler : clear implicits.
Arguments KVHandler : clear implicits.
Arguments CallError : clear implicits.

(** ** Through the transport of the caller *)

Section send.
Context {E : Type} {G : Grpc}.
Context {JAE : JsonMessage Wire AppendEntriesRequest} {JAR : JsonMessage Wire AppendEntriesResponse}
  {JRV : JsonMessage Wire RequestVoteRequest} {JRR : JsonMessage Wire RequestVoteResponse}
  {JPQ : JsonMessage Wire ProposeRequest} {JPR : JsonMessage Wire ProposeResponse}
  {JRQ : JsonMessage Wire ReadRequest} {JRS : JsonMessage Wire ReadResponse}.
Context (status_error : CallError E → GrpcError).

(** Every connection that is dialled to [target] reaches the server [srv]. *)
Definition wired (target : string)
    (srv : string → Wire → (CallError E + Wire) * list RpcRecord) : Prop :=
  ∀ n conn, Dial target n = inr conn →
  let reaches (Req Resp : Type) (JReq : JsonMessage Wire Req) (JResp : JsonMessage Wire Resp) :=
    ∀ method (req : Req) (zero : Resp),
      Invoke conn method req zero =
        ((invoke srv method req zero).1, status_error <$> (invoke srv method req zero).2) in
  reaches AppendEntriesRequest AppendEntriesResponse _ _ ∧
  reaches RequestVoteRequest RequestVoteResponse _ _ ∧
  reaches ProposeRequest ProposeResponse _ _ ∧ reaches ReadRequest ReadResponse _ _.

(** The cached connections were dialled. *)
Definition conns_dialled (t : GRPCTransport) : Prop :=
  ∀ target conn, gt_conns t !! target = Some conn → ∃ n, Dial target n = inr conn.

Lemma getConn_dialled t target :
  conns_dialled t →
  conns_dialled (getConn t target).1 ∧
  ((∃ conn n, (getConn t target).2 = GotConn target conn ∧ Dial target n = inr conn) ∨
   (∃ err, (getConn t target).2 = DialFailed target err)).
Proof.
  intros Ht. unfold getConn, getConn_read.
  destruct (gt_conns t !! target) as [conn|] eqn:Hc.
  { split; [done|left]. destruct (Ht target conn Hc) as [n Hn]. by exists conn, n. }
  unfold getConn_write. rewrite Hc. destruct (Dial target (gt_attempts t)) as [err|conn] eqn:Hd.
  { split; [done|right]. by eexists. }
  split; [|left; by eexists _, _].
  intros tg c. simpl. intros [[<- <-]|[_ ?]]%lookup_insert_Some; [by eexists|by apply Ht].
Qed.

(** What a [Send] should return: the handler's answer [x], or the reason why the
    target cannot be reached. *)
Definition delivered {Resp} (t : GRPCTransport) (target : string) (zero : Resp) (x : E + Resp)
    (out : GRPCTransport * option Resp * option RpcError) : Prop :=
  (∃ conn, (getConn t target).2 = GotConn target conn ∧
     out = ((getConn t target).1, Some (result zero x).1,
            ErrInvoke <$> (status_error <$> (result zero x).2))) ∨
  (∃ err, (getConn t target).2 = DialFailed target err ∧ out = ((getConn t target).1, None, Some err)).

Lemma send_delivered {Req Resp} {JReq : JsonMessage Wire Req} {JResp : JsonMessage Wire Resp}
    t target method (req : Req) (zero : Resp) x :
  conns_dialled t →
  (∀ n conn, Dial target n = inr conn →
     Invoke conn method req zero = ((result zero x).1, status_error <$> (result zero x).2)) →
  delivered t target zero x (send_rpc t target method req zero).
Proof.
  intros Ht Hinv. destruct (getConn_dialled t target Ht) as [_ Hc]. unfold send_rpc, delivered.
  destruct (getConn t target) as [t' c]. cbn [fst snd] in Hc.
  destruct Hc as [(conn & n & -> & Hd)|(err & ->)].
  - left. exists conn. split; [done|]. by rewrite (Hinv n conn Hd).
  - right. by exists err.
Qed.

(** ** The theorem *)

(** C38: a call reaches the right handler and brings back its answer.  Between two
    transports whose connections carry bytes faithfully, each of the four [Send]
    operations has the matching handler of the target node run on the very request
    that was sent, and returns its response, or its error with the zero response;
    or it returns the error of the dial, and no handler runs. *)
Theorem send_reaches_handler t target (h : ConsensusHandler E) (k : KVHandler E) :
  conns_dialled t → wired target (RegisterHandlers_server h k) →
  answers_ok (HandleAppendEntries h) → answers_ok (HandleRequestVote h) →
  answers_ok (HandlePropose k) → answers_ok (HandleRead k) →
  (∀ req, wire_ok req → delivered t target (mkAppendEntriesResponse 0 false 0)
     (HandleAppendEntries h req) (SendAppendEntries t target req)) ∧
  (∀ req, wire_ok req → delivered t target (mkRequestVoteResponse 0 false false)
     (HandleRequestVote h req) (SendRequestVote t target req)) ∧
  (∀ req, wire_ok req → delivered t target (mkProposeResponse false "" "")
     (HandlePropose k req) (SendPropose t target req)) ∧
  (∀ req, wire_ok req → delivered t target (mkReadResponse "" false "" "")
     (HandleRead k req) (SendRead t target req)).
Proof.
  intros Ht Hw Hae Hrv Hpr Hrd. split_and!; intros req Hreq; (apply send_delivered; [done|]);
    intros n conn Hd; destruct (Hw n conn Hd) as (Wae & Wrv & Wpr & Wrd).
  - rewrite Wae. by erewrite (invoke_result _ _ (HandleAppendEntries h)).
  - rewrite Wrv. by erewrite (invoke_result _ _ (HandleRequestVote h)).
  - rewrite Wpr. by erewrite (invoke_result _ _ (HandlePropose k)).
  - rewrite Wrd. by erewrite (invoke_result _ _ (HandleRead k)).
Qed.
End send.

(** ** The end of a node *)

(** [Node.shutdown]: the transport and the store it leaves behind, closed; the
    errors of both are ignored. *)
Definition shutdown {G : Grpc} {B : Badger} {BO : BadgerOpen} (grpc : option GRPCTransport)
    (store : option DB) : option GRPCTransport * option (option DBError) :=
  (Close_grpc <$> grpc, Close_store <$> store).

(** ** The witness *)

Module SampleWire.
(** Bodies that remember what was marshalled. *)
Inductive AnyMessage :=
  | WAppendEntriesRequest (m : AppendEntriesRequest)
  | WAppendEntriesResponse (m : AppendEntriesResponse)
  | WRequestVoteRequest (m : RequestVoteRequest)
  | WRequestVoteResponse (m : RequestVoteResponse)
  | WProposeRequest (m : ProposeRequest)
  | WProposeResponse (m : ProposeResponse)
  | WReadRequest (m : ReadRequest)
  | WReadResponse (m : ReadResponse).

Definition type_mismatch {A} : string + A := inl "json: cannot unmarshal".

Definition remembered {A} (c : A → AnyMessage) (d : AnyMessage → option A)
    (Hcd : ∀ a, d (c a) = Some a) : JsonMessage AnyMessage A.
Proof.
  refine {| wire_ok _ := True; json_marshal_msg a := inr (c a);
    json_unmarshal_msg b := match d b with Some a => inr a | None => type_mismatch end |}.
  intros a _. exists (c a). by rewrite Hcd.
Defined.

#[export] Instance j1 : JsonMessage AnyMessage AppendEntriesRequest :=
  remembered WAppendEntriesRequest
    (fun b => match b with WAppendEntriesRequest m => Some m | _ => None end) (fun _ => eq_refl).
#[export] Instance j2 : JsonMessage AnyMessage AppendEntriesResponse :=
  remembered WAppendEntriesResponse
    (fun b => match b with WAppendEntriesResponse m => Some m | _ => None end) (fun _ => eq_refl).
#[export] Instance j3 : JsonMessage AnyMessage RequestVoteRequest :=
  remembered WRequestVoteRequest
    (fun b => match b with WRequestVoteRequest m => Some m | _ => None end) (fun _ => eq_refl).
#[export] Instance j4 : JsonMessage AnyMessage RequestVoteResponse :=
  remembered WRequestVoteResponse
    (fun b => match b with WRequestVoteResponse m => Some m | _ => None end) (fun _ => eq_refl).
#[export] Instance j5 : JsonMessage AnyMessage ProposeRequest :=
  remembered WProposeRequest
    (fun b => match b with WProposeRequest m => Some m | _ => None end) (fun _ => eq_refl).
#[export] Instance j6 : JsonMessage AnyMessage ProposeResponse :=
  remembered WProposeResponse
    (fun b => match b with WProposeResponse m => Some m | _ => None end) (fun _ => eq_refl).
#[export] Instance j7 : JsonMessage AnyMessage ReadRequest :=
  remembered WReadRequest
    (fun b => match b with WReadRequest m => Some m | _ => None end) (fun _ => eq_refl).
#[export] Instance j8 : JsonMessage AnyMessage ReadResponse :=
  remembered WReadResponse
    (fun b => match b with WReadResponse m => Some m | _ => None end) (fun _ => eq_refl).

(** One node, at "b:9000": a follower of term 3. *)
Definition b_consensus : ConsensusHandler string :=
  mkConsensusHandler (fun req => inr (mkAppendEntriesResponse 3 false 7))
    (fun req => inl "node: no response generated").
Definition b_kv : KVHandler string :=
  mkKVHandler (fun _ => inr (mkProposeResponse false "a:9000" "not leader"))
    (fun _ => inr (mkReadResponse "" false "a:9000" "not leader")).

#[export] Instance one_node : Grpc := {|
  Wire := AnyMessage;
  Conn := unit;
  GrpcError := CallError string + unit;
  Dial target _ := if decide (target = "b:9000") then inr tt else inl (inr tt);
  Invoke _ _ _ _ _ method req zero :=
    let out := invoke (RegisterHandlers_server b_consensus b_kv) method req zero in
    (out.1, inl <$> out.2)
|}.

Lemma send_reaches_handler_witness :
  (SendAppendEntries (mkGRPCTransport "[::]:9000" ∅ false [] 0 []) "b:9000"
     (mkAppendEntriesRequest 2 "a" 0 0 [] 0)).1.2 = Some (mkAppendEntriesResponse 3 false 7).
Proof.
  destruct (send_reaches_handler (G := one_node) inl (mkGRPCTransport "[::]:9000" ∅ false [] 0 [])
    "b:9000" b_consensus b_kv) as (Hae & _).
  - intros target conn Hc. discriminate Hc.
  - intros n conn _. split_and!; reflexivity.
  - done.
  - done.
  - done.
  - done.
  - destruct (Hae (mkAppendEntriesRequest 2 "a" 0 0 [] 0) I) as [(conn & _ & ->)|(err & He & _)];
      [reflexivity|discriminate].
Defined.
End SampleWire.
