(* ===== verification/Cli.v ===== *)
(** * The command-line client (src/cmd/phalanx/main.go)

    [main], [put] and [get] with their argument parsing and their output, over
    the two RPCs they make.  A run of the program is what it prints and its
    exit code. *)

From S2P Require Import Prelude Pb Raft RaftWf Cluster ClusterTrans Sample Kv Storage Metrics Node NodeSpec NodeRuns.

(** The effect of a run: standard output, standard error, exit code. *)
Record Run := mkRun { r_out : string; r_err : string; r_code : Z }.

Definition exit (out err : string) (code : Z) : Run := mkRun out err code.

Definition newline : string := String (Ascii.ascii_of_nat 10) EmptyString.

(** ** Arguments *)

(** The loop of [parseAddr]: [-addr] takes the next argument, if any. *)
Fixpoint parseAddr (args : list string) (addr : string) : list string * string :=
  match args with
  | [] => ([], addr)
  | arg :: rest =>
      match rest with
      | a :: rest' =>
          if decide (arg = "-addr") then parseAddr rest' a
          else let '(filtered, addr) := parseAddr rest addr in (arg :: filtered, addr)
      | [] => ([arg], addr)
      end
  end.

(** ** Commands *)

(** [fatal] of a formatted message. *)
Definition fatal (msg : string) : Run := exit "" (msg +:+ newline) 1.

Definition usage_text : string :=
"Phalanx CLI — Consensus-driven KV Store

Usage:
  phalanx put <key> <value> [-addr host:port]   Write a key-value pair
  phalanx get <key>         [-addr host:port]   Read a value by key
  phalanx status            [-addr host:port]   Show cluster health

Flags:
  -addr   gRPC address for put/get (default: localhost:9000)
          HTTP address for status  (default: localhost:8080)".

Definition usage : Run := exit "" (usage_text +:+ newline) 1.

(** The RPCs of the client, by address: an error message or the response.
    [rpc_dial] is the error of [grpc.Dial], if any. *)
Record Rpcs := mkRpcs {
  rpc_dial : string → option string;
  rpc_propose : string → ProposeRequest → string + ProposeResponse;
  rpc_read : string → ReadRequest → string + ReadResponse
}.

Section cli.
Context {CJ : CommandJson}.

(** [dial] ends the program when it fails. *)
Definition dial (rpcs : Rpcs) (addr : string) (k : Run) : Run :=
  match rpc_dial rpcs addr with
  | Some err => fatal ("dial " +:+ addr +:+ ": " +:+ err)
  | None => k
  end.

(** The hint both commands print after a failure. *)
Definition try_addr (leader : string) : string :=
  if decide (leader ≠ "") then " (try: -addr " +:+ leader +:+ ")" else "".

Definition doPut (rpcs : Rpcs) (args : list string) : Run :=
  let '(filtered, addr) := parseAddr args "localhost:9000" in
  match filtered with
  | key :: value :: _ =>
      dial rpcs addr
        (match rpc_propose rpcs addr (mkProposeRequest (Encode (mkCommand OpSet key value))) with
         | inl err => fatal ("rpc error: " +:+ err)
         | inr resp =>
             if prSuccess resp
             then exit ("✓ SET " +:+ key +:+ " = " +:+ value +:+ newline) "" 0
             else exit ("✗ failed: " +:+ prError resp +:+ try_addr (prLeaderAddr resp) +:+ newline) "" 1
         end)
  | _ => fatal "usage: phalanx put <key> <value> [-addr host:port]"
  end.

Definition doGet (rpcs : Rpcs) (args : list string) : Run :=
  let '(filtered, addr) := parseAddr args "localhost:9000" in
  match filtered with
  | key :: _ =>
      dial rpcs addr
        (match rpc_read rpcs addr (mkReadRequest key) with
         | inl err => fatal ("rpc error: " +:+ err)
         | inr resp =>
             if decide (rrError resp ≠ "")
             then exit ("✗ " +:+ rrError resp +:+ try_addr (rrLeaderAddr resp) +:+ newline) "" 1
             else if rrFound resp
             then exit (key +:+ " = " +:+ rrValue resp +:+ newline) "" 0
             else exit ("(not found) " +:+ key +:+ newline) "" 1
         end)
  | [] => fatal "usage: phalanx get <key> [-addr host:port]"
  end.

(** [main] on the arguments after the program name; [doStatus] is the HTTP
    client, which is in [Status]. *)
Definition cli_main (rpcs : Rpcs) (doStatus : list string → Run) (argv : list string) : Run :=
  match argv with
  | [] => usage
  | cmd :: args =>
      if decide (cmd = "put") then doPut rpcs args
      else if decide (cmd = "get") then doGet rpcs args
      else if decide (cmd = "status") then doStatus args
      else exit "" ("unknown command: " +:+ cmd +:+ newline +:+ r_err usage) 1
  end.
End cli.

(** ** [parseAddr] *)

Lemma parseAddr_cons arg a rest addr :
  parseAddr (arg :: a :: rest) addr =
    if decide (arg = "-addr") then parseAddr rest a
    else ((arg :: (parseAddr (a :: rest) addr).1), (parseAddr (a :: rest) addr).2).
Proof.
  change (parseAddr (arg :: a :: rest) addr) with
    (if decide (arg = "-addr") then parseAddr rest a
     else let '(filtered, addr) := parseAddr (a :: rest) addr in (arg :: filtered, addr)).
  case_decide; [done|]. by destruct (parseAddr (a :: rest) addr).
Qed.

Definition no_flag (args : list string) : Prop := "-addr" ∉ args.

Lemma parseAddr_no_flag args addr : no_flag args → parseAddr args addr = (args, addr).
Proof.
  unfold no_flag. revert addr. induction args as [|arg args IH]; [done|].
  intros addr [Ha Hargs]%not_elem_of_cons. destruct args as [|a args]; [done|].
  by rewrite parseAddr_cons, decide_False, IH.
Qed.

Lemma parseAddr_flag xs a ys addr :
  no_flag xs →
  parseAddr (xs ++ "-addr" :: a :: ys) addr = (xs ++ (parseAddr ys a).1, (parseAddr ys a).2).
Proof.
  unfold no_flag. induction xs as [|x xs IH].
  - intros _. rewrite app_nil_l, parseAddr_cons, decide_True by done. by destruct (parseAddr ys a).
  - intros [Hx Hxs]%not_elem_of_cons. specialize (IH Hxs). rewrite <- app_comm_cons.
    destruct (xs ++ "-addr" :: a :: ys) as [|y rest] eqn:Hr; [by destruct xs|].
    by rewrite parseAddr_cons, decide_False, IH.
Qed.

Lemma parseAddr_lone_flag xs addr :
  no_flag xs → parseAddr (xs ++ ["-addr"]) addr = (xs ++ ["-addr"], addr).
Proof.
  unfold no_flag. induction xs as [|x xs IH]; [done|]. intros [Hx Hxs]%not_elem_of_cons.
  specialize (IH Hxs). rewrite <- app_comm_cons.
  destruct (xs ++ ["-addr"]) as [|y rest] eqn:Hr; [by destruct xs|].
  by rewrite parseAddr_cons, decide_False, IH.
Qed.

(** An argument list, split at its flags: arguments before each [-addr value],
    and the rest, which may end in a flag without a value. *)
Definition with_flags (segs : list (list string * string)) (tail : list string) : list string :=
  concat ((fun s => s.1 ++ ["-addr"; s.2]) <$> segs) ++ tail.

Definition tail_ok (tail : list string) : Prop :=
  no_flag tail ∨ ∃ t, no_flag t ∧ tail = t ++ ["-addr"].

(** The flag may stand anywhere and be repeated; the last value wins, the
    other arguments keep their order, and a trailing [-addr] without a value is
    an ordinary argument. *)
Theorem parse_addr segs tail addr :
  Forall (fun s => no_flag s.1) segs → tail_ok tail →
  parseAddr (with_flags segs tail) addr =
    (concat segs.*1 ++ tail, default addr (last segs.*2)).
Proof.
  intros Hs Ht. revert addr. induction Hs as [|[xs a] segs Hx _ IH]; intros addr.
  - destruct Ht as [Ht|(t & Ht & ->)]; [by apply parseAddr_no_flag|by apply parseAddr_lone_flag].
  - unfold with_flags in *. rewrite fmap_cons. cbn [concat fst snd]. rewrite <- !(assoc app).
    cbn [app]. rewrite parseAddr_flag, IH by done. cbn [fst snd]. rewrite !fmap_cons. cbn [concat fst snd].
    rewrite <- (assoc app). f_equal. rewrite last_cons. by destruct (last segs.*2).
Qed.

Lemma parse_addr_witness :
  parseAddr ["k"; "-addr"; "h:1"; "v"; "-addr"; "h:2"; "-addr"] "localhost:9000" =
    (["k"; "v"; "-addr"], "h:2").
Proof.
  apply (parse_addr [(["k"], "h:1"); (["v"], "h:2")] ["-addr"] "localhost:9000").
  - repeat constructor; unfold no_flag; simpl; apply (bool_decide_unpack _); by vm_compute.
  - right. exists []. split; [apply not_elem_of_nil|done].
Defined.

(** ** The client and the cluster *)

Section end_to_end.
Context {GR : GoRand} {CJ : CommandJson} {B : Badger} {EJ : EntryJson}.

(** C39: what was put is what is got.  If [put k v] is acknowledged, it prints
    so; and when the node that answers [get k] is a leader that holds its lease
    and has applied the entry with the command that was proposed, and after it
    only commands on other keys, [get k] prints [k = v]. *)
Theorem put_then_get rpcs status n kv e later k v addr :
  k ≠ "-addr" → v ≠ "-addr" → utf8_command (mkCommand OpSet k v) →
  rpc_dial rpcs addr = None →
  rpc_propose rpcs addr (mkProposeRequest (eData e)) = inr (mkProposeResponse true "" "") →
  rpc_read rpcs addr (mkReadRequest k) = inr (read_answer n (mkReadRequest k)) →
  eType e = EntryCommand → eData e = Encode (mkCommand OpSet k v) →
  HasLeaderQuorum (n_raft n) = true → n_fsm n = replay (run_entry kv e) later →
  Forall (fun f => ∃ c, utf8_command c ∧ eData f = Encode c ∧ cKey c ≠ k) later →
  cli_main rpcs status ["put"; k; v; "-addr"; addr] =
    exit ("✓ SET " +:+ k +:+ " = " +:+ v +:+ newline) "" 0 ∧
  cli_main rpcs status ["get"; k; "-addr"; addr] = exit (k +:+ " = " +:+ v +:+ newline) "" 0.
Proof.
  intros Hk Hv Hu Hdial Hprop Hread Hty Hdata Hq Hfsm Hlater.
  assert (Get (n_fsm n) k = (v, true)) as Hget.
  { rewrite Hfsm. clear Hfsm. assert (Get (run_entry kv e) k = (v, true)) as Hkv.
    { unfold run_entry. rewrite decide_True, Hdata, Apply_encoded by done.
      rewrite decide_True by done. unfold Get. simpl. by rewrite lookup_insert_eq. }
    revert Hkv. generalize (run_entry kv e) as kv'.
    induction Hlater as [|f later (c & Hc & Hfd & Hck) _ IH]; [done|]. intros kv' Hkv'.
    apply (IH (run_entry kv' f)). unfold run_entry. case_decide; [|done].
    rewrite Hfd, Apply_encoded by done. unfold Get in *.
    repeat case_decide; simpl; [|rewrite lookup_delete_ne by done|]; try done.
    by rewrite lookup_insert_ne. }
  split.
  - unfold cli_main. rewrite decide_True by done. unfold doPut.
    rewrite (parseAddr_flag [k; v] addr []) by (unfold no_flag; set_solver). simpl.
    unfold dial. by rewrite Hdial, <- Hdata, Hprop.
  - unfold cli_main. rewrite decide_False, decide_True by done. unfold doGet.
    rewrite (parseAddr_flag [k] addr []) by (unfold no_flag; set_solver). simpl.
    unfold dial. rewrite Hdial, Hread, read_answer_served by done.
    unfold read_value. by rewrite Hget.
Qed.
End end_to_end.

Section witness.
Import SampleStore.

(** Node "a" after "b" acknowledged the entry of [x := 1]. *)
Definition node_with_x : Node :=
  ran_node node2 [NvAppendReply (newMessage MsgAppendEntries "a" "b" 1)
                    (Some (mkAppendEntriesResponse 1 true 2))].

Definition entry_x : LogEntry := mkLogEntry 2 1 (set_cmd "x" "1") EntryCommand.

(** A client whose RPCs reach that node. *)
Definition sample_rpcs : Rpcs :=
  mkRpcs (fun _ => None) (fun _ _ => inr (mkProposeResponse true "" ""))
    (fun _ req => inr (read_answer node_with_x req)).

Lemma node_with_x_store : kv_data (n_fsm node_with_x) = kv_data (replay (run_entry NewKV entry_x) []).
Proof. by vm_compute. Qed.

Lemma put_then_get_witness :
  cli_main sample_rpcs (fun _ => usage) ["get"; "x"; "-addr"; "h:1"] =
    exit ("x" +:+ " = " +:+ "1" +:+ newline) "" 0.
Proof.
  apply (put_then_get sample_rpcs (fun _ => usage) node_with_x NewKV entry_x [] "x" "1" "h:1").
  - done.
  - done.
  - exact I.
  - reflexivity.
  - reflexivity.
  - reflexivity.
  - reflexivity.
  - reflexivity.
  - by vm_compute.
  - pose proof node_with_x_store as H. destruct (n_fsm node_with_x), (replay _ _). simpl in H.
    f_equal. exact H.
  - constructor.
Defined.
End witness.
