(* ===== verification/Status.v ===== *)
(** * The status page

    The debug endpoint of a node (src/observability/metrics.go [DebugHandler],
    src/node.go [startDebugServer]) and the client that prints it
    (src/cmd/phalanx/main.go [doStatus]): from the fields of a node to JSON by
    the struct tags, over HTTP, and back to the rows of a table.  The text form
    of JSON documents is encoding/json's, a class here; what the source uses of
    [fmt] is written out. *)

From S2P Require Import Prelude Pb Raft RaftWf Cluster ClusterTrans Sample Kv Storage Metrics Node NodeSpec NodeRuns Cli.
From Stdlib Require Import Ascii.
From stdpp Require Import pretty sorting.

(** ** JSON documents *)

(** [JNum] is a natural number below 2^53, which a float64 represents exactly;
    [JFloat] is any other number, given as [%v] shows it. *)
Inductive Json :=
  | JNull
  | JBool (b : bool)
  | JNum (n : N)
  | JFloat (shown : string)
  | JStr (s : string)
  | JArr (xs : list Json)
  | JObj (kvs : list (string * Json)).

(** UTF-8 continuation bytes. *)
Definition continuation (c : Ascii.ascii) : bool :=
  let n := Ascii.N_of_ascii c in bool_decide (128 ≤ n < 192)%N.

(** [utf8.RuneCountInString] on valid UTF-8, which decoded strings are. *)
Fixpoint runes (s : string) : nat :=
  match s with
  | EmptyString => 0
  | String c s' => if continuation c then runes s' else S (runes s')
  end.

(** Every string of the document is [text_ok], and every number exact. *)
Fixpoint plain (text_ok : string → Prop) (j : Json) : Prop :=
  match j with
  | JNull | JBool _ => True
  | JNum n => (n < 9007199254740992)%N
  | JFloat _ => False
  | JStr s => text_ok s
  | JArr xs => foldr (fun x P => plain text_ok x ∧ P) True xs
  | JObj kvs => foldr (fun kv P => (text_ok kv.1 ∧ plain text_ok kv.2) ∧ P) True kvs
  end.

(** encoding/json on documents: what was written is read back, if its strings
    are valid UTF-8 ([utf8], which every ASCII string is) and its numbers are
    exact. *)
Class JsonText := {
  Body : Type;
  raw_text : string → Body;
  json_render : bool → Json → Body;
  json_parse : Body → string + Json;
  utf8 : string → Prop;
  utf8_ascii s : Forall (fun c => Ascii.N_of_ascii c < 128)%N (String.list_ascii_of_string s) → utf8 s;
  json_roundtrip indent j : plain utf8 j → json_parse (json_render indent j) = inr j
}.

Definition key_le (x y : string * Json) : Prop := String.leb x.1 y.1 = true.

#[export] Instance key_le_dec : RelDecision key_le.
Proof. intros x y. unfold key_le. apply _. Defined.

(** A Go map: the keys are written in order, and the last of equal keys is kept
    when it is read. *)
Definition sorted_entries (m : gmap string Json) : list (string * Json) :=
  merge_sort key_le (map_to_list m).

Definition entries_map (kvs : list (string * Json)) : gmap string Json :=
  list_to_map (reverse kvs).

(** ** The debug endpoint *)

Definition snapshot_json (m : MetricsSnapshot) : Json :=
  JObj [("messages_sent_total", JNum (msMessagesSent m));
        ("election_count", JNum (msElectionCount m));
        ("last_commit_index", JNum (msLastCommitIndex m));
        ("proposals_total", JNum (msProposalsTotal m));
        ("reads_total", JNum (msReadsTotal m));
        ("applied_index", JNum (msAppliedIndex m));
        ("current_state", JStr (msCurrentState m))].

(** An empty slice is [null] if it is nil and [[]] otherwise; the model of a
    slice does not tell, so [isnil] does. *)
Definition strings_json (isnil : bool) (xs : list string) : Json :=
  if decide (xs = []) then if isnil then JNull else JArr [] else JArr (JStr <$> xs).

(** [json:"kv_data,omitempty"] *)
Definition kv_data_json (m : gmap string string) : list (string * Json) :=
  if decide (m = ∅) then [] else [("kv_data", JObj (sorted_entries (JStr <$> m)))].

Definition status_fields (isnil : bool) (s : NodeStatus) : list (string * Json) :=
  [("node_id", JStr (nsNodeID s));
   ("state", JStr (nsState s));
   ("term", JNum (nsTerm s));
   ("leader_id", JStr (nsLeaderID s));
   ("commit_index", JNum (nsCommitIdx s));
   ("applied_index", JNum (nsAppliedIdx s));
   ("log_length", JNum (N.of_nat (nsLogLength s)));
   ("peers", strings_json isnil (nsPeers s));
   ("kv_size", JNum (N.of_nat (nsKVSize s)))] ++
  kv_data_json (nsKVData s) ++
  [("metrics", snapshot_json (nsMetrics s))].

Definition status_json (isnil : bool) (s : NodeStatus) : Json := JObj (status_fields isnil s).

Section server.
Context {GR : GoRand} {CJ : CommandJson} {B : Badger} {EJ : EntryJson} {JT : JsonText}.

Record HttpResponse := mkHttpResponse {
  hrCode : Z;
  hrContentType : string;
  hrCacheControl : string;
  hrBody : Body
}.

Definition DebugHandler (isnil : bool) (statusFn : NodeStatus) : HttpResponse :=
  mkHttpResponse 200 "application/json; charset=utf-8" "no-cache"
    (json_render true (status_json isnil statusFn)).

(** The handler of [/health] in [startDebugServer]. *)
Definition health (n : Node) : HttpResponse :=
  mkHttpResponse 200 "application/json" ""
    (json_render false (JObj [("node", JStr (ncID (n_cfg n)));
       ("state", JStr (NodeState_String (state (n_raft n)))); ("status", JStr "ok")])).

(** [http.NotFound] *)
Definition not_found : HttpResponse :=
  mkHttpResponse 404 "text/plain; charset=utf-8" "" (raw_text ("404 page not found" +:+ newline)).

(** The mux of [startDebugServer], by path. *)
Definition debug_mux (n : Node) (isnil : bool) (path : string) : HttpResponse :=
  if decide (path = "/debug/status") then DebugHandler isnil (nodeStatus n)
  else if decide (path = "/health") then health n
  else not_found.

(** Where [startDebugServer] listens. *)
Definition debugAddr (cfgDebugAddr : string) : string :=
  if decide (cfgDebugAddr = "") then ":8080" else cfgDebugAddr.
End server.

(** ** fmt *)

Fixpoint spaces (n : nat) : string :=
  match n with O => "" | S n' => String " "%char (spaces n') end.

Definition pad_left (w : nat) (s : string) : string := spaces (w - runes s) +:+ s.
Definition pad_right (w : nat) (s : string) : string := s +:+ spaces (w - runes s).

(** Drop the zeros at the end. *)
Fixpoint strip_zeros (s : string) : string :=
  match s with
  | EmptyString => ""
  | String c s' =>
      match strip_zeros s' with
      | EmptyString => if decide (c = "0"%char) then "" else String c ""
      | t => String c t
      end
  end.

(** The mantissa of the shortest representation, from the digits. *)
Definition mantissa (digits : string) : string :=
  match strip_zeros digits with
  | EmptyString => "0"
  | String c EmptyString => String c ""
  | String c rest => String c ("." +:+ rest)
  end.

(** At least two digits. *)
Definition exponent (e : nat) : string :=
  if decide (e < 10) then "0" +:+ pretty (N.of_nat e) else pretty (N.of_nat e).

(** [%v] of a float64 that is the natural number [n] below 2^53: the shortest
    form of [%g], which turns to an exponent from 10^6 on. *)
Definition fmt_float (n : N) : string :=
  if decide (n < 1000000)%N then pretty n
  else let digits := pretty n in
       mantissa digits +:+ "e+" +:+ exponent (pred (String.length digits)).

(** [%v] with a width: it applies to the leaves, but not to a nil element. *)
Fixpoint fmt_v (w : nat) (j : Json) : string :=
  match j with
  | JNull => pad_left w "<nil>"
  | JBool b => pad_left w (if b then "true" else "false")
  | JNum n => pad_left w (fmt_float n)
  | JFloat shown => pad_left w shown
  | JStr s => pad_left w s
  | JArr xs =>
      "[" +:+ String.concat " "
        (List.map (fun x => match x with JNull => "<nil>" | _ => fmt_v w x end) xs) +:+ "]"
  | JObj kvs =>
      let shown := List.map (fun '(k, x) =>
        (k, JStr (match x with JNull => "<nil>" | _ => fmt_v w x end))) kvs in
      "map[" +:+ String.concat " "
        (List.map (fun kv : string * Json => pad_left w kv.1 +:+ ":" +:+
           match kv.2 with JStr s => s | _ => "" end) (sorted_entries (entries_map shown))) +:+ "]"
  end.

(** ** doStatus *)

Fixpoint Repeat (s : string) (n : nat) : string :=
  match n with O => "" | S n' => s +:+ Repeat s n' end.

Definition printHeader (title : string) : string :=
  let line := Repeat "─" 50 in
  let pad := (50 - String.length title) / 2 in
  "┌" +:+ line +:+ "┐" +:+ newline +:+
  "│" +:+ spaces pad +:+ title +:+ spaces (50 - pad - String.length title) +:+ "│" +:+ newline +:+
  "├" +:+ line +:+ "┤" +:+ newline.

Definition printRow (key : string) (val : Json) : string :=
  "│ " +:+ pad_right 20 key +:+ " " +:+ fmt_v 28 val +:+ " │" +:+ newline.

(** [status["key"]]: nil if it is not there. *)
Definition field (m : gmap string Json) (key : string) : Json := default JNull (m !! key).

(** [json.Unmarshal] of a document into a map. *)
Definition unmarshal_map (j : Json) : string + gmap string Json :=
  let mismatch kind :=
    inl ("json: cannot unmarshal " +:+ kind +:+ " into Go value of type map[string]interface {}") in
  match j with
  | JObj kvs => inr (entries_map kvs)
  | JNull => inr ∅
  | JBool _ => mismatch "bool"
  | JNum _ | JFloat _ => mismatch "number"
  | JStr _ => mismatch "string"
  | JArr _ => mismatch "array"
  end.

(** The rows for the JSON values; [order] is the order in which [range]
    visits a map. *)
Definition peers_row (status : gmap string Json) : string :=
  match field status "peers" with
  | JArr ps => printRow "Peers" (JStr (String.concat ", " (fmt_v 0 <$> ps)))
  | _ => ""
  end.

Definition metrics_rows (status : gmap string Json) : string :=
  match field status "metrics" with
  | JObj kvs =>
      let metrics := entries_map kvs in
      newline +:+ printHeader "METRICS" +:+
      printRow "Messages Sent" (field metrics "messages_sent_total") +:+
      printRow "Elections" (field metrics "election_count") +:+
      printRow "Proposals" (field metrics "proposals_total") +:+
      printRow "Reads" (field metrics "reads_total") +:+
      printRow "State" (field metrics "current_state")
  | _ => ""
  end.

Definition kv_rows (order : list (string * Json) → list (string * Json))
    (status : gmap string Json) : string :=
  match field status "kv_data" with
  | JObj kvs =>
      let kvData := entries_map kvs in
      if decide (0 < size kvData)
      then newline +:+ printHeader "KV DATA" +:+
           String.concat "" ((fun kv => printRow kv.1 kv.2) <$> order (map_to_list kvData))
      else ""
  | _ => ""
  end.

Definition status_table (order : list (string * Json) → list (string * Json))
    (status : gmap string Json) : string :=
  printHeader "NODE STATUS" +:+
  printRow "Node ID" (field status "node_id") +:+
  printRow "State" (field status "state") +:+
  printRow "Term" (field status "term") +:+
  printRow "Leader" (field status "leader_id") +:+
  printRow "Commit Index" (field status "commit_index") +:+
  printRow "Applied Index" (field status "applied_index") +:+
  printRow "Log Length" (field status "log_length") +:+
  printRow "KV Size" (field status "kv_size") +:+
  peers_row status +:+ metrics_rows status +:+ kv_rows order status.

Definition status_url (addr : string) : string :=
  (if String.prefix "http" addr then addr else "http://" +:+ addr) +:+ "/debug/status".

(** [http_get] is the error message or the body of a GET. *)
Definition doStatus {JT : JsonText} (http_get : string → string + Body)
    (order : list (string * Json) → list (string * Json)) (args : list string) : Run :=
  let '(_, addr) := parseAddr args "localhost:8080" in
  match http_get (status_url addr) with
  | inl err => fatal ("http error: " +:+ err)
  | inr body =>
      match json_parse body with
      | inl err => fatal ("invalid JSON: " +:+ err)
      | inr j =>
          match unmarshal_map j with
          | inl err => fatal ("invalid JSON: " +:+ err)
          | inr status => exit (status_table order status) "" 0
          end
      end
  end.

(** ** Documents that survive the wire *)

Section wire.
Context {JT : JsonText}.

Lemma plain_obj kvs :
  plain utf8 (JObj kvs) ↔ Forall (fun kv => utf8 kv.1 ∧ plain utf8 kv.2) kvs.
Proof. simpl. induction kvs as [|kv kvs IH]; [done|]. rewrite Forall_cons, <- IH. done. Qed.

Lemma plain_arr xs : plain utf8 (JArr xs) ↔ Forall (plain utf8) xs.
Proof. simpl. induction xs as [|x xs IH]; [done|]. rewrite Forall_cons, <- IH. done. Qed.

Lemma sorted_entries_perm m : sorted_entries m ≡ₚ map_to_list m.
Proof. apply merge_sort_Permutation. Qed.

(** A map is read back as it was written. *)
Lemma entries_map_sorted m : entries_map (sorted_entries m) = m.
Proof.
  unfold entries_map. rewrite <- (list_to_map_to_list m) at 2.
  assert (reverse (sorted_entries m) ≡ₚ map_to_list m) as Hp
    by (by rewrite reverse_Permutation, sorted_entries_perm).
  apply list_to_map_proper; [|done]. rewrite Hp. apply NoDup_fst_map_to_list.
Qed.

Lemma entries_lookup kvs k v : NoDup kvs.*1 → (k, v) ∈ kvs → entries_map kvs !! k = Some v.
Proof.
  intros Hnd Hin. unfold entries_map. apply elem_of_list_to_map.
  - by rewrite fmap_reverse, reverse_Permutation.
  - by apply elem_of_reverse.
Qed.

Lemma entries_missing kvs k : k ∉ kvs.*1 → entries_map kvs !! k = None.
Proof.
  intros Hk. unfold entries_map. apply not_elem_of_list_to_map. by rewrite fmap_reverse, elem_of_reverse.
Qed.

(** What makes the status of a node exact on the wire. *)
Definition plain_snapshot (m : MetricsSnapshot) : Prop :=
  Forall (fun v => v < 9007199254740992)%N
    [msMessagesSent m; msElectionCount m; msLastCommitIndex m; msProposalsTotal m;
     msReadsTotal m; msAppliedIndex m] ∧ utf8 (msCurrentState m).

Definition plain_status (s : NodeStatus) : Prop :=
  Forall (fun v => v < 9007199254740992)%N
    [nsTerm s; nsCommitIdx s; nsAppliedIdx s; N.of_nat (nsLogLength s); N.of_nat (nsKVSize s)] ∧
  Forall utf8 ([nsNodeID s; nsState s; nsLeaderID s] ++ nsPeers s) ∧
  map_Forall (fun k v => utf8 k ∧ utf8 v) (nsKVData s) ∧ plain_snapshot (nsMetrics s).

Ltac ascii := apply utf8_ascii, (bool_decide_unpack _); by vm_compute.

Lemma plain_snapshot_json m : plain_snapshot m → plain utf8 (snapshot_json m).
Proof.
  intros [Hn Hs]. rewrite !Forall_cons in Hn. destruct Hn as (? & ? & ? & ? & ? & ? & _).
  apply plain_obj. repeat (constructor; [split; [ascii|done]|]). constructor.
Qed.

Lemma plain_strings isnil xs : Forall utf8 xs → plain utf8 (strings_json isnil xs).
Proof.
  intros Hxs. unfold strings_json. case_decide; [by destruct isnil|].
  apply plain_arr, Forall_fmap. by eapply Forall_impl.
Qed.

Lemma plain_kv_data m :
  map_Forall (fun k v => utf8 k ∧ utf8 v) m →
  Forall (fun kv => utf8 kv.1 ∧ plain utf8 kv.2) (kv_data_json m).
Proof.
  intros Hm. unfold kv_data_json. case_decide; [constructor|]. constructor; [|constructor].
  split; [ascii|]. apply plain_obj. rewrite sorted_entries_perm. apply Forall_forall.
  intros [k v] Hin%elem_of_map_to_list. apply lookup_fmap_Some in Hin as (x & <- & Hx).
  by apply (Hm k x).
Qed.

Lemma plain_status_json isnil s : plain_status s → plain utf8 (status_json isnil s).
Proof.
  intros (Hn & Hs & Hkv & Hm). rewrite !Forall_cons in Hn. destruct Hn as (? & ? & ? & ? & ? & _).
  apply Forall_app in Hs as [Hs Hp]. rewrite !Forall_cons in Hs. destruct Hs as (? & ? & ? & _).
  apply plain_obj. unfold status_fields. apply Forall_app. split; [|apply Forall_app; split].
  - repeat (constructor; [split; [ascii|first [done|by apply plain_strings]]|]). constructor.
  - by apply plain_kv_data.
  - constructor; [|constructor]. split; [ascii|by apply plain_snapshot_json].
Qed.
End wire.

(** ** What the client shows *)

Section shown.
Context {GR : GoRand} {CJ : CommandJson} {B : Badger} {EJ : EntryJson} {JT : JsonText}.

(** The table for node [n], from its state. *)
Definition peers_shown (isnil : bool) (ps : list string) : string :=
  if decide (ps = [] ∧ isnil = true) then "" else printRow "Peers" (JStr (String.concat ", " ps)).

Definition metrics_shown (m : Metrics) : string :=
  newline +:+ printHeader "METRICS" +:+
  printRow "Messages Sent" (JNum (MessagesSent m)) +:+
  printRow "Elections" (JNum (ElectionCount m)) +:+
  printRow "Proposals" (JNum (ProposalsTotal m)) +:+
  printRow "Reads" (JNum (ReadsTotal m)) +:+
  printRow "State" (JStr (CurrentState m)).

Definition kv_shown (order : list (string * Json) → list (string * Json)) (kv : KV) : string :=
  if decide (kv_data kv = ∅) then ""
  else newline +:+ printHeader "KV DATA" +:+
    String.concat "" ((fun x => printRow x.1 x.2) <$> order (map_to_list (JStr <$> kv_data kv))).

Definition shown (order : list (string * Json) → list (string * Json)) (isnil : bool) (n : Node)
    : string :=
  let r := n_raft n in
  printHeader "NODE STATUS" +:+
  printRow "Node ID" (JStr (ncID (n_cfg n))) +:+
  printRow "State" (JStr (NodeState_String (state r))) +:+
  printRow "Term" (JNum (currentTerm r)) +:+
  printRow "Leader" (JStr (leaderID r)) +:+
  printRow "Commit Index" (JNum (commitIndex r)) +:+
  printRow "Applied Index" (JNum (lastApplied r)) +:+
  printRow "Log Length" (JNum (N.of_nat (length (log r)))) +:+
  printRow "KV Size" (JNum (N.of_nat (size (kv_data (n_fsm n))))) +:+
  peers_shown isnil (peers r) +:+ metrics_shown (n_metrics n) +:+ kv_shown order (n_fsm n).

Ltac at_key := by repeat first [apply list_elem_of_here|apply list_elem_of_further].

Lemma status_keys isnil s : NoDup (status_fields isnil s).*1.
Proof.
  unfold status_fields, kv_data_json. apply (bool_decide_unpack _). case_decide; by vm_compute.
Qed.

Lemma status_field isnil s k v :
  (k, v) ∈ status_fields isnil s → field (entries_map (status_fields isnil s)) k = v.
Proof. intros Hin. unfold field. by rewrite (entries_lookup _ k v (status_keys isnil s) Hin). Qed.

Lemma head_fields isnil s (f := field (entries_map (status_fields isnil s))) :
  f "node_id" = JStr (nsNodeID s) ∧ f "state" = JStr (nsState s) ∧ f "term" = JNum (nsTerm s) ∧
  f "leader_id" = JStr (nsLeaderID s) ∧ f "commit_index" = JNum (nsCommitIdx s) ∧
  f "applied_index" = JNum (nsAppliedIdx s) ∧
  f "log_length" = JNum (N.of_nat (nsLogLength s)) ∧ f "kv_size" = JNum (N.of_nat (nsKVSize s)).
Proof. unfold f. split_and!; apply status_field, elem_of_app; left; at_key. Qed.

Lemma strings_shown (ps : list string) : fmt_v 0 <$> (JStr <$> ps) = ps.
Proof. induction ps as [|p ps IH]; [done|]. rewrite !fmap_cons, IH. done. Qed.

Lemma peers_row_shown isnil s :
  peers_row (entries_map (status_fields isnil s)) = peers_shown isnil (nsPeers s).
Proof.
  unfold peers_row. rewrite (status_field isnil s "peers" (strings_json isnil (nsPeers s))).
  2: { apply elem_of_app. left. at_key. }
  unfold strings_json, peers_shown. destruct (nsPeers s) as [|p ps].
  - rewrite decide_True by done. destruct isnil.
    + by rewrite decide_True.
    + by rewrite decide_False by (by intros [_ ?]).
  - rewrite decide_False by done. rewrite decide_False by (by intros [? _]).
    by rewrite strings_shown.
Qed.

Lemma metrics_rows_shown isnil s m :
  nsMetrics s = Metrics_Snapshot m →
  metrics_rows (entries_map (status_fields isnil s)) = metrics_shown m.
Proof.
  intros Hm. unfold metrics_rows. rewrite (status_field isnil s "metrics" (snapshot_json (nsMetrics s))).
  2: { unfold status_fields. rewrite !elem_of_app. right. right. by apply list_elem_of_singleton. }
  rewrite Hm. reflexivity.
Qed.

Lemma kv_rows_shown order isnil s kv :
  nsKVData s = kv_data kv →
  kv_rows order (entries_map (status_fields isnil s)) = kv_shown order kv.
Proof.
  intros Hkv. unfold kv_rows, kv_shown. destruct (decide (kv_data kv = ∅)) as [He|He].
  - unfold field. rewrite entries_missing; [done|]. unfold status_fields, kv_data_json.
    rewrite Hkv, decide_True by done. apply (bool_decide_unpack _). by vm_compute.
  - rewrite (status_field isnil s "kv_data" (JObj (sorted_entries (JStr <$> kv_data kv)))).
    2: { unfold status_fields, kv_data_json. rewrite Hkv, decide_False by done.
         rewrite !elem_of_app. right. left. by apply list_elem_of_singleton. }
    rewrite entries_map_sorted, decide_True; [done|]. rewrite map_size_fmap.
    destruct (decide (size (kv_data kv) = 0)) as [H0|]; [|lia].
    by apply map_size_empty_iff in H0.
Qed.

(** C40: the status command shows the node.  When the numbers of its status fit
    a float64 exactly and its strings are UTF-8, what [phalanx status -addr a]
    prints, from the answer of the debug endpoint at [a], is the table of the
    node's own identity, role, term, leader, indices, store size, peers, counters
    and key-value pairs, and the exit code is 0: no field is lost or taken for
    another on the way through the struct tags, the JSON document and the
    client's untyped maps. *)
Theorem status_shows_node rpcs http_get order n isnil addr :
  plain_status (nodeStatus n) →
  http_get (status_url addr) = inr (hrBody (debug_mux n isnil "/debug/status")) →
  cli_main rpcs (doStatus http_get order) ["status"; "-addr"; addr] =
    exit (shown order isnil n) "" 0.
Proof.
  intros Hplain Hget. unfold cli_main. rewrite decide_False, decide_False, decide_True by done.
  unfold doStatus. rewrite (parseAddr_flag [] addr []) by (unfold no_flag; set_solver).
  cbn [parseAddr fst snd app]. rewrite Hget. unfold debug_mux. rewrite decide_True by done.
  cbn [DebugHandler hrBody]. rewrite json_roundtrip by (by apply plain_status_json).
  unfold status_json. cbn [unmarshal_map]. f_equal. unfold status_table.
  rewrite peers_row_shown, (metrics_rows_shown isnil _ (n_metrics n)), (kv_rows_shown order isnil _ (n_fsm n))
    by done.
  destruct (head_fields isnil (nodeStatus n)) as (-> & -> & -> & -> & -> & -> & -> & ->).
  reflexivity.
Qed.
End shown.

(** ** Numbers *)

Definition digit (c : ascii) : Prop := c ≠ "e"%char.

Lemma pretty_go_digits n s :
  Forall digit (String.list_ascii_of_string s) → Forall digit (String.list_ascii_of_string (pretty_N_go n s)).
Proof.
  revert s. induction (N.lt_wf_0 n) as [n _ IH]; intros s Hs.
  destruct (decide (n = 0)%N) as [->|Hn]; [by rewrite pretty_N_go_0|].
  rewrite pretty_N_go_step by lia. apply IH; [apply N.div_lt; lia|].
  constructor; [|done]. unfold digit, pretty_N_char. by repeat case_match.
Qed.

Lemma pretty_digits (n : N) : Forall digit (String.list_ascii_of_string (pretty n)).
Proof.
  unfold pretty, pretty_N. case_decide; [by repeat constructor|]. apply pretty_go_digits. constructor.
Qed.

Lemma list_ascii_app s t :
  String.list_ascii_of_string (s +:+ t) = String.list_ascii_of_string s ++ String.list_ascii_of_string t.
Proof. induction s as [|c s IH]; [done|]. simpl. f_equal. exact IH. Qed.

(** Large numbers lose their decimal form.  The status client decodes JSON
    numbers into float64 values and prints them with [%v]: a term, index, length or
    counter is shown in decimal exactly when it is below one million; from there
    on it is shown with an exponent. *)
Theorem numbers_shown :
  (∀ n, fmt_float n = pretty n ↔ (n < 1000000)%N) ∧
  fmt_float 1000000 = "1e+06" ∧ fmt_float 1234567 = "1.234567e+06" ∧
  fmt_float 1230000000 = "1.23e+09".
Proof.
  split; [|by vm_compute]. intros n. unfold fmt_float. case_decide as Hn; [done|].
  split; [|done]. intros Heq. exfalso. pose proof (pretty_digits n) as Hd. rewrite <- Heq in Hd.
  cbv zeta in Hd. rewrite !list_ascii_app in Hd. apply Forall_app in Hd as [_ Hd].
  apply Forall_app in Hd as [Hd _]. inversion Hd as [|? ? He _]. by apply He.
Qed.

(** ** Addresses *)

(** The scheme is added unless the address begins with the letters "http", so a
    host whose name begins with them gets none; with the defaults, the client
    asks the address at which the node listens. *)
Theorem status_addresses :
  status_url "localhost:8080" = "http://localhost:8080/debug/status" ∧ debugAddr "" = ":8080" ∧
  status_url "http://h:1" = "http://h:1/debug/status" ∧
  status_url "httpd-0:8080" = "httpd-0:8080/debug/status".
Proof. by vm_compute. Qed.

(** ** The witness *)

Module SampleJson.
#[export] Program Instance sample_json : JsonText := {|
  Body := string + Json;
  raw_text := inl;
  json_render _ j := inr j;
  json_parse b := match b with inl _ => inl "invalid character" | inr j => inr j end;
  utf8 _ := True
|}.
Next Obligation. done. Qed.
Next Obligation. done. Qed.
End SampleJson.

Section witness.
Import SampleStore SampleJson.

(** The network as the client sees it: one node, at h:8080. *)
Definition sample_http (url : string) : string + Body :=
  if decide (url = "http://h:8080/debug/status")
  then inr (hrBody (debug_mux node_with_x false "/debug/status")) else inl "refused".

Lemma status_shows_node_witness :
  cli_main sample_rpcs (doStatus sample_http id) ["status"; "-addr"; "h:8080"] =
    exit (shown id false node_with_x) "" 0.
Proof.
  apply (status_shows_node sample_rpcs sample_http id node_with_x false "h:8080").
  - split; [|split; [|split; [|split]]].
    + apply (bool_decide_unpack _). by vm_compute.
    + by apply Forall_true.
    + by intros k v _.
    + apply (bool_decide_unpack _). by vm_compute.
    + exact I.
  - reflexivity.
Defined.
End witness.
