(* ===== verification/Logger.v ===== *)
(** * The logger (src/logger/logger.go)

    A handler that adds the node and its current term to every record, around
    an inner handler of log/slog, which is a class.  The term is a shared
    atomic cell: it is read when a record is handled, not when the logger is
    made. *)

From S2P Require Import Prelude.

(** An attribute: a string or an unsigned integer under a key. *)
Inductive AttrValue := AString (s : string) | AUint64 (n : N).

Record Attr := mkAttr { at_key : string; at_value : AttrValue }.

Record LogRecord := mkLogRecord { lr_message : string; lr_attrs : list Attr }.

Definition AddAttrs (r : LogRecord) (attrs : list Attr) : LogRecord :=
  mkLogRecord (lr_message r) (lr_attrs r ++ attrs).

Class SlogHandler := {
  Inner : Type;
  HandleError : Type;
  in_enabled : Inner → Z → bool;
  in_handle : Inner → LogRecord → option HandleError;
  in_with_attrs : Inner → list Attr → Inner;
  in_with_group : Inner → string → Inner;
  in_json : Inner                     (* NewJSONHandler(os.Stderr, level debug) *)
}.

Section logger.
Context {SH : SlogHandler}.

Record PhalanxHandler := mkPhalanxHandler { inner : Inner; nodeID : string }.

Definition Enabled (h : PhalanxHandler) (level : Z) : bool := in_enabled (inner h) level.

(** The record that reaches the inner handler when the cell holds [term]. *)
Definition decorate (h : PhalanxHandler) (term : N) (r : LogRecord) : LogRecord :=
  AddAttrs r [mkAttr "node_id" (AString (nodeID h)); mkAttr "term" (AUint64 term)].

Definition Handle (h : PhalanxHandler) (term : N) (r : LogRecord) : option HandleError :=
  in_handle (inner h) (decorate h term r).

Definition WithAttrs (h : PhalanxHandler) (attrs : list Attr) : PhalanxHandler :=
  mkPhalanxHandler (in_with_attrs (inner h) attrs) (nodeID h).

Definition WithGroup (h : PhalanxHandler) (name : string) : PhalanxHandler :=
  mkPhalanxHandler (in_with_group (inner h) name) (nodeID h).

Definition New_logger (node : string) : PhalanxHandler := mkPhalanxHandler in_json node.

(** The handlers that the program can derive from one. *)
Inductive derived (h : PhalanxHandler) : PhalanxHandler → Prop :=
  | derived_refl : derived h h
  | derived_attrs h' attrs : derived h h' → derived h (WithAttrs h' attrs)
  | derived_group h' name : derived h h' → derived h (WithGroup h' name).

(** Every record, through whatever logger derived from the node's, reaches its
    inner handler with the node's identity and the term of that moment. *)
Theorem records_are_attributed node h term r :
  derived (New_logger node) h →
  ∃ r', Handle h term r = in_handle (inner h) r' ∧ lr_message r' = lr_message r ∧
    lr_attrs r' = lr_attrs r ++ [mkAttr "node_id" (AString node); mkAttr "term" (AUint64 term)].
Proof.
  intros Hd. assert (nodeID h = node) as <- by (by induction Hd).
  by exists (decorate h term r).
Qed.
End logger.
